(* ===== verification/_CoqProject ===== *)
-Q . S2P
Prelude.v
Usize.v
Atomic.v
Errors.v
Wait.v
Notify.v
Spsc.v
Mpsc.v
Sharded.v
Seq.v
NotifySeq.v
NotifyProps.v
LoomNotify.v
WaitProps.v
Ring.v
Queue.v
SpscSeq.v
SpscRefine.v
SpscBlocking.v
ShardedSeq.v
ShardedRefine.v
ShardedProps.v
ShardedFair.v
MpscSeq.v
MpscRefine.v
MpscBlocking.v
MpscCodec.v
Batch.v
Limits.v
Memory.v
Machine.v
Logic.v
Parking.v
SpscInv.v
SpscConc.v
SpscRuns.v
SpscCounters.v
Track.v
SpscWait.v
SpscWake.v
SpscPark.v
Findings.v
MpscInv.v
MpscProt.v
MpscActs.v
MpscTake.v
MpscDrop.v
MpscFree.v
MpscCalls.v
MpscConc.v
MpscOps.v
MpscClients.v
MpscRuns.v
MpscWatch.v
MpscRxWait.v
MpscRxWake.v
MpscTxWait.v
MpscTxWake.v
MpscPark.v
Typing.v
TypedOps.v
TypeSafety.v
Tests.v
