(* ===== verification/Prelude.v ===== *)
(** * Verification of [ultima_rings]

    Bounded in-process channels for Rust: a single-producer ring
    ([src/src/spsc.rs]), a multi-producer ring with a claim counter and
    per-slot availability rounds ([src/src/mpsc.rs]), and a multi-producer
    channel made of one single-producer ring per sender
    ([src/src/sharded.rs]); on top of wait strategies ([src/src/wait.rs]), a
    parking layer ([src/src/notify.rs]) and the atomics facade
    ([src/src/atomic.rs]); errors and argument checks are in
    [src/src/lib.rs].

    ** How the code is modelled

    Every function of the crate is a program: a value of [Atomic.prog], the
    free monad over the crate's effects (atomic loads, stores and
    read-modify-writes with their orderings, fences, the [MaybeUninit] cells,
    the mutexes of the notify layer, park and unpark, timing hints,
    allocation). Functions keep the names, the order of effects and the early
    returns of the source; [&mut self] is state passing (a handle goes in, a
    handle comes out), a panic is [Panicked], a [loop] is unfolded with fuel.
    What the crate uses of the standard library is modelled by its documented
    behaviour: mutexes, [park] and [unpark] as effects, the clone and the drop of
    an [Arc] as programs over its strong count ([Spsc.Arc_drop],
    [Mpsc.Arc_drop]: the drop of the block by the last owner is the crate's).
    A callback of [drain] is a function over its captured state that also
    says whether it panics. Machine integers are [Z] with the width, the
    overflow behaviour and the debug assertions of a [Target] ([Usize]).

    Programs have two meanings, both executable:
    - [Seq.run]: one thread at a time over a plain store. Uninitialized reads,
      writes over a live value and accesses out of the block, its mutexes
      included, are faults.
    - [Memory.step] and [Machine.exec]: threads over a release/acquire memory.
      Every location keeps its stores, threads carry views, loads may read any
      store the thread is not past, stores go to any free later timestamp,
      SeqCst fences exchange a global view, non-atomic accesses that are not
      ordered after all earlier ones are races, and touching a block that was
      freed, its mutexes included, is a fault. A schedule is a list of
      choices; quantifying over schedules is quantifying over interleavings,
      stale reads and spurious failures.

    ** Files

    - [Usize], [Atomic], [Errors]: integers, effects, [lib.rs].
    - [Wait], [Notify], [Spsc], [Mpsc], [Sharded]: the modules of the crate,
      function by function.
    - [Seq], [NotifySeq], [Ring], [Queue]: the sequential interpreter and its
      lemmas, the notify layer's runs, index arithmetic, the specification of
      [drain].
    - [SpscSeq], [SpscRefine], [SpscBlocking]; [MpscSeq], [MpscRefine],
      [MpscBlocking]; [ShardedSeq], [ShardedRefine], [ShardedProps],
      [ShardedFair]: representation invariant, refinement of each operation,
      clients, consequences.
    - [MpscCodec], [Batch]: the slot encoding of a published sequence number;
      [drain] against a loop of [try_recv].
    - [NotifyProps], [WaitProps], [Limits]: the notify hand-off, the idle
      ladder, constructor checks and the ends of the counters. [LoomNotify]: the
      notify layer of the model checker's build, as step relations over a flag
      of which threads may load stale values.
    - [Memory], [Machine], [Logic]: the weak-memory machine, thread pools and
      schedules, and a program logic whose adequacy theorem carries a memory
      invariant to every reachable configuration.
    - [SpscInv], [SpscConc], [SpscRuns]: the memory invariant of the SPSC
      ring, the safety of every operation, and what every concurrent run
      guarantees.
    - [SpscCounters]: the two shared counters of any reachable configuration.
    - [Track], [SpscWait], [SpscWake], [SpscPark]: a second logic that runs
      along the first and follows where each thread is in its parking handshake
      (registered, flagged, fenced, asleep, owing a wake), the invariant that
      ties those stages to the parked flags, the fences and the park tokens,
      the stages every operation passes through, and the absence of lost
      wakeups.
    - [Parking]: rules for the actions no protocol depends on, against the
      interface [Oblivious] that both rings' invariants implement.
    - [MpscInv], [MpscProt], [MpscActs], [MpscTake], [MpscDrop], [MpscFree],
      [MpscCalls]: the protocol of the MPSC ring (a log of tickets, what each
      thread knows) and that every action keeps it: claims, writes and
      publications of the senders; reads and the head of the receiver; the
      counts, clones and closings; the last owner; calls and new threads.
    - [MpscConc], [MpscOps], [MpscClients], [MpscRuns]: the rules, the
      operations, their clients, and what every concurrent run guarantees.
    - [MpscWatch]: what a park protocol of the MPSC ring promises about the
      actions of its operations (the class [Protocol]); from the promises alone
      every call of every client follows the protocol. [MpscRxWait] and
      [MpscRxWake] keep them for the receiver's parker, [MpscTxWait] and
      [MpscTxWake] for the senders' waiter list: the stages, the invariant that
      ties them to flags, registrations, fences and tokens, and the actions.
      [MpscPark] runs both along the same schedule: no lost wakeup.
    - [Typing], [TypedOps], [TypeSafety]: the types of the shared locations, a
      typing judgement on programs that says what excuses a panic, and its
      soundness on the machine; every operation is well typed and keeps its
      handle in range; clients of the three channels (those of the sharded
      channel are defined here).
    - [Tests]: the unit tests of the crate's modules as programs, run on three
      targets as a regression check of the definitions.
    - [Findings]: schedules on which the code departs from its comments.

    ** What the theorems show

    - Refinement: any sequence of calls of a client of one, many or sharded
      producers observes exactly a bounded FIFO queue (one per sender for the
      sharded channel), drops included ([spsc_refines_queue],
      [mpsc_refines_queue], [sharded_refines_queues]).
    - Concurrency of the SPSC ring, for every schedule of the weak machine:
      no race, no uninitialized read, no lost value, no panic; FIFO and
      exactly once; bounded occupancy; disconnect reports are final and lose
      nothing; when both handles are gone every value was received or dropped
      ([SpscRuns]).
    - Parking of the SPSC ring, for every schedule of the weak machine and drain
      callbacks that return: no wakeup is lost. A thread asleep while its peer
      is between calls is waiting for a value or a free slot that does not
      exist, its peer is still there, and both never sleep at once
      ([spsc_no_lost_wakeup]). [Findings] shows that callbacks that panic break
      this.
    - The invariant of the SPSC counters ([spsc_counters_invariant]); with no
      bound on the calls, in builds without overflow checks no call of the three
      channels panics, save a clone at [Arc]'s limit ([calls_never_panic]); what
      [slot_published] says of every number, before and after each publication
      ([slot_round_roundtrip]); [drain] delivers, ends and leaves the channel as a
      loop of [try_recv] does, wake-ups aside ([spsc_drain_is_recv_loop],
      [mpsc_drain_is_recv_loop]).
    - Concurrency of the MPSC ring, as for the SPSC ring, for any number of senders cloned
      at run time: safety; one order of all sends that every thread's
      observations agree with; bounded occupancy; final disconnects; no leak
      ([MpscRuns]).
    - Parking of the MPSC ring, for every schedule of the weak machine, any
      number of senders and drain callbacks that return: no wakeup is lost. A
      receiver asleep while all senders sleep or are between calls has received
      everything and is not alone; a sender asleep while the receiver sleeps or
      is between calls faces a full ring and a live receiver
      ([mpsc_no_lost_wakeup]).
    - Sharded sweeps: verdicts, completeness of [drain] ([ShardedProps]); no
      shard waits for more than [VISIT_BUDGET] receptions per other shard
      ([ShardedFair]).
    - Waiting: the idle ladder, the parkers' hand-off, wake-all, and when
      blocking calls return or wait ([WaitProps], [NotifyProps],
      [SpscBlocking], [MpscBlocking]); the parking of the model checker's build
      loses no wakeup, whatever stale flag a thread loads ([LoomNotify]).
    - Edges: constructor checks and the ends of the counters ([Limits]);
      departures from the documentation ([Findings]).


    ** Bounds and fuel

    Loops of the source that end by themselves are unfolded with enough fuel
    and the theorems say how much that is: [cap + 1] for [drain] and the drop
    of the MPSC block, the number of upcoming spurious failures for the claim
    loop, one iteration for blocking calls that need not wait. A blocking call
    that must wait runs out of any fuel under a spinning strategy and blocks
    under [Park], and that is what is proved of it. Sequential theorems hold
    for every capacity the constructors accept and every target; the
    concurrent ones hold while at most [usize::MAX] calls are made on an SPSC
    ring, which is what keeps its counters from wrapping, and while the calls
    on an MPSC ring stay below half of [Arc]'s limit on references, since every
    call may be a clone. Only [calls_never_panic] needs no such bound.

    ** Not modelled

    - Cache-line padding and [size_of] assertions (layout, no behaviour).
    - [Send]/[Sync] markers (no run-time content).
    - The examples and benchmarks: timing and printing around the rings.
    - The unit tests of [wait.rs] that measure wall-clock time, and the
      integration tests of [src/tests] (loom and stress drivers).
*)
From stdpp Require Export base tactics numbers list list_numbers gmap option.
From Stdlib Require Export ZArith Lia.
#[export] Set Default Goal Selector "!".
#[export] Set Default Proof Using "Type".
Global Open Scope Z_scope.

(** The hint database of the development: facts the components share
    (range side conditions, view order, stability of invariants). *)
Create HintDb rings.

(** ** Tactics *)

(** Destruct the condition of the innermost [if] of the goal, turning boolean
    comparisons into arithmetic facts. *)
Ltac case_bool :=
  match goal with
  | |- context [if Z.eqb ?a ?b then _ else _] => destruct (Z.eqb_spec a b)
  | |- context [if Z.ltb ?a ?b then _ else _] => destruct (Z.ltb_spec a b)
  | |- context [if Z.leb ?a ?b then _ else _] => destruct (Z.leb_spec a b)
  | |- context [if Z.geb ?a ?b then _ else _] =>
      rewrite (Z.geb_leb a b); destruct (Z.leb_spec b a)
  | |- context [if ?b then _ else _] => destruct b eqn:?
  end.

(** ** Integers *)

Section integers.
Implicit Types x y k m n : Z.

(** [x & (2^k - 1)] is the remainder modulo [2^k]. *)
Lemma land_mask x k : 0 ≤ k → Z.land x (2 ^ k - 1) = x mod 2 ^ k.
Proof. intros Hk. rewrite Z.sub_1_r, <-Z.ones_equiv. by apply Z.land_ones. Qed.

Lemma pow2_pos k : 0 ≤ k → 0 < 2 ^ k.
Proof. intros. by apply Z.pow_pos_nonneg. Qed.

Lemma pow2_divide k m : 0 ≤ k ≤ m → (2 ^ k | 2 ^ m).
Proof.
  intros [? ?]. exists (2 ^ (m - k)). rewrite <-Z.pow_add_r by lia. f_equal. lia.
Qed.

(** Reducing modulo a multiple first does not change the remainder. *)
Lemma mod_mod_divide x m n : 0 < n → 0 < m → (n | m) → (x mod m) mod n = x mod n.
Proof. intros. by apply Z.mod_mod_divide. Qed.

(** Two numbers closer than [n] with equal remainders are equal. *)
Lemma mod_inj_window x y n :
  0 < n → x mod n = y mod n → - n < x - y < n → x = y.
Proof.
  intros Hn Heq Hw.
  pose proof (Z.div_mod x n ltac:(lia)). pose proof (Z.div_mod y n ltac:(lia)).
  assert (x / n = y / n) by nia. lia.
Qed.

Lemma div_add_1 x n : 0 < n → (x + n) / n = x / n + 1.
Proof. intros. rewrite <-(Z.mul_1_l n) at 1. by rewrite Z.div_add by lia. Qed.

Lemma mod_add_1 x n : 0 < n → (x + n) mod n = x mod n.
Proof. intros. rewrite <-(Z.mul_1_l n) at 1. by rewrite Z.mod_add by lia. Qed.
End integers.

(** A prefix grows by the next element of the list. *)
Lemma prefix_snoc {A} (l1 l2 : list A) x :
  l1 `prefix_of` l2 → l2 !! length l1 = Some x → l1 ++ [x] `prefix_of` l2.
Proof.
  intros [k ->] Hx. rewrite lookup_app_r, Nat.sub_diag in Hx by lia.
  destruct k as [|y k]; simplify_eq/=. exists k. by rewrite <-app_assoc.
Qed.

#[export] Hint Resolve pow2_pos : rings.
