(* ===== verification/Usize.v ===== *)
(** Machine integers of the crate: [usize] at the target's width with the
    build profile's overflow behaviour, the [u32] and [i64] arithmetic the
    cores use, and the standard-library bit functions they call. *)
From S2P Require Import Prelude.
Local Open Scope Z_scope.

(** The compilation target: pointer width, whether arithmetic overflow panics
    ([overflow-checks], on in debug builds) or wraps (release), and whether
    [debug_assert!] is compiled in. *)
Class Target := {
  usize_bits : Z;
  usize_bits_ok : usize_bits = 16 ∨ usize_bits = 32 ∨ usize_bits = 64;
  overflow_checks : bool;
  debug_assertions : bool;
}.

#[global] Instance x86_64_release : Target :=
  {| usize_bits := 64; usize_bits_ok := or_intror (or_intror eq_refl); overflow_checks := false; debug_assertions := false |}.
Definition x86_64_debug : Target :=
  {| usize_bits := 64; usize_bits_ok := or_intror (or_intror eq_refl); overflow_checks := true; debug_assertions := true |}.
Definition arm32_release : Target :=
  {| usize_bits := 32; usize_bits_ok := or_intror (or_introl eq_refl); overflow_checks := false; debug_assertions := false |}.

(** [usize::is_power_of_two]: exactly one bit set. *)
Definition is_power_of_two (n : Z) : bool := (0 <? n) && (n =? 2 ^ Z.log2 n).

Fixpoint pos_trailing_zeros (p : positive) : Z :=
  match p with
  | xO q => 1 + pos_trailing_zeros q
  | _ => 0
  end.

(** [usize::is_multiple_of]: for a zero divisor only zero is a multiple. *)
Definition is_multiple_of (n d : Z) : bool :=
  if d =? 0 then n =? 0 else n mod d =? 0.

(** [x as i64]: the low 64 bits read in two's complement. *)
Definition as_i64 (x : Z) : Z :=
  let r := x mod 2 ^ 64 in if r <? 2 ^ 63 then r else r - 2 ^ 64.

Definition u32_max : Z := 2 ^ 32 - 1.
Definition u32_saturating_add (a b : Z) : Z := Z.min u32_max (a + b).

Section usize.
Context `{Target}.

Definition usize_modulus : Z := 2 ^ usize_bits.
Definition usize_max : Z := usize_modulus - 1.
Definition wrap (x : Z) : Z := x mod usize_modulus.

(** A value that a [usize] can hold. *)
Definition is_usize (x : Z) : Prop := 0 ≤ x < usize_modulus.

(** [usize::trailing_zeros]; the width of the type at zero. *)
Definition trailing_zeros (n : Z) : Z :=
  match n with Zpos p => pos_trailing_zeros p | _ => usize_bits end.

(** [a + b] and [a - b]; [None] is the overflow panic of a checked build. *)
Definition checked (exact : Z) : option Z :=
  if overflow_checks && negb ((0 <=? exact) && (exact <=? usize_max))
  then None else Some (wrap exact).
Definition usize_add (a b : Z) : option Z := checked (a + b).
Definition usize_sub (a b : Z) : option Z := checked (a - b).

Definition saturating_add (a b : Z) : Z := Z.min usize_max (a + b).

(** [a * b] on [u32], with the same overflow behaviour. *)
Definition u32_mul (a b : Z) : option Z :=
  if overflow_checks && (u32_max <? a * b) then None else Some ((a * b) mod 2 ^ 32).

(** ** Lemmas *)

Lemma usize_bits_pos : 0 < usize_bits.
Proof. destruct usize_bits_ok as [-> | [-> | ->]]; lia. Qed.

Lemma usize_bits_le : usize_bits ≤ 64.
Proof. destruct usize_bits_ok as [-> | [-> | ->]]; lia. Qed.

Lemma usize_modulus_pos : 0 < usize_modulus.
Proof. apply pow2_pos. pose proof usize_bits_pos. lia. Qed.

Lemma usize_modulus_ge : 2 ^ 16 ≤ usize_modulus.
Proof. unfold usize_modulus. destruct usize_bits_ok as [-> | [-> | ->]]; lia. Qed.

Lemma usize_modulus_le : usize_modulus ≤ 2 ^ 64.
Proof. unfold usize_modulus. destruct usize_bits_ok as [-> | [-> | ->]]; lia. Qed.

Lemma wrap_range x : is_usize (wrap x).
Proof. apply Z.mod_pos_bound, usize_modulus_pos. Qed.

Lemma wrap_small x : is_usize x → wrap x = x.
Proof. intros. by apply Z.mod_small. Qed.

Lemma wrap_idem x : wrap (wrap x) = wrap x.
Proof. apply wrap_small, wrap_range. Qed.

Lemma wrap_add_l x y : wrap (wrap x + y) = wrap (x + y).
Proof. apply Zplus_mod_idemp_l. Qed.

Lemma wrap_sub x y : wrap (wrap x - wrap y) = wrap (x - y).
Proof. symmetry. apply Zminus_mod. Qed.

(** Wrapped counters that are less than the modulus apart are equal exactly
    when the counters are. *)
Lemma wrap_inj x y :
  wrap x = wrap y → - usize_modulus < x - y < usize_modulus → x = y.
Proof. intros. eapply mod_inj_window; eauto using usize_modulus_pos. Qed.

Lemma wrap_eqb x y :
  - usize_modulus < x - y < usize_modulus → (wrap x =? wrap y) = (x =? y).
Proof.
  intros. destruct (Z.eqb_spec x y) as [->|Hne]; [by apply Z.eqb_refl|].
  apply Z.eqb_neq. intros ?. by apply Hne, wrap_inj.
Qed.

Lemma checked_Some x y : checked x = Some y → y = wrap x.
Proof. unfold checked. case_match; congruence. Qed.

Lemma checked_None x : checked x = None → overflow_checks = true ∧ ¬ is_usize x.
Proof.
  unfold checked, is_usize, usize_max. case_match eqn:E; [|done].
  apply andb_true_iff in E as [-> E]. intros _. split; [done|lia].
Qed.

Lemma checked_in_range x : is_usize x → checked x = Some x.
Proof.
  intros Hx. unfold checked. rewrite wrap_small by done.
  unfold is_usize, usize_max in *.
  replace ((0 <=? x) && (x <=? usize_modulus - 1)) with true by lia.
  by destruct overflow_checks.
Qed.
End usize.

#[export] Hint Resolve wrap_range usize_modulus_pos : rings.

Lemma is_power_of_two_spec n : is_power_of_two n = true ↔ ∃ k, 0 ≤ k ∧ n = 2 ^ k.
Proof.
  unfold is_power_of_two. rewrite andb_true_iff, Z.ltb_lt, Z.eqb_eq. split.
  - intros [? ->]. exists (Z.log2 n). split; [apply Z.log2_nonneg|done].
  - intros (k & ? & ->). rewrite Z.log2_pow2 by done. split; [by apply pow2_pos|done].
Qed.

Lemma pos_trailing_zeros_nonneg p : 0 ≤ pos_trailing_zeros p.
Proof. induction p; simpl; lia. Qed.

(** For a power of two the trailing zeros are its binary logarithm. *)
Lemma trailing_zeros_pow2 `{Target} k : 0 ≤ k → trailing_zeros (2 ^ k) = k.
Proof.
  intros Hk. pattern k. apply natlike_ind; [done| |done].
  clear k Hk. intros k Hk IH. rewrite Z.pow_succ_r by done.
  pose proof (pow2_pos k Hk) as Hp. destruct (2 ^ k) as [|p|p] eqn:E; try lia.
  change (2 * Z.pos p) with (Z.pos (xO p)). simpl in IH |- *. lia.
Qed.

Lemma as_i64_small x : 0 ≤ x < 2 ^ 63 → as_i64 x = x.
Proof.
  intros. unfold as_i64. rewrite Z.mod_small by lia. case_bool; lia.
Qed.

(** The cast loses nothing on 64 bits: two [u64] values with the same cast are equal. *)
Lemma as_i64_inj x y : 0 ≤ x < 2 ^ 64 → 0 ≤ y < 2 ^ 64 → as_i64 x = as_i64 y → x = y.
Proof.
  intros Hx Hy. unfold as_i64. rewrite (Z.mod_small x), (Z.mod_small y) by lia.
  cbv zeta. repeat case_bool; lia.
Qed.
