(* ===== verification/Atomic.v ===== *)
(** The effects of the crate as a free monad: programs over the atomics,
    cells, fences, mutexes and parking primitives that [src/atomic.rs]
    re-exports and [src/notify.rs] uses. The functions of the crate are
    [prog]s; their meaning is given twice, by the sequential interpreter of
    [Seq] and by the weak-memory machine of [Memory]. *)
From S2P Require Import Prelude Usize.
Local Open Scope Z_scope.

(** Thread identity ([std::thread::Thread]). *)
Abbreviation tid := nat.

(** [std::sync::atomic::Ordering]. *)
Inductive ordering := Relaxed | Acquire | Release | AcqRel | SeqCst.

(** The two single-waiter parkers of a ring. *)
Inductive side := Consumer | Producer.

(** The fields of the rings' shared blocks that live in memory; [Buf i] is the
    [UnsafeCell] of slot [i], [Round i] the availability round beside it. *)
Inductive field :=
  | Tail | Head | Disconnected
  | Claim | Senders | RxDropped | Round (i : nat)
  | Buf (i : nat)
  | Parked (s : side) | ParkerSlot (s : side)
  | Waiting | WaiterQueue
  | StrongCount.

(** A location: a field of the shared block of a ring ([Arc<Shared<T>>]). *)
Record loc := Loc { ring : nat; fld : field }.

#[global] Instance ordering_eq_dec : EqDecision ordering.
Proof. solve_decision. Defined.
#[global] Instance side_eq_dec : EqDecision side.
Proof. solve_decision. Defined.
#[global] Instance field_eq_dec : EqDecision field.
Proof. solve_decision. Defined.
#[global] Instance loc_eq_dec : EqDecision loc.
Proof. solve_decision. Defined.

Definition field_code (f : field) : nat * nat :=
  match f with
  | Tail => (0, 0) | Head => (0, 1) | Disconnected => (0, 2) | Claim => (0, 3)
  | Senders => (0, 4) | RxDropped => (0, 5) | Waiting => (0, 6) | WaiterQueue => (0, 7)
  | StrongCount => (0, 8) | Parked Consumer => (0, 9) | Parked Producer => (0, 10)
  | ParkerSlot Consumer => (0, 11) | ParkerSlot Producer => (0, 12)
  | Round i => (1, i) | Buf i => (2, i)
  end%nat.

Definition field_decode (c : nat * nat) : option field :=
  match c with
  | (0, 0) => Some Tail | (0, 1) => Some Head | (0, 2) => Some Disconnected
  | (0, 3) => Some Claim | (0, 4) => Some Senders | (0, 5) => Some RxDropped
  | (0, 6) => Some Waiting | (0, 7) => Some WaiterQueue | (0, 8) => Some StrongCount
  | (0, 9) => Some (Parked Consumer) | (0, 10) => Some (Parked Producer)
  | (0, 11) => Some (ParkerSlot Consumer) | (0, 12) => Some (ParkerSlot Producer)
  | (1, i) => Some (Round i) | (2, i) => Some (Buf i)
  | _ => None
  end%nat.

#[global] Instance field_countable : Countable field.
Proof. refine (inj_countable field_code field_decode _). by intros [| | | | | | | | [] | [] | | |]. Defined.

#[global] Instance loc_countable : Countable loc.
Proof.
  refine (inj_countable' (λ l, (ring l, fld l)) (λ p, Loc p.1 p.2) _). by intros [].
Defined.

(** A mutex sits in the shared block beside the flag that goes with it; the
    block is still there when the flag is. *)
Definition beside (l : loc) : loc :=
  match fld l with
  | ParkerSlot s => Loc (ring l) (Parked s)
  | WaiterQueue => Loc (ring l) Waiting
  | _ => l
  end.

(** Timing hints: no effect on memory. *)
Inductive hint := SpinLoop | YieldNow | ParkTimeout (nanos : Z).

(** Programs over payload type [T] returning [A]. *)
Inductive prog (T A : Type) : Type :=
  | Ret (a : A)
  (** A panic that the function does not handle. *)
  | Panicked
  (** A bounded unfolding of a source loop ran out. *)
  | OutOfFuel
  (** [Arc::new(Shared {..})]: a fresh ring with [n] uninitialized cells and
      the given atomics. *)
  | New (n : nat) (init : list (field * Z)) (k : nat → prog T A)
  | Load (l : loc) (o : ordering) (k : Z → prog T A)
  | Store (l : loc) (v : Z) (o : ordering) (k : prog T A)
  (** [swap], [fetch_add] and [fetch_sub]: replace [v] by [f v], return [v]. *)
  | Rmw (l : loc) (f : Z → Z) (o : ordering) (k : Z → prog T A)
  (** [compare_exchange_weak]: [inl cur] is [Ok], [inr cur] is [Err]. *)
  | CasWeak (l : loc) (expected new : Z) (so fo : ordering) (k : Z + Z → prog T A)
  | Fence (o : ordering) (k : prog T A)
  (** [MaybeUninit::write], [assume_init_read] and [assume_init_drop]. *)
  | WriteCell (l : loc) (v : T) (k : prog T A)
  | ReadCell (l : loc) (k : T → prog T A)
  | DropCell (l : loc) (k : prog T A)
  (** The block of a ring goes back to the allocator. *)
  | Dealloc (r : nat) (k : prog T A)
  (** Critical sections of [Mutex<Option<Thread>>] and [Mutex<Vec<Thread>>]. *)
  | SetSlot (l : loc) (k : prog T A)
  | TakeSlot (l : loc) (k : option tid → prog T A)
  | PushWaiter (l : loc) (k : prog T A)
  | DrainWaiters (l : loc) (k : list tid → prog T A)
  (** [thread::park()] and [Thread::unpark()]. *)
  | ParkThread (k : prog T A)
  | Unpark (t : tid) (k : prog T A)
  | Hint (h : hint) (k : prog T A).

Arguments Ret {T A} a.
Arguments Panicked {T A}.
Arguments OutOfFuel {T A}.
Arguments New {T A} n init k.
Arguments Load {T A} l o k.
Arguments Store {T A} l v o k.
Arguments Rmw {T A} l f o k.
Arguments CasWeak {T A} l expected new so fo k.
Arguments Fence {T A} o k.
Arguments WriteCell {T A} l v k.
Arguments ReadCell {T A} l k.
Arguments DropCell {T A} l k.
Arguments Dealloc {T A} r k.
Arguments SetSlot {T A} l k.
Arguments TakeSlot {T A} l k.
Arguments PushWaiter {T A} l k.
Arguments DrainWaiters {T A} l k.
Arguments ParkThread {T A} k.
Arguments Unpark {T A} t k.
Arguments Hint {T A} h k.

(** Sequencing. *)
Fixpoint bind {T A B : Type} (f : A → prog T B) (p : prog T A) : prog T B :=
  match p with
  | Ret a => f a
  | Panicked => Panicked
  | OutOfFuel => OutOfFuel
  | New n init k => New n init (λ r, bind f (k r))
  | Load l o k => Load l o (λ v, bind f (k v))
  | Store l v o k => Store l v o (bind f k)
  | Rmw l g o k => Rmw l g o (λ v, bind f (k v))
  | CasWeak l e n so fo k => CasWeak l e n so fo (λ r, bind f (k r))
  | Fence o k => Fence o (bind f k)
  | WriteCell l v k => WriteCell l v (bind f k)
  | ReadCell l k => ReadCell l (λ v, bind f (k v))
  | DropCell l k => DropCell l (bind f k)
  | Dealloc r k => Dealloc r (bind f k)
  | SetSlot l k => SetSlot l (bind f k)
  | TakeSlot l k => TakeSlot l (λ o, bind f (k o))
  | PushWaiter l k => PushWaiter l (bind f k)
  | DrainWaiters l k => DrainWaiters l (λ ts, bind f (k ts))
  | ParkThread k => ParkThread (bind f k)
  | Unpark t k => Unpark t (bind f k)
  | Hint h k => Hint h (bind f k)
  end.

#[export] Instance prog_ret (T : Type) : MRet (prog T) := λ A a, Ret a.
#[export] Instance prog_bind (T : Type) : MBind (prog T) := λ A B f p, bind f p.

Section primitives.
Context `{tgt : Target} {T : Type}.

Definition load (l : loc) (o : ordering) : prog T Z := Load l o Ret.
Definition load_bool (l : loc) (o : ordering) : prog T bool :=
  Load l o (λ v, Ret (negb (v =? 0))).
Definition store (l : loc) (v : Z) (o : ordering) : prog T unit := Store l v o (Ret tt).
Definition store_bool (l : loc) (b : bool) (o : ordering) : prog T unit :=
  store l (Z.b2z b) o.
Definition swap_bool (l : loc) (b : bool) (o : ordering) : prog T bool :=
  Rmw l (λ _, Z.b2z b) o (λ v, Ret (negb (v =? 0))).
(** [AtomicUsize::fetch_add] and [fetch_sub] wrap around. *)
Definition fetch_add (l : loc) (d : Z) (o : ordering) : prog T Z :=
  Rmw l (λ v, wrap (v + d)) o Ret.
Definition fetch_sub (l : loc) (d : Z) (o : ordering) : prog T Z :=
  Rmw l (λ v, wrap (v - d)) o Ret.
Definition compare_exchange_weak (l : loc) (e n : Z) (so fo : ordering) : prog T (Z + Z) :=
  CasWeak l e n so fo Ret.
Definition fence (o : ordering) : prog T unit := Fence o (Ret tt).
Definition write_cell (l : loc) (v : T) : prog T unit := WriteCell l v (Ret tt).
Definition read_cell (l : loc) : prog T T := ReadCell l Ret.
Definition drop_cell (l : loc) : prog T unit := DropCell l (Ret tt).
Definition dealloc (r : nat) : prog T unit := Dealloc r (Ret tt).
Definition spin_loop : prog T unit := Hint SpinLoop (Ret tt).
Definition yield_now : prog T unit := Hint YieldNow (Ret tt).
Definition park_timeout (nanos : Z) : prog T unit := Hint (ParkTimeout nanos) (Ret tt).
Definition park : prog T unit := ParkThread (Ret tt).
Definition unpark (t : tid) : prog T unit := Unpark t (Ret tt).

(** A checked operation: its overflow is a panic. *)
Definition arith (o : option Z) : prog T Z :=
  match o with Some z => Ret z | None => Panicked end.

(** [buf[i]]: the bounds check of slice indexing. *)
Definition index (len i : Z) : prog T nat :=
  if (0 <=? i) && (i <? len) then Ret (Z.to_nat i) else Panicked.

(** [Arc::clone]: one more strong reference; the process aborts when there
    were more than [isize::MAX]. *)
Definition MAX_REFCOUNT : Z := usize_modulus / 2 - 1.
Definition Arc_clone (strong : loc) : prog T unit :=
  n ← fetch_add strong 1 Relaxed;
  if MAX_REFCOUNT <? n then Panicked else mret tt.

(** [for _ in 0..n { body }]. *)
Fixpoint repeat_prog (n : nat) (body : prog T unit) : prog T unit :=
  match n with
  | O => Ret tt
  | S n => body ≫= λ _, repeat_prog n body
  end.
End primitives.

(** How a [drain] left: with its count, or unwinding out of the callback or an
    overflow check, in which case [PublishGuard] has run. *)
Inductive exit := Returned (count : Z) | Unwound.

#[global] Instance exit_eq_dec : EqDecision exit.
Proof. solve_decision. Defined.

(** Two locations with different fields are different. *)
Ltac loc_ne :=
  let E := fresh "E" in
  intros E; apply (f_equal fld) in E; cbn in E; first [discriminate E | congruence].
(** Look a location up through a chain of updates. *)
Ltac lookup_loc :=
  repeat first [rewrite lookup_insert_eq | rewrite lookup_insert_ne by loc_ne].
#[export] Hint Extern 1 (@eq loc _ _ → False) => loc_ne : rings.
