(* ===== verification/Errors.v ===== *)
(** The crate root ([src/lib.rs]): error types of the channel operations,
    their messages, and the capacity assertion of the constructors. *)
From stdpp Require Export strings.
From S2P Require Import Prelude Usize Atomic.
Local Open Scope Z_scope.

(** [core::result::Result]. *)
Inductive result (A E : Type) : Type :=
  | Ok (a : A)
  | Err (e : E).
Arguments Ok {A E} a.
Arguments Err {A E} e.

Inductive TrySendError (T : Type) : Type :=
  | Full (v : T)
  | SendDisconnected (v : T).
Arguments Full {T} v.
Arguments SendDisconnected {T} v.

Inductive SendError (T : Type) : Type :=
  | SendErr (v : T).
Arguments SendErr {T} v.

Inductive TryRecvError := Empty | RecvDisconnected.

Inductive RecvError := RecvErr.

#[global] Instance TrySendError_eq_dec `{EqDecision T} : EqDecision (TrySendError T).
Proof. solve_decision. Defined.
#[global] Instance SendError_eq_dec `{EqDecision T} : EqDecision (SendError T).
Proof. solve_decision. Defined.
#[global] Instance TryRecvError_eq_dec : EqDecision TryRecvError.
Proof. solve_decision. Defined.
#[global] Instance RecvError_eq_dec : EqDecision RecvError.
Proof. solve_decision. Defined.
#[global] Instance result_eq_dec `{EqDecision A, EqDecision E} : EqDecision (result A E).
Proof. solve_decision. Defined.

(** [impl Display]. *)
Definition fmt_TrySendError {T} (self : TrySendError T) : string :=
  match self with
  | Full _ => "ring is full"
  | SendDisconnected _ => "receiver disconnected"
  end.

Definition fmt_SendError {T} (self : SendError T) : string := "receiver disconnected".

Definition fmt_TryRecvError (self : TryRecvError) : string :=
  match self with
  | Empty => "ring is empty"
  | RecvDisconnected => "senders disconnected"
  end.

Definition fmt_RecvError (self : RecvError) : string := "senders disconnected".

(** The value an error hands back to the caller. *)
Definition into_inner {T} (e : TrySendError T) : T :=
  match e with Full v | SendDisconnected v => v end.

Definition assert_cap {T} (cap : Z) : prog T unit :=
  if (0 <? cap) && is_power_of_two cap then Ret tt else Panicked.
