(* ===== verification/Wait.v ===== *)
(** Wait strategies ([src/wait.rs]): the closed enum chosen per channel and
    the idle ladder of the two back-off strategies. Durations are counted in
    nanoseconds. *)
From S2P Require Import Prelude Usize Atomic.
Local Open Scope Z_scope.

Inductive WaitStrategy := BusySpin | Backoff | BackoffYield | Park.

#[global] Instance WaitStrategy_eq_dec : EqDecision WaitStrategy.
Proof. solve_decision. Defined.

Definition SPINS : Z := 10.
Definition YIELDS : Z := 20.

(** [Duration::from_micros], [Duration::from_millis], [Duration::MAX] and the
    multiplication by a [u32], which panics on overflow in every profile. *)
Definition from_micros (n : Z) : Z := n * 1000.
Definition from_millis (n : Z) : Z := n * 1000000.
Definition duration_max : Z := (2 ^ 64 - 1) * 1000000000 + 999999999.
Definition duration_mul (d n : Z) : option Z :=
  if d * n <=? duration_max then Some (d * n) else None.

Definition PARK_MIN : Z := from_micros 64.
Definition PARK_MAX : Z := from_millis 1.

Record Idle := MkIdle { step : Z; park_for : Z; yield_only : bool }.

Definition Idle_new : Idle :=
  {| step := 0; park_for := PARK_MIN; yield_only := false |}.

Definition for_strategy (strategy : WaitStrategy) : Idle :=
  {| step := step Idle_new; park_for := park_for Idle_new;
     yield_only := bool_decide (strategy = BackoffYield) |}.

(** One rung of the ladder. *)
Definition idle {T} (self : Idle) : prog T Idle :=
  self ← (if step self <? SPINS then
            _ ← spin_loop; mret self
          else if yield_only self || (step self <? SPINS + YIELDS) then
            _ ← yield_now; mret self
          else
            _ ← park_timeout (park_for self);
            doubled ← arith (duration_mul (park_for self) 2);
            mret {| step := step self; park_for := Z.min doubled PARK_MAX;
                    yield_only := yield_only self |});
  mret {| step := u32_saturating_add (step self) 1; park_for := park_for self;
          yield_only := yield_only self |}.
