(* ===== verification/Notify.v ===== *)
(** The notify layer ([src/notify.rs], [imp] of the normal build): the
    single-waiter [Parker] and the multi-waiter [WaiterList], as programs over
    the parked flag, the registration mutex and [thread::park]/[unpark]. *)
From S2P Require Import Prelude Usize Atomic.
Local Open Scope Z_scope.

(** A parker lives in the shared block of its ring, once per side. *)
Record Parker := { parked : loc; slot : loc }.
Definition parker_of (r : nat) (s : side) : Parker :=
  {| parked := Loc r (Parked s); slot := Loc r (ParkerSlot s) |}.

Record WaiterList := { waiting : loc; waiters : loc }.
Definition waiter_list_of (r : nat) : WaiterList :=
  {| waiting := Loc r Waiting; waiters := Loc r WaiterQueue |}.

(** [Parker::new()] and [WaiterList::new()]: the atomics they initialize; the
    mutexes start as [None] and the empty vector. *)
Definition Parker_new (s : side) : list (field * Z) := [(Parked s, Z.b2z false)].
Definition WaiterList_new : list (field * Z) := [(Waiting, Z.b2z false)].

Section notify.
Context {T : Type}.

Definition prepare_park (self : Parker) : prog T unit :=
  _ ← SetSlot (slot self) (Ret tt);
  store_bool (parked self) true Relaxed.

Definition cancel (self : Parker) : prog T unit :=
  store_bool (parked self) false Relaxed.

Definition Parker_park (self : Parker) : prog T unit :=
  _ ← park;
  store_bool (parked self) false Relaxed.

Definition wake (self : Parker) : prog T unit :=
  p ← load_bool (parked self) Relaxed;
  if (p : bool) then
    _ ← store_bool (parked self) false Relaxed;
    t ← TakeSlot (slot self) Ret;
    match t with
    | Some t => unpark t
    | None => mret tt
    end
  else mret tt.

Definition prepare_wait (self : WaiterList) : prog T unit :=
  _ ← PushWaiter (waiters self) (Ret tt);
  store_bool (waiting self) true Relaxed.

Definition WaiterList_park (self : WaiterList) : prog T unit := park.

(** [for t in list.drain(..) { t.unpark() }]. *)
Fixpoint unpark_all (ts : list tid) : prog T unit :=
  match ts with
  | [] => mret tt
  | t :: ts => _ ← unpark t; unpark_all ts
  end.

Definition wake_all (self : WaiterList) : prog T unit :=
  w ← swap_bool (waiting self) false Relaxed;
  if (w : bool) then
    ts ← DrainWaiters (waiters self) Ret;
    unpark_all ts
  else mret tt.
End notify.
