(* ===== verification/Spsc.v ===== *)
(** The single-producer single-consumer ring ([src/spsc.rs]): its shared
    block, handles and operations, function by function. *)
From S2P Require Import Prelude Usize Atomic Errors Wait Notify.
Local Open Scope Z_scope.

(** [Shared<T>]: the immutable fields; the atomics, cells and parkers are
    locations of the ring [sh_ring], the block the [Arc] points to. *)
Record Shared := MkShared {
  sh_ring : nat;
  buf_len : Z;
  mask : Z;
  cap : Z;
  strategy : WaitStrategy;
}.

Section shared.
Variable sh : Shared.
Definition buf (i : nat) : loc := Loc (sh_ring sh) (Buf i).
Definition tail : loc := Loc (sh_ring sh) Tail.
Definition head : loc := Loc (sh_ring sh) Head.
Definition disconnected : loc := Loc (sh_ring sh) Disconnected.
Definition strong : loc := Loc (sh_ring sh) StrongCount.
Definition consumer_parker : Parker := parker_of (sh_ring sh) Consumer.
Definition producer_parker : Parker := parker_of (sh_ring sh) Producer.
End shared.

(** The producer's handle: the tail mirror and the cached head. *)
Record Sender := MkSender { s_shared : Shared; s_tail : Z; cached_head : Z }.

(** The consumer's handle: the head mirror and the cached tail. *)
Record Receiver := MkReceiver { r_shared : Shared; r_head : Z; cached_tail : Z }.

Section spsc.
Context `{Target} {T : Type}.

Definition channel (cap : Z) (strategy : WaitStrategy) : prog T (Sender * Receiver) :=
  _ ← assert_cap cap;
  mask ← arith (usize_sub cap 1);
  r ← New (Z.to_nat cap)
        ([(StrongCount, 1); (Tail, 0); (Head, 0); (Disconnected, Z.b2z false)]
         ++ Parker_new Consumer ++ Parker_new Producer) Ret;
  let shared := {| sh_ring := r; buf_len := cap; mask := mask; cap := cap;
                   strategy := strategy |} in
  _ ← Arc_clone (strong shared);
  mret ({| s_shared := shared; s_tail := 0; cached_head := 0 |},
        {| r_shared := shared; r_head := 0; cached_tail := 0 |}).

(** [if sh.strategy == Park { fence(SeqCst); parker.wake() }]. *)
Definition wake_if_park (sh : Shared) (p : Parker) : prog T unit :=
  if bool_decide (strategy sh = Park) then
    _ ← fence SeqCst; wake p
  else mret tt.

Definition try_send (self : Sender) (v : T) :
    prog T (Sender * result unit (TrySendError T)) :=
  let sh := s_shared self in
  gone ← load_bool (disconnected sh) Acquire;
  if (gone : bool) then mret (self, Err (SendDisconnected v)) else
  used ← arith (usize_sub (s_tail self) (cached_head self));
  '(self, full) ←
    (if used =? cap sh then
       h ← load (head sh) Acquire;
       let self := {| s_shared := sh; s_tail := s_tail self; cached_head := h |} in
       used ← arith (usize_sub (s_tail self) (cached_head self));
       mret (self, used =? cap sh)
     else mret (self, false));
  if (full : bool) then mret (self, Err (Full v)) else
  i ← index (buf_len sh) (Z.land (s_tail self) (mask sh));
  _ ← write_cell (buf sh i) v;
  t ← arith (usize_add (s_tail self) 1);
  let self := {| s_shared := sh; s_tail := t; cached_head := cached_head self |} in
  _ ← store (tail sh) (s_tail self) Release;
  _ ← wake_if_park sh (consumer_parker sh);
  mret (self, Ok tt).

(** One pass of the wait in [send] after [Full]. *)
Definition send_wait (self : Sender) (ladder : Idle) : prog T Idle :=
  let sh := s_shared self in
  match strategy sh with
  | BusySpin => _ ← spin_loop; mret ladder
  | Backoff | BackoffYield => idle ladder
  | Park =>
      _ ← prepare_park (producer_parker sh);
      _ ← fence SeqCst;
      h ← load (head sh) Acquire;
      used ← arith (usize_sub (s_tail self) h);
      retry ← (if used <? cap sh then mret true
               else load_bool (disconnected sh) Acquire);
      _ ← (if (retry : bool) then cancel (producer_parker sh)
           else Parker_park (producer_parker sh));
      mret ladder
  end.

Fixpoint send_loop (fuel : nat) (self : Sender) (v : T) (ladder : Idle) :
    prog T (Sender * result unit (SendError T)) :=
  match fuel with
  | O => OutOfFuel
  | S fuel =>
      '(self, r) ← try_send self v;
      match r with
      | Ok _ => mret (self, Ok tt)
      | Err (SendDisconnected back) => mret (self, Err (SendErr back))
      | Err (Full back) =>
          ladder ← send_wait self ladder;
          send_loop fuel self back ladder
      end
  end.

Definition send (fuel : nat) (self : Sender) (v : T) :
    prog T (Sender * result unit (SendError T)) :=
  send_loop fuel self v (for_strategy (strategy (s_shared self))).

Definition try_recv (self : Receiver) : prog T (Receiver * result T TryRecvError) :=
  let sh := r_shared self in
  (* the refill of the cached tail; [Some e] is an early return *)
  '(self, early) ←
    (if r_head self =? cached_tail self then
       t ← load (tail sh) Acquire;
       let self := {| r_shared := sh; r_head := r_head self; cached_tail := t |} in
       if r_head self =? cached_tail self then
         gone ← load_bool (disconnected sh) Acquire;
         if (gone : bool) then
           t ← load (tail sh) Acquire;
           if t =? r_head self then mret (self, Some RecvDisconnected)
           else mret ({| r_shared := sh; r_head := r_head self; cached_tail := t |}, None)
         else mret (self, Some Empty)
       else mret (self, None)
     else mret (self, None));
  match early with
  | Some e => mret (self, Err e)
  | None =>
      i ← index (buf_len sh) (Z.land (r_head self) (mask sh));
      v ← read_cell (buf sh i);
      h ← arith (usize_add (r_head self) 1);
      let self := {| r_shared := sh; r_head := h; cached_tail := cached_tail self |} in
      _ ← store (head sh) (r_head self) Release;
      _ ← wake_if_park sh (producer_parker sh);
      mret (self, Ok v)
  end.

(** The wait in [recv] after [Empty]. *)
Definition recv_wait (self : Receiver) (ladder : Idle) : prog T Idle :=
  let sh := r_shared self in
  match strategy sh with
  | BusySpin => _ ← spin_loop; mret ladder
  | Backoff | BackoffYield => idle ladder
  | Park =>
      _ ← prepare_park (consumer_parker sh);
      _ ← fence SeqCst;
      t ← load (tail sh) Acquire;
      retry ← (if negb (t =? r_head self) then mret true
               else load_bool (disconnected sh) Acquire);
      _ ← (if (retry : bool) then cancel (consumer_parker sh)
           else Parker_park (consumer_parker sh));
      mret ladder
  end.

Fixpoint recv_loop (fuel : nat) (self : Receiver) (ladder : Idle) :
    prog T (Receiver * result T RecvError) :=
  match fuel with
  | O => OutOfFuel
  | S fuel =>
      '(self, r) ← try_recv self;
      match r with
      | Ok v => mret (self, Ok v)
      | Err RecvDisconnected => mret (self, Err RecvErr)
      | Err Empty =>
          ladder ← recv_wait self ladder;
          recv_loop fuel self ladder
      end
  end.

Definition recv (fuel : nat) (self : Receiver) : prog T (Receiver * result T RecvError) :=
  recv_loop fuel self (for_strategy (strategy (r_shared self))).

(** The loop of [drain]; [f] is the callback over its captured state,
    returning [false] when it panics. [fuel] bounds the iterations unfolded. *)
Fixpoint drain_loop {S : Type} (fuel : nat) (max : Z) (self : Receiver)
    (f : S → T → S * bool) (env : S) (count : Z) : prog T (Receiver * S * exit) :=
  let sh := r_shared self in
  match fuel with
  | O => OutOfFuel
  | Datatypes.S fuel =>
      if negb (count <? max) then mret (self, env, Returned count) else
      self ← (if r_head self =? cached_tail self then
                t ← load (tail sh) Acquire;
                mret {| r_shared := sh; r_head := r_head self; cached_tail := t |}
              else mret self);
      if r_head self =? cached_tail self then mret (self, env, Returned count) else
      i ← index (buf_len sh) (Z.land (r_head self) (mask sh));
      v ← read_cell (buf sh i);
      match usize_add (r_head self) 1 with
      | None => mret (self, env, Unwound)
      | Some h =>
          let self := {| r_shared := sh; r_head := h; cached_tail := cached_tail self |} in
          match usize_add count 1 with
          | None => mret (self, env, Unwound)
          | Some count =>
              let '(env, returned) := f env v in
              if (returned : bool) then drain_loop fuel max self f env count
              else mret (self, env, Unwound)
          end
      end
  end.

(** [PublishGuard::drop]. *)
Definition publish_guard_drop (self : Receiver) (start : Z) : prog T unit :=
  if negb (r_head self =? start) then store (head (r_shared self)) (r_head self) Release
  else mret tt.

Definition drain {S : Type} (fuel : nat) (self : Receiver) (max : Z) (f : S → T → S * bool) (env : S) :
    prog T (Receiver * S * exit) :=
  let start := r_head self in
  '(self, env, e) ← drain_loop fuel max self f env 0;
  _ ← publish_guard_drop self start;
  match e with
  | Unwound => mret (self, env, Unwound)
  | Returned count =>
      let sh := r_shared self in
      _ ← (if 0 <? count then wake_if_park sh (producer_parker sh) else mret tt);
      mret (self, env, Returned count)
  end.

(** [for seq in head..tail { drop buf[seq & mask] }]. *)
Fixpoint drop_range (n : nat) (sh : Shared) (seq : Z) : prog T unit :=
  match n with
  | O => mret tt
  | Datatypes.S n =>
      i ← index (buf_len sh) (Z.land seq (mask sh));
      _ ← drop_cell (buf sh i);
      drop_range n sh (seq + 1)
  end.

(** [impl Drop for Shared]. *)
Definition Shared_drop (sh : Shared) : prog T unit :=
  h ← load (head sh) Acquire;
  t ← load (tail sh) Acquire;
  drop_range (Z.to_nat (t - h)) sh h.

(** Dropping the [Arc]: the last strong reference drops the block and frees it. *)
Definition Arc_drop (sh : Shared) : prog T unit :=
  n ← fetch_sub (strong sh) 1 Release;
  if n =? 1 then
    _ ← fence Acquire; _ ← Shared_drop sh; dealloc (sh_ring sh)
  else mret tt.

Definition close (sh : Shared) : prog T unit :=
  _ ← store_bool (disconnected sh) true Release;
  _ ← fence SeqCst;
  _ ← wake (consumer_parker sh);
  wake (producer_parker sh).

(** [impl Drop for Sender] and [impl Drop for Receiver], then the drop of
    the handle's [Arc] field. *)
Definition Sender_drop (self : Sender) : prog T unit :=
  _ ← close (s_shared self); Arc_drop (s_shared self).
Definition Receiver_drop (self : Receiver) : prog T unit :=
  _ ← close (r_shared self); Arc_drop (r_shared self).
End spsc.
