(* ===== verification/Mpsc.v ===== *)
(** The multi-producer single-consumer ring ([src/mpsc.rs]): bounded-CAS
    claim, per-slot availability rounds, handles and operations, function by
    function. *)
From S2P Require Import Prelude Usize Atomic Errors Wait Notify.
Local Open Scope Z_scope.

Definition CLAIM_BACKOFF_MAX : Z := 64.
Definition PARK_SPINS : nat := 16.

(** [Shared<T>]: the immutable fields; slots, atomics, the consumer's parker
    and the producers' waiter list are locations of the ring [sh_ring]. *)
Record Shared := MkShared {
  sh_ring : nat;
  slots_len : Z;
  mask : Z;
  cap : Z;
  shift : Z;
  strategy : WaitStrategy;
}.

Section shared.
Variable sh : Shared.
(** The two fields of [Slot<T>]. *)
Definition slot_round (i : nat) : loc := Loc (sh_ring sh) (Round i).
Definition slot_value (i : nat) : loc := Loc (sh_ring sh) (Buf i).
Definition claim : loc := Loc (sh_ring sh) Claim.
Definition head : loc := Loc (sh_ring sh) Head.
Definition senders : loc := Loc (sh_ring sh) Senders.
Definition rx_dropped : loc := Loc (sh_ring sh) RxDropped.
Definition strong : loc := Loc (sh_ring sh) StrongCount.
Definition consumer_parker : Parker := parker_of (sh_ring sh) Consumer.
Definition prod_waiters : WaiterList := waiter_list_of (sh_ring sh).

(** [(seq >> sh.shift) as i64]. *)
Definition round_of (seq : Z) : Z := as_i64 (Z.shiftr seq (shift sh)).
End shared.

Record Sender := MkSender { s_shared : Shared; cached_head : Z }.
Record Receiver := MkReceiver { r_shared : Shared; r_head : Z }.

(** [AtomicI64::new(-1)] for every slot. *)
Definition initial_rounds (n : nat) : list (field * Z) :=
  map (λ i, (Round i, -1)) (seq 0 n).

Section mpsc.
Context `{Target} {T : Type}.

Definition channel (cap : Z) (strategy : WaitStrategy) : prog T (Sender * Receiver) :=
  _ ← assert_cap cap;
  mask ← arith (usize_sub cap 1);
  let shift := trailing_zeros cap in
  _ ← (if debug_assertions && negb (wrap (Z.shiftl 1 shift) =? cap)
       then Panicked else mret tt);
  r ← New (Z.to_nat cap)
        ([(StrongCount, 1); (Claim, 0); (Head, 0); (Senders, 1);
          (RxDropped, Z.b2z false)]
         ++ initial_rounds (Z.to_nat cap) ++ Parker_new Consumer ++ WaiterList_new) Ret;
  let shared := {| sh_ring := r; slots_len := cap; mask := mask; cap := cap;
                   shift := shift; strategy := strategy |} in
  _ ← Arc_clone (strong shared);
  mret ({| s_shared := shared; cached_head := 0 |}, {| r_shared := shared; r_head := 0 |}).

(** The claim loop of [try_send]: [Some seq] when the CAS won [seq], [None]
    when the ring is full. *)
Fixpoint claim_loop (fuel : nat) (self : Sender) (seq backoff : Z) :
    prog T (Sender * option Z) :=
  let sh := s_shared self in
  match fuel with
  | O => OutOfFuel
  | S fuel =>
      '(self, full) ←
        (if seq >=? saturating_add (cached_head self) (cap sh) then
           h ← load (head sh) Acquire;
           let self := {| s_shared := sh; cached_head := h |} in
           mret (self, seq >=? saturating_add (cached_head self) (cap sh))
         else mret (self, false));
      if (full : bool) then mret (self, None) else
      next ← arith (usize_add seq 1);
      r ← compare_exchange_weak (claim sh) seq next Relaxed Relaxed;
      match r with
      | inl _ => mret (self, Some seq)
      | inr cur =>
          _ ← repeat_prog (Z.to_nat backoff) spin_loop;
          doubled ← arith (u32_mul backoff 2);
          claim_loop fuel self cur (Z.min doubled CLAIM_BACKOFF_MAX)
      end
  end.

Definition try_send (fuel : nat) (self : Sender) (v : T) :
    prog T (Sender * result unit (TrySendError T)) :=
  let sh := s_shared self in
  gone ← load_bool (rx_dropped sh) Acquire;
  if (gone : bool) then mret (self, Err (SendDisconnected v)) else
  seq ← load (claim sh) Relaxed;
  '(self, claimed) ← claim_loop fuel self seq 1;
  match claimed with
  | None => mret (self, Err (Full v))
  | Some seq =>
      i ← index (slots_len sh) (Z.land seq (mask sh));
      _ ← write_cell (slot_value sh i) v;
      _ ← store (slot_round sh i) (round_of sh seq) Release;
      _ ← (if bool_decide (strategy sh = Park) then
             _ ← fence SeqCst; wake (consumer_parker sh)
           else mret tt);
      mret (self, Ok tt)
  end.

(** One pass of the wait in [send] after [Full]. *)
Definition send_wait (self : Sender) (ladder : Idle) : prog T Idle :=
  let sh := s_shared self in
  match strategy sh with
  | BusySpin => _ ← spin_loop; mret ladder
  | Backoff | BackoffYield => idle ladder
  | Park =>
      _ ← prepare_wait (prod_waiters sh);
      _ ← fence SeqCst;
      c ← load (claim sh) Relaxed;
      h ← load (head sh) Acquire;
      retry ← (if c <? saturating_add h (cap sh) then mret true
               else load_bool (rx_dropped sh) Acquire);
      _ ← (if (retry : bool) then mret tt else WaiterList_park (prod_waiters sh));
      mret ladder
  end.

(** [cas_fuel] bounds the claim loop of every attempt. *)
Fixpoint send_loop (fuel cas_fuel : nat) (self : Sender) (v : T) (ladder : Idle) :
    prog T (Sender * result unit (SendError T)) :=
  match fuel with
  | O => OutOfFuel
  | S fuel =>
      '(self, r) ← try_send cas_fuel self v;
      match r with
      | Ok _ => mret (self, Ok tt)
      | Err (SendDisconnected back) => mret (self, Err (SendErr back))
      | Err (Full back) =>
          ladder ← send_wait self ladder;
          send_loop fuel cas_fuel self back ladder
      end
  end.

Definition send (fuel cas_fuel : nat) (self : Sender) (v : T) :
    prog T (Sender * result unit (SendError T)) :=
  send_loop fuel cas_fuel self v (for_strategy (strategy (s_shared self))).

(** [impl Clone for Sender]. *)
Definition Sender_clone (self : Sender) : prog T Sender :=
  _ ← fetch_add (senders (s_shared self)) 1 Relaxed;
  _ ← Arc_clone (strong (s_shared self));
  mret {| s_shared := s_shared self; cached_head := 0 |}.

Definition slot_published (self : Receiver) (seq : Z) : prog T bool :=
  let sh := r_shared self in
  i ← index (slots_len sh) (Z.land seq (mask sh));
  r ← load (slot_round sh i) Acquire;
  mret (r =? round_of sh seq).

Definition wake_producers (self : Receiver) : prog T unit :=
  let sh := r_shared self in
  if bool_decide (strategy sh = Park) then
    _ ← fence SeqCst; wake_all (prod_waiters sh)
  else mret tt.

Definition try_recv (self : Receiver) : prog T (Receiver * result T TryRecvError) :=
  let sh := r_shared self in
  published ← slot_published self (r_head self);
  early ←
    (if negb published then
       n ← load (senders sh) Acquire;
       if n =? 0 then
         published ← slot_published self (r_head self);
         if negb published then mret (Some RecvDisconnected) else mret None
       else mret (Some Empty)
     else mret None);
  match early with
  | Some e => mret (self, Err e)
  | None =>
      i ← index (slots_len sh) (Z.land (r_head self) (mask sh));
      v ← read_cell (slot_value sh i);
      h ← arith (usize_add (r_head self) 1);
      let self := {| r_shared := sh; r_head := h |} in
      _ ← store (head sh) (r_head self) Release;
      _ ← wake_producers self;
      mret (self, Ok v)
  end.

(** The re-checks of [recv] before it commits to a park. *)
Fixpoint park_spins (n : nat) (self : Receiver) : prog T bool :=
  match n with
  | O => mret false
  | S n =>
      published ← slot_published self (r_head self);
      if (published : bool) then mret true
      else _ ← spin_loop; park_spins n self
  end.

(** The wait in [recv] after [Empty]. *)
Definition recv_wait (self : Receiver) (ladder : Idle) : prog T Idle :=
  let sh := r_shared self in
  match strategy sh with
  | BusySpin => _ ← spin_loop; mret ladder
  | Backoff | BackoffYield => idle ladder
  | Park =>
      spun ← park_spins PARK_SPINS self;
      if (spun : bool) then mret ladder else
      _ ← prepare_park (consumer_parker sh);
      _ ← fence SeqCst;
      published ← slot_published self (r_head self);
      retry ← (if (published : bool) then mret true
               else n ← load (senders sh) Acquire; mret (n =? 0));
      _ ← (if (retry : bool) then cancel (consumer_parker sh)
           else Parker_park (consumer_parker sh));
      mret ladder
  end.

Fixpoint recv_loop (fuel : nat) (self : Receiver) (ladder : Idle) :
    prog T (Receiver * result T RecvError) :=
  match fuel with
  | O => OutOfFuel
  | S fuel =>
      '(self, r) ← try_recv self;
      match r with
      | Ok v => mret (self, Ok v)
      | Err RecvDisconnected => mret (self, Err RecvErr)
      | Err Empty =>
          ladder ← recv_wait self ladder;
          recv_loop fuel self ladder
      end
  end.

Definition recv (fuel : nat) (self : Receiver) : prog T (Receiver * result T RecvError) :=
  recv_loop fuel self (for_strategy (strategy (r_shared self))).

(** The loop of [drain]; [f] is the callback over its captured state,
    returning [false] when it panics. *)
Fixpoint drain_loop {S : Type} (fuel : nat) (max : Z) (self : Receiver)
    (f : S → T → S * bool) (env : S) (count : Z) : prog T (Receiver * S * exit) :=
  let sh := r_shared self in
  match fuel with
  | O => OutOfFuel
  | Datatypes.S fuel =>
      if negb (count <? max) then mret (self, env, Returned count) else
      let seq := r_head self in
      i ← index (slots_len sh) (Z.land seq (mask sh));
      r ← load (slot_round sh i) Acquire;
      if negb (r =? round_of sh seq) then mret (self, env, Returned count) else
      v ← read_cell (slot_value sh i);
      match usize_add (r_head self) 1 with
      | None => mret (self, env, Unwound)
      | Some h =>
          let self := {| r_shared := sh; r_head := h |} in
          match usize_add count 1 with
          | None => mret (self, env, Unwound)
          | Some count =>
              let '(env, returned) := f env v in
              if (returned : bool) then drain_loop fuel max self f env count
              else mret (self, env, Unwound)
          end
      end
  end.

(** [PublishGuard::drop]. *)
Definition publish_guard_drop (self : Receiver) (start : Z) : prog T unit :=
  if negb (r_head self =? start) then store (head (r_shared self)) (r_head self) Release
  else mret tt.

Definition drain {S : Type} (fuel : nat) (self : Receiver) (max : Z)
    (f : S → T → S * bool) (env : S) : prog T (Receiver * S * exit) :=
  let start := r_head self in
  '(self, env, e) ← drain_loop fuel max self f env 0;
  _ ← publish_guard_drop self start;
  match e with
  | Unwound => mret (self, env, Unwound)
  | Returned count =>
      _ ← (if 0 <? count then wake_producers self else mret tt);
      mret (self, env, Returned count)
  end.

(** The loop of [impl Drop for Shared]: drop the contiguous published
    prefix from [seq]. *)
Fixpoint drop_prefix (fuel : nat) (sh : Shared) (seq : Z) : prog T unit :=
  match fuel with
  | O => OutOfFuel
  | Datatypes.S fuel =>
      i ← index (slots_len sh) (Z.land seq (mask sh));
      r ← load (slot_round sh i) Acquire;
      if negb (r =? round_of sh seq) then mret tt else
      _ ← drop_cell (slot_value sh i);
      seq ← arith (usize_add seq 1);
      drop_prefix fuel sh seq
  end.

(** No slot is visited twice, so [cap + 1] iterations are enough. *)
Definition Shared_drop (sh : Shared) : prog T unit :=
  h ← load (head sh) Acquire;
  drop_prefix (Datatypes.S (Z.to_nat (cap sh))) sh h.

(** Dropping the [Arc]: the last strong reference drops the block and frees it. *)
Definition Arc_drop (sh : Shared) : prog T unit :=
  n ← fetch_sub (strong sh) 1 Release;
  if n =? 1 then
    _ ← fence Acquire; _ ← Shared_drop sh; dealloc (sh_ring sh)
  else mret tt.

(** [impl Drop for Sender], then the handle's [Arc]. *)
Definition Sender_drop (self : Sender) : prog T unit :=
  let sh := s_shared self in
  n ← fetch_sub (senders sh) 1 AcqRel;
  _ ← (if n =? 1 then _ ← fence SeqCst; wake (consumer_parker sh) else mret tt);
  Arc_drop sh.

(** [impl Drop for Receiver], then the handle's [Arc]. *)
Definition Receiver_drop (self : Receiver) : prog T unit :=
  let sh := r_shared self in
  _ ← store_bool (rx_dropped sh) true Release;
  _ ← fence SeqCst;
  _ ← wake_all (prod_waiters sh);
  Arc_drop sh.
End mpsc.
