(* ===== verification/Sharded.v ===== *)
(** The sharded MPSC channel ([src/sharded.rs]): one SPSC ring per producer,
    swept round-robin by the single consumer. *)
From S2P Require Import Prelude Usize Atomic Errors Wait Notify.
From S2P Require Spsc.
Local Open Scope Z_scope.

Definition VISIT_BUDGET : Z := 32.

Record Sender := MkSender { inner : Spsc.Sender }.

Record Receiver := MkReceiver {
  shards : list Spsc.Receiver;
  cursor : Z;
  budget : Z;
  strategy : WaitStrategy;
}.

Section sharded.
Context `{Target} {T : Type}.

(** [for _ in 0..n_shards { spsc::channel(per_shard, strategy) }]. *)
Fixpoint make_shards (n : nat) (per_shard : Z) (strategy : WaitStrategy) :
    prog T (list Sender * list Spsc.Receiver) :=
  match n with
  | O => mret ([], [])
  | S n =>
      '(tx, rx) ← Spsc.channel per_shard strategy;
      '(txs, rxs) ← make_shards n per_shard strategy;
      mret ({| inner := tx |} :: txs, rx :: rxs)
  end.

Definition channel (n_shards total_cap : Z) (strategy : WaitStrategy) :
    prog T (list Sender * Receiver) :=
  if negb (0 <? n_shards) then Panicked else
  if negb (is_multiple_of total_cap n_shards) then Panicked else
  let per_shard := total_cap / n_shards in
  if negb ((0 <? per_shard) && is_power_of_two per_shard) then Panicked else
  if bool_decide (strategy = Park) then Panicked else
  '(senders, shards) ← make_shards (Z.to_nat n_shards) per_shard strategy;
  mret (senders, {| shards := shards; cursor := 0; budget := 0; strategy := strategy |}).

Definition try_send (self : Sender) (v : T) :
    prog T (Sender * result unit (TrySendError T)) :=
  '(tx, r) ← Spsc.try_send (inner self) v;
  mret ({| inner := tx |}, r).

Definition send (fuel : nat) (self : Sender) (v : T) :
    prog T (Sender * result unit (SendError T)) :=
  '(tx, r) ← Spsc.send fuel (inner self) v;
  mret ({| inner := tx |}, r).

(** [self.shards.len()]. *)
Definition shards_len (self : Receiver) : Z := Z.of_nat (length (shards self)).

Definition set_cursor (self : Receiver) (c b : Z) : Receiver :=
  {| shards := shards self; cursor := c; budget := b; strategy := strategy self |}.

(** [self.shards[i] = rx] for the shard just used. *)
Definition set_shard (self : Receiver) (i : nat) (rx : Spsc.Receiver) : Receiver :=
  {| shards := <[i := rx]> (shards self); cursor := cursor self;
     budget := budget self; strategy := strategy self |}.

Definition advance (self : Receiver) : prog T Receiver :=
  next ← arith (usize_add (cursor self) 1);
  mret (set_cursor self (if next =? shards_len self then 0 else next) 0).

(** [self.shards[self.cursor]], with the bounds check. *)
Definition shard_at_cursor (self : Receiver) : prog T (nat * Spsc.Receiver) :=
  i ← index (shards_len self) (cursor self);
  match shards self !! i with
  | Some rx => mret (i, rx)
  | None => Panicked
  end.

(** [for _ in 0..n] of [try_recv]: the early return or the count of
    disconnected shards. *)
Fixpoint sweep (n : nat) (self : Receiver) (disconnected : Z) :
    prog T (Receiver * (T + Z)) :=
  match n with
  | O => mret (self, inr disconnected)
  | S n =>
      '(i, rx) ← shard_at_cursor self;
      '(rx, r) ← Spsc.try_recv rx;
      let self := set_shard self i rx in
      match r with
      | Ok v =>
          b ← arith (usize_add (budget self) 1);
          mret (set_cursor self (cursor self) b, inl v)
      | Err e =>
          disconnected ← (match e with
                          | RecvDisconnected => arith (usize_add disconnected 1)
                          | Empty => mret disconnected
                          end);
          self ← advance self;
          sweep n self disconnected
      end
  end.

Definition try_recv (self : Receiver) : prog T (Receiver * result T TryRecvError) :=
  self ← (if budget self >=? VISIT_BUDGET then advance self else mret self);
  let n := shards_len self in
  '(self, r) ← sweep (length (shards self)) self 0;
  match r with
  | inl v => mret (self, Ok v)
  | inr disconnected =>
      if disconnected =? n then mret (self, Err RecvDisconnected)
      else mret (self, Err Empty)
  end.

(** [for _ in 0..n] of [drain]; [fuel] bounds the drain of each shard. *)
Fixpoint drain_sweep {S : Type} (fuel n : nat) (self : Receiver) (max : Z)
    (f : S → T → S * bool) (env : S) (count : Z) : prog T (Receiver * S * exit) :=
  match n with
  | O => mret (self, env, Returned count)
  | Datatypes.S n =>
      if count >=? max then mret (self, env, Returned count) else
      want ← arith (usize_sub max count);
      '(i, rx) ← shard_at_cursor self;
      '(rx, env, e) ← Spsc.drain fuel rx want f env;
      let self := set_shard self i rx in
      match e with
      | Unwound => mret (self, env, Unwound)
      | Returned took =>
          count ← arith (usize_add count took);
          if took =? want then mret (self, env, Returned count) else
          self ← advance self;
          drain_sweep fuel n self max f env count
      end
  end.

Definition drain {S : Type} (fuel : nat) (self : Receiver) (max : Z)
    (f : S → T → S * bool) (env : S) : prog T (Receiver * S * exit) :=
  drain_sweep fuel (length (shards self)) self max f env 0.

Fixpoint recv_loop (fuel : nat) (self : Receiver) (ladder : Idle) :
    prog T (Receiver * result T RecvError) :=
  match fuel with
  | O => OutOfFuel
  | S fuel =>
      '(self, r) ← try_recv self;
      match r with
      | Ok v => mret (self, Ok v)
      | Err RecvDisconnected => mret (self, Err RecvErr)
      | Err Empty =>
          ladder ← (match strategy self with
                    | BusySpin => _ ← spin_loop; mret ladder
                    | Backoff | BackoffYield => idle ladder
                    | Park => Panicked (* unreachable!() *)
                    end);
          recv_loop fuel self ladder
      end
  end.

Definition recv (fuel : nat) (self : Receiver) : prog T (Receiver * result T RecvError) :=
  recv_loop fuel self (for_strategy (strategy self)).

(** Dropping the handles drops the rings' handles they own, in order. *)
Definition Sender_drop (self : Sender) : prog T unit := Spsc.Sender_drop (inner self).

Fixpoint drop_shards (rxs : list Spsc.Receiver) : prog T unit :=
  match rxs with
  | [] => mret tt
  | rx :: rxs => _ ← Spsc.Receiver_drop rx; drop_shards rxs
  end.
Definition Receiver_drop (self : Receiver) : prog T unit := drop_shards (shards self).
End sharded.
