(* ===== verification/Seq.v ===== *)
(** Sequential meaning of programs: an executable interpreter over a plain
    store, for runs in which one thread acts at a time. A [park] without a
    token blocks the run; accesses the source's [unsafe] blocks must never
    make (an uninitialized read, a write over an undropped value, an access
    out of the block) end it with a fault. *)
From S2P Require Import Prelude Usize Atomic.
Local Open Scope Z_scope.

(** Why an access is a fault. *)
Inductive fault := Unallocated | UninitRead | LostValue | Race.

Record seqst (T : Type) := MkSeqst {
  atoms : gmap loc Z;
  cells : gmap loc (option T);
  slots : gmap loc (option tid);
  queues : gmap loc (list tid);
  tokens : gset tid;
  next_ring : nat;
  (** Observable by-products, oldest first: timing hints and dropped values. *)
  hints : list hint;
  dropped : list T;
  (** Upcoming spurious failures of [compare_exchange_weak]. *)
  spurious : list bool;
}.
Arguments MkSeqst {T}.
Arguments atoms {T}.
Arguments cells {T}.
Arguments slots {T}.
Arguments queues {T}.
Arguments tokens {T}.
Arguments next_ring {T}.
Arguments hints {T}.
Arguments dropped {T}.
Arguments spurious {T}.

Section updates.
Context {T : Type}.
Implicit Types st : seqst T.

Definition empty_state : seqst T := MkSeqst ∅ ∅ ∅ ∅ ∅ 0 [] [] [].

Definition set_atoms f st := MkSeqst (f (atoms st)) (cells st) (slots st) (queues st)
  (tokens st) (next_ring st) (hints st) (dropped st) (spurious st).
Definition set_cells f st := MkSeqst (atoms st) (f (cells st)) (slots st) (queues st)
  (tokens st) (next_ring st) (hints st) (dropped st) (spurious st).
Definition set_slots f st := MkSeqst (atoms st) (cells st) (f (slots st)) (queues st)
  (tokens st) (next_ring st) (hints st) (dropped st) (spurious st).
Definition set_queues f st := MkSeqst (atoms st) (cells st) (slots st) (f (queues st))
  (tokens st) (next_ring st) (hints st) (dropped st) (spurious st).
Definition set_tokens f st := MkSeqst (atoms st) (cells st) (slots st) (queues st)
  (f (tokens st)) (next_ring st) (hints st) (dropped st) (spurious st).
Definition add_hint h st := MkSeqst (atoms st) (cells st) (slots st) (queues st)
  (tokens st) (next_ring st) (hints st ++ [h]) (dropped st) (spurious st).
Definition add_dropped v st := MkSeqst (atoms st) (cells st) (slots st) (queues st)
  (tokens st) (next_ring st) (hints st) (dropped st ++ [v]) (spurious st).
Definition pop_spurious st := MkSeqst (atoms st) (cells st) (slots st) (queues st)
  (tokens st) (next_ring st) (hints st) (dropped st) (tail (spurious st)).

(** A fresh block: [n] uninitialized cells and the given atomics. *)
Fixpoint alloc_cells (r n : nat) (m : gmap loc (option T)) : gmap loc (option T) :=
  match n with
  | O => m
  | S n => <[Loc r (Buf n) := None]> (alloc_cells r n m)
  end.
Fixpoint alloc_atoms (r : nat) (init : list (field * Z)) (m : gmap loc Z) : gmap loc Z :=
  match init with
  | [] => m
  | (f, v) :: init => <[Loc r f := v]> (alloc_atoms r init m)
  end.
Definition alloc (n : nat) (init : list (field * Z)) st : seqst T :=
  MkSeqst (alloc_atoms (next_ring st) init (atoms st))
    (alloc_cells (next_ring st) n (cells st)) (slots st) (queues st)
    (tokens st) (S (next_ring st)) (hints st) (dropped st) (spurious st).

(** The block of ring [r] is gone. *)
Definition free (r : nat) st : seqst T :=
  set_atoms (filter (λ p, ring p.1 ≠ r)) (set_cells (filter (λ p, ring p.1 ≠ r)) st).
End updates.

(** How a run ends. *)
Inductive outcome (T A : Type) :=
  | Done (a : A) (st : seqst T)
  | DidPanic (st : seqst T)
  | NoFuel (st : seqst T)
  | Blocked (st : seqst T)
  | Faulted (f : fault).
Arguments Done {T A}.
Arguments DidPanic {T A}.
Arguments NoFuel {T A}.
Arguments Blocked {T A}.
Arguments Faulted {T A}.

Fixpoint run {T A : Type} (i : tid) (p : prog T A) (st : seqst T) : outcome T A :=
  match p with
  | Ret a => Done a st
  | Panicked => DidPanic st
  | OutOfFuel => NoFuel st
  | New n init k => run i (k (next_ring st)) (alloc n init st)
  | Load l _ k =>
      match atoms st !! l with
      | Some v => run i (k v) st
      | None => Faulted Unallocated
      end
  | Store l v _ k =>
      match atoms st !! l with
      | Some _ => run i k (set_atoms <[l := v]> st)
      | None => Faulted Unallocated
      end
  | Rmw l f _ k =>
      match atoms st !! l with
      | Some v => run i (k v) (set_atoms <[l := f v]> st)
      | None => Faulted Unallocated
      end
  | CasWeak l e n _ _ k =>
      match atoms st !! l with
      | Some v =>
          if bool_decide (v = e) && negb (hd false (spurious st)) then
            run i (k (inl v)) (set_atoms <[l := n]> (pop_spurious st))
          else run i (k (inr v)) (pop_spurious st)
      | None => Faulted Unallocated
      end
  | Fence _ k => run i k st
  | WriteCell l v k =>
      match cells st !! l with
      | Some None => run i k (set_cells <[l := Some v]> st)
      | Some (Some _) => Faulted LostValue
      | None => Faulted Unallocated
      end
  | ReadCell l k =>
      match cells st !! l with
      | Some (Some v) => run i (k v) (set_cells <[l := None]> st)
      | Some None => Faulted UninitRead
      | None => Faulted Unallocated
      end
  | DropCell l k =>
      match cells st !! l with
      | Some (Some v) => run i k (add_dropped v (set_cells <[l := None]> st))
      | Some None => Faulted UninitRead
      | None => Faulted Unallocated
      end
  | Dealloc r k => run i k (free r st)
  | SetSlot l k =>
      match atoms st !! beside l with
      | Some _ => run i k (set_slots <[l := Some i]> st)
      | None => Faulted Unallocated
      end
  | TakeSlot l k =>
      match atoms st !! beside l with
      | Some _ => run i (k (default None (slots st !! l))) (set_slots <[l := None]> st)
      | None => Faulted Unallocated
      end
  | PushWaiter l k =>
      match atoms st !! beside l with
      | Some _ => run i k (set_queues <[l := default [] (queues st !! l) ++ [i]]> st)
      | None => Faulted Unallocated
      end
  | DrainWaiters l k =>
      match atoms st !! beside l with
      | Some _ => run i (k (default [] (queues st !! l))) (set_queues <[l := []]> st)
      | None => Faulted Unallocated
      end
  | ParkThread k =>
      if bool_decide (i ∈ tokens st) then run i k (set_tokens (.∖ {[i]}) st)
      else Blocked st
  | Unpark t k => run i k (set_tokens ({[t]} ∪.) st)
  | Hint h k => run i k (add_hint h st)
  end.

(** The result of a run, without its store. *)
Definition value {T A} (o : outcome T A) : option A :=
  match o with Done a _ => Some a | _ => None end.

Section run_lemmas.
Context `{tgt : Target} {T : Type}.
Implicit Types st : seqst T.

(** Running a sequence runs its parts in turn. *)
Lemma run_bind {A B} i (f : A → prog T B) (p : prog T A) st :
  run i (p ≫= f) st =
  match run i p st with
  | Done a st' => run i (f a) st'
  | DidPanic st' => DidPanic st'
  | NoFuel st' => NoFuel st'
  | Blocked st' => Blocked st'
  | Faulted x => Faulted x
  end.
Proof.
  unfold mbind, prog_bind. revert st.
  induction p; intros st; simpl; auto;
    repeat match goal with
           | |- context [match ?x with _ => _ end] =>
               match x with run _ _ _ => fail 1 | _ => destruct x end; simpl; auto
           end.
Qed.

Lemma run_bind_Done {A B} i (f : A → prog T B) (p : prog T A) st a st' :
  run i p st = Done a st' → run i (p ≫= f) st = run i (f a) st'.
Proof. intros H. by rewrite run_bind, H. Qed.

Lemma run_assoc {A B C} i (p : prog T A) (f : A → prog T B) (g : B → prog T C) st :
  run i ((p ≫= f) ≫= g) st = run i (p ≫= λ a, f a ≫= g) st.
Proof.
  rewrite !run_bind. destruct (run i p st); auto. by rewrite run_bind.
Qed.

Lemma run_ret {A B} i (a : A) (f : A → prog T B) st : run i (mret a ≫= f) st = run i (f a) st.
Proof. done. Qed.

Lemma run_mret {A} i (a : A) st : run i (mret a : prog T A) st = Done a st.
Proof. done. Qed.

Lemma run_Ret {A B} i (a : A) (f : A → prog T B) st : run i (Ret a ≫= f) st = run i (f a) st.
Proof. done. Qed.

Lemma run_arith {A} i o z (f : Z → prog T A) st :
  o = Some z → run i (arith o ≫= f) st = run i (f z) st.
Proof. by intros ->. Qed.

Lemma run_load {A} i l o v (f : Z → prog T A) st :
  atoms st !! l = Some v → run i (load l o ≫= f) st = run i (f v) st.
Proof. intros H. unfold load, mbind, prog_bind. simpl. by rewrite H. Qed.

Lemma run_load_bool {A} i l o (b : bool) (f : bool → prog T A) st :
  atoms st !! l = Some (Z.b2z b) → run i (load_bool l o ≫= f) st = run i (f b) st.
Proof. intros H. unfold load_bool, mbind, prog_bind. simpl. rewrite H. by destruct b. Qed.

Lemma run_store {A} i l o v (f : unit → prog T A) st :
  is_Some (atoms st !! l) →
  run i (store l v o ≫= f) st = run i (f tt) (set_atoms <[l := v]> st).
Proof. intros [w H]. unfold store, mbind, prog_bind. simpl. by rewrite H. Qed.

Lemma run_store_bool {A} i l o b (f : unit → prog T A) st :
  is_Some (atoms st !! l) →
  run i (store_bool l b o ≫= f) st = run i (f tt) (set_atoms <[l := Z.b2z b]> st).
Proof. apply run_store. Qed.

Lemma run_fetch_add {A} i l o d v (f : Z → prog T A) st :
  atoms st !! l = Some v → is_usize (v + d) →
  run i (fetch_add l d o ≫= f) st = run i (f v) (set_atoms <[l := v + d]> st).
Proof.
  intros Hl Hu. unfold fetch_add, mbind, prog_bind. simpl. by rewrite Hl, wrap_small.
Qed.

Lemma run_fetch_sub {A} i l o d v (f : Z → prog T A) st :
  atoms st !! l = Some v → is_usize (v - d) →
  run i (fetch_sub l d o ≫= f) st = run i (f v) (set_atoms <[l := v - d]> st).
Proof.
  intros Hl Hu. unfold fetch_sub, mbind, prog_bind. simpl. by rewrite Hl, wrap_small.
Qed.

Lemma MAX_REFCOUNT_ge : 2 ^ 15 - 1 ≤ MAX_REFCOUNT.
Proof.
  unfold MAX_REFCOUNT, usize_modulus.
  destruct usize_bits_ok as [-> | [-> | ->]]; by vm_compute.
Qed.

Lemma MAX_REFCOUNT_lt : MAX_REFCOUNT + 1 < usize_modulus.
Proof.
  unfold MAX_REFCOUNT, usize_modulus.
  destruct usize_bits_ok as [-> | [-> | ->]]; by vm_compute.
Qed.

Lemma run_Arc_clone {A} i l n (f : unit → prog T A) st :
  atoms st !! l = Some n → 0 ≤ n ≤ MAX_REFCOUNT →
  run i (Arc_clone l ≫= f) st = run i (f tt) (set_atoms <[l := n + 1]> st).
Proof.
  intros Hl Hn. unfold Arc_clone. rewrite run_assoc.
  assert (usize_modulus = 2 * (usize_modulus / 2)) as He.
  { unfold usize_modulus. destruct usize_bits_ok as [-> | [-> | ->]]; reflexivity. }
  unfold MAX_REFCOUNT in *.
  erewrite run_fetch_add by (try eassumption; unfold is_usize; lia).
  rewrite (proj2 (Z.ltb_ge _ _)) by lia. done.
Qed.

Lemma run_fence {A} i o (f : unit → prog T A) st :
  run i (fence o ≫= f) st = run i (f tt) st.
Proof. done. Qed.

Lemma run_hint {A} i h (f : unit → prog T A) st :
  run i (Hint h (Ret tt) ≫= f) st = run i (f tt) (add_hint h st).
Proof. done. Qed.

Lemma run_cas {A} i l e n so fo v (f : Z + Z → prog T A) st :
  atoms st !! l = Some v →
  run i (compare_exchange_weak l e n so fo ≫= f) st =
  if bool_decide (v = e) && negb (hd false (spurious st))
  then run i (f (inl v)) (set_atoms <[l := n]> (pop_spurious st))
  else run i (f (inr v)) (pop_spurious st).
Proof.
  intros Hl. unfold compare_exchange_weak, mbind, prog_bind. simpl. rewrite Hl.
  by destruct (bool_decide _ && _).
Qed.

Lemma run_spin {A} i (f : unit → prog T A) st :
  run i (spin_loop ≫= f) st = run i (f tt) (add_hint SpinLoop st).
Proof. done. Qed.

Lemma run_write {A} i l v (f : unit → prog T A) st :
  cells st !! l = Some None →
  run i (write_cell l v ≫= f) st = run i (f tt) (set_cells <[l := Some v]> st).
Proof. intros H. unfold write_cell, mbind, prog_bind. simpl. by rewrite H. Qed.

Lemma run_read {A} i l v (f : T → prog T A) st :
  cells st !! l = Some (Some v) →
  run i (read_cell l ≫= f) st = run i (f v) (set_cells <[l := None]> st).
Proof. intros H. unfold read_cell, mbind, prog_bind. simpl. by rewrite H. Qed.

Lemma run_drop {A} i l v (f : unit → prog T A) st :
  cells st !! l = Some (Some v) →
  run i (drop_cell l ≫= f) st =
  run i (f tt) (add_dropped v (set_cells <[l := None]> st)).
Proof. intros H. unfold drop_cell, mbind, prog_bind. simpl. by rewrite H. Qed.

Lemma run_take_slot {A} i l (f : option tid → prog T A) st :
  is_Some (atoms st !! beside l) →
  run i (TakeSlot l Ret ≫= f) st =
  run i (f (default None (slots st !! l))) (set_slots <[l := None]> st).
Proof. intros [x Hx]. unfold mbind, prog_bind. simpl. by rewrite Hx. Qed.

Lemma run_unpark i t st : run i (unpark t) st = Done tt (set_tokens ({[t]} ∪.) st).
Proof. done. Qed.

Lemma run_swap_bool {A} i l o b (w : bool) (f : bool → prog T A) st :
  atoms st !! l = Some (Z.b2z w) →
  run i (swap_bool l b o ≫= f) st = run i (f w) (set_atoms <[l := Z.b2z b]> st).
Proof. intros H. unfold swap_bool, mbind, prog_bind. simpl. rewrite H. by destruct w. Qed.

Lemma run_drain_waiters {A} i l (f : list tid → prog T A) st :
  is_Some (atoms st !! beside l) →
  run i (DrainWaiters l Ret ≫= f) st =
  run i (f (default [] (queues st !! l))) (set_queues <[l := []]> st).
Proof. intros [x Hx]. unfold mbind, prog_bind. simpl. by rewrite Hx. Qed.

Lemma run_set_slot {A} i l (f : unit → prog T A) st :
  is_Some (atoms st !! beside l) →
  run i (SetSlot l (Ret tt) ≫= f) st = run i (f tt) (set_slots <[l := Some i]> st).
Proof. intros [x Hx]. unfold mbind, prog_bind. simpl. by rewrite Hx. Qed.

Lemma run_push_waiter {A} i l (f : unit → prog T A) st :
  is_Some (atoms st !! beside l) →
  run i (PushWaiter l (Ret tt) ≫= f) st =
  run i (f tt) (set_queues <[l := default [] (queues st !! l) ++ [i]]> st).
Proof. intros [x Hx]. unfold mbind, prog_bind. simpl. by rewrite Hx. Qed.

Lemma run_park {A} i (f : unit → prog T A) st :
  i ∈ tokens st → run i (park ≫= f) st = run i (f tt) (set_tokens (.∖ {[i]}) st).
Proof. intros Hi. unfold park, mbind, prog_bind. simpl. by rewrite bool_decide_true. Qed.

(** A parked thread without a token blocks. *)
Lemma run_park_blocked {A} i (f : unit → prog T A) st :
  i ∉ tokens st → run i (park ≫= f) st = Blocked st.
Proof. intros Hi. unfold park, mbind, prog_bind. simpl. by rewrite bool_decide_false. Qed.

Lemma run_bind_mret {A} i (p : prog T A) st : run i (p ≫= mret) st = run i p st.
Proof. rewrite run_bind. by destruct (run i p st). Qed.

(** What a run on ring [r] leaves alone: every other ring, and the
    allocation pointer. *)
Record frame (r : nat) (st st' : seqst T) : Prop := {
  frame_atoms l : ring l ≠ r → atoms st' !! l = atoms st !! l;
  frame_cells l : ring l ≠ r → cells st' !! l = cells st !! l;
  frame_next : next_ring st' = next_ring st;
}.

#[global] Instance frame_preorder r : PreOrder (frame r).
Proof.
  split.
  - by intros st; split.
  - intros st1 st2 st3 [Ha Hc Hn] [Ha' Hc' Hn']. split.
    + intros l Hl. by rewrite Ha', Ha.
    + intros l Hl. by rewrite Hc', Hc.
    + by rewrite Hn'.
Qed.

Lemma frame_set_atoms r l v st : ring l = r → frame r st (set_atoms <[l := v]> st).
Proof. intros <-. split; [intros l' ?; simpl; by rewrite lookup_insert_ne by congruence|done..]. Qed.
Lemma frame_set_cells r l v st : ring l = r → frame r st (set_cells <[l := v]> st).
Proof. intros <-. split; [done| |done]. intros l' ?; simpl; by rewrite lookup_insert_ne by congruence. Qed.
Lemma frame_cells_atoms r l v l' v' st :
  ring l = r → ring l' = r →
  frame r st (set_atoms <[l' := v']> (set_cells <[l := v]> st)).
Proof. intros. etrans; [by apply (frame_set_cells r l v)|by apply frame_set_atoms]. Qed.
Lemma frame_same r st st' :
  atoms st' = atoms st → cells st' = cells st → next_ring st' = next_ring st →
  frame r st st'.
Proof. intros Ha Hc Hn. split; [intros l _; by rewrite Ha|intros l _; by rewrite Hc|done]. Qed.

Lemma run_dealloc i r st : run i (dealloc r) st = Done tt (free r st).
Proof. done. Qed.

Lemma filter_ring_lookup {A} r (m : gmap loc A) l :
  ring l ≠ r → filter (λ p, ring p.1 ≠ r) m !! l = m !! l.
Proof.
  intros Hl. apply option_eq. intros x. rewrite map_lookup_filter_Some. naive_solver.
Qed.

Lemma frame_free r st : frame r st (free r st).
Proof. split; [intros l Hl; simpl; by apply filter_ring_lookup..|done]. Qed.

Lemma alloc_atoms_other r init m l : ring l ≠ r → alloc_atoms r init m !! l = m !! l.
Proof.
  intros Hl. induction init as [|[f v] init IH]; simpl; [done|].
  rewrite lookup_insert_ne; [done|]. intros <-. by apply Hl.
Qed.

Lemma alloc_atoms_app r init1 init2 m :
  alloc_atoms r (init1 ++ init2) m = alloc_atoms r init1 (alloc_atoms r init2 m).
Proof. induction init1 as [|[f v] init1 IH]; simpl; [done|]. by rewrite IH. Qed.

Lemma alloc_atoms_skip r init m f :
  f ∉ init.*1 → alloc_atoms r init m !! Loc r f = m !! Loc r f.
Proof.
  induction init as [|[g v] init IH]; simpl; [done|].
  intros [Hne Hin]%not_elem_of_cons. rewrite lookup_insert_ne by congruence. auto.
Qed.

Lemma alloc_atoms_lookup r init m f v :
  NoDup init.*1 → (f, v) ∈ init → alloc_atoms r init m !! Loc r f = Some v.
Proof.
  induction init as [|[g w] init IH]; simpl; [by intros _ ?%not_elem_of_nil|].
  intros [Hg Hnd]%list.NoDup_cons [[= -> ->]|Hin]%elem_of_cons.
  - by rewrite lookup_insert_eq.
  - rewrite lookup_insert_ne; [auto|]. intros [= <-].
    by apply Hg, (list_elem_of_fmap_2 fst _ (g, v)).
Qed.

Lemma alloc_cells_lookup r n (m : gmap loc (option T)) i :
  (i < n)%nat → alloc_cells r n m !! Loc r (Buf i) = Some None.
Proof.
  induction n as [|n IH]; intros Hi; [lia|]. simpl.
  destruct (decide (i = n)) as [->|]; [by rewrite lookup_insert_eq|].
  rewrite lookup_insert_ne by congruence. apply IH. lia.
Qed.

Lemma alloc_cells_other r n (m : gmap loc (option T)) l :
  ring l ≠ r → alloc_cells r n m !! l = m !! l.
Proof.
  intros Hl. induction n as [|n IH]; simpl; [done|].
  rewrite lookup_insert_ne; [done|]. intros <-. by apply Hl.
Qed.
End run_lemmas.

#[export] Hint Resolve frame_set_atoms frame_set_cells : rings.

(** One step of symbolic execution: reassociate, then run the leading
    primitive, looking its side condition up in the context. *)
Ltac run_step :=
  rewrite ?run_assoc;
  first
    [ rewrite run_mret
    | rewrite run_ret
    | rewrite run_Ret
    | rewrite run_fence
    | erewrite run_arith by eauto with rings
    | erewrite run_load by eauto with rings
    | erewrite run_load_bool by eauto with rings
    | erewrite run_write by eauto with rings
    | erewrite run_read by eauto with rings
    | erewrite run_fetch_add by eauto with rings
    | erewrite run_fetch_sub by eauto with rings
    | erewrite run_store by eauto with rings
    | erewrite run_store_bool by eauto with rings ].

#[export] Hint Extern 1 (frame ?r ?st ?st) => reflexivity : rings.

(** Programs are run by the lemmas above, not by unfolding. *)
#[global] Arguments prog_bind : simpl never.
#[global] Arguments run : simpl never.
