(* ===== verification/NotifySeq.v ===== *)
(** Sequential behaviour of the notify layer: waking touches nothing but the
    parked flags, the registrations and the park tokens; a registered thread
    that a wake finds parked gets its token, and a wake of nobody is a no-op. *)
From S2P Require Import Prelude Usize Atomic Notify Seq.
Local Open Scope Z_scope.

(** The fields that belong to the notify layer. *)
Definition is_park_field (f : field) : bool :=
  match f with
  | Parked _ | ParkerSlot _ | Waiting | WaiterQueue => true
  | _ => false
  end.

(** Waking changes nothing but the flags and the registrations. *)
Record park_frame {T} (r : nat) (st st' : seqst T) : Prop := {
  pf_atoms l : ring l ≠ r ∨ is_park_field (fld l) = false → atoms st' !! l = atoms st !! l;
  pf_flag f b : is_park_field f = true → atoms st !! Loc r f = Some (Z.b2z b) →
    ∃ b, atoms st' !! Loc r f = Some (Z.b2z b);
  pf_cells : cells st' = cells st;
  pf_next : next_ring st' = next_ring st;
  pf_dropped : dropped st' = dropped st;
  pf_spurious : spurious st' = spurious st;
}.

#[global] Instance park_frame_preorder {T} r : PreOrder (@park_frame T r).
Proof.
  split.
  - intros st. split; eauto.
  - intros s1 s2 s3 [Ha Hp Hc Hn Hd Hs] [Ha' Hp' Hc' Hn' Hd' Hs']. split.
    + intros l Hl. by rewrite Ha', Ha.
    + intros s b Hf Hb. destruct (Hp s b Hf Hb) as [b' Hb']. eauto.
    + by rewrite Hc'.
    + by rewrite Hn'.
    + by rewrite Hd'.
    + by rewrite Hs'.
Qed.

Section notify.
Context {T : Type}.
Implicit Types st : seqst T.

Lemma park_frame_frame r st st' : park_frame r st st' → frame r st st'.
Proof.
  intros [Ha _ Hc Hn _ _]. split; [|by rewrite Hc|done].
  intros l Hl. apply Ha. by left.
Qed.

Lemma park_frame_same r st st' :
  atoms st' = atoms st → cells st' = cells st → next_ring st' = next_ring st →
  dropped st' = dropped st → spurious st' = spurious st → park_frame r st st'.
Proof. intros Ha Hc Hn Hd Hs. split; rewrite ?Ha; eauto. Qed.

Lemma park_frame_set_flag r f b st :
  is_park_field f = true → park_frame r st (set_atoms <[Loc r f := Z.b2z b]> st).
Proof.
  intros Hf. split; try done.
  - intros l Hl. simpl. rewrite lookup_insert_ne; [done|]. intros <-.
    destruct Hl as [Hl|Hl]; simpl in Hl; congruence.
  - intros f' b' Hf' Hb. simpl. destruct (decide (f = f')) as [<-|].
    + exists b. by rewrite lookup_insert_eq.
    + exists b'. rewrite lookup_insert_ne; [done|]. congruence.
Qed.

Lemma park_frame_flag r f st st' :
  is_park_field f = true → park_frame r st st' →
  (∃ b, atoms st !! Loc r f = Some (Z.b2z b)) → ∃ b, atoms st' !! Loc r f = Some (Z.b2z b).
Proof. intros Hf Hpf [b Hb]. by eapply (pf_flag _ _ _ Hpf). Qed.

(** The parker after a wake that found its flag up. *)
Definition woken (r : nat) (s : side) st : seqst T :=
  let st1 := set_slots <[Loc r (ParkerSlot s) := None]>
               (set_atoms <[Loc r (Parked s) := Z.b2z false]> st) in
  match default None (slots st !! Loc r (ParkerSlot s)) with
  | Some t => set_tokens ({[t]} ∪.) st1
  | None => st1
  end.

Lemma wake_eq i r s st b :
  atoms st !! Loc r (Parked s) = Some (Z.b2z b) →
  run i (wake (parker_of r s)) st = Done tt (if b then woken r s st else st).
Proof.
  intros Hb. unfold wake. erewrite run_load_bool by exact Hb. destruct b; [|done].
  rewrite run_store_bool by eauto. rewrite run_take_slot by (simpl; rewrite lookup_insert_eq; eauto). unfold woken. simpl.
  by destruct (default None (slots st !! _)).
Qed.

Lemma woken_frame r s st : park_frame r st (woken r s st).
Proof.
  etrans; [by apply (park_frame_set_flag r (Parked s) false)|].
  unfold woken. destruct (default None (slots st !! _)); by apply park_frame_same.
Qed.

(** Waking always returns, whoever waits. *)
Lemma wake_run i r s st :
  (∃ b, atoms st !! Loc r (Parked s) = Some (Z.b2z b)) →
  ∃ st', run i (wake (parker_of r s)) st = Done tt st' ∧ park_frame r st st'.
Proof.
  intros [b Hb]. eexists. split; [by apply wake_eq|].
  destruct b; [apply woken_frame|reflexivity].
Qed.

Lemma unpark_all_run i ts st :
  run i (unpark_all ts) st = Done tt (set_tokens (λ X, list_to_set ts ∪ X) st).
Proof.
  revert st. induction ts as [|t ts IH]; intros st.
  - cbn [unpark_all]. rewrite run_mret. destruct st. unfold set_tokens. simpl. do 2 f_equal. apply leibniz_equiv. set_solver.
  - cbn [unpark_all]. erewrite run_bind_Done by apply run_unpark. rewrite IH.
    destruct st. unfold set_tokens. simpl. do 2 f_equal. apply leibniz_equiv. set_solver.
Qed.

(** The state after a [wake_all] that found the waiting flag up. *)
Definition all_woken (r : nat) st : seqst T :=
  set_tokens (λ X, list_to_set (default [] (queues st !! Loc r WaiterQueue)) ∪ X)
    (set_queues <[Loc r WaiterQueue := []]>
      (set_atoms <[Loc r Waiting := Z.b2z false]> st)).

Lemma wake_all_eq i r st b :
  atoms st !! Loc r Waiting = Some (Z.b2z b) →
  run i (wake_all (waiter_list_of r)) st =
    Done tt (if b then all_woken r st
             else set_atoms <[Loc r Waiting := Z.b2z false]> st).
Proof.
  intros Hb. unfold wake_all. erewrite run_swap_bool by exact Hb. destruct b; [|done].
  rewrite run_drain_waiters by (simpl; rewrite lookup_insert_eq; eauto). by rewrite unpark_all_run.
Qed.

Lemma all_woken_frame r st : park_frame r st (all_woken r st).
Proof.
  etrans; [by apply (park_frame_set_flag r Waiting false)|].
  by apply park_frame_same.
Qed.

Lemma wake_all_run i r st :
  (∃ b, atoms st !! Loc r Waiting = Some (Z.b2z b)) →
  ∃ st', run i (wake_all (waiter_list_of r)) st = Done tt st' ∧ park_frame r st st'.
Proof.
  intros [b Hb]. eexists. split; [by apply wake_all_eq|].
  destruct b; [apply all_woken_frame|by apply park_frame_set_flag].
Qed.

(** Registering with the parker. *)
Definition prepared i r s st : seqst T :=
  set_atoms <[Loc r (Parked s) := Z.b2z true]> (set_slots <[Loc r (ParkerSlot s) := Some i]> st).

Lemma prepare_park_run i r s st :
  is_Some (atoms st !! Loc r (Parked s)) →
  run i (prepare_park (parker_of r s)) st = Done tt (prepared i r s st).
Proof.
  intros Hl. unfold prepare_park. rewrite run_set_slot by done.
  rewrite <-(run_bind_mret i (store_bool _ _ _)). by rewrite run_store_bool.
Qed.

Lemma Parker_park_run i r s st :
  is_Some (atoms st !! Loc r (Parked s)) → i ∈ tokens st →
  run i (Parker_park (parker_of r s)) st =
    Done tt (set_atoms <[Loc r (Parked s) := Z.b2z false]> (set_tokens (.∖ {[i]}) st)).
Proof.
  intros Hl Hi. unfold Parker_park. rewrite run_park by done.
  rewrite <-(run_bind_mret i (store_bool _ _ _)). by rewrite run_store_bool.
Qed.

(** Registering with the waiter list. *)
Definition enlisted i r st : seqst T :=
  set_atoms <[Loc r Waiting := Z.b2z true]>
    (set_queues
       <[Loc r WaiterQueue := default [] (queues st !! Loc r WaiterQueue) ++ [i]]> st).

Lemma prepare_wait_run i r st :
  is_Some (atoms st !! Loc r Waiting) →
  run i (prepare_wait (waiter_list_of r)) st = Done tt (enlisted i r st).
Proof.
  intros Hl. unfold prepare_wait. rewrite run_push_waiter by done.
  rewrite <-(run_bind_mret i (store_bool _ _ _)). by rewrite run_store_bool.
Qed.

(** Several threads register one after the other. *)
Fixpoint enlist_all (ts : list tid) r st : outcome T unit :=
  match ts with
  | [] => Done tt st
  | t :: ts =>
      match run t (prepare_wait (waiter_list_of r)) st with
      | Done _ st => enlist_all ts r st
      | o => o
      end
  end.

Lemma enlist_all_run ts r st :
  is_Some (atoms st !! Loc r Waiting) → ts ≠ [] →
  ∃ st', enlist_all ts r st = Done tt st' ∧
    atoms st' !! Loc r Waiting = Some (Z.b2z true) ∧ tokens st' = tokens st ∧
    default [] (queues st' !! Loc r WaiterQueue) =
      default [] (queues st !! Loc r WaiterQueue) ++ ts.
Proof.
  revert st. induction ts as [|t ts IH]; intros st Hl Hne; [done|].
  cbn [enlist_all]. rewrite prepare_wait_run by done.
  assert (Hw : atoms (enlisted t r st) !! Loc r Waiting = Some (Z.b2z true))
    by (simpl; by rewrite lookup_insert_eq).
  assert (Hq : default [] (queues (enlisted t r st) !! Loc r WaiterQueue) =
    default [] (queues st !! Loc r WaiterQueue) ++ [t])
    by (simpl; by rewrite lookup_insert_eq).
  destruct (decide (ts = [])) as [->|Hts]; [eexists; by split_and!|].
  destruct (IH (enlisted t r st)) as (st' & Hrun & Hw' & Ht' & Hq'); [by eexists|done|].
  exists st'. split_and!; [done|done|by rewrite Ht'|]. by rewrite Hq', Hq, <-app_assoc.
Qed.
End notify.
