(* ===== verification/NotifyProps.v ===== *)
(** What the notify layer promises when its operations do not overlap: a
    registered waiter that a wake finds is not left sleeping. *)
From S2P Require Import Prelude Usize Atomic Notify Seq NotifySeq.
Local Open Scope Z_scope.

Section props.
Context {T : Type}.
Implicit Types st : seqst T.

(** Storing what is there changes nothing. *)
Lemma set_atoms_same l v st : atoms st !! l = Some v → set_atoms <[l := v]> st = st.
Proof. intros Hl. destruct st as [A ????????]. unfold set_atoms. simpl in *. by rewrite insert_id. Qed.

(** C25. The parker's hand-off. A thread that registered and was then woken
    holds a token: its park returns at once, takes the token and lowers the
    flag. Without the wake it blocks. A thread that registered and then
    cancelled is not unparked: the wake finds the flag down and does nothing. *)
Theorem parker_handoff (i j : tid) (r : nat) (s : side) st :
  is_Some (atoms st !! Loc r (Parked s)) → i ∉ tokens st →
  ∃ st1, run i (prepare_park (parker_of r s)) st = Done tt st1 ∧
    run i (Parker_park (parker_of r s)) st1 = Blocked st1 ∧
    (∃ st2 st3, run j (wake (parker_of r s)) st1 = Done tt st2 ∧
       tokens st2 = {[i]} ∪ tokens st ∧
       run i (Parker_park (parker_of r s)) st2 = Done tt st3 ∧ tokens st3 = tokens st ∧
       atoms st3 !! Loc r (Parked s) = Some 0) ∧
    (∃ st2, run i (cancel (parker_of r s)) st1 = Done tt st2 ∧
       run j (wake (parker_of r s)) st2 = Done tt st2 ∧ tokens st2 = tokens st).
Proof.
  intros Hl Hi. exists (prepared i r s st).
  assert (Hflag : atoms (prepared i r s st) !! Loc r (Parked s) = Some (Z.b2z true))
    by (simpl; by rewrite lookup_insert_eq).
  assert (Hslot : slots (prepared i r s st) !! Loc r (ParkerSlot s) = Some (Some i))
    by (simpl; by rewrite lookup_insert_eq).
  split; [by apply prepare_park_run|]. split.
  { unfold Parker_park. by apply run_park_blocked. }
  split.
  - set (st2 := woken r s (prepared i r s st)).
    assert (Htok : tokens st2 = {[i]} ∪ tokens st) by (unfold st2, woken; by rewrite Hslot).
    assert (Hdown : is_Some (atoms st2 !! Loc r (Parked s))).
    { unfold st2, woken. rewrite Hslot. simpl. rewrite lookup_insert_eq. by eexists. }
    eexists st2, _. split; [by rewrite (wake_eq _ _ _ _ _ Hflag)|]. split; [done|].
    split; [apply Parker_park_run; [done|rewrite Htok; set_solver]|]. split.
    + simpl. rewrite Htok. apply leibniz_equiv. set_solver.
    + simpl. by rewrite lookup_insert_eq.
  - set (st2 := set_atoms <[Loc r (Parked s) := Z.b2z false]> (prepared i r s st)).
    exists st2. split_and!; [|by rewrite (wake_eq _ _ _ _ false) by (simpl; by rewrite lookup_insert_eq)|done].
    unfold cancel. rewrite <-(run_bind_mret i (store_bool _ _ _)). by rewrite run_store_bool.
Qed.

(** C26. Wake-all. However many threads registered on a waiter list, one
    [wake_all] unparks every one of them and nobody else, empties the list and
    lowers the flag; the next [wake_all] then changes nothing at all. *)
Theorem wake_all_wakes_everyone (j : tid) (ts : list tid) (r : nat) st :
  is_Some (atoms st !! Loc r Waiting) → ts ≠ [] →
  default [] (queues st !! Loc r WaiterQueue) = [] →
  ∃ st1 st2, enlist_all ts r st = Done tt st1 ∧
    atoms st1 !! Loc r Waiting = Some (Z.b2z true) ∧
    run j (wake_all (waiter_list_of r)) st1 = Done tt st2 ∧
    (∀ t, t ∈ tokens st2 ↔ t ∈ ts ∨ t ∈ tokens st) ∧
    queues st2 !! Loc r WaiterQueue = Some [] ∧
    atoms st2 !! Loc r Waiting = Some (Z.b2z false) ∧
    run j (wake_all (waiter_list_of r)) st2 = Done tt st2.
Proof.
  intros Hl Hne Hq. destruct (enlist_all_run ts r st Hl Hne) as (st1 & Hrun & Hw & Ht & Hq1).
  exists st1, (all_woken r st1).
  assert (Hdown : atoms (all_woken r st1) !! Loc r Waiting = Some (Z.b2z false))
    by (simpl; by rewrite lookup_insert_eq).
  split; [done|]. split; [done|]. split; [by rewrite (wake_all_eq _ _ _ _ Hw)|]. split.
  { intros t. simpl. rewrite elem_of_union, elem_of_list_to_set, Ht, Hq1, Hq. done. }
  split; [simpl; by rewrite lookup_insert_eq|]. split; [done|].
  rewrite (wake_all_eq _ _ _ _ Hdown). by rewrite set_atoms_same.
Qed.
End props.

Definition demo_store : seqst Z :=
  set_atoms (λ _, <[Loc 0 Waiting := 0]> {[Loc 0 (Parked Consumer) := 0]}) empty_state.

Lemma parker_handoff_witness : ∃ st1 st2 st3 : seqst Z,
  run 1 (prepare_park (parker_of 0 Consumer)) demo_store = Done tt st1 ∧
  run 2 (wake (parker_of 0 Consumer)) st1 = Done tt st2 ∧
  run 1 (Parker_park (parker_of 0 Consumer)) st2 = Done tt st3.
Proof.
  destruct (parker_handoff 1 2 0 Consumer demo_store) as (st1 & H1 & _ & (st2 & st3 & H2 & _ & H3 & _) & _);
    [vm_compute; by eexists|by vm_compute|].
  by exists st1, st2, st3.
Defined.

Lemma wake_all_wakes_everyone_witness : ∃ st1 st2 : seqst Z,
  enlist_all [1%nat; 2%nat; 1%nat] 0 demo_store = Done tt st1 ∧
  run 3 (wake_all (waiter_list_of 0)) st1 = Done tt st2 ∧ 2%nat ∈ tokens st2.
Proof.
  destruct (wake_all_wakes_everyone 3 [1%nat; 2%nat; 1%nat] 0 demo_store)
    as (st1 & st2 & H1 & _ & H2 & H3 & _); [vm_compute; by eexists|done|by vm_compute|].
  exists st1, st2. split_and!; [done|done|]. apply H3. left. set_solver.
Defined.
