(* ===== verification/LoomNotify.v ===== *)
(** The notify layer that the model checker's build uses ([src/notify.rs],
    [imp] under [cfg(loom)]): parking rebuilt from a mutex and a condition
    variable, as step relations with one step per access. Loom's mutex and
    condition variable behave as those of the standard library: waiting releases
    the mutex and may return spuriously. The token of this [Parker] is the token
    of [std::thread::park] that the rest of the development works with.

    Each of the two structs has one atomic, a flag accessed with [Relaxed] only.
    Its stores are appended to its modification order, a load reads any store
    its thread does not know to be overwritten, a read-modify-write reads the
    last one, and the mutex carries what its last owner knew to the next. For
    one location this loses no behaviour of the language's memory model:
    happens-before, the location's modification order and reads-from have no
    cycle together, so every execution can be run in an order that agrees with
    the modification order. Between calls a thread may learn of any store, which
    stands for all the synchronization the callers do by other means. *)
From stdpp Require Import relations functions.
From S2P Require Import Prelude Usize Atomic.
Local Open Scope Z_scope.

(** ** One relaxed flag and the mutex beside it *)

Module RelaxedFlag.

(** The stores in modification order, the newest one each thread knows of, and
    the newest one the mutex carries. *)
Record flag := Flag {
  stores : list bool;
  seen : tid → nat;
  carried : nat;
}.

Definition flag_new : flag := Flag [false] (λ _, 0%nat) 0.
Definition latest (f : flag) : bool := default false (stores f !! pred (length (stores f))).

(** A store, or the store of a read-modify-write, by thread [i]. *)
Definition put (i : tid) (b : bool) (f : flag) : flag :=
  Flag (stores f ++ [b]) (<[i := length (stores f)]> (seen f)) (carried f).
(** Thread [i] may load [b] from the [k]-th store; it then knows of it. *)
Definition reads (i : tid) (k : nat) (b : bool) (f : flag) : Prop :=
  (seen f i ≤ k)%nat ∧ stores f !! k = Some b.
Definition saw (i : tid) (k : nat) (f : flag) : flag :=
  Flag (stores f) (<[i := (seen f i `max` k)%nat]> (seen f)) (carried f).
(** Thread [i] acquires and releases the mutex. *)
Definition locked (i : tid) (f : flag) : flag := saw i (carried f) f.
Definition unlocked (i : tid) (f : flag) : flag :=
  Flag (stores f) (seen f) (carried f `max` seen f i).

Record flag_ok (f : flag) : Prop := {
  fo_seen i : (seen f i < length (stores f))%nat;
  fo_carried : (carried f < length (stores f))%nat;
}.

Lemma seen_saw i k f j :
  seen (saw i k f) j = if decide (i = j) then (seen f i `max` k)%nat else seen f j.
Proof. simpl. case_decide; [subst; by rewrite fn_lookup_insert|by rewrite fn_lookup_insert_ne]. Qed.

Lemma seen_put i b f j :
  seen (put i b f) j = if decide (i = j) then length (stores f) else seen f j.
Proof. simpl. case_decide; [subst; by rewrite fn_lookup_insert|by rewrite fn_lookup_insert_ne]. Qed.

Lemma new_flag_ok : flag_ok flag_new.
Proof. split; simpl; lia. Qed.

Lemma put_ok i b f : flag_ok f → flag_ok (put i b f).
Proof.
  intros [Hs Hc]. split; [intros j; rewrite seen_put|]; simpl; rewrite length_app; simpl; [|lia].
  specialize (Hs j). case_decide; lia.
Qed.

Lemma saw_ok i k f : flag_ok f → (k < length (stores f))%nat → flag_ok (saw i k f).
Proof.
  intros [Hs Hc] Hk. split; [intros j; rewrite seen_saw|]; simpl; [|done].
  pose proof (Hs i). specialize (Hs j). case_decide; lia.
Qed.

Lemma locked_ok i f : flag_ok f → flag_ok (locked i f).
Proof. intros Hf. apply saw_ok; [done|]. by apply fo_carried. Qed.

Lemma unlocked_ok i f : flag_ok f → flag_ok (unlocked i f).
Proof. intros [Hs Hc]. split; simpl; [done|]. specialize (Hs i). lia. Qed.

Lemma reads_known i k b f : reads i k b f → (k < length (stores f))%nat.
Proof. intros [_ Hk]. by eapply lookup_lt_Some. Qed.

(** There is always something to load. *)
Lemma can_read i f : flag_ok f → ∃ k b, reads i k b f.
Proof.
  intros [Hs _]. destruct (lookup_lt_is_Some_2 (stores f) (seen f i) (Hs i)) as [b Hb].
  by exists (seen f i), b.
Qed.

Lemma latest_put i b f : latest (put i b f) = b.
Proof.
  unfold latest. simpl. rewrite length_app, Nat.add_comm. simpl. by rewrite list_lookup_middle.
Qed.

Lemma latest_lookup f k : length (stores f) = S k → stores f !! k = Some (latest f).
Proof.
  intros Hk. unfold latest. rewrite Hk. simpl.
  destruct (lookup_lt_is_Some_2 (stores f) k) as [b Hb]; [lia|by rewrite Hb].
Qed.

(** Between a store of [true] and a last store of [false] the flag was lowered. *)
Lemma lowered_between f k :
  stores f !! k = Some true → latest f = false →
  ∃ q, (k ≤ q)%nat ∧ stores f !! q = Some true ∧ stores f !! S q = Some false.
Proof.
  intros Hk Hl. pose proof (lookup_lt_Some _ _ _ Hk) as Hlt.
  remember (length (stores f) - S k)%nat as n eqn:Hn.
  revert k Hk Hlt Hn. induction n as [|n IH]; intros k Hk Hlt Hn.
  - rewrite (latest_lookup f k) in Hk by lia. congruence.
  - destruct (lookup_lt_is_Some_2 (stores f) (S k)) as [[] Hb]; [lia| |by exists k].
    destruct (IH (S k) Hb) as (q & Hq & H1 & H2); [lia..|]. exists q. split_and!; [lia|done..].
Qed.
End RelaxedFlag.

(** ** [Parker] *)

Module LoomParker.
Import RelaxedFlag.

(** Where a thread is: outside, or before the named access of [prepare_park],
    [cancel], [park] and [wake]. *)
Inductive pc :=
  | Out
  | PrepStore
  | CancelStore
  | ParkLock | ParkTest | ParkSleep | ParkRelock | ParkTake | ParkUnlock | ParkClear
  | WakeLoad | WakeStore | WakeLock | WakeSet | WakeNotify.

#[global] Instance pc_eq_dec : EqDecision pc.
Proof. solve_decision. Defined.

(** The fields of the struct with the owner of the mutex, and where the threads
    are. The last four components only record the past: how many tokens were
    left and taken; the store by which the waiter registered, until it cancels
    or its [park] takes a token; whether since then a [wake] that knew of the
    registration has loaded the flag. *)
Record state := State {
  parked : flag;
  token : bool;
  owner : option tid;
  at_pc : tid → pc;
  left : nat;
  taken : nat;
  registered : option nat;
  answered : bool;
}.

Definition new : state := State flag_new false None (λ _, Out) 0 0 None false.

Definition goto (i : tid) (p : pc) (s : state) : state :=
  State (parked s) (token s) (owner s) (<[i := p]> (at_pc s)) (left s) (taken s)
    (registered s) (answered s).
Definition set_parked (f : flag) (s : state) : state :=
  State f (token s) (owner s) (at_pc s) (left s) (taken s) (registered s) (answered s).
Definition set_owner (o : option tid) (s : state) : state :=
  State (parked s) (token s) o (at_pc s) (left s) (taken s) (registered s) (answered s).
Definition leave_token (s : state) : state :=
  State (parked s) true (owner s) (at_pc s) (S (left s)) (taken s) (registered s) (answered s).
Definition take_token (s : state) : state :=
  State (parked s) false (owner s) (at_pc s) (left s) (S (taken s)) (registered s) (answered s).
Definition register (r : option nat) (a : bool) (s : state) : state :=
  State (parked s) (token s) (owner s) (at_pc s) (left s) (taken s) r a.

(** The mutex is taken and given back with what its owner knows of the flag. *)
Definition acquire (i : tid) (s : state) : state :=
  set_owner (Some i) (set_parked (locked i (parked s)) s).
Definition release (i : tid) (s : state) : state :=
  set_owner None (set_parked (unlocked i (parked s)) s).

(** Thread [i] knows that the waiter is registered. *)
Definition knows (i : tid) (s : state) : bool :=
  match registered s with Some p => (p <=? seen (parked s) i)%nat | None => false end.

(** The entry points; all but [wake] belong to the one waiter. *)
Definition entry (p : pc) : bool :=
  match p with PrepStore | CancelStore | ParkLock | WakeLoad => true | _ => false end.
Definition waits (p : pc) : bool :=
  match p with
  | PrepStore | CancelStore | ParkLock | ParkTest | ParkSleep | ParkRelock | ParkTake
  | ParkUnlock | ParkClear => true
  | _ => false
  end.

Section parker.
Context (waiter : tid).

Inductive step (s : state) : state → Prop :=
  | step_call i p : at_pc s i = Out → entry p = true → (waits p = true → i = waiter) →
      step s (goto i p s)
  (** Between calls. *)
  | step_learn i k : at_pc s i = Out → (k < length (stores (parked s)))%nat →
      step s (set_parked (saw i k (parked s)) s)
  (** [self.parked.store(true)]; [self.parked.store(false)] *)
  | step_prep i : at_pc s i = PrepStore →
      step s (goto i Out (register (Some (length (stores (parked s)))) false
        (set_parked (put i true (parked s)) s)))
  | step_cancel i : at_pc s i = CancelStore →
      step s (goto i Out (register None false (set_parked (put i false (parked s)) s)))
  (** [park]: lock; [while !*token { token = cv.wait(token) }]; clear; unlock *)
  | step_lock i : at_pc s i = ParkLock → owner s = None → step s (goto i ParkTest (acquire i s))
  | step_seen i : at_pc s i = ParkTest → token s = true → step s (goto i ParkTake s)
  | step_wait i : at_pc s i = ParkTest → token s = false → step s (goto i ParkSleep (release i s))
  | step_spurious i : at_pc s i = ParkSleep → step s (goto i ParkRelock s)
  | step_relock i : at_pc s i = ParkRelock → owner s = None → step s (goto i ParkTest (acquire i s))
  | step_take i : at_pc s i = ParkTake →
      step s (goto i ParkUnlock (register None false (take_token s)))
  | step_unlock i : at_pc s i = ParkUnlock → step s (goto i ParkClear (release i s))
  | step_clear i : at_pc s i = ParkClear →
      step s (goto i Out (set_parked (put i false (parked s)) s))
  (** [wake]: [if self.parked.load() { self.parked.store(false); *lock() = true;
      cv.notify_one() }] *)
  | step_load i k b : at_pc s i = WakeLoad → reads i k b (parked s) →
      step s (goto i (if b then WakeStore else Out)
        (register (registered s) (answered s || knows i s)
          (set_parked (saw i k (parked s)) s)))
  | step_store i : at_pc s i = WakeStore →
      step s (goto i WakeLock (set_parked (put i false (parked s)) s))
  | step_wlock i : at_pc s i = WakeLock → owner s = None → step s (goto i WakeSet (acquire i s))
  | step_set i : at_pc s i = WakeSet → step s (goto i WakeNotify (leave_token (release i s)))
  | step_notify i j : at_pc s i = WakeNotify → at_pc s j = ParkSleep →
      step s (goto j ParkRelock (goto i Out s))
  | step_nobody i : at_pc s i = WakeNotify → (∀ j, at_pc s j ≠ ParkSleep) →
      step s (goto i Out s).

Definition reachable (s : state) : Prop := rtc step new s.

(** In the critical section. *)
Definition holds (p : pc) : bool :=
  match p with ParkTest | ParkTake | ParkUnlock | WakeSet => true | _ => false end.
(** About to look at the token, or to notify a thread that will. *)
Definition looks (p : pc) : bool :=
  match p with ParkLock | ParkTest | ParkRelock | ParkTake | WakeNotify => true | _ => false end.
(** In a [wake] that lowered the flag, or found it up, and has yet to leave the
    token. *)
Definition coming (p : pc) : bool := match p with WakeLock | WakeSet => true | _ => false end.
Definition on_way (p : pc) : bool :=
  match p with WakeStore | WakeLock | WakeSet => true | _ => false end.
Definition has_taken (p : pc) : bool := match p with ParkUnlock | ParkClear => true | _ => false end.

Definition some (P : pc → bool) (s : state) : Prop := ∃ k, P (at_pc s k) = true.

(** The mutex and the token. *)
Record inv (s : state) : Prop := {
  in_owner i : owner s = Some i ↔ holds (at_pc s i) = true;
  in_cover i : at_pc s i = ParkSleep → token s = true → some looks s;
  in_seen i : at_pc s i = ParkTake → token s = true;
  in_tokens : (taken s + Nat.b2n (token s) ≤ left s)%nat;
}.

(** The flag and the registration. *)
Record reg_inv (s : state) : Prop := {
  in_flag : flag_ok (parked s);
  in_waiter i : waits (at_pc s i) = true → i = waiter;
  in_reg p : registered s = Some p → stores (parked s) !! p = Some true;
  in_done i : has_taken (at_pc s i) = true → registered s = None;
  in_after p : registered s = Some p → (S p < length (stores (parked s)))%nat →
    token s = true ∨ some coming s;
  in_answered : answered s = true →
    is_Some (registered s) ∧ (token s = true ∨ some on_way s);
  in_raised : (0 < left s)%nat ∨ some on_way s → true ∈ stores (parked s);
}.

(** Where a thread is after another moved. *)
Lemma pc_goto i p s j : at_pc (goto i p s) j = if decide (i = j) then p else at_pc s j.
Proof.
  simpl. case_decide; [subst; by rewrite fn_lookup_insert|by rewrite fn_lookup_insert_ne].
Qed.

(** The thread is still there, or the mover is there now. *)
Lemma some_goto P i p s : some P s → P p = true ∨ P (at_pc s i) = false → some P (goto i p s).
Proof.
  intros [k Hk] [Hp|Hp]; [exists i; by rewrite pc_goto, decide_True|].
  exists k. rewrite pc_goto, decide_False; [assumption|]. intros ->. congruence.
Qed.

Lemma some_here P i p s : P p = true → some P (goto i p s).
Proof. intros Hp. exists i. by rewrite pc_goto, decide_True. Qed.

Lemma some_before P i p s : some P (goto i p s) → P p = true ∨ some P s.
Proof. intros [k Hk]. rewrite pc_goto in Hk. case_decide; [by left|right; by exists k]. Qed.

Lemma parker_new_inv : inv new ∧ reg_inv new.
Proof.
  split; split; simpl; try apply new_flag_ok; try naive_solver lia.
  intros [?|[k Hk]]; [lia|discriminate Hk].
Qed.

(** *** The mutex and the token *)

(** A thread that moves without touching the mutex. *)
Lemma owner_goto i p s :
  (∀ j, owner s = Some j ↔ holds (at_pc s j) = true) → holds p = holds (at_pc s i) →
  ∀ j, owner s = Some j ↔ holds (at_pc (goto i p s) j) = true.
Proof. intros Ho Hp j. rewrite pc_goto. case_decide; subst; [by rewrite Hp|apply Ho]. Qed.

Lemma owner_lock i p s :
  (∀ j, owner s = Some j ↔ holds (at_pc s j) = true) → owner s = None → holds p = true →
  ∀ j, Some i = Some j ↔ holds (at_pc (goto i p s) j) = true.
Proof.
  intros Ho Hn Hp j. rewrite pc_goto. case_decide; [by subst|].
  rewrite <-Ho, Hn. split; [by intros [= ->]|discriminate].
Qed.

Lemma owner_unlock i p s :
  (∀ j, owner s = Some j ↔ holds (at_pc s j) = true) →
  holds (at_pc s i) = true → holds p = false →
  ∀ j, None = Some j ↔ holds (at_pc (goto i p s) j) = true.
Proof.
  intros Ho Hi Hp j. rewrite pc_goto. split; [discriminate|]. apply Ho in Hi.
  case_decide as Hj; [subst; by rewrite Hp|]. rewrite <-Ho, Hi. by intros [= ->].
Qed.

(** A thread that changes neither the token nor the mutex. *)
Lemma quiet_inv i p f r a s :
  inv s → holds p = holds (at_pc s i) → p ≠ ParkSleep → (p = ParkTake → token s = true) →
  looks p = true ∨ looks (at_pc s i) = false ∨ (∀ j, at_pc s j ≠ ParkSleep) →
  inv (goto i p (register r a (set_parked f s))).
Proof.
  intros [Ho Hc Hs Ht] Hp Hne Htk Hl.
  split; [by apply (owner_goto i p (register r a (set_parked f s)))| | |assumption].
  - intros j Hj Htok. rewrite pc_goto in Hj. case_decide; [congruence|].
    destruct Hl as [?|[?|Hl]]; [| |by destruct (Hl j)]; (apply some_goto; [|auto]); by apply (Hc j).
  - intros j Hj. rewrite pc_goto in Hj. case_decide; [auto|by apply (Hs j)].
Qed.

Lemma same_state s : s = register (registered s) (answered s) (set_parked (parked s) s).
Proof. by destruct s. Qed.

Lemma quiet_inv' i p s :
  inv s → holds p = holds (at_pc s i) → p ≠ ParkSleep → (p = ParkTake → token s = true) →
  looks p = true ∨ looks (at_pc s i) = false ∨ (∀ j, at_pc s j ≠ ParkSleep) →
  inv (goto i p s).
Proof. intros. rewrite (same_state s). by apply quiet_inv. Qed.

(** A thread that takes the mutex. *)
Lemma acquire_inv i p s :
  inv s → owner s = None → holds p = true → p ≠ ParkTake → looks p = true ∨ looks (at_pc s i) = false →
  inv (goto i p (acquire i s)).
Proof.
  intros [Ho Hc Hs Ht] Hn Hp Hne Hl. split; [by apply (owner_lock i p s)| | |assumption].
  - intros j Hj Htok. rewrite pc_goto in Hj. case_decide; [by subst|].
    apply (some_goto _ i p (acquire i s)); [by apply (Hc j)|assumption].
  - intros j Hj. rewrite pc_goto in Hj. case_decide; [congruence|by apply (Hs j)].
Qed.

Lemma parker_step_inv s s' : inv s → step s s' → inv s'.
Proof.
  intros HI Hst. pose proof HI as [Ho Hc Hs Ht].
  destruct Hst as [i p Hi Hp _|i k Hi Hk|i Hi|i Hi|i Hi Hn|i Hi Htk|i Hi Htk|i Hi|i Hi Hn|i Hi|i Hi
    |i Hi|i k b Hi Hk|i Hi|i Hi Hn|i Hi|i j Hi Hj|i Hi Hj].
  all: try (apply acquire_inv; rewrite ?Hi; auto; discriminate).
  all: try (apply quiet_inv'; rewrite ?Hi; auto; discriminate).
  all: try (apply quiet_inv; rewrite ?Hi; auto; discriminate).
  - (* call *) destruct p; try discriminate; apply quiet_inv'; rewrite ?Hi; simpl; auto; discriminate.
  - (* learn *) by split.
  - (* wait *) split; [| | |assumption].
    + apply (owner_unlock i ParkSleep s); [assumption| |reflexivity]. by rewrite Hi.
    + intros j Hj Htok. simpl in Htok. congruence.
    + intros j Hj. rewrite pc_goto in Hj. case_decide; [discriminate|by apply (Hs j)].
  - (* take *) split.
    + apply (owner_goto i ParkUnlock s); [assumption|]. by rewrite Hi.
    + discriminate.
    + intros j Hj. rewrite pc_goto in Hj. case_decide as Hd; [discriminate|]. simpl in Hj.
      destruct Hd. assert (owner s = Some i) by (apply Ho; by rewrite Hi).
      assert (owner s = Some j) by (apply Ho; by rewrite Hj). congruence.
    + simpl. rewrite (Hs i Hi) in Ht. simpl in Ht. lia.
  - (* unlock *) split; [| | |assumption].
    + apply (owner_unlock i ParkClear s); [assumption| |reflexivity]. by rewrite Hi.
    + intros j Hj Htok. rewrite pc_goto in Hj. case_decide; [discriminate|].
      apply (some_goto _ i ParkClear (release i s)); [by apply (Hc j)|right; simpl; by rewrite Hi].
    + intros j Hj. rewrite pc_goto in Hj. case_decide; [discriminate|by apply (Hs j)].
  - (* load *) apply quiet_inv; rewrite ?Hi; auto; by destruct b.
  - (* wake sets *) split; [| |reflexivity|].
    + apply (owner_unlock i WakeNotify s); [assumption| |reflexivity]. by rewrite Hi.
    + intros j _ _. by apply some_here.
    + simpl. destruct (token s); simpl in *; lia.
  - (* notify *) assert (i ≠ j) by congruence. split; [| | |assumption].
    + apply (owner_goto j ParkRelock (goto i Out s)); [|rewrite pc_goto, decide_False by assumption; by rewrite Hj].
      apply (owner_goto i Out s); [assumption|by rewrite Hi].
    + intros k Hk Htok. by apply some_here.
    + intros k Hk. rewrite !pc_goto in Hk. do 2 (case_decide; [discriminate|]). by apply (Hs k).
Qed.

(** *** The flag and the registration *)

(** A thread that stores nothing and leaves the token and the registration. *)
Lemma quiet_reg i p f o a s :
  reg_inv s → stores f = stores (parked s) → flag_ok f → (waits p = true → i = waiter) →
  (has_taken p = true → registered s = None) →
  coming p = true ∨ coming (at_pc s i) = false → on_way p = true ∨ on_way (at_pc s i) = false →
  (on_way p = true → true ∈ stores (parked s)) →
  (a = true → is_Some (registered s) ∧ (token s = true ∨ some on_way s ∨ on_way p = true)) →
  reg_inv (goto i p (set_owner o (register (registered s) a (set_parked f s)))).
Proof.
  intros [Hf Hw Hr Hd Ha Hans Hrai] Hst Hok Hp Htk Hco Hon Hup Han. split; cbn [parked registered goto set_owner register set_parked left token answered]; rewrite ?Hst.
  - assumption.
  - intros j. rewrite pc_goto. case_decide; [subst; auto|apply Hw].
  - assumption.
  - intros j. rewrite pc_goto. case_decide; [auto|apply Hd].
  - intros q Hq Hlen. destruct (Ha q Hq Hlen) as [|Hs]; [by left|right].
    by apply (some_goto coming i p (set_owner o (register (registered s) a (set_parked f s)))).
  - intros Hat. destruct (Han Hat) as [Hreg Hcase]. split; [assumption|].
    destruct Hcase as [|[Hs|Hs]]; [by left|right..].
    + by apply (some_goto on_way i p (set_owner o (register (registered s) a (set_parked f s)))).
    + by apply some_here.
  - intros [|[Hup'|Hs]%some_before]; auto.
Qed.

Lemma quiet_reg' i p f o s :
  reg_inv s → stores f = stores (parked s) → flag_ok f → (waits p = true → i = waiter) →
  (has_taken p = true → registered s = None) →
  coming p = true ∨ coming (at_pc s i) = false → on_way p = true ∨ on_way (at_pc s i) = false →
  (on_way p = true → true ∈ stores (parked s)) →
  reg_inv (goto i p (set_owner o (set_parked f s))).
Proof.
  intros HI Hst Hok Hp Htk Hco Hon Hup.
  apply (quiet_reg i p f o (answered s) s HI Hst Hok Hp Htk Hco Hon Hup).
  intros [Hreg [|]]%(in_answered _ HI); auto.
Qed.

Lemma quiet_reg_pc i p s :
  reg_inv s → (waits p = true → i = waiter) → (has_taken p = true → registered s = None) →
  coming p = true ∨ coming (at_pc s i) = false → on_way p = true ∨ on_way (at_pc s i) = false →
  (on_way p = true → true ∈ stores (parked s)) →
  reg_inv (goto i p s).
Proof.
  intros HI. intros. assert (s = set_owner (owner s) (set_parked (parked s) s)) as -> by by destruct s.
  apply quiet_reg'; auto. apply HI.
Qed.

(** A store by the waiter, which ends the registration or makes a new one. *)
Lemma put_reg_waiter i b s r :
  reg_inv s → waits (at_pc s i) = true → b = true ∨ (on_way (at_pc s i) = false) →
  r = None ∨ r = Some (length (stores (parked s))) ∧ b = true →
  reg_inv (goto i Out (register r false (set_parked (put i b (parked s)) s))).
Proof.
  intros [Hf Hw Hr Hd Ha Hans Hrai] Hi Hb Hcase.
  split; cbn [parked registered goto register set_parked left token answered].
  - by apply put_ok.
  - intros j. rewrite pc_goto. case_decide; [discriminate|apply Hw].
  - intros q Hq. simpl. destruct Hcase as [->|[-> ->]]; [discriminate|].
    injection Hq as <-. by apply list_lookup_middle.
  - intros j. rewrite pc_goto. case_decide as Hne; [discriminate|]. intros Hj. destruct Hne.
    rewrite (Hw i Hi). symmetry. apply Hw. simpl in Hj. by destruct (at_pc s j).
  - intros q Hq Hlen. destruct Hcase as [->|[-> ->]]; [discriminate|]. injection Hq as <-.
    simpl in Hlen. rewrite length_app in Hlen. simpl in Hlen. lia.
  - discriminate.
  - intros Hup. simpl. apply elem_of_app. left. apply Hrai.
    destruct Hup as [|[Hup|Hs]%some_before]; [by left|discriminate|by right].
Qed.

(** A waker lowers the flag. *)
Lemma put_reg_waker i s :
  reg_inv s → at_pc s i = WakeStore → reg_inv (goto i WakeLock (set_parked (put i false (parked s)) s)).
Proof.
  intros [Hf Hw Hr Hd Ha Hans Hrai] Hi.
  split; cbn [parked registered goto set_parked left token answered].
  - by apply put_ok.
  - intros j. rewrite pc_goto. case_decide; [discriminate|apply Hw].
  - intros q Hq. simpl. by apply lookup_app_l_Some, Hr.
  - intros j. rewrite pc_goto. case_decide; [discriminate|apply Hd].
  - intros q Hq _. right. by apply some_here.
  - intros [Hreg _]%Hans. split; [assumption|]. right. by apply some_here.
  - intros _. simpl. apply elem_of_app. left. apply Hrai. right. exists i. by rewrite Hi.
Qed.

(** The token arrives, or is taken. *)
Lemma set_reg i s :
  reg_inv s → at_pc s i = WakeSet → reg_inv (goto i WakeNotify (leave_token (release i s))).
Proof.
  intros [Hf Hw Hr Hd Ha Hans Hrai] Hi.
  split; cbn [parked registered goto leave_token release set_owner set_parked left token answered].
  - by apply unlocked_ok.
  - intros j. rewrite pc_goto. case_decide; [discriminate|apply Hw].
  - assumption.
  - intros j. rewrite pc_goto. case_decide; [discriminate|apply Hd].
  - by left.
  - intros [Hreg _]%Hans. auto.
  - intros _. apply Hrai. right. exists i. by rewrite Hi.
Qed.

Lemma take_reg i s :
  reg_inv s → at_pc s i = ParkTake → reg_inv (goto i ParkUnlock (register None false (take_token s))).
Proof.
  intros [Hf Hw Hr Hd Ha Hans Hrai] Hi.
  split; cbn [parked registered goto register take_token left token answered]; try discriminate.
  - assumption.
  - intros j. rewrite pc_goto. case_decide; [subst; intros _; apply Hw; by rewrite Hi|apply Hw].
  - reflexivity.
  - intros [|[|Hs]%some_before]; [auto|discriminate|auto].
Qed.

Lemma load_reg i k b s :
  reg_inv s → at_pc s i = WakeLoad → reads i k b (parked s) →
  reg_inv (goto i (if b then WakeStore else Out)
    (register (registered s) (answered s || knows i s) (set_parked (saw i k (parked s)) s))).
Proof.
  intros HI Hi Hk. pose proof HI as [Hf Hw Hr Hd Ha Hans Hrai]. pose proof Hk as [Hle Hb].
  pose proof (reads_known _ _ _ _ Hk) as Hlt.
  apply (quiet_reg i _ (saw i k (parked s)) (owner s) (answered s || knows i s) s); rewrite ?Hi;
    [assumption|reflexivity|by apply saw_ok|by destruct b|by destruct b|by right|by right| |].
  - intros Hup. destruct b; [|discriminate]. by eapply list_elem_of_lookup_2.
  - intros [Hat|Hkn]%orb_prop.
    + destruct (Hans Hat) as [Hreg [|]]; auto.
    + unfold knows in Hkn. destruct (registered s) as [q|] eqn:Hq; [|discriminate].
      apply Nat.leb_le in Hkn. split; [by eexists|]. destruct b; [by right; right|].
      assert (k ≠ q) by (intros ->; rewrite (Hr q eq_refl) in Hb; discriminate).
      destruct (Ha q eq_refl) as [|[j Hj]]; [lia|by left|]. right. left. exists j.
      by destruct (at_pc s j).
Qed.

Lemma step_reg s s' : reg_inv s → step s s' → reg_inv s'.
Proof.
  intros HI Hst. pose proof HI as [Hf Hw Hr Hd Ha Hans Hrai].
  destruct Hst as [i p Hi Hp Hwt|i k Hi Hk|i Hi|i Hi|i Hi Hn|i Hi Htk|i Hi Htk|i Hi|i Hi Hn|i Hi|i Hi
    |i Hi|i k b Hi Hk|i Hi|i Hi Hn|i Hi|i j Hi Hj|i Hi Hj].
  all: pose proof (locked_ok i _ Hf) as Hlock; pose proof (unlocked_ok i _ Hf) as Hunlock.
  all: pose proof (Hw i) as Hwi; pose proof (Hd i) as Hdi; rewrite Hi in Hwi, Hdi; simpl in Hwi, Hdi.
  all: try (apply quiet_reg_pc; rewrite ?Hi; auto; discriminate).
  all: try (apply quiet_reg'; rewrite ?Hi; auto; discriminate).
  all: try (apply put_reg_waiter; rewrite ?Hi; auto; discriminate).
  - (* call *) apply quiet_reg_pc; rewrite ?Hi; auto; by destruct p.
  - (* learn *) split; try assumption. by apply saw_ok.
  - by apply take_reg.
  - (* clear *) specialize (Hdi eq_refl). assert (answered s = false) as Hnot.
    { destruct (answered s); [|reflexivity]. destruct (Hans eq_refl) as [[q Hq] _]. congruence. }
    assert (set_parked (put i false (parked s)) s = register None false (set_parked (put i false (parked s)) s))
      as -> by (unfold register, set_parked; simpl; by rewrite Hdi, Hnot).
    apply put_reg_waiter; rewrite ?Hi; auto.
  - by apply load_reg.
  - by apply put_reg_waker.
  - (* wake locks *) apply quiet_reg'; rewrite ?Hi; auto. intros _. apply Hrai. right. exists i. by rewrite Hi.
  - by apply set_reg.
  - (* notify *) assert (i ≠ j) by congruence.
    assert (at_pc (goto i Out s) j = ParkSleep) as Hj' by by rewrite pc_goto, decide_False.
    apply quiet_reg_pc; rewrite ?Hj'; auto; try discriminate.
    + apply quiet_reg_pc; rewrite ?Hi; auto; discriminate.
    + intros _. apply Hw. by rewrite Hj.
Qed.

Lemma reachable_inv s : reachable s → inv s ∧ reg_inv s.
Proof.
  unfold reachable. generalize parker_new_inv. generalize new. intros s0 H0 Hr.
  induction Hr as [|s0 s1 s2 Hst _ IH]; [assumption|]. destruct H0.
  apply IH. split; [by eapply parker_step_inv|by eapply step_reg].
Qed.

(** *** Progress *)

(** Thread [k] can make its next access. *)
Definition moves (k : tid) (s : state) : Prop := ∃ s', step s s' ∧ at_pc s' k ≠ at_pc s k.

Lemma goto_moves i p s s' :
  step s (goto i p s') → p ≠ at_pc s i → moves i s.
Proof. intros Hst Hne. exists (goto i p s'). split; [assumption|]. by rewrite pc_goto, decide_True. Qed.

(** Every thread that is neither outside nor asleep can move, or waits for a
    mutex whose owner can. *)
Lemma inside_moves s i :
  inv s → reg_inv s → at_pc s i ≠ Out → at_pc s i ≠ ParkSleep → owner s = None ∨ owner s = Some i →
  moves i s.
Proof.
  intros HI HR Hout Hsl Hown.
  assert (holds (at_pc s i) = false → owner s = None) as Hfree.
  { intros Hh. destruct Hown as [|Hown]; [assumption|]. apply (in_owner _ HI) in Hown. congruence. }
  destruct (at_pc s i) eqn:Hi; try contradiction.
  all: try (eapply goto_moves; [econstructor; eauto|rewrite Hi; discriminate]; fail).
  - destruct (token s) eqn:Htk.
    + by eapply goto_moves; [apply step_seen|rewrite Hi].
    + by eapply goto_moves; [apply step_wait|rewrite Hi].
  - destruct (can_read i _ (in_flag _ HR)) as (k & b & Hk).
    eapply goto_moves; [by apply step_load|rewrite Hi; by destruct b].
  - (* notify: only the waiter can be asleep *)
    destruct (decide (at_pc s waiter = ParkSleep)) as [Hws|Hw].
    + exists (goto waiter ParkRelock (goto i Out s)). split; [by apply step_notify|].
      rewrite !pc_goto, Hi. case_decide as Hwi; [subst; congruence|]. by rewrite decide_True.
    + eapply goto_moves; [apply step_nobody; [assumption|]|by rewrite Hi].
      intros j Hj. apply Hw. assert (j = waiter) as -> by (apply (in_waiter _ HR); by rewrite Hj).
      exact Hj.
Qed.

Lemma someone_moves s i :
  inv s → reg_inv s → at_pc s i ≠ Out → at_pc s i ≠ ParkSleep → ∃ k, moves k s.
Proof.
  intros HI HR Hout Hsl. destruct (owner s) as [k|] eqn:Hk; [|exists i; apply inside_moves; auto].
  pose proof (proj1 (in_owner _ HI k) Hk) as Hh.
  exists k. apply inside_moves; auto; intros Heq; by rewrite Heq in Hh.
Qed.

(** Loading the flag in the knowledge of the registration is recorded. *)
Lemma load_answers s s' i :
  step s s' → at_pc s i = WakeLoad → at_pc s' i ≠ WakeLoad → knows i s = true → answered s' = true.
Proof.
  intros Hst Hi Hne Hk. destruct Hst as [j p Hj|j k Hj|j Hj|j Hj|j Hj|j Hj|j Hj|j Hj|j Hj|j Hj|j Hj
    |j Hj|j k b Hj|j Hj|j Hj|j Hj|j l Hj Hl|j Hj]; try by destruct Hne.
  all: rewrite ?pc_goto in Hne; repeat case_decide; subst; try congruence; try (by destruct Hne).
  simpl. rewrite Hk. apply orb_true_r.
Qed.

(** C27. The model checker's [Parker], with its one waiter and any number of
    wakers, loses no wakeup, under any interleaving, with spurious returns of
    the condition variable and with every stale value of the flag that coherence
    allows: (1) the mutex is exclusive; (2) a waiter asleep while a token is
    there has somebody on the way to it; (3) once a [wake] that knew of the
    waiter's registration has loaded the flag - which is recorded - a token is
    there or somebody is on the way to leave one, until the waiter cancels or
    takes a token; so (4) a waiter asleep while every other thread is outside
    faces no token, and no [wake] that knew of its registration has been;
    (5) [park] returns at most once per token, and no token is ever left unless
    somebody has registered; (6) unless everybody is outside or asleep somebody
    can make its next access. *)
Theorem loom_parker_no_lost_wakeup s :
  reachable s →
  (∀ i j, holds (at_pc s i) = true → holds (at_pc s j) = true → i = j) ∧
  (∀ i, at_pc s i = ParkSleep → token s = true → some looks s) ∧
  ((∀ i s', step s s' → at_pc s i = WakeLoad → at_pc s' i ≠ WakeLoad → knows i s = true →
      answered s' = true) ∧
   (answered s = true → is_Some (registered s) ∧ (token s = true ∨ some on_way s))) ∧
  (at_pc s waiter = ParkSleep → (∀ k, k ≠ waiter → at_pc s k = Out) →
     token s = false ∧ answered s = false) ∧
  ((taken s + Nat.b2n (token s) ≤ left s)%nat ∧ ((0 < left s)%nat → true ∈ stores (parked s))) ∧
  (∀ i, at_pc s i ≠ Out → at_pc s i ≠ ParkSleep → ∃ k, moves k s).
Proof.
  intros [HI HR]%reachable_inv. split_and!.
  - intros i j Hi%(in_owner _ HI) Hj%(in_owner _ HI). congruence.
  - apply (in_cover _ HI).
  - intros i s'. apply load_answers.
  - apply (in_answered _ HR).
  - intros Hw Hout. assert (∀ P, P Out = false → P ParkSleep = false → ¬ some P s) as Hnobody.
    { intros P HO HS [k Hk]. destruct (decide (k = waiter)) as [->|Hne]; [congruence|].
      rewrite (Hout k Hne) in Hk. congruence. }
    assert (token s = false) as Htok.
    { destruct (token s) eqn:Ht; [|reflexivity]. exfalso. by apply (Hnobody looks eq_refl eq_refl), (in_cover _ HI waiter). }
    split; [assumption|]. destruct (answered s) eqn:Ha; [|reflexivity].
    destruct (in_answered _ HR Ha) as [_ [|Hs]]; [congruence|]. by destruct (Hnobody on_way eq_refl eq_refl).
  - apply (in_tokens _ HI).
  - intros Hl. apply (in_raised _ HR). by left.
  - intros i. by apply someone_moves.
Qed.
End parker.

(** A witness: thread 0 registered and is asleep; thread 1, which knows of the
    registration, has found the flag up. *)
Definition handing : state :=
  let ready := goto 0 Out (register (Some 1%nat) false (set_parked (put 0 true flag_new) (goto 0 PrepStore new))) in
  let asleep := goto 0 ParkSleep (release 0 (goto 0 ParkTest (acquire 0 (goto 0 ParkLock ready)))) in
  let told := set_parked (saw 1 1 (parked asleep)) asleep in
  let calling := goto 1 WakeLoad told in
  goto 1 WakeStore (register (Some 1%nat) true (set_parked (saw 1 1 (parked calling)) calling)).

Lemma handing_reachable : reachable 0 handing.
Proof.
  eapply rtc_l; [by apply (step_call _ _ 0 PrepStore)|].
  eapply rtc_l; [by apply (step_prep _ _ 0)|].
  eapply rtc_l; [by apply (step_call _ _ 0 ParkLock)|].
  eapply rtc_l; [by apply (step_lock _ _ 0)|].
  eapply rtc_l; [by apply (step_wait _ _ 0)|].
  eapply rtc_l; [apply (step_learn _ _ 1 1); [reflexivity|by apply Nat.ltb_lt]|].
  eapply rtc_l; [by apply (step_call _ _ 1 WakeLoad)|].
  eapply rtc_l; [apply (step_load _ _ 1 1 true); [reflexivity|split; [by apply Nat.leb_le|reflexivity]]|]. reflexivity.
Qed.

Lemma loom_parker_no_lost_wakeup_witness :
  at_pc handing 0 = ParkSleep ∧ token handing = false ∧ some on_way handing ∧ ∃ k, moves 0 k handing.
Proof.
  split; [reflexivity|]. split; [reflexivity|].
  destruct (loom_parker_no_lost_wakeup 0 handing handing_reachable)
    as (_ & _ & [_ Hans] & _ & _ & Hmove).
  destruct (Hans eq_refl) as [_ [Htok|Hon]]; [discriminate Htok|].
  split; [exact Hon|]. apply (Hmove 1%nat); discriminate.
Defined.
End LoomParker.

(** ** [WaiterList] *)

Module LoomWaiters.
Import RelaxedFlag.
Section waiters.
Context `{Target}.

(** [g0] is the epoch a waiter read when it came. *)
Inductive pc :=
  | Out
  | PrepStore
  | ParkLock | ParkRead | ParkTest (g0 : Z) | ParkLoad (g0 : Z) | ParkWait (g0 : Z)
  | ParkSleep (g0 : Z) | ParkRelock (g0 : Z) | ParkUnlock
  | WakeSwap | WakeLock | WakeAdd | WakeNotify.

Record state := State {
  waiting : flag;
  epoch : Z;
  owner : option tid;
  at_pc : tid → pc;
}.

Definition new : state := State flag_new 0 None (λ _, Out).

Definition goto (i : tid) (p : pc) (s : state) : state :=
  State (waiting s) (epoch s) (owner s) (<[i := p]> (at_pc s)).
Definition set_waiting (f : flag) (s : state) : state :=
  State f (epoch s) (owner s) (at_pc s).
Definition set_epoch (e : Z) (s : state) : state :=
  State (waiting s) e (owner s) (at_pc s).
Definition set_owner (o : option tid) (s : state) : state :=
  State (waiting s) (epoch s) o (at_pc s).
(** The mutex is taken and given back with what its owner knows of the flag. *)
Definition acquire (i : tid) (s : state) : state :=
  set_owner (Some i) (set_waiting (locked i (waiting s)) s).
Definition release (i : tid) (s : state) : state :=
  set_owner None (set_waiting (unlocked i (waiting s)) s).
(** The flag's last store. *)
Definition up (s : state) : bool := latest (waiting s).
(** [cv.notify_all()]. *)
Definition notify_all (s : state) : state :=
  State (waiting s) (epoch s) (owner s)
    (λ j, match at_pc s j with ParkSleep g0 => ParkRelock g0 | p => p end).

Definition entry (p : pc) : bool :=
  match p with PrepStore | ParkLock | WakeSwap => true | _ => false end.

Inductive step (s : state) : state → Prop :=
  | step_call i p : at_pc s i = Out → entry p = true → step s (goto i p s)
  (** Between calls. *)
  | step_learn i k : at_pc s i = Out → (k < length (stores (waiting s)))%nat →
      step s (set_waiting (saw i k (waiting s)) s)
  (** [prepare_wait] *)
  | step_prep i : at_pc s i = PrepStore → step s (goto i Out (set_waiting (put i true (waiting s)) s))
  (** [park]: lock; [g0 = *g]; [while *g == g0 && waiting.load() { g = cv.wait(g) }] *)
  | step_lock i : at_pc s i = ParkLock → owner s = None → step s (goto i ParkRead (acquire i s))
  | step_read i : at_pc s i = ParkRead → step s (goto i (ParkTest (epoch s)) s)
  | step_test i g0 : at_pc s i = ParkTest g0 →
      step s (goto i (if epoch s =? g0 then ParkLoad g0 else ParkUnlock) s)
  | step_load i g0 k b : at_pc s i = ParkLoad g0 → reads i k b (waiting s) →
      step s (goto i (if b then ParkWait g0 else ParkUnlock) (set_waiting (saw i k (waiting s)) s))
  | step_wait i g0 : at_pc s i = ParkWait g0 → step s (goto i (ParkSleep g0) (release i s))
  | step_spurious i g0 : at_pc s i = ParkSleep g0 → step s (goto i (ParkRelock g0) s)
  | step_relock i g0 : at_pc s i = ParkRelock g0 → owner s = None →
      step s (goto i (ParkTest g0) (acquire i s))
  | step_unlock i : at_pc s i = ParkUnlock → step s (goto i Out (release i s))
  (** [wake_all]: swap; [*epoch.lock() += 1]; [cv.notify_all()] *)
  | step_swap i : at_pc s i = WakeSwap →
      step s (goto i (if up s then WakeLock else Out) (set_waiting (put i false (waiting s)) s))
  | step_wlock i : at_pc s i = WakeLock → owner s = None → step s (goto i WakeAdd (acquire i s))
  | step_add i e : at_pc s i = WakeAdd → usize_add (epoch s) 1 = Some e →
      step s (goto i WakeNotify (release i (set_epoch e s)))
  | step_notify i : at_pc s i = WakeNotify → step s (notify_all (goto i Out s)).

Definition reachable (s : state) : Prop := rtc step new s.

Definition holds (p : pc) : bool :=
  match p with
  | ParkRead | ParkTest _ | ParkLoad _ | ParkWait _ | ParkUnlock | WakeAdd => true
  | _ => false
  end.
(** In the middle of a [wake_all] that found the flag up. *)
Definition waking (p : pc) : bool :=
  match p with WakeLock | WakeAdd | WakeNotify => true | _ => false end.
Definition somewhere (P : pc → bool) (s : state) : Prop := ∃ k, P (at_pc s k) = true.
Definition is_lock (p : pc) : bool := match p with WakeLock => true | _ => false end.
Definition is_notify (p : pc) : bool := match p with WakeNotify => true | _ => false end.

(** What each waiter can rely on. *)
Definition pc_ok (s : state) (p : pc) : Prop :=
  match p with
  | ParkLoad g0 => epoch s = g0
  | ParkWait g0 => epoch s = g0 ∧ (up s = true ∨ somewhere is_lock s)
  | ParkSleep g0 => (epoch s = g0 ∨ somewhere is_notify s) ∧
                    (up s = true ∨ somewhere waking s)
  | _ => True
  end.

(** About to pass on through the mutex that it lowered the flag. *)
Definition tells (p : pc) : bool := match p with WakeLock | WakeAdd => true | _ => false end.

Record inv (s : state) : Prop := {
  in_owner i : owner s = Some i ↔ holds (at_pc s i) = true;
  in_pc i : pc_ok s (at_pc s i);
  in_flag : flag_ok (waiting s);
  in_known i : holds (at_pc s i) = true → (carried (waiting s) ≤ seen (waiting s) i)%nat;
  in_lowered q : stores (waiting s) !! q = Some true → stores (waiting s) !! S q = Some false →
    (S q ≤ carried (waiting s))%nat ∨
    ∃ k, tells (at_pc s k) = true ∧ (S q ≤ seen (waiting s) k)%nat;
}.

Lemma list_pc_goto i p s j : at_pc (goto i p s) j = if decide (i = j) then p else at_pc s j.
Proof.
  simpl. case_decide; [subst; by rewrite fn_lookup_insert|by rewrite fn_lookup_insert_ne].
Qed.

Lemma somewhere_goto P i p s :
  somewhere P s → P p = true ∨ P (at_pc s i) = false → somewhere P (goto i p s).
Proof.
  intros [k Hk] [Hp|Hp]; [exists i; by rewrite list_pc_goto, decide_True|].
  exists k. rewrite list_pc_goto, decide_False; [done|]. intros ->. congruence.
Qed.

Lemma somewhere_here P i p s : P p = true → somewhere P (goto i p s).
Proof. intros Hp. exists i. by rewrite list_pc_goto, decide_True. Qed.

Lemma list_new_inv : inv new.
Proof.
  split; simpl; try apply new_flag_ok; naive_solver lia.
Qed.

(** What another thread relies on survives a move that keeps the epoch. *)
Lemma others i p f s q :
  (up s = true → latest f = true ∨ p = WakeLock) →
  is_lock p = true ∨ is_lock (at_pc s i) = false →
  is_notify p = true ∨ is_notify (at_pc s i) = false →
  waking p = true ∨ waking (at_pc s i) = false →
  pc_ok s q → pc_ok (goto i p (set_waiting f s)) q.
Proof.
  intros Hb Hl Hn Hw. assert (∀ P, somewhere P s → P p = true ∨ P (at_pc s i) = false →
    somewhere P (goto i p (set_waiting f s))) as Hs by (intros P; apply somewhere_goto).
  destruct q; simpl; try done.
  - intros [-> [[?|Hp]%Hb|?]]; (split; [done|]); [by left|right|right; auto].
    apply (somewhere_here is_lock). by rewrite Hp.
  - intros [He Hq]. split; [destruct He; auto|]. destruct Hq as [[?|Hp]%Hb|?]; [by left|right|auto].
    apply (somewhere_here waking). by rewrite Hp.
Qed.

Lemma step_owner s s' :
  (∀ i, owner s = Some i ↔ holds (at_pc s i) = true) → step s s' →
  ∀ i, owner s' = Some i ↔ holds (at_pc s' i) = true.
Proof.
  intros Ho Hst.
  assert (∀ i p f, holds p = holds (at_pc s i) →
    ∀ j, owner s = Some j ↔ holds (at_pc (goto i p (set_waiting f s)) j) = true) as Hkeep.
  { intros i p f Hp j. rewrite list_pc_goto. case_decide; subst; [by rewrite Hp|done]. }
  assert (∀ i p, owner s = None → holds p = true →
    ∀ j, Some i = Some j ↔ holds (at_pc (goto i p s) j) = true) as Htake.
  { intros i p Hn Hp j. rewrite list_pc_goto. case_decide; [by subst|].
    rewrite <-Ho, Hn. split; [by intros [= ->]|done]. }
  assert (∀ i p, holds (at_pc s i) = true → holds p = false →
    ∀ j, None = Some j ↔ holds (at_pc (goto i p s) j) = true) as Hdrop.
  { intros i p Hi Hp j. rewrite list_pc_goto. split; [done|]. apply Ho in Hi.
    case_decide as Hj; [subst; by rewrite Hp|]. rewrite <-Ho, Hi. by intros [= ->]. }
  destruct Hst as [i p Hi Hp|i k Hi Hk|i Hi|i Hi Hn|i Hi|i g0 Hi|i g0 k b Hi Hk|i g0 Hi|i g0 Hi|i g0 Hi Hn|i Hi
    |i Hi|i Hi Hn|i e Hi He|i Hi].
  - apply (Hkeep i p (waiting s)). rewrite Hi. by destruct p.
  - done.
  - apply (Hkeep i Out). by rewrite Hi.
  - by apply (Htake i ParkRead).
  - apply (Hkeep i _ (waiting s)). by rewrite Hi.
  - apply (Hkeep i _ (waiting s)). rewrite Hi. by case_match.
  - apply Hkeep. rewrite Hi. by destruct b.
  - apply (Hdrop i (ParkSleep g0)); [by rewrite Hi|done].
  - apply (Hkeep i _ (waiting s)). by rewrite Hi.
  - by apply (Htake i (ParkTest g0)).
  - apply (Hdrop i Out); [by rewrite Hi|done].
  - apply Hkeep. rewrite Hi. by case_match.
  - by apply (Htake i WakeAdd).
  - apply (Hdrop i WakeNotify); [by rewrite Hi|done].
  - intros j. etrans; [apply (Hkeep i Out (waiting s)); by rewrite Hi|].
    change (at_pc (goto i Out (set_waiting (waiting s) s)) j) with (at_pc (goto i Out s) j).
    cbn [notify_all at_pc]. by destruct (at_pc (goto i Out s) j).
Qed.

(** While nobody owns the mutex, or another thread does, [i] is not in the
    critical section. *)
Lemma not_holding s i : inv s → owner s ≠ Some i → holds (at_pc s i) = false.
Proof.
  intros HI Hne. destruct (holds (at_pc s i)) eqn:Hh; [|done]. by apply (in_owner _ HI) in Hh.
Qed.

(** Who loads [true] in the critical section sleeps in time for the next wake. *)
Lemma load_true s i k :
  inv s → holds (at_pc s i) = true → tells (at_pc s i) = false → reads i k true (waiting s) →
  up s = true ∨ somewhere is_lock s.
Proof.
  intros HI Hi Ht [Hle Hk]. destruct (up s) eqn:Hup; [by left|right].
  destruct (lowered_between _ _ Hk Hup) as (q & Hq & H1 & H2).
  pose proof (in_known _ HI i Hi). destruct (in_lowered _ HI q H1 H2) as [|(j & Hj & _)]; [lia|].
  exists j. destruct (at_pc s j) eqn:Hpj; try done. exfalso.
  apply (in_owner _ HI) in Hi. assert (owner s = Some j) as Ho by (apply (in_owner _ HI); by rewrite Hpj).
  assert (i = j) as -> by congruence. by rewrite Hpj in Ht.
Qed.

Lemma step_pc s s' : inv s → step s s' → ∀ i, pc_ok s' (at_pc s' i).
Proof.
  intros HI Hst j. pose proof HI as [Ho Hc _ _ _].
  assert (∀ i p f, pc_ok (goto i p (set_waiting f s)) p →
    (up s = true → latest f = true ∨ p = WakeLock) →
    is_lock p = true ∨ is_lock (at_pc s i) = false →
    is_notify p = true ∨ is_notify (at_pc s i) = false →
    waking p = true ∨ waking (at_pc s i) = false →
    pc_ok (goto i p (set_waiting f s)) (at_pc (goto i p (set_waiting f s)) j)) as Hmove.
  { intros i p f Hp Hb Hl Hn Hw. rewrite list_pc_goto. case_decide; [done|]. apply others; [done..|apply (Hc j)]. }
  assert (∀ i p f, stores f = stores (waiting s) → pc_ok (goto i p (set_waiting f s)) p →
    is_lock p = true ∨ is_lock (at_pc s i) = false →
    is_notify p = true ∨ is_notify (at_pc s i) = false →
    waking p = true ∨ waking (at_pc s i) = false →
    pc_ok (goto i p (set_waiting f s)) (at_pc (goto i p (set_waiting f s)) j)) as Hquiet.
  { intros i p f Hf Hp. apply Hmove; [done|]. unfold up, latest. rewrite Hf. by left. }
  destruct Hst as [i p Hi Hp|i k Hi Hk|i Hi|i Hi Hn|i Hi|i g0 Hi|i g0 k b Hi Hk|i g0 Hi|i g0 Hi|i g0 Hi Hn|i Hi
    |i Hi|i Hi Hn|i e Hi He|i Hi].
  - apply (Hquiet i p (waiting s)); rewrite ?Hi; auto. by destruct p.
  - specialize (Hc j). simpl. by destruct (at_pc s j).
  - apply Hmove; rewrite ?Hi; simpl; auto. rewrite latest_put. auto.
  - apply (Hquiet i ParkRead (locked i (waiting s))); rewrite ?Hi; simpl; auto.
  - apply (Hquiet i (ParkTest (epoch s)) (waiting s)); rewrite ?Hi; simpl; auto.
  - apply (Hquiet i (if epoch s =? g0 then ParkLoad g0 else ParkUnlock) (waiting s)); rewrite ?Hi; simpl; auto.
    by destruct (Z.eqb_spec (epoch s) g0).
  - pose proof (Hc i) as Hpc. rewrite Hi in Hpc.
    apply Hquiet; rewrite ?Hi; simpl; auto. destruct b; simpl; [|done]. split; [done|].
    destruct (load_true s i k HI) as [|Hs]; [by rewrite Hi..|done|by left|right].
    apply (somewhere_goto is_lock i (ParkWait g0) (set_waiting (saw i k (waiting s)) s)); [done|].
    right. simpl. by rewrite Hi.
  - pose proof (Hc i) as Hpc. rewrite Hi in Hpc. destruct Hpc as [He Hw].
    apply (Hquiet i (ParkSleep g0) (unlocked i (waiting s))); rewrite ?Hi; simpl; auto. split; [by left|].
    destruct Hw as [?|[k Hk]]; [by left|right]. exists k. rewrite list_pc_goto.
    case_decide; [subst; by rewrite Hi in Hk|]. simpl. by destruct (at_pc s k).
  - apply (Hquiet i (ParkRelock g0) (waiting s)); rewrite ?Hi; simpl; auto.
  - apply (Hquiet i (ParkTest g0) (locked i (waiting s))); rewrite ?Hi; simpl; auto.
  - apply (Hquiet i Out (unlocked i (waiting s))); rewrite ?Hi; simpl; auto.
  - apply Hmove; rewrite ?Hi; simpl; auto.
    + by destruct (up s).
    + intros ->. by right.
  - (* the mutex is taken by a wake *)
    rewrite list_pc_goto. case_decide as Hij; [done|].
    assert (holds (at_pc s j) = false) as Hj by (apply not_holding; [done|congruence]).
    match goal with |- pc_ok ?st _ => change (pc_ok st (at_pc s j)) end.
    specialize (Hc j). destruct (at_pc s j); try done. destruct Hc as [He Hw].
    split.
    + destruct He; [by left|right]. apply (somewhere_goto _ i WakeAdd s); [done|right; by rewrite Hi].
    + destruct Hw; [by left|right]. apply (somewhere_here waking i WakeAdd s). done.
  - (* the epoch advances *)
    rewrite list_pc_goto. case_decide as Hij; [done|].
    assert (owner s = Some i) as Hown by (apply Ho; by rewrite Hi).
    assert (holds (at_pc s j) = false) as Hj by (apply not_holding; [done|congruence]).
    match goal with |- pc_ok ?st _ => change (pc_ok st (at_pc s j)) end.
    destruct (at_pc s j); try done. split; right.
    + by apply (somewhere_here is_notify i WakeNotify (set_epoch e s)).
    + by apply (somewhere_here waking i WakeNotify (set_epoch e s)).
  - (* everybody is notified *)
    assert (pc_ok (goto i Out s) (at_pc (goto i Out s) j) ∨ ∃ g, at_pc (goto i Out s) j = ParkSleep g) as Hg.
    { rewrite list_pc_goto. case_decide; [by left|].
      specialize (Hc j). destruct (at_pc s j) eqn:Hj; try (by left); [|by right; eexists].
      left. destruct Hc as [He Hw]. split; [done|]. destruct Hw as [|Hw]; [by left|right].
      apply (somewhere_goto _ i Out s); [done|right; by rewrite Hi]. }
    cbn [notify_all at_pc]. destruct Hg as [Hg|[g ->]]; [|done].
    destruct (at_pc (goto i Out s) j); try done.
    destruct Hg as [He [|[k Hk]]]; (split; [done|]); [by left|right].
    exists k. cbn [notify_all at_pc]. by destruct (at_pc (goto i Out s) k).
Qed.

(** *** The flag *)

(** Nothing is forgotten from [f] to [f']. *)
Record grows (f f' : flag) : Prop := {
  gr_stores : stores f' = stores f;
  gr_carried : (carried f ≤ carried f')%nat;
  gr_seen j : (seen f j ≤ seen f' j)%nat;
}.

Lemma grows_refl f : grows f f.
Proof. done. Qed.
Lemma grows_saw i k f : grows f (saw i k f).
Proof. split; [done..|]. intros j. rewrite seen_saw. case_decide; subst; lia. Qed.
Lemma grows_unlocked i f : grows f (unlocked i f).
Proof. split; simpl; [done|lia|done]. Qed.
Local Hint Resolve grows_refl grows_saw grows_unlocked : core.

Definition flag_inv (s : state) : Prop :=
  flag_ok (waiting s) ∧
  (∀ i, holds (at_pc s i) = true → (carried (waiting s) ≤ seen (waiting s) i)%nat) ∧
  ∀ q, stores (waiting s) !! q = Some true → stores (waiting s) !! S q = Some false →
    (S q ≤ carried (waiting s))%nat ∨
    ∃ k, tells (at_pc s k) = true ∧ (S q ≤ seen (waiting s) k)%nat.

Lemma grow_flag i p f s :
  flag_inv s → flag_ok f → grows (waiting s) f →
  (∀ j, holds (at_pc (goto i p s) j) = true → (carried f ≤ seen f j)%nat) →
  tells p = true ∨ tells (at_pc s i) = false ∨ (seen (waiting s) i ≤ carried f)%nat →
  flag_inv (goto i p (set_waiting f s)).
Proof.
  intros (Hok & Hkn & Hlow) Hf [Hst Hc Hs] Hkn' Ht. split; [done|]. split; [exact Hkn'|].
  intros q. simpl. rewrite Hst. intros H1 H2. destruct (Hlow q H1 H2) as [|(k & Hk & Hq)]; [left; lia|].
  pose proof (Hs k). destruct (decide (i = k)) as [->|Hne].
  - destruct Ht as [Ht|[Ht|Ht]]; [|congruence|left; lia]. right. exists k.
    rewrite fn_lookup_insert. split; [done|lia].
  - right. exists k. rewrite fn_lookup_insert_ne by done. split; [done|lia].
Qed.

(** The thread moves, and may have looked at the flag. *)
Lemma look_flag i p f s :
  flag_inv s → f = waiting s ∨ (∃ k, (k < length (stores (waiting s)))%nat ∧ f = saw i k (waiting s)) →
  holds p = holds (at_pc s i) → tells p = true ∨ tells (at_pc s i) = false →
  flag_inv (goto i p (set_waiting f s)).
Proof.
  intros HI Hf Hp Ht. pose proof HI as (Hok & Hkn & _).
  assert (flag_ok f ∧ grows (waiting s) f ∧ carried f = carried (waiting s)) as (Hf1 & Hf2 & Hf3).
  { destruct Hf as [->|(k & Hk & ->)]; [done|]. split_and!; [by apply saw_ok|auto|done]. }
  apply grow_flag; [done..| |tauto]. intros j Hj. rewrite Hf3.
  etrans; [apply Hkn|apply Hf2]. rewrite list_pc_goto in Hj. case_decide; [subst; congruence|done].
Qed.

Lemma lock_flag i p s :
  flag_inv s → (∀ j, holds (at_pc s j) = false) → tells p = true ∨ tells (at_pc s i) = false →
  flag_inv (goto i p (acquire i s)).
Proof.
  intros HI Hno Ht. pose proof HI as (Hok & Hkn & _).
  apply (grow_flag i p (locked i (waiting s)) s); [done|by apply locked_ok|apply grows_saw| |tauto].
  intros j. rewrite list_pc_goto. unfold locked. rewrite seen_saw. case_decide; [simpl; lia|].
  by rewrite Hno.
Qed.

Lemma unlock_flag i p e s :
  flag_inv s → (∀ j, j ≠ i → holds (at_pc s j) = false) → holds p = false →
  flag_inv (goto i p (release i (set_epoch e s))).
Proof.
  intros HI Hno Hp. pose proof HI as (Hok & Hkn & _).
  apply (grow_flag i p (unlocked i (waiting s)) s); [done|by apply unlocked_ok|apply grows_unlocked| |].
  - intros j. rewrite list_pc_goto. case_decide; [congruence|]. by rewrite Hno.
  - right. right. simpl. lia.
Qed.

Lemma put_flag i p b s :
  flag_inv s → holds p = false → holds (at_pc s i) = false → tells p = true ∨ tells (at_pc s i) = false →
  b = true ∨ (up s = true → p = WakeLock) →
  flag_inv (goto i p (set_waiting (put i b (waiting s)) s)).
Proof.
  intros (Hok & Hkn & Hlow) Hp Hi Ht Hb. set (f := put i b (waiting s)).
  assert (∀ j, (seen (waiting s) j ≤ seen f j)%nat) as Hseen.
  { intros j. unfold f. rewrite seen_put. pose proof (fo_seen _ Hok j). case_decide; lia. }
  split; [by apply put_ok|]. split.
  - intros j. rewrite list_pc_goto. case_decide; [congruence|]. intros Hj. etrans; [by apply Hkn|apply Hseen].
  - intros q. simpl. intros H1 H2. pose proof (lookup_lt_Some _ _ _ H2) as Hl. rewrite length_app in Hl. simpl in Hl.
    rewrite lookup_app_l in H1 by lia.
    destruct (decide (S q < length (stores (waiting s)))%nat) as [Hin|Hlast].
    + rewrite lookup_app_l in H2 by done. destruct (Hlow q H1 H2) as [|(k & Hk & Hq)]; [by left|right].
      pose proof (Hseen k) as Hsk. unfold f in Hsk. simpl in Hsk.
      destruct (decide (i = k)) as [->|Hne].
      * destruct Ht as [Ht|]; [|congruence]. exists k. rewrite fn_lookup_insert. split; [done|lia].
      * exists k. rewrite fn_lookup_insert_ne by done. split; [done|lia].
    + assert (S q = length (stores (waiting s))) as Heq by lia. rewrite Heq in H2.
      rewrite list_lookup_middle in H2 by done. injection H2 as ->.
      rewrite (latest_lookup _ q) in H1 by lia. injection H1 as Hup.
      destruct Hb as [|Hb]; [done|]. right. exists i. rewrite !fn_lookup_insert, (Hb Hup). split; [done|lia].
Qed.

Lemma step_flag s s' : inv s → step s s' → flag_inv s'.
Proof.
  intros HI Hst. assert (flag_inv s) as HF by (split_and!; apply HI).
  assert (owner s = None → ∀ j, holds (at_pc s j) = false) as Hfree
    by (intros Hn j; apply not_holding; congruence).
  assert (∀ i, holds (at_pc s i) = true → ∀ j, j ≠ i → holds (at_pc s j) = false) as Hmine.
  { intros i Hi%(in_owner _ HI) j Hne. apply not_holding; congruence. }
  destruct Hst as [i p Hi Hp|i k Hi Hk|i Hi|i Hi Hn|i Hi|i g0 Hi|i g0 k b Hi Hk|i g0 Hi|i g0 Hi|i g0 Hi Hn|i Hi
    |i Hi|i Hi Hn|i e Hi He|i Hi].
  - apply (look_flag i p (waiting s)); rewrite ?Hi; auto. by destruct p.
  - destruct HF as (Hok & Hkn & Hlow). split; [by apply saw_ok|]. split; simpl.
    + intros j Hj. etrans; [by apply Hkn|apply grows_saw].
    + intros q H1 H2. destruct (Hlow q H1 H2) as [|(l & Hl & Hq)]; [by left|right].
      exists l. split; [done|]. etrans; [exact Hq|apply grows_saw].
  - apply put_flag; rewrite ?Hi; auto.
  - apply lock_flag; rewrite ?Hi; auto.
  - apply (look_flag i _ (waiting s)); rewrite ?Hi; auto.
  - apply (look_flag i _ (waiting s)); rewrite ?Hi; auto. by case_match.
  - apply look_flag; rewrite ?Hi; auto; [|by destruct b]. right. exists k. split; [by eapply reads_known|done].
  - apply (unlock_flag i _ (epoch s) s); [done|apply Hmine; by rewrite Hi|done].
  - apply (look_flag i _ (waiting s)); rewrite ?Hi; auto.
  - apply lock_flag; rewrite ?Hi; auto.
  - apply (unlock_flag i _ (epoch s) s); [done|apply Hmine; by rewrite Hi|done].
  - apply put_flag; rewrite ?Hi; auto; [by destruct (up s)..|]. right. by intros ->.
  - apply lock_flag; rewrite ?Hi; auto.
  - apply unlock_flag; [done|apply Hmine; by rewrite Hi|done].
  - destruct (look_flag i Out (waiting s) s) as (Hok & Hkn & Hlow); rewrite ?Hi; auto.
    split; [done|]. cbn [notify_all waiting at_pc] in *. split.
    + intros j Hj. apply Hkn. cbn [goto set_waiting at_pc] in *. by destruct (<[i:=Out]> (at_pc s) j).
    + intros q H1 H2. destruct (Hlow q H1 H2) as [|(k & Hk & Hq)]; [by left|right]. exists k.
      split; [|done]. cbn [goto set_waiting at_pc] in *. by destruct (<[i:=Out]> (at_pc s) k).
Qed.

Lemma list_reachable_inv s : reachable s → inv s.
Proof.
  unfold reachable. generalize list_new_inv. generalize new. intros s0 H0 Hr.
  induction Hr as [|s0 s1 s2 Hst _ IH]; [done|]. apply IH.
  destruct (step_flag _ _ H0 Hst) as (? & ? & ?).
  split; [by eapply step_owner; [apply H0|]|by apply (step_pc s0)|done..].
Qed.

(** C28. The model checker's [WaiterList] forgets no sender, under any
    interleaving of any number of senders and wakers, with spurious returns of
    the condition variable and with every stale value of the flag that coherence
    allows a sender to load: the mutex is exclusive; a thread asleep while
    no [wake_all] that found the flag up is in progress has the flag up and the
    epoch it came with, so that the next [wake_all] finds the flag up too; and
    the notification of a [wake_all] leaves nobody asleep. *)
Theorem loom_waiters_no_lost_wakeup s :
  reachable s →
  (∀ i j, holds (at_pc s i) = true → holds (at_pc s j) = true → i = j) ∧
  (∀ i g0, at_pc s i = ParkSleep g0 → (∀ k, waking (at_pc s k) = false) →
     up s = true ∧ epoch s = g0 ∧
     ∀ k, at_pc s k = WakeSwap →
       step s (goto k WakeLock (set_waiting (put k false (waiting s)) s))) ∧
  (∀ k, at_pc s k = WakeNotify →
     step s (notify_all (goto k Out s)) ∧
     ∀ i g0, at_pc (notify_all (goto k Out s)) i ≠ ParkSleep g0).
Proof.
  intros HI%list_reachable_inv. split_and!.
  - intros i j Hi%(in_owner _ HI) Hj%(in_owner _ HI). congruence.
  - intros i g0 Hi Hk. pose proof (in_pc _ HI i) as Hp. rewrite Hi in Hp. destruct Hp as [He Hw].
    assert (up s = true) as Hwait.
    { destruct Hw as [|[k Hw]]; [done|]. by rewrite Hk in Hw. }
    split; [done|]. split.
    + destruct He as [|[k He]]; [done|]. specialize (Hk k). by destruct (at_pc s k).
    + intros k Hsw. pose proof (step_swap s k Hsw) as Hst. by rewrite Hwait in Hst.
  - intros k Hk. split; [by apply step_notify|]. intros i g0. cbn [notify_all at_pc].
    by destruct (at_pc (goto k Out s) i).
Qed.
End waiters.

(** A witness: thread 0 registered and is asleep, thread 1 is about to swap the
    flag. *)
Definition enlisted : state :=
  let registered := goto 0 Out (set_waiting (put 0 true flag_new) (goto 0 PrepStore new)) in
  let reading := goto 0 ParkRead (acquire 0 (goto 0 ParkLock registered)) in
  let loading := goto 0 (ParkLoad 0) (goto 0 (ParkTest 0) reading) in
  let sure := goto 0 (ParkWait 0) (set_waiting (saw 0 1 (waiting loading)) loading) in
  goto 1 WakeSwap (goto 0 (ParkSleep 0) (release 0 sure)).

Lemma enlisted_reachable : reachable enlisted.
Proof.
  eapply rtc_l; [by apply (step_call _ 0 PrepStore)|].
  eapply rtc_l; [by apply (step_prep _ 0)|].
  eapply rtc_l; [by apply (step_call _ 0 ParkLock)|].
  eapply rtc_l; [by apply (step_lock _ 0)|].
  eapply rtc_l; [by apply (step_read _ 0)|].
  eapply rtc_l; [by apply (step_test _ 0 0)|].
  eapply rtc_l; [apply (step_load _ 0 0 1 true); [done|split; [by apply Nat.leb_le|done]]|].
  eapply rtc_l; [by apply (step_wait _ 0 0)|].
  eapply rtc_l; [by apply (step_call _ 1 WakeSwap)|]. done.
Qed.

Lemma loom_waiters_no_lost_wakeup_witness :
  at_pc enlisted 0 = ParkSleep 0 ∧ up enlisted = true ∧
  step enlisted (goto 1 WakeLock (set_waiting (put 1 false (waiting enlisted)) enlisted)).
Proof.
  split; [reflexivity|].
  destruct (loom_waiters_no_lost_wakeup enlisted enlisted_reachable) as (_ & Hsleep & _).
  destruct (Hsleep 0%nat 0) as (Hw & _ & Hswap); [reflexivity| |].
  - intros [|[|k]]; reflexivity.
  - split; [exact Hw|]. by apply Hswap.
Defined.
End LoomWaiters.
