(* ===== verification/WaitProps.v ===== *)
(** The idle ladder: which rung every step is, and the bounds of its parks. *)
From S2P Require Import Prelude Usize Atomic Wait Seq.
Local Open Scope Z_scope.

(** [n] consecutive calls of [idle]. *)
Fixpoint idle_times {T} (n : nat) (self : Idle) : prog T Idle :=
  match n with
  | O => mret self
  | S n => self ← idle self; idle_times n self
  end.

(** What the [n]-th call does, counting from zero: spin, then yield, then park
    for an interval that doubles from [PARK_MIN] up to [PARK_MAX]. *)
Definition park_interval (k : Z) : Z := Z.min (PARK_MIN * 2 ^ k) PARK_MAX.
Definition rung (yield_only : bool) (n : nat) : hint :=
  if Z.of_nat n <? SPINS then SpinLoop
  else if yield_only || (Z.of_nat n <? SPINS + YIELDS) then YieldNow
  else ParkTimeout (park_interval (Z.of_nat n - (SPINS + YIELDS))).

Section ladder.
Context {T : Type} (y : bool).
Implicit Types st : seqst T.

(** The ladder after [n] calls. The counter saturates, long after the last
    change of rung. *)
Record ladder_at (n : nat) (self : Idle) : Prop := {
  la_step : step self = Z.min u32_max (Z.of_nat n);
  la_yield : yield_only self = y;
  la_park : park_for self =
    if y then PARK_MIN else park_interval (Z.max 0 (Z.of_nat n - (SPINS + YIELDS)));
}.

Lemma park_interval_double k :
  0 ≤ k → Z.min (park_interval k * 2) PARK_MAX = park_interval (k + 1).
Proof.
  intros Hk. unfold park_interval. rewrite Z.pow_add_r by lia.
  pose proof (Z.pow_pos_nonneg 2 k ltac:(lia) Hk).
  change PARK_MIN with 64000. change PARK_MAX with 1000000. lia.
Qed.

Lemma idle_run i n self st :
  ladder_at n self →
  ∃ self', run i (idle self) st = Done self' (add_hint (rung y n) st) ∧ ladder_at (S n) self'.
Proof.
  intros [Hs Hy Hp]. unfold idle, rung, SPINS, YIELDS in *. rewrite Hs, Hy.
  assert (Hu : u32_max = 4294967295) by done.
  assert (Hsat : u32_saturating_add (Z.min u32_max (Z.of_nat n)) 1 =
                 Z.min u32_max (Z.of_nat (S n))) by (unfold u32_saturating_add; rewrite Nat2Z.inj_succ; lia).
  destruct (Z.ltb_spec (Z.min u32_max (Z.of_nat n)) 10), (Z.ltb_spec (Z.of_nat n) 10); try lia.
  { eexists. split; [reflexivity|]. split; simpl; [by rewrite Hs|done|].
    rewrite Hp. destruct y; [done|]. f_equal. unfold SPINS, YIELDS. lia. }
  destruct (Z.ltb_spec (Z.min u32_max (Z.of_nat n)) (10 + 20)), (Z.ltb_spec (Z.of_nat n) (10 + 20));
    try lia; destruct y eqn:Ey; simpl orb; cbv iota.
  all: try (eexists; split; [reflexivity|]; split; simpl; rewrite ?Hs, ?Hy, ?Hp, ?Ey; try done;
    f_equal; unfold SPINS, YIELDS; lia).
  rewrite Z.max_r in Hp by (unfold SPINS, YIELDS; lia).
  unfold SPINS, YIELDS in Hp. rewrite Hp.
  assert (Hmul : duration_mul (park_interval (Z.of_nat n - (10 + 20))) 2 =
    Some (park_interval (Z.of_nat n - (10 + 20)) * 2)).
  { unfold duration_mul. rewrite (proj2 (Z.leb_le _ _)); [done|].
    unfold park_interval, duration_max. change PARK_MAX with 1000000. lia. }
  eexists. split.
  - unfold park_timeout. rewrite !run_assoc, run_hint. rewrite run_assoc, (run_arith _ _ _ _ _ Hmul). reflexivity.
  - rewrite park_interval_double by lia. split; simpl; [exact Hsat|by rewrite Ey|].
    rewrite Ey. f_equal. unfold SPINS, YIELDS. lia.
Qed.

Lemma idle_times_run i k : ∀ n self st,
  ladder_at n self →
  ∃ self' st', run i (idle_times k self) st = Done self' st' ∧ ladder_at (n + k) self' ∧
    hints st' = hints st ++ (rung y <$> seq n k).
Proof.
  induction k as [|k IH]; intros n self st Hl.
  { exists self, st. rewrite app_nil_r. by rewrite Nat.add_0_r. }
  destruct (idle_run i n self st Hl) as (self1 & Hrun & Hl1).
  destruct (IH (S n) self1 (add_hint (rung y n) st) Hl1) as (self2 & st2 & Hrun2 & Hl2 & Hh).
  exists self2, st2. cbn [idle_times]. erewrite run_bind_Done by exact Hrun.
  split_and!; [done|by replace (n + S k)%nat with (S n + k)%nat by lia|].
  rewrite Hh. simpl. by rewrite <-app_assoc.
Qed.
End ladder.

Lemma ladder_start strat : ladder_at (bool_decide (strat = BackoffYield)) 0 (for_strategy strat).
Proof.
  split; [done|done|]. simpl. by destruct (bool_decide _).
Qed.

(** ** Waiting in the blocking calls *)

(** The timing hints of [n] failed passes. *)
Definition wait_hints (strat : WaitStrategy) (n : nat) : list hint :=
  match strat with
  | BusySpin => replicate n SpinLoop
  | Backoff | BackoffYield => rung (bool_decide (strat = BackoffYield)) <$> seq 0 n
  | Park => []
  end.

Lemma wait_hints_S strat n :
  strat ≠ Park → wait_hints strat (S n) =
    wait_hints strat n ++ [match strat with BusySpin => SpinLoop
                           | _ => rung (bool_decide (strat = BackoffYield)) n end].
Proof.
  intros Hp. destruct strat; unfold wait_hints; try done.
  - by rewrite <-replicate_S_end.
  - by rewrite seq_S, fmap_app.
  - by rewrite seq_S, fmap_app.
Qed.

(** One failed pass of a self-waking strategy. *)
Lemma wait_pass {T} (i : tid) strat n ladder (st : seqst T) (p : prog T Idle) :
  strat ≠ Park → ladder_at (bool_decide (strat = BackoffYield)) n ladder ∨ strat = BusySpin →
  p = match strat with
      | BusySpin => _ ← spin_loop; mret ladder
      | Backoff | BackoffYield => idle ladder
      | Park => p
      end →
  ∃ ladder' h, run i p st = Done ladder' (add_hint h st) ∧
    (ladder_at (bool_decide (strat = BackoffYield)) (S n) ladder' ∨ strat = BusySpin) ∧
    wait_hints strat (S n) = wait_hints strat n ++ [h].
Proof.
  intros Hp Hl ->. pose proof (wait_hints_S strat n Hp) as Hh. destruct strat; [| | |done].
  - exists ladder, SpinLoop. split_and!; [done|by right|done].
  - destruct Hl as [Hl|]; [|done]. destruct (idle_run _ i n ladder st Hl) as (l' & Hrun & Hl').
    exists l', (rung false n). split_and!; [done|by left|done].
  - destruct Hl as [Hl|]; [|done]. destruct (idle_run _ i n ladder st Hl) as (l' & Hrun & Hl').
    exists l', (rung true n). split_and!; [done|by left|done].
Qed.

(** C24. The idle ladder, for every strategy and any number of calls: it never
    panics (the doubling is capped before it can overflow and the counter
    saturates), its first [SPINS] calls spin, the next [YIELDS] yield, and
    every later call yields again under [BackoffYield] and otherwise parks for
    the interval doubled so far, between 64 µs and 1 ms. *)
Theorem idle_ladder {T} (i : tid) (strat : WaitStrategy) (n : nat) (st : seqst T) :
  ∃ self st', run i (idle_times n (for_strategy strat)) st = Done self st' ∧
    hints st' = hints st ++ (rung (bool_decide (strat = BackoffYield)) <$> seq 0 n) ∧
    (∀ k, 0 ≤ k → PARK_MIN ≤ park_interval k ≤ PARK_MAX) ∧
    PARK_MIN ≤ park_for self ≤ PARK_MAX.
Proof.
  assert (Hint : ∀ k, 0 ≤ k → PARK_MIN ≤ park_interval k ≤ PARK_MAX).
  { intros k Hk. unfold park_interval. pose proof (Z.pow_pos_nonneg 2 k ltac:(lia) Hk).
    change PARK_MIN with 64000. change PARK_MAX with 1000000. lia. }
  destruct (idle_times_run _ i n 0 _ st (ladder_start strat)) as (self & st' & Hrun & Hl & Hh).
  exists self, st'. split_and!; [done..| |]; rewrite (la_park _ _ _ Hl);
    (destruct (bool_decide _); [by vm_compute|apply Hint; lia]).
Qed.
