(* ===== verification/Ring.v ===== *)
(** Index arithmetic of a power-of-two ring: sequence numbers, their slots,
    and the wrapped [usize] counters the code keeps. Shared by both cores. *)
From S2P Require Import Prelude Usize Atomic.
Local Open Scope Z_scope.

(** A capacity with its mask and buffer length, as the constructors build them. *)
Record ring_ok `{Target} (cap mask len : Z) : Prop := {
  ok_pow : ∃ k, 0 ≤ k < usize_bits ∧ cap = 2 ^ k;
  ok_mask : mask = cap - 1;
  ok_len : len = cap;
}.

(** The slot of sequence number [n]. *)
Definition slot_of (cap n : Z) : nat := Z.to_nat (n mod cap).

(** ** Index arithmetic *)

(** A constructor accepts a capacity exactly when it is the size of a ring. *)
Lemma ring_ok_intro `{Target} cap :
  0 < cap → cap ≤ usize_max → is_power_of_two cap = true → ring_ok cap (cap - 1) cap.
Proof.
  intros Hpos Hmax [k [Hk Hcap]]%is_power_of_two_spec. split; [|done..].
  exists k. split; [|done]. split; [done|].
  apply (Z.pow_lt_mono_r_iff 2); [lia| |].
  { pose proof usize_bits_pos. lia. }
  unfold usize_max, usize_modulus in Hmax. lia.
Qed.

Section slots.
Context `{Target} {cap mask len : Z}.
Hypothesis Hok : ring_ok cap mask len.
Implicit Types n a b : Z.

Lemma cap_pos : 0 < cap.
Proof using Hok. destruct Hok as [(k & ? & ->) _ _]. apply pow2_pos. lia. Qed.

Lemma cap_divide : (cap | usize_modulus).
Proof using Hok. destruct Hok as [(k & ? & ->) _ _]. apply pow2_divide. lia. Qed.

Lemma cap_lt_modulus : cap < usize_modulus.
Proof using Hok. destruct Hok as [(k & ? & ->) _ _]. apply Z.pow_lt_mono_r; lia. Qed.

(** Masking the wrapped counter selects the slot of the counter. *)
Lemma land_slot n : Z.land (wrap n) mask = n mod cap.
Proof using Hok.
  pose proof cap_divide as Hd. pose proof cap_pos as Hc.
  destruct Hok as [(k & Hk & Hcap) -> _]. rewrite Hcap in *.
  rewrite land_mask by lia. apply mod_mod_divide; auto using usize_modulus_pos.
Qed.

Lemma index_slot {T} n :
  index (T := T) len (Z.land (wrap n) mask) = mret (slot_of cap n).
Proof using Hok.
  pose proof cap_pos as Hc. unfold index.
  rewrite land_slot, (ok_len _ _ _ Hok).
  pose proof (Z.mod_pos_bound n cap Hc).
  replace ((0 <=? n mod cap) && (n mod cap <? cap)) with true by lia. done.
Qed.

Lemma slot_of_lt n : (slot_of cap n < Z.to_nat cap)%nat.
Proof using Hok.
  pose proof cap_pos as Hc. unfold slot_of. pose proof (Z.mod_pos_bound n cap Hc). lia.
Qed.

(** Sequence numbers less than a capacity apart have distinct slots. *)
Lemma slot_of_inj a b : - cap < a - b < cap → slot_of cap a = slot_of cap b → a = b.
Proof using Hok.
  intros Hw Heq. pose proof cap_pos as Hc. unfold slot_of in Heq.
  pose proof (Z.mod_pos_bound a cap Hc). pose proof (Z.mod_pos_bound b cap Hc).
  apply (mod_inj_window a b cap); lia.
Qed.

Lemma slot_of_add_cap n : slot_of cap (n + cap) = slot_of cap n.
Proof using Hok. unfold slot_of. by rewrite mod_add_1 by apply cap_pos. Qed.

Lemma slot_of_sub_cap n : slot_of cap (n - cap) = slot_of cap n.
Proof using Hok. rewrite <-(slot_of_add_cap (n - cap)). f_equal. lia. Qed.

Lemma slot_of_small n : 0 ≤ n < cap → slot_of cap n = Z.to_nat n.
Proof using Type. intros. unfold slot_of. by rewrite Z.mod_small. Qed.
End slots.

Section counters.
Context `{Target}.
Implicit Types a b : Z.

(** The occupancy computed from wrapped counters is the true one. *)
Lemma wrap_sub_small a b : 0 ≤ a - b < usize_modulus → wrap (wrap a - wrap b) = a - b.
Proof. intros. rewrite wrap_sub. by apply wrap_small. Qed.

Lemma usize_sub_wrap a b :
  0 ≤ b ≤ a → a - b < usize_modulus → (overflow_checks = true → a ≤ usize_max) →
  usize_sub (wrap a) (wrap b) = Some (a - b).
Proof.
  intros Hba Hlt Hck. unfold usize_sub. destruct (overflow_checks) eqn:E.
  - specialize (Hck eq_refl). unfold usize_max in Hck.
    rewrite !wrap_small by (unfold is_usize; lia).
    apply checked_in_range. unfold is_usize. lia.
  - unfold checked. rewrite E. simpl. by rewrite wrap_sub_small by lia.
Qed.

Lemma usize_add_wrap a :
  0 ≤ a → (overflow_checks = true → a < usize_max) →
  usize_add (wrap a) 1 = Some (wrap (a + 1)).
Proof.
  intros Ha Hck. unfold usize_add. destruct (overflow_checks) eqn:E.
  - specialize (Hck eq_refl). unfold usize_max in Hck.
    rewrite !wrap_small by (unfold is_usize; lia).
    apply checked_in_range. unfold is_usize. lia.
  - unfold checked. rewrite E. simpl. by rewrite wrap_add_l.
Qed.

(** Counting the items of a [drain]. *)
Lemma usize_add_count count max :
  0 ≤ count < max → is_usize max → usize_add count 1 = Some (count + 1).
Proof. intros ? [? ?]. apply checked_in_range. unfold is_usize. lia. Qed.
End counters.

#[export] Hint Resolve cap_pos cap_lt_modulus : rings.
