(* ===== verification/Queue.v ===== *)
(** The abstract queue the rings implement: what a bounded [drain] through a
    callback takes from a list of items. Shared by the specifications of all
    three channels. *)
From S2P Require Import Prelude Usize Atomic Errors.
Local Open Scope Z_scope.

Section drain.
Context {T : Type}.

(** Up to [max] items go through the callback in order, stopping after the
    item on which it panics; [count] items have been taken so far. *)
Fixpoint spec_drain_items {S : Type} (max : Z) (f : S → T → S * bool) (env : S)
    (count : Z) (q : list T) : S * exit * list T :=
  match q with
  | [] => (env, Returned count, [])
  | v :: q' =>
      if count <? max then
        let '(env, returned) := f env v in
        if (returned : bool) then spec_drain_items max f env (count + 1) q'
        else (env, Unwound, q')
      else (env, Returned count, q)
  end.

(** What the callback consumed is a prefix, so what is left is a suffix. *)
Lemma spec_drain_items_suffix {S} max (f : S → T → S * bool) env count q :
  (spec_drain_items max f env count q).2 `suffix_of` q.
Proof.
  revert env count. induction q as [|v q IH]; intros env count; simpl; [done|].
  case_bool; [|done]. destruct (f env v) as [env' []]; simpl.
  - by apply suffix_cons_r.
  - by apply suffix_cons_r.
Qed.

Lemma spec_drain_items_count {S} max (f : S → T → S * bool) env count q n :
  (spec_drain_items max f env count q).1.2 = Returned n →
  n = count + Z.of_nat (length q) - Z.of_nat (length (spec_drain_items max f env count q).2)
  ∧ (count ≤ max → n ≤ max).
Proof.
  revert env count. induction q as [|v q IH]; intros env count; simpl.
  { intros [= <-]. lia. }
  case_bool; [|intros [= <-]; simpl; lia].
  destruct (f env v) as [env' []]; simpl; [|done].
  intros [-> Hle]%IH. lia.
Qed.

(** The callback the clients pass to [drain]: it keeps what it is given, and
    panics on the values [cb] rejects. *)
Definition collect (cb : T → bool) (env : list T) (v : T) : list T * bool :=
  (env ++ [v], cb v).

(** How a drain that had counted [count] ended after it gave [l] to the
    callback: the count is right, or the callback panicked. *)
Definition ended (cb : T → bool) (count : Z) (l : list T) (e : exit) : Prop :=
  match e with
  | Returned n => n = count + Z.of_nat (length l)
  | Unwound => ∃ v, v ∈ l ∧ cb v = false
  end.
End drain.

(** What the client sees of a call; [NoHandle] when it no longer owns it. *)
Inductive obs (T : Type) :=
  | ObsSend (r : result unit (TrySendError T))
  | ObsRecv (r : result T TryRecvError)
  | ObsDrain (seen : list T) (e : exit)
  | ObsCloned
  | ObsDropped
  | NoHandle.
Arguments ObsSend {T} r.
Arguments ObsRecv {T} r.
Arguments ObsDrain {T} seen e.
Arguments ObsCloned {T}.
Arguments ObsDropped {T}.
Arguments NoHandle {T}.
