(* ===== verification/SpscSeq.v ===== *)
(** Sequential correctness of the SPSC ring: the abstract bounded queue it
    implements, the representation invariant, and the refinement of every
    operation. *)
From S2P Require Import Prelude Usize Atomic Errors Wait Notify Ring Queue Spsc Seq NotifySeq.
Local Open Scope Z_scope.

(** ** The abstract channel *)

(** Items in the ring, how many were ever popped, whether a handle is gone,
    and how many handles are left. *)
Record Chan (T : Type) := MkChan {
  popped : Z;
  items : list T;
  closed : bool;
  refs : Z;
}.
Arguments MkChan {T}.
Arguments popped {T}.
Arguments items {T}.
Arguments closed {T}.
Arguments refs {T}.

Section spec.
Context {T : Type}.
Implicit Types c : Chan T.

Definition pushed c : Z := popped c + Z.of_nat (length (items c)).

Definition new_chan : Chan T := MkChan 0 [] false 2.

Definition spec_try_send (capacity : Z) c (v : T) : result unit (TrySendError T) * Chan T :=
  if closed c then (Err (SendDisconnected v), c)
  else if Z.of_nat (length (items c)) =? capacity then (Err (Full v), c)
  else (Ok tt, MkChan (popped c) (items c ++ [v]) (closed c) (refs c)).

Definition spec_try_recv c : result T TryRecvError * Chan T :=
  match items c with
  | v :: q => (Ok v, MkChan (popped c + 1) q (closed c) (refs c))
  | [] => (Err (if closed c then RecvDisconnected else Empty), c)
  end.

(** The channel after its items shrank to the suffix [q]. *)
Definition taken c (q : list T) : Chan T :=
  MkChan (pushed c - Z.of_nat (length q)) q (closed c) (refs c).

Definition spec_drain {S : Type} (max : Z) (f : S → T → S * bool) (env : S) c :
    S * exit * Chan T :=
  let '(env, e, q) := spec_drain_items max f env 0 (items c) in
  (env, e, taken c q).

End spec.

(** ** Representation *)

Definition shared_ok `{Target} (sh : Shared) : Prop :=
  ring_ok (cap sh) (mask sh) (buf_len sh).

(** The store holds the channel [c], with the shared head at [published]
    ([drain] publishes it once at its end). *)
Record rep_at `{Target} {T} (sh : Shared) (published : Z) (st : seqst T) (c : Chan T) :
    Prop := {
  rep_popped : 0 ≤ popped c;
  rep_bound : Z.of_nat (length (items c)) ≤ cap sh;
  rep_tail : atoms st !! tail sh = Some (wrap (pushed c));
  rep_head : atoms st !! head sh = Some (wrap published);
  rep_disc : atoms st !! disconnected sh = Some (Z.b2z (closed c));
  rep_strong : atoms st !! strong sh = Some (refs c);
  rep_parked s : ∃ b, atoms st !! Loc (sh_ring sh) (Parked s) = Some (Z.b2z b);
  rep_full j v : items c !! j = Some v →
    cells st !! buf sh (slot_of (cap sh) (popped c + Z.of_nat j)) = Some (Some v);
  rep_free n : pushed c ≤ n < popped c + cap sh →
    cells st !! buf sh (slot_of (cap sh) n) = Some None;
  rep_checked : overflow_checks = true → pushed c ≤ usize_max;
  rep_refs : 0 ≤ refs c ≤ 2;
}.

Definition rep `{Target} {T} (sh : Shared) (st : seqst T) (c : Chan T) : Prop :=
  rep_at sh (popped c) st c.

Definition sender_ok `{Target} {T} (sh : Shared) (s : Sender) (c : Chan T) : Prop :=
  s_shared s = sh ∧ s_tail s = wrap (pushed c) ∧
  ∃ k, cached_head s = wrap k ∧ 0 ≤ k ≤ popped c ∧ pushed c - cap sh ≤ k.

Definition receiver_ok `{Target} {T} (sh : Shared) (r : Receiver) (c : Chan T) : Prop :=
  r_shared r = sh ∧ r_head r = wrap (popped c) ∧
  ∃ k, cached_tail r = wrap k ∧ popped c ≤ k ≤ pushed c.

(** The tail counter can be incremented without an overflow panic. *)
Definition room `{Target} {T} (c : Chan T) : Prop :=
  overflow_checks = true → pushed c < usize_max.

(** ** Refinement of the operations *)

Section refinement.
Context `{Target} {T : Type} (sh : Shared) (Hok : shared_ok sh).
Implicit Types (st : seqst T) (c : Chan T) (i : tid).

Lemma rep_park_frame p st st' c :
  park_frame (sh_ring sh) st st' → rep_at sh p st c → rep_at sh p st' c.
Proof.
  intros Hpf []. split; auto.
  all: try (by rewrite (pf_atoms _ _ _ Hpf) by auto).
  all: try (rewrite (pf_cells _ _ _ Hpf); by auto).
  intros s. eapply (park_frame_flag _ (Parked s)); eauto.
Qed.

Lemma wake_if_park_run i p st c s :
  rep_at sh p st c →
  ∃ st', run i (wake_if_park sh (parker_of (sh_ring sh) s)) st = Done tt st' ∧
         park_frame (sh_ring sh) st st'.
Proof.
  intros Hr. unfold wake_if_park. case_bool_decide; [|by eexists].
  rewrite run_fence. apply wake_run, (rep_parked _ _ _ _ Hr).
Qed.

(** The state after the slot write and the tail store of a push. *)
Lemma rep_push st c v :
  rep sh st c → closed c = false → Z.of_nat (length (items c)) < cap sh → room c →
  rep sh (set_atoms <[tail sh := wrap (pushed c + 1)]>
           (set_cells <[buf sh (slot_of (cap sh) (pushed c)) := Some v]> st))
      (MkChan (popped c) (items c ++ [v]) (closed c) (refs c)).
Proof using Hok.
  intros [] Hopen Hroom Hck.
  assert (pushed (MkChan (popped c) (items c ++ [v]) (closed c) (refs c)) = pushed c + 1)
    as Hpush by (unfold pushed; simpl; rewrite length_app; simpl; lia).
  split; rewrite ?Hpush; simpl; try (by rewrite lookup_insert_ne by loc_ne); auto.
  - rewrite length_app; simpl. lia.
  - by rewrite lookup_insert_eq.
  - intros s. destruct (rep_parked0 s) as [b Hb]. exists b.
    by rewrite lookup_insert_ne by loc_ne.
  - intros j w Hj. apply lookup_snoc_Some in Hj as [[Hlt Hj]|[-> ->]].
    + rewrite lookup_insert_ne; [by apply rep_full0|].
      intros [=Heq]. apply (slot_of_inj Hok) in Heq; unfold pushed in *; lia.
    + rewrite lookup_insert_eq. done.
  - intros n Hn. rewrite lookup_insert_ne; [apply rep_free0; unfold pushed in *; lia|].
    intros [=Heq]. apply (slot_of_inj Hok) in Heq; unfold pushed in *; lia.
  - intros Hc. specialize (Hck Hc). lia.
Qed.
(** The state after the slot read of a pop, before the head is stored. *)
Lemma rep_pop p st c v q :
  rep_at sh p st c → items c = v :: q →
  rep_at sh p (set_cells <[buf sh (slot_of (cap sh) (popped c)) := None]> st)
    (MkChan (popped c + 1) q (closed c) (refs c)).
Proof using Hok.
  intros [] Hq. pose proof (cap_pos Hok).
  assert (pushed (MkChan (popped c + 1) q (closed c) (refs c)) = pushed c)
    as Hpush by (unfold pushed; simpl; rewrite Hq; simpl; lia).
  assert (Z.of_nat (length (items c)) = 1 + Z.of_nat (length q)) as Hlen
    by (rewrite Hq; simpl; lia).
  split; rewrite ?Hpush; simpl; auto; try lia.
  - intros j w Hj. rewrite lookup_insert_ne.
    + replace (popped c + 1 + Z.of_nat j) with (popped c + Z.of_nat (S j)) by lia.
      apply rep_full0. by rewrite Hq.
    + apply lookup_lt_Some in Hj.
      intros [=Heq]. apply (slot_of_inj Hok) in Heq; lia.
  - intros n Hn. destruct (decide (n = popped c + cap sh)) as [->|].
    + by rewrite (slot_of_add_cap Hok), lookup_insert_eq.
    + rewrite lookup_insert_ne; [apply rep_free0; lia|].
      rewrite <-(slot_of_add_cap Hok (popped c)).
      intros [=Heq]. apply (slot_of_inj Hok) in Heq; unfold pushed in *; lia.
Qed.

(** Storing the head publishes the pops. *)
Lemma rep_publish p st c :
  rep_at sh p st c → rep sh (set_atoms <[head sh := wrap (popped c)]> st) c.
Proof.
  intros []. split; simpl; try (by rewrite lookup_insert_ne by loc_ne); auto.
  - by rewrite lookup_insert_eq.
  - intros s. destruct (rep_parked0 s) as [b Hb]. exists b.
    by rewrite lookup_insert_ne by loc_ne.
Qed.

(** The oldest item is in the slot of the head counter. *)
Lemma rep_front p st c v q :
  rep_at sh p st c → items c = v :: q →
  cells st !! buf sh (slot_of (cap sh) (popped c)) = Some (Some v).
Proof.
  intros Hr Hq. rewrite <-(Z.add_0_r (popped c)).
  apply (rep_full _ _ _ _ Hr 0%nat). by rewrite Hq.
Qed.

Lemma rep_popped_le p st c : rep_at sh p st c → 0 ≤ popped c ≤ pushed c.
Proof. intros []. unfold pushed. lia. Qed.

(** What an operation started in [st] and now in [st1] leaves: its result,
    the channel it moved to, every other ring, and the drop count. *)
Definition leaves {A} (i : tid) (p : prog T A) st st1 (a : A) (c : Chan T) : Prop :=
  ∃ st', run i p st1 = Done a st' ∧ rep sh st' c ∧
         frame (sh_ring sh) st st' ∧ dropped st' = dropped st.
Definition ends_in {A} i (p : prog T A) st (a : A) c : Prop := leaves i p st st a c.

Lemma leaves_ret {A} i st st1 (a : A) c :
  rep sh st1 c → frame (sh_ring sh) st st1 → dropped st1 = dropped st →
  leaves i (mret a) st st1 a c.
Proof. intros. exists st1. split_and!; done. Qed.

(** The common tail of every successful operation. *)
Lemma leaves_wake {A} i st st1 (a : A) c s :
  rep sh st1 c → frame (sh_ring sh) st st1 → dropped st1 = dropped st →
  leaves i (wake_if_park sh (parker_of (sh_ring sh) s) ≫= λ _, mret a) st st1 a c.
Proof.
  intros Hr Hf Hd. destruct (wake_if_park_run i _ st1 c s Hr) as (st' & Hrun & Hpf).
  exists st'. erewrite run_bind_Done by exact Hrun. split_and!; [done| | |].
  - by eapply rep_park_frame.
  - etrans; [exact Hf|by apply park_frame_frame].
  - by rewrite (pf_dropped _ _ _ Hpf).
Qed.

Lemma usize_sub_occupancy st c k :
  rep sh st c → 0 ≤ k ≤ popped c → pushed c - cap sh ≤ k →
  usize_sub (wrap (pushed c)) (wrap k) = Some (pushed c - k).
Proof using Hok.
  intros Hr ? ?. pose proof (cap_lt_modulus Hok). pose proof (rep_popped_le _ _ _ Hr).
  apply usize_sub_wrap; [lia..|]. apply (rep_checked _ _ _ _ Hr).
Qed.

Lemma try_send_run i st c s v :
  rep sh st c → sender_ok sh s c → room c →
  ∃ s', ends_in i (try_send s v) st (s', (spec_try_send (cap sh) c v).1)
          (spec_try_send (cap sh) c v).2 ∧
        sender_ok sh s' (spec_try_send (cap sh) c v).2.
Proof using Hok.
  intros Hr (Hsh & Ht & k & Hk & Hkr & Hkw) Hroom. destruct s as [sh' t k']; simpl in *.
  subst sh' t k'. pose proof (rep_popped_le _ _ _ Hr). pose proof (rep_bound _ _ _ _ Hr).
  assert (Hlen : Z.of_nat (length (items c)) = pushed c - popped c) by (unfold pushed; lia).
  (* the push itself, once the slot is known to be free *)
  assert (Hpush : ∀ k, 0 ≤ k ≤ popped c → pushed c - cap sh < k → closed c = false → ∃ s',
    leaves (A := Sender * result unit (TrySendError T)) i
      (i ← index (buf_len sh) (Z.land (wrap (pushed c)) (mask sh));
       _ ← write_cell (buf sh i) v;
       t ← arith (usize_add (wrap (pushed c)) 1);
       let self := {| s_shared := sh; s_tail := t; cached_head := wrap k |} in
       _ ← store (tail sh) (s_tail self) Release;
       _ ← wake_if_park sh (consumer_parker sh);
       mret (self, Ok tt)) st st (s', Ok tt)
      (MkChan (popped c) (items c ++ [v]) (closed c) (refs c)) ∧
    sender_ok sh s' (MkChan (popped c) (items c ++ [v]) (closed c) (refs c))).
  { intros k' ? ? Hopen. eexists. split.
    - unfold leaves. rewrite (index_slot Hok). run_step.
      erewrite run_write by (apply (rep_free _ _ _ _ Hr); lia).
      rewrite (run_arith _ _ (wrap (pushed c + 1)))
        by (apply usize_add_wrap; [lia|exact Hroom]).
      cbn [s_tail]. erewrite run_store by (simpl; eexists; apply (rep_tail _ _ _ _ Hr)).
      apply leaves_wake; [|by eapply frame_cells_atoms|done].
      apply rep_push; auto. lia.
    - split_and!; [done| |exists k'; simpl; split_and!; try lia]; simpl; try done.
      + unfold pushed. simpl. rewrite length_app. simpl. f_equal. lia.
      + unfold pushed in *. simpl. rewrite length_app. simpl. lia. }
  unfold try_send, spec_try_send, ends_in. cbn [s_shared s_tail cached_head].
  unfold leaves in *. erewrite run_load_bool by apply (rep_disc _ _ _ _ Hr).
  destruct (closed c) eqn:Hclosed.
  { eexists; split; [by apply leaves_ret|]. split_and!; eauto. }
  erewrite run_arith by (eapply usize_sub_occupancy; eauto).
  destruct (Z.eqb_spec (pushed c - k) (cap sh)) as [Hfull|Hfree].
  - rewrite run_assoc. erewrite run_load by apply (rep_head _ _ _ _ Hr).
    cbn [s_tail cached_head]. rewrite run_assoc.
    erewrite run_arith by (eapply usize_sub_occupancy; eauto; lia).
    rewrite run_ret. cbv beta iota. rewrite Hlen.
    destruct (Z.eqb_spec (pushed c - popped c) (cap sh)).
    + eexists; split; [by apply leaves_ret|]. split_and!; [done..|].
      exists (popped c). simpl. split_and!; [done|lia..].
    + apply (Hpush (popped c)); [lia..|done].
  - rewrite run_ret. cbv beta iota. rewrite Hlen.
    destruct (Z.eqb_spec (pushed c - popped c) (cap sh)); [lia|].
    apply (Hpush k); [lia..|done].
Qed.

Lemma head_no_overflow p st c v q :
  rep_at sh p st c → items c = v :: q → overflow_checks = true → popped c < usize_max.
Proof.
  intros Hr Hq Hck. pose proof (rep_checked _ _ _ _ Hr Hck) as Hle.
  unfold pushed in Hle. rewrite Hq in Hle. simpl in Hle. lia.
Qed.

(** The mirror comparisons of the consumer decide the true counters. *)
Lemma mirror_eqb p st c k :
  rep_at sh p st c → popped c ≤ k ≤ pushed c →
  (wrap (popped c) =? wrap k) = (popped c =? k).
Proof using Hok.
  intros Hr Hk. pose proof (cap_lt_modulus Hok). pose proof (rep_bound _ _ _ _ Hr).
  unfold pushed in *. apply wrap_eqb. lia.
Qed.

Lemma try_recv_run i st c r :
  rep sh st c → receiver_ok sh r c →
  ∃ r', ends_in i (try_recv r) st (r', (spec_try_recv c).1) (spec_try_recv c).2 ∧
        receiver_ok sh r' (spec_try_recv c).2.
Proof using Hok.
  intros Hr (Hsh & Hh & k & Hk & Hkr). destruct r as [sh' h k']; simpl in *. subst sh' h k'.
  pose proof (rep_popped_le _ _ _ Hr).
  assert (Hlen : Z.of_nat (length (items c)) = pushed c - popped c) by (unfold pushed; lia).
  (* the pop itself, once an item is known to be there *)
  assert (Hpop : ∀ k, popped c < k ≤ pushed c → ∃ r',
    leaves (A := Receiver * result T TryRecvError) i
      (i ← index (buf_len sh) (Z.land (wrap (popped c)) (mask sh));
       v ← read_cell (buf sh i);
       h ← arith (usize_add (wrap (popped c)) 1);
       let self := {| r_shared := sh; r_head := h; cached_tail := wrap k |} in
       _ ← store (head sh) (r_head self) Release;
       _ ← wake_if_park sh (producer_parker sh);
       mret (self, Ok v)) st st (r', (spec_try_recv c).1) (spec_try_recv c).2 ∧
    receiver_ok sh r' (spec_try_recv c).2).
  { intros k' Hk'. unfold spec_try_recv. destruct (items c) as [|v q] eqn:Hq; [simpl in *; lia|].
    eexists. split.
    - unfold leaves. rewrite (index_slot Hok). run_step.
      erewrite run_read by (by eapply rep_front).
      rewrite (run_arith _ _ (wrap (popped c + 1)))
        by (apply usize_add_wrap; [lia|by eapply head_no_overflow]).
      cbn [r_head]. erewrite run_store by (simpl; eexists; apply (rep_head _ _ _ _ Hr)).
      apply leaves_wake; [|by eapply frame_cells_atoms|done].
      by eapply (rep_publish _ _ (MkChan (popped c + 1) q _ _)), rep_pop.
    - split_and!; [done..|]. exists k'. unfold pushed in *. simpl in *.
      split_and!; [done|lia..]. }
  unfold try_recv, ends_in. cbn [r_shared r_head cached_tail].
  rewrite (mirror_eqb _ _ _ _ Hr Hkr).
  destruct (Z.eqb_spec (popped c) k) as [<-|Hne].
  2: { apply (Hpop k). lia. }
  unfold leaves in *. rewrite run_assoc. erewrite run_load by apply (rep_tail _ _ _ _ Hr).
  cbn [r_head cached_tail]. rewrite (mirror_eqb _ _ _ _ Hr) by lia.
  destruct (Z.eqb_spec (popped c) (pushed c)) as [He|Hne]; [|apply (Hpop (pushed c)); lia].
  assert (items c = []) as Hnil by (apply length_zero_iff_nil; lia).
  assert (receiver_ok sh {| r_shared := sh; r_head := wrap (popped c);
    cached_tail := wrap (pushed c) |} c) by (split_and!; [done..|]; exists (pushed c); simpl; split_and!; [done|lia..]).
  rewrite run_assoc. erewrite run_load_bool by apply (rep_disc _ _ _ _ Hr).
  unfold spec_try_recv. rewrite Hnil. destruct (closed c).
  - rewrite run_assoc. erewrite run_load by apply (rep_tail _ _ _ _ Hr).
    rewrite He, Z.eqb_refl. eexists. split; [by apply leaves_ret|]. by rewrite He in *.
  - eexists. split; [by apply leaves_ret|done].
Qed.

Lemma taken_items c : taken c (items c) = c.
Proof. destruct c. unfold taken, pushed. simpl. f_equal. lia. Qed.

Lemma pushed_taken c q : pushed (taken c q) = pushed c.
Proof. unfold pushed, taken. simpl. unfold pushed. lia. Qed.

Lemma drain_loop_run {S} (f : S → T → S * bool) i p max q fuel :
  is_usize max →
  ∀ st c r env count, items c = q → (length q < fuel)%nat → 0 ≤ count →
  rep_at sh p st c → receiver_ok sh r c →
  ∃ r' st',
    run i (drain_loop fuel max r f env count) st =
      Done (r', (spec_drain_items max f env count q).1.1,
            (spec_drain_items max f env count q).1.2) st' ∧
    rep_at sh p st' (taken c (spec_drain_items max f env count q).2) ∧
    receiver_ok sh r' (taken c (spec_drain_items max f env count q).2) ∧
    frame (sh_ring sh) st st' ∧ dropped st' = dropped st.
Proof using Hok.
  intros Hmax. revert fuel. induction q as [|v q IH];
    intros fuel st c [sh' h k'] env count Hq Hfuel Hcount Hr (Hsh & Hh & k & Hk & Hkr);
    simpl in *; subst sh' h k';
    (destruct fuel as [|fuel]; [lia|]); cbn [drain_loop r_shared r_head cached_tail];
    (assert (Hlen : Z.of_nat (length (items c)) = pushed c - popped c)
       by (unfold pushed; lia)); rewrite Hq in Hlen; simpl in Hlen;
    (assert (Hrx0 : receiver_ok sh {| r_shared := sh; r_head := wrap (popped c);
       cached_tail := wrap k |} c) by (split_and!; [done..|]; by exists k)).
  - rewrite <-Hq, taken_items.
    destruct (Z.ltb_spec count max); simpl negb; cbv iota; [|by eexists _, _; split_and!].
    rewrite (mirror_eqb _ _ _ _ Hr Hkr). rewrite (proj2 (Z.eqb_eq _ _)) by lia.
    rewrite run_assoc. erewrite run_load by apply (rep_tail _ _ _ _ Hr).
    rewrite run_ret. cbn [r_head cached_tail].
    rewrite (mirror_eqb _ _ _ _ Hr), (proj2 (Z.eqb_eq _ _)) by lia.
    eexists _, _. split_and!; [done..| |done|done].
    split_and!; [done..|]. exists (pushed c). simpl. split_and!; [done|lia..].
  - destruct (Z.ltb_spec count max); simpl negb; cbv iota.
    2: { simpl. rewrite <-Hq, taken_items. eexists _, _. by split_and!. }
    (* the refill leaves a mirror strictly past the head *)
    assert (∃ k', popped c < k' ≤ pushed c ∧ ∀ A (g : Receiver → prog T A),
      run i ((if wrap (popped c) =? wrap k then
                t ← load (tail sh) Acquire;
                mret {| r_shared := sh; r_head := wrap (popped c); cached_tail := t |}
              else mret {| r_shared := sh; r_head := wrap (popped c);
                           cached_tail := wrap k |}) ≫= g) st =
      run i (g {| r_shared := sh; r_head := wrap (popped c); cached_tail := wrap k' |}) st)
      as (k' & Hk' & Hrefill).
    { rewrite (mirror_eqb _ _ _ _ Hr Hkr). destruct (Z.eqb_spec (popped c) k).
      - exists (pushed c). split; [lia|]. intros A g. rewrite run_assoc.
        by erewrite run_load by apply (rep_tail _ _ _ _ Hr).
      - exists k. split; [lia|done]. }
    rewrite Hrefill. cbn [r_head cached_tail r_shared].
    rewrite (mirror_eqb _ _ _ _ Hr) by lia.
    rewrite (proj2 (Z.eqb_neq _ _)) by lia. rewrite (index_slot Hok), run_ret.
    erewrite run_read by (by eapply rep_front).
    rewrite (usize_add_wrap (popped c));
      [|by destruct (rep_popped_le _ _ _ Hr)|exact (head_no_overflow _ _ _ _ _ Hr Hq)].
    rewrite (usize_add_count count max) by auto with lia.
    cbv beta iota.
    pose proof (rep_pop _ _ _ _ _ Hr Hq) as Hr'.
    assert (∀ q', taken (MkChan (popped c + 1) q (closed c) (refs c)) q' = taken c q') as Htk
      by (intros; unfold taken, pushed; simpl; rewrite Hq; simpl; f_equal; lia).
    assert (receiver_ok sh {| r_shared := sh; r_head := wrap (popped c + 1);
      cached_tail := wrap k' |} (MkChan (popped c + 1) q (closed c) (refs c))) as Hrx.
    { split_and!; [done..|]. exists k'. unfold pushed in *. simpl. split_and!; [done|lia..]. }
    destruct (f env v) as [env' []]; simpl.
    + destruct (IH fuel _ (MkChan (popped c + 1) q (closed c) (refs c)) _ env' (count + 1)
        eq_refl ltac:(lia) ltac:(lia) Hr' Hrx)
        as (r' & st' & Hrun & Hr2 & Hrx2 & Hf & Hd).
      exists r', st'. rewrite !Htk in *. split_and!; [done..| |done].
      etrans; [by eapply (frame_set_cells _ (buf sh _))|done].
    + eexists _, _. rewrite <-Htk.
      replace (taken _ q) with (MkChan (popped c + 1) q (closed c) (refs c))
        by (rewrite <-(taken_items (MkChan _ _ _ _)) at 1; done).
      split_and!; [done..| |done]. by eapply (frame_set_cells _ (buf sh _)).
Qed.

(** [drain] moves a prefix through the callback and publishes the head even
    when the callback panics. *)
Lemma drain_run {S} (f : S → T → S * bool) i st c r max env fuel :
  rep sh st c → receiver_ok sh r c → is_usize max → (length (items c) < fuel)%nat →
  ∃ r', ends_in i (drain fuel r max f env) st
          (r', (spec_drain max f env c).1.1, (spec_drain max f env c).1.2)
          (spec_drain max f env c).2 ∧
        receiver_ok sh r' (spec_drain max f env c).2.
Proof using Hok.
  intros Hr Hrx Hmax Hfuel. unfold ends_in, leaves, drain, spec_drain.
  destruct (drain_loop_run f i _ max (items c) fuel Hmax st c r env 0 eq_refl Hfuel
    ltac:(lia) Hr Hrx) as (r' & st' & Hrun & Hr' & Hrx' & Hf & Hd).
  pose proof (spec_drain_items_suffix max f env 0 (items c)) as [k Hsuf].
  pose proof (spec_drain_items_count max f env 0 (items c)) as Hcnt.
  destruct (spec_drain_items max f env 0 (items c)) as [[env' e] q]; simpl in *.
  exists r'. split; [|done]. erewrite run_bind_Done by exact Hrun.
  pose proof (rep_bound _ _ _ _ Hr) as Hb. pose proof (cap_lt_modulus Hok).
  assert (Z.of_nat (length (items c)) =
    Z.of_nat (length k) + Z.of_nat (length q)) as Hlen
    by (rewrite Hsuf, length_app; lia).
  (* the guard publishes whatever was taken *)
  assert (∃ st2, ∀ A (g : unit → prog T A),
    run i (publish_guard_drop r' (r_head r) ≫= g) st' = run i (g tt) st2 ∧
    rep sh st2 (taken c q) ∧ frame (sh_ring sh) st st2 ∧ dropped st2 = dropped st)
    as [st2 Hguard].
  { unfold publish_guard_drop. destruct Hrx as (_ & -> & _), Hrx' as (-> & Hh' & _).
    rewrite Hh', wrap_eqb by (unfold taken, pushed; simpl; lia).
    destruct (Z.eqb_spec (popped (taken c q)) (popped c)) as [He|He]; simpl negb; cbv iota.
    - exists st'. intros A g. unfold rep. rewrite He. done.
    - eexists. intros A g. split_and!.
      + by erewrite run_store by (eexists; apply (rep_head _ _ _ _ Hr')).
      + by apply (rep_publish _ _ _ Hr').
      + etrans; [exact Hf|by apply frame_set_atoms].
      + done. }
  destruct (Hguard _ (λ _, match e with
    | Unwound => mret (r', env', Unwound)
    | Returned count =>
        _ ← (if 0 <? count then wake_if_park (r_shared r') (producer_parker (r_shared r'))
             else mret tt); mret (r', env', Returned count) end))
    as (-> & Hr2 & Hf2 & Hd2).
  destruct e as [n|]; [|by apply leaves_ret].
  destruct (0 <? n); [|by apply leaves_ret].
  destruct Hrx' as (-> & _). by apply leaves_wake.
Qed.

(** ** Closing and dropping *)

Definition with_closed c : Chan T := MkChan (popped c) (items c) true (refs c).
Definition with_refs c n : Chan T := MkChan (popped c) (items c) (closed c) n.

Lemma close_run i st c :
  rep sh st c →
  ∃ st', (∀ A (g : unit → prog T A), run i (close sh ≫= g) st = run i (g tt) st') ∧
         rep sh st' (with_closed c) ∧ frame (sh_ring sh) st st' ∧ dropped st' = dropped st.
Proof.
  intros Hr. set (st1 := set_atoms <[disconnected sh := Z.b2z true]> st).
  assert (rep sh st1 (with_closed c)) as Hr1.
  { destruct Hr. split; simpl; try (by rewrite lookup_insert_ne by loc_ne); auto.
    - by rewrite lookup_insert_eq.
    - intros s. destruct (rep_parked0 s) as [b Hb]. exists b.
      by rewrite lookup_insert_ne by loc_ne. }
  destruct (wake_run i _ Consumer st1 (rep_parked _ _ _ _ Hr1 _)) as (st2 & Hrun2 & Hpf2).
  pose proof (rep_park_frame _ _ _ _ Hpf2 Hr1) as Hr2.
  destruct (wake_run i _ Producer st2 (rep_parked _ _ _ _ Hr2 _)) as (st3 & Hrun3 & Hpf3).
  exists st3. split_and!.
  - intros A g. unfold close. rewrite !run_assoc.
    rewrite run_store_bool by (eexists; apply (rep_disc _ _ _ _ Hr)).
    rewrite run_assoc, run_fence, run_assoc. erewrite run_bind_Done by exact Hrun2.
    by erewrite run_bind_Done by exact Hrun3.
  - by eapply rep_park_frame.
  - etrans; [by apply (frame_set_atoms _ (disconnected sh))|].
    etrans; by apply park_frame_frame.
  - by rewrite (pf_dropped _ _ _ Hpf3), (pf_dropped _ _ _ Hpf2).
Qed.

Lemma drop_range_run i p q :
  ∀ st c, items c = q → rep_at sh p st c → pushed c ≤ usize_max →
  ∃ st', run i (drop_range (length q) sh (popped c)) st = Done tt st' ∧
         frame (sh_ring sh) st st' ∧ dropped st' = dropped st ++ q.
Proof using Hok.
  induction q as [|v q IH]; intros st c Hq Hr Hmax; cbn [length drop_range].
  { exists st. rewrite app_nil_r. by split_and!. }
  pose proof (rep_popped_le _ _ _ Hr) as Hle.
  replace (Z.land (popped c) (mask sh)) with (Z.land (wrap (popped c)) (mask sh))
    by (f_equal; apply wrap_small; unfold is_usize, usize_max in *; lia).
  rewrite (index_slot Hok), run_ret. erewrite run_drop by (by eapply rep_front).
  pose proof (rep_pop _ _ _ _ _ Hr Hq) as Hr'. set (st1 := set_cells _ st) in *.
  assert (rep_at sh p (add_dropped v st1) (MkChan (popped c + 1) q (closed c) (refs c)))
    as Hr2 by (destruct Hr'; split; done).
  destruct (IH _ (MkChan (popped c + 1) q (closed c) (refs c)) eq_refl Hr2)
    as (st' & Hrun & Hf & Hd).
  { unfold pushed in *. rewrite Hq in *. simpl in *. lia. }
  exists st'. split_and!; [done| |].
  - etrans; [by apply (frame_set_cells _ (buf sh (slot_of (cap sh) (popped c))) None)|].
    etrans; [|exact Hf]. by apply frame_same.
  - rewrite Hd. simpl. by rewrite <-app_assoc.
Qed.

Lemma rep_strong_update st c n :
  0 ≤ n ≤ 2 → rep sh st c → rep sh (set_atoms <[strong sh := n]> st) (with_refs c n).
Proof.
  intros Hn []. split; simpl; try (by rewrite lookup_insert_ne by loc_ne); auto.
  - by rewrite lookup_insert_eq.
  - intros s. destruct (rep_parked0 s) as [b Hb]. exists b.
    by rewrite lookup_insert_ne by loc_ne.
Qed.

Lemma Arc_drop_run i st c :
  rep sh st c → 1 ≤ refs c → pushed c ≤ usize_max →
  ∃ st', run i (Arc_drop sh) st = Done tt st' ∧ frame (sh_ring sh) st st' ∧
    if refs c =? 1 then dropped st' = dropped st ++ items c
    else dropped st' = dropped st ∧ rep sh st' (with_refs c (refs c - 1)).
Proof using Hok.
  intros Hr Hrefs Hmax. unfold Arc_drop. pose proof (rep_refs _ _ _ _ Hr).
  pose proof usize_modulus_ge.
  erewrite run_fetch_sub by
    (first [apply (rep_strong _ _ _ _ Hr)|unfold is_usize; lia]).
  pose proof (rep_strong_update st c (refs c - 1) ltac:(lia) Hr) as Hr1.
  set (st1 := set_atoms _ st) in *.
  assert (frame (sh_ring sh) st st1) by (by apply (frame_set_atoms _ (strong sh))).
  destruct (Z.eqb_spec (refs c) 1) as [Hlast|]; [|by exists st1; split_and!].
  rewrite run_fence.
  assert (∃ st', run i (Shared_drop sh) st1 = Done tt st' ∧ frame (sh_ring sh) st1 st' ∧
    dropped st' = dropped st1 ++ items c) as (st' & Hrun & Hf & Hd).
  { unfold Shared_drop. erewrite run_load by apply (rep_head _ _ _ _ Hr1).
    erewrite run_load by apply (rep_tail _ _ _ _ Hr1).
    pose proof (rep_popped_le _ _ _ Hr).
    change (pushed (with_refs c (refs c - 1))) with (pushed c).
    rewrite !wrap_small by (unfold is_usize, usize_max in *; simpl; lia).
    replace (Z.to_nat (pushed c - popped (with_refs c (refs c - 1)))) with (length (items c))
      by (unfold pushed; simpl; lia).
    eapply (drop_range_run i _ (items c) st1 (with_refs c (refs c - 1))); [done|exact Hr1|done]. }
  exists (free (sh_ring sh) st'). split_and!; [|etrans; [|apply frame_free]; by etrans|done].
  by erewrite run_bind_Done by exact Hrun.
Qed.

(** What dropping either handle does. *)
Lemma handle_drop_run i st c :
  rep sh st c → 1 ≤ refs c → pushed c ≤ usize_max →
  ∃ st', run i (_ ← close sh; Arc_drop sh) st = Done tt st' ∧ frame (sh_ring sh) st st' ∧
    if refs c =? 1 then dropped st' = dropped st ++ items c
    else dropped st' = dropped st ∧
         rep sh st' (MkChan (popped c) (items c) true (refs c - 1)).
Proof using Hok.
  intros Hr Hrefs Hmax. destruct (close_run i st c Hr) as (st1 & Hrun & Hr1 & Hf & Hd).
  destruct (Arc_drop_run i st1 (with_closed c) Hr1 Hrefs Hmax) as (st2 & Hrun2 & Hf2 & Hpost).
  exists st2. rewrite Hrun. split_and!; [done|by etrans|].
  simpl in *. rewrite Hd in Hpost. done.
Qed.
End refinement.

(** The constructor builds an empty channel with both handles. *)
Lemma channel_run `{Target} {T} i (capacity : Z) (strat : WaitStrategy) (st : seqst T) :
  0 < capacity ≤ usize_max → is_power_of_two capacity = true →
  ∃ sh s r st',
    run i (channel capacity strat) st = Done (s, r) st' ∧
    cap sh = capacity ∧ strategy sh = strat ∧ sh_ring sh = next_ring st ∧
    next_ring st' = S (next_ring st) ∧ dropped st' = dropped st ∧
    (∀ l, ring l ≠ next_ring st → atoms st' !! l = atoms st !! l) ∧
    (∀ l, ring l ≠ next_ring st → cells st' !! l = cells st !! l) ∧
    shared_ok sh ∧ rep sh st' new_chan ∧
    sender_ok sh s (new_chan (T := T)) ∧ receiver_ok sh r (new_chan (T := T)).
Proof.
  intros Hcap Hpow. pose proof usize_modulus_pos.
  set (sh := {| sh_ring := next_ring st; buf_len := capacity; mask := capacity - 1;
                cap := capacity; strategy := strat |}).
  assert (Hok : shared_ok sh) by (apply (ring_ok_intro capacity); [lia|lia|done]).
  unfold channel, assert_cap. rewrite (proj2 (Z.ltb_lt 0 capacity)), Hpow by lia.
  simpl andb. cbv iota. rewrite run_Ret.
  rewrite (run_arith _ _ (capacity - 1)).
  2: { apply checked_in_range. unfold is_usize, usize_max in *. lia. }
  set (init := _ ++ Parker_new Consumer ++ Parker_new Producer).
  exists sh. eexists _, _. rewrite run_bind.
  change (run i (New (Z.to_nat capacity) init Ret) st) with
    (Done (next_ring st) (alloc (Z.to_nat capacity) init st)).
  cbv beta iota zeta. change (strong _) with (strong sh).
  eexists. split.
  { erewrite run_Arc_clone by
      (first [simpl; by rewrite lookup_insert_eq | pose proof MAX_REFCOUNT_ge; lia]).
    by apply run_mret. }
  assert (wrap 0 = 0) as Hw0 by (apply wrap_small; unfold is_usize; lia).
  split_and!; try done.
  - intros l Hl. cbn [atoms set_atoms alloc]. rewrite lookup_insert_ne.
    + by apply alloc_atoms_other.
    + intros <-. by apply Hl.
  - intros l Hl. by apply alloc_cells_other.
  - split; unfold pushed; simpl; change (0 + Z.of_nat 0) with 0; rewrite ?Hw0;
      try (unfold strong, tail, head, disconnected; simpl; by lookup_loc); try lia.
    + intros s. exists false. by destruct s; lookup_loc.
    + intros n Hn. apply alloc_cells_lookup, (slot_of_lt Hok).
  - split_and!; [done..|]. exists 0. unfold pushed. simpl. rewrite Hw0. split_and!; try done; lia.
  - split_and!; [done..|]. exists 0. unfold pushed. simpl. rewrite Hw0. split_and!; try done; lia.
Qed.
