(* ===== verification/SpscRefine.v ===== *)
(** End-to-end sequential behaviour of the SPSC ring: any sequence of calls on
    the two handles [channel] returns behaves as the abstract bounded queue,
    down to the values dropped with the block. *)
From S2P Require Import Prelude Usize Atomic Errors Wait Notify Ring Queue Spsc Seq SpscSeq.
Local Open Scope Z_scope.

(** ** A client of the channel *)

Inductive op (T : Type) :=
  | OpTrySend (v : T)
  | OpTryRecv
  | OpDrain (max : Z)
  | OpDropSender
  | OpDropReceiver.
Arguments OpTrySend {T} v.
Arguments OpTryRecv {T}.
Arguments OpDrain {T} max.
Arguments OpDropSender {T}.
Arguments OpDropReceiver {T}.

Section client.
Context `{Target} {T : Type}.
(** [cb v] is whether the drain callback returns on [v]; it panics otherwise. *)
Variable cb : T → bool.

Definition handles : Type := option Sender * option Receiver.

Definition client_step (fuel : nat) (o : op T) (hs : handles) : prog T (obs T * handles) :=
  match o, hs with
  | OpTrySend v, (Some tx, rx) =>
      '(tx, r) ← try_send tx v; mret (ObsSend r, (Some tx, rx))
  | OpTryRecv, (tx, Some rx) =>
      '(rx, r) ← try_recv rx; mret (ObsRecv r, (tx, Some rx))
  | OpDrain max, (tx, Some rx) =>
      '(rx, seen, e) ← drain fuel rx max (collect cb) [];
      mret (ObsDrain seen e, (tx, Some rx))
  | OpDropSender, (Some tx, rx) =>
      _ ← Sender_drop tx; mret (ObsDropped, (None, rx))
  | OpDropReceiver, (tx, Some rx) =>
      _ ← Receiver_drop rx; mret (ObsDropped, (tx, None))
  | _, _ => mret (NoHandle, hs)
  end.

Fixpoint client_run (fuel : nat) (ops : list (op T)) (hs : handles) : prog T (list (obs T)) :=
  match ops with
  | [] => mret []
  | o :: ops =>
      '(ob, hs) ← client_step fuel o hs;
      obs ← client_run fuel ops hs;
      mret (ob :: obs)
  end.

(** The client from the constructor on. *)
Definition client (fuel : nat) (cap : Z) (strat : WaitStrategy) (ops : list (op T)) :
    prog T (list (obs T)) :=
  '(tx, rx) ← channel cap strat; client_run fuel ops (Some tx, Some rx).

(** ** The specification: a bounded queue with two liveness bits *)

Record spec_state := MkSpec {
  chan : Chan T;
  tx_live : bool;
  rx_live : bool;
  destroyed : list T;
}.

Definition spec_init : spec_state := MkSpec new_chan true true [].

Definition spec_drop (s : spec_state) (tx rx : bool) : spec_state :=
  let c := chan s in
  MkSpec (MkChan (popped c) (items c) true (refs c - 1)) tx rx
    (if refs c =? 1 then destroyed s ++ items c else destroyed s).

Definition spec_step (cap : Z) (o : op T) (s : spec_state) : obs T * spec_state :=
  match o, tx_live s, rx_live s with
  | OpTrySend v, true, rx =>
      let '(r, c) := spec_try_send cap (chan s) v in
      (ObsSend r, MkSpec c true rx (destroyed s))
  | OpTryRecv, tx, true =>
      let '(r, c) := spec_try_recv (chan s) in
      (ObsRecv r, MkSpec c tx true (destroyed s))
  | OpDrain max, tx, true =>
      let '(seen, e, c) := spec_drain max (collect cb) [] (chan s) in
      (ObsDrain seen e, MkSpec c tx true (destroyed s))
  | OpDropSender, true, rx => (ObsDropped, spec_drop s false rx)
  | OpDropReceiver, tx, true => (ObsDropped, spec_drop s tx false)
  | _, _, _ => (NoHandle, s)
  end.

Fixpoint spec_run (cap : Z) (ops : list (op T)) (s : spec_state) : list (obs T) * spec_state :=
  match ops with
  | [] => ([], s)
  | o :: ops =>
      let '(ob, s) := spec_step cap o s in
      let '(obs, s) := spec_run cap ops s in
      (ob :: obs, s)
  end.

(** ** Simulation *)

Definition owns {A} (live : bool) (h : option A) (ok : A → Prop) : Prop :=
  match h with Some a => live = true ∧ ok a | None => live = false end.

Record related (sh : Shared) (s : spec_state) (hs : handles) (st : seqst T) : Prop := {
  rel_tx : owns (tx_live s) hs.1 (λ tx, sender_ok sh tx (chan s));
  rel_rx : owns (rx_live s) hs.2 (λ rx, receiver_ok sh rx (chan s));
  rel_refs : refs (chan s) = Z.b2z (tx_live s) + Z.b2z (rx_live s);
  rel_rep : refs (chan s) ≠ 0 → rep sh st (chan s);
  rel_dropped : dropped st = destroyed s;
}.

Lemma sender_ok_mono sh tx (c c' : Chan T) :
  sender_ok sh tx c → popped c ≤ popped c' → pushed c' = pushed c → sender_ok sh tx c'.
Proof.
  intros (? & Ht & k & Hk & ? & ?) Hp Hu. split_and!; [done|by rewrite Hu|].
  exists k. rewrite Hu. split_and!; [done|lia..].
Qed.

Lemma receiver_ok_mono sh rx (c c' : Chan T) :
  receiver_ok sh rx c → popped c' = popped c → pushed c ≤ pushed c' → receiver_ok sh rx c'.
Proof.
  intros (? & Hh & k & Hk & ?) Hp Hu. split_and!; [done|by rewrite Hp|].
  exists k. rewrite Hp. split_and!; [done|lia..].
Qed.

Lemma owns_mono {A} live (h : option A) (P Q : A → Prop) :
  owns live h P → (∀ a, P a → Q a) → owns live h Q.
Proof. destruct h; simpl; naive_solver. Qed.

Definition op_ok (o : op T) : Prop :=
  match o with OpDrain max => is_usize max | _ => True end.

(** The call [o] in [st] does what the specification says. *)
Definition simulates (i : tid) (fuel : nat) sh o s (hs : handles) (st : seqst T) : Prop :=
  ∃ hs' st', run i (client_step fuel o hs) st =
               Done ((spec_step (cap sh) o s).1, hs') st' ∧
             related sh (spec_step (cap sh) o s).2 hs' st' ∧
             pushed (chan (spec_step (cap sh) o s).2) ≤ pushed (chan s) + 1.

Lemma spec_try_send_counters capacity (c : Chan T) v :
  popped (spec_try_send capacity c v).2 = popped c ∧
  refs (spec_try_send capacity c v).2 = refs c ∧
  pushed c ≤ pushed (spec_try_send capacity c v).2 ≤ pushed c + 1.
Proof.
  unfold spec_try_send, pushed. destruct (closed c); simpl; [lia|].
  case_bool; simpl; rewrite ?length_app; simpl; lia.
Qed.

Lemma spec_try_recv_counters (c : Chan T) :
  popped c ≤ popped (spec_try_recv c).2 ∧ refs (spec_try_recv c).2 = refs c ∧
  pushed (spec_try_recv c).2 = pushed c.
Proof.
  unfold spec_try_recv, pushed. destruct (items c) as [|v q] eqn:Hq; simpl;
    rewrite ?Hq; simpl; lia.
Qed.

Lemma spec_drain_counters max (c : Chan T) :
  popped c ≤ popped (spec_drain max (collect cb) [] c).2 ∧
  refs (spec_drain max (collect cb) [] c).2 = refs c ∧
  pushed (spec_drain max (collect cb) [] c).2 = pushed c.
Proof.
  unfold spec_drain. destruct (spec_drain_items_suffix max (collect cb) [] 0 (items c)) as [k Hk].
  destruct (spec_drain_items _ _ _ _ _) as [[env e] q]. simpl in *.
  rewrite pushed_taken. unfold taken, pushed. simpl.
  rewrite Hk, length_app. lia.
Qed.

Lemma related_live sh s hs st :
  related sh s hs st → tx_live s = true ∨ rx_live s = true → rep sh st (chan s).
Proof.
  intros [_ _ Hrefs Hrep _] Hl. apply Hrep. rewrite Hrefs.
  destruct Hl as [-> | ->]; destruct (tx_live s), (rx_live s); simpl; lia.
Qed.

Lemma try_send_sim i fuel sh v s tx rx st :
  shared_ok sh → related sh s (Some tx, rx) st → pushed (chan s) < usize_max →
  simulates i fuel sh (OpTrySend v) s (Some tx, rx) st.
Proof.
  intros Hok Hrel Hroom. pose proof Hrel as [[Htl Htx] Hrx Hrefs _ Hd]; simpl in *.
  assert (Hr : rep sh st (chan s)) by (by eapply related_live; [|left]).
  destruct (try_send_run sh Hok i st (chan s) tx v Hr Htx ltac:(by intros ?))
    as (tx' & (st' & Hrun & Hr' & _ & Hd') & Htx').
  destruct (spec_try_send_counters (cap sh) (chan s) v) as (Hp & Hrf & Hu).
  exists (Some tx', rx), st'. cbn [client_step spec_step]. rewrite Htl.
  destruct (spec_try_send (cap sh) (chan s) v) as [r c]; cbn [fst snd chan] in *.
  split_and!; [by erewrite run_bind_Done by exact Hrun| |lia].
  split; cbn; [done| |by rewrite Hrf, Hrefs, Htl|done|congruence].
  eapply owns_mono; [exact Hrx|]. intros rx' Hx.
  by eapply (receiver_ok_mono _ _ _ _ Hx); [|lia].
Qed.

Lemma try_recv_sim i fuel sh s tx rx st :
  shared_ok sh → related sh s (tx, Some rx) st →
  simulates i fuel sh OpTryRecv s (tx, Some rx) st.
Proof.
  intros Hok Hrel. pose proof Hrel as [Htx [Hrl Hrx] Hrefs _ Hd]; simpl in *.
  assert (Hr : rep sh st (chan s)) by (by eapply related_live; [|right]).
  destruct (try_recv_run sh Hok i st (chan s) rx Hr Hrx)
    as (rx' & (st' & Hrun & Hr' & _ & Hd') & Hrx').
  destruct (spec_try_recv_counters (chan s)) as (Hp & Hrf & Hu).
  exists (tx, Some rx'), st'. cbn [client_step spec_step]. rewrite Hrl.
  destruct (spec_try_recv (chan s)) as [r c]; cbn [fst snd chan] in *.
  split_and!; [by erewrite run_bind_Done by exact Hrun| |lia].
  split; cbn; [|done|by rewrite Hrf, Hrefs, Hrl|done|congruence].
  eapply owns_mono; [exact Htx|]. intros tx' Hx.
  by apply (sender_ok_mono _ _ _ _ Hx).
Qed.

Lemma drain_sim i fuel sh max s tx rx st :
  shared_ok sh → related sh s (tx, Some rx) st → is_usize max →
  (Z.to_nat (cap sh) < fuel)%nat →
  simulates i fuel sh (OpDrain max) s (tx, Some rx) st.
Proof.
  intros Hok Hrel Hmax Hfuel. pose proof Hrel as [Htx [Hrl Hrx] Hrefs _ Hd]; simpl in *.
  assert (Hr : rep sh st (chan s)) by (by eapply related_live; [|right]).
  destruct (drain_run sh Hok (collect cb) i st (chan s) rx max [] fuel Hr Hrx Hmax)
    as (rx' & (st' & Hrun & Hr' & _ & Hd') & Hrx').
  { pose proof (rep_bound _ _ _ _ Hr). lia. }
  destruct (spec_drain_counters max (chan s)) as (Hp & Hrf & Hu).
  exists (tx, Some rx'), st'. cbn [client_step spec_step]. rewrite Hrl.
  destruct (spec_drain max (collect cb) [] (chan s)) as [[seen e] c]; cbn [fst snd chan] in *.
  split_and!; [by erewrite run_bind_Done by exact Hrun| |lia].
  split; cbn; [|done|by rewrite Hrf, Hrefs, Hrl|done|congruence].
  eapply owns_mono; [exact Htx|]. intros tx' Hx.
  by apply (sender_ok_mono _ _ _ _ Hx).
Qed.

Lemma drop_sim i sh s hs st :
  shared_ok sh → related sh s hs st → tx_live s = true ∨ rx_live s = true →
  1 ≤ refs (chan s) → pushed (chan s) < usize_max →
  ∃ st', run i (_ ← close sh; Arc_drop sh) st = Done tt st' ∧
    ∀ tx rx hs', owns tx hs'.1 (λ h, sender_ok sh h (chan s)) →
      owns rx hs'.2 (λ h, receiver_ok sh h (chan s)) →
      refs (chan s) - 1 = Z.b2z tx + Z.b2z rx → related sh (spec_drop s tx rx) hs' st'.
Proof.
  intros Hok Hrel Hl Hrf Hroom. pose proof (related_live _ _ _ _ Hrel Hl) as Hr.
  destruct (handle_drop_run sh Hok i st (chan s) Hr ltac:(lia) ltac:(lia)) as (st' & Hrun & _ & Hpost).
  exists st'. split; [done|]. intros tx rx hs' Htx Hrx Hrefs.
  pose proof (rel_dropped _ _ _ _ Hrel) as Hd.
  split; simpl; [exact Htx|exact Hrx|done| |].
  - intros Hne. destruct (Z.eqb_spec (refs (chan s)) 1); [lia|apply Hpost].
  - destruct (refs (chan s) =? 1); [congruence|]. destruct Hpost. congruence.
Qed.

Lemma nohandle_sim i fuel sh o s hs st :
  related sh s hs st → client_step fuel o hs = mret (NoHandle, hs) →
  spec_step (cap sh) o s = (NoHandle, s) → simulates i fuel sh o s hs st.
Proof.
  intros Hrel Hc Hs. exists hs, st. rewrite Hc, Hs. cbn [fst snd].
  split_and!; [done|done|lia].
Qed.

Lemma drop_sender_sim i fuel sh s tx rx st :
  shared_ok sh → related sh s (Some tx, rx) st → pushed (chan s) < usize_max →
  simulates i fuel sh OpDropSender s (Some tx, rx) st.
Proof.
  intros Hok Hrel Hroom. pose proof Hrel as [[Htl Htx] Hrx Hrefs _ _]. simpl in Hrx.
  assert (1 ≤ refs (chan s)) as Href1 by (rewrite Hrefs, Htl; destruct (rx_live s); simpl; lia).
  destruct (drop_sim i sh s _ st Hok Hrel ltac:(auto) Href1 Hroom) as (st' & Hrun & Hpost).
  destruct Htx as (Hsh & _). exists (None, rx), st'. cbn [client_step spec_step].
  rewrite Htl. unfold Sender_drop. rewrite Hsh. cbn [fst snd]. split_and!.
  - by erewrite run_bind_Done by exact Hrun.
  - apply Hpost; [done|exact Hrx|]. rewrite Hrefs, Htl. simpl. lia.
  - unfold pushed. simpl. lia.
Qed.

Lemma drop_receiver_sim i fuel sh s tx rx st :
  shared_ok sh → related sh s (tx, Some rx) st → pushed (chan s) < usize_max →
  simulates i fuel sh OpDropReceiver s (tx, Some rx) st.
Proof.
  intros Hok Hrel Hroom. pose proof Hrel as [Htx [Hrl Hrx] Hrefs _ _]. simpl in Htx.
  assert (1 ≤ refs (chan s)) as Href1 by (rewrite Hrefs, Hrl; destruct (tx_live s); simpl; lia).
  destruct (drop_sim i sh s _ st Hok Hrel ltac:(auto) Href1 Hroom) as (st' & Hrun & Hpost).
  destruct Hrx as (Hsh & _). exists (tx, None), st'. cbn [client_step spec_step].
  rewrite Hrl. unfold Receiver_drop. rewrite Hsh. cbn [fst snd]. split_and!.
  - by erewrite run_bind_Done by exact Hrun.
  - apply Hpost; [exact Htx|done|]. rewrite Hrefs, Hrl. simpl. lia.
  - unfold pushed. simpl. lia.
Qed.

Lemma step_sim i fuel sh o s hs st :
  shared_ok sh → related sh s hs st → op_ok o → (Z.to_nat (cap sh) < fuel)%nat →
  pushed (chan s) < usize_max → simulates i fuel sh o s hs st.
Proof.
  intros Hok Hrel Hop Hfuel Hroom. destruct hs as [tx rx].
  destruct o as [v| |max| |], tx as [tx|], rx as [rx|];
    auto using try_send_sim, try_recv_sim, drain_sim, drop_sender_sim, drop_receiver_sim.
  all: pose proof Hrel as [Htx Hrx _ _ _]; cbn in Htx, Hrx.
  all: apply nohandle_sim; [done|done|]; cbn; rewrite ?Htx, ?Hrx; by destruct (tx_live s).
Qed.

Lemma run_sim i fuel sh ops : ∀ s hs st,
  shared_ok sh → related sh s hs st → Forall op_ok ops → (Z.to_nat (cap sh) < fuel)%nat →
  pushed (chan s) + Z.of_nat (length ops) ≤ usize_max →
  ∃ st', run i (client_run fuel ops hs) st = Done (spec_run (cap sh) ops s).1 st' ∧
         dropped st' = destroyed (spec_run (cap sh) ops s).2.
Proof.
  induction ops as [|o ops IH]; intros s hs st Hok Hrel Hops Hfuel Hroom.
  { exists st. split; [done|apply Hrel]. }
  apply Forall_cons in Hops as [Ho Hops]. cbn [length] in Hroom.
  destruct (step_sim i fuel sh o s hs st Hok Hrel Ho Hfuel ltac:(lia))
    as (hs' & st1 & Hrun & Hrel' & Hp).
  destruct (IH _ _ _ Hok Hrel' Hops Hfuel ltac:(lia)) as (st2 & Hrun2 & Hd).
  exists st2. cbn [client_run spec_run]. destruct (spec_step (cap sh) o s) as [ob s'].
  cbn [fst snd] in *. destruct (spec_run (cap sh) ops s') as [obs s2]. cbn [fst snd] in *.
  split; [|done]. erewrite run_bind_Done by exact Hrun. cbv beta iota.
  by erewrite run_bind_Done by exact Hrun2.
Qed.
End client.

(** C1. Refinement. A client that builds an SPSC channel of any power-of-two
    capacity and makes any sequence of [try_send], [try_recv], [drain] and
    drop calls on the two handles sees exactly what a bounded FIFO queue with
    two liveness bits prescribes (values in order, [Full] at [cap] items,
    remaining items before [Disconnected], the value handed back on every
    error, panicking [drain] callbacks included), and the values dropped with
    the block are exactly those still queued when the last handle goes. *)
Theorem spsc_refines_queue `{Target} {T} (cb : T → bool) (i : tid) (fuel : nat)
    (capacity : Z) (strat : WaitStrategy) (ops : list (op T)) :
  0 < capacity ≤ usize_max → is_power_of_two capacity = true →
  Forall op_ok ops → (Z.to_nat capacity < fuel)%nat → Z.of_nat (length ops) ≤ usize_max →
  ∃ st, run i (client cb fuel capacity strat ops) empty_state =
          Done (spec_run cb capacity ops spec_init).1 st ∧
        dropped st = destroyed (spec_run cb capacity ops spec_init).2.
Proof.
  intros Hcap Hpow Hops Hfuel Hlen.
  destruct (channel_run i capacity strat (empty_state (T := T)) Hcap Hpow)
    as (sh & tx & rx & st & Hrun & <- & _ & _ & _ & Hd & _ & _ & Hok & Hr & Htx & Hrx).
  unfold client. erewrite run_bind_Done by exact Hrun.
  apply (run_sim cb i fuel sh ops spec_init (Some tx, Some rx) st); auto.
  by split.
Qed.

(** A witness: capacity 2, a [Full], a panicking callback, both drops. *)
Lemma spsc_refines_queue_witness :
  ∃ st, run 0 (client (λ v, negb (v =? 3)) 8 2 Park
          [OpTrySend 1; OpTrySend 2; OpTrySend 3; OpTryRecv; OpTrySend 3; OpTrySend 4;
           OpDrain 5; OpTrySend 5; OpDropReceiver; OpTrySend 6; OpDropSender; OpTryRecv])
          (empty_state (T := Z)) =
        Done [ObsSend (Ok tt); ObsSend (Ok tt); ObsSend (Err (Full 3)); ObsRecv (Ok 1);
              ObsSend (Ok tt); ObsSend (Err (Full 4)); ObsDrain [2; 3] Unwound;
              ObsSend (Ok tt); ObsDropped; ObsSend (Err (SendDisconnected 6));
              ObsDropped; NoHandle] st ∧ dropped st = [5].
Proof.
  apply (spsc_refines_queue (λ v, negb (v =? 3)) 0 8 2 Park).
  - split; [lia|]. vm_compute. discriminate.
  - reflexivity.
  - repeat constructor; vm_compute; discriminate.
  - vm_compute. lia.
  - vm_compute. discriminate.
Defined.
