(* ===== verification/SpscBlocking.v ===== *)
(** The blocking calls of the SPSC ring when the other side is not running:
    they return as soon as they can, and otherwise wait as the channel's
    strategy says without touching the ring. *)
From S2P Require Import Prelude Usize Atomic Errors Wait Notify Ring Queue Spsc Seq NotifySeq WaitProps SpscSeq.
Local Open Scope Z_scope.

Section blocking.
Context `{Target} {T : Type} (sh : Shared) (Hok : shared_ok sh).
Implicit Types (st : seqst T) (c : Chan T) (i : tid).

(** Timing hints are invisible to the ring. *)
Lemma rep_hint p h st c : rep_at sh p st c → rep_at sh p (add_hint h st) c.
Proof. by intros []. Qed.

(** An attempt that finds the ring full changes nothing but the mirror. *)
Lemma try_send_full i st c s v :
  rep sh st c → sender_ok sh s c → closed c = false → Z.of_nat (length (items c)) = cap sh →
  ∃ s', run i (try_send s v) st = Done (s', Err (Full v)) st ∧ sender_ok sh s' c.
Proof using Hok.
  intros Hr (Hsh & Ht & k & Hk & Hkr & Hkw) Hopen Hfull. destruct s as [sh' t k']; simpl in *.
  subst sh' t k'. pose proof (rep_popped_le sh _ _ _ Hr).
  assert (Hlen : pushed c - popped c = cap sh) by (unfold pushed; lia).
  unfold try_send. cbn [s_shared s_tail cached_head].
  erewrite run_load_bool by apply (rep_disc _ _ _ _ Hr). rewrite Hopen.
  erewrite run_arith by (eapply (usize_sub_occupancy sh Hok); eauto).
  destruct (Z.eqb_spec (pushed c - k) (cap sh)) as [He|Hne]; [|exfalso; lia].
  rewrite run_assoc. erewrite run_load by apply (rep_head _ _ _ _ Hr).
  cbn [s_tail cached_head]. rewrite run_assoc.
  erewrite run_arith by (eapply (usize_sub_occupancy sh Hok); eauto; lia).
  rewrite run_ret. cbv beta iota. rewrite Hlen, Z.eqb_refl.
  eexists. split; [reflexivity|]. split_and!; [done..|]. exists (popped c). simpl. split_and!; [done|lia..].
Qed.

Lemma try_recv_empty i st c r :
  rep sh st c → receiver_ok sh r c → closed c = false → items c = [] →
  ∃ r', run i (try_recv r) st = Done (r', Err Empty) st ∧ receiver_ok sh r' c.
Proof using Hok.
  intros Hr (Hsh & Hh & k & Hk & Hkr) Hopen Hnil. destruct r as [sh' h k']; simpl in *. subst sh' h k'.
  assert (Hlen : pushed c = popped c) by (unfold pushed; rewrite Hnil; simpl; lia).
  unfold try_recv. cbn [r_shared r_head cached_tail].
  rewrite (mirror_eqb sh Hok _ _ _ _ Hr Hkr), (proj2 (Z.eqb_eq _ _)) by lia.
  rewrite run_assoc. erewrite run_load by apply (rep_tail _ _ _ _ Hr).
  cbn [r_head cached_tail]. rewrite (mirror_eqb sh Hok _ _ _ _ Hr), (proj2 (Z.eqb_eq _ _)) by lia.
  rewrite run_assoc. erewrite run_load_bool by apply (rep_disc _ _ _ _ Hr). rewrite Hopen.
  eexists. split; [reflexivity|]. split_and!; [done..|]. exists (pushed c). simpl. split_and!; [done|lia..].
Qed.

(** Waiting without [Park]: one hint per pass. *)
Lemma send_loop_waits i c v fuel : ∀ n st s ladder h0,
  strategy sh ≠ Park → rep sh st c → sender_ok sh s c → closed c = false →
  Z.of_nat (length (items c)) = cap sh →
  ladder_at (bool_decide (strategy sh = BackoffYield)) n ladder ∨ strategy sh = BusySpin →
  hints st = h0 ++ wait_hints (strategy sh) n →
  ∃ st', run i (send_loop fuel s v ladder) st = NoFuel st' ∧ rep sh st' c ∧
    hints st' = h0 ++ wait_hints (strategy sh) (n + fuel).
Proof using Hok.
  induction fuel as [|fuel IH]; intros n st s ladder h0 Hp Hr Hs Hopen Hfull Hl Hh.
  { exists st. by rewrite Nat.add_0_r. }
  destruct (try_send_full i st c s v Hr Hs Hopen Hfull) as (s' & Hrun & Hs').
  cbn [send_loop]. erewrite run_bind_Done by exact Hrun. cbv beta iota.
  destruct (wait_pass i (strategy sh) n ladder st (send_wait s' ladder) Hp Hl)
    as (ladder' & h & Hrun' & Hl' & Hstep).
  { unfold send_wait. destruct Hs' as [-> _]. by destruct (strategy sh). }
  erewrite run_bind_Done by exact Hrun'.
  destruct (IH (S n) (add_hint h st) s' ladder' h0) as (st' & Hrun2 & Hr' & Hh'); try done.
  - by apply rep_hint.
  - simpl. by rewrite Hh, Hstep, app_assoc.
  - exists st'. split_and!; [done|done|]. by replace (n + S fuel)%nat with (S n + fuel)%nat by lia.
Qed.

Lemma recv_loop_waits i c fuel : ∀ n st r ladder h0,
  strategy sh ≠ Park → rep sh st c → receiver_ok sh r c → closed c = false → items c = [] →
  ladder_at (bool_decide (strategy sh = BackoffYield)) n ladder ∨ strategy sh = BusySpin →
  hints st = h0 ++ wait_hints (strategy sh) n →
  ∃ st', run i (recv_loop fuel r ladder) st = NoFuel st' ∧ rep sh st' c ∧
    hints st' = h0 ++ wait_hints (strategy sh) (n + fuel).
Proof using Hok.
  induction fuel as [|fuel IH]; intros n st r ladder h0 Hp Hr Hrx Hopen Hnil Hl Hh.
  { exists st. by rewrite Nat.add_0_r. }
  destruct (try_recv_empty i st c r Hr Hrx Hopen Hnil) as (r' & Hrun & Hrx').
  cbn [recv_loop]. erewrite run_bind_Done by exact Hrun. cbv beta iota.
  destruct (wait_pass i (strategy sh) n ladder st (recv_wait r' ladder) Hp Hl)
    as (ladder' & h & Hrun' & Hl' & Hstep).
  { unfold recv_wait. destruct Hrx' as [-> _]. by destruct (strategy sh). }
  erewrite run_bind_Done by exact Hrun'.
  destruct (IH (S n) (add_hint h st) r' ladder' h0) as (st' & Hrun2 & Hr' & Hh'); try done.
  - by apply rep_hint.
  - simpl. by rewrite Hh, Hstep, app_assoc.
  - exists st'. split_and!; [done|done|]. by replace (n + S fuel)%nat with (S n + fuel)%nat by lia.
Qed.

(** Waiting under [Park]: registered, then asleep. *)
Lemma rep_prepared i s st c : rep sh st c → rep sh (prepared i (sh_ring sh) s st) c.
Proof using Type.
  intros Hr. eapply rep_park_frame; [|exact Hr]. etrans; [|by apply park_frame_set_flag].
  by apply park_frame_same.
Qed.

Lemma send_parks i st c s v fuel :
  strategy sh = Park → rep sh st c → sender_ok sh s c → closed c = false →
  Z.of_nat (length (items c)) = cap sh → i ∉ tokens st →
  run i (send (S fuel) s v) st = Blocked (prepared i (sh_ring sh) Producer st).
Proof using Hok.
  intros Hp Hr Hs Hopen Hfull Hi. destruct (try_send_full i st c s v Hr Hs Hopen Hfull) as (s' & Hrun & Hs').
  unfold send. cbn [send_loop]. erewrite run_bind_Done by exact Hrun. cbv beta iota.
  pose proof (rep_prepared i Producer st c Hr) as Hr'. set (st1 := prepared _ _ _ _) in *.
  destruct Hs' as (Hsh & Ht & _). unfold send_wait. rewrite Hsh, Hp, !run_assoc.
  erewrite run_bind_Done by (apply prepare_park_run; destruct (rep_parked _ _ _ _ Hr Producer) as [b ->]; by eexists).
  fold st1. rewrite !run_assoc, run_fence, !run_assoc. erewrite run_load by apply (rep_head _ _ _ _ Hr').
  rewrite !run_assoc, Ht. pose proof (rep_popped_le sh _ _ _ Hr).
  erewrite run_arith.
  2: { eapply (usize_sub_occupancy sh Hok); [exact Hr'|lia|]. unfold pushed. lia. }
  assert (Hlen : pushed c - popped c = cap sh) by (unfold pushed; lia).
  rewrite (proj2 (Z.ltb_ge _ _)) by lia. rewrite !run_assoc.
  erewrite run_load_bool by apply (rep_disc _ _ _ _ Hr'). rewrite Hopen. cbv iota.
  unfold Parker_park. rewrite !run_assoc. by apply run_park_blocked.
Qed.

Lemma recv_parks i st c r fuel :
  strategy sh = Park → rep sh st c → receiver_ok sh r c → closed c = false → items c = [] →
  i ∉ tokens st →
  run i (recv (S fuel) r) st = Blocked (prepared i (sh_ring sh) Consumer st).
Proof using Hok.
  intros Hp Hr Hrx Hopen Hnil Hi. destruct (try_recv_empty i st c r Hr Hrx Hopen Hnil) as (r' & Hrun & Hrx').
  unfold recv. cbn [recv_loop]. erewrite run_bind_Done by exact Hrun. cbv beta iota.
  pose proof (rep_prepared i Consumer st c Hr) as Hr'. set (st1 := prepared _ _ _ _) in *.
  destruct Hrx' as (Hsh & Hh & _). unfold recv_wait. rewrite Hsh, Hp, !run_assoc.
  erewrite run_bind_Done by (apply prepare_park_run; destruct (rep_parked _ _ _ _ Hr Consumer) as [b ->]; by eexists).
  fold st1. rewrite !run_assoc, run_fence, !run_assoc. erewrite run_load by apply (rep_tail _ _ _ _ Hr').
  assert (Hlen : pushed c = popped c) by (unfold pushed; rewrite Hnil; simpl; lia).
  rewrite Hh, Hlen, Z.eqb_refl. cbn [negb]. rewrite !run_assoc.
  erewrite run_load_bool by apply (rep_disc _ _ _ _ Hr'). rewrite Hopen. cbv iota.
  unfold Parker_park. rewrite !run_assoc. by apply run_park_blocked.
Qed.

(** C29. A blocking call that need not wait does not: with room in the ring,
    or the receiver gone, [send] returns on its first attempt, and so does
    [recv] with a value in the ring or the sender gone; the results are those
    of the bounded queue, the rejected value handed back. *)
Theorem spsc_blocking_returns i st c s r v fuel :
  rep sh st c → sender_ok sh s c → receiver_ok sh r c → room c →
  (closed c = true ∨ Z.of_nat (length (items c)) ≠ cap sh →
   ∃ s' st', run i (send (S fuel) s v) st =
       Done (s', if closed c then Err (SendErr v) else Ok tt) st' ∧
     rep sh st' (spec_try_send (cap sh) c v).2 ∧ sender_ok sh s' (spec_try_send (cap sh) c v).2) ∧
  (closed c = true ∨ items c ≠ [] →
   ∃ r' st', run i (recv (S fuel) r) st =
       Done (r', match items c with v :: _ => Ok v | [] => Err RecvErr end) st' ∧
     rep sh st' (spec_try_recv c).2 ∧ receiver_ok sh r' (spec_try_recv c).2).
Proof using Hok.
  intros Hr Hs Hrx Hroom. split; intros Hgo.
  - destruct (try_send_run sh Hok i st c s v Hr Hs Hroom) as (s' & (st' & Hrun & Hr' & _) & Hs').
    exists s', st'. unfold send. cbn [send_loop]. erewrite run_bind_Done by exact Hrun. cbv beta iota.
    split; [|done]. unfold spec_try_send in *. destruct (closed c); [done|].
    destruct (Z.eqb_spec (Z.of_nat (length (items c))) (cap sh)); [by destruct Hgo|done].
  - destruct (try_recv_run sh Hok i st c r Hr Hrx) as (r' & (st' & Hrun & Hr' & _) & Hrx').
    exists r', st'. unfold recv. cbn [recv_loop]. erewrite run_bind_Done by exact Hrun. cbv beta iota.
    split; [|done]. unfold spec_try_recv in *. destruct (items c); [|done].
    destruct (closed c); [done|by destruct Hgo].
Qed.

(** C30. A blocking call that must wait waits as the strategy says. On a full
    ring [send], and on an empty ring [recv], under [Park] registers its
    thread and sleeps; under the self-waking strategies every pass of the loop
    issues exactly the next hint of the strategy. In all cases the ring and
    its values are as before. *)
Theorem spsc_blocking_waits i st c s r v fuel :
  rep sh st c → sender_ok sh s c → receiver_ok sh r c → closed c = false → i ∉ tokens st →
  let waits A (p : nat → prog T A) side :=
    if decide (strategy sh = Park) then
      run i (p (S fuel)) st = Blocked (prepared i (sh_ring sh) side st) ∧
      rep sh (prepared i (sh_ring sh) side st) c
    else ∃ st', run i (p fuel) st = NoFuel st' ∧ rep sh st' c ∧
      hints st' = hints st ++ wait_hints (strategy sh) fuel in
  (Z.of_nat (length (items c)) = cap sh → waits _ (λ n, send n s v) Producer) ∧
  (items c = [] → waits _ (λ n, recv n r) Consumer).
Proof using Hok.
  intros Hr Hs Hrx Hopen Hi waits. unfold waits. clear waits.
  destruct (decide (strategy sh = Park)) as [Hp|Hp].
  { split; intros Hc; (split; [|by apply rep_prepared]); [by apply (send_parks _ _ c)|by apply (recv_parks _ _ c)]. }
  assert (Hl : ladder_at (bool_decide (strategy sh = BackoffYield)) 0 (for_strategy (strategy sh)))
    by apply ladder_start.
  split; intros Hc.
  - unfold send. rewrite (proj1 Hs).
    destruct (send_loop_waits i c v fuel 0 st s _ (hints st) Hp Hr Hs Hopen Hc (or_introl Hl))
      as (st' & Hrun & Hr' & Hh); [|by exists st'].
    destruct (strategy sh); simpl; by rewrite ?app_nil_r.
  - unfold recv. rewrite (proj1 Hrx).
    destruct (recv_loop_waits i c fuel 0 st r _ (hints st) Hp Hr Hrx Hopen Hc (or_introl Hl))
      as (st' & Hrun & Hr' & Hh); [|by exists st'].
    destruct (strategy sh); simpl; by rewrite ?app_nil_r.
Qed.
End blocking.

Lemma spsc_blocking_returns_witness :
  ∃ (s s' : Sender) (st st' : seqst Z), run 0 (send 1 s 7) st = Done (s', Ok tt) st'.
Proof.
  destruct (channel_run 0 2 Park (empty_state (T := Z))) as (sh & s & r & st & _ & _ & _ & _ & _ & _ & _ & _ & Hok & Hr & Hs & Hrx);
    [split; vm_compute; (reflexivity || discriminate)|reflexivity|].
  destruct (spsc_blocking_returns sh Hok 0 st new_chan s r 7 0 Hr Hs Hrx) as [Hsend _].
  { intros Hck. vm_compute. reflexivity. }
  destruct Hsend as (s' & st' & Hrun & _); [|by exists s, s', st, st'].
  right. pose proof (cap_pos Hok). simpl. lia.
Defined.

Lemma channel_no_token a st :
  run 0 (channel 2 Backoff) (empty_state (T := Z)) = Done a st → tokens st = ∅.
Proof.
  intros Hrun. assert (match run 0 (channel 2 Backoff) (empty_state (T := Z)) with
                       | Done _ st => tokens st = ∅ | _ => True end) as Hv by (vm_compute; reflexivity).
  by rewrite Hrun in Hv.
Qed.

Lemma spsc_blocking_waits_witness :
  ∃ (r : Receiver) (st st' : seqst Z), run 0 (recv 32 r) st = NoFuel st' ∧
    hints st' = hints st ++ replicate 10 SpinLoop ++ replicate 20 YieldNow ++
                  [ParkTimeout 64000; ParkTimeout 128000].
Proof.
  destruct (channel_run 0 2 Backoff (empty_state (T := Z)))
    as (sh & s & r & st & Hrun & _ & Hst & _ & _ & _ & _ & _ & Hok & Hr & Hs & Hrx);
    [split; vm_compute; (reflexivity || discriminate)|reflexivity|].
  assert (Htok : 0%nat ∉ tokens st).
  { rewrite (channel_no_token _ _ Hrun). set_solver. }
  destruct (spsc_blocking_waits sh Hok 0 st new_chan s r 7 32 Hr Hs Hrx eq_refl Htok) as [_ Hrecv].
  rewrite Hst in Hrecv. destruct (Hrecv eq_refl) as (st' & Hrun' & _ & Hh).
  exists r, st, st'. split; [exact Hrun'|]. rewrite Hh. done.
Defined.
