(* ===== verification/ShardedSeq.v ===== *)
(** Sequential correctness of the sharded channel: its abstract state is one
    bounded queue per producer with a cursor and a visit budget; every
    operation refines its counterpart on the queues. *)
From S2P Require Import Prelude Usize Atomic Errors Wait Notify Ring Queue Spsc Seq NotifySeq SpscSeq.
From S2P Require Sharded.
Local Open Scope Z_scope.

(** ** The abstract channel *)

Section spec.
Context {T : Type}.
Implicit Types (c : Chan T) (cs : list (Chan T)).

(** [advance]: the next shard, with a fresh budget. *)
Definition next_cursor (n : nat) (cur : nat) : nat := if decide (S cur = n) then 0%nat else S cur.

Definition disc_count (e : TryRecvError) : Z :=
  match e with RecvDisconnected => 1 | Empty => 0 end.

(** The sweep of [try_recv]: visit [n] shards from the cursor, stop at the
    first value; otherwise count the disconnected shards. *)
Fixpoint spec_sweep (n : nat) cs (cur : nat) (bud dis : Z) : list (Chan T) * nat * Z * (T + Z) :=
  match n, cs !! cur with
  | S n, Some c =>
      match spec_try_recv c with
      | (Ok v, c) => (<[cur := c]> cs, cur, bud + 1, inl v)
      | (Err e, c) =>
          spec_sweep n (<[cur := c]> cs) (next_cursor (length cs) cur) 0
            (dis + disc_count e)
      end
  | _, _ => (cs, cur, bud, inr dis)
  end.

Definition spec_start (n cur : nat) (bud : Z) : nat * Z :=
  if bud >=? Sharded.VISIT_BUDGET then (next_cursor n cur, 0) else (cur, bud).

Definition spec_shard_recv cs (cur : nat) (bud : Z) :
    list (Chan T) * nat * Z * result T TryRecvError :=
  let '(cur, bud) := spec_start (length cs) cur bud in
  let '(cs', cur, bud, r) := spec_sweep (length cs) cs cur bud 0 in
  (cs', cur, bud,
   match r with
   | inl v => Ok v
   | inr dis => Err (if dis =? Z.of_nat (length cs) then RecvDisconnected else Empty)
   end).

(** The sweep of [drain]. *)
Fixpoint spec_drain_sweep {S : Type} (n : nat) cs (cur : nat) (bud max : Z)
    (f : S → T → S * bool) (env : S) (count : Z) : list (Chan T) * nat * Z * S * exit :=
  match n, cs !! cur with
  | Datatypes.S n, Some c =>
      if count >=? max then (cs, cur, bud, env, Returned count) else
      let want := max - count in
      match spec_drain want f env c with
      | (env, Unwound, c) => (<[cur := c]> cs, cur, bud, env, Unwound)
      | (env, Returned took, c) =>
          if took =? want then (<[cur := c]> cs, cur, bud, env, Returned (count + took))
          else spec_drain_sweep n (<[cur := c]> cs) (next_cursor (length cs) cur) 0 max f env
                 (count + took)
      end
  | _, _ => (cs, cur, bud, env, Returned count)
  end.
End spec.

(** ** Representation *)

Section refinement.
Context `{tgt : Target} {T : Type}.
Implicit Types (st : seqst T) (c : Chan T) (cs : list (Chan T)) (shs : list Shared) (i : tid).

(** [st'] agrees with [st] on ring [r]. *)
Definition same_ring (r : nat) st st' : Prop :=
  ∀ l, ring l = r → atoms st' !! l = atoms st !! l ∧ cells st' !! l = cells st !! l.

Lemma same_ring_frame r r' st st' : frame r st st' → r' ≠ r → same_ring r' st st'.
Proof. intros Hf Hne l <-. by rewrite (frame_atoms _ _ _ Hf), (frame_cells _ _ _ Hf). Qed.

Lemma same_ring_trans r st1 st2 st3 : same_ring r st1 st2 → same_ring r st2 st3 → same_ring r st1 st3.
Proof. intros H1 H2 l Hl. destruct (H1 l Hl) as [<- <-]. by apply H2. Qed.

(** A ring's representation does not depend on the other rings. *)
Lemma rep_same_ring (sh : Shared) p st st' c :
  same_ring (sh_ring sh) st st' → rep_at sh p st c → rep_at sh p st' c.
Proof.
  intros Hf.
  assert (Ha : ∀ l, ring l = sh_ring sh → atoms st' !! l = atoms st !! l) by (intros; by apply Hf).
  assert (Hc : ∀ l, ring l = sh_ring sh → cells st' !! l = cells st !! l) by (intros; by apply Hf).
  intros []. split; auto.
  all: try (by rewrite Ha).
  - intros s. rewrite Ha by done. auto.
  - intros j v Hj. rewrite Hc by done. auto.
  - intros n Hn. rewrite Hc by done. auto.
Qed.

(** The rings of the shards, each holding its queue in the store. *)
Record shards_rep (per_shard : Z) shs st cs : Prop := {
  sr_len : length cs = length shs;
  sr_few : Z.of_nat (length shs) ≤ usize_max;
  sr_rings : NoDup (sh_ring <$> shs);
  sr_shard j sh c : shs !! j = Some sh → cs !! j = Some c →
    shared_ok sh ∧ cap sh = per_shard ∧ (refs c ≠ 0 → rep sh st c);
}.

Definition receivers_ok shs (rxs : list Receiver) cs : Prop :=
  length rxs = length shs ∧
  ∀ j sh rx c, shs !! j = Some sh → rxs !! j = Some rx → cs !! j = Some c → receiver_ok sh rx c.

Lemma shards_update per shs st st' cs j sh c :
  shards_rep per shs st cs → shs !! j = Some sh → frame (sh_ring sh) st st' →
  (refs c ≠ 0 → rep sh st' c) → shards_rep per shs st' (<[j := c]> cs).
Proof.
  intros [Hlen Hfew Hnd Hsh] Hj Hf Hr. split; [by rewrite length_insert|done..|].
  intros k sh' c' Hk Hc'. destruct (decide (j = k)) as [<-|Hne].
  - rewrite Hj in Hk. injection Hk as <-.
    assert (j < length cs)%nat by (rewrite Hlen; by eapply lookup_lt_Some).
    rewrite list_lookup_insert_eq in Hc' by done. injection Hc' as <-.
    destruct (lookup_lt_is_Some_2 cs j) as [c0 Hc0]; [done|].
    destruct (Hsh _ _ _ Hj Hc0) as (? & ? & _). done.
  - rewrite list_lookup_insert_ne in Hc' by done. destruct (Hsh _ _ _ Hk Hc') as (? & ? & Hrep).
    split_and!; [done..|]. intros Hne0. eapply rep_same_ring; [|by apply Hrep].
    eapply same_ring_frame; [exact Hf|]. intros Heq. apply Hne. eapply NoDup_lookup; [exact Hnd|..]; rewrite list_lookup_fmap.
    + by rewrite Hj.
    + rewrite Hk. simpl. by rewrite Heq.
Qed.

Lemma receivers_update shs rxs cs j sh rx c :
  receivers_ok shs rxs cs → shs !! j = Some sh → receiver_ok sh rx c →
  receivers_ok shs (<[j := rx]> rxs) (<[j := c]> cs).
Proof.
  intros [Hlen Hrx] Hj Hok. split; [by rewrite length_insert|].
  intros k sh' rx' c' Hk Hrk Hck. destruct (decide (j = k)) as [<-|Hne].
  - apply list_lookup_insert_Some in Hrk as [(_ & <- & _)|[? _]]; [|done].
    apply list_lookup_insert_Some in Hck as [(_ & <- & _)|[? _]]; [|done]. congruence.
  - rewrite list_lookup_insert_ne in Hrk by done. rewrite list_lookup_insert_ne in Hck by done. eauto.
Qed.

(** The receiver handle: one ring handle per shard, cursor and budget. *)
Record sharded_rx shs (self : Sharded.Receiver) cs (cur : nat) (bud : Z) : Prop := {
  sx_shards : receivers_ok shs (Sharded.shards self) cs;
  sx_cursor : Sharded.cursor self = Z.of_nat cur;
  sx_cur : (cur < length shs)%nat;
  sx_budget : Sharded.budget self = bud;
  sx_bud : 0 ≤ bud ≤ Sharded.VISIT_BUDGET;
}.

Lemma next_cursor_lt n cur : (cur < n)%nat → (next_cursor n cur < n)%nat.
Proof. unfold next_cursor. case_decide; lia. Qed.

Lemma advance_run i shs self cs cur bud st :
  Z.of_nat (length shs) ≤ usize_max → sharded_rx shs self cs cur bud →
  ∃ self', (∀ A (f : Sharded.Receiver → prog T A),
      run i (Sharded.advance self ≫= f) st = run i (f self') st) ∧
    sharded_rx shs self' cs (next_cursor (length shs) cur) 0 ∧
    Sharded.strategy self' = Sharded.strategy self.
Proof.
  intros Hfew [Hs Hc Hlt Hb Hb2]. eexists. split.
  { intros A f. unfold Sharded.advance. rewrite run_assoc. erewrite run_arith; [apply run_ret|].
    apply checked_in_range. unfold is_usize, usize_max in *. lia. }
  split; [|done].
  unfold Sharded.shards_len. rewrite (proj1 Hs). split; simpl; [exact Hs| |by apply next_cursor_lt|done|].
  - unfold next_cursor. rewrite Hc. case_bool; case_decide; lia.
  - unfold Sharded.VISIT_BUDGET. lia.
Qed.

Lemma shard_at_run {A} i shs self cs cur bud (f : nat * Receiver → prog T A) st rx :
  sharded_rx shs self cs cur bud → Sharded.shards self !! cur = Some rx →
  run i (Sharded.shard_at_cursor self ≫= f) st = run i (f (cur, rx)) st.
Proof.
  intros [Hs Hc Hlt Hb Hb2] Hrx. unfold Sharded.shard_at_cursor. rewrite run_assoc.
  unfold index, Sharded.shards_len. rewrite Hc, (proj1 Hs).
  replace ((0 <=? Z.of_nat cur) && (Z.of_nat cur <? Z.of_nat (length shs))) with true by lia.
  rewrite Nat2Z.id. cbv beta. rewrite run_Ret, Hrx. done.
Qed.

(** One operation on the ring under the cursor. *)
Lemma shard_step per shs st st' self cs cur bud sh rx' c :
  shards_rep per shs st cs → sharded_rx shs self cs cur bud → shs !! cur = Some sh →
  frame (sh_ring sh) st st' → (refs c ≠ 0 → rep sh st' c) → receiver_ok sh rx' c →
  shards_rep per shs st' (<[cur := c]> cs) ∧
  sharded_rx shs (Sharded.set_shard self cur rx') (<[cur := c]> cs) cur bud.
Proof.
  intros Hr Hx Hj Hf Hrep Hrx. split; [by eapply shards_update|].
  destruct Hx. split; simpl; try done. by eapply receivers_update.
Qed.

Definition live cs : Prop := ∀ j c, cs !! j = Some c → refs c ≠ 0.

Lemma live_insert cs j c : live cs → refs c ≠ 0 → live (<[j := c]> cs).
Proof.
  intros Hl Hc k c' [(_ & <- & _)|[_ Hk]]%list_lookup_insert_Some; [done|by eapply Hl].
Qed.

(** The shard under the cursor. *)
Lemma at_cursor per shs st self cs cur bud :
  shards_rep per shs st cs → sharded_rx shs self cs cur bud → live cs →
  ∃ sh rx c, shs !! cur = Some sh ∧ Sharded.shards self !! cur = Some rx ∧ cs !! cur = Some c ∧
    shared_ok sh ∧ cap sh = per ∧ rep sh st c ∧ receiver_ok sh rx c.
Proof.
  intros Hr Hx Hl. pose proof (sx_cur _ _ _ _ _ Hx) as Hlt.
  destruct (lookup_lt_is_Some_2 shs cur Hlt) as [sh Hsh].
  destruct (lookup_lt_is_Some_2 cs cur) as [c Hc]; [by rewrite (sr_len _ _ _ _ Hr)|].
  destruct (sx_shards _ _ _ _ _ Hx) as [Hlen Hrxs].
  destruct (lookup_lt_is_Some_2 (Sharded.shards self) cur) as [rx Hrx]; [by rewrite Hlen|].
  destruct (sr_shard _ _ _ _ Hr _ _ _ Hsh Hc) as (? & ? & Hrep).
  exists sh, rx, c. split_and!; try done; [apply Hrep; by eapply Hl|by eapply Hrxs].
Qed.

Lemma spec_try_recv_refs c : refs (spec_try_recv c).2 = refs c.
Proof. unfold spec_try_recv. by destruct (items c). Qed.

Lemma sweep_run i per shs n : ∀ st self cs cur bud dis,
  shards_rep per shs st cs → sharded_rx shs self cs cur bud → live cs →
  bud < Sharded.VISIT_BUDGET → 0 ≤ dis → dis + Z.of_nat n ≤ usize_max →
  ∃ self' st', let '(cs', cur', bud', r) := spec_sweep n cs cur bud dis in
    run i (Sharded.sweep n self dis) st = Done (self', r) st' ∧
    shards_rep per shs st' cs' ∧ sharded_rx shs self' cs' cur' bud' ∧ live cs' ∧
    Sharded.strategy self' = Sharded.strategy self ∧ dropped st' = dropped st.
Proof.
  induction n as [|n IH]; intros st self cs cur bud dis Hr Hx Hl Hbud Hd Hdn.
  { exists self, st. simpl. done. }
  destruct (at_cursor _ _ _ _ _ _ _ Hr Hx Hl) as (sh & rx & c & Hsh & Hrx & Hc & Hok & Hcap & Hrep & Hrok).
  cbn [spec_sweep Sharded.sweep]. rewrite Hc.
  erewrite (shard_at_run i shs) by done. cbv beta iota.
  destruct (try_recv_run sh Hok i st c rx Hrep Hrok) as (rx' & (st1 & Hrun & Hrep1 & Hf & Hdr) & Hrok').
  pose proof (spec_try_recv_refs c) as Hrefs. pose proof (Hl _ _ Hc) as Hlc.
  destruct (spec_try_recv c) as [r c'] eqn:Hspec. cbn [fst snd] in *.
  erewrite run_bind_Done by exact Hrun. cbv beta iota zeta.
  destruct (shard_step _ _ _ _ _ _ _ _ _ _ c' Hr Hx Hsh Hf (λ _, Hrep1) Hrok') as [Hr1 Hx1].
  assert (Hl1 : live (<[cur := c']> cs)) by (apply live_insert; [done|congruence]).
  destruct r as [v|e].
  - unfold usize_add. erewrite run_arith.
    2: { apply checked_in_range. cbn. rewrite (sx_budget _ _ _ _ _ Hx). pose proof (sx_bud _ _ _ _ _ Hx).
         unfold is_usize, Sharded.VISIT_BUDGET in *. pose proof usize_modulus_ge. lia. }
    cbv beta. rewrite run_mret. eexists _, _. split; [reflexivity|]. split_and!; try done.
    destruct Hx1. split; simpl in *; try done; lia.
  - assert (Hdis : ∀ (k : Z → prog T (Sharded.Receiver * (T + Z))),
      run i ((match e with RecvDisconnected => arith (usize_add dis 1) | Empty => mret dis end) ≫= k) st1 =
      run i (k (dis + disc_count e)) st1).
    { intros k. destruct e; [by rewrite run_ret, Z.add_0_r|]. unfold usize_add. erewrite run_arith; [done|]. simpl.
      apply checked_in_range. unfold is_usize, usize_max in *. lia. }
    rewrite Hdis. pose proof (sr_few _ _ _ _ Hr) as Hfew.
    destruct (advance_run i shs _ _ _ _ st1 Hfew Hx1) as (self2 & Hrun2 & Hx2 & Hst2). rewrite Hrun2.
    destruct (IH st1 self2 _ _ 0 (dis + disc_count e) Hr1 Hx2 Hl1)
      as (self3 & st3 & Hpost); [done|destruct e; simpl; lia..|].
    exists self3, st3. rewrite (sr_len _ _ _ _ Hr).
    destruct (spec_sweep n _ _ _ _) as [[[cs' cur'] bud'] r'].
    destruct Hpost as (? & ? & ? & ? & ? & ?). split_and!; try done; [rewrite H3; exact Hst2|congruence].
Qed.

Lemma shard_recv_run i per shs st self cs cur bud :
  shards_rep per shs st cs → sharded_rx shs self cs cur bud → live cs →
  ∃ self' st', let '(cs', cur', bud', r) := spec_shard_recv cs cur bud in
    run i (Sharded.try_recv self) st = Done (self', r) st' ∧
    shards_rep per shs st' cs' ∧ sharded_rx shs self' cs' cur' bud' ∧ live cs' ∧
    Sharded.strategy self' = Sharded.strategy self ∧ dropped st' = dropped st.
Proof.
  intros Hr Hx Hl. pose proof (sr_few _ _ _ _ Hr) as Hfew.
  assert (Hstart : ∃ self1, (∀ A (k : Sharded.Receiver → prog T A),
    run i ((if Sharded.budget self >=? Sharded.VISIT_BUDGET then Sharded.advance self else mret self) ≫= k) st =
      run i (k self1) st) ∧
    sharded_rx shs self1 cs (spec_start (length cs) cur bud).1 (spec_start (length cs) cur bud).2 ∧
    (spec_start (length cs) cur bud).2 < Sharded.VISIT_BUDGET ∧
    Sharded.strategy self1 = Sharded.strategy self).
  { unfold spec_start. rewrite (sx_budget _ _ _ _ _ Hx), (sr_len _ _ _ _ Hr), Z.geb_leb.
    destruct (Z.leb_spec Sharded.VISIT_BUDGET bud).
    - destruct (advance_run i shs self cs cur bud st Hfew Hx) as (self1 & ? & ? & ?). by exists self1.
    - exists self. by split_and!. }
  destruct Hstart as (self1 & Hrun1 & Hx1 & Hb1 & Hst1).
  unfold Sharded.try_recv. rewrite Hrun1. cbv zeta.
  pose proof (proj1 (sx_shards _ _ _ _ _ Hx1)) as Hlen1. unfold Sharded.shards_len.
  unfold spec_shard_recv. destruct (spec_start (length cs) cur bud) as [cur1 bud1]. cbn [fst snd] in *.
  destruct (sweep_run i per shs (length cs) st self1 cs cur1 bud1 0 Hr Hx1 Hl Hb1)
    as (self2 & st2 & Hpost); [lia|rewrite (sr_len _ _ _ _ Hr); lia|].
  rewrite Hlen1, <-(sr_len _ _ _ _ Hr). exists self2, st2.
  destruct (spec_sweep _ _ _ _ _) as [[[cs' cur'] bud'] r'].
  destruct Hpost as (Hrun & ? & ? & ? & ? & ?). split_and!; try done; [|congruence].
  erewrite run_bind_Done by exact Hrun. cbv beta iota.
  destruct r' as [v|dis]; [done|]. by case_bool.
Qed.

Lemma spec_drain_refs {S} max (f : S → T → S * bool) env c :
  refs (spec_drain max f env c).2 = refs c.
Proof. unfold spec_drain. by destruct (spec_drain_items _ _ _ _ _) as [[??]?]. Qed.

Lemma spec_drain_took {S} max (f : S → T → S * bool) env c took :
  0 ≤ max → (spec_drain max f env c).1.2 = Returned took → 0 ≤ took ≤ max.
Proof.
  unfold spec_drain. intros Hm Ht. pose proof (spec_drain_items_count max f env 0 (items c) took) as Hc.
  destruct (spec_drain_items_suffix max f env 0 (items c)) as [k Hk].
  destruct (spec_drain_items _ _ _ _ _) as [[env' e] q]. cbn [fst snd] in *.
  destruct (Hc Ht) as [-> Hle]. rewrite Hk, length_app in *. lia.
Qed.

Lemma drain_sweep_run {S} (f : S → T → S * bool) i per shs fuel max n :
  is_usize max → (Z.to_nat per < fuel)%nat →
  ∀ st self cs cur bud env count,
  shards_rep per shs st cs → sharded_rx shs self cs cur bud → live cs → 0 ≤ count ≤ max →
  ∃ self' st', let '(cs', cur', bud', env', e) := spec_drain_sweep n cs cur bud max f env count in
    run i (Sharded.drain_sweep fuel n self max f env count) st = Done (self', env', e) st' ∧
    shards_rep per shs st' cs' ∧ sharded_rx shs self' cs' cur' bud' ∧ live cs' ∧
    Sharded.strategy self' = Sharded.strategy self ∧ dropped st' = dropped st.
Proof.
  intros Hmax Hfuel. induction n as [|n IH]; intros st self cs cur bud env count Hr Hx Hl Hcnt.
  { exists self, st. simpl. done. }
  destruct (at_cursor _ _ _ _ _ _ _ Hr Hx Hl) as (sh & rx & c & Hsh & Hrx & Hc & Hok & Hcap & Hrep & Hrok).
  cbn [spec_drain_sweep Sharded.drain_sweep]. rewrite Hc, Z.geb_leb.
  destruct (Z.leb_spec max count); [by exists self, st|].
  erewrite run_arith by (apply checked_in_range; unfold is_usize in *; lia). cbv beta.
  erewrite (shard_at_run i shs) by done. cbv beta iota.
  assert (Hwant : is_usize (max - count)) by (unfold is_usize in *; lia).
  destruct (drain_run sh Hok f i st c rx (max - count) env fuel Hrep Hrok Hwant)
    as (rx' & (st1 & Hrun & Hrep1 & Hf & Hdr) & Hrok').
  { pose proof (rep_bound _ _ _ _ Hrep). subst per. lia. }
  pose proof (spec_drain_refs (max - count) f env c) as Hrefs. pose proof (Hl _ _ Hc) as Hlc.
  pose proof (spec_drain_took (max - count) f env c) as Htook.
  destruct (spec_drain (max - count) f env c) as [[env1 e] c'] eqn:Hspec. cbn [fst snd] in *.
  erewrite run_bind_Done by exact Hrun. cbv beta iota zeta.
  destruct (shard_step _ _ _ _ _ _ _ _ _ _ c' Hr Hx Hsh Hf (λ _, Hrep1) Hrok') as [Hr1 Hx1].
  assert (Hl1 : live (<[cur := c']> cs)) by (apply live_insert; [done|congruence]).
  destruct e as [took|]; [|by exists (Sharded.set_shard self cur rx'), st1].
  destruct (Htook took ltac:(lia) eq_refl) as [Ht0 Ht1].
  erewrite run_arith by (apply checked_in_range; unfold is_usize in *; lia). cbv beta.
  destruct (Z.eqb_spec took (max - count)); [by exists (Sharded.set_shard self cur rx'), st1|].
  pose proof (sr_few _ _ _ _ Hr) as Hfew.
  destruct (advance_run i shs _ _ _ _ st1 Hfew Hx1) as (self2 & Hrun2 & Hx2 & Hst2). rewrite Hrun2.
  destruct (IH st1 self2 _ _ 0 env1 (count + took) Hr1 Hx2 Hl1) as (self3 & st3 & Hpost); [lia|].
  exists self3, st3. rewrite (sr_len _ _ _ _ Hr).
  destruct (spec_drain_sweep n _ _ _ _ _ _ _) as [[[[cs' cur'] bud'] env'] e'].
  destruct Hpost as (? & ? & ? & ? & Hst3 & ?).
  split_and!; try done; [rewrite Hst3; exact Hst2|congruence].
Qed.

(** ** The receiver's drop: the rings' handles in order *)

Fixpoint spec_drop_shards cs : list (Chan T) * list T :=
  match cs with
  | [] => ([], [])
  | c :: cs =>
      let '(cs', d) := spec_drop_shards cs in
      (MkChan (popped c) (items c) true (refs c - 1) :: cs',
       (if refs c =? 1 then items c else []) ++ d)
  end.

Lemma shards_cons per sh shs st c cs :
  shards_rep per (sh :: shs) st (c :: cs) ↔
  (shared_ok sh ∧ cap sh = per ∧ (refs c ≠ 0 → rep sh st c)) ∧
  (sh_ring sh ∉ sh_ring <$> shs) ∧ Z.of_nat (length (sh :: shs)) ≤ usize_max ∧
  shards_rep per shs st cs.
Proof.
  split.
  - intros [Hlen Hfew Hnd Hsh]. simpl in *. apply list.NoDup_cons in Hnd as [Hni Hnd].
    split_and!; [by eapply (Hsh 0%nat)..|done|lia|].
    split; [lia|lia|done|]. intros j. apply (Hsh (S j)).
  - intros (H0 & Hni & Hfew & [Hlen _ Hnd Hsh]). split; simpl in *; [lia|lia|by apply list.NoDup_cons|].
    intros [|j] sh' c' Hj Hc; simplify_eq/=; [done|by eapply Hsh].
Qed.

Lemma shards_same per shs st st' cs :
  shards_rep per shs st cs → (∀ r, r ∈ sh_ring <$> shs → same_ring r st st') →
  shards_rep per shs st' cs.
Proof.
  intros [Hlen Hfew Hnd Hsh] Hsame. split; [done..|]. intros j sh c Hj Hc.
  destruct (Hsh _ _ _ Hj Hc) as (? & ? & Hr). split_and!; [done..|]. intros Hl.
  eapply rep_same_ring; [|by apply Hr]. apply Hsame. apply list_elem_of_fmap.
  exists sh. split; [done|]. by eapply list_elem_of_lookup_2.
Qed.

Lemma drop_shards_run i per : ∀ rxs shs cs st,
  shards_rep per shs st cs → receivers_ok shs rxs cs →
  (∀ j c, cs !! j = Some c → 1 ≤ refs c ∧ pushed c ≤ usize_max) →
  ∃ st', run i (Sharded.drop_shards rxs) st = Done tt st' ∧
    shards_rep per shs st' (spec_drop_shards cs).1 ∧
    dropped st' = dropped st ++ (spec_drop_shards cs).2 ∧ next_ring st' = next_ring st ∧
    ∀ r, r ∉ sh_ring <$> shs → same_ring r st st'.
Proof.
  induction rxs as [|rx rxs IH]; intros shs cs st Hr [Hlen Hrx] Hrefs.
  { destruct shs; [|done]. destruct cs; [|by pose proof (sr_len _ _ _ _ Hr)].
    exists st. cbn. rewrite app_nil_r. by split_and!. }
  destruct shs as [|sh shs]; [done|]. destruct cs as [|c cs]; [by pose proof (sr_len _ _ _ _ Hr)|].
  apply shards_cons in Hr as ((Hok & Hcap & Hrep) & Hni & Hfew & Hr).
  destruct (Hrefs 0%nat c eq_refl) as [Hc1 Hc2]. specialize (Hrep ltac:(lia)).
  destruct (Hrx 0%nat sh rx c eq_refl eq_refl eq_refl) as (Hsh & _).
  destruct (handle_drop_run sh Hok i st c Hrep Hc1 Hc2) as (st1 & Hrun1 & Hf1 & Hpost1).
  assert (Hr1 : shards_rep per shs st1 cs).
  { eapply shards_same; [exact Hr|]. intros r Hin. eapply same_ring_frame; [exact Hf1|]. by intros ->. }
  destruct (IH shs cs st1 Hr1) as (st2 & Hrun2 & Hr2 & Hd2 & Hn2 & Hsame2).
  { split; [by injection Hlen|]. intros j. apply (Hrx (S j)). }
  { intros j. apply (Hrefs (S j)). }
  exists st2. cbn [Sharded.drop_shards spec_drop_shards]. unfold Receiver_drop. rewrite Hsh.
  destruct (spec_drop_shards cs) as [cs' d] eqn:Hspec. cbn [fst snd] in *. split_and!.
  - erewrite run_bind_Done by exact Hrun1. exact Hrun2.
  - apply shards_cons. split_and!; try done. cbn [refs]. intros Hne.
    destruct (Z.eqb_spec (refs c) 1); [lia|]. eapply rep_same_ring; [|apply Hpost1]. by apply Hsame2.
  - rewrite Hd2. destruct (refs c =? 1); [by rewrite Hpost1, app_assoc|]. by rewrite (proj1 Hpost1).
  - rewrite Hn2. apply Hf1.
  - intros r Hout. rewrite fmap_cons, not_elem_of_cons in Hout. destruct Hout as [? ?].
    eapply same_ring_trans; [by eapply same_ring_frame|by apply Hsame2].
Qed.

(** ** The constructor *)

Lemma make_shards_run i (n : nat) per strat st :
  0 < per ≤ usize_max → is_power_of_two per = true → Z.of_nat n ≤ usize_max →
  ∃ shs txs rxs st', run i (Sharded.make_shards n per strat) st = Done (txs, rxs) st' ∧
    length shs = n ∧ length txs = n ∧ shards_rep per shs st' (replicate n new_chan) ∧
    receivers_ok shs rxs (replicate n (new_chan (T := T))) ∧
    (∀ j sh tx, shs !! j = Some sh → txs !! j = Some tx →
       sender_ok sh (Sharded.inner tx) (new_chan (T := T))) ∧
    (∀ sh, sh ∈ shs → (next_ring st ≤ sh_ring sh < next_ring st')%nat) ∧
    (next_ring st ≤ next_ring st')%nat ∧
    (∀ r, (r < next_ring st)%nat → same_ring r st st') ∧ dropped st' = dropped st.
Proof.
  intros Hper Hpow. revert st. induction n as [|n IH]; intros st Hn.
  { exists [], [], [], st. cbn. split_and!; try done.
    - split; cbn; [done|lia|constructor|done].
    - by intros sh Hin%elem_of_nil. }
  destruct (channel_run i per strat st Hper Hpow)
    as (sh & tx & rx & st1 & Hrun & Hcap & Hst & Hring & Hnext & Hd & Ha & Hc & Hok & Hrep & Htx & Hrx).
  destruct (IH st1 ltac:(lia)) as (shs & txs & rxs & st2 & Hrun2 & Hl & Hlt & Hr & Hrxs & Htxs & Hrange & Hle & Hsame & Hd2).
  exists (sh :: shs), ({| Sharded.inner := tx |} :: txs), (rx :: rxs), st2.
  cbn [Sharded.make_shards replicate]. split_and!.
  - erewrite run_bind_Done by exact Hrun. cbv beta iota. by erewrite run_bind_Done by exact Hrun2.
  - simpl. by rewrite Hl.
  - simpl. by rewrite Hlt.
  - apply shards_cons. split_and!; try done.
    + intros _. eapply rep_same_ring; [|exact Hrep]. apply Hsame. lia.
    + intros (sh' & Heq & Hin)%list_elem_of_fmap. specialize (Hrange _ Hin). lia.
    + simpl. rewrite Hl. lia.
  - destruct Hrxs as [Hlr Hrxs]. split; [simpl; by rewrite Hlr|].
    intros [|j] sh' rx' c' ? ? ?; simplify_eq/=; [done|by eapply Hrxs].
  - intros [|j] sh' tx' ? ?; simplify_eq/=; [done|by eapply Htxs].
  - intros sh' [->|Hin]%elem_of_cons; [lia|]. specialize (Hrange _ Hin). lia.
  - lia.
  - intros r Hlt'. eapply same_ring_trans; [|apply Hsame; lia].
    intros l Hl'. split; [apply Ha; lia|apply Hc; lia].
  - congruence.
Qed.
End refinement.
