(* ===== verification/ShardedRefine.v ===== *)
(** Clients of the sharded channel: any sequence of calls on the senders and
    the receiver behaves as one bounded FIFO queue per sender, visited
    round-robin. *)
From S2P Require Import Prelude Usize Atomic Errors Wait Notify Ring Queue Spsc Seq NotifySeq SpscSeq ShardedSeq.
From S2P Require Import SpscRefine.
From S2P Require Sharded.
Local Open Scope Z_scope.

Inductive shard_op (T : Type) :=
  | ShTrySend (j : nat) (v : T)
  | ShTryRecv
  | ShDrain (max : Z)
  | ShDropSender (j : nat)
  | ShDropReceiver.
Arguments ShTrySend {T} j v.
Arguments ShTryRecv {T}.
Arguments ShDrain {T} max.
Arguments ShDropSender {T} j.
Arguments ShDropReceiver {T}.

Section client.
Context `{tgt : Target} {T : Type} (cb : T → bool).

(** What the client still owns. *)
Record handles := Handles {
  h_txs : list (option Sharded.Sender);
  h_rx : option Sharded.Receiver;
}.

Definition shard_call (fuel : nat) (o : shard_op T) (hs : handles) : prog T (obs T * handles) :=
  match o with
  | ShTrySend j v =>
      match h_txs hs !! j with
      | Some (Some tx) =>
          '(tx, r) ← Sharded.try_send tx v;
          mret (ObsSend r, Handles (<[j := Some tx]> (h_txs hs)) (h_rx hs))
      | _ => mret (NoHandle, hs)
      end
  | ShTryRecv =>
      match h_rx hs with
      | Some rx =>
          '(rx, r) ← Sharded.try_recv rx; mret (ObsRecv r, Handles (h_txs hs) (Some rx))
      | None => mret (NoHandle, hs)
      end
  | ShDrain max =>
      match h_rx hs with
      | Some rx =>
          '(rx, seen, e) ← Sharded.drain fuel rx max (collect cb) [];
          mret (ObsDrain seen e, Handles (h_txs hs) (Some rx))
      | None => mret (NoHandle, hs)
      end
  | ShDropSender j =>
      match h_txs hs !! j with
      | Some (Some tx) =>
          _ ← Sharded.Sender_drop tx;
          mret (ObsDropped, Handles (<[j := None]> (h_txs hs)) (h_rx hs))
      | _ => mret (NoHandle, hs)
      end
  | ShDropReceiver =>
      match h_rx hs with
      | Some rx => _ ← Sharded.Receiver_drop rx; mret (ObsDropped, Handles (h_txs hs) None)
      | None => mret (NoHandle, hs)
      end
  end.

Fixpoint shard_run (fuel : nat) (ops : list (shard_op T)) (hs : handles) : prog T (list (obs T)) :=
  match ops with
  | [] => mret []
  | o :: ops =>
      '(ob, hs) ← shard_call fuel o hs;
      obs ← shard_run fuel ops hs;
      mret (ob :: obs)
  end.

Definition shard_client (fuel : nat) (n_shards total_cap : Z) (strat : WaitStrategy)
    (ops : list (shard_op T)) : prog T (list (obs T)) :=
  '(txs, rx) ← Sharded.channel n_shards total_cap strat;
  shard_run fuel ops (Handles (Some <$> txs) (Some rx)).

(** ** The specification: a queue per sender, a cursor and a budget *)

Record shard_spec := ShardSpec {
  queues : list (Chan T);
  tx_live : list bool;
  rx_live : bool;
  cur : nat;
  bud : Z;
  destroyed : list T;
}.

Definition shard_init (n : nat) : shard_spec :=
  ShardSpec (replicate n new_chan) (replicate n true) true 0 0 [].

Definition shard_spec_step (per : Z) (o : shard_op T) (s : shard_spec) : obs T * shard_spec :=
  match o with
  | ShTrySend j v =>
      match tx_live s !! j, queues s !! j with
      | Some true, Some c =>
          let '(r, c) := spec_try_send per c v in
          (ObsSend r, ShardSpec (<[j := c]> (queues s)) (tx_live s) (rx_live s) (cur s) (bud s)
                        (destroyed s))
      | _, _ => (NoHandle, s)
      end
  | ShTryRecv =>
      if rx_live s then
        let '(cs, cur, bud, r) := spec_shard_recv (queues s) (cur s) (bud s) in
        (ObsRecv r, ShardSpec cs (tx_live s) true cur bud (destroyed s))
      else (NoHandle, s)
  | ShDrain max =>
      if rx_live s then
        let '(cs, cur, bud, seen, e) :=
          spec_drain_sweep (length (queues s)) (queues s) (cur s) (bud s) max (collect cb) [] 0 in
        (ObsDrain seen e, ShardSpec cs (tx_live s) true cur bud (destroyed s))
      else (NoHandle, s)
  | ShDropSender j =>
      match tx_live s !! j, queues s !! j with
      | Some true, Some c =>
          (ObsDropped,
           ShardSpec (<[j := MkChan (popped c) (items c) true (refs c - 1)]> (queues s))
             (<[j := false]> (tx_live s)) (rx_live s) (cur s) (bud s)
             (destroyed s ++ if refs c =? 1 then items c else []))
      | _, _ => (NoHandle, s)
      end
  | ShDropReceiver =>
      if rx_live s then
        let '(cs, d) := spec_drop_shards (queues s) in
        (ObsDropped, ShardSpec cs (tx_live s) false (cur s) (bud s) (destroyed s ++ d))
      else (NoHandle, s)
  end.

Fixpoint shard_spec_run (per : Z) (ops : list (shard_op T)) (s : shard_spec) :
    list (obs T) * shard_spec :=
  match ops with
  | [] => ([], s)
  | o :: ops =>
      let '(ob, s) := shard_spec_step per o s in
      let '(obs, s) := shard_spec_run per ops s in
      (ob :: obs, s)
  end.

(** ** The simulation *)

(** The queues a receive leaves: at most popped from. *)
Definition only_popped (cs cs' : list (Chan T)) : Prop :=
  length cs' = length cs ∧
  ∀ j c c', cs !! j = Some c → cs' !! j = Some c' →
    popped c ≤ popped c' ∧ pushed c' = pushed c ∧ refs c' = refs c.

Lemma only_popped_refl cs : only_popped cs cs.
Proof. split; [done|]. intros j c c' Hj Hj'. by simplify_eq. Qed.

Lemma only_popped_trans cs1 cs2 cs3 :
  only_popped cs1 cs2 → only_popped cs2 cs3 → only_popped cs1 cs3.
Proof.
  intros [Hl H] [Hl' H']. split; [congruence|]. intros j c1 c3 H1 H3.
  destruct (lookup_lt_is_Some_2 cs2 j) as [c2 H2].
  { rewrite Hl. by eapply lookup_lt_Some. }
  destruct (H _ _ _ H1 H2) as (? & ? & ?). destruct (H' _ _ _ H2 H3) as (? & ? & ?).
  split_and!; [lia|congruence..].
Qed.

Lemma only_popped_insert cs j c c' :
  cs !! j = Some c → popped c ≤ popped c' → pushed c' = pushed c → refs c' = refs c →
  only_popped cs (<[j := c']> cs).
Proof.
  intros Hj Hp Hu Hr. split; [by rewrite length_insert|]. intros k c1 c2 H1 H2.
  apply list_lookup_insert_Some in H2 as [(<- & <- & _)|[_ H2]]; simplify_eq; [done|].
  by split_and!.
Qed.

Lemma sweep_popped n : ∀ cs cur bud dis, only_popped cs (spec_sweep n cs cur bud dis).1.1.1.
Proof.
  induction n as [|n IH]; intros cs cur0 bud0 dis; cbn; [apply only_popped_refl|].
  destruct (cs !! cur0) as [c|] eqn:Hc; [|apply only_popped_refl].
  pose proof (spec_try_recv_counters c) as (Hp & Hr & Hu).
  destruct (spec_try_recv c) as [[v|e] c'] eqn:Hs; cbn in *.
  - by eapply only_popped_insert.
  - eapply only_popped_trans; [by eapply only_popped_insert|apply IH].
Qed.

Lemma recv_popped cs cur0 bud0 : only_popped cs (spec_shard_recv cs cur0 bud0).1.1.1.
Proof.
  unfold spec_shard_recv. destruct (spec_start _ _ _) as [c b].
  pose proof (sweep_popped (length cs) cs c b 0). by destruct (spec_sweep _ _ _ _ _) as [[[??]?]?].
Qed.

Lemma drain_popped n max : ∀ cs cur bud env count,
  only_popped cs (spec_drain_sweep n cs cur bud max (collect cb) env count).1.1.1.1.
Proof.
  induction n as [|n IH]; intros cs cur0 bud0 env count; cbn; [apply only_popped_refl|].
  destruct (cs !! cur0) as [c|] eqn:Hc; [|apply only_popped_refl].
  case_bool; [apply only_popped_refl|].
  assert (only_popped cs (<[cur0 := (spec_drain (max - count) (collect cb) env c).2]> cs)) as Hpop.
  { unfold spec_drain. destruct (spec_drain_items_suffix (max - count) (collect cb) env 0 (items c)) as [k Hk].
    destruct (spec_drain_items _ _ _ _ _) as [[env' e] q]. cbn in *.
    eapply only_popped_insert; [done| |apply pushed_taken|done].
    unfold taken, pushed. simpl. rewrite Hk, length_app. lia. }
  destruct (spec_drain _ _ _ _) as [[env' [took|]] c'] eqn:Hs; cbn in *; [|done].
  destruct (took =? max - count); [done|]. by eapply only_popped_trans.
Qed.

(** [m] bounds how many values any sender has pushed. *)
Record srel (per : Z) (shs : list Shared) (m : Z) (s : shard_spec) (hs : handles) (st : seqst T) : Prop := {
  sl_rep : shards_rep per shs st (queues s);
  sl_txs : length (h_txs hs) = length shs;
  sl_live : length (tx_live s) = length shs;
  sl_tx j sh c tx : shs !! j = Some sh → queues s !! j = Some c → h_txs hs !! j = Some (Some tx) →
    tx_live s !! j = Some true ∧ sender_ok sh (Sharded.inner tx) c;
  sl_gone j : h_txs hs !! j = Some None → tx_live s !! j = Some false;
  sl_rx : match h_rx hs with
          | Some rx => rx_live s = true ∧ sharded_rx shs rx (queues s) (cur s) (bud s)
          | None => rx_live s = false
          end;
  sl_refs j c b : queues s !! j = Some c → tx_live s !! j = Some b →
    refs c = Z.b2z b + Z.b2z (rx_live s);
  sl_dropped : dropped st = destroyed s;
  sl_max j c : queues s !! j = Some c → pushed c ≤ m;
}.

Definition simulates_sh (i : tid) (fuel : nat) per shs m o s hs (st : seqst T) : Prop :=
  ∃ hs' st', run i (shard_call fuel o hs) st = Done ((shard_spec_step per o s).1, hs') st' ∧
             srel per shs (m + 1) (shard_spec_step per o s).2 hs' st'.

(** Shard [j] in all its views. *)
Lemma srel_shard per shs m s hs st j tx :
  srel per shs m s hs st → h_txs hs !! j = Some (Some tx) →
  ∃ sh c, shs !! j = Some sh ∧ queues s !! j = Some c ∧ tx_live s !! j = Some true ∧
    shared_ok sh ∧ cap sh = per ∧ rep sh st c ∧ sender_ok sh (Sharded.inner tx) c ∧
    refs c = 1 + Z.b2z (rx_live s) ∧ pushed c ≤ m.
Proof.
  intros Hrel Hj. pose proof (lookup_lt_Some _ _ _ Hj) as Hlt. rewrite (sl_txs _ _ _ _ _ _ Hrel) in Hlt.
  destruct (lookup_lt_is_Some_2 shs j Hlt) as [sh Hsh].
  destruct (lookup_lt_is_Some_2 (queues s) j) as [c Hc].
  { by rewrite (sr_len _ _ _ _ (sl_rep _ _ _ _ _ _ Hrel)). }
  destruct (sl_tx _ _ _ _ _ _ Hrel _ _ _ _ Hsh Hc Hj) as [Hl Hok].
  destruct (sr_shard _ _ _ _ (sl_rep _ _ _ _ _ _ Hrel) _ _ _ Hsh Hc) as (? & ? & Hrep).
  pose proof (sl_refs _ _ _ _ _ _ Hrel _ _ _ Hc Hl) as Hr. simpl in Hr.
  exists sh, c. split_and!; try done; [apply Hrep; destruct (rx_live s); simpl in *; lia|].
  by eapply sl_max.
Qed.

(** The senders survive what the receiver does. *)
Lemma srel_popped per shs m s hs st cs st' rx' c' b' :
  srel per shs m s hs st → only_popped (queues s) cs → shards_rep per shs st' cs →
  sharded_rx shs rx' cs c' b' → rx_live s = true → dropped st' = dropped st →
  srel per shs (m + 1) (ShardSpec cs (tx_live s) true c' b' (destroyed s))
    (Handles (h_txs hs) (Some rx')) st'.
Proof.
  intros Hrel [Hlen Hpop] Hr Hx Hl Hd.
  assert (Hold : ∀ j c, cs !! j = Some c → ∃ c0, queues s !! j = Some c0).
  { intros j c Hj. apply lookup_lt_is_Some_2. rewrite <-Hlen. by eapply lookup_lt_Some. }
  split; simpl; try (by apply Hrel); try done.
  - intros j sh c tx Hj Hc Htx. destruct (Hold _ _ Hc) as [c0 Hc0].
    destruct (sl_tx _ _ _ _ _ _ Hrel _ _ _ _ Hj Hc0 Htx) as [? Hok]. split; [done|].
    destruct (Hpop _ _ _ Hc0 Hc) as (? & ? & ?). by eapply sender_ok_mono.
  - intros j c b Hc Hb. destruct (Hold _ _ Hc) as [c0 Hc0]. destruct (Hpop _ _ _ Hc0 Hc) as (_ & _ & ->).
    rewrite (sl_refs _ _ _ _ _ _ Hrel _ _ _ Hc0 Hb). by rewrite Hl.
  - rewrite Hd. apply Hrel.
  - intros j c Hc. destruct (Hold _ _ Hc) as [c0 Hc0]. destruct (Hpop _ _ _ Hc0 Hc) as (_ & -> & _).
    pose proof (sl_max _ _ _ _ _ _ Hrel _ _ Hc0). lia.
Qed.

Lemma srel_live per shs m s hs st :
  srel per shs m s hs st → rx_live s = true → live (queues s).
Proof.
  intros Hrel Hl j c Hc. destruct (lookup_lt_is_Some_2 (tx_live s) j) as [b Hb].
  { rewrite (sl_live _ _ _ _ _ _ Hrel), <-(sr_len _ _ _ _ (sl_rep _ _ _ _ _ _ Hrel)).
    by eapply lookup_lt_Some. }
  rewrite (sl_refs _ _ _ _ _ _ Hrel _ _ _ Hc Hb), Hl. destruct b; simpl; lia.
Qed.

Lemma sh_recv_sim i fuel per shs m s txs rx st :
  srel per shs m s (Handles txs (Some rx)) st →
  simulates_sh i fuel per shs m ShTryRecv s (Handles txs (Some rx)) st.
Proof.
  intros Hrel. pose proof (sl_rx _ _ _ _ _ _ Hrel) as [Hl Hx]; simpl in Hl, Hx.
  destruct (shard_recv_run i per shs st rx _ _ _ (sl_rep _ _ _ _ _ _ Hrel) Hx (srel_live _ _ _ _ _ _ Hrel Hl))
    as (rx' & st' & Hpost). unfold simulates_sh. cbn [shard_call shard_spec_step h_rx]. rewrite Hl.
  pose proof (recv_popped (queues s) (cur s) (bud s)) as Hpop.
  destruct (spec_shard_recv _ _ _) as [[[cs c'] b'] r]. destruct Hpost as (Hrun & Hr & Hx' & _ & _ & Hd).
  exists (Handles txs (Some rx')), st'. split; [by erewrite run_bind_Done by exact Hrun|].
  by eapply (srel_popped _ _ _ _ (Handles txs (Some rx))).
Qed.

Lemma sh_drain_sim i fuel per shs m max s txs rx st :
  srel per shs m s (Handles txs (Some rx)) st → is_usize max → (Z.to_nat per < fuel)%nat →
  simulates_sh i fuel per shs m (ShDrain max) s (Handles txs (Some rx)) st.
Proof.
  intros Hrel Hmax Hfuel. pose proof (sl_rx _ _ _ _ _ _ Hrel) as [Hl Hx]; simpl in Hl, Hx.
  destruct (drain_sweep_run (collect cb) i per shs fuel max (length (queues s)) Hmax Hfuel st rx _ _ _ [] 0
    (sl_rep _ _ _ _ _ _ Hrel) Hx (srel_live _ _ _ _ _ _ Hrel Hl) ltac:(unfold is_usize in Hmax; lia))
    as (rx' & st' & Hpost). unfold simulates_sh. cbn [shard_call shard_spec_step h_rx]. rewrite Hl.
  pose proof (drain_popped (length (queues s)) max (queues s) (cur s) (bud s) [] 0) as Hpop.
  unfold Sharded.drain. rewrite (proj1 (sx_shards _ _ _ _ _ Hx)), <-(sr_len _ _ _ _ (sl_rep _ _ _ _ _ _ Hrel)).
  destruct (spec_drain_sweep _ _ _ _ _ _ _ _) as [[[[cs c'] b'] seen] e].
  destruct Hpost as (Hrun & Hr & Hx' & _ & _ & Hd).
  exists (Handles txs (Some rx')), st'. split; [by erewrite run_bind_Done by exact Hrun|].
  by eapply (srel_popped _ _ _ _ (Handles txs (Some rx))).
Qed.

(** One sender's queue, handle and liveness change. *)
Lemma srel_update per shs m s hs st j sh c c' otx b' d st' :
  srel per shs m s hs st → shs !! j = Some sh → queues s !! j = Some c →
  frame (sh_ring sh) st st' → (refs c' ≠ 0 → rep sh st' c') →
  popped c' = popped c → pushed c ≤ pushed c' ≤ pushed c + 1 →
  refs c' = Z.b2z b' + Z.b2z (rx_live s) → dropped st' = d →
  match otx with
  | Some tx => b' = true ∧ sender_ok sh (Sharded.inner tx) c'
  | None => b' = false
  end →
  srel per shs (m + 1)
    (ShardSpec (<[j := c']> (queues s)) (<[j := b']> (tx_live s)) (rx_live s) (cur s) (bud s) d)
    (Handles (<[j := otx]> (h_txs hs)) (h_rx hs)) st'.
Proof.
  intros Hrel Hj Hc Hf Hrep Hp Hu Hrf Hd Htx. pose proof (sl_rep _ _ _ _ _ _ Hrel) as Hr.
  pose proof (lookup_lt_Some _ _ _ Hj) as Hlt.
  split; simpl; rewrite ?length_insert; try (by apply Hrel); try done.
  - by eapply shards_update.
  - intros k sh' c2 tx Hk Hc2 Htx2. apply list_lookup_insert_Some in Htx2 as [(<- & -> & _)|[Hne Htx2]].
    + rewrite list_lookup_insert_eq in Hc2 by (by rewrite (sr_len _ _ _ _ Hr)). simplify_eq.
      rewrite list_lookup_insert_eq by (by rewrite (sl_live _ _ _ _ _ _ Hrel)).
      destruct Htx as [-> ?]. done.
    + rewrite list_lookup_insert_ne in Hc2 by done. rewrite list_lookup_insert_ne by done.
      by eapply sl_tx.
  - intros k Hk. apply list_lookup_insert_Some in Hk as [(<- & -> & _)|[Hne Hk]].
    + rewrite Htx. by rewrite list_lookup_insert_eq by (by rewrite (sl_live _ _ _ _ _ _ Hrel)).
    + rewrite list_lookup_insert_ne by done. by eapply sl_gone.
  - pose proof (sl_rx _ _ _ _ _ _ Hrel) as Hrx. destruct (h_rx hs) as [rx|]; [|done].
    destruct Hrx as [? [[Hlen Hrxs] ? ? ? ?]]. split; [done|]. split; try done. split; [done|].
    intros k sh' rx' c2 Hk Hrk Hc2. apply list_lookup_insert_Some in Hc2 as [(<- & <- & _)|[Hne Hc2]].
    + simplify_eq. by eapply receiver_ok_mono; [by eapply Hrxs|..]; [|lia].
    + by eapply Hrxs.
  - intros k c2 b2 Hk Hb. apply list_lookup_insert_Some in Hk as [(<- & <- & _)|[Hne Hk]].
    + by rewrite list_lookup_insert_eq in Hb by (by rewrite (sl_live _ _ _ _ _ _ Hrel)); simplify_eq.
    + rewrite list_lookup_insert_ne in Hb by done. by eapply sl_refs.
  - intros k c2 Hk. apply list_lookup_insert_Some in Hk as [(<- & <- & _)|[Hne Hk]].
    + pose proof (sl_max _ _ _ _ _ _ Hrel _ _ Hc). lia.
    + pose proof (sl_max _ _ _ _ _ _ Hrel _ _ Hk). lia.
Qed.

Lemma sh_send_sim i fuel per shs m j v s hs st tx :
  srel per shs m s hs st → h_txs hs !! j = Some (Some tx) → m < usize_max →
  simulates_sh i fuel per shs m (ShTrySend j v) s hs st.
Proof.
  intros Hrel Hj Hm.
  destruct (srel_shard _ _ _ _ _ _ _ _ Hrel Hj) as (sh & c & Hsh & Hc & Hl & Hok & Hcap & Hrep & Htx & Hrf & Hmax).
  destruct (try_send_run sh Hok i st c _ v Hrep Htx ltac:(intros ?; lia)) as (tx' & (st' & Hrun & Hr' & Hf & Hd) & Htx').
  destruct (spec_try_send_counters (cap sh) c v) as (Hp & Hrf' & Hu). rewrite Hcap in *.
  unfold simulates_sh. cbn [shard_call shard_spec_step]. rewrite Hj, Hl, Hc.
  destruct (spec_try_send per c v) as [r c'] eqn:Hs. cbn [fst snd] in *.
  exists (Handles (<[j := Some {| Sharded.inner := tx' |}]> (h_txs hs)) (h_rx hs)), st'. split.
  { unfold Sharded.try_send. rewrite run_assoc. erewrite run_bind_Done by exact Hrun. done. }
  replace (tx_live s) with (<[j := true]> (tx_live s)) by (by apply list_insert_id).
  eapply srel_update; try done; [by rewrite Hrf'|rewrite Hd; apply Hrel].
Qed.

Lemma sh_drop_sender_sim i fuel per shs m j s hs st tx :
  srel per shs m s hs st → h_txs hs !! j = Some (Some tx) → m ≤ usize_max →
  simulates_sh i fuel per shs m (ShDropSender j) s hs st.
Proof.
  intros Hrel Hj Hm.
  destruct (srel_shard _ _ _ _ _ _ _ _ Hrel Hj) as (sh & c & Hsh & Hc & Hl & Hok & Hcap & Hrep & Htx & Hrf & Hmax).
  destruct (handle_drop_run sh Hok i st c Hrep) as (st' & Hrun & Hf & Hpost);
    [destruct (rx_live s); simpl in *; lia|lia|].
  unfold simulates_sh. cbn [shard_call shard_spec_step]. rewrite Hj, Hl, Hc. cbn [fst snd].
  exists (Handles (<[j := None]> (h_txs hs)) (h_rx hs)), st'. destruct Htx as (Hsh' & _). split.
  { unfold Sharded.Sender_drop, Sender_drop. rewrite Hsh'. by erewrite run_bind_Done by exact Hrun. }
  eapply srel_update; try done.
  - simpl. intros Hne. destruct (Z.eqb_spec (refs c) 1); [lia|apply Hpost].
  - unfold pushed. simpl. lia.
  - simpl. lia.
  - rewrite <-(sl_dropped _ _ _ _ _ _ Hrel). destruct (refs c =? 1); [done|]. rewrite app_nil_r. apply Hpost.
Qed.

Lemma spec_drop_shards_lookup (cs : list (Chan T)) j c :
  (spec_drop_shards cs).1 !! j = Some c →
  ∃ c0, cs !! j = Some c0 ∧ c = MkChan (popped c0) (items c0) true (refs c0 - 1).
Proof.
  revert j. induction cs as [|c0 cs IH]; intros j; cbn; [done|].
  destruct (spec_drop_shards cs) as [cs' d]. destruct j as [|j]; cbn; [intros [= <-]; eauto|apply IH].
Qed.

Lemma sh_drop_receiver_sim i fuel per shs m s txs rx st :
  srel per shs m s (Handles txs (Some rx)) st → m ≤ usize_max →
  simulates_sh i fuel per shs m ShDropReceiver s (Handles txs (Some rx)) st.
Proof.
  intros Hrel Hm. pose proof (sl_rx _ _ _ _ _ _ Hrel) as [Hl Hx]; simpl in Hl, Hx.
  destruct (drop_shards_run i per (Sharded.shards rx) shs (queues s) st
    (sl_rep _ _ _ _ _ _ Hrel) (sx_shards _ _ _ _ _ Hx)) as (st' & Hrun & Hr & Hd & _).
  { intros j c Hc. pose proof (sl_max _ _ _ _ _ _ Hrel _ _ Hc). split; [|lia].
    pose proof (srel_live _ _ _ _ _ _ Hrel Hl _ _ Hc) as Hne.
    destruct (lookup_lt_is_Some_2 shs j) as [sh Hj].
    { rewrite <-(sr_len _ _ _ _ (sl_rep _ _ _ _ _ _ Hrel)). by eapply lookup_lt_Some. }
    destruct (sr_shard _ _ _ _ (sl_rep _ _ _ _ _ _ Hrel) _ _ _ Hj Hc) as (_ & _ & Hrep).
    pose proof (rep_refs _ _ _ _ (Hrep Hne)). lia. }
  unfold simulates_sh. cbn [shard_call shard_spec_step h_rx]. rewrite Hl.
  pose proof (spec_drop_shards_lookup (queues s)) as Hlook.
  destruct (spec_drop_shards (queues s)) as [cs d]. cbn [fst snd] in *.
  exists (Handles txs None), st'. split.
  { unfold Sharded.Receiver_drop. by erewrite run_bind_Done by exact Hrun. }
  split; simpl; try (by apply Hrel); try done.
  - intros j sh c tx Hj Hc Htx. destruct (Hlook _ _ Hc) as (c0 & Hc0 & ->).
    destruct (sl_tx _ _ _ _ _ _ Hrel _ _ _ _ Hj Hc0 Htx) as [? Hok]. split; [done|].
    by eapply sender_ok_mono.
  - intros j c b Hc Hb. destruct (Hlook _ _ Hc) as (c0 & Hc0 & ->). simpl.
    rewrite (sl_refs _ _ _ _ _ _ Hrel _ _ _ Hc0 Hb), Hl. simpl. lia.
  - rewrite Hd. by rewrite (sl_dropped _ _ _ _ _ _ Hrel).
  - intros j c Hc. destruct (Hlook _ _ Hc) as (c0 & Hc0 & ->).
    pose proof (sl_max _ _ _ _ _ _ Hrel _ _ Hc0). unfold pushed in *. simpl. lia.
Qed.

Lemma srel_mono per shs m m' s hs st : srel per shs m s hs st → m ≤ m' → srel per shs m' s hs st.
Proof. intros [] Hm. split; try done. intros j c Hc. etrans; [by eapply sl_max0|done]. Qed.

Lemma sh_nohandle i fuel per shs m o s hs st :
  srel per shs m s hs st → shard_call fuel o hs = mret (NoHandle, hs) →
  shard_spec_step per o s = (NoHandle, s) → simulates_sh i fuel per shs m o s hs st.
Proof.
  intros Hrel Hc Hs. exists hs, st. rewrite Hc, Hs. cbn [fst snd].
  split; [done|]. eapply srel_mono; [done|lia].
Qed.

Definition shard_op_ok (o : shard_op T) : Prop :=
  match o with ShDrain max => is_usize max | _ => True end.

(** A sender that is not there. *)
Lemma srel_no_sender per shs m s hs st j :
  srel per shs m s hs st → (∀ tx, h_txs hs !! j ≠ Some (Some tx)) → tx_live s !! j ≠ Some true.
Proof.
  intros Hrel Hno Hl. destruct (h_txs hs !! j) as [[tx|]|] eqn:Htx; [by apply (Hno tx)| |].
  - pose proof (sl_gone _ _ _ _ _ _ Hrel _ Htx). congruence.
  - apply lookup_ge_None in Htx. apply lookup_lt_Some in Hl.
    rewrite (sl_txs _ _ _ _ _ _ Hrel) in Htx. rewrite (sl_live _ _ _ _ _ _ Hrel) in Hl. lia.
Qed.

Lemma shard_call_sim i fuel per shs m o s hs st :
  srel per shs m s hs st → shard_op_ok o → (Z.to_nat per < fuel)%nat → m < usize_max →
  simulates_sh i fuel per shs m o s hs st.
Proof.
  intros Hrel Hop Hfuel Hm. pose proof (sl_rx _ _ _ _ _ _ Hrel) as Hrx.
  destruct o as [j v| |max|j|].
  1,4: destruct (h_txs hs !! j) as [[tx|]|] eqn:Htx;
    [first [by eapply sh_send_sim|eapply sh_drop_sender_sim; [done..|lia]]|..];
    (apply sh_nohandle; [done|cbn; by rewrite Htx|cbn]);
    pose proof (srel_no_sender _ _ _ _ _ _ j Hrel) as Hno;
    destruct (tx_live s !! j) as [[]|]; try done; exfalso; by apply Hno; [rewrite Htx|].
  all: destruct hs as [txs [rx|]]; cbn in Hrx;
    [first [by apply sh_recv_sim|by apply sh_drain_sim|apply sh_drop_receiver_sim; [done|lia]]
    |apply sh_nohandle; [done|done|cbn; by rewrite Hrx]].
Qed.

(** Any calls: what the client sees, and the state it reaches, are those of the
    specification. *)
Lemma shard_run_reach i fuel per shs ops : ∀ m s hs st,
  srel per shs m s hs st → Forall shard_op_ok ops → (Z.to_nat per < fuel)%nat →
  m + Z.of_nat (length ops) ≤ usize_max →
  ∃ hs' st', run i (shard_run fuel ops hs) st = Done (shard_spec_run per ops s).1 st' ∧
    srel per shs (m + Z.of_nat (length ops)) (shard_spec_run per ops s).2 hs' st'.
Proof.
  induction ops as [|o ops IH]; intros m s hs st Hrel Hops Hfuel Hroom.
  { exists hs, st. by rewrite Z.add_0_r. }
  apply Forall_cons in Hops as [Ho Hops]. cbn [length] in Hroom.
  destruct (shard_call_sim i fuel per shs m o s hs st Hrel Ho Hfuel ltac:(lia)) as (hs' & st1 & Hrun & Hrel').
  destruct (IH (m + 1) _ _ _ Hrel' Hops Hfuel ltac:(lia)) as (hs2 & st2 & Hrun2 & Hrel2).
  replace (m + Z.of_nat (length (o :: ops))) with (m + 1 + Z.of_nat (length ops)) by (cbn [length]; lia).
  exists hs2, st2. cbn [shard_run shard_spec_run]. destruct (shard_spec_step per o s) as [ob s'].
  cbn [fst snd] in *. destruct (shard_spec_run per ops s') as [obs s2]. cbn [fst snd] in *.
  split; [|done]. erewrite run_bind_Done by exact Hrun. cbv beta iota.
  by erewrite run_bind_Done by exact Hrun2.
Qed.

Lemma shard_run_sim i fuel per shs ops m s hs st :
  srel per shs m s hs st → Forall shard_op_ok ops → (Z.to_nat per < fuel)%nat →
  m + Z.of_nat (length ops) ≤ usize_max →
  ∃ st', run i (shard_run fuel ops hs) st = Done (shard_spec_run per ops s).1 st' ∧
         dropped st' = destroyed (shard_spec_run per ops s).2.
Proof.
  intros Hrel Hops Hfuel Hroom.
  destruct (shard_run_reach i fuel per shs ops m s hs st Hrel Hops Hfuel Hroom) as (hs' & st' & Hrun & Hrel').
  exists st'. split; [done|apply Hrel'].
Qed.

(** Every state a client reaches is related to its specification state. *)
Lemma shard_reach fuel per shs ops m s hs st :
  srel per shs m s hs st → Forall shard_op_ok ops → (Z.to_nat per < fuel)%nat →
  m + Z.of_nat (length ops) ≤ usize_max →
  ∃ hs' st', srel per shs (m + Z.of_nat (length ops)) (shard_spec_run per ops s).2 hs' st'.
Proof.
  intros Hrel Hops Hfuel Hroom.
  destruct (shard_run_reach 0 fuel per shs ops m s hs st Hrel Hops Hfuel Hroom) as (hs' & st' & _ & Hrel').
  by exists hs', st'.
Qed.

(** The constructor. *)
Lemma sharded_channel_run i n total strat (st : seqst T) :
  0 < n ≤ usize_max → is_multiple_of total n = true → 0 < total / n ≤ usize_max →
  is_power_of_two (total / n) = true → strat ≠ Park → dropped st = [] →
  ∃ shs txs rx st', run i (Sharded.channel n total strat) st = Done (txs, rx) st' ∧
    Sharded.strategy rx = strat ∧
    srel (total / n) shs 0 (shard_init (Z.to_nat n)) (Handles (Some <$> txs) (Some rx)) st'.
Proof.
  intros Hn Hmul Hper Hpow Hst Hd. unfold Sharded.channel.
  rewrite (proj2 (Z.ltb_lt 0 n)), Hmul, (proj2 (Z.ltb_lt 0 _)), Hpow, bool_decide_eq_false_2 by (done || lia).
  destruct (make_shards_run i (Z.to_nat n) (total / n) strat st Hper Hpow ltac:(lia))
    as (shs & txs & rxs & st' & Hrun & Hl & Hlt & Hr & Hrx & Htx & _ & _ & _ & Hd').
  exists shs, txs, (Sharded.MkReceiver rxs 0 0 strat), st'.
  cbn [negb andb]. split_and!; [by erewrite run_bind_Done by exact Hrun|done|].
  assert (Hnew : ∀ j c, replicate (Z.to_nat n) new_chan !! j = Some c → c = new_chan (T := T))
    by (intros j c [-> _]%lookup_replicate_1; done).
  split; simpl; try done.
  - by rewrite length_fmap, Hlt.
  - by rewrite length_replicate.
  - intros j sh c tx Hj Hc Hx. pose proof (lookup_lt_Some _ _ _ Hj). apply Hnew in Hc as ->.
    rewrite list_lookup_fmap in Hx. destruct (txs !! j) as [tx0|] eqn:Htx0; simplify_eq/=.
    split; [apply lookup_replicate_2; lia|by eapply Htx].
  - intros j Hx. rewrite list_lookup_fmap in Hx. by destruct (txs !! j).
  - split; [done|]. split; simpl; try done; unfold Sharded.VISIT_BUDGET; lia.
  - intros j c b Hc%Hnew [-> _]%lookup_replicate_1. by subst.
  - by rewrite Hd', Hd.
  - intros j c ->%Hnew. done.
Qed.
End client.

(** C18. Refinement of the sharded channel. A client that builds a sharded
    channel with any accepted shape and makes any sequence of [try_send],
    [try_recv], [drain] and drop calls on its handles sees exactly what one
    bounded FIFO queue per sender prescribes: per-sender order, [Full] per
    shard, the round-robin sweep with its visit budget, [Disconnected] only
    when every shard is disconnected and empty, and the values dropped with
    the rings are exactly those still queued. *)
Theorem sharded_refines_queues `{Target} {T} (cb : T → bool) (i : tid) (fuel : nat)
    (n total : Z) (strat : WaitStrategy) (ops : list (shard_op T)) :
  0 < n ≤ usize_max → is_multiple_of total n = true → 0 < total / n ≤ usize_max →
  is_power_of_two (total / n) = true → strat ≠ Park → Forall shard_op_ok ops →
  (Z.to_nat (total / n) < fuel)%nat → Z.of_nat (length ops) ≤ usize_max →
  ∃ st, run i (shard_client cb fuel n total strat ops) empty_state =
          Done (shard_spec_run cb (total / n) ops (shard_init (Z.to_nat n))).1 st ∧
        dropped st = destroyed (shard_spec_run cb (total / n) ops (shard_init (Z.to_nat n))).2.
Proof.
  intros Hn Hmul Hper Hpow Hst Hops Hfuel Hlen.
  destruct (sharded_channel_run i n total strat (empty_state (T := T)) Hn Hmul Hper Hpow Hst eq_refl)
    as (shs & txs & rx & st & Hrun & _ & Hrel).
  unfold shard_client. erewrite run_bind_Done by exact Hrun.
  by eapply (shard_run_sim cb i fuel _ shs ops 0).
Qed.

Definition demo_shard_ops : list (shard_op Z) :=
  [ShTryRecv; ShTrySend 0 1; ShTrySend 0 2; ShTrySend 0 3; ShTrySend 1 10; ShTryRecv; ShTryRecv;
   ShTrySend 1 11; ShTryRecv; ShTrySend 0 7; ShTrySend 0 8; ShDropSender 0; ShDrain 5; ShTrySend 1 12; ShTrySend 1 13;
   ShDropReceiver; ShTrySend 1 14; ShDropSender 1; ShDropSender 2].
Lemma sharded_refines_queues_witness :
  ∃ st, run 0 (shard_client (λ v, negb (v =? 7)) 8 2 4 Backoff demo_shard_ops) (empty_state (T := Z)) =
        Done [ObsRecv (Err Empty); ObsSend (Ok tt); ObsSend (Ok tt); ObsSend (Err (Full 3));
              ObsSend (Ok tt); ObsRecv (Ok 1); ObsRecv (Ok 2); ObsSend (Ok tt); ObsRecv (Ok 10);
              ObsSend (Ok tt); ObsSend (Ok tt); ObsDropped; ObsDrain [11; 7] Unwound;
              ObsSend (Ok tt); ObsSend (Ok tt); ObsDropped; ObsSend (Err (SendDisconnected 14));
              ObsDropped; NoHandle] st ∧ dropped st = [8; 12; 13].
Proof.
  apply (sharded_refines_queues (λ v, negb (v =? 7)) 0 8 2 4 Backoff demo_shard_ops);
    [split; vm_compute; (reflexivity || discriminate)|reflexivity|split; vm_compute; (reflexivity || discriminate)
    |reflexivity|discriminate| |vm_compute; lia|vm_compute; discriminate].
  repeat constructor; vm_compute; discriminate.
Defined.
