(* ===== verification/ShardedProps.v ===== *)
(** What the sweep of the sharded receiver promises: its verdicts, and how much
    a [drain] takes. *)
From S2P Require Import Prelude Usize Atomic Errors Wait Notify Ring Queue Spsc Seq NotifySeq SpscSeq ShardedSeq ShardedRefine.
From S2P Require Sharded.
Local Open Scope Z_scope.

Section cursor.
Context (n : nat).
Implicit Types cur j k : nat.

(** The [k]-th shard visited from [cur]. *)
Definition visited (cur k : nat) : nat := Nat.iter k (next_cursor n) cur.

Lemma visited_S cur k : visited cur (S k) = visited (next_cursor n cur) k.
Proof. unfold visited. induction k as [|k IH]; simpl in *; congruence. Qed.

Lemma visited_lt cur k : (cur < n)%nat → (visited cur k < n)%nat.
Proof. intros. induction k as [|k IH]; [done|]. by apply next_cursor_lt. Qed.

Lemma visited_mod cur k : (cur < n)%nat → visited cur k = ((cur + k) mod n)%nat.
Proof.
  intros Hc. induction k as [|k IH]; [by rewrite Nat.add_0_r, Nat.mod_small|].
  change (visited cur (S k)) with (next_cursor n (visited cur k)). rewrite IH.
  replace (cur + S k)%nat with (S (cur + k)) by lia. unfold next_cursor.
  pose proof (Nat.mod_upper_bound (cur + k) n ltac:(lia)).
  pose proof (Nat.div_mod_eq (cur + k) n).
  case_decide as Hd.
  - apply (Nat.mod_unique _ _ (S ((cur + k) / n))); lia.
  - apply (Nat.mod_unique _ _ ((cur + k) / n)); lia.
Qed.

(** A full sweep visits every shard. *)
Lemma visited_all cur j : (cur < n)%nat → (j < n)%nat → ∃ k, (k < n)%nat ∧ visited cur k = j.
Proof.
  intros Hc Hj. destruct (decide (cur ≤ j)%nat).
  - exists (j - cur)%nat. split; [lia|]. rewrite visited_mod by done.
    replace (cur + (j - cur))%nat with j by lia. by apply Nat.mod_small.
  - exists (n + j - cur)%nat. split; [lia|]. rewrite visited_mod by done.
    symmetry. apply (Nat.mod_unique _ _ 1); lia.
Qed.

Lemma visited_round cur : (cur < n)%nat → visited cur n = cur.
Proof.
  intros Hc. rewrite visited_mod by done. symmetry. apply (Nat.mod_unique _ _ 1); lia.
Qed.
End cursor.

Section sweep.
Context {T : Type}.
Implicit Types (c : Chan T) (cs : list (Chan T)).

Definition is_empty cs (j : nat) : Prop := ∀ c, cs !! j = Some c → items c = [].
Definition gone cs (j : nat) : Prop := ∀ c, cs !! j = Some c → closed c = true.

(** Shards found empty stay as they are. *)
Lemma spec_try_recv_empty c :
  items c = [] → spec_try_recv c = (Err (if closed c then RecvDisconnected else Empty), c).
Proof. unfold spec_try_recv. by intros ->. Qed.

(** The sweep finds the first shard with a value, or counts the disconnected. *)
Lemma spec_sweep_cases n : ∀ cs cur bud dis,
  (cur < length cs)%nat →
  let '(cs', cur', bud', r) := spec_sweep n cs cur bud dis in
  match r with
  | inl v => ∃ k c q, (k < n)%nat ∧ cur' = visited (length cs) cur k ∧
      (∀ k', (k' < k)%nat → is_empty cs (visited (length cs) cur k')) ∧
      cs !! cur' = Some c ∧ items c = v :: q ∧ cs' = <[cur' := (spec_try_recv c).2]> cs ∧
      bud' = (if decide (k = 0%nat) then bud else 0) + 1
  | inr d => cs' = cs ∧ cur' = visited (length cs) cur n ∧
      (∀ k, (k < n)%nat → is_empty cs (visited (length cs) cur k)) ∧
      dis ≤ d ≤ dis + Z.of_nat n ∧
      (d = dis + Z.of_nat n ↔ ∀ k, (k < n)%nat → gone cs (visited (length cs) cur k))
  end.
Proof.
  induction n as [|n IH]; intros cs cur bud dis Hcur; cbn [spec_sweep].
  { split_and!; try done; try lia. split; [lia|]. intros _. lia. }
  destruct (lookup_lt_is_Some_2 cs cur Hcur) as [c Hc]. rewrite Hc.
  destruct (items c) as [|v q] eqn:Hitems.
  2: { unfold spec_try_recv. rewrite Hitems. exists 0%nat, c, q.
       split_and!; try done; [lia..|]. unfold spec_try_recv. by rewrite Hitems. }
  rewrite spec_try_recv_empty by done. rewrite list_insert_id by done.
  specialize (IH cs (next_cursor (length cs) cur) 0
    (dis + disc_count (if closed c then RecvDisconnected else Empty)) (next_cursor_lt _ _ Hcur)).
  destruct (spec_sweep n _ _ _ _) as [[[cs' cur'] bud'] [v|d]].
  - destruct IH as (k & c' & q & Hk & -> & Hempty & Hc' & Hi & -> & ->).
    exists (S k), c', q. rewrite visited_S. split_and!; try done; [lia| |by case_decide].
    intros [|k'] Hk'; [intros c2 Hc2; cbn in Hc2; congruence|]. rewrite visited_S. apply Hempty. lia.
  - destruct IH as (-> & -> & Hempty & Hd & Hall). rewrite visited_S. split_and!; try done.
    + intros [|k] Hk; [intros c2 Hc2; cbn in Hc2; congruence|]. rewrite visited_S. apply Hempty. lia.
    + destruct (closed c); simpl in *; lia.
    + destruct (closed c); simpl in *; lia.
    + split.
      * intros Hdn [|k] Hk.
        -- intros c2 Hc2. cbn in Hc2. rewrite Hc in Hc2. injection Hc2 as <-.
           destruct (closed c); simpl in *; [done|lia].
        -- rewrite visited_S. apply Hall; [|lia]. destruct (closed c); simpl in *; lia.
      * intros Hgone. assert (closed c = true) as Hcl by (apply (Hgone 0%nat); [lia|done]).
        rewrite Hcl in *. simpl in *. enough (d = dis + 1 + Z.of_nat n) by lia.
        apply Hall. intros k Hk. rewrite <-visited_S. apply Hgone. lia.
Qed.

(** The verdict of a receive on the queues. *)
Lemma spec_shard_recv_verdict cs cur bud :
  (cur < length cs)%nat →
  let r := (spec_shard_recv cs cur bud).2 in
  ((∃ v, r = Ok v) ↔ ∃ j c, cs !! j = Some c ∧ items c ≠ []) ∧
  (r = Err RecvDisconnected ↔ ∀ j c, cs !! j = Some c → items c = [] ∧ closed c = true).
Proof.
  intros Hcur. unfold spec_shard_recv. destruct (spec_start _ _ _) as [cur1 bud1] eqn:Hst.
  assert (Hcur1 : (cur1 < length cs)%nat).
  { unfold spec_start in Hst. destruct (_ >=? _); simplify_eq; [by apply next_cursor_lt|done]. }
  pose proof (spec_sweep_cases (length cs) cs cur1 bud1 0 Hcur1) as Hcases.
  destruct (spec_sweep _ _ _ _ _) as [[[cs' cur'] bud'] [v|d]]; simpl.
  - destruct Hcases as (k & c & q & _ & _ & _ & Hc & Hi & _). split.
    + split; [intros _|by eexists]. exists cur', c. by rewrite Hi.
    + split; [done|]. intros Hall. destruct (Hall _ _ Hc). congruence.
  - destruct Hcases as (_ & _ & Hempty & Hd & Hall).
    assert (Hev : ∀ (P : nat → Prop), (∀ k, (k < length cs)%nat → P (visited (length cs) cur1 k)) →
      ∀ j c, cs !! j = Some c → P j).
    { intros P HP j c Hj. apply lookup_lt_Some in Hj.
      destruct (visited_all (length cs) cur1 j Hcur1 Hj) as (k & Hk & <-). by apply HP. }
    split.
    + split; [intros [v Hv]; by destruct (d =? _)|]. intros (j & c & Hj & Hne).
      destruct Hne. by eapply (Hev (is_empty cs) Hempty).
    + case_bool; (split; [intros Hr|]); try done.
      * intros j c Hj. split; [by eapply (Hev (is_empty cs) Hempty)|].
        eapply (Hev (gone cs)); [|done|done]. apply Hall. lia.
      * intros Hg. destruct n. enough (d = 0 + Z.of_nat (length cs)) by lia.
        apply Hall. intros k Hk c Hc. by apply (Hg _ _ Hc).
Qed.
End sweep.

(** ** How much a drain takes *)

Section drains.
Context {T : Type}.
Implicit Types (c : Chan T) (cs : list (Chan T)).

Lemma collect_all (max : Z) env count (q : list T) :
  ∃ n, spec_drain_items max (collect (λ _, true)) env count q =
    (env ++ take n q, Returned (count + Z.of_nat n), drop n q) ∧
    (n ≤ length q)%nat ∧ (count ≤ max → count + Z.of_nat n ≤ max) ∧
    (count + Z.of_nat n < max → n = length q).
Proof.
  revert env count. induction q as [|v q IH]; intros env count; simpl.
  { exists 0%nat. rewrite app_nil_r, Z.add_0_r. split_and!; try done; lia. }
  destruct (Z.ltb_spec count max).
  - destruct (IH (env ++ [v]) (count + 1)) as (n & -> & Hn & Hle & Hfull). exists (S n).
    rewrite <-app_assoc. split_and!; [by do 3 f_equal; lia|lia|lia|]. intros. f_equal. apply Hfull. lia.
  - exists 0%nat. rewrite app_nil_r, Z.add_0_r. split_and!; [done|lia|lia|lia].
Qed.

Lemma empty_popped cs cs' j :
  only_popped cs cs' → is_empty cs j → is_empty cs' j.
Proof.
  intros [Hlen Hpop] He c' Hc'. destruct (lookup_lt_is_Some_2 cs j) as [c Hc].
  { rewrite <-Hlen. by eapply lookup_lt_Some. }
  destruct (Hpop _ _ _ Hc Hc') as (Hp & Hu & _). unfold pushed in Hu. rewrite (He _ Hc) in Hu.
  destruct (items c'); [done|]. simpl in Hu. lia.
Qed.

Lemma spec_drain_sweep_complete max n : ∀ cs cur bud env count,
  (cur < length cs)%nat → count ≤ max →
  let '(cs', _, _, env', e) := spec_drain_sweep n cs cur bud max (collect (λ _ : T, true)) env count in
  ∃ got, e = Returned (count + Z.of_nat (length got)) ∧ env' = env ++ got ∧
    count + Z.of_nat (length got) ≤ max ∧
    (count + Z.of_nat (length got) < max → ∀ k, (k < n)%nat → is_empty cs' (visited (length cs) cur k)).
Proof.
  induction n as [|n IH]; intros cs cur bud env count Hcur Hcnt; cbn [spec_drain_sweep].
  { exists []. rewrite app_nil_r. simpl. rewrite Z.add_0_r. split_and!; try done. lia. }
  destruct (lookup_lt_is_Some_2 cs cur Hcur) as [c Hc]. rewrite Hc, Z.geb_leb.
  destruct (Z.leb_spec max count).
  { exists []. rewrite app_nil_r. simpl. rewrite Z.add_0_r. split_and!; try done. lia. }
  unfold spec_drain. destruct (collect_all (max - count) env 0 (items c)) as (t & -> & Ht & Hle & Hfull).
  assert (Hgot : length (take t (items c)) = t) by (rewrite length_take; lia). rewrite Z.add_0_l in *.
  destruct (Z.eqb_spec (Z.of_nat t) (max - count)) as [Heq|Hne].
  { exists (take t (items c)). rewrite Hgot. split_and!; [done|done|lia|lia]. }
  specialize (Hfull ltac:(lia)). rewrite Hfull, drop_all, take_ge by lia.
  set (cs1 := <[cur := taken c []]> cs). rewrite <-Hfull.
  assert (Hlen1 : length cs1 = length cs) by apply length_insert.
  pose proof (drain_popped (λ _, true) n max cs1 (next_cursor (length cs) cur) 0 (env ++ items c)
    (count + Z.of_nat t)) as Hpop.
  specialize (IH cs1 (next_cursor (length cs) cur) 0 (env ++ items c) (count + Z.of_nat t)).
  rewrite Hlen1 in IH. specialize (IH (next_cursor_lt _ _ Hcur) ltac:(lia)).
  destruct (spec_drain_sweep n _ _ _ _ _ _ _) as [[[[cs' cur'] bud'] env'] e].
  destruct IH as (got & -> & -> & Hmax & Hempty). exists (items c ++ got).
  rewrite length_app, <-Hfull, app_assoc. split_and!; [f_equal; lia|done|lia|].
  intros Hlt [|k] Hk; [|rewrite visited_S; apply Hempty; lia].
  eapply empty_popped; [exact Hpop|]. intros c2. cbn. unfold cs1.
  rewrite list_lookup_insert_eq by done. by intros [= <-].
Qed.
End drains.

(** ** The receiver's promises *)

Section receiver.
Context `{tgt : Target} {T : Type}.
Context (i : tid) (per : Z) (shs : list Shared) (m : Z) (s : shard_spec (T := T)) (hs : handles) (st : seqst T).
(** A state a client can reach, with the receiver still owned. *)
Context (rx : Sharded.Receiver).
Hypothesis Hrel : srel per shs m s hs st.
Hypothesis Hrx : h_rx hs = Some rx.

Lemma rx_parts : rx_live s = true ∧ sharded_rx shs rx (queues s) (cur s) (bud s) ∧
  (cur s < length (queues s))%nat ∧ length (Sharded.shards rx) = length (queues s).
Proof using Hrel Hrx.
  pose proof (sl_rx _ _ _ _ _ _ Hrel) as H. rewrite Hrx in H. destruct H as [Hl Hx].
  rewrite (sr_len _ _ _ _ (sl_rep _ _ _ _ _ _ Hrel)). split_and!; try done; [apply Hx|].
  apply (sx_shards _ _ _ _ _ Hx).
Qed.

(** C19. The verdicts of a sharded [try_recv]: it delivers a value exactly when
    some shard holds one, and it reports [Disconnected] exactly when every
    shard is empty and its sender gone; otherwise it reports [Empty]. *)
Theorem sharded_recv_verdict :
  ∃ rx' r st', run i (Sharded.try_recv rx) st = Done (rx', r) st' ∧
    ((∃ v, r = Ok v) ↔ ∃ j c, queues s !! j = Some c ∧ items c ≠ []) ∧
    (r = Err RecvDisconnected ↔ ∀ j c, queues s !! j = Some c → items c = [] ∧ closed c = true).
Proof using Hrel Hrx.
  destruct rx_parts as (Hl & Hx & Hcur & _).
  destruct (shard_recv_run i per shs st rx _ _ _ (sl_rep _ _ _ _ _ _ Hrel) Hx (srel_live _ _ _ _ _ _ Hrel Hl))
    as (rx' & st' & Hpost).
  pose proof (spec_shard_recv_verdict (queues s) (cur s) (bud s) Hcur) as Hv.
  destruct (spec_shard_recv _ _ _) as [[[cs c] b] r]. destruct Hpost as (Hrun & _).
  by exists rx', r, st'.
Qed.

(** C21. A [drain] whose callback never panics returns the number of values it
    passed to the callback, at most [max], and less than [max] only when it
    has emptied every shard. *)
Theorem sharded_drain_complete fuel max :
  is_usize max → (Z.to_nat per < fuel)%nat →
  ∃ rx' got st' cs' cur' bud',
    run i (Sharded.drain fuel rx max (collect (λ _, true)) []) st =
      Done (rx', got, Returned (Z.of_nat (length got))) st' ∧
    shards_rep per shs st' cs' ∧ sharded_rx shs rx' cs' cur' bud' ∧
    Z.of_nat (length got) ≤ max ∧
    (Z.of_nat (length got) < max → ∀ j c, cs' !! j = Some c → items c = []).
Proof using Hrel Hrx.
  intros Hmax Hfuel. destruct rx_parts as (Hl & Hx & Hcur & Hlen).
  assert (0 ≤ max) as Hm0 by apply Hmax.
  destruct (drain_sweep_run (collect (λ _, true)) i per shs fuel max (length (queues s)) Hmax Hfuel st rx
    _ _ _ [] 0 (sl_rep _ _ _ _ _ _ Hrel) Hx (srel_live _ _ _ _ _ _ Hrel Hl) ltac:(lia))
    as (rx' & st' & Hpost).
  pose proof (spec_drain_sweep_complete max (length (queues s)) (queues s) (cur s) (bud s) [] 0 Hcur Hm0) as Hd.
  pose proof (drain_popped (λ _, true) (length (queues s)) max (queues s) (cur s) (bud s) [] 0) as [Hl' _].
  unfold Sharded.drain. rewrite Hlen.
  destruct (spec_drain_sweep _ _ _ _ _ _ _ _) as [[[[cs' cur'] bud'] env'] e].
  destruct Hd as (got & -> & -> & Hle & Hempty). destruct Hpost as (Hrun & Hr & Hx' & _).
  exists rx', got, st', cs', cur', bud'. split_and!; [exact Hrun|done|done|lia|].
  intros Hlt j c Hj. cbn in Hl'. pose proof (lookup_lt_Some _ _ _ Hj) as Hjl. rewrite Hl' in Hjl.
  destruct (visited_all (length (queues s)) (cur s) j Hcur Hjl) as (k & Hk & Hv).
  apply (Hempty ltac:(lia) k Hk c). by rewrite Hv.
Qed.
End receiver.

(** ** Concrete channels: two shards of two slots *)

(** Thirty-two values through shard 0, then one more in each shard. *)
Definition demo_budget : list (shard_op Z) :=
  concat (replicate 32 [ShTrySend 0 5; ShTryRecv]) ++ [ShTrySend 0 6; ShTrySend 1 7].

Lemma demo_reach (ops : list (shard_op Z)) :
  Forall shard_op_ok ops → Z.of_nat (length ops) ≤ 1000 →
  ∃ shs m hs st, srel 2 shs m (shard_spec_run (λ _, true) 2 ops (shard_init 2)).2 hs st ∧
    length shs = 2%nat ∧ m ≤ 1000.
Proof.
  intros Hops Hlen.
  destruct (sharded_channel_run 0 2 4 Backoff (empty_state (T := Z))) as (shs & txs & rx & st & _ & _ & Hrel);
    [split; vm_compute; (reflexivity || discriminate)|reflexivity
    |split; vm_compute; (reflexivity || discriminate)|reflexivity|discriminate|reflexivity|].
  destruct (shard_reach (λ _, true) 8 2 shs ops 0 _ _ _ Hrel Hops) as (hs & st' & Hrel').
  - vm_compute. lia.
  - unfold usize_max. pose proof usize_modulus_ge. lia.
  - exists shs, (0 + Z.of_nat (length ops)), hs, st'. split; [done|]. split; [|lia].
    by rewrite <-(sr_len _ _ _ _ (sl_rep _ _ _ _ _ _ Hrel)).
Qed.

Lemma demo_receiver (ops : list (shard_op Z)) shs m hs (st : seqst Z) :
  srel 2 shs m (shard_spec_run (λ _, true) 2 ops (shard_init 2)).2 hs st →
  rx_live (shard_spec_run (λ _, true) 2 ops (shard_init 2)).2 = true →
  ∃ rx, h_rx hs = Some rx ∧
    Sharded.budget rx = bud (shard_spec_run (λ _, true) 2 ops (shard_init 2)).2.
Proof.
  intros Hrel Hl. pose proof (sl_rx _ _ _ _ _ _ Hrel) as Hrx.
  destruct (h_rx hs) as [rx|]; [|congruence]. exists rx. split; [done|]. apply Hrx.
Qed.

Lemma sharded_recv_verdict_witness :
  ∃ (rx rx' : Sharded.Receiver) (st st' : seqst Z),
    run 0 (Sharded.try_recv rx) st = Done (rx', Err RecvDisconnected) st'.
Proof.
  destruct (demo_reach [ShDropSender 1; ShTrySend 0 3; ShTryRecv; ShDropSender 0]) as (shs & m & hs & st & Hrel & _);
    [repeat constructor|vm_compute; discriminate|].
  destruct (demo_receiver _ _ _ _ _ Hrel eq_refl) as (rx & Hrx & _).
  destruct (sharded_recv_verdict 0 2 shs m _ hs st rx Hrel Hrx) as (rx' & r & st' & Hrun & _ & Hd).
  exists rx, rx', st, st'. rewrite Hrun. do 2 f_equal. apply Hd.
  intros [|[|j]] c; vm_compute; [intros [= <-]; done..|done].
Defined.

Lemma sharded_drain_complete_witness :
  ∃ (rx rx' : Sharded.Receiver) got (st st' : seqst Z),
    run 0 (Sharded.drain 8 rx 5 (collect (λ _, true)) []) st =
      Done (rx', got, Returned (Z.of_nat (length got))) st' ∧ Z.of_nat (length got) ≤ 5.
Proof.
  destruct (demo_reach demo_budget) as (shs & m & hs & st & Hrel & _);
    [repeat constructor|vm_compute; discriminate|].
  destruct (demo_receiver _ _ _ _ _ Hrel eq_refl) as (rx & Hrx & _).
  destruct (sharded_drain_complete 0 2 shs m _ hs st rx Hrel Hrx 8 5) as (rx' & got & st' & ? & ? & ? & Hrun & _ & _ & Hle & _);
    [split; vm_compute; (reflexivity || discriminate)|vm_compute; lia|].
  exists rx, rx', got, st, st'. split; [exact Hrun|exact Hle].
Defined.
