(* ===== verification/ShardedFair.v ===== *)
(** Fairness of the sharded receiver: the visit budget bounds how long a shard
    that holds a value waits for its turn. The bound is a measure on cursor and
    budget that every [try_recv] serving another shard decreases and that no
    other call increases. *)
From S2P Require Import Prelude Usize Atomic Errors Wait Notify Ring Queue Spsc Seq NotifySeq SpscSeq ShardedSeq ShardedRefine ShardedProps.
From S2P Require Sharded.
Local Open Scope Z_scope.

(** ** The way from the cursor to a shard *)

Section way.
Context (n : nat).
Implicit Types cur j k : nat.

(** How many times the cursor advances before it is at [j]. *)
Definition ahead (cur j : nat) : nat := if decide (cur ≤ j)%nat then j - cur else n + j - cur.

Lemma ahead_lt cur j : (cur < n)%nat → (j < n)%nat → (ahead cur j < n)%nat.
Proof. intros. unfold ahead. case_decide; lia. Qed.

Lemma ahead_self j : ahead j j = 0%nat.
Proof. unfold ahead. case_decide; lia. Qed.

Lemma ahead_next cur j :
  (cur < n)%nat → (j < n)%nat → cur ≠ j → S (ahead (next_cursor n cur) j) = ahead cur j.
Proof. intros. unfold ahead, next_cursor. repeat case_decide; lia. Qed.

Lemma ahead_here cur j : (cur < n)%nat → (j < n)%nat → ahead cur j = 0%nat → cur = j.
Proof. intros. unfold ahead in *. case_decide; lia. Qed.

Lemma ahead_visited cur j k :
  (cur < n)%nat → (j < n)%nat → (k ≤ ahead cur j)%nat →
  ahead (visited n cur k) j = (ahead cur j - k)%nat.
Proof.
  intros Hc Hj. induction k as [|k IH]; intros Hk; [simpl; lia|].
  specialize (IH ltac:(lia)). change (visited n cur (S k)) with (next_cursor n (visited n cur k)).
  pose proof (visited_lt n cur k Hc) as Hv.
  destruct (decide (visited n cur k = j)) as [Heq|Hne].
  - rewrite Heq, ahead_self in IH. lia.
  - pose proof (ahead_next _ _ Hv Hj Hne). lia.
Qed.

Lemma visited_ahead cur j : (cur < n)%nat → (j < n)%nat → visited n cur (ahead cur j) = j.
Proof.
  intros Hc Hj. apply ahead_here; [by apply visited_lt|done|].
  rewrite ahead_visited by done. lia.
Qed.
End way.

(** How many calls of [try_recv] serve shard [j] at the latest. *)
Definition turns (n cur : nat) (bud : Z) (j : nat) : Z :=
  let '(cur, bud) := spec_start n cur bud in
  if decide (cur = j) then 1 else Sharded.VISIT_BUDGET * Z.of_nat (ahead n cur j) + 1 - bud.

(** Where the receiver's cursor and budget may be. *)
Definition placed (n cur : nat) (bud : Z) : Prop := (cur < n)%nat ∧ 0 ≤ bud ≤ Sharded.VISIT_BUDGET.

Lemma start_placed n cur bud :
  placed n cur bud → let '(cur', bud') := spec_start n cur bud in
  (cur' < n)%nat ∧ 0 ≤ bud' < Sharded.VISIT_BUDGET.
Proof.
  intros [Hc Hb]. unfold spec_start, Sharded.VISIT_BUDGET in *.
  destruct (Z.geb_spec bud 32); [split; [by apply next_cursor_lt|lia]|lia].
Qed.

Lemma turns_bounds n cur bud j :
  placed n cur bud → (j < n)%nat → 1 ≤ turns n cur bud j ≤ Sharded.VISIT_BUDGET * (Z.of_nat n - 1) + 1.
Proof.
  intros Hp Hj. pose proof (start_placed _ _ _ Hp) as Hst. unfold turns.
  destruct (spec_start n cur bud) as [cur' bud']. destruct Hst as [Hc Hb].
  unfold Sharded.VISIT_BUDGET in *. case_decide; [lia|].
  pose proof (ahead_lt n cur' j Hc Hj).
  assert (ahead n cur' j ≠ 0%nat) by (intros Heq%ahead_here; done). lia.
Qed.

(** Moving on with a fresh budget costs nothing. *)
Lemma turns_advance n cur bud j :
  placed n cur bud → (j < n)%nat → cur ≠ j → turns n (next_cursor n cur) 0 j ≤ turns n cur bud j.
Proof.
  intros [Hc Hb] Hj Hne. pose proof (ahead_next n cur j Hc Hj Hne) as Ha.
  unfold turns, spec_start, Sharded.VISIT_BUDGET in *. change (0 >=? 32) with false. cbv iota.
  destruct (Z.geb_spec bud 32); [done|]. rewrite (decide_False (P := cur = j)) by done.
  case_decide; lia.
Qed.

(** ** What each call does to a shard that waits *)

Section waiting.
Context `{tgt : Target} {T : Type} (cb : T → bool).
Implicit Types (c : Chan T) (cs : list (Chan T)) (s : shard_spec (T := T)) (o : shard_op T).

(** The first value [v] of shard [j] was delivered, or it is still there and its
    turn is no further. *)
Definition nearer (delivered : Prop) (j : nat) (v : T) c cs' (turns0 turns1 : Z) : Prop :=
  ∃ c', cs' !! j = Some c' ∧
    (delivered ∧ popped c < popped c' ∨ hd_error (items c') = Some v ∧ popped c' = popped c ∧ turns1 ≤ turns0).

Lemma nearer_same delivered cs' j v c t t' :
  cs' !! j = Some c → hd_error (items c) = Some v → t' ≤ t → nearer delivered j v c cs' t t'.
Proof. intros. exists c. auto. Qed.

Lemma recv_nearer cs cur bud j c v :
  placed (length cs) cur bud → cs !! j = Some c → hd_error (items c) = Some v →
  let '(cs', cur', bud', r) := spec_shard_recv cs cur bud in
  length cs' = length cs ∧ placed (length cs) cur' bud' ∧
  nearer (r = Ok v) j v c cs' (turns (length cs) cur bud j) (turns (length cs) cur' bud' j + 1).
Proof.
  intros Hp Hj Hhead. assert (items c ≠ []) as Hitems by by intros Hn; rewrite Hn in Hhead. pose proof (lookup_lt_Some _ _ _ Hj) as Hjl.
  pose proof (start_placed _ _ _ Hp) as Hst. unfold turns at 1. unfold spec_shard_recv.
  destruct (spec_start _ _ _) as [cur1 bud1]. destruct Hst as [Hc Hb].
  pose proof (spec_sweep_cases (length cs) cs cur1 bud1 0 Hc) as Hcases.
  pose proof (visited_ahead _ _ _ Hc Hjl) as Hva. pose proof (ahead_lt _ _ _ Hc Hjl) as Hal.
  destruct (spec_sweep _ _ _ _ _) as [[[cs' cur'] bud'] [v'|d]].
  2: { destruct Hcases as (_ & _ & Hempty & _). destruct Hitems.
       apply (Hempty (ahead (length cs) cur1 j) Hal). by rewrite Hva. }
  destruct Hcases as (k & c' & q & Hk & -> & Hempty & Hc' & Hi & -> & ->).
  assert (k ≤ ahead (length cs) cur1 j)%nat as Hka.
  { destruct (decide (ahead (length cs) cur1 j < k)%nat) as [Hlt|]; [|lia].
    destruct Hitems. apply (Hempty _ Hlt). by rewrite Hva. }
  rewrite length_insert. split; [done|].
  pose proof (visited_lt (length cs) cur1 k Hc) as Hv.
  split; [split; [done|]; unfold Sharded.VISIT_BUDGET in *; case_decide; lia|].
  destruct (decide (k = ahead (length cs) cur1 j)) as [->|Hne].
  - rewrite Hva in *. eexists. split; [by apply list_lookup_insert_eq|]. left.
    assert (c' = c) as -> by congruence. unfold spec_try_recv. rewrite Hi in *. simpl in *.
    split; [congruence|lia].
  - assert (visited (length cs) cur1 k ≠ j) as Hvj.
    { intros Heq. pose proof (ahead_visited _ _ _ k Hc Hjl Hka) as Ha. rewrite Heq in Ha.
      rewrite ahead_self in Ha. lia. }
    exists c. rewrite list_lookup_insert_ne by done. split; [done|]. right. split_and!; [done..|].
    rewrite (decide_False (P := cur1 = j)).
    2: { intros ->. rewrite ahead_self in Hne, Hka. lia. }
    pose proof (ahead_visited _ _ _ k Hc Hjl Hka) as Ha.
    pose proof (ahead_next _ _ _ Hv Hjl Hvj) as Hn.
    unfold turns, spec_start, Sharded.VISIT_BUDGET in *.
    destruct (Z.geb_spec ((if decide (k = 0%nat) then bud1 else 0) + 1) 32);
      repeat case_decide; lia.
Qed.

Lemma drain_placed max n : ∀ cs cur bud env count,
  placed (length cs) cur bud →
  let '(cs', cur', bud', _, _) := spec_drain_sweep n cs cur bud max (collect cb) env count in
  length cs' = length cs ∧ placed (length cs) cur' bud'.
Proof.
  induction n as [|n IH]; intros cs cur bud env count Hp; [done|]. cbn [spec_drain_sweep].
  destruct (cs !! cur) as [c|]; [|done]. case_bool; [done|].
  destruct (spec_drain _ _ _ _) as [[env' [took|]] c']; [|by rewrite length_insert].
  case_bool; [by rewrite length_insert|].
  specialize (IH (<[cur := c']> cs) (next_cursor (length cs) cur) 0 env' (count + took)).
  rewrite length_insert in IH. apply IH. destruct Hp.
  split; [by apply next_cursor_lt|unfold Sharded.VISIT_BUDGET; lia].
Qed.

Lemma drain_items_seen max env count (q : list T) :
  env `prefix_of` (spec_drain_items max (collect cb) env count q).1.1.
Proof.
  revert env count. induction q as [|v q IH]; intros env count; simpl; [done|].
  case_bool; [|done]. unfold collect at 1. destruct (cb v); [|by apply prefix_app_r].
  etrans; [|apply IH]. by apply prefix_app_r.
Qed.

Lemma drain_seen max n : ∀ cs cur bud env count,
  env `prefix_of` (spec_drain_sweep n cs cur bud max (collect cb) env count).1.2.
Proof.
  induction n as [|n IH]; intros cs cur bud env count; [done|]. cbn [spec_drain_sweep].
  destruct (cs !! cur) as [c|]; [|done]. case_bool; [done|].
  pose proof (drain_items_seen (max - count) env 0 (items c)) as Hseen. unfold spec_drain.
  destruct (spec_drain_items _ _ _ _ _) as [[env' [took|]] q]; [|done].
  case_bool; [done|]. etrans; [exact Hseen|apply IH].
Qed.

(** A drain that may take something takes the first value at least. *)
Lemma drain_takes want env c v :
  0 < want → hd_error (items c) = Some v →
  popped c < popped (spec_drain want (collect cb) env c).2 ∧
  v ∈ (spec_drain want (collect cb) env c).1.1.
Proof.
  intros Hw Hi. unfold spec_drain.
  destruct (items c) as [|v' q] eqn:Hq; [done|]. injection Hi as ->. cbn [spec_drain_items].
  rewrite (proj2 (Z.ltb_lt _ _) Hw). unfold collect at 1 3. destruct (cb v).
  - destruct (spec_drain_items_suffix want (collect cb) (env ++ [v]) (0 + 1) q) as [k Hk].
    destruct (drain_items_seen want (env ++ [v]) (0 + 1) q) as [l Hl].
    destruct (spec_drain_items _ _ _ _ q) as [[env' e] q']. unfold taken, pushed. simpl in *.
    rewrite Hq, Hl. simpl. rewrite Hk, length_app. split; [lia|set_solver].
  - unfold taken, pushed. simpl. rewrite Hq. simpl. split; [lia|set_solver].
Qed.

(** A shard once served stays so. *)
Lemma nearer_popped (delivered : Prop) cs cs' j v c c1 t t' :
  delivered → cs !! j = Some c → popped c < popped c1 → only_popped (<[j := c1]> cs) cs' →
  nearer delivered j v c cs' t t'.
Proof.
  intros HD Hc Hlt [Hlen Hpop]. pose proof (lookup_lt_Some _ _ _ Hc) as Hl.
  rewrite length_insert in Hlen.
  destruct (lookup_lt_is_Some_2 cs' j) as [c' Hc']; [lia|]. exists c'. split; [done|left].
  destruct (Hpop j c1 c') as [? _]; [by apply list_lookup_insert_eq|done|split; [done|lia]].
Qed.

Lemma drain_nearer max n : ∀ cs cur bud env count j v c,
  placed (length cs) cur bud → cs !! j = Some c → hd_error (items c) = Some v →
  let '(cs', cur', bud', seen, _) := spec_drain_sweep n cs cur bud max (collect cb) env count in
  nearer (v ∈ seen) j v c cs' (turns (length cs) cur bud j) (turns (length cs) cur' bud' j).
Proof.
  induction n as [|n IH]; intros cs cur bud env count j v c Hp Hj Hitems; [by apply nearer_same|].
  pose proof Hp as [Hc Hb]. pose proof (lookup_lt_Some _ _ _ Hj) as Hjl. cbn [spec_drain_sweep].
  destruct (lookup_lt_is_Some_2 cs cur Hc) as [c0 Hc0]. rewrite Hc0.
  destruct (Z.geb_spec count max); [by apply nearer_same|].
  destruct (spec_drain (max - count) (collect cb) env c0) as [[env' e] c1] eqn:Hd.
  destruct (decide (cur = j)) as [->|Hne].
  - assert (c0 = c) as -> by congruence.
    destruct (drain_takes (max - count) env c v ltac:(lia) Hitems) as [Htake Hv]. rewrite Hd in Htake, Hv.
    destruct e as [took|]; [|by eapply nearer_popped, only_popped_refl].
    destruct (took =? max - count); [by eapply nearer_popped, only_popped_refl|].
    pose proof (drain_popped cb n max (<[j := c1]> cs) (next_cursor (length cs) j) 0 env' (count + took)) as Hpop.
    destruct (drain_seen max n (<[j := c1]> cs) (next_cursor (length cs) j) 0 env' (count + took)) as [l Hseen].
    destruct (spec_drain_sweep n _ _ _ _ _ _ _) as [[[[cs' cur'] bud'] ?] ?]. simpl in *.
    eapply nearer_popped; [|done..]. subst. set_solver.
  - assert (<[cur := c1]> cs !! j = Some c) as Hj1 by by rewrite list_lookup_insert_ne.
    destruct e as [took|]; [|by apply nearer_same].
    destruct (took =? max - count); [by apply nearer_same|].
    specialize (IH (<[cur := c1]> cs) (next_cursor (length cs) cur) 0 env' (count + took) j v c).
    rewrite length_insert in IH.
    assert (placed (length cs) (next_cursor (length cs) cur) 0) as Hp'
      by (split; [by apply next_cursor_lt|unfold Sharded.VISIT_BUDGET; lia]).
    specialize (IH Hp' Hj1 Hitems). pose proof (turns_advance _ _ _ _ Hp Hjl Hne) as Ht.
    destruct (spec_drain_sweep n _ _ _ _ _ _ _) as [[[[cs' cur'] bud'] ?] ?].
    destruct IH as (c' & Hc' & [|(? & ? & ?)]); exists c'; (split; [done|]); [by left|right].
    split_and!; [done..|lia].
Qed.

(** Calls the receiver outlives. *)
Definition keeps_receiver o : Prop := match o with ShDropReceiver => False | _ => True end.
Definition receives o : Z := match o with ShTryRecv => 1 | _ => 0 end.
(** How often a client calls [try_recv]. *)
Definition receptions (ops : list (shard_op T)) : Z := foldr (λ o n, receives o + n) 0 ops.

(** The call handed [v] to the client or to its callback. *)
Definition hands_over (v : T) (ob : obs T) : Prop :=
  match ob with
  | ObsRecv r => r = Ok v
  | ObsDrain seen _ => v ∈ seen
  | _ => False
  end.

Definition in_place s : Prop := rx_live s = true ∧ placed (length (queues s)) (cur s) (bud s).
Definition turns_of s (j : nat) : Z := turns (length (queues s)) (cur s) (bud s) j.

Lemma call_nearer per o s j v c :
  in_place s → keeps_receiver o → queues s !! j = Some c → hd_error (items c) = Some v →
  let '(ob, s') := shard_spec_step cb per o s in
  in_place s' ∧ length (queues s') = length (queues s) ∧
  nearer (hands_over v ob) j v c (queues s') (turns_of s j) (turns_of s' j + receives o).
Proof.
  intros [Hl Hp] Ho Hj Hhead. unfold in_place, turns_of.
  assert (∀ D k c0 c1, queues s !! k = Some c0 → popped c1 = popped c0 →
    (hd_error (items c0) = Some v → hd_error (items c1) = Some v) → nearer D j v c (<[k := c1]> (queues s))
      (turns_of s j) (turns_of s j + 0)) as Hquiet.
  { intros D k c0 c1 Hk Hpop Hi. rewrite Z.add_0_r. destruct (decide (k = j)) as [->|Hne].
    - assert (c0 = c) as -> by congruence. exists c1.
      split; [apply list_lookup_insert_eq; by eapply lookup_lt_Some|]. right. split_and!; [auto|done|lia].
    - apply nearer_same; [by rewrite list_lookup_insert_ne|done|lia]. }
  assert (nearer False j v c (queues s) (turns_of s j) (turns_of s j + 0)) as Hsame
    by (apply nearer_same; [done..|lia]). unfold turns_of in *.
  destruct o as [k w| |max|k|]; cbn [shard_spec_step]; try done.
  - destruct (tx_live s !! k) as [[]|]; try done. destruct (queues s !! k) as [ck|] eqn:Hk; [|done].
    destruct (spec_try_send per ck w) as [r c1] eqn:Hs. simpl. rewrite length_insert.
    split_and!; [done..|]. apply (Hquiet _ k ck); [done|..]; unfold spec_try_send in Hs;
      repeat case_match; simplify_eq/=; try done; by destruct (items ck).
  - rewrite Hl. pose proof (recv_nearer _ _ _ _ _ _ Hp Hj Hhead) as Hr.
    destruct (spec_shard_recv _ _ _) as [[[cs' cur'] bud'] r]. simpl. destruct Hr as (-> & ? & ?).
    by split_and!.
  - rewrite Hl. pose proof (drain_nearer max (length (queues s)) _ _ _ [] 0 _ _ _ Hp Hj Hhead) as Hd.
    pose proof (drain_placed max (length (queues s)) _ _ _ [] 0 Hp) as Hdp.
    destruct (spec_drain_sweep _ _ _ _ _ _ _ _) as [[[[cs' cur'] bud'] env'] e]. simpl.
    destruct Hdp as [-> ?]. rewrite Z.add_0_r. by split_and!.
  - destruct (tx_live s !! k) as [[]|]; try done. destruct (queues s !! k) as [ck|] eqn:Hk; [|done].
    simpl. rewrite length_insert. split_and!; [done..|]. by apply (Hquiet _ k ck).
Qed.

(** No call puts a value back. *)
Lemma call_popped per o s j c :
  keeps_receiver o → queues s !! j = Some c →
  ∃ c', queues (shard_spec_step cb per o s).2 !! j = Some c' ∧ popped c ≤ popped c'.
Proof.
  intros Ho Hj. pose proof (lookup_lt_Some _ _ _ Hj) as Hlt.
  assert (∀ cs', only_popped (queues s) cs' → ∃ c', cs' !! j = Some c' ∧ popped c ≤ popped c') as Hpop.
  { intros cs' [Hlen Hp]. destruct (lookup_lt_is_Some_2 cs' j) as [c' Hc']; [lia|].
    exists c'. split; [done|]. by eapply Hp. }
  assert (∀ k ck c1, queues s !! k = Some ck → popped c1 = popped ck →
    ∃ c', <[k := c1]> (queues s) !! j = Some c' ∧ popped c ≤ popped c') as Hins.
  { intros k ck c1 Hk Heq. destruct (decide (k = j)) as [->|].
    - exists c1. rewrite list_lookup_insert_eq by done. split; [done|]. simplify_eq. lia.
    - exists c. by rewrite list_lookup_insert_ne. }
  destruct o as [k w| |max|k|]; cbn [shard_spec_step]; try done.
  - destruct (tx_live s !! k) as [[]|]; [|by exists c..]. destruct (queues s !! k) as [ck|] eqn:Hk; [|by exists c].
    destruct (spec_try_send per ck w) as [r c1] eqn:Hs. apply (Hins k ck); [done|].
    unfold spec_try_send in Hs. by repeat case_match; simplify_eq/=.
  - destruct (rx_live s); [|by exists c]. pose proof (recv_popped (queues s) (cur s) (bud s)) as Hr.
    destruct (spec_shard_recv _ _ _) as [[[cs' cur'] bud'] r]. by apply Hpop.
  - destruct (rx_live s); [|by exists c].
    pose proof (drain_popped cb (length (queues s)) max (queues s) (cur s) (bud s) [] 0) as Hd.
    destruct (spec_drain_sweep _ _ _ _ _ _ _ _) as [[[[cs' cur'] bud'] env'] e]. by apply Hpop.
  - destruct (tx_live s !! k) as [[]|]; [|by exists c..]. destruct (queues s !! k) as [ck|] eqn:Hk; [|by exists c].
    by apply (Hins k ck).
Qed.

Lemma run_popped per ops : ∀ s j c,
  Forall keeps_receiver ops → queues s !! j = Some c →
  ∃ c', queues (shard_spec_run cb per ops s).2 !! j = Some c' ∧ popped c ≤ popped c'.
Proof.
  induction ops as [|o ops IH]; intros s j c Hops Hj; [by exists c|].
  apply Forall_cons in Hops as [Ho Hops]. destruct (call_popped per o s j c Ho Hj) as (c1 & Hc1 & Hp1).
  cbn [shard_spec_run]. destruct (shard_spec_step cb per o s) as [ob s1].
  destruct (IH s1 j c1 Hops Hc1) as (c2 & Hc2 & Hp2). destruct (shard_spec_run cb per ops s1) as [obs s2].
  exists c2. split; [done|lia].
Qed.

(** As many receptions as there are turns left serve the shard. *)
Lemma run_serves per ops : ∀ s j v c,
  in_place s → Forall keeps_receiver ops → queues s !! j = Some c → hd_error (items c) = Some v →
  turns_of s j ≤ receptions ops →
  Exists (hands_over v) (shard_spec_run cb per ops s).1 ∧
  ∃ c', queues (shard_spec_run cb per ops s).2 !! j = Some c' ∧ popped c < popped c'.
Proof.
  induction ops as [|o ops IH]; intros s j v c Hs Hops Hj Hhead Hturns.
  { pose proof (lookup_lt_Some _ _ _ Hj) as Hjl.
    pose proof (turns_bounds _ _ _ _ (proj2 Hs) Hjl). unfold turns_of in *. simpl in *. lia. }
  apply Forall_cons in Hops as [Ho Hops].
  pose proof (call_nearer per o s j v c Hs Ho Hj Hhead) as Hstep. cbn [shard_spec_run].
  destruct (shard_spec_step cb per o s) as [ob s1]. destruct Hstep as (Hs1 & Hlen & c1 & Hc1 & Hcase).
  destruct Hcase as [[Hob Hp]|(Hhead1 & Hp & Ht)].
  - destruct (run_popped per ops s1 j c1 Hops Hc1) as (c2 & Hc2 & Hp2).
    destruct (shard_spec_run cb per ops s1) as [obs s2]. split; [by left|]. exists c2. split; [done|lia].
  - cbn [receptions foldr] in Hturns. fold (receptions ops) in Hturns.
    destruct (IH s1 j v c1 Hs1 Hops Hc1 Hhead1 ltac:(lia)) as (Hobs & c2 & Hc2 & Hp2).
    destruct (shard_spec_run cb per ops s1) as [obs s2]. split; [by right|]. exists c2. split; [done|lia].
Qed.
End waiting.

(** C20. No shard starves. Take any state that a client of the sharded channel
    can reach, and a shard [j] whose oldest value is [v]. Whatever the client
    does next - sends on any shard, drains with any callback, senders dropped,
    but not the receiver - as soon as it has called [try_recv] [VISIT_BUDGET]
    times for each other shard and once more, [v] was handed over, and it came
    from shard [j]. The calls together, those so far ([m]) included, are at most
    [usize::MAX], so that no counter wraps. *)
Theorem sharded_recv_fair `{Target} {T} (cb : T → bool) (i : tid) (fuel : nat) per shs m
    (s : shard_spec (T := T)) hs st ops (j : nat) c v :
  srel per shs m s hs st → rx_live s = true → queues s !! j = Some c → hd_error (items c) = Some v →
  Forall shard_op_ok ops → Forall keeps_receiver ops →
  (Z.to_nat per < fuel)%nat → m + Z.of_nat (length ops) ≤ usize_max →
  Sharded.VISIT_BUDGET * (Z.of_nat (length shs) - 1) + 1 ≤ receptions ops →
  ∃ obs st' m' s' hs' c', run i (shard_run cb fuel ops hs) st = Done obs st' ∧
    srel per shs m' s' hs' st' ∧ Exists (hands_over v) obs ∧
    queues s' !! j = Some c' ∧ popped c < popped c'.
Proof.
  intros Hrel Hl Hj Hhead Hok Hkeep Hfuel Hroom Hn.
  destruct (shard_run_reach cb i fuel per shs ops m s hs st Hrel Hok Hfuel Hroom)
    as (hs' & st' & Hrun & Hrel').
  assert (in_place s) as Hs.
  { split; [done|]. pose proof (sl_rx _ _ _ _ _ _ Hrel) as Hrx.
    destruct (h_rx hs) as [rx|]; [|congruence]. destruct Hrx as [_ Hx].
    rewrite (sr_len _ _ _ _ (sl_rep _ _ _ _ _ _ Hrel)). split; apply Hx. }
  pose proof (lookup_lt_Some _ _ _ Hj) as Hjl.
  pose proof (turns_bounds _ _ _ _ (proj2 Hs) Hjl) as Hb.
  rewrite (sr_len _ _ _ _ (sl_rep _ _ _ _ _ _ Hrel)) in Hb.
  destruct (run_serves cb per ops s j v c Hs Hkeep Hj Hhead) as (Hobs & c' & Hc' & Hp).
  { unfold turns_of. rewrite (sr_len _ _ _ _ (sl_rep _ _ _ _ _ _ Hrel)). lia. }
  eexists _, st', _, _, hs', c'. by split_and!.
Qed.

(** Two shards: the value in shard 1 is handed over by the thirty-third
    reception although the sender of shard 0 refills its shard before each. *)
Definition busy_neighbour : list (shard_op Z) := concat (replicate 33 [ShTrySend 0 5; ShTryRecv]).

Lemma sharded_recv_fair_witness :
  ∃ hs (st : seqst Z) obs st', run 0 (shard_run (λ _, true) 8 busy_neighbour hs) st = Done obs st' ∧
    Exists (hands_over 7) obs.
Proof.
  destruct (demo_reach [ShTrySend 1 7]) as (shs & m & hs & st & Hrel & Hlen & Hm);
    [repeat constructor|vm_compute; discriminate|].
  destruct (sharded_recv_fair (λ _, true) 0 8 2 shs m _ hs st busy_neighbour 1 (MkChan 0 [7] false 2) 7 Hrel)
    as (obs & st' & m' & s' & hs' & c' & Hrun & _ & Hobs & _);
    [reflexivity..|repeat constructor|repeat constructor|vm_compute; lia| | |].
  - change (Z.of_nat (length busy_neighbour)) with 66. unfold usize_max. pose proof usize_modulus_ge. lia.
  - rewrite Hlen. vm_compute. discriminate.
  - exists hs, st, obs, st'. split; [exact Hrun|exact Hobs].
Defined.
