(* ===== verification/MpscSeq.v ===== *)
(** Sequential correctness of the MPSC ring: its abstract queue (bounded by
    the capacity and, at the end of the counter's range, by [usize::MAX]), the
    representation invariant over claim, head and availability rounds, and
    the refinement of every operation. *)
From S2P Require Import Prelude Usize Atomic Errors Wait Notify Ring Queue Mpsc Seq NotifySeq.
Local Open Scope Z_scope.

(** ** The abstract channel *)

Record Chan (T : Type) := MkChan {
  popped : Z;
  items : list T;
  n_senders : Z;
  rx_gone : bool;
  refs : Z;
}.
Arguments MkChan {T}.
Arguments popped {T}.
Arguments items {T}.
Arguments n_senders {T}.
Arguments rx_gone {T}.
Arguments refs {T}.

Section spec.
Context `{Target} {T : Type}.
Implicit Types c : Chan T.

Definition pushed c : Z := popped c + Z.of_nat (length (items c)).

Definition new_chan : Chan T := MkChan 0 [] 1 false 2.

Definition with_items c (p : Z) (q : list T) : Chan T :=
  MkChan p q (n_senders c) (rx_gone c) (refs c).

(** No sequence left to claim: the ring holds [capacity] items or the counter
    reached [usize::MAX]. *)
Definition is_full (capacity : Z) c : bool :=
  pushed c >=? saturating_add (popped c) capacity.

Definition spec_try_send (capacity : Z) c (v : T) : result unit (TrySendError T) * Chan T :=
  if rx_gone c then (Err (SendDisconnected v), c)
  else if is_full capacity c then (Err (Full v), c)
  else (Ok tt, with_items c (popped c) (items c ++ [v])).

Definition spec_try_recv c : result T TryRecvError * Chan T :=
  match items c with
  | v :: q => (Ok v, with_items c (popped c + 1) q)
  | [] => (Err (if n_senders c =? 0 then RecvDisconnected else Empty), c)
  end.

(** The channel after its items shrank to the suffix [q]. *)
Definition taken c (q : list T) : Chan T :=
  with_items c (pushed c - Z.of_nat (length q)) q.

Definition spec_drain {S : Type} (max : Z) (f : S → T → S * bool) (env : S) c :
    S * exit * Chan T :=
  let '(env, e, q) := spec_drain_items max f env 0 (items c) in
  (env, e, taken c q).

Lemma mpsc_taken_items c : taken c (items c) = c.
Proof. destruct c. unfold taken, with_items, pushed. simpl. f_equal. lia. Qed.

Lemma mpsc_pushed_taken c q : pushed (taken c q) = pushed c.
Proof. unfold pushed, taken. simpl. unfold pushed. lia. Qed.
End spec.

(** ** Representation *)

Record shared_ok `{Target} (sh : Shared) : Prop := {
  sok_ring : ring_ok (cap sh) (mask sh) (slots_len sh);
  sok_shift : 0 ≤ shift sh ∧ cap sh = 2 ^ shift sh;
}.

(** What the round of sequence number [n]'s slot holds once [n] was
    published; before the first use of the slot, [-1]. *)
Definition round_at (sh : Shared) (n : Z) : Z :=
  if n <? 0 then -1 else round_of sh n.

Record rep_at `{Target} {T} (sh : Shared) (published : Z) (st : seqst T) (c : Chan T) :
    Prop := {
  rep_popped : 0 ≤ popped c;
  rep_bound : Z.of_nat (length (items c)) ≤ cap sh;
  rep_max : pushed c ≤ usize_max;
  rep_claim : atoms st !! claim sh = Some (pushed c);
  rep_head : atoms st !! head sh = Some published;
  rep_senders : atoms st !! senders sh = Some (n_senders c);
  rep_gone : atoms st !! rx_dropped sh = Some (Z.b2z (rx_gone c));
  rep_strong : atoms st !! strong sh = Some (refs c);
  rep_parked : ∃ b, atoms st !! Loc (sh_ring sh) (Parked Consumer) = Some (Z.b2z b);
  rep_waiting : ∃ b, atoms st !! Loc (sh_ring sh) Waiting = Some (Z.b2z b);
  rep_round n : pushed c - cap sh ≤ n < pushed c →
    atoms st !! slot_round sh (slot_of (cap sh) n) = Some (round_at sh n);
  rep_full j v : items c !! j = Some v →
    cells st !! slot_value sh (slot_of (cap sh) (popped c + Z.of_nat j)) = Some (Some v);
  rep_free n : pushed c ≤ n < popped c + cap sh →
    cells st !! slot_value sh (slot_of (cap sh) n) = Some None;
  rep_refs : 0 ≤ n_senders c ≤ refs c ∧ refs c ≤ MAX_REFCOUNT + 1;
}.

Definition rep `{Target} {T} (sh : Shared) (st : seqst T) (c : Chan T) : Prop :=
  rep_at sh (popped c) st c.

Definition sender_ok {T} (sh : Shared) (s : Sender) (c : Chan T) : Prop :=
  s_shared s = sh ∧ 0 ≤ cached_head s ≤ popped c.

Definition receiver_ok {T} (sh : Shared) (r : Receiver) (c : Chan T) : Prop :=
  r_shared r = sh ∧ r_head r = popped c.

(** ** Rounds *)

Section rounds.
Context `{tgt : Target} (sh : Shared) (Hok : shared_ok sh).
Implicit Types n : Z.

Lemma round_of_div n : 0 ≤ n → round_of sh n = as_i64 (n / cap sh).
Proof using Hok.
  intros Hn. destruct (sok_shift _ Hok) as [Hs ->]. unfold round_of.
  by rewrite Z.shiftr_div_pow2.
Qed.

Lemma div_cap_range n : is_usize n → 0 ≤ n / cap sh < 2 ^ 64.
Proof using Hok.
  intros [Hn Hm]. pose proof (cap_pos (sok_ring _ Hok)). pose proof usize_modulus_le.
  split; [by apply Z.div_pos|]. apply Z.div_lt_upper_bound; nia.
Qed.

(** A slot still holding its previous round is never mistaken for published;
    in particular the sentinel [-1] is no round of a [usize]. *)
Lemma round_stale n : is_usize n → (round_at sh (n - cap sh) =? round_of sh n) = false.
Proof using Hok.
  intros Hn. pose proof (cap_pos (sok_ring _ Hok)) as Hc. apply Z.eqb_neq.
  pose proof (div_cap_range n Hn) as Hr. destruct Hn as [Hn Hm].
  rewrite (round_of_div n) by done. unfold round_at.
  destruct (Z.ltb_spec (n - cap sh) 0).
  - rewrite Z.div_small by lia. vm_compute. done.
  - rewrite round_of_div by lia. pose proof (div_add_1 (n - cap sh) _ Hc) as Hd.
    replace (n - cap sh + cap sh) with n in Hd by lia. rewrite Hd in *.
    intros Heq%as_i64_inj; [lia| |done]. 
    pose proof (Z.div_pos (n - cap sh) (cap sh) ltac:(lia) Hc). lia.
Qed.

Lemma round_fresh n : 0 ≤ n → round_at sh n = round_of sh n.
Proof using Type. intros. unfold round_at. destruct (Z.ltb_spec n 0); [lia|done]. Qed.

(** Two sequence numbers of one slot with the same round are the same. *)
Lemma round_inj a b :
  is_usize a → is_usize b → a mod cap sh = b mod cap sh →
  round_of sh a = round_of sh b → a = b.
Proof using Hok.
  intros Ha Hb Hmod Hround. pose proof (cap_pos (sok_ring _ Hok)).
  rewrite !round_of_div in Hround by (apply Ha || apply Hb).
  apply as_i64_inj in Hround; [|by apply div_cap_range..].
  rewrite (Z.div_mod a (cap sh)), (Z.div_mod b (cap sh)) by lia. congruence.
Qed.
End rounds.

(** ** Refinement of the operations *)

(** Spinning and spurious failures change only the by-products of a run. *)
Record timing_frame {T} (st st' : seqst T) : Prop := {
  tf_atoms : atoms st' = atoms st;
  tf_cells : cells st' = cells st;
  tf_slots : slots st' = slots st;
  tf_queues : queues st' = queues st;
  tf_tokens : tokens st' = tokens st;
  tf_next : next_ring st' = next_ring st;
  tf_dropped : dropped st' = dropped st;
  tf_spurious : spurious st' `suffix_of` spurious st;
}.

Lemma spurious_tail {T} (st : seqst T) : tail (spurious st) `suffix_of` spurious st.
Proof. destruct (spurious st) as [|b l]; [done|]. by exists [b]. Qed.

#[global] Instance timing_frame_preorder {T} : PreOrder (@timing_frame T).
Proof.
  split; [by split|]. intros s1 s2 s3 [] []. split; try congruence. by etrans.
Qed.

Lemma timing_pop_spurious {T} (st : seqst T) : timing_frame st (pop_spurious st).
Proof. split; try done. apply spurious_tail. Qed.

Lemma spin_run {T} i n (st : seqst T) :
  ∃ st', run i (repeat_prog n spin_loop) st = Done tt st' ∧ timing_frame st st' ∧
         spurious st' = spurious st.
Proof.
  revert st. induction n as [|n IH]; intros st; cbn [repeat_prog].
  { by exists st. }
  rewrite run_spin.
  destruct (IH (add_hint SpinLoop st)) as (st' & -> & Ht & Hs).
  exists st'. split_and!; [done| |done]. etrans; [|done]. by split.
Qed.

Section refinement.
Context `{tgt : Target} {T : Type} (sh : Shared) (Hok : shared_ok sh).
Implicit Types (st : seqst T) (c : Chan T) (i : tid).

Lemma mpsc_rep_park_frame p st st' c :
  park_frame (sh_ring sh) st st' → rep_at sh p st c → rep_at sh p st' c.
Proof.
  intros Hpf []. split; auto.
  all: try (by rewrite (pf_atoms _ _ _ Hpf) by auto).
  all: try (rewrite (pf_cells _ _ _ Hpf); by auto).
  - by eapply (park_frame_flag _ (Parked Consumer)).
  - by eapply (park_frame_flag _ Waiting).
  - intros n Hn. rewrite (pf_atoms _ _ _ Hpf) by auto. auto.
Qed.

Lemma rep_timing p st st' c : timing_frame st st' → rep_at sh p st c → rep_at sh p st' c.
Proof. intros [Ha Hc _ _ _ _ _ _] []. split; rewrite ?Ha, ?Hc; auto. Qed.

Lemma timing_run_frame r st st' : timing_frame st st' → frame r st st'.
Proof. intros []. by apply frame_same. Qed.

Lemma mpsc_rep_popped_le p st c : rep_at sh p st c → 0 ≤ popped c ≤ pushed c.
Proof. intros []. unfold pushed. lia. Qed.

Lemma rep_is_usize p st c n : rep_at sh p st c → 0 ≤ n ≤ pushed c → is_usize n.
Proof. intros [] ?. unfold is_usize, usize_max in *. lia. Qed.

Lemma index_seq {A} i n (f : nat → prog T A) st :
  is_usize n →
  run i (index (slots_len sh) (Z.land n (mask sh)) ≫= f) st = run i (f (slot_of (cap sh) n)) st.
Proof using Hok.
  intros Hn. rewrite <-(wrap_small n) by done.
  rewrite (index_slot (sok_ring _ Hok)), run_ret. by rewrite (wrap_small n) by done.
Qed.

(** The consumer finds the slot at its cursor published exactly when the
    queue is not empty. *)
Lemma front_round p st c :
  rep_at sh p st c →
  ∃ r, atoms st !! slot_round sh (slot_of (cap sh) (popped c)) = Some r ∧
       (r =? round_of sh (popped c)) = (popped c <? pushed c).
Proof using Hok.
  intros Hr. pose proof (mpsc_rep_popped_le _ _ _ Hr). pose proof (cap_pos (sok_ring _ Hok)).
  pose proof (rep_bound _ _ _ _ Hr) as Hb.
  assert (Hlen : Z.of_nat (length (items c)) = pushed c - popped c) by (unfold pushed; lia).
  destruct (Z.ltb_spec (popped c) (pushed c)).
  - exists (round_at sh (popped c)). rewrite (rep_round _ _ _ _ Hr) by lia.
    split; [done|]. rewrite round_fresh by lia. apply Z.eqb_refl.
  - assert (popped c = pushed c) as -> by lia.
    exists (round_at sh (pushed c - cap sh)). split.
    + rewrite <-(slot_of_sub_cap (sok_ring _ Hok)). apply (rep_round _ _ _ _ Hr). lia.
    + apply (round_stale _ Hok). eapply rep_is_usize; eauto. lia.
Qed.

Lemma slot_published_run {A} i p st c r (f : bool → prog T A) :
  rep_at sh p st c → receiver_ok sh r c →
  run i (slot_published r (r_head r) ≫= f) st = run i (f (popped c <? pushed c)) st.
Proof using Hok.
  intros Hr [Hsh Hh]. unfold slot_published. rewrite Hsh, Hh, !run_assoc.
  pose proof (mpsc_rep_popped_le _ _ _ Hr).
  rewrite index_seq by (eapply rep_is_usize; [exact Hr|lia]). rewrite run_assoc.
  destruct (front_round _ _ _ Hr) as (v & Hv & Heq). erewrite run_load by exact Hv.
  by rewrite Heq, run_ret.
Qed.

Lemma is_full_spec p st c :
  rep_at sh p st c →
  is_full (cap sh) c = false ↔
  Z.of_nat (length (items c)) < cap sh ∧ pushed c < usize_max.
Proof using Type.
  intros Hr. pose proof (rep_bound _ _ _ _ Hr). pose proof (rep_max _ _ _ _ Hr).
  unfold is_full, saturating_add, pushed in *. rewrite Z.geb_leb, Z.leb_gt. lia.
Qed.

(** The two comparisons of the claim loop, the second after a refresh of the
    cached head, decide whether a sequence is left. *)
Lemma full_check_run i st c s :
  rep sh st c → sender_ok sh s c →
  ∃ s', sender_ok sh s' c ∧ ∀ A (g : Sender * bool → prog T A),
    run i ((if pushed c >=? saturating_add (cached_head s) (cap sh) then
              h ← load (head sh) Acquire;
              let self := {| s_shared := sh; cached_head := h |} in
              mret (self, pushed c >=? saturating_add (cached_head self) (cap sh))
            else mret (s, false)) ≫= g) st = run i (g (s', is_full (cap sh) c)) st.
Proof using Type.
  intros Hr [Hsh Hc]. destruct (Z.geb_spec (pushed c) (saturating_add (cached_head s) (cap sh))).
  - exists {| s_shared := sh; cached_head := popped c |}. split.
    { split; [done|]. simpl. pose proof (mpsc_rep_popped_le _ _ _ Hr). lia. }
    intros A g. rewrite run_assoc. by erewrite run_load by apply (rep_head _ _ _ _ Hr).
  - exists s. split; [done|]. intros A g. rewrite run_ret.
    enough (is_full (cap sh) c = false) as -> by done.
    unfold is_full, saturating_add in *. rewrite Z.geb_leb, Z.leb_gt. lia.
Qed.

Lemma claim_loop_run i c fuel : ∀ s b st,
  rep sh st c → sender_ok sh s c → 1 ≤ b ≤ 64 → (length (spurious st) < fuel)%nat →
  ∃ s' st', run i (claim_loop fuel s (pushed c) b) st =
      Done (s', if is_full (cap sh) c then None else Some (pushed c)) st' ∧
    sender_ok sh s' c ∧
    timing_frame (if is_full (cap sh) c then st
                  else set_atoms <[claim sh := pushed c + 1]> st) st'.
Proof using Type.
  induction fuel as [|fuel IH]; intros s b st Hr Hs Hb Hfuel; [lia|].
  destruct (full_check_run i st c s Hr Hs) as (s1 & Hs1 & Hcheck).
  cbn [claim_loop]. destruct (Hs) as [-> _]. rewrite Hcheck. cbv beta iota.
  destruct (is_full (cap sh) c) eqn:Hfull; [by exists s1, st|].
  pose proof (proj1 (is_full_spec _ _ _ Hr) Hfull) as [_ Hmax].
  pose proof (mpsc_rep_popped_le _ _ _ Hr).
  rewrite (run_arith _ _ (pushed c + 1))
    by (apply checked_in_range; unfold is_usize, usize_max in *; lia).
  erewrite run_cas by apply (rep_claim _ _ _ _ Hr). rewrite bool_decide_true by done.
  destruct (hd false (spurious st)) eqn:Hhd; simpl.
  - destruct (spin_run (T := T) i (Z.to_nat b) (pop_spurious st)) as (st2 & Hspin & Ht & Hsp).
    erewrite run_bind_Done by exact Hspin.
    rewrite (run_arith _ _ (b * 2)).
    2: { unfold u32_mul, u32_max. rewrite (proj2 (Z.ltb_ge _ _)), andb_false_r by lia.
         by rewrite Z.mod_small by lia. }
    assert (timing_frame st st2) as Ht2 by (etrans; [apply timing_pop_spurious|done]).
    destruct (IH s1 (Z.min (b * 2) CLAIM_BACKOFF_MAX) st2) as (s' & st' & Hrun & Hs' & Hst').
    { by eapply rep_timing. }
    { done. }
    { unfold CLAIM_BACKOFF_MAX. lia. }
    { rewrite Hsp. simpl. destruct (spurious st); simpl in *; [done|lia]. }
    exists s', st'. split_and!; [done|done|]. etrans; [|exact Hst'].
    destruct Ht2. split; simpl; congruence || done.
  - exists s1. eexists. split_and!; [done|done|].
    split; try done. apply spurious_tail.
Qed.

Lemma mpsc_rep_push st st1 c v :
  rep sh st c → is_full (cap sh) c = false →
  timing_frame (set_atoms <[claim sh := pushed c + 1]> st) st1 →
  rep sh (set_atoms <[slot_round sh (slot_of (cap sh) (pushed c)) := round_of sh (pushed c)]>
           (set_cells <[slot_value sh (slot_of (cap sh) (pushed c)) := Some v]> st1))
      (with_items c (popped c) (items c ++ [v])).
Proof using Hok.
  intros Hr Hfull [Ha Hc _ _ _ _ _ _]. pose proof (sok_ring _ Hok) as Hring.
  apply (is_full_spec _ _ _ Hr) in Hfull as [Hroom Hmax]. destruct Hr.
  assert (pushed (with_items c (popped c) (items c ++ [v])) = pushed c + 1)
    as Hpush by (unfold pushed; simpl; rewrite length_app; simpl; lia).
  split; rewrite ?Hpush; simpl; rewrite ?Ha, ?Hc; simpl;
    try (lookup_loc; done).
  - rewrite length_app; simpl. lia.
  - lia.
  - intros n Hn. destruct (decide (n = pushed c)) as [->|].
    + rewrite lookup_insert_eq. unfold round_at. destruct (Z.ltb_spec (pushed c) 0); [|done].
      unfold pushed in *. lia.
    + rewrite !lookup_insert_ne; [apply rep_round0; lia|loc_ne|].
      intros [=Heq]. apply (slot_of_inj Hring) in Heq; lia.
  - intros j w Hj. apply lookup_snoc_Some in Hj as [[Hlt Hj]|[-> ->]].
    + rewrite lookup_insert_ne; [by apply rep_full0|].
      intros [=Heq]. apply (slot_of_inj Hring) in Heq; unfold pushed in *; lia.
    + by rewrite lookup_insert_eq.
  - intros n Hn. rewrite lookup_insert_ne; [apply rep_free0; unfold pushed in *; lia|].
    intros [=Heq]. apply (slot_of_inj Hring) in Heq; unfold pushed in *; lia.
Qed.

(** The state after the slot read of a pop, before the head is stored. *)
Lemma mpsc_rep_pop p st c v q :
  rep_at sh p st c → items c = v :: q →
  rep_at sh p (set_cells <[slot_value sh (slot_of (cap sh) (popped c)) := None]> st)
    (with_items c (popped c + 1) q).
Proof using Hok.
  intros [] Hq. pose proof (sok_ring _ Hok) as Hring. pose proof (cap_pos Hring).
  assert (pushed (with_items c (popped c + 1) q) = pushed c)
    as Hpush by (unfold pushed; simpl; rewrite Hq; simpl; lia).
  assert (Z.of_nat (length (items c)) = 1 + Z.of_nat (length q)) as Hlen
    by (rewrite Hq; simpl; lia).
  split; rewrite ?Hpush; simpl; auto; try lia.
  - intros j w Hj. rewrite lookup_insert_ne.
    + replace (popped c + 1 + Z.of_nat j) with (popped c + Z.of_nat (S j)) by lia.
      apply rep_full0. by rewrite Hq.
    + apply lookup_lt_Some in Hj.
      intros [=Heq]. apply (slot_of_inj Hring) in Heq; lia.
  - intros n Hn. destruct (decide (n = popped c + cap sh)) as [->|].
    + by rewrite (slot_of_add_cap Hring), lookup_insert_eq.
    + rewrite lookup_insert_ne; [apply rep_free0; lia|].
      rewrite <-(slot_of_add_cap Hring (popped c)).
      intros [=Heq]. apply (slot_of_inj Hring) in Heq; unfold pushed in *; lia.
Qed.

(** Storing the head publishes the pops. *)
Lemma mpsc_rep_publish p st c :
  rep_at sh p st c → rep sh (set_atoms <[head sh := popped c]> st) c.
Proof using Type.
  intros []. split; simpl; try (by rewrite lookup_insert_ne by loc_ne); auto.
  - by rewrite lookup_insert_eq.
  - intros n Hn. lookup_loc. auto.
Qed.

Lemma mpsc_rep_front p st c v q :
  rep_at sh p st c → items c = v :: q →
  cells st !! slot_value sh (slot_of (cap sh) (popped c)) = Some (Some v).
Proof using Type.
  intros Hr Hq. rewrite <-(Z.add_0_r (popped c)).
  apply (rep_full _ _ _ _ Hr 0%nat). by rewrite Hq.
Qed.

(** What an operation started in [st] and now in [st1] leaves: its result,
    the channel it moved to, every other ring, and the drop count. *)
Definition leaves {A} (i : tid) (p : prog T A) st st1 (a : A) (c : Chan T) : Prop :=
  ∃ st', run i p st1 = Done a st' ∧ rep sh st' c ∧
         frame (sh_ring sh) st st' ∧ dropped st' = dropped st ∧
         spurious st' `suffix_of` spurious st.
Definition ends_in {A} i (p : prog T A) st (a : A) c : Prop := leaves i p st st a c.

Lemma mpsc_leaves_ret {A} i st st1 (a : A) c :
  rep sh st1 c → frame (sh_ring sh) st st1 → dropped st1 = dropped st →
  spurious st1 `suffix_of` spurious st → leaves i (mret a) st st1 a c.
Proof using Type. intros. exists st1. split_and!; done. Qed.

(** The common tails of the successful operations: a wake, then the result. *)
Lemma leaves_after {A} i (p : prog T unit) st st1 (a : A) c :
  (∃ st', run i p st1 = Done tt st' ∧ park_frame (sh_ring sh) st1 st') →
  rep sh st1 c → frame (sh_ring sh) st st1 → dropped st1 = dropped st →
  spurious st1 `suffix_of` spurious st → leaves i (p ≫= λ _, mret a) st st1 a c.
Proof using Type.
  intros (st' & Hrun & Hpf) Hr Hf Hd Hs. exists st'.
  erewrite run_bind_Done by exact Hrun. split_and!; [done| | | |].
  - by eapply mpsc_rep_park_frame.
  - etrans; [exact Hf|by apply park_frame_frame].
  - by rewrite (pf_dropped _ _ _ Hpf).
  - by rewrite (pf_spurious _ _ _ Hpf).
Qed.

Lemma wake_consumer_run i p st c :
  rep_at sh p st c →
  ∃ st', run i (if bool_decide (strategy sh = Park)
                then _ ← fence SeqCst; wake (consumer_parker sh) else mret tt) st = Done tt st' ∧
         park_frame (sh_ring sh) st st'.
Proof using Type.
  intros Hr. case_bool_decide; [|by eexists].
  rewrite run_fence. apply wake_run, (rep_parked _ _ _ _ Hr).
Qed.

Lemma wake_producers_run i p st c r :
  rep_at sh p st c → r_shared r = sh →
  ∃ st', run i (wake_producers r) st = Done tt st' ∧ park_frame (sh_ring sh) st st'.
Proof using Type.
  intros Hr Hsh. unfold wake_producers. rewrite Hsh. case_bool_decide; [|by eexists].
  rewrite run_fence. apply wake_all_run, (rep_waiting _ _ _ _ Hr).
Qed.

Lemma mpsc_try_send_run i st c s v fuel :
  rep sh st c → sender_ok sh s c → (length (spurious st) < fuel)%nat →
  ∃ s', ends_in i (try_send fuel s v) st (s', (spec_try_send (cap sh) c v).1)
          (spec_try_send (cap sh) c v).2 ∧
        sender_ok sh s' (spec_try_send (cap sh) c v).2.
Proof using Hok.
  intros Hr Hs Hfuel. pose proof (mpsc_rep_popped_le _ _ _ Hr).
  unfold try_send, spec_try_send, ends_in, leaves. destruct (Hs) as [-> _].
  erewrite run_load_bool by apply (rep_gone _ _ _ _ Hr).
  destruct (rx_gone c) eqn:Hgone; [exists s; split; [by apply mpsc_leaves_ret|done]|].
  erewrite run_load by apply (rep_claim _ _ _ _ Hr).
  destruct (claim_loop_run i c fuel s 1 st Hr Hs ltac:(lia) Hfuel)
    as (s' & st1 & Hrun & Hs' & Ht).
  erewrite run_bind_Done by exact Hrun. cbv beta iota.
  destruct (is_full (cap sh) c) eqn:Hfull; exists s'.
  { split; [|done]. apply mpsc_leaves_ret; [by eapply rep_timing|by apply timing_run_frame|..];
      apply Ht. }
  pose proof (mpsc_rep_push _ _ _ v Hr Hfull Ht) as Hr'.
  pose proof (proj1 (is_full_spec _ _ _ Hr) Hfull) as [Hroom Hmax].
  destruct Ht as [Ha Hc _ _ _ Hn Hd Hsp]. split; [|by destruct Hs'].
  rewrite index_seq by (eapply rep_is_usize; [exact Hr|lia]). erewrite run_write.
  2: { rewrite Hc. simpl. apply (rep_free _ _ _ _ Hr). unfold pushed in *. lia. }
  erewrite run_store.
  2: { simpl. rewrite Ha. simpl. lookup_loc. eexists.
       rewrite <-(slot_of_sub_cap (sok_ring _ Hok)). apply (rep_round _ _ _ _ Hr).
       pose proof (cap_pos (sok_ring _ Hok)). lia. }
  apply leaves_after; [by eapply wake_consumer_run|done| |done|done].
  etrans; [|by apply frame_cells_atoms]. etrans; [by apply (frame_set_atoms _ (claim sh))|].
  by apply frame_same.
Qed.

Lemma head_in_range p st c v q :
  rep_at sh p st c → items c = v :: q → usize_add (popped c) 1 = Some (popped c + 1).
Proof using Type.
  intros Hr Hq. apply checked_in_range. pose proof (rep_max _ _ _ _ Hr) as Hm.
  pose proof (rep_popped _ _ _ _ Hr). unfold pushed, usize_max, is_usize in *.
  rewrite Hq in Hm. simpl in Hm. lia.
Qed.

Lemma published_items c : (popped c <? pushed c) = negb (bool_decide (items c = [])).
Proof using Type.
  unfold pushed. destruct (items c); simpl;
    [apply Z.ltb_ge|apply Z.ltb_lt]; lia.
Qed.

Lemma mpsc_try_recv_run i st c r :
  rep sh st c → receiver_ok sh r c →
  ∃ r', ends_in i (try_recv r) st (r', (spec_try_recv c).1) (spec_try_recv c).2 ∧
        receiver_ok sh r' (spec_try_recv c).2.
Proof using Hok.
  intros Hr Hrx. destruct (Hrx) as [Hsh Hh]. pose proof (mpsc_rep_popped_le _ _ _ Hr).
  unfold try_recv, spec_try_recv, ends_in, leaves. rewrite Hsh.
  erewrite slot_published_run by eauto. rewrite published_items.
  destruct (items c) as [|v q] eqn:Hq; simpl negb; cbv iota.
  - exists r. split; [|done]. rewrite run_assoc.
    erewrite run_load by apply (rep_senders _ _ _ _ Hr).
    destruct (n_senders c =? 0); [|by apply mpsc_leaves_ret].
    rewrite run_assoc. erewrite slot_published_run by eauto.
    rewrite published_items, Hq. by apply mpsc_leaves_ret.
  - exists {| r_shared := sh; r_head := popped c + 1 |}. split; [|done].
    rewrite run_ret, Hh. rewrite index_seq by (eapply rep_is_usize; [exact Hr|lia]).
    erewrite run_read by (by eapply mpsc_rep_front).
    rewrite (run_arith _ _ _ _ _ (head_in_range _ _ _ _ _ Hr Hq)). cbn [r_head].
    pose proof (mpsc_rep_publish _ _ _ (mpsc_rep_pop _ _ _ _ _ Hr Hq)) as Hr'.
    erewrite run_store by (simpl; eexists; apply (rep_head _ _ _ _ Hr)).
    apply leaves_after; [by eapply wake_producers_run|done| |done|done].
    by apply frame_cells_atoms.
Qed.

Lemma mpsc_drain_loop_run {S} (f : S → T → S * bool) i p max q fuel :
  is_usize max →
  ∀ st c r env count, items c = q → (length q < fuel)%nat → 0 ≤ count →
  rep_at sh p st c → receiver_ok sh r c →
  ∃ r' st',
    run i (drain_loop fuel max r f env count) st =
      Done (r', (spec_drain_items max f env count q).1.1,
            (spec_drain_items max f env count q).1.2) st' ∧
    rep_at sh p st' (taken c (spec_drain_items max f env count q).2) ∧
    receiver_ok sh r' (taken c (spec_drain_items max f env count q).2) ∧
    frame (sh_ring sh) st st' ∧ dropped st' = dropped st ∧ spurious st' = spurious st.
Proof using Hok.
  intros Hmax. revert fuel. induction q as [|v q IH];
    intros fuel st c [sh' h] env count Hq Hfuel Hcount Hr Hrx;
    pose proof Hrx as [Hsh Hh]; simpl in Hsh, Hh; subst sh' h;
    (destruct fuel as [|fuel]; [simpl in Hfuel; lia|]); cbn [drain_loop r_shared r_head];
    pose proof (mpsc_rep_popped_le _ _ _ Hr);
    destruct (front_round _ _ _ Hr) as (rd & Hrd & Heq);
    rewrite published_items, Hq in Heq; simpl in Heq;
    destruct (Z.ltb_spec count max); simpl negb; cbv iota; cbn [spec_drain_items fst snd].
  - rewrite index_seq by (eapply rep_is_usize; [exact Hr|lia]).
    erewrite run_load by exact Hrd. rewrite Heq. simpl negb. cbv iota.
    rewrite <-Hq, mpsc_taken_items. by eexists _, _.
  - rewrite <-Hq, mpsc_taken_items. by eexists _, _.
  - rewrite (proj2 (Z.ltb_lt _ _)) by done.
    rewrite index_seq by (eapply rep_is_usize; [exact Hr|lia]).
    erewrite run_load by exact Hrd. rewrite Heq. simpl negb. cbv iota.
    erewrite run_read by (by eapply mpsc_rep_front).
    rewrite (head_in_range _ _ _ _ _ Hr Hq), (usize_add_count count max) by auto with lia.
    pose proof (mpsc_rep_pop _ _ _ _ _ Hr Hq) as Hr'.
    assert (∀ q', taken (with_items c (popped c + 1) q) q' = taken c q') as Htk
      by (intros; unfold taken, with_items, pushed; simpl; rewrite Hq; simpl; f_equal; lia).
    assert (receiver_ok sh {| r_shared := sh; r_head := popped c + 1 |}
      (with_items c (popped c + 1) q)) as Hrx' by done.
    destruct (f env v) as [env' []]; cbn [fst snd].
    + destruct (IH fuel _ (with_items c (popped c + 1) q) _ env' (count + 1)
        eq_refl ltac:(simpl in Hfuel; lia) ltac:(lia) Hr' Hrx')
        as (r' & st' & Hrun & Hr2 & Hrx2 & Hf & Hd).
      exists r', st'. rewrite !Htk in *. split_and!; [done..| |apply Hd|apply Hd].
      etrans; [by eapply (frame_set_cells _ (slot_value sh _))|done].
    + eexists _, _. rewrite <-Htk.
      replace (taken _ q) with (with_items c (popped c + 1) q)
        by (rewrite <-(mpsc_taken_items (with_items _ _ _)) at 1; done).
      split_and!; [done..| |done|done]. by eapply (frame_set_cells _ (slot_value sh _)).
  - rewrite (proj2 (Z.ltb_ge _ _)) by done. cbn [fst snd].
    rewrite <-Hq, mpsc_taken_items. by eexists _, _.
Qed.

(** [drain] moves a prefix through the callback and publishes the head even
    when the callback panics. *)
Lemma mpsc_drain_run {S} (f : S → T → S * bool) i st c r max env fuel :
  rep sh st c → receiver_ok sh r c → is_usize max → (length (items c) < fuel)%nat →
  ∃ r', ends_in i (drain fuel r max f env) st
          (r', (spec_drain max f env c).1.1, (spec_drain max f env c).1.2)
          (spec_drain max f env c).2 ∧
        receiver_ok sh r' (spec_drain max f env c).2.
Proof using Hok.
  intros Hr Hrx Hmax Hfuel. unfold ends_in, leaves, drain, spec_drain.
  destruct (mpsc_drain_loop_run f i _ max (items c) fuel Hmax st c r env 0 eq_refl Hfuel
    ltac:(lia) Hr Hrx) as (r' & st' & Hrun & Hr' & Hrx' & Hf & Hd & Hsp).
  destruct (spec_drain_items max f env 0 (items c)) as [[env' e] q]; simpl in *.
  exists r'. split; [|done]. erewrite run_bind_Done by exact Hrun.
  (* the guard publishes whatever was taken *)
  assert (∃ st2, ∀ A (g : unit → prog T A),
    run i (publish_guard_drop r' (r_head r) ≫= g) st' = run i (g tt) st2 ∧
    rep sh st2 (taken c q) ∧ frame (sh_ring sh) st st2 ∧ dropped st2 = dropped st ∧
    spurious st2 = spurious st)
    as [st2 Hguard].
  { unfold publish_guard_drop. destruct Hrx as (_ & ->), Hrx' as (-> & ->).
    destruct (Z.eqb_spec (popped (taken c q)) (popped c)) as [He|He]; simpl negb; cbv iota.
    - exists st'. intros A g. unfold rep. rewrite He. done.
    - eexists. intros A g. split_and!.
      + by erewrite run_store by (eexists; apply (rep_head _ _ _ _ Hr')).
      + by apply (mpsc_rep_publish _ _ _ Hr').
      + etrans; [exact Hf|by apply frame_set_atoms].
      + done.
      + done. }
  destruct (Hguard _ (λ _, match e with
    | Unwound => mret (r', env', Unwound)
    | Returned count =>
        _ ← (if 0 <? count then wake_producers r' else mret tt);
        mret (r', env', Returned count) end))
    as (-> & Hr2 & Hf2 & Hd2 & Hsp2).
  destruct e as [n|]; [|apply mpsc_leaves_ret; auto; by rewrite Hsp2].
  destruct (0 <? n); [|apply mpsc_leaves_ret; auto; by rewrite Hsp2].
  apply leaves_after; auto; [|by rewrite Hsp2].
  eapply wake_producers_run; [done|apply Hrx'].
Qed.

(** ** Cloning, closing and dropping *)

Definition with_senders c n : Chan T := MkChan (popped c) (items c) n (rx_gone c) (refs c).
Definition with_refs c n : Chan T := MkChan (popped c) (items c) (n_senders c) (rx_gone c) n.
Definition with_gone c : Chan T := MkChan (popped c) (items c) (n_senders c) true (refs c).

(** Updating one of the counters that the queue does not depend on. *)
Lemma rep_update st c c' l n :
  rep sh st c → popped c' = popped c → items c' = items c →
  l = Loc (sh_ring sh) Senders ∧ n_senders c' = n ∧ rx_gone c' = rx_gone c ∧ refs c' = refs c ∨
  l = Loc (sh_ring sh) StrongCount ∧ refs c' = n ∧ rx_gone c' = rx_gone c ∧
    n_senders c' = n_senders c ∨
  l = Loc (sh_ring sh) RxDropped ∧ n = Z.b2z (rx_gone c') ∧ refs c' = refs c ∧
    n_senders c' = n_senders c →
  0 ≤ n_senders c' ≤ refs c' → refs c' ≤ MAX_REFCOUNT + 1 →
  rep sh (set_atoms <[l := n]> st) c'.
Proof using Type.
  intros [] Hp Hi Hcase Hrefs Hmax.
  assert (pushed c' = pushed c) as Hpush by (unfold pushed; by rewrite Hp, Hi).
  destruct Hcase as [(-> & ? & ? & ?)|[(-> & ? & ? & ?)|(-> & ? & ? & ?)]];
    split; rewrite ?Hpush, ?Hp, ?Hi; simpl;
    try (intros n' Hn'; lookup_loc; by auto); try (lookup_loc; congruence); auto.
Qed.

Lemma drop_prefix_run i p q : ∀ fuel st c,
  items c = q → (length q < fuel)%nat → rep_at sh p st c →
  ∃ st', run i (drop_prefix fuel sh (popped c)) st = Done tt st' ∧
         frame (sh_ring sh) st st' ∧ dropped st' = dropped st ++ q.
Proof using Hok.
  induction q as [|v q IH]; intros fuel st c Hq Hfuel Hr;
    (destruct fuel as [|fuel]; [simpl in Hfuel; lia|]); cbn [drop_prefix];
    pose proof (mpsc_rep_popped_le _ _ _ Hr);
    rewrite index_seq by (eapply rep_is_usize; [exact Hr|lia]);
    destruct (front_round _ _ _ Hr) as (rd & Hrd & Heq);
    rewrite published_items, Hq in Heq; simpl in Heq;
    erewrite run_load by exact Hrd; rewrite Heq; simpl negb; cbv iota.
  { exists st. rewrite app_nil_r. by split_and!. }
  erewrite run_drop by (by eapply mpsc_rep_front).
  rewrite (run_arith _ _ _ _ _ (head_in_range _ _ _ _ _ Hr Hq)).
  pose proof (mpsc_rep_pop _ _ _ _ _ Hr Hq) as Hr'. set (st1 := set_cells _ st) in *.
  assert (rep_at sh p (add_dropped v st1) (with_items c (popped c + 1) q))
    as Hr2 by (destruct Hr'; split; done).
  destruct (IH fuel _ (with_items c (popped c + 1) q) eq_refl ltac:(simpl in Hfuel; lia) Hr2)
    as (st' & Hrun & Hf & Hd).
  exists st'. split_and!; [done| |].
  - etrans; [by apply (frame_set_cells _ (slot_value sh (slot_of (cap sh) (popped c))) None)|].
    etrans; [|exact Hf]. by apply frame_same.
  - rewrite Hd. simpl. by rewrite <-app_assoc.
Qed.

Lemma mpsc_Arc_drop_run i st c :
  rep sh st c → 1 ≤ refs c → n_senders c ≤ refs c - 1 →
  ∃ st', run i (Arc_drop sh) st = Done tt st' ∧ frame (sh_ring sh) st st' ∧
    if refs c =? 1 then dropped st' = dropped st ++ items c
    else dropped st' = dropped st ∧ spurious st' = spurious st ∧
         rep sh st' (with_refs c (refs c - 1)).
Proof using Hok.
  intros Hr Hrefs Hns. unfold Arc_drop. pose proof (rep_refs _ _ _ _ Hr).
  pose proof MAX_REFCOUNT_lt.
  erewrite run_fetch_sub by
    (first [apply (rep_strong _ _ _ _ Hr)|unfold is_usize; lia]).
  assert (rep sh (set_atoms <[strong sh := refs c - 1]> st) (with_refs c (refs c - 1))) as Hr1.
  { apply (rep_update _ _ _ _ _ Hr); simpl; try done; try lia. right; left. by split_and!. }
  set (st1 := set_atoms _ st) in *.
  assert (frame (sh_ring sh) st st1) by (by apply (frame_set_atoms _ (strong sh))).
  destruct (Z.eqb_spec (refs c) 1) as [Hlast|]; [|by exists st1; split_and!].
  rewrite run_fence.
  assert (∃ st', run i (Shared_drop sh) st1 = Done tt st' ∧ frame (sh_ring sh) st1 st' ∧
    dropped st' = dropped st1 ++ items c) as (st' & Hrun & Hf & Hd).
  { unfold Shared_drop. erewrite run_load by apply (rep_head _ _ _ _ Hr1).
    pose proof (rep_bound _ _ _ _ Hr).
    eapply (drop_prefix_run i _ (items c) (S (Z.to_nat (cap sh))) st1
      (with_refs c (refs c - 1))); [done|lia|exact Hr1]. }
  exists (free (sh_ring sh) st'). split_and!; [|etrans; [|apply frame_free]; by etrans|done].
  by erewrite run_bind_Done by exact Hrun.
Qed.

Lemma Sender_clone_run i st c s :
  rep sh st c → s_shared s = sh → refs c ≤ MAX_REFCOUNT → 1 ≤ refs c →
  ∃ s', ends_in i (Sender_clone s) st s' (with_refs (with_senders c (n_senders c + 1)) (refs c + 1)) ∧
        sender_ok sh s' (with_refs (with_senders c (n_senders c + 1)) (refs c + 1)).
Proof using Type.
  intros Hr Hsh Hmax Hpos. unfold Sender_clone, ends_in, leaves. rewrite Hsh.
  pose proof (rep_refs _ _ _ _ Hr). pose proof MAX_REFCOUNT_lt.
  pose proof (rep_popped _ _ _ _ Hr).
  exists {| s_shared := sh; cached_head := 0 |}. split; [|split; [done|simpl; lia]].
  erewrite run_fetch_add by
    (first [apply (rep_senders _ _ _ _ Hr)|unfold is_usize; lia]).
  set (st1 := set_atoms _ st).
  erewrite run_Arc_clone by
    (first [simpl; lookup_loc; apply (rep_strong _ _ _ _ Hr) | lia]).
  apply mpsc_leaves_ret; [| |done|done].
  - (* both counters move before either is read again *)
    destruct Hr. split; simpl; try (lookup_loc; done); try lia.
    intros n Hn. lookup_loc. auto.
  - etrans; by apply frame_set_atoms.
Qed.

(** Dropping a producer handle; the last one wakes the consumer. *)
Lemma Sender_drop_run i st c s :
  rep sh st c → s_shared s = sh → 1 ≤ n_senders c →
  ∃ st', run i (Sender_drop s) st = Done tt st' ∧ frame (sh_ring sh) st st' ∧
    if refs c =? 1 then dropped st' = dropped st ++ items c
    else dropped st' = dropped st ∧ spurious st' = spurious st ∧
         rep sh st' (with_refs (with_senders c (n_senders c - 1)) (refs c - 1)).
Proof using Hok.
  intros Hr Hsh Hpos. unfold Sender_drop. rewrite Hsh.
  pose proof (rep_refs _ _ _ _ Hr). pose proof MAX_REFCOUNT_lt.
  erewrite run_fetch_sub by
    (first [apply (rep_senders _ _ _ _ Hr)|unfold is_usize; lia]).
  assert (rep sh (set_atoms <[senders sh := n_senders c - 1]> st)
    (with_senders c (n_senders c - 1))) as Hr1.
  { apply (rep_update _ _ _ _ _ Hr); simpl; try done; try lia. left. by split_and!. }
  set (st1 := set_atoms _ st) in *.
  assert (∃ st2, run i (if n_senders c =? 1 then
      _ ← fence SeqCst; wake (consumer_parker sh) else mret tt) st1 = Done tt st2 ∧
    park_frame (sh_ring sh) st1 st2) as (st2 & Hrun & Hpf).
  { destruct (n_senders c =? 1); [|by eexists].
    rewrite run_fence. apply wake_run, (rep_parked _ _ _ _ Hr1). }
  erewrite run_bind_Done by exact Hrun.
  destruct (mpsc_Arc_drop_run i st2 (with_senders c (n_senders c - 1)))
    as (st3 & Hrun3 & Hf3 & Hpost); [by eapply mpsc_rep_park_frame|simpl; lia..|].
  exists st3. split_and!; [done| |].
  - etrans; [by apply (frame_set_atoms _ (senders sh))|].
    etrans; [by apply park_frame_frame|done].
  - rewrite (pf_dropped _ _ _ Hpf), (pf_spurious _ _ _ Hpf) in Hpost. exact Hpost.
Qed.

(** Dropping the consumer; every registered producer is woken. *)
Lemma Receiver_drop_run i st c r :
  rep sh st c → r_shared r = sh → 1 ≤ refs c → n_senders c ≤ refs c - 1 →
  ∃ st', run i (Receiver_drop r) st = Done tt st' ∧ frame (sh_ring sh) st st' ∧
    if refs c =? 1 then dropped st' = dropped st ++ items c
    else dropped st' = dropped st ∧ spurious st' = spurious st ∧
         rep sh st' (with_refs (with_gone c) (refs c - 1)).
Proof using Hok.
  intros Hr Hsh Hpos Hns. unfold Receiver_drop. rewrite Hsh.
  erewrite run_store_bool by (eexists; apply (rep_gone _ _ _ _ Hr)). rewrite run_fence.
  assert (rep sh (set_atoms <[rx_dropped sh := Z.b2z true]> st) (with_gone c)) as Hr1.
  { pose proof (rep_refs _ _ _ _ Hr).
    apply (rep_update _ _ _ _ _ Hr); simpl; try done; try lia. by right; right. }
  set (st1 := set_atoms _ st) in *.
  destruct (wake_all_run i (sh_ring sh) st1 (rep_waiting _ _ _ _ Hr1)) as (st2 & Hrun & Hpf).
  erewrite run_bind_Done by exact Hrun.
  destruct (mpsc_Arc_drop_run i st2 (with_gone c)) as (st3 & Hrun3 & Hf3 & Hpost);
    [by eapply mpsc_rep_park_frame|done..|].
  exists st3. split_and!; [done| |].
  - etrans; [by apply (frame_set_atoms _ (rx_dropped sh))|].
    etrans; [by apply park_frame_frame|done].
  - rewrite (pf_dropped _ _ _ Hpf), (pf_spurious _ _ _ Hpf) in Hpost. exact Hpost.
Qed.
End refinement.

(** ** The constructor *)

Lemma initial_rounds_fst n : (initial_rounds n).*1 = Round <$> seq 0 n.
Proof. unfold initial_rounds. by rewrite <-list_fmap_compose. Qed.

Lemma initial_rounds_skip n f : (∀ i, f ≠ Round i) → f ∉ (initial_rounds n).*1.
Proof. rewrite initial_rounds_fst. intros Hf (i & -> & _)%list_elem_of_fmap. by apply (Hf i). Qed.

Lemma initial_rounds_lookup r n i m :
  (i < n)%nat → alloc_atoms r (initial_rounds n) m !! Loc r (Round i) = Some (-1).
Proof.
  intros Hi. apply alloc_atoms_lookup.
  - rewrite initial_rounds_fst. apply NoDup_fmap_2; [intros ?? [=]; done|apply NoDup_seq].
  - apply (list_elem_of_fmap_2 (λ i, (Round i, -1)) _ i), elem_of_seq. lia.
Qed.

(** The constructor builds an empty channel with one sender. *)
Lemma mpsc_channel_run `{tgt : Target} {T} i (capacity : Z) (strat : WaitStrategy) (st : seqst T) :
  0 < capacity ≤ usize_max → is_power_of_two capacity = true →
  ∃ sh s r st',
    run i (channel capacity strat) st = Done (s, r) st' ∧
    cap sh = capacity ∧ strategy sh = strat ∧ sh_ring sh = next_ring st ∧
    next_ring st' = S (next_ring st) ∧ dropped st' = dropped st ∧ spurious st' = spurious st ∧
    shared_ok sh ∧ rep sh st' new_chan ∧
    sender_ok sh s (new_chan (T := T)) ∧ receiver_ok sh r (new_chan (T := T)).
Proof.
  intros Hcap Hpow. pose proof usize_modulus_pos.
  pose proof (proj1 (is_power_of_two_spec _) Hpow) as (k & Hk & Hcapk).
  assert (trailing_zeros capacity = k) as Htz by (rewrite Hcapk; by apply trailing_zeros_pow2).
  set (sh := {| sh_ring := next_ring st; slots_len := capacity; mask := capacity - 1;
                cap := capacity; shift := k; strategy := strat |}).
  assert (Hok : shared_ok sh) by (split; [apply (ring_ok_intro capacity); [lia|lia|done]|done]).
  unfold channel, assert_cap. rewrite (proj2 (Z.ltb_lt 0 capacity)), Hpow by lia.
  simpl andb. cbv iota. rewrite run_Ret.
  rewrite (run_arith _ _ (capacity - 1)).
  2: { apply checked_in_range. unfold is_usize, usize_max in *. lia. }
  rewrite (Z.shiftl_1_l), Htz, <-Hcapk.
  rewrite (wrap_small capacity), Z.eqb_refl, andb_false_r
    by (unfold is_usize, usize_max in *; lia). rewrite run_ret.
  set (init := _ ++ initial_rounds _ ++ Parker_new Consumer ++ WaiterList_new).
  exists sh. eexists _, _. rewrite run_bind.
  change (run i (New (Z.to_nat capacity) init Ret) st) with
    (Done (next_ring st) (alloc (Z.to_nat capacity) init st)).
  cbv beta iota zeta. change (strong _) with (strong sh).
  eexists. split.
  { erewrite run_Arc_clone by
      (first [simpl; by rewrite lookup_insert_eq | pose proof MAX_REFCOUNT_ge; lia]).
    by apply run_mret. }
  split_and!; try done.
  split; unfold pushed; simpl; change (0 + Z.of_nat 0) with 0;
    try (unfold claim, head, senders, rx_dropped, strong; simpl; by lookup_loc); try lia.
  - exists false. lookup_loc.
    rewrite alloc_atoms_app, alloc_atoms_skip by (by apply initial_rounds_skip).
    simpl. by lookup_loc.
  - exists false. lookup_loc.
    rewrite alloc_atoms_app, alloc_atoms_skip by (by apply initial_rounds_skip).
    simpl. by lookup_loc.
  - intros n Hn. lookup_loc. rewrite alloc_atoms_app. unfold round_at.
    rewrite (proj2 (Z.ltb_lt _ _)) by lia.
    apply initial_rounds_lookup. apply (slot_of_lt (sok_ring _ Hok)).
  - intros n Hn. apply alloc_cells_lookup, (slot_of_lt (sok_ring _ Hok)).
  - pose proof MAX_REFCOUNT_ge. lia.
Qed.
