(* ===== verification/MpscRefine.v ===== *)
(** End-to-end sequential behaviour of the MPSC ring: any sequence of calls on
    any number of cloned senders and the receiver behaves as the abstract
    bounded queue, whatever compare-exchanges fail spuriously. *)
From S2P Require Import Prelude Usize Atomic Errors Wait Notify Ring Queue Mpsc Seq NotifySeq MpscSeq.
Local Open Scope Z_scope.

(** ** A client of the channel *)

(** Sender handles are named by the order of their creation. *)
Inductive op (T : Type) :=
  | OpTrySend (k : nat) (v : T)
  | OpClone (k : nat)
  | OpDropSender (k : nat)
  | OpTryRecv
  | OpDrain (max : Z)
  | OpDropReceiver.
Arguments OpTrySend {T} k v.
Arguments OpClone {T} k.
Arguments OpDropSender {T} k.
Arguments OpTryRecv {T}.
Arguments OpDrain {T} max.
Arguments OpDropReceiver {T}.

Section client.
Context `{tgt : Target} {T : Type}.
(** [cb v] is whether the drain callback returns on [v]; it panics otherwise. *)
Variable cb : T → bool.
(** Bounds on the claim loop of a send and on the loop of a drain. *)
Variables cas_fuel fuel : nat.

Definition handles : Type := list (option Sender) * option Receiver.

Definition client_step (o : op T) (hs : handles) : prog T (obs T * handles) :=
  let '(txs, rx) := hs in
  match o with
  | OpTrySend k v =>
      match txs !! k with
      | Some (Some tx) =>
          '(tx, r) ← try_send cas_fuel tx v; mret (ObsSend r, (<[k := Some tx]> txs, rx))
      | _ => mret (NoHandle, hs)
      end
  | OpClone k =>
      match txs !! k with
      | Some (Some tx) => tx' ← Sender_clone tx; mret (ObsCloned, (txs ++ [Some tx'], rx))
      | _ => mret (NoHandle, hs)
      end
  | OpDropSender k =>
      match txs !! k with
      | Some (Some tx) => _ ← Sender_drop tx; mret (ObsDropped, (<[k := None]> txs, rx))
      | _ => mret (NoHandle, hs)
      end
  | OpTryRecv =>
      match rx with
      | Some rx => '(rx, r) ← try_recv rx; mret (ObsRecv r, (txs, Some rx))
      | None => mret (NoHandle, hs)
      end
  | OpDrain max =>
      match rx with
      | Some rx =>
          '(rx, seen, e) ← drain fuel rx max (collect cb) [];
          mret (ObsDrain seen e, (txs, Some rx))
      | None => mret (NoHandle, hs)
      end
  | OpDropReceiver =>
      match rx with
      | Some rx => _ ← Receiver_drop rx; mret (ObsDropped, (txs, None))
      | None => mret (NoHandle, hs)
      end
  end.

Fixpoint client_run (ops : list (op T)) (hs : handles) : prog T (list (obs T)) :=
  match ops with
  | [] => mret []
  | o :: ops =>
      '(ob, hs) ← client_step o hs;
      obs ← client_run ops hs;
      mret (ob :: obs)
  end.

(** The client from the constructor on. *)
Definition client (cap : Z) (strat : WaitStrategy) (ops : list (op T)) : prog T (list (obs T)) :=
  '(tx, rx) ← channel cap strat; client_run ops ([Some tx], Some rx).

(** ** The specification: a bounded queue and who is still alive *)

Record spec_state := MkSpec {
  chan : Chan T;
  tx_live : list bool;
  rx_live : bool;
  destroyed : list T;
}.

Definition spec_init : spec_state := MkSpec new_chan [true] true [].

Definition with_chan (s : spec_state) (c : Chan T) : spec_state :=
  MkSpec c (tx_live s) (rx_live s) (destroyed s).

(** What is dropped with the block when the handle going is the last. *)
Definition destroyed_by_drop (s : spec_state) : list T :=
  if refs (chan s) =? 1 then destroyed s ++ items (chan s) else destroyed s.

Definition is_live (s : spec_state) (k : nat) : bool := default false (tx_live s !! k).

Definition spec_step (cap : Z) (o : op T) (s : spec_state) : obs T * spec_state :=
  let c := chan s in
  match o with
  | OpTrySend k v =>
      if is_live s k then
        let '(r, c) := spec_try_send cap c v in (ObsSend r, with_chan s c)
      else (NoHandle, s)
  | OpClone k =>
      if is_live s k then
        (ObsCloned, MkSpec (with_refs (with_senders c (n_senders c + 1)) (refs c + 1))
           (tx_live s ++ [true]) (rx_live s) (destroyed s))
      else (NoHandle, s)
  | OpDropSender k =>
      if is_live s k then
        (ObsDropped, MkSpec (with_refs (with_senders c (n_senders c - 1)) (refs c - 1))
           (<[k := false]> (tx_live s)) (rx_live s) (destroyed_by_drop s))
      else (NoHandle, s)
  | OpTryRecv =>
      if rx_live s then
        let '(r, c) := spec_try_recv c in (ObsRecv r, with_chan s c)
      else (NoHandle, s)
  | OpDrain max =>
      if rx_live s then
        let '(seen, e, c) := spec_drain max (collect cb) [] c in
        (ObsDrain seen e, with_chan s c)
      else (NoHandle, s)
  | OpDropReceiver =>
      if rx_live s then
        (ObsDropped, MkSpec (with_refs (with_gone c) (refs c - 1))
           (tx_live s) false (destroyed_by_drop s))
      else (NoHandle, s)
  end.

Fixpoint spec_run (cap : Z) (ops : list (op T)) (s : spec_state) : list (obs T) * spec_state :=
  match ops with
  | [] => ([], s)
  | o :: ops =>
      let '(ob, s) := spec_step cap o s in
      let '(obs, s) := spec_run cap ops s in
      (ob :: obs, s)
  end.

(** ** Simulation *)

Definition owns {A} (live : bool) (h : option A) (ok : A → Prop) : Prop :=
  match h with Some a => live = true ∧ ok a | None => live = false end.

Definition live_count (l : list bool) : Z := Z.of_nat (length (filter (λ b, b = true) l)).

Record related (sh : Shared) (s : spec_state) (hs : handles) (st : seqst T) : Prop := {
  rel_tx : Forall2 (λ live h, owns live h (λ tx, sender_ok sh tx (chan s))) (tx_live s) hs.1;
  rel_rx : owns (rx_live s) hs.2 (λ rx, receiver_ok sh rx (chan s));
  rel_senders : n_senders (chan s) = live_count (tx_live s);
  rel_refs : refs (chan s) = live_count (tx_live s) + Z.b2z (rx_live s);
  rel_rep : refs (chan s) ≠ 0 → rep sh st (chan s) ∧ (length (spurious st) < cas_fuel)%nat;
  rel_dropped : dropped st = destroyed s;
}.

Definition op_ok (o : op T) : Prop :=
  match o with OpDrain max => is_usize max | _ => True end.
Definition is_clone (o : op T) : bool := match o with OpClone _ => true | _ => false end.
Definition clones (ops : list (op T)) : Z :=
  Z.of_nat (length (filter (λ o, is_clone o = true) ops)).

(** The call [o] in [st] does what the specification says. *)
Definition simulates (i : tid) sh o s (hs : handles) (st : seqst T) : Prop :=
  ∃ hs' st', run i (client_step o hs) st = Done ((spec_step (cap sh) o s).1, hs') st' ∧
             related sh (spec_step (cap sh) o s).2 hs' st'.

Lemma live_count_app l b : live_count (l ++ [b]) = live_count l + Z.b2z b.
Proof.
  unfold live_count. rewrite filter_app, length_app, filter_cons, filter_nil.
  destruct b; simpl; lia.
Qed.

Lemma live_count_insert l k b c :
  l !! k = Some b → live_count (<[k := c]> l) = live_count l - Z.b2z b + Z.b2z c.
Proof.
  unfold live_count. revert k. induction l as [|a l IH]; intros [|k]; simpl; [done..| |].
  - intros [= ->]. rewrite !filter_cons. destruct b, c; simpl; lia.
  - intros Hk. specialize (IH k Hk). rewrite !filter_cons.
    destruct (decide (a = true)); simpl; lia.
Qed.

Lemma live_count_bounds l : 0 ≤ live_count l ≤ Z.of_nat (length l).
Proof. unfold live_count. pose proof (length_filter (λ b, b = true) l). lia. Qed.

Lemma live_count_pos l k : l !! k = Some true → 1 ≤ live_count l.
Proof.
  intros Hk. pose proof (live_count_insert l k true false Hk).
  pose proof (live_count_bounds (<[k := false]> l)). simpl in *. lia.
Qed.

Lemma mpsc_sender_ok_mono sh tx (c c' : Chan T) :
  sender_ok sh tx c → popped c ≤ popped c' → sender_ok sh tx c'.
Proof. intros [? ?] ?. split; [done|lia]. Qed.

(** What the relation says of one named sender. *)
Lemma related_sender sh s hs st k :
  related sh s hs st →
  match hs.1 !! k with
  | Some (Some tx) => tx_live s !! k = Some true ∧ is_live s k = true ∧ sender_ok sh tx (chan s)
  | _ => is_live s k = false
  end.
Proof.
  intros Hrel. pose proof (proj1 (Forall2_lookup _ _ _) (rel_tx _ _ _ _ Hrel) k) as Hk.
  unfold is_live. inversion Hk as [live h Ho Hl Hh|Hl Hh]; [|done].
  destruct h; simpl in *; [|by subst]. destruct Ho as [-> ?]. done.
Qed.

Lemma related_count sh s hs st :
  related sh s hs st → 0 ≤ live_count (tx_live s) ≤ Z.of_nat (length (tx_live s)).
Proof. intros _. apply live_count_bounds. Qed.

Lemma mpsc_nohandle_sim i sh o s hs st :
  related sh s hs st → client_step o hs = mret (NoHandle, hs) →
  spec_step (cap sh) o s = (NoHandle, s) → simulates i sh o s hs st.
Proof. intros Hrel Hc Hs. exists hs, st. rewrite Hc, Hs. by split. Qed.

(** Changing the queue keeps every handle valid whose counter it respects. *)
Lemma senders_mono sh (l : list bool) txs (c c' : Chan T) :
  Forall2 (λ live h, owns live h (λ tx, sender_ok sh tx c)) l txs → popped c ≤ popped c' →
  Forall2 (λ live h, owns live h (λ tx, sender_ok sh tx c')) l txs.
Proof.
  intros Hf Hp. eapply Forall2_impl; [exact Hf|]. intros b [tx|]; simpl; [|done].
  intros [? ?]. split; [done|]. by eapply mpsc_sender_ok_mono.
Qed.

Lemma mpsc_try_send_sim i sh k v s hs st :
  shared_ok sh → related sh s hs st → simulates i sh (OpTrySend k v) s hs st.
Proof.
  intros Hok Hrel. pose proof (related_sender sh s hs st k Hrel) as Hk.
  destruct hs as [txs rx]. simpl in Hk. cbn [client_step].
  destruct (txs !! k) as [[tx|]|] eqn:Htx;
    [|apply mpsc_nohandle_sim; cbn; by rewrite ?Htx, ?Hk..].
  destruct Hk as (Hl & Hlive & Hs). pose proof (live_count_pos _ _ Hl).
  pose proof Hrel as [Htxs Hrx Hns Hrefs Hrep Hd].
  destruct Hrep as [Hr Hsp]; [destruct (rx_live s); simpl in *; lia|].
  destruct (mpsc_try_send_run sh Hok i st (chan s) tx v cas_fuel Hr Hs Hsp)
    as (tx' & (st' & Hrun & Hr' & _ & Hd' & Hsp') & Hs').
  exists (<[k := Some tx']> txs, rx), st'. cbn [client_step spec_step]. rewrite Htx, Hlive.
  assert (popped (spec_try_send (cap sh) (chan s) v).2 = popped (chan s) ∧
    n_senders (spec_try_send (cap sh) (chan s) v).2 = n_senders (chan s) ∧
    refs (spec_try_send (cap sh) (chan s) v).2 = refs (chan s)) as (Hp & Hn & Hrf).
  { unfold spec_try_send. destruct (rx_gone (chan s)), (is_full (cap sh) (chan s)); done. }
  destruct (spec_try_send (cap sh) (chan s) v) as [r c]; cbn [fst snd] in *.
  split; [by erewrite run_bind_Done by exact Hrun|].
  split; cbn [chan tx_live rx_live destroyed with_chan fst snd]; try congruence.
  - rewrite <-(list_insert_id (tx_live s) k true) by done.
    apply Forall2_insert; [|done]. eapply senders_mono; [exact Htxs|]. lia.
  - destruct rx; simpl in *; [|done]. destruct Hrx as [? [? ?]].
    split; [done|]. split; [done|congruence].
  - intros _. split; [done|]. apply suffix_length in Hsp'. lia.
Qed.

Lemma clone_sim i sh k s hs st :
  shared_ok sh → related sh s hs st → Z.of_nat (length (tx_live s)) < MAX_REFCOUNT →
  simulates i sh (OpClone k) s hs st.
Proof.
  intros Hok Hrel Hmax. pose proof (related_sender sh s hs st k Hrel) as Hk.
  destruct hs as [txs rx]. simpl in Hk. cbn [client_step].
  destruct (txs !! k) as [[tx|]|] eqn:Htx;
    [|apply mpsc_nohandle_sim; cbn; by rewrite ?Htx, ?Hk..].
  destruct Hk as (Hl & Hlive & Hs). pose proof (live_count_pos _ _ Hl).
  pose proof (live_count_bounds (tx_live s)).
  pose proof Hrel as [Htxs Hrx Hns Hrefs Hrep Hd].
  destruct Hrep as [Hr Hsp]; [destruct (rx_live s); simpl in *; lia|].
  assert (refs (chan s) ≤ MAX_REFCOUNT ∧ 1 ≤ refs (chan s)) as [Hm1 Hm2]
    by (destruct (rx_live s); simpl in *; lia).
  destruct (Sender_clone_run sh i st (chan s) tx Hr (proj1 Hs) Hm1 Hm2)
    as (tx' & (st' & Hrun & Hr' & _ & Hd' & Hsp') & Hs').
  exists (txs ++ [Some tx'], rx), st'. cbn [client_step spec_step]. rewrite Htx, Hlive.
  split; [by erewrite run_bind_Done by exact Hrun|].
  split; cbn [chan tx_live rx_live destroyed fst snd]; try congruence.
  - apply Forall2_app; [by eapply senders_mono|]. constructor; [done|constructor].
  - exact Hrx.
  - rewrite live_count_app. simpl. lia.
  - rewrite live_count_app. simpl. lia.
  - intros _. split; [done|]. apply suffix_length in Hsp'. lia.
Qed.

Lemma mpsc_drop_sender_sim i sh k s hs st :
  shared_ok sh → related sh s hs st → simulates i sh (OpDropSender k) s hs st.
Proof.
  intros Hok Hrel. pose proof (related_sender sh s hs st k Hrel) as Hk.
  destruct hs as [txs rx]. simpl in Hk. cbn [client_step].
  destruct (txs !! k) as [[tx|]|] eqn:Htx;
    [|apply mpsc_nohandle_sim; cbn; by rewrite ?Htx, ?Hk..].
  destruct Hk as (Hl & Hlive & Hs). pose proof (live_count_pos _ _ Hl).
  pose proof Hrel as [Htxs Hrx Hns Hrefs Hrep Hd].
  destruct Hrep as [Hr Hsp]; [destruct (rx_live s); simpl in *; lia|].
  destruct (Sender_drop_run sh Hok i st (chan s) tx Hr (proj1 Hs) ltac:(lia))
    as (st' & Hrun & _ & Hpost).
  exists (<[k := None]> txs, rx), st'. cbn [client_step spec_step]. rewrite Htx, Hlive.
  split; [by erewrite run_bind_Done by exact Hrun|].
  split; cbn [chan tx_live rx_live destroyed fst snd].
  - apply Forall2_insert; [|done]. eapply senders_mono; [exact Htxs|done].
  - exact Hrx.
  - rewrite (live_count_insert _ _ true) by done. simpl. lia.
  - rewrite (live_count_insert _ _ true) by done. simpl. lia.
  - intros Hne. simpl in Hne. rewrite (proj2 (Z.eqb_neq _ _)) in Hpost by lia.
    destruct Hpost as (_ & -> & ?). done.
  - unfold destroyed_by_drop. destruct (refs (chan s) =? 1); [congruence|].
    destruct Hpost. congruence.
Qed.

(** The calls of the consumer; [c'] is the channel they leave. *)
Lemma receiver_sim i sh o s txs rx rx' ob c' st st' :
  related sh s (txs, Some rx) st →
  run i (client_step o (txs, Some rx)) st = Done (ob, (txs, Some rx')) st' →
  spec_step (cap sh) o s = (ob, with_chan s c') →
  popped (chan s) ≤ popped c' → n_senders c' = n_senders (chan s) →
  refs c' = refs (chan s) → rep sh st' c' → receiver_ok sh rx' c' →
  dropped st' = dropped st → spurious st' `suffix_of` spurious st →
  simulates i sh o s (txs, Some rx) st.
Proof.
  intros Hrel Hrun Hspec Hp Hn Hrf Hr Hrx Hd Hsp. exists (txs, Some rx'), st'.
  rewrite Hspec. split; [done|]. destruct Hrel as [Htxs [Hl _] Hns Hrefs Hrep Hdr].
  split; cbn [chan tx_live rx_live destroyed with_chan fst snd owns]; try congruence.
  - by eapply senders_mono.
  - done.
  - intros Hne. split; [done|]. apply suffix_length in Hsp.
    destruct Hrep as [_ ?]; [congruence|lia].
Qed.

Lemma related_rx sh s txs rx st :
  related sh s (txs, Some rx) st →
  rx_live s = true ∧ receiver_ok sh rx (chan s) ∧ rep sh st (chan s) ∧
  n_senders (chan s) ≤ refs (chan s) - 1 ∧ 1 ≤ refs (chan s).
Proof.
  intros [_ [Hl Hrx] Hns Hrefs Hrep _]. pose proof (live_count_bounds (tx_live s)).
  rewrite Hl in Hrefs. simpl in Hrefs. destruct Hrep as [Hr _]; [lia|].
  split_and!; try done; lia.
Qed.

Lemma mpsc_try_recv_sim i sh s txs rx st :
  shared_ok sh → related sh s (txs, Some rx) st → simulates i sh OpTryRecv s (txs, Some rx) st.
Proof.
  intros Hok Hrel. destruct (related_rx _ _ _ _ _ Hrel) as (Hl & Hrx & Hr & _ & _).
  destruct (mpsc_try_recv_run sh Hok i st (chan s) rx Hr Hrx)
    as (rx' & (st' & Hrun & Hr' & _ & Hd' & Hsp') & Hrx').
  eapply (receiver_sim i sh OpTryRecv s txs rx rx' (ObsRecv (spec_try_recv (chan s)).1)
    (spec_try_recv (chan s)).2 st st'); try done.
  - cbn [client_step]. by erewrite run_bind_Done by exact Hrun.
  - cbn [spec_step]. rewrite Hl. by destruct (spec_try_recv (chan s)).
  - unfold spec_try_recv. destruct (items (chan s)); simpl; lia.
  - unfold spec_try_recv. by destruct (items (chan s)).
  - unfold spec_try_recv. by destruct (items (chan s)).
Qed.

Lemma mpsc_drain_sim i sh max s txs rx st :
  shared_ok sh → related sh s (txs, Some rx) st → is_usize max →
  (Z.to_nat (cap sh) < fuel)%nat → simulates i sh (OpDrain max) s (txs, Some rx) st.
Proof.
  intros Hok Hrel Hmax Hfuel. destruct (related_rx _ _ _ _ _ Hrel) as (Hl & Hrx & Hr & _ & _).
  destruct (mpsc_drain_run sh Hok (collect cb) i st (chan s) rx max [] fuel Hr Hrx Hmax)
    as (rx' & (st' & Hrun & Hr' & _ & Hd' & Hsp') & Hrx').
  { pose proof (rep_bound _ _ _ _ Hr). lia. }
  eapply (receiver_sim i sh (OpDrain max) s txs rx rx'
    (ObsDrain (spec_drain max (collect cb) [] (chan s)).1.1
              (spec_drain max (collect cb) [] (chan s)).1.2)
    (spec_drain max (collect cb) [] (chan s)).2 st st'); try done.
  - cbn [client_step]. by erewrite run_bind_Done by exact Hrun.
  - cbn [spec_step]. rewrite Hl. by destruct (spec_drain _ _ _ _) as [[??]?].
  - pose proof (spec_drain_items_suffix max (collect cb) [] 0 (items (chan s))) as [k Hk].
    unfold spec_drain. destruct (spec_drain_items _ _ _ _ _) as [[env e] q]. simpl in *.
    unfold pushed. rewrite Hk, length_app. lia.
  - unfold spec_drain. by destruct (spec_drain_items _ _ _ _ _) as [[??]?].
  - unfold spec_drain. by destruct (spec_drain_items _ _ _ _ _) as [[??]?].
Qed.

Lemma mpsc_drop_receiver_sim i sh s txs rx st :
  shared_ok sh → related sh s (txs, Some rx) st →
  simulates i sh OpDropReceiver s (txs, Some rx) st.
Proof.
  intros Hok Hrel. destruct (related_rx _ _ _ _ _ Hrel) as (Hl & Hrx & Hr & Hns & Hpos).
  destruct (Receiver_drop_run sh Hok i st (chan s) rx Hr (proj1 Hrx) Hpos Hns)
    as (st' & Hrun & _ & Hpost).
  exists (txs, None), st'. cbn [client_step spec_step]. rewrite Hl.
  split; [by erewrite run_bind_Done by exact Hrun|].
  destruct Hrel as [Htxs _ Hn Hrefs Hrep Hd].
  split; cbn [chan tx_live rx_live destroyed fst snd owns]; try done.
  - rewrite Hl in Hrefs. simpl in *. lia.
  - intros Hne. simpl in Hne. rewrite (proj2 (Z.eqb_neq _ _)) in Hpost by lia.
    destruct Hpost as (_ & -> & ?). split; [done|]. apply Hrep. lia.
  - unfold destroyed_by_drop. destruct (refs (chan s) =? 1); [congruence|].
    destruct Hpost. congruence.
Qed.

Lemma mpsc_step_sim i sh o s hs st :
  shared_ok sh → related sh s hs st → op_ok o → (Z.to_nat (cap sh) < fuel)%nat →
  (is_clone o = true → Z.of_nat (length (tx_live s)) < MAX_REFCOUNT) →
  simulates i sh o s hs st.
Proof.
  intros Hok Hrel Hop Hfuel Hclone. destruct hs as [txs rx].
  destruct o as [k v|k|k| |max|];
    auto using mpsc_try_send_sim, clone_sim, mpsc_drop_sender_sim.
  all: destruct rx as [rx|]; auto using mpsc_try_recv_sim, mpsc_drain_sim, mpsc_drop_receiver_sim.
  all: pose proof (rel_rx _ _ _ _ Hrel) as Hrx; cbn in Hrx.
  all: apply mpsc_nohandle_sim; [done|done|]; cbn; by rewrite Hrx.
Qed.

Lemma spec_step_live (capacity : Z) o s :
  Z.of_nat (length (tx_live (spec_step capacity o s).2)) ≤
  Z.of_nat (length (tx_live s)) + Z.b2z (is_clone o).
Proof.
  destruct o as [k v|k|k| |max|]; cbn [spec_step]; try destruct (is_live s k); try done; simpl; try lia.
  - destruct (spec_try_send _ _ _); simpl; lia.
  - rewrite length_app. simpl. lia.
  - rewrite length_insert. lia.
  - destruct (rx_live s); [|simpl; lia]. destruct (spec_try_recv _); simpl; lia.
  - destruct (rx_live s); [|simpl; lia]. destruct (spec_drain _ _ _ _) as [[??]?]; simpl; lia.
  - destruct (rx_live s); simpl; lia.
Qed.

Lemma clones_cons o ops : clones (o :: ops) = Z.b2z (is_clone o) + clones ops.
Proof.
  unfold clones. rewrite filter_cons. destruct (is_clone o); simpl; lia.
Qed.

Lemma mpsc_run_sim i sh ops : ∀ s hs st,
  shared_ok sh → related sh s hs st → Forall op_ok ops → (Z.to_nat (cap sh) < fuel)%nat →
  Z.of_nat (length (tx_live s)) + clones ops ≤ MAX_REFCOUNT →
  ∃ st', run i (client_run ops hs) st = Done (spec_run (cap sh) ops s).1 st' ∧
         dropped st' = destroyed (spec_run (cap sh) ops s).2.
Proof.
  induction ops as [|o ops IH]; intros s hs st Hok Hrel Hops Hfuel Hroom.
  { exists st. split; [done|apply Hrel]. }
  apply Forall_cons in Hops as [Ho Hops]. rewrite clones_cons in Hroom.
  assert (0 ≤ clones ops) by (unfold clones; lia).
  destruct (mpsc_step_sim i sh o s hs st Hok Hrel Ho Hfuel) as (hs' & st1 & Hrun & Hrel').
  { intros Hc. rewrite Hc in Hroom. simpl in Hroom. lia. }
  pose proof (spec_step_live (cap sh) o s).
  destruct (IH _ _ _ Hok Hrel' Hops Hfuel ltac:(lia)) as (st2 & Hrun2 & Hd).
  exists st2. cbn [client_run spec_run]. destruct (spec_step (cap sh) o s) as [ob s'].
  cbn [fst snd] in *. destruct (spec_run (cap sh) ops s') as [obs s2]. cbn [fst snd] in *.
  split; [|done]. erewrite run_bind_Done by exact Hrun. cbv beta iota.
  by erewrite run_bind_Done by exact Hrun2.
Qed.
End client.

(** A store in which the next compare-exchanges fail as [sp] says. *)
Definition flaky_state {T} (sp : list bool) : seqst T :=
  MkSeqst ∅ ∅ ∅ ∅ ∅ 0 [] [] sp.

(** C2. Refinement. A client that builds an MPSC channel of any power-of-two
    capacity, clones any number of senders and makes any sequence of
    [try_send], [try_recv], [drain], clone and drop calls sees exactly what a
    bounded FIFO queue prescribes, whichever compare-exchanges fail
    spuriously and however many values were sent before: [Full] at [cap]
    items, or once the claim counter has reached [usize::MAX]; the value
    handed back on every error; remaining items before [Disconnected]; and
    exactly the queued values dropped with the block. No counter overflows
    and no stale round (nor the sentinel [-1]) is taken for a publication. *)
Theorem mpsc_refines_queue `{Target} {T} (cb : T → bool) (i : tid) (cas_fuel fuel : nat)
    (capacity : Z) (strat : WaitStrategy) (ops : list (op T)) (sp : list bool) :
  0 < capacity ≤ usize_max → is_power_of_two capacity = true →
  Forall op_ok ops → (Z.to_nat capacity < fuel)%nat → (length sp < cas_fuel)%nat →
  clones ops < MAX_REFCOUNT →
  ∃ st, run i (client cb cas_fuel fuel capacity strat ops) (flaky_state sp) =
          Done (spec_run cb capacity ops spec_init).1 st ∧
        dropped st = destroyed (spec_run cb capacity ops spec_init).2.
Proof.
  intros Hcap Hpow Hops Hfuel Hcas Hclones.
  destruct (mpsc_channel_run i capacity strat (flaky_state (T := T) sp) Hcap Hpow)
    as (sh & tx & rx & st & Hrun & <- & _ & _ & _ & Hd & Hsp & Hok & Hr & Htx & Hrx).
  unfold client. erewrite run_bind_Done by exact Hrun.
  apply (mpsc_run_sim cb cas_fuel fuel i sh ops spec_init ([Some tx], Some rx) st); auto.
  - split; try done; simpl; [constructor; [done|constructor]|]. by rewrite Hsp.
  - simpl. lia.
Qed.

Definition demo_ops : list (op Z) :=
  [OpTrySend 0 1; OpClone 0; OpTrySend 1 2; OpTrySend 0 3; OpTryRecv; OpTrySend 1 3;
   OpDropSender 0; OpDrain 5; OpTrySend 0 4; OpTrySend 1 5; OpDropReceiver;
   OpTrySend 1 6; OpDropSender 1].

(** A witness: capacity 2, two senders, two spurious failures, a panicking
    callback. *)
Lemma mpsc_refines_queue_witness :
  ∃ st, run 0 (client (λ v, negb (v =? 3)) 4 8 2 Park demo_ops) (flaky_state (T := Z) [true; true; false]) =
        Done [ObsSend (Ok tt); ObsCloned; ObsSend (Ok tt); ObsSend (Err (Full 3));
              ObsRecv (Ok 1); ObsSend (Ok tt); ObsDropped; ObsDrain [2; 3] Unwound;
              NoHandle; ObsSend (Ok tt); ObsDropped; ObsSend (Err (SendDisconnected 6));
              ObsDropped] st ∧ dropped st = [5].
Proof.
  set (cb := λ v, negb (v =? 3)).
  destruct (mpsc_refines_queue cb 0 4 8 2 Park demo_ops [true; true; false]) as (st & Hrun & Hd).
  - split; [lia|]. vm_compute. discriminate.
  - reflexivity.
  - repeat constructor; vm_compute; discriminate.
  - vm_compute. lia.
  - vm_compute. lia.
  - vm_compute. reflexivity.
  - exists st. rewrite Hrun, Hd. split; vm_compute; reflexivity.
Defined.
