(* ===== verification/MpscBlocking.v ===== *)
(** The blocking calls of the MPSC ring when the other threads are not
    running: they return as soon as they can, and otherwise wait as the
    channel's strategy says without touching the ring; under [Park] the
    receiver re-checks [PARK_SPINS] times before it commits to a park. *)
From S2P Require Import Prelude Usize Atomic Errors Wait Notify Ring Queue Mpsc Seq NotifySeq WaitProps MpscSeq.
Local Open Scope Z_scope.

(** A store after some spins. *)
Fixpoint spun {T} (n : nat) (st : seqst T) : seqst T :=
  match n with O => st | S n => spun n (add_hint SpinLoop st) end.

Section blocking.
Context `{tgt : Target} {T : Type} (sh : Shared) (Hok : shared_ok sh).
Implicit Types (st : seqst T) (c : Chan T) (i : tid).

(** Timing hints are invisible to the ring. *)
Lemma mpsc_rep_hint p h st c : rep_at sh p st c → rep_at sh p (add_hint h st) c.
Proof. by intros []. Qed.

Lemma spun_rep p n : ∀ st c, rep_at sh p st c → rep_at sh p (spun n st) c.
Proof.
  induction n as [|n IH]; intros st c Hr; [done|]. apply IH. by apply mpsc_rep_hint.
Qed.

Lemma spun_hints n : ∀ st, hints (spun n st) = hints st ++ replicate n SpinLoop.
Proof.
  induction n as [|n IH]; intros st; simpl; [by rewrite app_nil_r|].
  rewrite IH. simpl. by rewrite <-app_assoc.
Qed.

Lemma spun_tokens n : ∀ st, tokens (spun n st) = tokens st.
Proof. induction n as [|n IH]; intros st; simpl; [done|]. by rewrite IH. Qed.

(** An attempt that finds the ring full changes nothing but the mirror. *)
Lemma mpsc_try_send_full i st c s v cas :
  rep sh st c → sender_ok sh s c → rx_gone c = false → is_full (cap sh) c = true →
  ∃ s', run i (try_send (S cas) s v) st = Done (s', Err (Full v)) st ∧ sender_ok sh s' c.
Proof using Hok.
  intros Hr Hs Hopen Hfull. destruct (full_check_run sh i st c s Hr Hs) as (s' & Hs' & Hcheck).
  exists s'. split; [|done]. unfold try_send. destruct (Hs) as [-> _].
  erewrite run_load_bool by apply (rep_gone _ _ _ _ Hr). rewrite Hopen.
  erewrite run_load by apply (rep_claim _ _ _ _ Hr).
  cbn [claim_loop]. destruct (Hs) as [-> _]. by rewrite run_assoc, Hcheck, Hfull.
Qed.

Lemma mpsc_try_recv_empty i st c r :
  rep sh st c → receiver_ok sh r c → n_senders c ≠ 0 → items c = [] →
  run i (try_recv r) st = Done (r, Err Empty) st.
Proof using Hok.
  intros Hr Hrx Hn Hnil. unfold try_recv.
  erewrite (slot_published_run sh Hok) by eauto. rewrite (proj1 Hrx), (published_items c), Hnil.
  cbn [negb bool_decide]. rewrite bool_decide_true by done. simpl negb. cbv iota.
  rewrite !run_assoc. erewrite run_load by apply (rep_senders _ _ _ _ Hr).
  by rewrite (proj2 (Z.eqb_neq _ _) Hn).
Qed.

(** The receiver's re-checks on an empty ring. *)
Lemma park_spins_run i r c n : ∀ st,
  rep sh st c → receiver_ok sh r c → items c = [] →
  run i (park_spins n r) st = Done false (spun n st).
Proof using Hok.
  induction n as [|n IH]; intros st Hr Hrx Hnil; [done|]. cbn [park_spins].
  erewrite (slot_published_run sh Hok) by eauto.
  rewrite (published_items c), Hnil, bool_decide_true by done. simpl negb. cbv iota.
  rewrite run_spin. cbn [spun]. apply IH; [by apply mpsc_rep_hint|done..].
Qed.

(** Waiting without [Park]: one hint per pass. *)
Lemma mpsc_send_loop_waits i c v cas fuel : ∀ n st s ladder h0,
  strategy sh ≠ Park → rep sh st c → sender_ok sh s c → rx_gone c = false →
  is_full (cap sh) c = true →
  ladder_at (bool_decide (strategy sh = BackoffYield)) n ladder ∨ strategy sh = BusySpin →
  hints st = h0 ++ wait_hints (strategy sh) n →
  ∃ st', run i (send_loop fuel (S cas) s v ladder) st = NoFuel st' ∧ rep sh st' c ∧
    hints st' = h0 ++ wait_hints (strategy sh) (n + fuel).
Proof using Hok.
  induction fuel as [|fuel IH]; intros n st s ladder h0 Hp Hr Hs Hopen Hfull Hl Hh.
  { exists st. by rewrite Nat.add_0_r. }
  destruct (mpsc_try_send_full i st c s v cas Hr Hs Hopen Hfull) as (s' & Hrun & Hs').
  cbn [send_loop]. erewrite run_bind_Done by exact Hrun. cbv beta iota.
  destruct (wait_pass i (strategy sh) n ladder st (send_wait s' ladder) Hp Hl)
    as (ladder' & h & Hrun' & Hl' & Hstep).
  { unfold send_wait. destruct Hs' as [-> _]. by destruct (strategy sh). }
  erewrite run_bind_Done by exact Hrun'.
  destruct (IH (S n) (add_hint h st) s' ladder' h0) as (st' & Hrun2 & Hr' & Hh'); try done.
  - by apply mpsc_rep_hint.
  - simpl. by rewrite Hh, Hstep, app_assoc.
  - exists st'. split_and!; [done|done|]. by replace (n + S fuel)%nat with (S n + fuel)%nat by lia.
Qed.

Lemma mpsc_recv_loop_waits i c fuel : ∀ n st r ladder h0,
  strategy sh ≠ Park → rep sh st c → receiver_ok sh r c → n_senders c ≠ 0 → items c = [] →
  ladder_at (bool_decide (strategy sh = BackoffYield)) n ladder ∨ strategy sh = BusySpin →
  hints st = h0 ++ wait_hints (strategy sh) n →
  ∃ st', run i (recv_loop fuel r ladder) st = NoFuel st' ∧ rep sh st' c ∧
    hints st' = h0 ++ wait_hints (strategy sh) (n + fuel).
Proof using Hok.
  induction fuel as [|fuel IH]; intros n st r ladder h0 Hp Hr Hrx Hopen Hnil Hl Hh.
  { exists st. by rewrite Nat.add_0_r. }
  pose proof (mpsc_try_recv_empty i st c r Hr Hrx Hopen Hnil) as Hrun.
  cbn [recv_loop]. erewrite run_bind_Done by exact Hrun. cbv beta iota.
  destruct (wait_pass i (strategy sh) n ladder st (recv_wait r ladder) Hp Hl)
    as (ladder' & h & Hrun' & Hl' & Hstep).
  { unfold recv_wait. destruct Hrx as [-> _]. by destruct (strategy sh). }
  erewrite run_bind_Done by exact Hrun'.
  destruct (IH (S n) (add_hint h st) r ladder' h0) as (st' & Hrun2 & Hr' & Hh'); try done.
  - by apply mpsc_rep_hint.
  - simpl. by rewrite Hh, Hstep, app_assoc.
  - exists st'. split_and!; [done|done|]. by replace (n + S fuel)%nat with (S n + fuel)%nat by lia.
Qed.

(** Waiting under [Park]: registered, then asleep. *)
Lemma rep_enlisted i st c : rep sh st c → rep sh (enlisted i (sh_ring sh) st) c.
Proof using Type.
  intros Hr. eapply mpsc_rep_park_frame; [|exact Hr]. etrans; [|by apply (park_frame_set_flag _ Waiting)].
  by apply park_frame_same.
Qed.

Lemma mpsc_rep_prepared i st c : rep sh st c → rep sh (prepared i (sh_ring sh) Consumer st) c.
Proof using Type.
  intros Hr. eapply mpsc_rep_park_frame; [|exact Hr].
  etrans; [|by apply (park_frame_set_flag _ (Parked Consumer))]. by apply park_frame_same.
Qed.

Lemma mpsc_send_parks i st c s v cas fuel :
  strategy sh = Park → rep sh st c → sender_ok sh s c → rx_gone c = false →
  is_full (cap sh) c = true → i ∉ tokens st →
  run i (send (S fuel) (S cas) s v) st = Blocked (enlisted i (sh_ring sh) st).
Proof using Hok.
  intros Hp Hr Hs Hopen Hfull Hi.
  destruct (mpsc_try_send_full i st c s v cas Hr Hs Hopen Hfull) as (s' & Hrun & Hs').
  unfold send. cbn [send_loop]. erewrite run_bind_Done by exact Hrun. cbv beta iota.
  pose proof (rep_enlisted i st c Hr) as Hr'. set (st1 := enlisted _ _ _) in *.
  destruct Hs' as [Hsh _]. unfold send_wait. rewrite Hsh, Hp, !run_assoc.
  erewrite run_bind_Done by (apply prepare_wait_run; destruct (rep_waiting _ _ _ _ Hr) as [b ->]; by eexists).
  fold st1. rewrite !run_assoc, run_fence, !run_assoc.
  erewrite run_load by apply (rep_claim _ _ _ _ Hr').
  rewrite !run_assoc. erewrite run_load by apply (rep_head _ _ _ _ Hr').
  unfold is_full in Hfull. rewrite Z.geb_leb, Z.leb_le in Hfull.
  rewrite (proj2 (Z.ltb_ge _ _)) by done. rewrite !run_assoc.
  erewrite run_load_bool by apply (rep_gone _ _ _ _ Hr'). rewrite Hopen. cbv iota.
  unfold WaiterList_park. rewrite !run_assoc. by apply run_park_blocked.
Qed.

(** The receiver after its re-checks [st1], about to register. *)
Lemma mpsc_recv_registers {A} i st c r (f : Idle → prog T A) ladder :
  rep sh st c → receiver_ok sh r c → n_senders c ≠ 0 → items c = [] → i ∉ tokens st →
  run i ((_ ← prepare_park (consumer_parker sh);
          _ ← fence SeqCst;
          published ← slot_published r (r_head r);
          retry ← (if (published : bool) then mret true
                   else n ← load (senders sh) Acquire; mret (n =? 0));
          _ ← (if (retry : bool) then cancel (consumer_parker sh)
               else Parker_park (consumer_parker sh));
          mret ladder) ≫= f) st = Blocked (prepared i (sh_ring sh) Consumer st).
Proof using Hok.
  intros Hr Hrx Hopen Hnil Hi. rewrite !run_assoc.
  pose proof (mpsc_rep_prepared i st c Hr) as Hr'. set (st1 := prepared _ _ _ _) in *.
  erewrite run_bind_Done by (apply prepare_park_run; destruct (rep_parked _ _ _ _ Hr) as [b ->]; by eexists).
  fold st1. rewrite !run_assoc, run_fence, !run_assoc.
  erewrite (slot_published_run sh Hok) by eauto.
  rewrite (published_items c), Hnil, bool_decide_true by done. simpl negb. cbv iota.
  rewrite !run_assoc. erewrite run_load by apply (rep_senders _ _ _ _ Hr').
  rewrite run_ret, (proj2 (Z.eqb_neq _ _) Hopen). cbv iota.
  unfold Parker_park. rewrite !run_assoc. by apply run_park_blocked.
Qed.

Lemma mpsc_recv_parks i st c r fuel :
  strategy sh = Park → rep sh st c → receiver_ok sh r c → n_senders c ≠ 0 → items c = [] →
  i ∉ tokens st →
  run i (recv (S fuel) r) st = Blocked (prepared i (sh_ring sh) Consumer (spun PARK_SPINS st)).
Proof using Hok.
  intros Hp Hr Hrx Hopen Hnil Hi. pose proof (mpsc_try_recv_empty i st c r Hr Hrx Hopen Hnil) as Hrun.
  unfold recv. cbn [recv_loop]. erewrite run_bind_Done by exact Hrun. cbv beta iota.
  unfold recv_wait. rewrite (proj1 Hrx), Hp, run_assoc.
  erewrite run_bind_Done by (by eapply park_spins_run). cbv iota.
  apply (mpsc_recv_registers i _ c); [by apply spun_rep|done..|]. by rewrite spun_tokens.
Qed.

(** C31. A blocking call of the MPSC ring that need not wait does not: with a
    sequence left to claim, or the receiver gone, [send] returns on its first
    attempt (however many of its compare-exchanges fail spuriously), and so
    does [recv] with a value in the ring or every sender gone; the results are
    those of the bounded queue, the rejected value handed back. *)
Theorem mpsc_blocking_returns i st c s r v fuel cas :
  rep sh st c → sender_ok sh s c → receiver_ok sh r c → (length (spurious st) < cas)%nat →
  (rx_gone c = true ∨ is_full (cap sh) c = false →
   ∃ s' st', run i (send (S fuel) cas s v) st =
       Done (s', if rx_gone c then Err (SendErr v) else Ok tt) st' ∧
     rep sh st' (spec_try_send (cap sh) c v).2 ∧ sender_ok sh s' (spec_try_send (cap sh) c v).2) ∧
  (n_senders c = 0 ∨ items c ≠ [] →
   ∃ r' st', run i (recv (S fuel) r) st =
       Done (r', match items c with v :: _ => Ok v | [] => Err RecvErr end) st' ∧
     rep sh st' (spec_try_recv c).2 ∧ receiver_ok sh r' (spec_try_recv c).2).
Proof using Hok.
  intros Hr Hs Hrx Hcas. split; intros Hgo.
  - destruct (mpsc_try_send_run sh Hok i st c s v cas Hr Hs Hcas) as (s' & (st' & Hrun & Hr' & _) & Hs').
    exists s', st'. unfold send. cbn [send_loop]. erewrite run_bind_Done by exact Hrun. cbv beta iota.
    split; [|done]. unfold spec_try_send in *. destruct (rx_gone c); [done|].
    destruct (is_full (cap sh) c); [by destruct Hgo|done].
  - destruct (mpsc_try_recv_run sh Hok i st c r Hr Hrx) as (r' & (st' & Hrun & Hr' & _) & Hrx').
    exists r', st'. unfold recv. cbn [recv_loop]. erewrite run_bind_Done by exact Hrun. cbv beta iota.
    split; [|done]. unfold spec_try_recv in *. destruct (items c); [|done].
    destruct (Z.eqb_spec (n_senders c) 0); [done|by destruct Hgo].
Qed.

(** C32. A blocking call of the MPSC ring that must wait waits as the strategy
    says. Under [Park] a sender on a full ring joins the waiter list and
    sleeps, and the receiver on an empty one re-checks and spins [PARK_SPINS]
    times, registers and sleeps; under the self-waking strategies every pass
    issues exactly the next hint of the strategy. In all cases the ring and
    its values are as before. *)
Theorem mpsc_blocking_waits i st c s r v fuel cas :
  rep sh st c → sender_ok sh s c → receiver_ok sh r c → i ∉ tokens st →
  (rx_gone c = false → is_full (cap sh) c = true →
   if decide (strategy sh = Park) then
     run i (send (S fuel) (S cas) s v) st = Blocked (enlisted i (sh_ring sh) st) ∧
     rep sh (enlisted i (sh_ring sh) st) c
   else ∃ st', run i (send fuel (S cas) s v) st = NoFuel st' ∧ rep sh st' c ∧
     hints st' = hints st ++ wait_hints (strategy sh) fuel) ∧
  (n_senders c ≠ 0 → items c = [] →
   if decide (strategy sh = Park) then
     ∃ st', run i (recv (S fuel) r) st = Blocked (prepared i (sh_ring sh) Consumer st') ∧
       rep sh (prepared i (sh_ring sh) Consumer st') c ∧
       hints st' = hints st ++ replicate PARK_SPINS SpinLoop
   else ∃ st', run i (recv fuel r) st = NoFuel st' ∧ rep sh st' c ∧
     hints st' = hints st ++ wait_hints (strategy sh) fuel).
Proof using Hok.
  intros Hr Hs Hrx Hi. destruct (decide (strategy sh = Park)) as [Hp|Hp].
  { split; intros Ho Hc.
    - split; [by apply (mpsc_send_parks _ _ c)|by apply rep_enlisted].
    - exists (spun PARK_SPINS st). split; [by apply (mpsc_recv_parks _ _ c)|].
      split; [by apply mpsc_rep_prepared, spun_rep|apply spun_hints]. }
  assert (Hl : ladder_at (bool_decide (strategy sh = BackoffYield)) 0 (for_strategy (strategy sh)))
    by apply ladder_start.
  assert (Hh0 : hints st = hints st ++ wait_hints (strategy sh) 0)
    by (destruct (strategy sh); simpl; by rewrite ?app_nil_r).
  split; intros Ho Hc.
  - unfold send. rewrite (proj1 Hs).
    by apply (mpsc_send_loop_waits i c v cas fuel 0 st s _ (hints st) Hp Hr Hs Ho Hc (or_introl Hl)).
  - unfold recv. rewrite (proj1 Hrx).
    by apply (mpsc_recv_loop_waits i c fuel 0 st r _ (hints st) Hp Hr Hrx Ho Hc (or_introl Hl)).
Qed.
End blocking.

Lemma mpsc_blocking_returns_witness :
  ∃ (s s' : Sender) (st st' : seqst Z), run 0 (send 1 3 s 7) st = Done (s', Ok tt) st'.
Proof.
  destruct (mpsc_channel_run 0 2 Park (empty_state (T := Z)))
    as (sh & s & r & st & _ & Hcap & _ & _ & _ & _ & Hsp & Hok & Hr & Hs & Hrx);
    [split; vm_compute; (reflexivity || discriminate)|reflexivity|].
  destruct (mpsc_blocking_returns sh Hok 0 st new_chan s r 7 0 3 Hr Hs Hrx) as [Hsend _].
  { rewrite Hsp. simpl. lia. }
  destruct Hsend as (s' & st' & Hrun & _); [|by exists s, s', st, st'].
  right. rewrite Hcap. vm_compute. reflexivity.
Defined.

Lemma mpsc_channel_no_token a st :
  run 0 (channel 2 Park) (empty_state (T := Z)) = Done a st → tokens st = ∅.
Proof.
  intros Hrun. assert (match run 0 (channel 2 Park) (empty_state (T := Z)) with
                       | Done _ st => tokens st = ∅ | _ => True end) as Hv by (vm_compute; reflexivity).
  by rewrite Hrun in Hv.
Qed.

Lemma mpsc_blocking_waits_witness :
  ∃ (r : Receiver) (st st' : seqst Z),
    run 0 (recv 5 r) st = Blocked (prepared 0 (sh_ring (r_shared r)) Consumer st') ∧
    hints st' = hints st ++ replicate 16 SpinLoop.
Proof.
  destruct (mpsc_channel_run 0 2 Park (empty_state (T := Z)))
    as (sh & s & r & st & Hrun & _ & Hst & _ & _ & _ & _ & Hok & Hr & Hs & Hrx);
    [split; vm_compute; (reflexivity || discriminate)|reflexivity|].
  assert (Htok : 0%nat ∉ tokens st).
  { rewrite (mpsc_channel_no_token _ _ Hrun). set_solver. }
  destruct (mpsc_blocking_waits sh Hok 0 st new_chan s r 7 4 0 Hr Hs Hrx Htok) as [_ Hrecv].
  rewrite Hst in Hrecv. destruct (Hrecv ltac:(done) eq_refl) as (st' & Hrun' & _ & Hh).
  exists r, st, st'. by rewrite (proj1 Hrx).
Defined.
