(* ===== verification/MpscCodec.v ===== *)
(** The MPSC ring's slot encoding: a sender publishes its sequence number as a
    round in a slot, and the receiver reads from slot and round whether the
    number it waits for is there. The encoding loses nothing, and the rounds a
    new ring starts with stand for no number. *)
From S2P Require Import Prelude Usize Atomic Errors Wait Notify Ring Queue Mpsc Seq MpscSeq.
Local Open Scope Z_scope.

Section codec.
Context `{tgt : Target} {T : Type} (sh : Shared) (Hok : shared_ok sh).
Implicit Types (st : seqst T) (i : tid).

Lemma mask_slot n : is_usize n → Z.land n (mask sh) = n mod cap sh.
Proof using Hok.
  intros Hn. rewrite <-(land_slot (sok_ring _ Hok)). by rewrite wrap_small.
Qed.

(** What the receiver reads off the round in a slot. *)
Lemma slot_published_eq i st r n x :
  r_shared r = sh → is_usize n → atoms st !! slot_round sh (slot_of (cap sh) n) = Some x →
  run i (slot_published r n) st = Done (x =? round_of sh n) st.
Proof using Hok.
  intros Hsh Hn Hx. unfold slot_published. rewrite Hsh, index_seq by done.
  by erewrite run_load by exact Hx.
Qed.

(** Slot and round determine the number. *)
Lemma published_exactly n seq :
  is_usize n → is_usize seq → Z.land n (mask sh) = Z.land seq (mask sh) →
  (round_of sh seq =? round_of sh n) = bool_decide (n = seq).
Proof using Hok.
  intros Hn Hs Hslot. rewrite !mask_slot in Hslot by done. case_bool_decide as Heq.
  - subst. apply Z.eqb_refl.
  - apply Z.eqb_neq. intros Hr. apply Heq. by apply (round_inj sh Hok).
Qed.

(** Only the very last number of a 64-bit counter could collide with the
    sentinel, in a ring of one slot. *)
Lemma round_sentinel seq :
  is_usize seq → round_of sh seq = -1 → seq = usize_max.
Proof using Hok.
  intros Hseq Hr. pose proof (cap_pos (sok_ring _ Hok)) as Hc.
  pose proof (div_cap_range sh Hok seq Hseq). pose proof usize_modulus_le.
  rewrite (round_of_div sh Hok) in Hr by apply Hseq.
  change (-1) with (as_i64 (2 ^ 64 - 1)) in Hr. apply as_i64_inj in Hr; [|done|lia].
  pose proof (Z.mul_div_le seq (cap sh) Hc). unfold is_usize, usize_max in *. nia.
Qed.

(** Of any [cap] numbers in a row one has the slot of [n]. *)
Lemma same_slot p c n :
  0 < c → ∃ m, p - c ≤ m < p ∧ m mod c = n mod c ∧ (p - c ≤ n < p → m = n).
Proof using Type.
  intros Hc. exists (p - c + (n - (p - c)) mod c).
  pose proof (Z.mod_pos_bound (n - (p - c)) c Hc). split_and!; [lia..| |].
  - rewrite Zplus_mod_idemp_r. f_equal. lia.
  - intros Hn. rewrite Z.mod_small by lia. lia.
Qed.

(** A slot holds the round of the last number pushed that has it: what the
    receiver is told of any number, in any state. *)
Lemma published_window i st c r n :
  rep sh st c → r_shared r = sh → 0 ≤ n < usize_max →
  run i (slot_published r n) st =
  Done (bool_decide (pushed c - cap sh ≤ n < pushed c)) st.
Proof using Hok.
  intros Hr Hsh Hn. pose proof (cap_pos (sok_ring _ Hok)) as Hc.
  assert (is_usize n) as Hu by (unfold is_usize, usize_max in *; lia).
  pose proof (rep_max _ _ _ _ Hr) as Hmax.
  destruct (same_slot (pushed c) (cap sh) n Hc) as (m & Hm & Hmod & Heq).
  assert (slot_of (cap sh) n = slot_of (cap sh) m) as Hslot by (unfold slot_of; by rewrite Hmod).
  rewrite (slot_published_eq i st r n (round_at sh m)); [|done..|].
  2: { rewrite Hslot. apply (rep_round _ _ _ _ Hr). lia. }
  f_equal. unfold round_at. destruct (Z.ltb_spec m 0) as [Hneg|Hpos].
  - rewrite bool_decide_eq_false_2 by (intros Hin; specialize (Heq Hin); lia).
    apply Z.eqb_neq. intros Hs%eq_sym%round_sentinel; [lia|done].
  - assert (is_usize m) as Hum by (unfold is_usize, usize_max in *; lia).
    rewrite published_exactly by (done || by rewrite !mask_slot).
    apply bool_decide_ext. split; [intros ->; lia|by intros ->%Heq].
Qed.
End codec.

(** C17. Round trip through slots and rounds. A channel of any accepted
    capacity starts with no number published: whatever number below
    [usize::MAX] - the one number no sender ever claims - the receiver asks for
    in the new channel, [slot_published] denies it. And whenever [try_send]
    succeeds, whatever was sent and received before, it publishes exactly the
    next number, [pushed c]: [slot_published] denied it before and recognizes it
    after, the one number that had its slot is recognized no more, and what is
    said of every other number stays the same - up to the end of the counter. *)
Theorem slot_round_roundtrip `{Target} {T} (i : tid) (capacity : Z) (strat : WaitStrategy) :
  0 < capacity ≤ usize_max → is_power_of_two capacity = true →
  ∃ tx rx (new : seqst T), run i (channel capacity strat) empty_state = Done (tx, rx) new ∧
    (∀ n, 0 ≤ n < usize_max → run i (slot_published rx n) new = Done false new) ∧
    ∀ (st : seqst T) (c : Chan T) (tx' : Sender) (v : T) fuel,
      rep (r_shared rx) st c → sender_ok (r_shared rx) tx' c →
      rx_gone c = false → is_full capacity c = false → (length (spurious st) < fuel)%nat →
      ∃ tx'' (st1 : seqst T), run i (try_send fuel tx' v) st = Done (tx'', Ok tt) st1 ∧
        ∀ n, 0 ≤ n < usize_max →
          run i (slot_published rx n) st =
            Done (bool_decide (pushed c - capacity ≤ n < pushed c)) st ∧
          run i (slot_published rx n) st1 =
            Done (bool_decide (pushed c - capacity < n ≤ pushed c)) st1.
Proof.
  intros Hcap Hpow.
  destruct (mpsc_channel_run i capacity strat (empty_state (T := T)) Hcap Hpow)
    as (sh & tx & rx & new & Hrun & Hc & _ & _ & _ & _ & _ & Hok & Hr & _ & Hsh & _).
  exists tx, rx, new. split; [done|]. rewrite Hsh. split.
  - intros n Hn. rewrite (published_window sh Hok i new new_chan) by done.
    rewrite bool_decide_eq_false_2; [done|]. unfold pushed. simpl. lia.
  - intros st c tx' v fuel Hst Htx Hgone Hfull Hfuel. rewrite <-Hc in *.
    destruct (mpsc_try_send_run sh Hok i st c tx' v fuel Hst Htx Hfuel)
      as (tx'' & (st1 & Hrun1 & Hst1 & _) & _).
    unfold spec_try_send in *. rewrite Hgone, Hfull in *. exists tx'', st1. split; [exact Hrun1|].
    intros n Hn. rewrite !(published_window sh Hok i _ _ _ _ Hst Hsh Hn).
    rewrite (published_window sh Hok i _ _ _ _ Hst1 Hsh Hn). split; [done|]. f_equal.
    apply bool_decide_ext. unfold pushed. simpl. rewrite length_app. simpl. lia.
Qed.

(** A new ring of four slots: the first send publishes number 0, and neither 1
    nor 4, which has the same slot. *)
Lemma slot_round_roundtrip_witness : ∃ (tx tx' : Sender) (rx : Receiver) (st st1 : seqst Z),
  run 0 (try_send 1 tx 9) st = Done (tx', Ok tt) st1 ∧
  run 0 (slot_published rx 0) st = Done false st ∧
  run 0 (slot_published rx 0) st1 = Done true st1 ∧
  run 0 (slot_published rx 1) st1 = Done false st1 ∧
  run 0 (slot_published rx 4) st1 = Done false st1.
Proof.
  destruct (mpsc_channel_run 0 4 Park (empty_state (T := Z)))
    as (sh & tx & rx & st & Hrun & _ & _ & _ & _ & _ & Hsp & _ & Hr & Htx & Hrx);
    [split; vm_compute; (reflexivity || discriminate)|reflexivity|].
  destruct (slot_round_roundtrip (T := Z) 0 4 Park) as (tx0 & rx0 & st0 & Hrun0 & Hnew & Hsend);
    [split; vm_compute; (reflexivity || discriminate)|reflexivity|].
  rewrite Hrun in Hrun0. injection Hrun0 as <- <- <-.
  destruct Hrx as [Hsh _]. rewrite Hsh in Hsend.
  destruct (Hsend st new_chan tx 9 1%nat Hr Htx) as (tx' & st1 & Hrun1 & Hread);
    [reflexivity..|rewrite Hsp; simpl; lia|].
  exists tx, tx', rx, st, st1. split; [exact Hrun1|].
  split; [apply Hread|split_and!; apply Hread]; vm_compute; (split; (reflexivity || discriminate)).
Defined.
