(* ===== verification/Batch.v ===== *)
(** Batched against one-by-one reception: [drain] takes what a loop of
    [try_recv] calls around the callback takes, and leaves the same channel
    behind; batching the head's publication is an optimization nobody can see.
    The loop and its meaning are stated once, over what a receiver promises,
    and instantiated for both rings. *)
From S2P Require Import Prelude Usize Atomic Errors Wait Notify Ring Queue Seq.
From S2P Require Spsc SpscSeq Mpsc MpscSeq.
Local Open Scope Z_scope.

(** The reference: [while count < max { match rx.try_recv() { Ok(v) => f(v),
    Err(_) => break } }]. *)
Fixpoint recv_each {T R S : Type} (try_recv : R → prog T (R * result T TryRecvError))
    (fuel : nat) (max : Z) (self : R) (f : S → T → S * bool) (env : S) (count : Z) :
    prog T (R * S * exit) :=
  match fuel with
  | O => OutOfFuel
  | Datatypes.S fuel =>
      if negb (count <? max) then mret (self, env, Returned count) else
      '(self, r) ← try_recv self;
      match r with
      | Err _ => mret (self, env, Returned count)
      | Ok v =>
          let '(env, returned) := f env v in
          if (returned : bool) then recv_each try_recv fuel max self f env (count + 1)
          else mret (self, env, Unwound)
      end
  end.

(** What a receiver promises: [try_recv] takes the head of the channel's
    items, if there is one, and changes nothing otherwise. *)
Class Receives {T R C : Type} (i : tid) (try_recv : R → prog T (R * result T TryRecvError))
    (items : C → list T) (taken : C → list T → C) (holds : C → R → seqst T → Prop) := {
  taken_all c : taken c (items c) = c;
  items_taken c q : items (taken c q) = q;
  taken_taken c q q' : taken (taken c q) q' = taken c q';
  recv_next c r st : holds c r st →
    ∃ r' st', match items c with
      | v :: q => run i (try_recv r) st = Done (r', Ok v) st' ∧ holds (taken c q) r' st'
      | [] => ∃ e, run i (try_recv r) st = Done (r', Err e) st' ∧ holds c r' st'
      end;
}.

Lemma recv_each_run `{Receives T R C i try_recv items taken holds} {S}
    (f : S → T → S * bool) max fuel : ∀ c r st env count,
  holds c r st → (length (items c) < fuel)%nat →
  ∃ r' st',
    run i (recv_each try_recv fuel max r f env count) st =
      Done (r', (spec_drain_items max f env count (items c)).1.1,
            (spec_drain_items max f env count (items c)).1.2) st' ∧
    holds (taken c (spec_drain_items max f env count (items c)).2) r' st'.
Proof.
  induction fuel as [|fuel IH]; intros c r st env count Hh Hf; [lia|]. cbn [recv_each].
  destruct (recv_next c r st Hh) as (r' & st' & Hnext).
  pose proof (taken_all c) as Hall.
  destruct (items c) as [|v q] eqn:Hq; cbn [spec_drain_items length] in *.
  - destruct (count <? max); simpl negb; cbv iota; cbn [fst snd]; [|exists r, st; by rewrite Hall].
    destruct Hnext as (e & Hrun & Hh'). exists r', st'.
    erewrite run_bind_Done by exact Hrun. cbn [fst snd]. by rewrite Hall.
  - destruct (count <? max); simpl negb; cbv iota; cbn [fst snd]; [|exists r, st; by rewrite Hall].
    destruct Hnext as [Hrun Hh']. erewrite run_bind_Done by exact Hrun. cbv beta iota.
    destruct (f env v) as [env' []]; cbn [fst snd]; [|by exists r', st'].
    destruct (IH (taken c q) r' st' env' (count + 1) Hh') as (r2 & st2 & Hrun2 & Hh2).
    { rewrite items_taken. lia. }
    exists r2, st2. rewrite items_taken, taken_taken in *. done.
Qed.

(** ** The SPSC ring *)

Module SpscBatch.
Import Spsc SpscSeq.
Section batch.
Context `{Target} {T : Type} (sh : Shared) (Hok : shared_ok sh).

(** [st] holds the channel [c] and its receiver [r]; nothing else changed
    since [st0]. *)
Definition receiving (st0 : seqst T) (c : Chan T) (r : Receiver) (st : seqst T) : Prop :=
  rep sh st c ∧ receiver_ok sh r c ∧ frame (sh_ring sh) st0 st ∧ dropped st = dropped st0.

#[export] Instance spsc_receives i st0 :
  Receives i try_recv items taken (receiving st0).
Proof using Hok.
  split; [by apply taken_items|done| |].
  - intros c q q'. unfold taken. simpl. f_equal. unfold pushed. simpl. unfold pushed. lia.
  - intros c r st (Hr & Hrx & Hf & Hd).
    destruct (try_recv_run sh Hok i st c r Hr Hrx) as (r' & (st' & Hrun & Hr' & Hf' & Hd') & Hrx').
    exists r', st'. unfold spec_try_recv in *. destruct (items c) as [|v q] eqn:Hq.
    + eexists. split; [exact Hrun|]. split_and!; [done..|by etrans|congruence].
    + assert (taken c q = MkChan (popped c + 1) q (closed c) (refs c)) as ->.
      { unfold taken, pushed. rewrite Hq. cbn [length]. f_equal. lia. }
      split; [exact Hrun|]. split_and!; [done..|by etrans|congruence].
Qed.
End batch.

(** C22. Equivalence. On any SPSC channel, with any callback, [drain] and the
    reference loop hand the callback the same values in the same order, end
    the same way (same count, or the same panic) and leave stores that hold
    the same channel, as seen by the same kind of receiver. The wake-ups of a
    waiting producer are not compared: the loop wakes it after every value,
    [drain] once, after its last value, and not when the callback panics. *)
Theorem spsc_drain_is_recv_loop `{Target} {T S} (sh : Shared) i (st : seqst T) c r
    (max : Z) (f : S → T → S * bool) (env : S) fuel :
  shared_ok sh → rep sh st c → receiver_ok sh r c → is_usize max →
  (length (items c) < fuel)%nat →
  ∃ env' e c' r1 r2 st1 st2,
    run i (drain fuel r max f env) st = Done (r1, env', e) st1 ∧
    run i (recv_each try_recv fuel max r f env 0) st = Done (r2, env', e) st2 ∧
    receiving sh st c' r1 st1 ∧ receiving sh st c' r2 st2.
Proof.
  intros Hok Hr Hrx Hmax Hfuel.
  destruct (drain_run sh Hok f i st c r max env fuel Hr Hrx Hmax Hfuel)
    as (r1 & (st1 & Hrun1 & Hr1 & Hf1 & Hd1) & Hrx1).
  pose proof (spsc_receives sh Hok i st) as Hrecv.
  assert (receiving sh st c r st) as Hst by (by split_and!).
  destruct (recv_each_run f max fuel c r st env 0 Hst Hfuel) as (r2 & st2 & Hrun2 & Hst2).
  unfold spec_drain in *. destruct (spec_drain_items max f env 0 (items c)) as [[env' e] q].
  exists env', e, (taken c q), r1, r2, st1, st2. split_and!; try done.
Qed.

(** A witness: two values queued, the callback panics on the second. *)
Lemma spsc_drain_is_recv_loop_witness :
  ∃ (r r1 r2 : Receiver) (st st1 st2 : seqst Z),
    let f := collect (λ v, negb (v =? 2)) in
    run 0 (drain 3 r 5 f []) st = Done (r1, [1; 2], Unwound) st1 ∧
    run 0 (recv_each try_recv 3 5 r f [] 0) st = Done (r2, [1; 2], Unwound) st2.
Proof.
  destruct (channel_run 0 2 Park (empty_state (T := Z)))
    as (sh & s & r & st & _ & Hcap & _ & _ & _ & _ & _ & _ & Hok & Hr & Hs & Hrx);
    [split; vm_compute; (reflexivity || discriminate)|reflexivity|].
  destruct (try_send_run sh Hok 0 st new_chan s 1 Hr Hs) as (s1 & (st1 & _ & Hr1 & _) & Hs1);
    [done|].
  assert ((spec_try_send (cap sh) new_chan 1).2 = MkChan 0 [1] false 2) as Hc1
    by (rewrite Hcap; reflexivity).
  rewrite Hc1 in Hr1, Hs1.
  destruct (try_send_run sh Hok 0 st1 _ s1 2 Hr1 Hs1) as (s2 & (st2 & _ & Hr2 & _) & _); [done|].
  assert ((spec_try_send (cap sh) (MkChan 0 [1] false 2) 2).2 = MkChan 0 [1; 2] false 2) as Hc2
    by (rewrite Hcap; reflexivity).
  rewrite Hc2 in Hr2. set (f := collect (λ v, negb (v =? 2))).
  assert (receiver_ok sh r (MkChan 0 [1; 2] false 2)) as Hrx2.
  { destruct Hrx as (Hsh & Hh & k & Hk & Hb). split_and!; [done..|]. exists k.
    split; [done|]. unfold pushed in *. cbn in *. lia. }
  destruct (spsc_drain_is_recv_loop sh 0 st2 _ r 5 f [] 3 Hok Hr2 Hrx2)
    as (env' & e & c' & r1 & r2 & st1' & st2' & Hd & Hl & _); [vm_compute; split; congruence|simpl; lia|].
  destruct (drain_run sh Hok f 0 st2 _ r 5 [] 3 Hr2 Hrx2) as (r3 & (st3 & Hd' & _) & _);
    [vm_compute; split; congruence|simpl; lia|].
  rewrite Hd in Hd'. injection Hd' as <- He Hx <-. cbn in He, Hx. subst env' e.
  exists r, r1, r2, st2, st1', st2'. by split.
Defined.
End SpscBatch.

(** ** The MPSC ring *)

Module MpscBatch.
Import Mpsc MpscSeq.
Section batch.
Context `{Target} {T : Type} (sh : Shared) (Hok : shared_ok sh).

Definition receiving (st0 : seqst T) (c : Chan T) (r : Receiver) (st : seqst T) : Prop :=
  rep sh st c ∧ receiver_ok sh r c ∧ frame (sh_ring sh) st0 st ∧ dropped st = dropped st0.

#[export] Instance mpsc_receives i st0 :
  Receives i try_recv items taken (receiving st0).
Proof using Hok.
  split; [by apply mpsc_taken_items|done| |].
  - intros c q q'. unfold taken, with_items. simpl. f_equal.
    unfold pushed. simpl. unfold pushed. lia.
  - intros c r st (Hr & Hrx & Hf & Hd).
    destruct (mpsc_try_recv_run sh Hok i st c r Hr Hrx)
      as (r' & (st' & Hrun & Hr' & Hf' & Hd' & _) & Hrx').
    exists r', st'. unfold spec_try_recv in *. destruct (items c) as [|v q] eqn:Hq.
    + eexists. split; [exact Hrun|]. split_and!; [done..|by etrans|congruence].
    + assert (taken c q = with_items c (popped c + 1) q) as ->.
      { unfold taken, pushed. rewrite Hq. cbn [length]. f_equal. lia. }
      split; [exact Hrun|]. split_and!; [done..|by etrans|congruence].
Qed.
End batch.

(** C23. Equivalence. The same of the values, the ending and the channel of the
    MPSC ring: one [drain] and the loop of [try_recv] calls hand the callback the
    same values in the same order, end the same way and leave stores that hold
    the same channel. Not of the wake-ups: under [Park] the loop wakes the
    waiting producers after every value, while [drain] wakes them once, after its
    last value, and not at all when the callback panics. *)
Theorem mpsc_drain_is_recv_loop `{Target} {T S} (sh : Shared) i (st : seqst T) c r
    (max : Z) (f : S → T → S * bool) (env : S) fuel :
  shared_ok sh → rep sh st c → receiver_ok sh r c → is_usize max →
  (length (items c) < fuel)%nat →
  ∃ env' e c' r1 r2 st1 st2,
    run i (drain fuel r max f env) st = Done (r1, env', e) st1 ∧
    run i (recv_each try_recv fuel max r f env 0) st = Done (r2, env', e) st2 ∧
    receiving sh st c' r1 st1 ∧ receiving sh st c' r2 st2.
Proof.
  intros Hok Hr Hrx Hmax Hfuel.
  destruct (mpsc_drain_run sh Hok f i st c r max env fuel Hr Hrx Hmax Hfuel)
    as (r1 & (st1 & Hrun1 & Hr1 & Hf1 & Hd1 & _) & Hrx1).
  pose proof (mpsc_receives sh Hok i st) as Hrecv.
  assert (receiving sh st c r st) as Hst by (by split_and!).
  destruct (recv_each_run f max fuel c r st env 0 Hst Hfuel) as (r2 & st2 & Hrun2 & Hst2).
  unfold spec_drain in *. destruct (spec_drain_items max f env 0 (items c)) as [[env' e] q].
  exists env', e, (taken c q), r1, r2, st1, st2. split_and!; try done.
Qed.

(** A witness: one value queued, [drain] asked for up to five. *)
Lemma mpsc_drain_is_recv_loop_witness :
  ∃ (r r1 r2 : Receiver) (st st1 st2 : seqst Z),
    run 0 (drain 3 r 5 (collect (λ _, true)) []) st = Done (r1, [7], Returned 1) st1 ∧
    run 0 (recv_each try_recv 3 5 r (collect (λ _, true)) [] 0) st = Done (r2, [7], Returned 1) st2.
Proof.
  destruct (mpsc_channel_run 0 2 Park (empty_state (T := Z)))
    as (sh & s & r & st & _ & Hcap & _ & _ & _ & _ & Hsp & Hok & Hr & Hs & Hrx);
    [split; vm_compute; (reflexivity || discriminate)|reflexivity|].
  destruct (mpsc_try_send_run sh Hok 0 st new_chan s 7 1 Hr Hs) as (s1 & (st1 & _ & Hr1 & _) & _);
    [rewrite Hsp; simpl; lia|].
  assert ((spec_try_send (cap sh) new_chan 7).2 = MkChan 0 [7] 1 false 2) as Hc1
    by (rewrite Hcap; reflexivity).
  rewrite Hc1 in Hr1.
  destruct (mpsc_drain_is_recv_loop sh 0 st1 _ r 5 (collect (λ _, true)) [] 3 Hok Hr1 Hrx)
    as (env' & e & c' & r1 & r2 & st1' & st2' & Hd & Hl & _); [vm_compute; split; congruence|simpl; lia|].
  destruct (mpsc_drain_run sh Hok (collect (λ _, true)) 0 st1 _ r 5 [] 3 Hr1 Hrx)
    as (r3 & (st3 & Hd' & _) & _); [vm_compute; split; congruence|simpl; lia|].
  rewrite Hd in Hd'. injection Hd' as <- He Hx <-. cbn in He, Hx. subst env' e.
  exists r, r1, r2, st1, st1', st2'. by split.
Defined.
End MpscBatch.
