(* ===== verification/Limits.v ===== *)
(** The edges: which capacities the constructors accept, and what the rings do
    when a [usize] counter reaches the end of its range (after [2^64]
    messages, or [2^32] on a 32-bit target). *)
From S2P Require Import Prelude Usize Atomic Errors Wait Notify Ring Queue Seq NotifySeq.
From S2P Require Spsc Mpsc Sharded SpscSeq MpscSeq ShardedSeq.
Local Open Scope Z_scope.

Section constructors.
Context `{tgt : Target} {T : Type}.
Implicit Types st : seqst T.

Definition cap_ok (cap : Z) : bool := (0 <? cap) && is_power_of_two cap.

Lemma assert_cap_run {A} i cap (f : unit → prog T A) st :
  run i (assert_cap cap ≫= f) st = if cap_ok cap then run i (f tt) st else DidPanic st.
Proof. unfold assert_cap, cap_ok. by destruct ((0 <? cap) && is_power_of_two cap). Qed.

Lemma cap_ok_spec cap : cap_ok cap = true → 0 < cap ∧ is_power_of_two cap = true.
Proof. unfold cap_ok. rewrite andb_true_iff, Z.ltb_lt. done. Qed.

(** C33. The constructors validate their arguments: [spsc] and [mpsc] accept
    exactly the positive powers of two, [sharded] exactly the totals that
    split evenly into a positive power of two per shard, for at least one
    shard and a strategy other than [Park]; every other argument panics before
    anything is allocated. *)
Theorem constructors_validate i cap n total strat st :
  0 ≤ cap ≤ usize_max → 0 ≤ n ≤ usize_max → 0 ≤ total ≤ usize_max →
  (if cap_ok cap then ∃ h st', run i (Spsc.channel cap strat) st = Done h st'
   else run i (Spsc.channel cap strat) st = DidPanic st) ∧
  (if cap_ok cap then ∃ h st', run i (Mpsc.channel cap strat) st = Done h st'
   else run i (Mpsc.channel cap strat) st = DidPanic st) ∧
  (if (0 <? n) && is_multiple_of total n && cap_ok (total / n) && bool_decide (strat ≠ Park)
   then ∃ h st', run i (Sharded.channel n total strat) st = Done h st'
   else run i (Sharded.channel n total strat) st = DidPanic st).
Proof.
  intros Hcap Hn Htot. split_and!.
  - destruct (cap_ok cap) eqn:Hok; [|unfold Spsc.channel; by rewrite assert_cap_run, Hok].
    apply cap_ok_spec in Hok as [? ?].
    destruct (SpscSeq.channel_run i cap strat st) as (sh & tx & rx & st' & Hrun & _); [lia|done|]. eauto.
  - destruct (cap_ok cap) eqn:Hok; [|unfold Mpsc.channel; by rewrite assert_cap_run, Hok].
    apply cap_ok_spec in Hok as [? ?].
    destruct (MpscSeq.mpsc_channel_run i cap strat st) as (sh & tx & rx & st' & Hrun & _); [lia|done|]. eauto.
  - unfold Sharded.channel, cap_ok. destruct (Z.ltb_spec 0 n); [|done].
    destruct (is_multiple_of total n); [|done].
    destruct ((0 <? total / n) && is_power_of_two (total / n)) eqn:Hok; [|done].
    destruct (decide (strat = Park)) as [Hp|Hp].
    { rewrite (bool_decide_eq_true_2 (strat = Park)), (bool_decide_eq_false_2 (strat ≠ Park)) by (done || by intros []). done. }
    rewrite (bool_decide_eq_false_2 (strat = Park)), (bool_decide_eq_true_2 (strat ≠ Park)) by done.
    apply cap_ok_spec in Hok as [? ?]. simpl.
    assert (total / n ≤ total) by (apply Z.div_le_upper_bound; nia).
    destruct (ShardedSeq.make_shards_run i (Z.to_nat n) (total / n) strat st)
      as (shs & txs & rxs & st' & Hrun & _); [lia|done|lia|].
    eexists _, _. by erewrite run_bind_Done by exact Hrun.
Qed.
End constructors.

(** ** The end of the SPSC counters *)

Section spsc.
Import Spsc SpscSeq.
Context `{tgt : Target} {T : Type} (sh : Shared) (Hok : shared_ok sh).
Implicit Types (st : seqst T) (c : Chan T) (i : tid).

(** C34. The end of the SPSC tail in builds with overflow checks: once
    [usize::MAX] values were sent, [try_send] on a ring with room panics
    after it wrote the value into the slot and before it published it, so the
    value is neither delivered nor handed back. *)
Theorem spsc_tail_overflow_panics i st c s v :
  overflow_checks = true → rep sh st c → sender_ok sh s c → closed c = false →
  Z.of_nat (length (items c)) < cap sh → pushed c = usize_max →
  ∃ st', run i (try_send s v) st = DidPanic st' ∧
    atoms st' !! tail sh = atoms st !! tail sh ∧
    cells st' !! buf sh (slot_of (cap sh) (pushed c)) = Some (Some v).
Proof using Hok.
  intros Hck Hr (Hsh & Ht & k & Hk & Hkr & Hkw) Hopen Hroom Hend. destruct s as [sh' t k']; simpl in *.
  subst sh' t k'. pose proof (rep_popped_le sh _ _ _ Hr).
  assert (Hadd : usize_add (wrap (pushed c)) 1 = None).
  { rewrite wrap_small by (unfold is_usize, usize_max in *; lia). unfold usize_add, checked.
    rewrite Hck, Hend. simpl. rewrite (proj2 (Z.leb_gt (usize_max + 1) usize_max)) by lia. by rewrite andb_false_r. }
  exists (set_cells <[buf sh (slot_of (cap sh) (pushed c)) := Some v]> st).
  split; [|split; [done|simpl; by rewrite lookup_insert_eq]].
  assert (Hlen : pushed c - popped c < cap sh) by (unfold pushed; lia).
  unfold try_send. cbn [s_shared s_tail cached_head].
  erewrite run_load_bool by apply (rep_disc _ _ _ _ Hr). rewrite Hopen.
  erewrite run_arith by (eapply (usize_sub_occupancy sh Hok); eauto).
  assert (Hput : ∀ k', run (A := Sender * result unit (TrySendError T)) i (i ← index (buf_len sh) (Z.land (wrap (pushed c)) (mask sh));
     _ ← write_cell (buf sh i) v; t ← arith (usize_add (wrap (pushed c)) 1);
     _ ← store (tail sh) t Release; _ ← wake_if_park sh (consumer_parker sh);
     mret (MkSender sh t k', Ok tt)) st =
     DidPanic (set_cells <[buf sh (slot_of (cap sh) (pushed c)) := Some v]> st)).
  { intros k'. rewrite (index_slot Hok), run_ret.
    erewrite run_write by (apply (rep_free _ _ _ _ Hr); lia). by rewrite Hadd. }
  destruct (pushed c - k =? cap sh); [|rewrite run_ret; exact (Hput (wrap k))].
  rewrite run_assoc. erewrite run_load by apply (rep_head _ _ _ _ Hr).
  cbn [s_tail cached_head]. rewrite run_assoc.
  erewrite run_arith by (eapply (usize_sub_occupancy sh Hok); eauto; lia).
  rewrite run_ret. cbv beta iota. rewrite (proj2 (Z.eqb_neq _ _)) by lia. exact (Hput (wrap (popped c))).
Qed.

(** C35. The end of the SPSC counters in builds without overflow checks: the
    ring itself goes on (the counters wrap together), but when the tail has
    wrapped and the head has not, the drop of the ring sees the empty range
    and leaks every value still queued. *)
Theorem spsc_wrapped_drop_leaks i st c :
  rep sh st c → popped c ≤ usize_max < pushed c →
  overflow_checks = false ∧ items c ≠ [] ∧ run i (Shared_drop sh) st = Done tt st.
Proof using Hok.
  intros Hr Hw. pose proof (cap_lt_modulus Hok). pose proof (rep_bound _ _ _ _ Hr).
  pose proof (rep_popped _ _ _ _ Hr). split_and!.
  - pose proof (rep_checked _ _ _ _ Hr) as Hck. destruct overflow_checks; [|done].
    specialize (Hck eq_refl). lia.
  - unfold pushed in Hw. destruct (items c); simpl in *; [lia|done].
  - unfold Shared_drop. erewrite run_load by apply (rep_head _ _ _ _ Hr).
    erewrite run_load by apply (rep_tail _ _ _ _ Hr).
    rewrite (wrap_small (popped c)) by (unfold is_usize, usize_max in *; lia).
    assert (wrap (pushed c) = pushed c - usize_modulus) as ->.
    { unfold wrap. rewrite <-(Z_mod_plus_full (pushed c) (-1)). replace (pushed c + -1 * usize_modulus) with
        (pushed c - usize_modulus) by lia. apply Z.mod_small. unfold usize_max, pushed in *. lia. }
    replace (Z.to_nat _) with 0%nat; [done|]. unfold usize_max, pushed in *. lia.
Qed.
End spsc.

(** ** The end of the MPSC claim counter *)

Section mpsc.
Import Mpsc MpscSeq.
Context `{tgt : Target} {T : Type} (sh : Shared) (Hok : shared_ok sh).
Implicit Types (st : seqst T) (c : Chan T) (i : tid).

(** C36. The end of the MPSC claim counter: once [usize::MAX] values were
    claimed, [try_send] reports [Full] for ever, whatever room there is, even
    on an empty ring, hands the value back, and never panics or wraps a round
    number. *)
Theorem mpsc_claim_exhausted i st c s v fuel :
  rep sh st c → sender_ok sh s c → rx_gone c = false → pushed c = usize_max →
  (length (spurious st) < fuel)%nat →
  ∃ s' st', run i (try_send fuel s v) st = Done (s', Err (Full v)) st' ∧ rep sh st' c ∧ sender_ok sh s' c.
Proof using Hok.
  intros Hr Hs Hgone Hend Hfuel.
  destruct (mpsc_try_send_run sh Hok i st c s v fuel Hr Hs Hfuel) as (s' & (st' & Hrun & Hr' & _) & Hs').
  assert (Hspec : spec_try_send (cap sh) c v = (Err (Full v), c)).
  { unfold spec_try_send, is_full, saturating_add. rewrite Hgone, Hend, (proj2 (Z.geb_le _ _)) by lia. done. }
  rewrite Hspec in *. by exists s', st'.
Qed.
End mpsc.

(** ** Concrete instances *)

(** A capacity-1 SPSC ring whose two counters stand at [counter] and, with
    [queued], one value later at the tail. *)
Definition spsc_old : Spsc.Shared := Spsc.MkShared 0 1 0 1 BusySpin.
Definition spsc_at `{Target} (counter : Z) (queued : list Z) : seqst Z :=
  set_cells (λ m, match queued with v :: _ => <[Loc 0 (Buf 0) := Some v]> m | [] => m end)
    (alloc 1 ([(StrongCount, 2); (Tail, wrap (counter + Z.of_nat (length queued)));
               (Head, wrap counter); (Disconnected, 0)]
              ++ Parker_new Consumer ++ Parker_new Producer) empty_state).

Lemma spsc_old_ok `{Target} : SpscSeq.shared_ok spsc_old.
Proof. split; [|done..]. exists 0. pose proof usize_bits_pos. split; [lia|done]. Qed.

Lemma spsc_at_rep `{Target} counter queued :
  0 ≤ counter → (length queued ≤ 1)%nat →
  (overflow_checks = true → counter + Z.of_nat (length queued) ≤ usize_max) →
  SpscSeq.rep spsc_old (spsc_at counter queued) (SpscSeq.MkChan counter queued false 2).
Proof.
  intros H0 Hlen Hck. assert (Hslot : ∀ n, slot_of 1 n = 0%nat) by (intros n; unfold slot_of; by rewrite Z.mod_1_r).
  unfold spsc_at, SpscSeq.rep. split; cbn -[wrap Z.of_nat slot_of]; try done; try lia.
  - intros s. exists false. by destruct s.
  - intros j v Hj. rewrite Hslot. destruct queued as [|w [|]]; simpl in *; [done| |lia].
    destruct j; [|done]. injection Hj as ->. by rewrite lookup_insert_eq.
  - intros n Hn. rewrite Hslot. destruct queued; simpl in *; [done|]. unfold SpscSeq.pushed in Hn. simpl in Hn. lia.
Qed.

(** A capacity-1 MPSC ring, empty, whose claim counter is used up. *)
Definition mpsc_old : Mpsc.Shared := Mpsc.MkShared 0 1 0 1 0 BusySpin.
Definition mpsc_at_max : seqst Z :=
  alloc 1 ([(StrongCount, 2); (Claim, usize_max); (Head, usize_max); (Senders, 1); (RxDropped, 0);
            (Round 0, Mpsc.round_of mpsc_old (usize_max - 1))]
           ++ Parker_new Consumer ++ WaiterList_new) empty_state.
Definition mpsc_chan_max : MpscSeq.Chan Z := MpscSeq.MkChan usize_max [] 1 false 2.

Lemma mpsc_old_ok : MpscSeq.shared_ok mpsc_old.
Proof. split; [split; [|done..]; by exists 0|done]. Qed.

Lemma mpsc_at_max_rep : MpscSeq.rep mpsc_old mpsc_at_max mpsc_chan_max.
Proof.
  assert (Hslot : ∀ n, slot_of 1 n = 0%nat) by (intros n; unfold slot_of; by rewrite Z.mod_1_r).
  split.
  1-8: by vm_compute.
  - by exists false.
  - by exists false.
  - unfold MpscSeq.pushed. cbn -[usize_max]. intros n Hn. assert (n = usize_max - 1) as -> by lia. by vm_compute.
  - done.
  - intros n _. cbn -[slot_of]. by rewrite Hslot.
  - by vm_compute.
Qed.

Lemma constructors_validate_witness :
  (∃ h st', run 0 (Spsc.channel 4 Backoff) (empty_state (T := Z)) = Done h st') ∧
  run 0 (Mpsc.channel 6 Backoff) (empty_state (T := Z)) = DidPanic empty_state ∧
  run 0 (Sharded.channel 2 12 Backoff) (empty_state (T := Z)) = DidPanic empty_state ∧
  run 0 (Sharded.channel 2 8 Park) (empty_state (T := Z)) = DidPanic empty_state ∧
  ∃ h st', run 0 (Sharded.channel 2 8 Backoff) (empty_state (T := Z)) = Done h st'.
Proof.
  assert (H : ∀ n, 0 ≤ n < 16 → 0 ≤ n ≤ usize_max) by (intros n ?; split; [lia|]; change usize_max with (2 ^ 64 - 1); lia).
  split; [apply (constructors_validate (T := Z) 0%nat 4 1 1 Backoff empty_state); by apply H|].
  split; [apply (constructors_validate (T := Z) 0%nat 6 1 1 Backoff empty_state); by apply H|].
  split; [apply (constructors_validate (T := Z) 0%nat 1 2 12 Backoff empty_state); by apply H|].
  split; [apply (constructors_validate (T := Z) 0%nat 1 2 8 Park empty_state); by apply H|].
  apply (constructors_validate (T := Z) 0%nat 1 2 8 Backoff empty_state); by apply H.
Defined.

Lemma spsc_tail_overflow_panics_witness :
  let tgt := x86_64_debug in let M := 2 ^ 64 - 1 in
  ∃ st', run 0 (Spsc.try_send (H := tgt) (Spsc.MkSender spsc_old M M) 7) (spsc_at (H := tgt) M []) = DidPanic st' ∧
    atoms st' !! Loc 0 Tail = Some M ∧ cells st' !! Loc 0 (Buf 0) = Some (Some 7).
Proof.
  intros tgt M.
  destruct (spsc_tail_overflow_panics (tgt := tgt) spsc_old spsc_old_ok 0%nat (spsc_at (H := tgt) M [])
    (SpscSeq.MkChan M [] false 2) (Spsc.MkSender spsc_old M M) 7) as (st' & Hrun & Ht & Hv); try done.
  - apply (@spsc_at_rep tgt); [by vm_compute|simpl; lia|by vm_compute].
  - split; [done|]. split; [by vm_compute|]. exists M. split_and!; by vm_compute.
  - exists st'. split; [exact Hrun|]. split; [|exact Hv]. 
    change (Loc 0 Tail) with (Spsc.tail spsc_old). rewrite Ht. by vm_compute.
Defined.

Lemma spsc_wrapped_drop_leaks_witness :
  let tgt := arm32_release in
  run 0 (Spsc.Shared_drop spsc_old) (spsc_at (H := tgt) (2 ^ 32 - 1) [7]) =
    Done tt (spsc_at (H := tgt) (2 ^ 32 - 1) [7]).
Proof.
  intros tgt.
  apply (spsc_wrapped_drop_leaks (tgt := tgt) spsc_old spsc_old_ok 0%nat _ (SpscSeq.MkChan (2 ^ 32 - 1) [7] false 2)).
  - apply (@spsc_at_rep tgt); [by vm_compute|simpl; lia|by vm_compute].
  - by vm_compute.
Defined.

Lemma mpsc_claim_exhausted_witness :
  ∃ s' st', run 0 (Mpsc.try_send 1 (Mpsc.MkSender mpsc_old 0) 7) mpsc_at_max = Done (s', Err (Full 7)) st' ∧
    MpscSeq.rep mpsc_old st' mpsc_chan_max ∧ MpscSeq.sender_ok mpsc_old s' mpsc_chan_max.
Proof.
  apply (mpsc_claim_exhausted mpsc_old mpsc_old_ok 0%nat mpsc_at_max mpsc_chan_max); try done.
  - apply mpsc_at_max_rep.
  - simpl. lia.
Defined.
