(* ===== verification/Memory.v ===== *)
(** Concurrent meaning of programs: an executable release/acquire machine.
    Every atomic location keeps the history of its stores; a load may read any
    store its thread is not yet past, a store may be placed at any free later
    timestamp, a read-modify-write reads a store and takes the next timestamp.
    Threads, messages, mutexes and park tokens carry views; fences move views
    between a thread's current, acquire and release view, and a sequentially
    consistent fence exchanges them with one global view. A non-atomic access
    that is not ordered after every earlier access of its cell is a race. *)
From S2P Require Import Prelude Usize Atomic Seq.
Local Open Scope Z_scope.

(** ** Views *)

(** The newest timestamp known of each location. *)
Abbreviation view := (gmap loc nat).

Definition vw (V : view) (l : loc) : nat := default 0%nat (V !! l).
Definition vjoin (V W : view) : view := union_with (λ a b, Some (Nat.max a b)) V W.
Definition vset (l : loc) (t : nat) (V : view) : view := <[l := Nat.max t (vw V l)]> V.
Definition vle (V W : view) : Prop := ∀ l, (vw V l ≤ vw W l)%nat.

#[global] Instance vle_preorder : PreOrder vle.
Proof.
  split; [intros V l; lia|]. intros V1 V2 V3 H1 H2 l. specialize (H1 l). specialize (H2 l). lia.
Qed.

Lemma vw_join V W l : vw (vjoin V W) l = Nat.max (vw V l) (vw W l).
Proof.
  unfold vw, vjoin. rewrite lookup_union_with.
  destruct (V !! l), (W !! l); simpl; lia.
Qed.

Lemma vw_set l t V l' : vw (vset l t V) l' = if decide (l = l') then Nat.max t (vw V l) else vw V l'.
Proof.
  unfold vset, vw. destruct (decide (l = l')) as [<-|Hne].
  - by rewrite lookup_insert_eq.
  - by rewrite lookup_insert_ne.
Qed.

Lemma vw_set_same l t V : vw (vset l t V) l = Nat.max t (vw V l).
Proof. rewrite vw_set. by rewrite decide_True. Qed.
Lemma vw_set_other l t V l' : l ≠ l' → vw (vset l t V) l' = vw V l'.
Proof. intros. rewrite vw_set. by rewrite decide_False. Qed.

Lemma vle_join_l V W : vle V (vjoin V W).
Proof. intros l. rewrite vw_join. lia. Qed.
Lemma vle_join_r V W : vle W (vjoin V W).
Proof. intros l. rewrite vw_join. lia. Qed.
Lemma vle_set l t V : vle V (vset l t V).
Proof. intros l'. rewrite vw_set. case_decide; subst; lia. Qed.
Lemma vle_join_mono V V' W : vle V V' → vle (vjoin V W) (vjoin V' W).
Proof. intros Hv l. rewrite !vw_join. specialize (Hv l). lia. Qed.
Lemma vle_empty V : vle ∅ V.
Proof. intros l. unfold vw. rewrite lookup_empty. simpl. lia. Qed.
#[export] Hint Resolve vle_join_l vle_join_r vle_set vle_empty : rings.

(** A thread's views: what it has observed, what its next acquire fence will
    make it observe, and what its relaxed stores release. *)
Record tview := MkTView { cur : view; acq : view; rel : view }.

Definition is_acquire (o : ordering) : bool :=
  match o with Acquire | AcqRel | SeqCst => true | _ => false end.
Definition is_release (o : ordering) : bool :=
  match o with Release | AcqRel | SeqCst => true | _ => false end.

(** ** Memory *)

Record msg := Msg { mval : Z; mview : view }.

Record mem (T : Type) := MkMem {
  hist : gmap loc (gmap nat msg);
  (** Non-atomic cells: how often they were accessed, and their content. *)
  mcells : gmap loc (nat * option T);
  mslots : gmap loc (option tid * view);
  mqueues : gmap loc (list tid * view);
  mtokens : gmap tid view;
  scview : view;
  nextring : nat;
  mdropped : list T;
}.
Arguments MkMem {T}.
Arguments hist {T}.
Arguments mcells {T}.
Arguments mslots {T}.
Arguments mqueues {T}.
Arguments mtokens {T}.
Arguments scview {T}.
Arguments nextring {T}.
Arguments mdropped {T}.

Section memory.
Context {T : Type}.
Implicit Types m : mem T.

Definition empty_mem : mem T := MkMem ∅ ∅ ∅ ∅ ∅ ∅ 0 [].

Definition set_hist f m := MkMem (f (hist m)) (mcells m) (mslots m) (mqueues m)
  (mtokens m) (scview m) (nextring m) (mdropped m).
Definition set_mcells f m := MkMem (hist m) (f (mcells m)) (mslots m) (mqueues m)
  (mtokens m) (scview m) (nextring m) (mdropped m).
Definition set_mslots f m := MkMem (hist m) (mcells m) (f (mslots m)) (mqueues m)
  (mtokens m) (scview m) (nextring m) (mdropped m).
Definition set_mqueues f m := MkMem (hist m) (mcells m) (mslots m) (f (mqueues m))
  (mtokens m) (scview m) (nextring m) (mdropped m).
Definition set_mtokens f m := MkMem (hist m) (mcells m) (mslots m) (mqueues m)
  (f (mtokens m)) (scview m) (nextring m) (mdropped m).
Definition set_scview V m := MkMem (hist m) (mcells m) (mslots m) (mqueues m)
  (mtokens m) V (nextring m) (mdropped m).
Definition add_mdropped v m := MkMem (hist m) (mcells m) (mslots m) (mqueues m)
  (mtokens m) (scview m) (nextring m) (mdropped m ++ [v]).

(** One more store in the history of [l]. *)
Definition add_msg (l : loc) (t : nat) (x : msg) m : mem T :=
  set_hist (λ H, <[l := <[t := x]> (default ∅ (H !! l))]> H) m.

Fixpoint alloc_hist (r : nat) (init : list (field * Z)) (H : gmap loc (gmap nat msg)) :
    gmap loc (gmap nat msg) :=
  match init with
  | [] => H
  | (f, v) :: init => <[Loc r f := {[0%nat := Msg v ∅]}]> (alloc_hist r init H)
  end.
Fixpoint alloc_mcells (r n : nat) (C : gmap loc (nat * option T)) :=
  match n with
  | O => C
  | S n => <[Loc r (Buf n) := (0%nat, None)]> (alloc_mcells r n C)
  end.
Definition malloc (n : nat) (init : list (field * Z)) m : mem T :=
  MkMem (alloc_hist (nextring m) init (hist m)) (alloc_mcells (nextring m) n (mcells m))
    (mslots m) (mqueues m) (mtokens m) (scview m) (S (nextring m)) (mdropped m).
Definition mfree (r : nat) m : mem T :=
  set_hist (filter (λ p, ring p.1 ≠ r)) (set_mcells (filter (λ p, ring p.1 ≠ r)) m).
End memory.

(** ** View updates *)

(** Reading message [x] of timestamp [t]. *)
Definition read_view (l : loc) (t : nat) (o : ordering) (x : msg) (V : tview) : tview :=
  let c := vset l t (cur V) in
  {| cur := if is_acquire o then vjoin c (mview x) else c;
     acq := vjoin (acq V) (mview x);
     rel := rel V |}.

(** Writing at timestamp [t]. *)
Definition write_view (l : loc) (t : nat) (V : tview) : tview :=
  {| cur := vset l t (cur V); acq := acq V; rel := rel V |}.

(** The view a store at timestamp [t] carries. *)
Definition released (l : loc) (t : nat) (o : ordering) (V : tview) : view :=
  vset l t (if is_release o then cur V else rel V).

(** Learning [W] through a lock or a park token. *)
Definition learn (W : view) (V : tview) : tview :=
  {| cur := vjoin (cur V) W; acq := acq V; rel := rel V |}.

Definition acquire_fence (V : tview) : tview :=
  {| cur := vjoin (cur V) (acq V); acq := acq V; rel := rel V |}.
Definition release_fence (V : tview) : tview :=
  {| cur := cur V; acq := acq V; rel := cur V |}.

(** A fence: the thread's new views and the new global view. *)
Definition fence_view (o : ordering) (V : tview) (G : view) : tview * view :=
  match o with
  | Relaxed => (V, G)
  | Acquire => (acquire_fence V, G)
  | Release => (release_fence V, G)
  | AcqRel => (release_fence (acquire_fence V), G)
  | SeqCst =>
      let G' := vjoin (cur (acquire_fence V)) G in
      ({| cur := G'; acq := acq V; rel := G' |}, G')
  end.

(** ** Steps *)

Inductive res (X : Type) :=
  | Next (x : X)
  (** The scheduler's choice is not available here. *)
  | Infeasible
  | Fault (f : fault).
Arguments Next {X}.
Arguments Infeasible {X}.
Arguments Fault {X}.

(** A non-atomic access: ordered after all earlier accesses of the cell. *)
Definition access {X T} (l : loc) (V : tview) (m : mem T)
    (k : nat → option T → res X) : res X :=
  match mcells m !! l with
  | None => Fault Unallocated
  | Some (s, c) => if (s <=? vw (cur V) l)%nat then k s c else Fault Race
  end.

(** A critical section of a mutex: its block must not be freed. *)
Definition in_block {X T} (l : loc) (m : mem T) (k : res X) : res X :=
  match hist m !! beside l with
  | Some _ => k
  | None => Fault Unallocated
  end.

(** One step of thread [i]; the scheduler picks the timestamp [t] and the
    boolean [b] (a spurious failure, a spurious unpark). *)
Definition step {T A} (i : tid) (p : prog T A) (V : tview) (m : mem T) (t : nat) (b : bool) :
    res (prog T A * tview * mem T) :=
  match p with
  | Ret _ | Panicked | OutOfFuel => Infeasible
  | New n init k => Next (k (nextring m), V, malloc n init m)
  | Load l o k =>
      match hist m !! l with
      | None => Fault Unallocated
      | Some h =>
          match h !! t with
          | Some x =>
              if (vw (cur V) l <=? t)%nat then Next (k (mval x), read_view l t o x V, m)
              else Infeasible
          | None => Infeasible
          end
      end
  | Store l v o k =>
      match hist m !! l with
      | None => Fault Unallocated
      | Some h =>
          match h !! t with
          | Some _ => Infeasible
          | None =>
              if (vw (cur V) l <? t)%nat then
                Next (k, write_view l t V, add_msg l t (Msg v (released l t o V)) m)
              else Infeasible
          end
      end
  | Rmw l f o k =>
      match hist m !! l with
      | None => Fault Unallocated
      | Some h =>
          match h !! t, h !! S t with
          | Some x, None =>
              if (vw (cur V) l <=? t)%nat then
                let V := read_view l t o x V in
                Next (k (mval x), write_view l (S t) V,
                      add_msg l (S t) (Msg (f (mval x)) (vjoin (mview x) (released l (S t) o V))) m)
              else Infeasible
          | _, _ => Infeasible
          end
      end
  | CasWeak l e n so fo k =>
      match hist m !! l with
      | None => Fault Unallocated
      | Some h =>
          match h !! t with
          | Some x =>
              if negb (vw (cur V) l <=? t)%nat then Infeasible
              else if (mval x =? e) && negb b then
                match h !! S t with
                | Some _ => Infeasible
                | None =>
                    let V := read_view l t so x V in
                    Next (k (inl (mval x)), write_view l (S t) V,
                          add_msg l (S t) (Msg n (vjoin (mview x) (released l (S t) so V))) m)
                end
              else Next (k (inr (mval x)), read_view l t fo x V, m)
          | None => Infeasible
          end
      end
  | Fence o k =>
      let '(V, G) := fence_view o V (scview m) in Next (k, V, set_scview G m)
  | WriteCell l v k =>
      access l V m (λ s c,
        match c with
        | Some _ => Fault LostValue
        | None => Next (k, write_view l (S s) V, set_mcells <[l := (S s, Some v)]> m)
        end)
  | ReadCell l k =>
      access l V m (λ s c,
        match c with
        | Some v => Next (k v, write_view l (S s) V, set_mcells <[l := (S s, None)]> m)
        | None => Fault UninitRead
        end)
  | DropCell l k =>
      access l V m (λ s c,
        match c with
        | Some v =>
            Next (k, write_view l (S s) V,
                  add_mdropped v (set_mcells <[l := (S s, None)]> m))
        | None => Fault UninitRead
        end)
  | Dealloc r k => Next (k, V, mfree r m)
  | SetSlot l k => in_block l m (
      let V := learn (default ∅ (snd <$> mslots m !! l)) V in
      Next (k, V, set_mslots <[l := (Some i, cur V)]> m))
  | TakeSlot l k => in_block l m (
      let V := learn (default ∅ (snd <$> mslots m !! l)) V in
      Next (k (mslots m !! l ≫= fst), V, set_mslots <[l := (None, cur V)]> m))
  | PushWaiter l k => in_block l m (
      let V := learn (default ∅ (snd <$> mqueues m !! l)) V in
      Next (k, V, set_mqueues
                    <[l := (default [] (fst <$> mqueues m !! l) ++ [i], cur V)]> m))
  | DrainWaiters l k => in_block l m (
      let V := learn (default ∅ (snd <$> mqueues m !! l)) V in
      Next (k (default [] (fst <$> mqueues m !! l)), V, set_mqueues <[l := ([], cur V)]> m))
  | ParkThread k =>
      match mtokens m !! i with
      | Some W => Next (k, learn W V, set_mtokens (delete i) m)
      | None => if b then Next (k, V, m) else Infeasible
      end
  | Unpark j k =>
      Next (k, V, set_mtokens (λ X, <[j := vjoin (default ∅ (X !! j)) (cur V)]> X) m)
  | Hint _ k => Next (k, V, m)
  end.

Lemma in_block_Next {X T} l (m : mem T) (k : res X) x : in_block l m k = Next x → k = Next x.
Proof. unfold in_block. by case_match. Qed.

(** Sequencing steps its first part. *)
Lemma step_bind {T A B} i (f : A → prog T B) p V m t b :
  (∀ a, p ≠ Ret a) →
  step i (bind f p) V m t b =
  match step i p V m t b with
  | Next (p', V', m') => Next (bind f p', V', m')
  | Infeasible => Infeasible
  | Fault x => Fault x
  end.
Proof.
  intros Hp. destruct p; try done; [by destruct (Hp a)|..]; simpl; unfold access, in_block;
    repeat (case_match; try done; simplify_eq).
Qed.

(** ** What actions do to views and histories *)

(** [W] is past every store in the history. *)
Definition final (h : gmap nat msg) (l : loc) W : Prop :=
  ∀ t, is_Some (h !! t) → (t ≤ vw W l)%nat.

Lemma final_mono h l W W' : final h l W → vle W W' → final h l W'.
Proof. intros Hf Hv t Ht. specialize (Hf t Ht). specialize (Hv l). lia. Qed.

Lemma read_view_grows l t o x V :
  vle (cur V) (cur (read_view l t o x V)) ∧ vle (acq V) (acq (read_view l t o x V)).
Proof.
  split; [|apply vle_join_l]. unfold read_view. simpl. destruct (is_acquire o).
  - etrans; [apply vle_set|apply vle_join_l].
  - apply vle_set.
Qed.

Lemma write_view_grows l t V :
  vle (cur V) (cur (write_view l t V)) ∧ vle (acq V) (acq (write_view l t V)).
Proof. split; [apply vle_set|done]. Qed.

Lemma acquire_read l t x V : vle (mview x) (cur (read_view l t Acquire x V)).
Proof. apply vle_join_r. Qed.

Lemma read_view_past l t o x V : (t ≤ vw (cur (read_view l t o x V)) l)%nat.
Proof.
  unfold read_view. simpl. destruct (is_acquire o).
  - rewrite vw_join, vw_set_same. lia.
  - rewrite vw_set_same. lia.
Qed.

Section histories.
Context {T : Type}.
Implicit Types m : mem T.

Lemma hist_add_same l t x m h :
  hist m !! l = Some h → hist (add_msg l t x m) !! l = Some (<[t := x]> h).
Proof. intros Hh. simpl. by rewrite lookup_insert_eq, Hh. Qed.

Lemma hist_add_other l t x m l' : l ≠ l' → hist (add_msg l t x m) !! l' = hist m !! l'.
Proof. intros Hne. simpl. by rewrite lookup_insert_ne. Qed.

(** There is a store of timestamp [t] in the history of [l]; no store is later
    than [t]; the store of timestamp [t], once [v] was loaded from it, holds [v]. *)
Definition stored m (l : loc) (t : nat) : Prop := ∃ h, hist m !! l = Some h ∧ is_Some (h !! t).
Definition latest m l (t : nat) : Prop := ∀ t', stored m l t' → (t' ≤ t)%nat.
Definition loaded m l (t : nat) (v : option Z) : Prop :=
  ∀ z h, v = Some z → hist m !! l = Some h → ∃ x, h !! t = Some x ∧ mval x = z.

(** The history of [l] is the same, unless it is gone. *)
Definition kept m m' (l : loc) : Prop := ∀ h, hist m' !! l = Some h → hist m !! l = Some h.

Lemma kept_same m m' l : hist m' !! l = hist m !! l → kept m m' l.
Proof. by intros Hl h <-. Qed.

Lemma kept_refl m l : kept m m l.
Proof. by intros h. Qed.

Lemma kept_add m l t x l' : l ≠ l' → kept m (add_msg l t x m) l'.
Proof. intros Hne. by apply kept_same, hist_add_other. Qed.

Lemma kept_free r m l : kept m (mfree r m) l.
Proof. intros h. simpl. rewrite map_lookup_filter_Some. by intros [? _]. Qed.

Lemma free_gone r m f : hist (mfree r m) !! Loc r f = None.
Proof. simpl. apply map_lookup_filter_None. right. by intros h _ Hne. Qed.

Lemma stored_sub m m' l t : kept m m' l → stored m' l t → stored m l t.
Proof. intros Hl (h & Hh & Ht). exists h. auto. Qed.

Lemma latest_sub m m' l t : kept m m' l → latest m l t → latest m' l t.
Proof. intros Hl Hc t' Ht. by eapply Hc, stored_sub. Qed.

Lemma loaded_sub m m' l t v : kept m m' l → loaded m l t v → loaded m' l t v.
Proof. intros Hl Hc z h Hz Hh. eapply Hc; auto. Qed.

Lemma stored_add l t x m l' t' :
  stored (add_msg l t x m) l' t' → l' = l ∧ t' = t ∨ stored m l' t'.
Proof.
  intros (h & Hh & Ht). simpl in Hh. destruct (decide (l = l')) as [<-|Hne].
  - rewrite lookup_insert_eq in Hh. injection Hh as <-. destruct (decide (t = t')) as [<-|Hne]; [by left|right].
    rewrite lookup_insert_ne in Ht by done. destruct (hist m !! l) as [h|] eqn:Heq; [by exists h|].
    simpl in Ht. rewrite lookup_empty in Ht. by destruct Ht.
  - rewrite lookup_insert_ne in Hh by done. right. by exists h.
Qed.

Lemma stored_add_other l t x m l' t' : l ≠ l' → stored (add_msg l t x m) l' t' → stored m l' t'.
Proof. intros Hne Hs. by destruct (stored_add _ _ _ _ _ _ Hs) as [[? _]|?]; [congruence|]. Qed.

Lemma loaded_add l t x m l' t' v h :
  hist m !! l = Some h → h !! t = None → loaded m l' t' v → loaded (add_msg l t x m) l' t' v.
Proof.
  intros Hh Ht Hl z h' Hz Hh'. simpl in Hh'. destruct (decide (l = l')) as [<-|Hne].
  - rewrite lookup_insert_eq, Hh in Hh'. injection Hh' as <-. destruct (Hl z h Hz Hh) as (y & Hy & Hv).
    exists y. split; [|done]. rewrite lookup_insert_ne; [done|]. intros <-. simpl in Hy. congruence.
  - rewrite lookup_insert_ne in Hh' by done. eauto.
Qed.
End histories.

(** Changes that leave the histories alone. *)
#[export] Hint Extern 0 (kept _ _ _) => exact (kept_refl _ _) : core.
