(* ===== verification/Machine.v ===== *)
(** Concurrent executions: a pool of threads, each owning one handle, over the
    weak memory of [Memory]. A schedule is a list of choices (start a call on
    a handle, or let a thread take one step, reading the store the choice
    names); running a schedule is executable, and quantifying over schedules
    is quantifying over all interleavings, all stale reads and all spurious
    failures. *)
From S2P Require Import Prelude Usize Atomic Seq Memory.
Local Open Scope Z_scope.

Section machine.
(** Payload, handle, call and observation types of the clients. *)
Context {T H C O : Type}.

(** What a call leaves: the handle if it is still owned, new handles, each
    given to a thread of its own, and what the caller observes. *)
Definition reply : Type := option H * list H * O.

Variable start : C → H → prog T reply.

Inductive status :=
  | Ready (h : H)
  | Running (c : C) (p : prog T reply)
  | Exited
  | Panicking
  (** A bounded unfolding of a loop ran out: the thread is never scheduled again. *)
  | Stalled (c : C).

Record thread := Thread { tvw : tview; stat : status; trace : list (C * O) }.

(** The call a thread is in. *)
Definition busy (th : thread) : option C :=
  match stat th with Running c _ | Stalled c => Some c | _ => None end.

Record config := Config { cmem : mem T; pool : list thread }.

Inductive choice :=
  | Call (i : tid) (c : C)
  | Step (i : tid) (t : nat) (b : bool).

Definition set_stat (th : thread) (s : status) : thread :=
  {| tvw := tvw th; stat := s; trace := trace th |}.

(** The thread after a call returned. *)
Definition returned (th : thread) (c : C) (keep : option H) (o : O) : thread :=
  {| tvw := tvw th; stat := default Exited (Ready <$> keep); trace := trace th ++ [(c, o)] |}.

(** A new thread starts with what its parent has observed. *)
Definition spawned (th : thread) (h : H) : thread :=
  {| tvw := tvw th; stat := Ready h; trace := [] |}.

Definition act (a : choice) (g : config) : res config :=
  match a with
  | Call i c =>
      match pool g !! i with
      | Some th =>
          match stat th with
          | Ready h => Next (Config (cmem g) (<[i := set_stat th (Running c (start c h))]> (pool g)))
          | _ => Infeasible
          end
      | None => Infeasible
      end
  | Step i t b =>
      match pool g !! i with
      | Some th =>
          match stat th with
          | Running c (Ret (keep, new, o)) =>
              Next (Config (cmem g)
                (<[i := returned th c keep o]> (pool g) ++ (spawned th <$> new)))
          | Running _ Panicked =>
              Next (Config (cmem g) (<[i := set_stat th Panicking]> (pool g)))
          | Running c OutOfFuel =>
              Next (Config (cmem g) (<[i := set_stat th (Stalled c)]> (pool g)))
          | Running c p =>
              match step i p (tvw th) (cmem g) t b with
              | Next (p, V, m) =>
                  Next (Config m (<[i := {| tvw := V; stat := Running c p;
                                            trace := trace th |}]> (pool g)))
              | Infeasible => Infeasible
              | Fault x => Fault x
              end
          | _ => Infeasible
          end
      | None => Infeasible
      end
  end.

(** Run a schedule; choices that are not available are skipped. *)
Fixpoint exec (s : list choice) (g : config) : fault + config :=
  match s with
  | [] => inr g
  | a :: s =>
      match act a g with
      | Next g => exec s g
      | Infeasible => exec s g
      | Fault x => inl x
      end
  end.

(** How many calls a schedule starts. *)
Definition is_call (a : choice) : bool := match a with Call _ _ => true | _ => false end.
Definition calls (s : list choice) : Z := Z.of_nat (length (filter (λ a, is_call a = true) s)).

Lemma exec_app s1 s2 g :
  exec (s1 ++ s2) g = match exec s1 g with inr g => exec s2 g | inl x => inl x end.
Proof.
  revert g. induction s1 as [|a s1 IH]; intros g; simpl; [done|].
  by destruct (act a g); rewrite ?IH.
Qed.
End machine.

Arguments reply : clear implicits.
Arguments status : clear implicits.
Arguments thread : clear implicits.
Arguments config : clear implicits.
Arguments choice : clear implicits.

(** Whether a thread's handle is gone, and whether it is between calls. *)
Definition exited {T H C O} (th : thread T H C O) : bool :=
  match stat th with Exited => true | _ => false end.
Lemma exited_stat {T H C O} (th : thread T H C O) : exited th = true → stat th = Exited.
Proof. unfold exited. by destruct (stat th). Qed.

Definition at_rest {T H C O} (th : thread T H C O) : bool :=
  match busy th with None => true | _ => false end.
Lemma at_rest_busy {T H C O} (th : thread T H C O) : at_rest th = true → busy th = None.
Proof. unfold at_rest. by destruct (busy th). Qed.

(** The thread is blocked in [park()] and nobody has left it a token. *)
Definition asleep {T H C O} (i : tid) (th : thread T H C O) (m : mem T) : bool :=
  match stat th with
  | Running _ (ParkThread _) => bool_decide (mtokens m !! i = None)
  | _ => false
  end.

(** No view, no store. *)
Definition fresh_view : tview := MkTView ∅ ∅ ∅.

(** A thread alone, reading the newest stores: how the main thread sets a
    channel up before it hands the handles out. *)
Definition newest (l : loc) {T} (m : mem T) : nat :=
  default 0%nat (foldr Nat.max 0%nat ∘ elements ∘ dom <$> hist m !! l).

Definition store_at {T} (l : loc) (m : mem T) : nat := S (newest l m).

(** The timestamp a lone thread picks for its next action. *)
Definition lone_pick {T A} (p : prog T A) (m : mem T) : nat :=
  match p with
  | Load l _ _ | Rmw l _ _ _ | CasWeak l _ _ _ _ _ => newest l m
  | Store l _ _ _ => store_at l m
  | _ => 0%nat
  end.

Fixpoint lone_run {T A} (fuel : nat) (i : tid) (p : prog T A) (V : tview) (m : mem T) :
    option (A * tview * mem T) :=
  match p, fuel with
  | Ret a, _ => Some (a, V, m)
  | _, O => None
  | p, S fuel =>
      match step i p V m (lone_pick p m) false with
      | Next (p, V, m) => lone_run fuel i p V m
      | _ => None
      end
  end.

(** The threads [ts] in rotation, one step each, reading the newest stores,
    until their calls are over. *)
Fixpoint rotate {T H C O} (start : C → H → prog T (reply H O)) (fuel : nat) (ts : list tid)
    (g : config T H C O) : list (choice C) :=
  match fuel, ts with
  | S fuel, i :: ts =>
      match pool g !! i with
      | Some {| stat := Running _ p |} =>
          let a := Step i (lone_pick p (cmem g)) false in
          match act start a g with
          | Next g => a :: rotate start fuel (ts ++ [i]) g
          | _ => []
          end
      | _ => rotate start fuel ts g
      end
  | _, _ => []
  end.

(** Calls that overlap: all are started, then their threads take turns. *)
Definition overlap {T H C O} (start : C → H → prog T (reply H O)) (cs : list (tid * C))
    (g : config T H C O) : list (choice C) :=
  let s := (λ p, Call p.1 p.2) <$> cs in
  match exec start s g with
  | inr g => s ++ rotate start 200 (fst <$> cs) g
  | inl _ => []
  end.

(** Several rounds of overlapping calls: concrete schedules for witnesses. *)
Fixpoint rounds {T H C O} (start : C → H → prog T (reply H O)) (css : list (list (tid * C)))
    (g : config T H C O) : list (choice C) :=
  match css with
  | [] => []
  | cs :: css =>
      let s := overlap start cs g in
      s ++ match exec start s g with inr g => rounds start css g | inl _ => [] end
  end.
