(* ===== verification/Logic.v ===== *)
(** A program logic for the weak-memory machine. Every thread has a private
    ghost state; a global invariant ties the ghost states, the views and the
    call traces of all threads to the memory. [wp] says that a program never
    faults and keeps the invariant whatever the other threads do in between;
    adequacy turns one [wp] per call into a statement about every schedule. *)
From S2P Require Import Prelude Usize Atomic Seq Memory Machine.
Local Open Scope Z_scope.

(** What the invariant knows of a thread: ghost state, views, finished calls
    and the call in progress. *)
Record ent (G C O : Type) := Ent {
  eg : G;
  ev : tview;
  etr : list (C * O);
  ecur : option C;
}.
Arguments Ent {G C O}.
Arguments eg {G C O}.
Arguments ev {G C O}.
Arguments etr {G C O}.
Arguments ecur {G C O}.

(** How many calls a thread, and all threads, have started. *)
Definition weight {G C O} (e : ent G C O) : Z :=
  Z.of_nat (length (etr e)) + (if ecur e is Some _ then 1 else 0).
Definition calls_in {G C O} (Γ : list (ent G C O)) : Z := foldr (λ e n, weight e + n) 0 Γ.

Section counting.
Context {G C O : Type}.
Implicit Types (Γ : list (ent G C O)) (e : ent G C O).

Lemma weight_nonneg e : 0 ≤ weight e.
Proof. unfold weight. destruct (ecur e); lia. Qed.

Lemma calls_in_app Γ Γ' : calls_in (Γ ++ Γ') = calls_in Γ + calls_in Γ'.
Proof. induction Γ; simpl; lia. Qed.

Lemma calls_in_insert Γ i e e' :
  Γ !! i = Some e → calls_in (<[i := e']> Γ) = calls_in Γ - weight e + weight e'.
Proof.
  revert i. induction Γ as [|e0 Γ IH]; intros i Hi; [done|].
  destruct i as [|i]; simpl in *; [simplify_eq; lia|]. rewrite (IH i) by done. lia.
Qed.

Lemma calls_in_nonneg Γ : 0 ≤ calls_in Γ.
Proof. induction Γ as [|e Γ IH]; simpl; [done|]. pose proof (weight_nonneg e). lia. Qed.

Lemma weight_le Γ i e : Γ !! i = Some e → weight e ≤ calls_in Γ.
Proof.
  revert i. induction Γ as [|e0 Γ IH]; intros i Hi; [done|].
  pose proof (calls_in_nonneg Γ). pose proof (weight_nonneg e0).
  destruct i as [|i]; simpl in *; [simplify_eq; lia|]. specialize (IH i Hi). lia.
Qed.

(** How many calls have returned. *)
Definition returns_in Γ : Z := foldr (λ e n, Z.of_nat (length (etr e)) + n) 0 Γ.

Lemma returns_in_app Γ Γ' : returns_in (Γ ++ Γ') = returns_in Γ + returns_in Γ'.
Proof. induction Γ; simpl; lia. Qed.

Lemma returns_in_insert Γ i e e' :
  Γ !! i = Some e →
  returns_in (<[i := e']> Γ) = returns_in Γ - Z.of_nat (length (etr e)) + Z.of_nat (length (etr e')).
Proof.
  revert i. induction Γ as [|e0 Γ IH]; intros i Hi; [done|].
  destruct i as [|i]; simpl in *; [simplify_eq; lia|]. rewrite (IH i) by done. lia.
Qed.

Lemma returns_in_le Γ : returns_in Γ ≤ calls_in Γ.
Proof. induction Γ as [|e Γ IH]; simpl; [done|]. unfold weight. destruct (ecur e); lia. Qed.

Lemma calls_in_idle Γ : Forall (λ e, etr e = [] ∧ ecur e = None) Γ → calls_in Γ = 0.
Proof. induction 1 as [|e Γ [H1 H2] _ IH]; simpl; [done|]. unfold weight. rewrite H1, H2, IH. done. Qed.
End counting.

Section wp.
Context {T C O G : Type}.
Variable Inv : list (ent G C O) → mem T → Prop.

(** [wp i tr c Q p V g]: thread [i], in the middle of call [c] after the
    calls [tr], with views [V] and ghost state [g], can run [p] safely and
    reaches results satisfying [Q]. [R] bounds the steps that follow. *)
Inductive wp (i : tid) (tr : list (C * O)) (c : C) {A} (Q : A → tview → G → Prop) :
    prog T A → tview → G → Prop :=
  | wp_ret a V g : Q a V g → wp i tr c Q (Ret a) V g
  | wp_fuel V g : wp i tr c Q OutOfFuel V g
  | wp_step p V g (R : prog T A → tview → G → Prop) :
      p ≠ Panicked →
      (∀ a, p ≠ Ret a) →
      (∀ Γ m, Inv Γ m → Γ !! i = Some (Ent g V tr (Some c)) → ∀ t b,
         (∀ x, step i p V m t b ≠ Fault x) ∧
         (∀ p' V' m', step i p V m t b = Next (p', V', m') →
            ∃ g', Inv (<[i := Ent g' V' tr (Some c)]> Γ) m' ∧ R p' V' g')) →
      (∀ p' V' g', R p' V' g' → wp i tr c Q p' V' g') →
      wp i tr c Q p V g.

Section rules.
Context (i : tid) (tr : list (C * O)) (c : C).

Lemma wp_mono {A} (Q Q' : A → tview → G → Prop) p V g :
  (∀ a V g, Q a V g → Q' a V g) → wp i tr c Q p V g → wp i tr c Q' p V g.
Proof.
  intros HQ. induction 1 as [a V g Ha|V g|p V g R Hnp Hnr Hstep _ IH].
  - by apply wp_ret, HQ.
  - apply wp_fuel.
  - by apply (wp_step _ _ _ _ _ _ _ R).
Qed.

(** A step whose continuations are safe. *)
Lemma wp_act {A} (Q : A → tview → G → Prop) p V g :
  p ≠ Panicked → (∀ a, p ≠ Ret a) →
  (∀ Γ m, Inv Γ m → Γ !! i = Some (Ent g V tr (Some c)) → ∀ t b,
     (∀ x, step i p V m t b ≠ Fault x) ∧
     (∀ p' V' m', step i p V m t b = Next (p', V', m') →
        ∃ g', Inv (<[i := Ent g' V' tr (Some c)]> Γ) m' ∧ wp i tr c Q p' V' g')) →
  wp i tr c Q p V g.
Proof. intros. by apply (wp_step _ _ _ _ _ _ _ (wp i tr c Q)). Qed.

Lemma wp_bind {A B} (f : A → prog T B) (Q : B → tview → G → Prop) p V g :
  wp i tr c (λ a V g, wp i tr c Q (f a) V g) p V g → wp i tr c Q (p ≫= f) V g.
Proof.
  induction 1 as [a V g Ha|V g|p V g R Hnp Hnr Hstep _ IH].
  - exact Ha.
  - apply wp_fuel.
  - apply (wp_step _ _ _ _ _ _ _
      (λ p' V' g', ∃ p'', p' = p'' ≫= f ∧ R p'' V' g')).
    + destruct p; try done. by destruct (Hnr a).
    + intros b. destruct p; try done. by destruct (Hnr a).
    + intros Γ m HI Hi t b. destruct (Hstep Γ m HI Hi t b) as [Hf Hn].
      unfold mbind, prog_bind. rewrite step_bind by done. split.
      * intros x. destruct (step i p V m t b) as [[[??]?]| |]; [done..|].
        intros [= ->]. by eapply Hf.
      * intros p' V' m' Heq. destruct (step i p V m t b) as [[[p1 V1] m1]| |]; simplify_eq.
        destruct (Hn _ _ _ eq_refl) as (g' & ? & ?). eauto.
    + intros p' V' g' (p'' & -> & HR). by apply IH.
Qed.

Lemma wp_ret_inv {A} (Q : A → tview → G → Prop) a V g :
  wp i tr c Q (Ret a) V g → Q a V g.
Proof.
  intros Hwp. inversion Hwp as [? ? ? Ha| |p V' g' R _ Hnr]; subst; [done|].
  by destruct (Hnr a).
Qed.

(** A program that can run safely is not about to panic. *)
Lemma wp_panicked {A} (Q : A → tview → G → Prop) V g : ¬ wp i tr c Q Panicked V g.
Proof. intros Hwp. by inversion Hwp. Qed.

Lemma wp_mret {A} (Q : A → tview → G → Prop) a V g :
  Q a V g → wp i tr c Q (mret a) V g.
Proof. apply wp_ret. Qed.
End rules.
End wp.

Arguments wp {T C O G} Inv i tr c {A} Q.

(** ** Safety whatever the views *)

Section safe.
Context {T C O G : Type} (Inv : list (ent G C O) → mem T → Prop).
Context (i : tid) (tr : list (C * O)) (c : C).

(** [safe p g Q]: in the middle of call [c], thread [i] can run [p] from ghost
    state [g] and ends as [Q] says, whatever its views. *)
Definition safe {A} (p : prog T A) (g : G) (Q : A → G → Prop) : Prop :=
  ∀ V, wp Inv i tr c (λ a _ g, Q a g) p V g.

Lemma safe_ret {A} (Q : A → G → Prop) a g : Q a g → safe (mret a) g Q.
Proof using Type. intros HQ V. by apply wp_mret. Qed.

Lemma safe_fuel {A} (Q : A → G → Prop) g : safe OutOfFuel g Q.
Proof using Type. intros V. apply wp_fuel. Qed.

Lemma safe_mono {A} (Q Q' : A → G → Prop) p g :
  safe p g Q → (∀ a g, Q a g → Q' a g) → safe p g Q'.
Proof using Type. intros Hp HQ V. eapply wp_mono; [|apply Hp]. auto. Qed.

Lemma safe_bind {A B} (p : prog T A) (f : A → prog T B) g Q :
  safe p g (λ a g', safe (f a) g' Q) → safe (p ≫= f) g Q.
Proof using Type. intros Hp V. apply wp_bind. eapply wp_mono; [|apply Hp]. intros a V' g' Hf. apply Hf. Qed.

(** Checked arithmetic that succeeds. *)
Lemma safe_arith o z g (Q : Z → G → Prop) : o = Some z → Q z g → safe (arith o) g Q.
Proof using Type. intros -> HQ. by apply safe_ret. Qed.

(** One action. *)
Lemma safe_step {A} (p : prog T A) g Q :
  p ≠ Panicked → (∀ a, p ≠ Ret a) →
  (∀ Γ m V, Inv Γ m → Γ !! i = Some (Ent g V tr (Some c)) → ∀ t b,
     (∀ x, step i p V m t b ≠ Fault x) ∧
     (∀ p' V' m', step i p V m t b = Next (p', V', m') →
        ∃ g', Inv (<[i := Ent g' V' tr (Some c)]> Γ) m' ∧ safe p' g' Q)) →
  safe p g Q.
Proof using Type.
  intros Hnp Hnr Hstep V. apply wp_act; [done|done|].
  intros Γ m HI Hi t b. destruct (Hstep Γ m V HI Hi t b) as [Hf Hn]. split; [done|].
  intros p' V' m' Heq. destruct (Hn _ _ _ Heq) as (g' & HI' & Hs). eauto.
Qed.
End safe.

(** ** Adequacy *)

Section adequacy.
Context {T H C O G : Type} (start : C → H → prog T (reply H O)).
Variable Inv : list (ent G C O) → mem T → Prop.
(** An idle thread's handle agrees with its ghost state. *)
Variable ready_ok : tid → H → tview → G → list (C * O) → Prop.
(** What is known of a thread whose handle is gone. *)
Variable gone_ok : tid → G → Prop.
(** What a call leaves. *)
Variable post : tid → list (C * O) → C → reply H O → tview → G → Prop.
(** All threads together make at most [limit] calls. *)
Variable limit : Z.

Hypothesis Hstart : ∀ Γ m i g V tr h c,
  Inv Γ m → Γ !! i = Some (Ent g V tr None) → ready_ok i h V g tr →
  calls_in Γ < limit →
  Inv (<[i := Ent g V tr (Some c)]> Γ) m ∧ wp Inv i tr c (post i tr c) (start c h) V g.

Hypothesis Hfinish : ∀ Γ m i g V tr c keep new o,
  Inv Γ m → Γ !! i = Some (Ent g V tr (Some c)) → post i tr c (keep, new, o) V g →
  ∃ g' gs,
    Inv (<[i := Ent g' V (tr ++ [(c, o)]) None]> Γ ++ ((λ g, Ent g V [] None) <$> gs)) m ∧
    (∀ h, keep = Some h → ready_ok i h V g' (tr ++ [(c, o)])) ∧
    (keep = None → gone_ok i g') ∧
    length gs = length new ∧
    (∀ j h g, new !! j = Some h → gs !! j = Some g → ready_ok (length Γ + j) h V g []).

(** What the logic knows of a thread. *)
Definition thread_ok (i : tid) (th : thread T H C O) (e : ent G C O) : Prop :=
  ev e = tvw th ∧ etr e = trace th ∧
  match stat th with
  | Ready h => ecur e = None ∧ ready_ok i h (ev e) (eg e) (etr e)
  | Running c p => ecur e = Some c ∧ wp Inv i (etr e) c (post i (etr e) c) p (ev e) (eg e)
  | Exited => ecur e = None ∧ gone_ok i (eg e)
  | Panicking => False
  | Stalled c => ecur e = Some c
  end.

Record conf_ok (Γ : list (ent G C O)) (g : config T H C O) : Prop := {
  co_inv : Inv Γ (cmem g);
  co_len : length Γ = length (pool g);
  co_threads i th e : pool g !! i = Some th → Γ !! i = Some e → thread_ok i th e;
}.

(** Replacing one thread and its entry. *)
Lemma conf_update Γ g i th th' e' m :
  conf_ok Γ g → pool g !! i = Some th → Inv (<[i := e']> Γ) m → thread_ok i th' e' →
  conf_ok (<[i := e']> Γ) (Config m (<[i := th']> (pool g))).
Proof using Type.
  intros [HI Hlen Hth] Hi HI' Hok. split; simpl; [done| |].
  - by rewrite !length_insert.
  - intros j th2 e2 Hj He. pose proof (lookup_lt_Some _ _ _ Hi). destruct (decide (i = j)) as [<-|Hne].
    + rewrite list_lookup_insert_eq in Hj by lia. rewrite list_lookup_insert_eq in He by lia. by simplify_eq.
    + rewrite list_lookup_insert_ne in Hj by done. rewrite list_lookup_insert_ne in He by done. eauto.
Qed.

(** The entry of a thread that is in a call. *)
Lemma running_entry Γ g i th c p :
  conf_ok Γ g → pool g !! i = Some th → stat th = Running c p →
  ∃ G0, Γ !! i = Some (Ent G0 (tvw th) (trace th) (Some c)) ∧
    wp Inv i (trace th) c (post i (trace th) c) p (tvw th) G0.
Proof using Type.
  intros Hok Hi Hs. destruct (lookup_lt_is_Some_2 Γ i) as [e He].
  { rewrite (co_len _ _ Hok). by eapply lookup_lt_Some. }
  pose proof (co_threads _ _ Hok i th e Hi He) as Hth. unfold thread_ok in Hth.
  rewrite Hs in Hth. destruct e as [eg0 V tr cur], Hth as (HV & Htr & Hcur & Hwp); simpl in *.
  subst V tr cur. by exists eg0.
Qed.

Lemma call_ok Γ g i c n :
  conf_ok Γ g → calls_in Γ ≤ n → n + 1 ≤ limit →
  match act start (Call i c) g with
  | Next g' => ∃ Γ', conf_ok Γ' g' ∧ calls_in Γ' ≤ n + 1
  | Infeasible => True
  | Fault _ => False
  end.
Proof using Hstart.
  intros Hok Hw Hn. simpl. destruct (pool g !! i) as [th|] eqn:Hi; [|done].
  destruct (stat th) as [h| | | |] eqn:Hs; try done.
  destruct (lookup_lt_is_Some_2 Γ i) as [e He].
  { rewrite (co_len _ _ Hok). by eapply lookup_lt_Some. }
  pose proof (co_threads _ _ Hok i th e Hi He) as Hth. unfold thread_ok in Hth.
  rewrite Hs in Hth. destruct e as [eg0 V tr cur], Hth as (HV & Htr & Hcur & Hready); simpl in *.
  subst V tr cur.
  destruct (Hstart Γ (cmem g) i eg0 (tvw th) (trace th) h c) as [HI Hwp];
    [apply Hok|done|done|lia|].
  eexists. split; [eapply conf_update; [done|done|exact HI|]; by split_and!|].
  rewrite (calls_in_insert _ _ _ _ He). unfold weight. simpl. lia.
Qed.

Lemma return_ok Γ g i n th c keep new o :
  conf_ok Γ g → calls_in Γ ≤ n → pool g !! i = Some th →
  stat th = Running c (Ret (keep, new, o)) →
  ∃ Γ', conf_ok Γ' (Config (cmem g) (<[i := returned th c keep o]> (pool g) ++
                                       (spawned th <$> new))) ∧ calls_in Γ' ≤ n.
Proof using Hfinish.
  intros Hok Hw Hi Hs. destruct (running_entry Γ g i th c _ Hok Hi Hs) as (eg0 & He & Hwp).
  assert (post i (trace th) c (keep, new, o) (tvw th) eg0) as Hpost
    by (by eapply wp_ret_inv).
  destruct (Hfinish Γ (cmem g) i eg0 (tvw th) (trace th) c keep new o (co_inv _ _ Hok) He Hpost)
    as (g' & gs & HI & Hkeep & Hgone & Hgs & Hnew).
  pose proof (lookup_lt_Some _ _ _ He) as Hlt. pose proof (co_len _ _ Hok) as Hlen.
  eexists. split.
  - split; simpl; [exact HI| |].
    + rewrite !length_app, !length_insert, !length_fmap. lia.
    + intros j th2 e2 [Hj|[Hge Hj]]%lookup_app_Some Hje.
      * pose proof (lookup_lt_Some _ _ _ Hj) as Hjl. rewrite length_insert in Hjl.
        rewrite lookup_app_l in Hje by (rewrite length_insert; lia).
        destruct (decide (i = j)) as [<-|Hne].
        -- rewrite list_lookup_insert_eq in Hj by lia. rewrite list_lookup_insert_eq in Hje by lia. simplify_eq.
           unfold thread_ok. simpl. split_and!; try done. destruct keep as [h|]; simpl; auto.
        -- rewrite list_lookup_insert_ne in Hj by done. rewrite list_lookup_insert_ne in Hje by done. by eapply (co_threads _ _ Hok).
      * rewrite length_insert in Hge, Hj.
        rewrite lookup_app_r in Hje by (rewrite length_insert; lia).
        rewrite length_insert in Hje. rewrite list_lookup_fmap in Hje.
        destruct (gs !! _) as [g2|] eqn:Hg2; simplify_eq/=.
        rewrite list_lookup_fmap in Hj. destruct (new !! _) as [h|] eqn:Hh; simplify_eq/=.
        unfold thread_ok. simpl. split_and!; try done. rewrite Hlen in Hg2.
        replace j with (length Γ + (j - length (pool g)))%nat by lia. by eapply Hnew.
  - rewrite calls_in_app, (calls_in_insert _ _ _ _ He), (calls_in_idle (_ <$> gs)) by (by apply Forall_fmap, Forall_true).
    unfold weight. simpl. rewrite length_app. simpl. lia.
Qed.

(** The steps of a running program are the machine's. *)
Lemma step_ok Γ g i n th c p t b :
  conf_ok Γ g → calls_in Γ ≤ n → pool g !! i = Some th → stat th = Running c p →
  (∀ a, p ≠ Ret a) → p ≠ OutOfFuel →
  match step i p (tvw th) (cmem g) t b with
  | Next (p', V', m') =>
      ∃ Γ', conf_ok Γ' (Config m' (<[i := {| tvw := V'; stat := Running c p';
                                            trace := trace th |}]> (pool g))) ∧ calls_in Γ' ≤ n
  | Infeasible => True
  | Fault _ => False
  end.
Proof using Type.
  intros Hok Hw Hi Hs Hnr Hnf. destruct (running_entry Γ g i th c p Hok Hi Hs) as (eg0 & He & Hwp).
  inversion Hwp as [? ? ? Ha|V2 g2|p2 V' g' R _ _ Hstep HR]; subst; [by destruct (Hnr a)|done|].
  destruct (Hstep Γ (cmem g) (co_inv _ _ Hok) He t b) as [Hnofault Hnext].
  destruct (step i p (tvw th) (cmem g) t b) as [[[p' V'] m']| |x]; [|done|by eapply Hnofault].
  destruct (Hnext _ _ _ eq_refl) as (g'' & HI & HR'). eexists. split.
  - eapply conf_update; [done|done|exact HI|]. split_and!; try done. simpl. auto.
  - rewrite (calls_in_insert _ _ _ _ He). unfold weight in *. simpl. lia.
Qed.

Lemma conf_act Γ g a n :
  conf_ok Γ g → calls_in Γ ≤ n → n + Z.b2z (is_call a) ≤ limit →
  match act start a g with
  | Next g' => ∃ Γ', conf_ok Γ' g' ∧ calls_in Γ' ≤ n + Z.b2z (is_call a)
  | Infeasible => True
  | Fault _ => False
  end.
Proof using Hstart Hfinish.
  intros Hok Hw Hn. destruct a as [i c|i t b]; [by eapply call_ok|].
  simpl. rewrite Z.add_0_r. destruct (pool g !! i) as [th|] eqn:Hi; [|done].
  destruct (stat th) as [h|c p| | |] eqn:Hs; try done.
  assert (Hother : (∀ a, p ≠ Ret a) → p ≠ OutOfFuel →
    match (match step i p (tvw th) (cmem g) t b with
           | Next (p', V, m) =>
               Next (Config m (<[i := {| tvw := V; stat := Running c p';
                                         trace := trace th |}]> (pool g)))
           | Infeasible => Infeasible
           | Fault x => Fault x
           end) with
    | Next g' => ∃ Γ', conf_ok Γ' g' ∧ calls_in Γ' ≤ n
    | Infeasible => True
    | Fault _ => False
    end).
  { intros Hnr Hnf. pose proof (step_ok Γ g i n th c p t b Hok Hw Hi Hs Hnr Hnf) as Hstep.
    by destruct (step i p (tvw th) (cmem g) t b) as [[[p' V'] m']| |x]. }
  destruct (running_entry Γ g i th c p Hok Hi Hs) as (eg0 & He & Hwp).
  destruct p as [[[keep new] o]| | | | | | | | | | | | | | | | | | |];
    try (by apply Hother).
  - by eapply return_ok.
  - (* a panic *) by apply wp_panicked in Hwp.
  - (* out of fuel: the thread stops *)
    exists (<[i := Ent eg0 (tvw th) (trace th) (Some c)]> Γ). rewrite list_insert_id by done. split; [|done].
    rewrite <-(list_insert_id _ _ _ He) at 1. eapply conf_update; [done|done| |].
    + rewrite list_insert_id by done. apply Hok.
    + by split_and!.
Qed.

Lemma calls_cons (a : choice C) s : calls (a :: s) = Z.b2z (is_call a) + calls s.
Proof using Type. unfold calls. rewrite filter_cons. destruct (is_call a); simpl; lia. Qed.

(** Every schedule of at most [limit] calls runs without a fault or a panic,
    and ends in a configuration in which the invariant holds. *)
Theorem adequacy Γ g n s :
  conf_ok Γ g → calls_in Γ ≤ n → n + calls s ≤ limit →
  ∃ Γ' g', exec start s g = inr g' ∧ conf_ok Γ' g'.
Proof using Hstart Hfinish.
  revert Γ g n. induction s as [|a s IH]; intros Γ g n Hok Hw Hn; [by eexists _, _|].
  rewrite calls_cons in Hn. assert (0 ≤ calls s) by (unfold calls; lia).
  pose proof (conf_act Γ g a n Hok Hw ltac:(lia)) as Hact. simpl.
  destruct (act start a g) as [g'| |x]; [| |done].
  - destruct Hact as (Γ' & Hok' & Hw'). apply (IH Γ' g' (n + Z.b2z (is_call a))); [done|done|lia].
  - apply (IH Γ g n); [done|done|]. destruct (is_call a); simpl in *; lia.
Qed.
End adequacy.
