(* ===== verification/Parking.v ===== *)
(** Rules of the logic for the actions no ring protocol depends on: the parked
    and waiting flags, the registration mutexes, park tokens, timing hints and
    fences; and, from them, the operations of [src/notify.rs] and the idle
    ladder of [src/wait.rs]. A protocol that is [Oblivious] to such actions
    gets all the rules. *)
From S2P Require Import Prelude Usize Atomic Wait Notify Seq Memory Machine Logic.
Local Open Scope Z_scope.

(** The memory is the same but for the flags of ring [r] and what is not
    shared state at all. *)
Record noise {T} (r : nat) (flags : list field) (m m' : mem T) : Prop := {
  no_hist l : (∀ f, f ∈ flags → l ≠ Loc r f) → hist m' !! l = hist m !! l;
  no_flag f : is_Some (hist m !! Loc r f) → is_Some (hist m' !! Loc r f);
  no_cells : mcells m' = mcells m;
  no_dropped : mdropped m' = mdropped m;
}.

(** What an invariant promises: the [flags] of ring [r] are there for a thread
    that is not [quiet]ly gone, and such a thread may observe and flag. *)
Class Oblivious {T C O G} (Inv : list (ent G C O) → mem T → Prop)
    (r : nat) (flags : list field) (quiet : G → Prop) : Prop := {
  ob_flag Γ m i g V tr c f :
    Inv Γ m → Γ !! i = Some (Ent g V tr (Some c)) → quiet g → f ∈ flags →
    is_Some (hist m !! Loc r f);
  ob_noise Γ m i g V tr c V' m' :
    Inv Γ m → Γ !! i = Some (Ent g V tr (Some c)) → quiet g →
    vle (cur V) (cur V') → vle (acq V) (acq V') → noise r flags m m' →
    Inv (<[i := Ent g V' tr (Some c)]> Γ) m';
}.

Lemma noise_refl {T} r flags (m : mem T) : noise r flags m m.
Proof. by split. Qed.

Lemma noise_flag {T} r flags f t x (m : mem T) h :
  f ∈ flags → hist m !! Loc r f = Some h → noise r flags m (add_msg (Loc r f) t x m).
Proof.
  intros Hf Hh. split; try done.
  - intros l Hl. apply hist_add_other. by apply not_eq_sym, Hl.
  - intros f'. destruct (decide (f' = f)) as [->|Hne].
    + intros _. erewrite hist_add_same by done. by eexists.
    + rewrite hist_add_other; [done|]. by intros [= ->].
Qed.

Lemma fence_view_grows o V G :
  vle (cur V) (cur (fence_view o V G).1) ∧ vle (acq V) (acq (fence_view o V G).1).
Proof.
  destruct o; simpl; try done; try (by split; [apply vle_join_l|]).
  split; [|done]. etrans; apply vle_join_l.
Qed.

Definition ladder_ok (ladder : Idle) : Prop := 0 ≤ park_for ladder ≤ PARK_MAX.

Lemma for_strategy_ok strat : ladder_ok (for_strategy strat).
Proof. unfold ladder_ok. simpl. unfold PARK_MIN, PARK_MAX, from_micros, from_millis. lia. Qed.

Section parking.
Context `{tgt : Target} {T C O G : Type} {Inv : list (ent G C O) → mem T → Prop}.
Context {r : nat} {flags : list field} {quiet : G → Prop}.
Context (Hob : Oblivious Inv r flags quiet).
Context {i : tid} {tr : list (C * O)} {c : C}.
Abbreviation safe := (safe Inv i tr c).
Implicit Types (g : G).

Lemma safe_noise {A} (p : prog T A) g Q :
  p ≠ Panicked → (∀ a, p ≠ Ret a) → quiet g →
  (∀ Γ m V, Inv Γ m → Γ !! i = Some (Ent g V tr (Some c)) → ∀ t b,
     (∀ x, Memory.step i p V m t b ≠ Fault x) ∧
     (∀ p' V' m', Memory.step i p V m t b = Next (p', V', m') →
        vle (cur V) (cur V') ∧ vle (acq V) (acq V') ∧ noise r flags m m' ∧ safe p' g Q)) →
  safe p g Q.
Proof using Hob.
  intros Hnp Hnr Hg Hstep. apply safe_step; [done..|]. intros Γ m V HI Hi t b.
  destruct (Hstep Γ m V HI Hi t b) as [Hf Hn]. split; [done|].
  intros p' V' m' Heq. destruct (Hn _ _ _ Heq) as (H1 & H2 & H3 & H4). exists g.
  split; [|done]. by eapply ob_noise.
Qed.

(** ** The primitives *)

Lemma safe_load_flag f g (Q : bool → G → Prop) :
  f ∈ flags → quiet g → (∀ b, Q b g) → safe (load_bool (Loc r f) Relaxed) g Q.
Proof using Hob.
  intros Hf Hg HQ. apply safe_noise; [done..|]. intros Γ m V HI Hi t b.
  destruct (ob_flag (Oblivious := Hob) _ _ _ _ _ _ _ _ HI Hi Hg Hf) as [h Hh]. unfold load_bool. simpl. rewrite Hh.
  destruct (h !! t) as [x|]; [|done]. case_match; [|done]. split; [done|].
  intros p' V' m' [= <- <- <-]. split_and!; [apply read_view_grows..|apply noise_refl|].
  by apply safe_ret.
Qed.

Lemma safe_store_flag f b g (Q : unit → G → Prop) :
  f ∈ flags → quiet g → Q tt g → safe (store_bool (Loc r f) b Relaxed) g Q.
Proof using Hob.
  intros Hf Hg HQ. apply safe_noise; [done..|]. intros Γ m V HI Hi t b'.
  destruct (ob_flag (Oblivious := Hob) _ _ _ _ _ _ _ _ HI Hi Hg Hf) as [h Hh]. unfold store_bool, store. simpl.
  rewrite Hh. destruct (h !! t) as [x|]; [done|]. case_match; [|done]. split; [done|].
  intros p' V' m' [= <- <- <-]. split_and!; [apply write_view_grows..| |by apply safe_ret].
  by eapply noise_flag.
Qed.

Lemma safe_swap_flag f b g (Q : bool → G → Prop) :
  f ∈ flags → quiet g → (∀ b, Q b g) → safe (swap_bool (Loc r f) b Relaxed) g Q.
Proof using Hob.
  intros Hf Hg HQ. apply safe_noise; [done..|]. intros Γ m V HI Hi t b'.
  destruct (ob_flag (Oblivious := Hob) _ _ _ _ _ _ _ _ HI Hi Hg Hf) as [h Hh]. unfold swap_bool. simpl.
  rewrite Hh. destruct (h !! t) as [x|]; [|done]. destruct (h !! S t); [done|].
  case_match; [|done]. split; [done|]. intros p' V' m' [= <- <- <-].
  set (V1 := read_view (Loc r f) t Relaxed x V).
  destruct (read_view_grows (Loc r f) t Relaxed x V), (write_view_grows (Loc r f) (S t) V1).
  split_and!; [by etrans..|by eapply noise_flag|by apply safe_ret].
Qed.

Lemma safe_set_slot s g (Q : unit → G → Prop) :
  Parked s ∈ flags → quiet g → Q tt g → safe (SetSlot (Loc r (ParkerSlot s)) (Ret tt)) g Q.
Proof using Hob.
  intros Hf Hg HQ. apply safe_noise; [done..|]. intros Γ m V HI Hi t b.
  destruct (ob_flag (Oblivious := Hob) _ _ _ _ _ _ _ _ HI Hi Hg Hf) as [h Hh].
  simpl. unfold in_block, beside. simpl. rewrite Hh. split; [done|].
  intros p' V' m' [= <- <- <-]. split_and!; [apply vle_join_l|done|by split|by apply safe_ret].
Qed.

Lemma safe_take_slot s g (Q : option tid → G → Prop) :
  Parked s ∈ flags → quiet g → (∀ o, Q o g) → safe (TakeSlot (Loc r (ParkerSlot s)) Ret) g Q.
Proof using Hob.
  intros Hf Hg HQ. apply safe_noise; [done..|]. intros Γ m V HI Hi t b.
  destruct (ob_flag (Oblivious := Hob) _ _ _ _ _ _ _ _ HI Hi Hg Hf) as [h Hh].
  simpl. unfold in_block, beside. simpl. rewrite Hh. split; [done|].
  intros p' V' m' [= <- <- <-]. split_and!; [apply vle_join_l|done|by split|by apply safe_ret].
Qed.

Lemma safe_push_waiter g (Q : unit → G → Prop) :
  Waiting ∈ flags → quiet g → Q tt g → safe (PushWaiter (Loc r WaiterQueue) (Ret tt)) g Q.
Proof using Hob.
  intros Hf Hg HQ. apply safe_noise; [done..|]. intros Γ m V HI Hi t b.
  destruct (ob_flag (Oblivious := Hob) _ _ _ _ _ _ _ _ HI Hi Hg Hf) as [h Hh].
  simpl. unfold in_block, beside. simpl. rewrite Hh. split; [done|].
  intros p' V' m' [= <- <- <-]. split_and!; [apply vle_join_l|done|by split|by apply safe_ret].
Qed.

Lemma safe_drain_waiters g (Q : list tid → G → Prop) :
  Waiting ∈ flags → quiet g → (∀ ts, Q ts g) → safe (DrainWaiters (Loc r WaiterQueue) Ret) g Q.
Proof using Hob.
  intros Hf Hg HQ. apply safe_noise; [done..|]. intros Γ m V HI Hi t b.
  destruct (ob_flag (Oblivious := Hob) _ _ _ _ _ _ _ _ HI Hi Hg Hf) as [h Hh].
  simpl. unfold in_block, beside. simpl. rewrite Hh. split; [done|].
  intros p' V' m' [= <- <- <-]. split_and!; [apply vle_join_l|done|by split|by apply safe_ret].
Qed.

Lemma safe_unpark j g (Q : unit → G → Prop) : quiet g → Q tt g → safe (unpark j) g Q.
Proof using Hob.
  intros Hg HQ. apply safe_noise; [done..|]. intros Γ m V HI Hi t b. simpl. split; [done|].
  intros p' V' m' [= <- <- <-]. split_and!; [done|done|by split|by apply safe_ret].
Qed.

Lemma safe_park g (Q : unit → G → Prop) : quiet g → Q tt g → safe park g Q.
Proof using Hob.
  intros Hg HQ. apply safe_noise; [done..|]. intros Γ m V HI Hi t b. simpl.
  destruct (mtokens m !! i) as [W|].
  - split; [done|]. intros p' V' m' [= <- <- <-].
    split_and!; [apply vle_join_l|done|by split|by apply safe_ret].
  - destruct b; [|done]. split; [done|]. intros p' V' m' [= <- <- <-].
    split_and!; [done|done|by split|by apply safe_ret].
Qed.

Lemma safe_hint h g (Q : unit → G → Prop) : quiet g → Q tt g → safe (Hint h (Ret tt)) g Q.
Proof using Hob.
  intros Hg HQ. apply safe_noise; [done..|]. intros Γ m V HI Hi t b. simpl. split; [done|].
  intros p' V' m' [= <- <- <-]. split_and!; [done|done|by split|by apply safe_ret].
Qed.

Lemma safe_fence o g (Q : unit → G → Prop) : quiet g → Q tt g → safe (fence o) g Q.
Proof using Hob.
  intros Hg HQ. apply safe_noise; [done..|]. intros Γ m V HI Hi t b. simpl.
  pose proof (fence_view_grows o V (scview m)) as [H1 H2].
  destruct (fence_view o V (scview m)) as [V1 G1]. split; [done|].
  intros p' V' m' [= <- <- <-]. split_and!; [done|done|by split|by apply safe_ret].
Qed.

Lemma safe_spins n g (Q : unit → G → Prop) : quiet g → Q tt g → safe (repeat_prog n spin_loop) g Q.
Proof using Hob.
  intros Hg HQ. induction n as [|n IH]; [by apply safe_ret|].
  cbn [repeat_prog]. apply safe_bind, safe_hint; [done|exact IH].
Qed.

(** ** The parker *)

Section parker.
Context (s : side).
Hypothesis Hs : Parked s ∈ flags.
Abbreviation self := (parker_of r s).

Lemma safe_wake g (Q : unit → G → Prop) : quiet g → Q tt g → safe (wake self) g Q.
Proof using Hob Hs.
  intros Hg HQ. apply safe_bind, safe_load_flag; [done..|]. intros [|]; [|by apply safe_ret].
  apply safe_bind, safe_store_flag; [done..|]. apply safe_bind, safe_take_slot; [done..|].
  intros [j|]; [by apply safe_unpark|by apply safe_ret].
Qed.

Lemma safe_prepare_park g (Q : unit → G → Prop) : quiet g → Q tt g → safe (prepare_park self) g Q.
Proof using Hob Hs. intros Hg HQ. by apply safe_bind, safe_set_slot, safe_store_flag. Qed.

Lemma safe_cancel g (Q : unit → G → Prop) : quiet g → Q tt g → safe (cancel self) g Q.
Proof using Hob Hs. intros Hg HQ. by apply safe_store_flag. Qed.

Lemma safe_Parker_park g (Q : unit → G → Prop) : quiet g → Q tt g → safe (Parker_park self) g Q.
Proof using Hob Hs. intros Hg HQ. by apply safe_bind, safe_park, safe_store_flag. Qed.

(** The end of a parking wait, after the re-check. *)
Lemma safe_settle {A} (retry : bool) (ladder : A) g (Q : A → G → Prop) :
  quiet g → Q ladder g →
  safe (_ ← (if retry then cancel self else Parker_park self); mret ladder) g Q.
Proof using Hob Hs.
  intros Hg HQ. apply safe_bind.
  destruct retry; [apply safe_cancel|apply safe_Parker_park]; try done; by apply safe_ret.
Qed.
End parker.

(** ** The waiter list *)

Section waiters.
Hypothesis Hw : Waiting ∈ flags.
Abbreviation self := (waiter_list_of r).

Lemma safe_prepare_wait g (Q : unit → G → Prop) : quiet g → Q tt g → safe (prepare_wait self) g Q.
Proof using Hob Hw. intros Hg HQ. by apply safe_bind, safe_push_waiter, safe_store_flag. Qed.

Lemma safe_unpark_all ts g (Q : unit → G → Prop) : quiet g → Q tt g → safe (unpark_all ts) g Q.
Proof using Hob.
  intros Hg HQ. induction ts as [|t ts IH]; [by apply safe_ret|].
  cbn [unpark_all]. apply safe_bind, safe_unpark; [done|exact IH].
Qed.

Lemma safe_wake_all g (Q : unit → G → Prop) : quiet g → Q tt g → safe (wake_all self) g Q.
Proof using Hob Hw.
  intros Hg HQ. apply safe_bind, safe_swap_flag; [done..|]. intros [|]; [|by apply safe_ret].
  apply safe_bind, safe_drain_waiters; [done..|]. intros ts. by apply safe_unpark_all.
Qed.
End waiters.

(** ** The idle ladder *)

Lemma safe_idle ladder g (Q : Idle → G → Prop) :
  ladder_ok ladder → quiet g → (∀ ladder, ladder_ok ladder → Q ladder g) → safe (idle ladder) g Q.
Proof using Hob.
  intros Hl Hg HQ. unfold idle. apply safe_bind. unfold ladder_ok, PARK_MAX, from_millis in *.
  repeat case_bool; try (by apply safe_bind, safe_hint, safe_ret, safe_ret, HQ).
  apply safe_bind, safe_hint, safe_bind; [done|]. eapply safe_arith.
  - unfold duration_mul. rewrite (proj2 (Z.leb_le _ _)); [done|]. unfold duration_max. lia.
  - apply safe_ret, safe_ret, HQ. simpl. lia.
Qed.
End parking.
