(* ===== verification/SpscInv.v ===== *)
(** The protocol of the SPSC ring in weak memory: the ghost state of its two
    sides, the invariant that ties ghost states, views and call traces to the
    histories of the atomics and to the cells, and the preservation of that
    invariant by every action the operations perform. *)
From S2P Require Import Prelude Usize Atomic Errors Wait Notify Ring Queue Spsc Seq Memory Machine Logic.
Local Open Scope Z_scope.

(** ** Calls and observations *)

Inductive call (T : Type) :=
  | CTrySend (v : T)
  | CSend (fuel : nat) (v : T)
  | CDropSender
  | CTryRecv
  | CRecv (fuel : nat)
  | CDrain (fuel : nat) (max : Z)
  | CDropReceiver.
Arguments CTrySend {T} v.
Arguments CSend {T} fuel v.
Arguments CDropSender {T}.
Arguments CTryRecv {T}.
Arguments CRecv {T} fuel.
Arguments CDrain {T} fuel max.
Arguments CDropReceiver {T}.

Inductive event (T : Type) :=
  | EvTrySend (r : result unit (TrySendError T))
  | EvSend (r : result unit (SendError T))
  | EvTryRecv (r : result T TryRecvError)
  | EvRecv (r : result T RecvError)
  | EvDrain (seen : list T) (e : exit)
  | EvDropped
  | EvNoHandle.
Arguments EvTrySend {T} r.
Arguments EvSend {T} r.
Arguments EvTryRecv {T} r.
Arguments EvRecv {T} r.
Arguments EvDrain {T} seen e.
Arguments EvDropped {T}.
Arguments EvNoHandle {T}.

Section log.
Context {T : Type}.

(** The value a call offers, and those a finished call put in or took out. *)
Definition offered (c : call T) : list T :=
  match c with CTrySend v | CSend _ v => [v] | _ => [] end.
Definition accepted_by (x : call T * event T) : list T :=
  match x.2 with EvTrySend (Ok _) | EvSend (Ok _) => offered x.1 | _ => [] end.
Definition received_by (x : call T * event T) : list T :=
  match x.2 with
  | EvTryRecv (Ok v) | EvRecv (Ok v) => [v]
  | EvDrain seen _ => seen
  | _ => []
  end.
Definition accepted (tr : list (call T * event T)) : list T := concat (accepted_by <$> tr).
Definition received (tr : list (call T * event T)) : list T := concat (received_by <$> tr).

(** A call that reported the other side gone. *)
Definition saw_disconnect (x : call T * event T) : bool :=
  match x.2 with
  | EvTrySend (Err (SendDisconnected _)) | EvSend (Err _)
  | EvTryRecv (Err RecvDisconnected) | EvRecv (Err _) => true
  | _ => false
  end.

Lemma accepted_snoc tr x : accepted (tr ++ [x]) = accepted tr ++ accepted_by x.
Proof. unfold accepted. rewrite fmap_app, concat_app. simpl. by rewrite app_nil_r. Qed.
Lemma received_snoc tr x : received (tr ++ [x]) = received tr ++ received_by x.
Proof. unfold received. rewrite fmap_app, concat_app. simpl. by rewrite app_nil_r. Qed.

Lemma accepted_by_length x : (length (accepted_by x) ≤ 1)%nat.
Proof. destruct x as [[] [[]|[]|[]|[]| | |]]; simpl; lia. Qed.

Lemma accepted_length tr : (length (accepted tr) ≤ length tr)%nat.
Proof.
  induction tr as [|x tr IH]; [simpl; lia|].
  change (accepted (x :: tr)) with (accepted_by x ++ accepted tr).
  rewrite length_app. cbn [length]. pose proof (accepted_by_length x). lia.
Qed.
End log.

(** ** Ghost state *)

(** The life of a handle: open; disconnected but still holding its reference;
    holding the last reference and dropping the block; gone. *)
Inductive phase := Open | Closed | Freeing | Gone.
#[global] Instance phase_eq_dec : EqDecision phase.
Proof. solve_decision. Defined.

Record ghost (T : Type) := Ghost {
  (** The values this side has put into (taken out of) the cells. *)
  vals : list T;
  (** How many of them its counter has published. *)
  gpub : Z;
  (** The newest count of the peer it has loaded. *)
  gseen : Z;
  gphase : phase;
  (** What it dropped with the block. *)
  gdrop : list T;
  (** It has observed the peer's disconnect, and then the peer's final count. *)
  gknow : bool;
  gdone : bool;
}.
Arguments Ghost {T}.
Arguments vals {T}.
Arguments gpub {T}.
Arguments gseen {T}.
Arguments gphase {T}.
Arguments gdrop {T}.
Arguments gknow {T}.
Arguments gdone {T}.

Definition peer (s : side) : side :=
  match s with Producer => Consumer | Consumer => Producer end.

Lemma peer_peer s : peer (peer s) = s.
Proof. by destruct s. Qed.
Lemma peer_ne s : peer s ≠ s.
Proof. by destruct s. Qed.
Lemma side_dec s s' : {s' = s} + {s' = peer s}.
Proof. destruct s, s'; (by left) || (by right). Qed.

Definition is_gone (p : phase) : bool :=
  match p with Freeing | Gone => true | _ => false end.

Section invariant.
Context `{tgt : Target} {T : Type} (sh : Shared).
Abbreviation entry := (ent (ghost T) (call T) (event T)).
Implicit Types (E : side → entry) (m : mem T) (W : view) (g : ghost T).

Definition upd {A} (s : side) (x : A) (f : side → A) : side → A :=
  λ s', match s, s' with
        | Producer, Producer | Consumer, Consumer => x
        | _, _ => f s'
        end.

Lemma upd_same {A} s (x : A) f : upd s x f s = x.
Proof. by destruct s. Qed.
Lemma upd_peer {A} s (x : A) f : upd s x f (peer s) = f (peer s).
Proof. by destruct s. Qed.

(** A property of both sides holds when it holds of the one that moved and of
    its peer. *)
Lemma both_sides (P : side → Prop) s : P s → P (peer s) → ∀ s', P s'.
Proof. by destruct s; intros ? ? []. Qed.

(** The counter a side publishes and the stamp its [q]-th access leaves in the
    cell of [q]: every round of a cell is one write and one read. *)
Definition ctr (s : side) : loc := match s with Producer => tail sh | Consumer => head sh end.
Definition cell (q : Z) : loc := buf sh (slot_of (cap sh) q).
Definition round (q : Z) : nat := Z.to_nat (q / cap sh).
Definition stamp (s : side) (q : Z) : nat :=
  match s with Producer => 2 * round q + 1 | Consumer => 2 * round q + 2 end.

Definition num g : Z := Z.of_nat (length (vals g)).

(** [W] is past the first [k] accesses of side [s]. *)
Definition covers (s : side) (k : Z) W : Prop :=
  ∀ q, 0 ≤ q < k → (stamp s q ≤ vw W (cell q))%nat.

(** [W] is past everything side [s] did. *)
Definition knows (s : side) m g W : Prop :=
  covers s (num g) W ∧ ∀ h, hist m !! ctr s = Some h → final h (ctr s) W.

(** How many values left the ring, by a receive or by the final drop. *)
Definition consumed E : Z :=
  num (eg (E Consumer)) + Z.of_nat (length (gdrop (eg (E Producer)))) +
  Z.of_nat (length (gdrop (eg (E Consumer)))).

Definition freed E : Prop :=
  gphase (eg (E Producer)) = Gone ∧ gphase (eg (E Consumer)) = Gone.

(** The traces say what the ghost states hold. *)
Definition log_ok E : Prop :=
  match ecur (E Producer) with
  | None => vals (eg (E Producer)) = accepted (etr (E Producer))
  | Some c => accepted (etr (E Producer)) `prefix_of` vals (eg (E Producer)) ∧
              vals (eg (E Producer)) `prefix_of` accepted (etr (E Producer)) ++ offered c
  end ∧
  match ecur (E Consumer) with
  | None => vals (eg (E Consumer)) = received (etr (E Consumer))
  | Some _ => received (etr (E Consumer)) `prefix_of` vals (eg (E Consumer))
  end.

(** What a disconnect report in a trace promises. *)
Definition reports_ok E : Prop :=
  (existsb saw_disconnect (etr (E Producer)) = true → gknow (eg (E Producer)) = true) ∧
  (existsb saw_disconnect (etr (E Consumer)) = true →
     gdone (eg (E Consumer)) = true ∧ gseen (eg (E Consumer)) = num (eg (E Consumer))).

(** The history of a side's counter [ctr s]. *)
Record ctr_inv (s : side) E m (h : gmap nat msg) : Prop := {
  ci_msg t x : h !! t = Some x →
    0 ≤ mval x ≤ gpub (eg (E s)) ∧ covers s (mval x) (mview x);
  ci_mono t x t' x' : h !! t = Some x → h !! t' = Some x' → (t ≤ t')%nat → mval x ≤ mval x';
  ci_last : ∃ t x, h !! t = Some x ∧ mval x = gpub (eg (E s));
  ci_own : final h (ctr s) (cur (ev (E s)));
  ci_peer t x : h !! t = Some x → (vw (cur (ev (E (peer s)))) (ctr s) ≤ t)%nat →
    gseen (eg (E (peer s))) ≤ mval x;
}.

(** A store of [true] to [disconnected] carries all its author did. *)
Definition disc_inv E m (h : gmap nat msg) : Prop :=
  ∀ t x, h !! t = Some x → mval x = 0 ∨
    mval x = 1 ∧ ∃ s, gphase (eg (E s)) ≠ Open ∧ knows s m (eg (E s)) (mview x).

(** The reference count is a chain of updates whose last one carries all that
    the released sides did. *)
Definition refs E : Z :=
  Z.b2z (negb (is_gone (gphase (eg (E Producer))))) +
  Z.b2z (negb (is_gone (gphase (eg (E Consumer))))).
Definition strong_inv E m (h : gmap nat msg) : Prop :=
  ∃ n x, (∀ t, is_Some (h !! t) ↔ (t ≤ n)%nat) ∧ h !! n = Some x ∧ mval x = refs E ∧
    ∀ s, is_gone (gphase (eg (E s))) = true → knows s m (eg (E s)) (mview x).

Record mem_inv E m : Prop := {
  mi_ctr s : ∃ h, hist m !! ctr s = Some h ∧ ctr_inv s E m h;
  mi_disc : ∃ h, hist m !! disconnected sh = Some h ∧ disc_inv E m h;
  mi_strong : ∃ h, hist m !! strong sh = Some h ∧ strong_inv E m h;
  mi_parked s : is_Some (hist m !! Loc (sh_ring sh) (Parked s));
  mi_own s : covers s (num (eg (E s))) (cur (ev (E s)));
  mi_seen s : covers (peer s) (gseen (eg (E s))) (cur (ev (E s)));
  mi_know s : gknow (eg (E s)) = true → knows (peer s) m (eg (E (peer s))) (cur (ev (E s)));
  mi_freeing s : gphase (eg (E s)) = Freeing →
    knows (peer s) m (eg (E (peer s))) (vjoin (cur (ev (E s))) (acq (ev (E s))));
  mi_full q : consumed E ≤ q < num (eg (E Producer)) →
    ∃ v, vals (eg (E Producer)) !! Z.to_nat q = Some v ∧
         mcells m !! cell q = Some (stamp Producer q, Some v);
  mi_free q : num (eg (E Producer)) ≤ q < consumed E + cap sh →
    mcells m !! cell q = Some ((2 * round q)%nat, None);
}.

Record SInv E m : Prop := {
  si_prefix : vals (eg (E Consumer)) ++ gdrop (eg (E Producer)) ++ gdrop (eg (E Consumer))
                `prefix_of` vals (eg (E Producer));
  si_dropped : mdropped m = gdrop (eg (E Producer)) ++ gdrop (eg (E Consumer));
  si_seen s : 0 ≤ gseen (eg (E s)) ≤ gpub (eg (E (peer s)));
  si_pub s : gpub (eg (E s)) ≤ num (eg (E s));
  si_closed s : gphase (eg (E s)) ≠ Open → gpub (eg (E s)) = num (eg (E s));
  si_room : num (eg (E Producer)) ≤ gseen (eg (E Producer)) + cap sh;
  si_avail : num (eg (E Consumer)) ≤ gseen (eg (E Consumer));
  si_max : num (eg (E Producer)) ≤ usize_max;
  si_consumed : consumed E ≤ gpub (eg (E Producer));
  si_nodrop s : is_gone (gphase (eg (E s))) = false →
    gdrop (eg (E Producer)) = [] ∧ gdrop (eg (E Consumer)) = [];
  si_freeing s : gphase (eg (E s)) = Freeing →
    gphase (eg (E (peer s))) = Gone ∧ gdrop (eg (E (peer s))) = [];
  si_freed : freed E → consumed E = num (eg (E Producer));
  si_know s : gknow (eg (E s)) = true → gphase (eg (E (peer s))) ≠ Open;
  si_done s : gdone (eg (E s)) = true →
    gphase (eg (E (peer s))) ≠ Open ∧ gseen (eg (E s)) = num (eg (E (peer s)));
  si_log : log_ok E;
  si_reports : reports_ok E;
  si_mem : ¬ freed E → mem_inv E m;
}.

(** ** Monotonicity *)

Lemma covers_mono s k k' W W' : covers s k W → k' ≤ k → vle W W' → covers s k' W'.
Proof. intros Hc Hk Hv q Hq. specialize (Hc q ltac:(lia)). specialize (Hv (cell q)). lia. Qed.

Lemma knows_mono s m m' g g' W W' :
  knows s m g W → vals g' = vals g → hist m' !! ctr s = hist m !! ctr s → vle W W' →
  knows s m' g' W'.
Proof.
  intros [Hc Hf] Hg Hm Hv. split.
  - eapply covers_mono; [exact Hc|unfold num; by rewrite Hg|done].
  - intros h Hh. rewrite Hm in Hh. eapply final_mono; eauto.
Qed.

(** The part of the memory the protocol speaks of is the same. *)
Record same_mem m m' : Prop := {
  sm_ctr s : hist m' !! ctr s = hist m !! ctr s;
  sm_disc : hist m' !! disconnected sh = hist m !! disconnected sh;
  sm_strong : hist m' !! strong sh = hist m !! strong sh;
  sm_parked s : is_Some (hist m !! Loc (sh_ring sh) (Parked s)) →
    is_Some (hist m' !! Loc (sh_ring sh) (Parked s));
  sm_cells : mcells m' = mcells m;
  sm_dropped : mdropped m' = mdropped m;
}.

Lemma same_mem_refl m : same_mem m m.
Proof. by split. Qed.

(** Two entries that differ at most in what their views have gained. *)
Record grown (e e' : entry) : Prop := {
  gr_ghost : eg e' = eg e;
  gr_trace : etr e' = etr e;
  gr_cur : ecur e' = ecur e;
  gr_view : vle (cur (ev e)) (cur (ev e'));
  gr_acq : vle (acq (ev e)) (acq (ev e'));
}.

Lemma grown_refl e : grown e e.
Proof. by split. Qed.

Lemma mem_inv_grown E E' m m' :
  (∀ s, grown (E s) (E' s)) → same_mem m m' → mem_inv E m → mem_inv E' m'.
Proof.
  intros HE Hm HI.
  assert (Hg : ∀ s, eg (E' s) = eg (E s)) by (intros s; apply HE).
  assert (Hknows : ∀ s s' W W', vle W W' → knows s m (eg (E s')) W → knows s m' (eg (E' s')) W').
  { intros s s' W W' Hv Hk. eapply knows_mono; [exact Hk|by rewrite Hg|apply Hm|done]. }
  assert (Hcons : consumed E' = consumed E) by (unfold consumed; by rewrite !Hg).
  destruct HI. split.
  - intros s. destruct (mi_ctr0 s) as (h & Hh & Hi). exists h. rewrite (sm_ctr _ _ Hm).
    split; [done|]. destruct Hi. split; rewrite ?Hg; auto.
    + eapply final_mono; [done|apply HE].
    + intros t x Ht Hle. eapply ci_peer0; [done|].
      pose proof (gr_view _ _ (HE (peer s)) (ctr s)). lia.
  - destruct mi_disc0 as (h & Hh & Hi). exists h. rewrite (sm_disc _ _ Hm). split; [done|].
    intros t x Ht. destruct (Hi t x Ht) as [?|(? & s & ? & ?)]; [by left|right].
    split; [done|]. exists s. rewrite Hg. split; [done|]. rewrite <-(Hg s). by eapply Hknows.
  - destruct mi_strong0 as (h & Hh & n & x & Hdom & Hn & Hv & Hk). exists h.
    rewrite (sm_strong _ _ Hm). split; [done|]. exists n, x. split_and!; try done.
    + unfold refs. by rewrite !Hg.
    + intros s. rewrite Hg. intros Hs. rewrite <-(Hg s). by eapply Hknows, Hk.
  - intros s. by apply (sm_parked _ _ Hm).
  - intros s. rewrite Hg. eapply covers_mono; [apply mi_own0|lia|apply HE].
  - intros s. rewrite Hg. eapply covers_mono; [apply mi_seen0|lia|apply HE].
  - intros s. rewrite Hg. intros Hs. eapply Hknows; [apply HE|auto].
  - intros s. rewrite Hg. intros Hs. eapply Hknows; [|auto].
    intros l. rewrite !vw_join. pose proof (gr_view _ _ (HE s) l).
    pose proof (gr_acq _ _ (HE s) l). lia.
  - intros q. rewrite Hcons, Hg, (sm_cells _ _ Hm). auto.
  - intros q. rewrite Hcons, Hg, (sm_cells _ _ Hm). auto.
Qed.

Lemma SInv_grown E E' m m' :
  (∀ s, grown (E s) (E' s)) → same_mem m m' → SInv E m → SInv E' m'.
Proof.
  intros HE Hm HI.
  assert (Hg : ∀ s, eg (E' s) = eg (E s)) by (intros s; apply HE).
  assert (Hcons : consumed E' = consumed E) by (unfold consumed; by rewrite !Hg).
  destruct HI. split; unfold freed, log_ok, reports_ok in *;
    rewrite ?Hg, ?Hcons, ?(gr_trace _ _ (HE _)), ?(gr_cur _ _ (HE _)), ?(sm_dropped _ _ Hm);
    try done; try (intros s; rewrite ?Hg; auto; fail).
  - intros s. rewrite Hg. apply si_nodrop0.
  - intros Hf. eapply mem_inv_grown; eauto.
Qed.

(** An action of side [s] that concerns neither the counters, the cells, the
    disconnect flag nor the reference count. *)
Lemma SInv_noise E m m' s g V tr c V' :
  SInv E m → E s = Ent g V tr c → vle (cur V) (cur V') → vle (acq V) (acq V') →
  same_mem m m' → SInv (upd s (Ent g V' tr c) E) m'.
Proof.
  intros HI Hs Hc Ha Hm. eapply SInv_grown; [|exact Hm|exact HI].
  apply (both_sides _ s); rewrite ?upd_same, ?upd_peer; [|apply grown_refl].
  rewrite Hs. by split.
Qed.

Lemma SInv_ext E E' m : (∀ s, E' s = E s) → SInv E m → SInv E' m.
Proof.
  intros HE. apply SInv_grown; [|apply same_mem_refl]. intros s. rewrite HE. apply grown_refl.
Qed.

(** ** Ghost updates *)

Definition with_know g : ghost T :=
  Ghost (vals g) (gpub g) (gseen g) (gphase g) (gdrop g) true (gdone g).
(** A count loaded after the peer's disconnect was observed is its last. *)
Definition with_seen g k : ghost T :=
  Ghost (vals g) (gpub g) k (gphase g) (gdrop g) (gknow g) (gdone g || gknow g).
Definition with_pub g k : ghost T :=
  Ghost (vals g) k (gseen g) (gphase g) (gdrop g) (gknow g) (gdone g).
Definition with_vals g l : ghost T :=
  Ghost l (gpub g) (gseen g) (gphase g) (gdrop g) (gknow g) (gdone g).
Definition with_phase g p : ghost T :=
  Ghost (vals g) (gpub g) (gseen g) p (gdrop g) (gknow g) (gdone g).
Definition with_drop g l : ghost T :=
  Ghost (vals g) (gpub g) (gseen g) (gphase g) l (gknow g) (gdone g).

(** An entry whose ghost state changed at most in what it has observed. *)
Record observed (e e' : entry) : Prop := {
  ob_vals : vals (eg e') = vals (eg e);
  ob_pub : gpub (eg e') = gpub (eg e);
  ob_phase : gphase (eg e') = gphase (eg e);
  ob_drop : gdrop (eg e') = gdrop (eg e);
  ob_view : ev e' = ev e;
}.

Lemma observed_refl e : observed e e.
Proof. by split. Qed.

(** What side [s] may claim to have seen of its peer. *)
Definition may_see E m (s : side) (k : Z) : Prop :=
  covers (peer s) k (cur (ev (E s))) ∧
  ∀ h t x, hist m !! ctr (peer s) = Some h → h !! t = Some x →
    (vw (cur (ev (E s))) (ctr (peer s)) ≤ t)%nat → k ≤ mval x.

Lemma mem_inv_observed E E' m :
  (∀ s, observed (E s) (E' s)) →
  (∀ s, may_see E m s (gseen (eg (E s))) → may_see E m s (gseen (eg (E' s)))) →
  (∀ s, gknow (eg (E' s)) = true →
     knows (peer s) m (eg (E (peer s))) (cur (ev (E s)))) →
  mem_inv E m → mem_inv E' m.
Proof.
  intros HE Hsee Hknow HI.
  assert (Hv : ∀ s, vals (eg (E' s)) = vals (eg (E s))) by (intros s; apply HE).
  assert (Hn : ∀ s, num (eg (E' s)) = num (eg (E s))) by (intros s; unfold num; by rewrite Hv).
  assert (Hp : ∀ s, gpub (eg (E' s)) = gpub (eg (E s))) by (intros s; apply HE).
  assert (Hph : ∀ s, gphase (eg (E' s)) = gphase (eg (E s))) by (intros s; apply HE).
  assert (Hev : ∀ s, ev (E' s) = ev (E s)) by (intros s; apply HE).
  assert (Hknows : ∀ s s' W, knows s m (eg (E s')) W → knows s m (eg (E' s')) W).
  { intros s s' W Hk. by eapply knows_mono. }
  assert (Hcons : consumed E' = consumed E).
  { unfold consumed. by rewrite Hn, !(ob_drop _ _ (HE _)). }
  assert (Hmay : ∀ s, may_see E m s (gseen (eg (E' s)))).
  { intros s. apply Hsee. split; [apply HI|]. intros h t x Hh Ht Hle.
    destruct (mi_ctr _ _ HI (peer s)) as (h' & Hh' & Hi). rewrite Hh in Hh'. simplify_eq.
    rewrite <-(peer_peer s) at 1. eapply ci_peer; [done|done|]. by rewrite peer_peer. }
  destruct HI. split.
  - intros s. destruct (mi_ctr0 s) as (h & Hh & Hi). exists h. split; [done|].
    destruct Hi. split; rewrite ?Hp, ?Hev; auto.
    intros t x Ht Hle. destruct (Hmay (peer s)) as [_ Hpeer].
    eapply Hpeer; rewrite ?peer_peer; eauto.
  - destruct mi_disc0 as (h & Hh & Hi). exists h. split; [done|].
    intros t x Ht. destruct (Hi t x Ht) as [?|(? & s & ? & ?)]; [by left|right].
    split; [done|]. exists s. rewrite Hph. auto.
  - destruct mi_strong0 as (h & Hh & n & x & Hdom & Hn' & Hv' & Hk). exists h.
    split; [done|]. exists n, x. split_and!; try done.
    + unfold refs. by rewrite !Hph.
    + intros s. rewrite Hph. auto.
  - done.
  - intros s. rewrite Hn, Hev. auto.
  - intros s. rewrite Hev. apply Hmay.
  - intros s Hs. rewrite Hev. auto.
  - intros s. rewrite Hph, Hev. auto.
  - intros q. rewrite Hcons, Hn, Hv. auto.
  - intros q. rewrite Hcons, Hn. auto.
Qed.

(** Clauses about both sides, seen from the one that moved. *)
Ltac sides :=
  match goal with s : side |- _ => apply (both_sides _ s) end;
  rewrite ?peer_peer, ?upd_same, ?upd_peer.

Lemma SInv_observed E m s g g' V tr c :
  SInv E m → E s = Ent g V tr c →
  vals g' = vals g → gpub g' = gpub g → gphase g' = gphase g → gdrop g' = gdrop g →
  gseen g ≤ gseen g' ≤ gpub (eg (E (peer s))) →
  (gknow g = true → gknow g' = true) → (gdone g = true → gdone g' = true) →
  (gknow g' = true → gphase (eg (E (peer s))) ≠ Open) →
  (gdone g' = true →
     gphase (eg (E (peer s))) ≠ Open ∧ gseen g' = num (eg (E (peer s)))) →
  (¬ freed E → may_see E m s (gseen g') ∧
     (gknow g' = true → knows (peer s) m (eg (E (peer s))) (cur V))) →
  SInv (upd s (Ent g' V tr c) E) m.
Proof.
  intros HI HE Hv Hp Hph Hd Hs Hk Hdn Hk' Hdn' Hm.
  set (E' := upd s _ E).
  assert (HE' : E' s = Ent g' V tr c) by apply upd_same.
  assert (HEp : E' (peer s) = E (peer s)) by apply upd_peer.
  assert (Hob : ∀ s', observed (E s') (E' s')).
  { apply (both_sides _ s); rewrite ?HE', ?HEp, ?HE; [by split|apply observed_refl]. }
  assert (Hgv : ∀ s', vals (eg (E' s')) = vals (eg (E s'))) by (intros ?; apply Hob).
  assert (Hgn : ∀ s', num (eg (E' s')) = num (eg (E s'))) by (intros ?; unfold num; by rewrite Hgv).
  assert (Hgp : ∀ s', gpub (eg (E' s')) = gpub (eg (E s'))) by (intros ?; apply Hob).
  assert (Hgh : ∀ s', gphase (eg (E' s')) = gphase (eg (E s'))) by (intros ?; apply Hob).
  assert (Hgd : ∀ s', gdrop (eg (E' s')) = gdrop (eg (E s'))) by (intros ?; apply Hob).
  assert (Hcons : consumed E' = consumed E) by (unfold consumed; by rewrite Hgn, !Hgd).
  assert (Htr : ∀ s', etr (E' s') = etr (E s')).
  { apply (both_sides _ s); by rewrite ?HE', ?HEp, ?HE. }
  assert (Hcu : ∀ s', ecur (E' s') = ecur (E s')).
  { apply (both_sides _ s); by rewrite ?HE', ?HEp, ?HE. }
  assert (Hseen : ∀ s', gseen (eg (E s')) ≤ gseen (eg (E' s')) ≤ gpub (eg (E (peer s')))).
  { apply (both_sides _ s); rewrite ?HE', ?HEp, ?HE; simpl; [done|].
    pose proof (si_seen _ _ HI (peer s)) as Hpe. rewrite peer_peer, HE in *. simpl in *. lia. }
  assert (Hkn : ∀ s', gknow (eg (E s')) = true → gknow (eg (E' s')) = true).
  { apply (both_sides (λ s', gknow (eg (E s')) = true → gknow (eg (E' s')) = true) s);
      by rewrite ?HE', ?HEp, ?HE. }
  assert (Hdone : ∀ s', gdone (eg (E s')) = true → gdone (eg (E' s')) = true).
  { apply (both_sides (λ s', gdone (eg (E s')) = true → gdone (eg (E' s')) = true) s);
      by rewrite ?HE', ?HEp, ?HE. }
  assert (Hfree : freed E' ↔ freed E) by (unfold freed; by rewrite !Hgh).
  destruct HI. split; unfold log_ok, reports_ok in *;
    rewrite ?Hcons, ?Hgv, ?Hgn, ?Hgd, ?Hgp, ?Hgh, ?Htr, ?Hcu; try done.
  - intros s'. rewrite Hgp. specialize (Hseen s'). specialize (si_seen0 s'). lia.
  - intros s'. rewrite Hgp, Hgn. auto.
  - intros s'. rewrite Hgp, Hgn, Hgh. auto.
  - specialize (Hseen Producer). lia.
  - specialize (Hseen Consumer). lia.
  - intros s'. rewrite Hgh. apply si_nodrop0.
  - intros s'. rewrite !Hgh, Hgd. auto.
  - rewrite Hfree. auto.
  - intros s'. rewrite Hgh. apply (both_sides (λ s', gknow (eg (E' s')) = true →
      gphase (eg (E (peer s'))) ≠ Open) s); rewrite ?HE', ?HEp; simpl; auto.
  - intros s'. rewrite Hgh, Hgn.
    apply (both_sides (λ s', gdone (eg (E' s')) = true →
      gphase (eg (E (peer s'))) ≠ Open ∧
      gseen (eg (E' s')) = num (eg (E (peer s')))) s); rewrite ?HE', ?HEp; auto.
  - destruct si_reports0 as [Hr1 Hr2]. split; [auto|]. intros Hsaw.
    destruct (Hr2 Hsaw) as [Hd1 Hd2]. split; [auto|]. pose proof (Hseen Consumer) as Hsc.
    pose proof (si_done0 Consumer Hd1) as [_ Hd3]. specialize (si_pub0 Producer).
    cbn [peer] in *. lia.
  - rewrite Hfree. intros Hf. destruct (Hm Hf) as [Hsee Hkn'].
    eapply mem_inv_observed; [exact Hob| | |auto].
    + intros s'. apply (both_sides (λ s', may_see E m s' (gseen (eg (E s'))) →
        may_see E m s' (gseen (eg (E' s')))) s); rewrite ?HE', ?HEp; auto.
    + intros s'. apply (both_sides (λ s', gknow (eg (E' s')) = true →
        knows (peer s') m (eg (E (peer s'))) (cur (ev (E s')))) s); rewrite ?HE', ?HEp, ?HE; auto.
      apply (mi_know _ _ (si_mem0 Hf)).
Qed.

(** ** Loads *)

(** Upd twice. *)
Lemma upd_upd {A} s (x y : A) f s' : upd s x f s' = upd s x (upd s y f) s'.
Proof. by destruct s, s'. Qed.

Lemma open_not_freed E s g V tr c :
  E s = Ent g V tr c → gphase g ≠ Gone → ¬ freed E.
Proof. intros HE Hg [HP HC]. destruct s; rewrite HE in *; done. Qed.

(** Loading the peer's counter. *)
Lemma load_peer E m s g V tr c h t x :
  SInv E m → E s = Ent g V tr c → gphase g ≠ Gone →
  hist m !! ctr (peer s) = Some h → h !! t = Some x → (vw (cur V) (ctr (peer s)) ≤ t)%nat →
  gseen g ≤ mval x ≤ gpub (eg (E (peer s))) ∧
  SInv (upd s (Ent (with_seen g (mval x)) (read_view (ctr (peer s)) t Acquire x V) tr c) E) m.
Proof.
  intros HI HE Hgone Hh Ht Hle. set (V' := read_view _ _ _ _ _).
  assert (Hf : ¬ freed E) by (by eapply open_not_freed).
  pose proof (si_mem _ _ HI Hf) as HM.
  destruct (mi_ctr _ _ HM (peer s)) as (h' & Hh' & Hc). rewrite Hh in Hh'.
  injection Hh' as <-. destruct (ci_msg _ _ _ _ Hc t x Ht) as [Hb Hcov].
  assert (gseen g ≤ mval x) as Hs.
  { pose proof (ci_peer _ _ _ _ Hc t x Ht) as Hp. rewrite peer_peer, HE in Hp. auto. }
  assert (Hlast : gknow g = true → mval x = num (eg (E (peer s)))).
  { intros Hk. pose proof (mi_know _ _ HM s) as Hkn. rewrite HE in Hkn. simpl in Hkn.
    destruct (Hkn Hk) as [_ Hfin]. pose proof (si_know _ _ HI s) as Hopen. rewrite HE in Hopen.
    rewrite <-(si_closed _ _ HI (peer s) (Hopen Hk)).
    destruct (ci_last _ _ _ _ Hc) as (t0 & x0 & Ht0 & Hx0).
    enough (mval x0 ≤ mval x) by lia. eapply (ci_mono _ _ _ _ Hc); [done..|].
    pose proof (Hfin h Hh t0 (mk_is_Some _ _ Ht0)). lia. }
  split; [lia|].
  - destruct (read_view_grows (ctr (peer s)) t Acquire x V) as [Hg1 Hg2].
    pose proof (SInv_noise E m m s g V tr c V' HI HE Hg1 Hg2 (same_mem_refl m)) as HI'.
    eapply (SInv_ext (upd s _ (upd s _ E))); [intros s'; apply upd_upd|].
    eapply (SInv_observed _ _ _ g); [exact HI'|by rewrite upd_same|done..| |done| | | |].
    + rewrite upd_peer. simpl. lia.
    + simpl. by intros ->.
    + rewrite upd_peer. simpl. pose proof (si_know _ _ HI s) as Hk. by rewrite HE in Hk.
    + rewrite upd_peer. simpl. pose proof (si_done _ _ HI s) as Hd.
      pose proof (si_know _ _ HI s) as Hk. rewrite HE in Hd, Hk. simpl in Hd, Hk.
      pose proof (si_pub _ _ HI (peer s)).
      destruct (gdone g); simpl; [|auto]. destruct (Hd eq_refl) as [? ?]. split; [done|lia].
    + intros _. rewrite upd_peer. simpl. split.
      * split; rewrite upd_same; simpl.
        -- eapply covers_mono; [exact Hcov|lia|apply acquire_read].
        -- intros h2 t2 x2 Hh2 Ht2 Hle2. rewrite Hh in Hh2. injection Hh2 as <-.
           eapply (ci_mono _ _ _ _ Hc); [done..|].
           pose proof (read_view_past (ctr (peer s)) t Acquire x V) as Hpast. simpl in Hpast. lia.
      * intros Hk. pose proof (mi_know _ _ HM s) as Hkn. rewrite HE in Hkn. simpl in Hkn.
        eapply knows_mono; [by apply Hkn|done..].
Qed.

(** Observing the disconnect flag. *)
Lemma load_disc E m s g V tr c h t x :
  SInv E m → E s = Ent g V tr c → gphase g = Open →
  hist m !! disconnected sh = Some h → h !! t = Some x →
  let V' := read_view (disconnected sh) t Acquire x V in
  mval x = 0 ∧ SInv (upd s (Ent g V' tr c) E) m ∨
  mval x = 1 ∧ SInv (upd s (Ent (with_know g) V' tr c) E) m.
Proof.
  intros HI HE Hopen Hh Ht V'.
  assert (Hf : ¬ freed E) by (eapply open_not_freed; [done|by rewrite Hopen]).
  destruct (read_view_grows (disconnected sh) t Acquire x V) as [Hg1 Hg2].
  pose proof (SInv_noise E m m s g V tr c V' HI HE Hg1 Hg2 (same_mem_refl m)) as HI'.
  destruct (mi_disc _ _ (si_mem _ _ HI Hf)) as (h' & Hh' & Hd). rewrite Hh in Hh'.
  injection Hh' as <-. destruct (Hd t x Ht) as [Hv|(Hv & s' & Hph & Hk)]; [by left|right].
  split; [done|]. assert (s' = peer s) as ->.
  { destruct s, s'; try done; rewrite HE in Hph; simpl in Hph; congruence. }
  eapply (SInv_ext (upd s _ (upd s _ E))); [intros s'; apply upd_upd|].
  eapply (SInv_observed _ _ _ g); [exact HI'|by rewrite upd_same|done..| |done|done| | |].
  - rewrite upd_peer. pose proof (si_seen _ _ HI s) as Hs. rewrite HE in Hs. simpl in *. lia.
  - by rewrite upd_peer.
  - rewrite upd_peer. pose proof (si_done _ _ HI s) as Hd'. by rewrite HE in Hd'.
  - intros Hf'. rewrite upd_peer. split.
    + pose proof (si_mem _ _ HI' Hf') as HM'. split; simpl.
      * pose proof (mi_seen _ _ HM' s) as Hsn. by rewrite upd_same in Hsn |- *.
      * intros h2 t2 x2 Hh2 Ht2 Hle2. destruct (mi_ctr _ _ HM' (peer s)) as (h3 & Hh3 & Hc3).
        rewrite Hh2 in Hh3. injection Hh3 as <-.
        pose proof (ci_peer _ _ _ _ Hc3 t2 x2 Ht2) as Hp. rewrite peer_peer, upd_same in Hp.
        rewrite upd_same in Hle2. auto.
    + intros _. eapply knows_mono; [exact Hk|done..|apply acquire_read].
Qed.

(** ** Stores *)

Lemma ctr_peer_ne s : ctr s ≠ ctr (peer s).
Proof. destruct s; loc_ne. Qed.
Lemma ctr_ne_disc s : ctr s ≠ disconnected sh.
Proof. destruct s; loc_ne. Qed.
Lemma ctr_ne_strong s : ctr s ≠ strong sh.
Proof. destruct s; loc_ne. Qed.
Lemma ctr_ne_parked s s' : ctr s ≠ Loc (sh_ring sh) (Parked s').
Proof. destruct s; loc_ne. Qed.

(** Frames for the histories. *)
Lemma ctr_inv_frame E E' m m' s h :
  gpub (eg (E' s)) = gpub (eg (E s)) →
  gseen (eg (E' (peer s))) = gseen (eg (E (peer s))) →
  vle (cur (ev (E s))) (cur (ev (E' s))) →
  vle (cur (ev (E (peer s)))) (cur (ev (E' (peer s)))) →
  ctr_inv s E m h → ctr_inv s E' m' h.
Proof.
  intros Hp Hs Hv Hv' []. split; rewrite ?Hp, ?Hs; auto.
  - by eapply final_mono.
  - intros t x Ht Hle. eapply ci_peer0; [done|]. specialize (Hv' (ctr s)). lia.
Qed.

Lemma disc_inv_frame E E' m m' h :
  (∀ s, gphase (eg (E s)) ≠ Open → gphase (eg (E' s)) ≠ Open ∧
     vals (eg (E' s)) = vals (eg (E s)) ∧ hist m' !! ctr s = hist m !! ctr s) →
  disc_inv E m h → disc_inv E' m' h.
Proof.
  intros HE Hi t x Ht. destruct (Hi t x Ht) as [?|(? & s & Hs & Hk)]; [by left|right].
  split; [done|]. exists s. destruct (HE s Hs) as (? & ? & ?). split; [done|].
  by eapply knows_mono.
Qed.

Lemma strong_inv_frame E E' m m' h :
  (∀ s, is_gone (gphase (eg (E' s))) = is_gone (gphase (eg (E s)))) →
  (∀ s, is_gone (gphase (eg (E s))) = true →
     vals (eg (E' s)) = vals (eg (E s)) ∧ hist m' !! ctr s = hist m !! ctr s) →
  strong_inv E m h → strong_inv E' m' h.
Proof.
  intros Hg HE (n & x & Hdom & Hn & Hv & Hk). exists n, x. split_and!; try done.
  - unfold refs. by rewrite !Hg.
  - intros s. rewrite Hg. intros Hs. destruct (HE s Hs). eapply (knows_mono _ m); [by apply Hk|done..].
Qed.

(** The clauses of the invariant that do not concern the memory, instantiated
    at both sides. *)
Ltac open_inv HI :=
  destruct HI as [P1 P2 P3 P4 P5 P6 P7 P8 P9 P10 P11 P12 P13 P14 P15 P16 PM];
  pose proof (P3 Producer) as P3P; pose proof (P3 Consumer) as P3C;
  pose proof (P4 Producer) as P4P; pose proof (P4 Consumer) as P4C;
  pose proof (P5 Producer) as P5P; pose proof (P5 Consumer) as P5C;
  pose proof (P10 Producer) as P10P; pose proof (P10 Consumer) as P10C;
  pose proof (P11 Producer) as P11P; pose proof (P11 Consumer) as P11C;
  pose proof (P13 Producer) as P13P; pose proof (P13 Consumer) as P13C;
  pose proof (P14 Producer) as P14P; pose proof (P14 Consumer) as P14C;
  clear P3 P4 P5 P10 P11 P13 P14 PM;
  unfold log_ok, reports_ok, consumed, freed, num in *; cbn [peer] in *.

Ltac ghost_cbn :=
  cbn [eg ev etr ecur vals gpub gseen gphase gdrop gknow gdone with_pub with_vals
       with_phase with_drop with_seen upd peer mdropped add_msg set_hist set_mcells
       add_mdropped] in *.

(** Re-establish them after the side whose entry [HE] gives moved. *)
Ltac close_at HE :=
  unfold log_ok, reports_ok, consumed, freed, num;
  cbn [upd] in *; try rewrite HE in *; ghost_cbn;
  lazymatch goal with
  | |- ∀ _ : side, _ => intros []; cbn [upd peer]; try rewrite HE; ghost_cbn
  | |- _ => idtac
  end;
  try assumption; rewrite ?length_app; cbn [length]; try lia; try tauto.
Ltac close_inv s HE := destruct s; close_at HE.

(** A new last store in the history of a counter. *)
Lemma publish_history E E' m m' s h t k W :
  h !! t = None →
  gpub (eg (E s)) ≤ k → gpub (eg (E' s)) = k →
  covers s k W → (vw (cur (ev (E s))) (ctr s) < t)%nat → (t ≤ vw (cur (ev (E' s))) (ctr s))%nat →
  vle (cur (ev (E s))) (cur (ev (E' s))) →
  gseen (eg (E' (peer s))) = gseen (eg (E (peer s))) → gseen (eg (E (peer s))) ≤ k → 0 ≤ k →
  cur (ev (E' (peer s))) = cur (ev (E (peer s))) →
  ctr_inv s E m h → ctr_inv s E' m' (<[t := Msg k W]> h).
Proof.
  intros Hnew Hk Hp HW Hlt Hle Hg Hs Hsk H0 Hcp [].
  assert (Hold : ∀ t' x, h !! t' = Some x → (t' < t)%nat).
  { intros t' x Ht'. pose proof (ci_own0 t' (mk_is_Some _ _ Ht')). lia. }
  split; rewrite ?Hp, ?Hs, ?Hcp.
  - intros t' x [[<- <-]|[Hne Ht']]%lookup_insert_Some; simpl; [done|].
    destruct (ci_msg0 _ _ Ht'). split; [lia|done].
  - intros t1 x1 t2 x2 [[<- <-]|[Hne1 Ht1]]%lookup_insert_Some
      [[<- <-]|[Hne2 Ht2]]%lookup_insert_Some Hle12; simpl; try lia.
    + specialize (Hold _ _ Ht2). lia.
    + destruct (ci_msg0 _ _ Ht1). lia.
    + by eapply ci_mono0.
  - exists t, (Msg k W). by rewrite lookup_insert_eq.
  - intros t' [x [[<- <-]|[Hne Ht']]%lookup_insert_Some]; [done|].
    specialize (Hold _ _ Ht'). lia.
  - intros t' x [[<- <-]|[Hne Ht']]%lookup_insert_Some Hle'; simpl; [done|]. by eapply ci_peer0.
Qed.

(** Publishing everything this side did on its own counter. *)
Lemma publish_mem E m s g V tr c h t :
  SInv E m → E s = Ent g V tr c → gphase g = Open →
  hist m !! ctr s = Some h → h !! t = None → (vw (cur V) (ctr s) < t)%nat →
  mem_inv (upd s (Ent (with_pub g (num g)) (write_view (ctr s) t V) tr c) E)
       (add_msg (ctr s) t (Msg (num g) (released (ctr s) t Release V)) m).
Proof.
  intros HI HE Hopen Hh Hnew Hlt. set (E' := upd s _ E). set (m' := add_msg _ _ _ _).
  assert (Hf : ¬ freed E) by (eapply open_not_freed; [done|by rewrite Hopen]).
  pose proof (si_mem _ _ HI Hf) as HM.
  assert (HE' : E' s = Ent (with_pub g (num g)) (write_view (ctr s) t V) tr c) by apply upd_same.
  assert (HEp : E' (peer s) = E (peer s)) by apply upd_peer.
  assert (Hother : ∀ l, ctr s ≠ l → hist m' !! l = hist m !! l).
  { intros l Hl. by apply hist_add_other. }
  (* what is known of a side that is not open does not change *)
  assert (Hstable : ∀ s', gphase (eg (E s')) ≠ Open → s' = peer s).
  { intros s' Hs'. destruct (side_dec s s') as [-> |]; [|done]. rewrite HE in Hs'. done. }
  assert (Hknows : ∀ W, knows (peer s) m (eg (E (peer s))) W →
    knows (peer s) m' (eg (E' (peer s))) W).
  { intros W HW. eapply (knows_mono _ m); [exact HW|by rewrite HEp|apply Hother, ctr_peer_ne|done]. }
  assert (Hphase : ∀ s', gphase (eg (E' s')) = gphase (eg (E s'))).
  { intros s'. destruct (side_dec s s') as [-> | ->]; by rewrite ?HE', ?HEp, ?HE. }
  assert (Hcons : consumed E' = consumed E) by (unfold consumed; destruct s; cbn; by rewrite ?HE).
  assert (Hnum : ∀ s', num (eg (E' s')) = num (eg (E s'))).
  { intros s'. destruct (side_dec s s') as [-> | ->]; by rewrite ?HE', ?HEp, ?HE. }
  assert (Hvals : ∀ s', vals (eg (E' s')) = vals (eg (E s'))).
  { intros s'. destruct (side_dec s s') as [-> | ->]; by rewrite ?HE', ?HEp, ?HE. }
  assert (Hgrow : ∀ s', vle (cur (ev (E s'))) (cur (ev (E' s'))) ∧
    vle (acq (ev (E s'))) (acq (ev (E' s')))).
  { intros s'. destruct (side_dec s s') as [-> | ->]; rewrite ?HE', ?HEp, ?HE; [|done].
    apply write_view_grows. }
  destruct HM. split.
  - intros s'. destruct (side_dec s s') as [-> | ->].
    + exists (<[t := Msg (num g) (released (ctr s) t Release V)]> h).
      split; [by apply hist_add_same|]. destruct (mi_ctr0 s) as (h0 & Hh0 & Hc).
      rewrite Hh in Hh0. injection Hh0 as <-.
      eapply publish_history; [done|..|exact Hc]; rewrite ?HE', ?HEp, ?HE; try done.
      * pose proof (si_pub _ _ HI s) as Hp. by rewrite HE in Hp.
      * pose proof (mi_own0 s) as Ho. rewrite HE in Ho.
        eapply covers_mono; [exact Ho|simpl; lia|apply vle_set].
      * simpl. rewrite vw_set_same. lia.
      * apply vle_set.
      * pose proof (si_pub _ _ HI s) as Hp. rewrite HE in Hp. simpl in Hp.
        pose proof (si_seen _ _ HI (peer s)) as Hsn. rewrite peer_peer, HE in Hsn. simpl in Hsn. lia.
      * unfold num. lia.
    + destruct (mi_ctr0 (peer s)) as (h0 & Hh0 & Hc). exists h0.
      rewrite Hother by apply ctr_peer_ne. split; [done|].
      eapply (ctr_inv_frame E); [by rewrite HEp| |apply Hgrow..|exact Hc].
      rewrite peer_peer. by rewrite HE', HE.
  - rewrite Hother by apply ctr_ne_disc. destruct mi_disc0 as (h0 & Hh0 & Hd). exists h0.
    split; [done|]. eapply disc_inv_frame; [|exact Hd]. intros s' Hs'.
    pose proof (Hstable s' Hs') as ->. rewrite Hphase, Hvals. split_and!; [done..|].
    apply Hother, ctr_peer_ne.
  - rewrite Hother by apply ctr_ne_strong. destruct mi_strong0 as (h0 & Hh0 & Hd). exists h0.
    split; [done|]. eapply strong_inv_frame; [intros s'; by rewrite Hphase| |exact Hd].
    intros s' Hs'. rewrite Hvals. rewrite (Hstable s'); [|by intros He; rewrite He in Hs'].
    split; [done|]. apply Hother, ctr_peer_ne.
  - intros s'. rewrite Hother by apply ctr_ne_parked. done.
  - intros s'. rewrite Hnum. eapply covers_mono; [apply mi_own0|lia|apply Hgrow].
  - intros s'. eapply covers_mono; [apply mi_seen0| |apply Hgrow].
    destruct (side_dec s s') as [-> | ->]; by rewrite ?HE', ?HEp, ?HE.
  - intros s'. destruct (side_dec s s') as [-> | ->].
    + rewrite HE'. intros Hk. eapply knows_mono; [apply Hknows; apply mi_know0|done..|].
      * by rewrite HE.
      * rewrite <-(f_equal ev HE'). apply Hgrow.
    + rewrite HEp. intros Hk. pose proof (si_know _ _ HI _ Hk) as Hne.
      rewrite peer_peer, HE in Hne. done.
  - intros s'. rewrite Hphase. destruct (side_dec s s') as [-> | ->].
    + rewrite HE. simpl. by rewrite Hopen.
    + intros Hfr. pose proof (si_freeing _ _ HI _ Hfr) as [Hne _].
      rewrite peer_peer, HE in Hne. simpl in Hne. congruence.
  - intros q. rewrite Hcons, Hnum, Hvals. apply mi_full0.
  - intros q. rewrite Hcons, Hnum. apply mi_free0.
Qed.

Lemma publish E m s g V tr c h t :
  SInv E m → E s = Ent g V tr c → gphase g = Open →
  hist m !! ctr s = Some h → h !! t = None → (vw (cur V) (ctr s) < t)%nat →
  SInv (upd s (Ent (with_pub g (num g)) (write_view (ctr s) t V) tr c) E)
       (add_msg (ctr s) t (Msg (num g) (released (ctr s) t Release V)) m).
Proof.
  intros HI HE Hopen Hh Hnew Hlt. pose proof (publish_mem _ _ _ _ _ _ _ _ _ HI HE Hopen Hh Hnew Hlt).
  open_inv HI. split; [close_inv s HE..|by intros _].
Qed.

(** ** Cells *)

(** The frame of an access to a cell: the histories do not move, and the
    values of a side that is not open neither. *)
Lemma mem_inv_cells E m m' s g g' V V' tr c :
  SInv E m → E s = Ent g V tr c → ¬ freed E →
  vle (cur V) (cur V') → vle (acq V) (acq V') → hist m' = hist m →
  gpub g' = gpub g → gseen g' = gseen g → gphase g' = gphase g → gknow g' = gknow g →
  (gphase g ≠ Open → vals g' = vals g) → covers s (num g') (cur V') →
  let E' := upd s (Ent g' V' tr c) E in
  (∀ q, consumed E' ≤ q < num (eg (E' Producer)) →
    ∃ v, vals (eg (E' Producer)) !! Z.to_nat q = Some v ∧
         mcells m' !! cell q = Some (stamp Producer q, Some v)) →
  (∀ q, num (eg (E' Producer)) ≤ q < consumed E' + cap sh →
    mcells m' !! cell q = Some ((2 * round q)%nat, None)) →
  mem_inv E' m'.
Proof.
  intros HI HE Hf Hgc Hga Hh Hp Hs Hph Hk Hv Hown E' Hfull Hfree.
  pose proof (si_mem _ _ HI Hf) as HM.
  assert (HE' : E' s = Ent g' V' tr c) by apply upd_same.
  assert (HEp : E' (peer s) = E (peer s)) by apply upd_peer.
  assert (Hphase : ∀ s', gphase (eg (E' s')) = gphase (eg (E s'))).
  { intros s'. destruct (side_dec s s') as [-> | ->]; by rewrite ?HE', ?HEp, ?HE. }
  assert (Hgrow : ∀ s', vle (cur (ev (E s'))) (cur (ev (E' s'))) ∧
    vle (acq (ev (E s'))) (acq (ev (E' s')))).
  { intros s'. destruct (side_dec s s') as [-> | ->]; by rewrite ?HE', ?HEp, ?HE. }
  assert (Hvals : ∀ s', gphase (eg (E s')) ≠ Open → vals (eg (E' s')) = vals (eg (E s'))).
  { intros s'. destruct (side_dec s s') as [-> | ->]; rewrite ?HE', ?HEp, ?HE; [exact Hv|done]. }
  assert (Hseen : ∀ s', gseen (eg (E' s')) = gseen (eg (E s'))).
  { intros s'. destruct (side_dec s s') as [-> | ->]; by rewrite ?HE', ?HEp, ?HE. }
  assert (Hpub : ∀ s', gpub (eg (E' s')) = gpub (eg (E s'))).
  { intros s'. destruct (side_dec s s') as [-> | ->]; by rewrite ?HE', ?HEp, ?HE. }
  assert (Hknow : ∀ s', gknow (eg (E' s')) = gknow (eg (E s'))).
  { intros s'. destruct (side_dec s s') as [-> | ->]; by rewrite ?HE', ?HEp, ?HE. }
  assert (Hknows : ∀ s' W W', gphase (eg (E s')) ≠ Open → vle W W' →
    knows s' m (eg (E s')) W → knows s' m' (eg (E' s')) W').
  { intros s' W W' Hne HW Hkn. eapply (knows_mono _ m); [exact Hkn|by apply Hvals|by rewrite Hh|done]. }
  split.
  - intros s'. destruct (mi_ctr _ _ HM s') as (h & Hh' & Hc). exists h. rewrite Hh.
    split; [done|]. eapply (ctr_inv_frame E); [apply Hpub|apply Hseen|apply Hgrow..|done].
  - destruct (mi_disc _ _ HM) as (h & Hh' & Hd). exists h. rewrite Hh. split; [done|].
    eapply disc_inv_frame; [|done]. intros s' Hs'. rewrite Hphase, Hh. auto.
  - destruct (mi_strong _ _ HM) as (h & Hh' & Hd). exists h. rewrite Hh. split; [done|].
    eapply strong_inv_frame; [intros s'; by rewrite Hphase| |done].
    intros s' Hs'. rewrite Hh. split; [|done]. apply Hvals. intros He. by rewrite He in Hs'.
  - intros s'. rewrite Hh. apply HM.
  - intros s'. destruct (side_dec s s') as [-> | ->]; rewrite ?HE', ?HEp; [done|apply HM].
  - intros s'. rewrite Hseen. eapply covers_mono; [apply (mi_seen _ _ HM)|lia|apply Hgrow].
  - intros s'. rewrite Hknow. intros Hk'. eapply Hknows; [by apply (si_know _ _ HI)|apply Hgrow|].
    by apply (mi_know _ _ HM).
  - intros s'. rewrite Hphase. intros Hfr.
    eapply Hknows; [by rewrite (proj1 (si_freeing _ _ HI _ Hfr))| |by apply (mi_freeing _ _ HM)].
    intros l. rewrite !vw_join. destruct (Hgrow s') as [H1 H2].
    specialize (H1 l). specialize (H2 l). lia.
  - exact Hfull.
  - exact Hfree.
Qed.

Hypothesis Hok : ring_ok (cap sh) (mask sh) (buf_len sh).

Lemma round_add_cap q : 0 ≤ q → round (q + cap sh) = S (round q).
Proof using Hok.
  intros Hq. pose proof (cap_pos Hok). unfold round. rewrite div_add_1 by done.
  rewrite Z2Nat.inj_add; [simpl; lia|by apply Z.div_pos|lia].
Qed.

Lemma round_small q : 0 ≤ q < cap sh → round q = 0%nat.
Proof using Type. intros. unfold round. by rewrite Z.div_small. Qed.

Lemma cell_add_cap q : cell (q + cap sh) = cell q.
Proof using Hok. unfold cell. by rewrite (slot_of_add_cap Hok). Qed.

Lemma cell_inj q q' : - cap sh < q - q' < cap sh → cell q = cell q' → q = q'.
Proof using Hok. intros Hw [= Heq]. by apply (slot_of_inj Hok) in Heq. Qed.

(** The cell the producer is about to write is empty, and it is past the last
    access of that cell. *)
Lemma write_ready E m g V tr c :
  SInv E m → E Producer = Ent g V tr c → gphase g = Open → num g < gseen g + cap sh →
  mcells m !! cell (num g) = Some ((2 * round (num g))%nat, None) ∧
  (2 * round (num g) ≤ vw (cur V) (cell (num g)))%nat.
Proof using Hok.
  intros HI HE Hopen Hroom.
  assert (Hf : ¬ freed E) by (eapply open_not_freed; [done|by rewrite Hopen]).
  pose proof (si_mem _ _ HI Hf) as HM. pose proof (cap_pos Hok).
  pose proof (si_seen _ _ HI Producer) as Hseen. pose proof (si_pub _ _ HI Consumer) as Hpub.
  rewrite HE in Hseen. simpl in Hseen.
  assert (0 ≤ num g) by (unfold num; lia). split.
  - apply (mi_free _ _ HM). rewrite HE. simpl. unfold consumed. lia.
  - destruct (Z.lt_ge_cases (num g) (cap sh)) as [Hlt|Hge].
    + rewrite round_small by lia. lia.
    + pose proof (mi_seen _ _ HM Producer) as Hcov. rewrite HE in Hcov. simpl in Hcov.
      specialize (Hcov (num g - cap sh) ltac:(lia)). unfold stamp in Hcov.
      rewrite <-cell_add_cap in Hcov. pose proof (round_add_cap (num g - cap sh) ltac:(lia)) as Hr.
      replace (num g - cap sh + cap sh) with (num g) in * by lia. lia.
Qed.

(** Writing it. *)
Lemma write_cell_inv E m g V tr c v :
  SInv E m → E Producer = Ent g V tr (Some c) → gphase g = Open →
  num g < gseen g + cap sh → num g < usize_max →
  vals g = accepted tr → offered c = [v] →
  let s := S (2 * round (num g)) in
  SInv (upd Producer (Ent (with_vals g (vals g ++ [v])) (write_view (cell (num g)) s V) tr (Some c)) E)
       (set_mcells <[cell (num g) := (s, Some v)]> m).
Proof using Hok.
  intros HI HE Hopen Hroom Hmax Hacc Hoff s.
  assert (Hf : ¬ freed E) by (eapply open_not_freed; [done|by rewrite Hopen]).
  pose proof (si_mem _ _ HI Hf) as HM. pose proof (cap_pos Hok).
  destruct (write_view_grows (cell (num g)) s V) as [Hg1 Hg2].
  assert (Hnum : num (with_vals g (vals g ++ [v])) = num g + 1)
    by (unfold num; simpl; rewrite length_app; simpl; lia).
  pose proof (si_consumed _ _ HI) as Hcons. pose proof (si_pub _ _ HI Producer) as Hpub.
  rewrite HE in Hcons, Hpub. simpl in Hcons, Hpub.
  assert (gseen g ≤ consumed E) as Hsc.
  { pose proof (si_seen _ _ HI Producer) as Hs. pose proof (si_pub _ _ HI Consumer).
    rewrite HE in Hs. simpl in Hs. unfold consumed. lia. }
  assert (mem_inv (upd Producer (Ent (with_vals g (vals g ++ [v]))
    (write_view (cell (num g)) s V) tr (Some c)) E) (set_mcells <[cell (num g) := (s, Some v)]> m)).
  { eapply (mem_inv_cells E m _ Producer g); try done.
    - rewrite Hnum. intros q Hq. destruct (decide (q = num g)) as [->|Hne].
      + simpl. rewrite vw_set_same. unfold stamp. lia.
      + pose proof (mi_own _ _ HM Producer) as Hown. rewrite HE in Hown.
        specialize (Hown q ltac:(simpl; lia)). simpl in *. specialize (Hg1 (cell q)).
        simpl in Hg1. lia.
    - rewrite upd_same. intros q Hq. simpl in Hq. rewrite Hnum in Hq.
      assert (consumed (upd Producer (Ent (with_vals g (vals g ++ [v]))
        (write_view (cell (num g)) s V) tr (Some c)) E) = consumed E) as Hce
        by (unfold consumed; cbn; by rewrite HE).
      rewrite Hce in Hq. simpl. unfold consumed in *. destruct (decide (q = num g)) as [->|Hne].
      + exists v. split; [|by rewrite lookup_insert_eq; do 2 f_equal; unfold stamp, s; lia].
        unfold num. rewrite Nat2Z.id. by apply list_lookup_middle.
      + rewrite lookup_insert_ne; [|intros Heq%cell_inj; lia].
        destruct (mi_full _ _ HM q) as (w & Hw & Hcell); [rewrite HE; unfold consumed; simpl; lia|].
        rewrite HE in Hw. simpl in Hw. exists w. split; [|done]. by apply lookup_app_l_Some.
    - rewrite upd_same. intros q Hq. simpl in Hq. rewrite Hnum in Hq.
      assert (consumed (upd Producer (Ent (with_vals g (vals g ++ [v]))
        (write_view (cell (num g)) s V) tr (Some c)) E) = consumed E) as Hce
        by (unfold consumed; cbn; by rewrite HE).
      rewrite Hce in Hq. simpl. rewrite lookup_insert_ne; [|intros Heq%cell_inj; lia].
      apply (mi_free _ _ HM). rewrite HE. simpl. lia. }
  open_inv HI. split; [close_at HE..|by intros _].
  - by apply prefix_app_r.
  - rewrite Hacc, Hoff. split; [|apply P15]. split; [by apply prefix_app_r|done].
Qed.

(** The cell the consumer is about to read is full, and it is past its write. *)
Lemma read_ready E m g V tr c :
  SInv E m → E Consumer = Ent g V tr c → gphase g = Open → num g < gseen g →
  ∃ v, vals (eg (E Producer)) !! Z.to_nat (num g) = Some v ∧
       mcells m !! cell (num g) = Some (stamp Producer (num g), Some v) ∧
       (stamp Producer (num g) ≤ vw (cur V) (cell (num g)))%nat.
Proof using Type.
  intros HI HE Hopen Hlt.
  assert (Hf : ¬ freed E) by (eapply open_not_freed; [done|by rewrite Hopen]).
  pose proof (si_mem _ _ HI Hf) as HM.
  pose proof (si_seen _ _ HI Consumer) as Hseen. pose proof (si_pub _ _ HI Producer) as Hpub.
  pose proof (si_nodrop _ _ HI Consumer) as Hnd. rewrite HE in *. simpl in *.
  rewrite Hopen in Hnd. destruct (Hnd eq_refl) as [Hd1 Hd2].
  assert (consumed E = num g) as Hcons
    by (unfold consumed; rewrite Hd1, HE; simpl; rewrite Hd2; simpl; lia).
  destruct (mi_full _ _ HM (num g)) as (v & Hv & Hcell); [lia|].
  exists v. split_and!; [done|done|].
  pose proof (mi_seen _ _ HM Consumer) as Hcov. rewrite HE in Hcov. apply Hcov. simpl.
  unfold num in *. lia.
Qed.

(** How the windows of full and empty cells move when one more value leaves. *)
Lemma windows_take E m q s v :
  mem_inv E m → q = consumed E → q < num (eg (E Producer)) →
  s = stamp Consumer q →
  num (eg (E Producer)) ≤ q + cap sh →
  (∀ q', q + 1 ≤ q' < num (eg (E Producer)) →
    ∃ w, vals (eg (E Producer)) !! Z.to_nat q' = Some w ∧
      <[cell q := (s, v)]> (mcells m) !! cell q' = Some (stamp Producer q', Some w)) ∧
  (v = None → ∀ q', num (eg (E Producer)) ≤ q' < q + 1 + cap sh →
    <[cell q := (s, v)]> (mcells m) !! cell q' = Some ((2 * round q')%nat, None)).
Proof using Hok.
  intros HM Hq Hlt Hs Hroom. assert (0 ≤ q) by (unfold consumed, num in Hq; lia).
  pose proof (cap_pos Hok). split.
  - intros q' Hq'. rewrite lookup_insert_ne; [|intros Heq%cell_inj; lia].
    apply (mi_full _ _ HM). lia.
  - intros -> q' Hq'. destruct (decide (q' = q + cap sh)) as [->|Hne].
    + rewrite cell_add_cap, lookup_insert_eq, round_add_cap, Hs by done. unfold stamp. do 2 f_equal. lia.
    + rewrite lookup_insert_ne; [apply (mi_free _ _ HM); lia|].
      rewrite <-(cell_add_cap q). intros Heq%cell_inj; lia.
Qed.

(** Reading it. *)
Lemma read_cell_inv E m g V tr c v :
  SInv E m → E Consumer = Ent g V tr (Some c) → gphase g = Open → num g < gseen g →
  vals (eg (E Producer)) !! Z.to_nat (num g) = Some v →
  let s := S (stamp Producer (num g)) in
  SInv (upd Consumer (Ent (with_vals g (vals g ++ [v])) (write_view (cell (num g)) s V) tr (Some c)) E)
       (set_mcells <[cell (num g) := (s, None)]> m).
Proof using Hok.
  intros HI HE Hopen Hlt Hv s.
  assert (Hf : ¬ freed E) by (eapply open_not_freed; [done|by rewrite Hopen]).
  pose proof (si_mem _ _ HI Hf) as HM.
  destruct (write_view_grows (cell (num g)) s V) as [Hg1 Hg2].
  pose proof (si_nodrop _ _ HI Consumer) as Hnd. rewrite HE in Hnd. simpl in Hnd.
  rewrite Hopen in Hnd. destruct (Hnd eq_refl) as [Hd1 Hd2].
  assert (consumed E = num g) as Hcons
    by (unfold consumed; rewrite Hd1, HE; simpl; rewrite Hd2; simpl; lia).
  assert (Hnum : num (with_vals g (vals g ++ [v])) = num g + 1)
    by (unfold num; simpl; rewrite length_app; simpl; lia).
  set (E' := upd Consumer _ E).
  assert (Hcons' : consumed E' = num g + 1).
  { unfold consumed, E'. cbn [upd eg]. rewrite Hnum, Hd1. simpl. rewrite Hd2. simpl. lia. }
  pose proof (si_seen _ _ HI Consumer) as Hseen. pose proof (si_pub _ _ HI Producer) as Hpub.
  pose proof (si_room _ _ HI) as Hroom. pose proof (si_seen _ _ HI Producer) as HseenP.
  pose proof (si_pub _ _ HI Consumer) as HpubC. rewrite HE in *. simpl in *.
  destruct (windows_take E m (num g) s None HM) as [Hfull Hfree];
    [done|lia|unfold s, stamp; lia|rewrite HE in *; simpl in *; lia|].
  assert (mem_inv E' (set_mcells <[cell (num g) := (s, None)]> m)).
  { eapply (mem_inv_cells E m _ Consumer g); try done.
    - rewrite Hnum. intros q Hq. destruct (decide (q = num g)) as [->|Hne].
      + simpl. rewrite vw_set_same. unfold s, stamp. lia.
      + pose proof (mi_own _ _ HM Consumer) as Hown. rewrite HE in Hown.
        specialize (Hown q ltac:(simpl; lia)). simpl in *. specialize (Hg1 (cell q)).
        simpl in Hg1. lia.
    - fold E'. rewrite Hcons'. apply Hfull.
    - fold E'. rewrite Hcons'. by apply Hfree. }
  subst E'. open_inv HI. split; [close_at HE..|by intros _].
  - rewrite Hd1, Hd2, !app_nil_r in *. apply prefix_snoc; [done|].
    by rewrite Nat2Z.id in Hv.
  - split; [apply P15|]. destruct P15 as [_ Hr]. by apply prefix_app_r.
  - split; [apply P16|]. intros Hsaw. destruct (proj2 P16 Hsaw). lia.
Qed.

(** ** Closing and releasing *)

(** The frame of an update of the disconnect flag or of the reference count:
    the counters and the cells do not move, and nobody reopens. *)
Lemma mem_inv_phase E m m' s g V V' tr c p hd hs :
  SInv E m → E s = Ent g V tr c → ¬ freed E →
  vle (cur V) (cur V') → vle (acq V) (acq V') →
  gphase g ≠ Freeing → p ≠ Open →
  (∀ s', hist m' !! ctr s' = hist m !! ctr s') →
  (∀ s', hist m' !! Loc (sh_ring sh) (Parked s') = hist m !! Loc (sh_ring sh) (Parked s')) →
  mcells m' = mcells m →
  let E' := upd s (Ent (with_phase g p) V' tr c) E in
  hist m' !! disconnected sh = Some hd → disc_inv E' m' hd →
  hist m' !! strong sh = Some hs → strong_inv E' m' hs →
  (p = Freeing → knows (peer s) m (eg (E (peer s))) (vjoin (cur V') (acq V'))) →
  (gphase (eg (E (peer s))) = Freeing → gphase g = Gone) →
  mem_inv E' m'.
Proof using Type.
  intros HI HE Hf Hgc Hga Hnf Hp Hctr Hpark Hcells E' Hdh Hdi Hsh Hsi Hfr Hpf.
  pose proof (si_mem _ _ HI Hf) as HM.
  assert (HE' : E' s = Ent (with_phase g p) V' tr c) by apply upd_same.
  assert (HEp : E' (peer s) = E (peer s)) by apply upd_peer.
  assert (Hgrow : ∀ s', vle (cur (ev (E s'))) (cur (ev (E' s'))) ∧
    vle (acq (ev (E s'))) (acq (ev (E' s')))).
  { intros s'. destruct (side_dec s s') as [-> | ->]; by rewrite ?HE', ?HEp, ?HE. }
  assert (Hvals : ∀ s', vals (eg (E' s')) = vals (eg (E s'))).
  { intros s'. destruct (side_dec s s') as [-> | ->]; by rewrite ?HE', ?HEp, ?HE. }
  assert (Hnum : ∀ s', num (eg (E' s')) = num (eg (E s'))) by (intros; unfold num; by rewrite Hvals).
  assert (Hdrop : ∀ s', gdrop (eg (E' s')) = gdrop (eg (E s'))).
  { intros s'. destruct (side_dec s s') as [-> | ->]; by rewrite ?HE', ?HEp, ?HE. }
  assert (Hseen : ∀ s', gseen (eg (E' s')) = gseen (eg (E s'))).
  { intros s'. destruct (side_dec s s') as [-> | ->]; by rewrite ?HE', ?HEp, ?HE. }
  assert (Hpub : ∀ s', gpub (eg (E' s')) = gpub (eg (E s'))).
  { intros s'. destruct (side_dec s s') as [-> | ->]; by rewrite ?HE', ?HEp, ?HE. }
  assert (Hknow : ∀ s', gknow (eg (E' s')) = gknow (eg (E s'))).
  { intros s'. destruct (side_dec s s') as [-> | ->]; by rewrite ?HE', ?HEp, ?HE. }
  assert (Hcons : consumed E' = consumed E) by (unfold consumed; by rewrite Hnum, !Hdrop).
  assert (Hknows : ∀ s' W W', vle W W' →
    knows s' m (eg (E s')) W → knows s' m' (eg (E' s')) W').
  { intros s' W W' HW Hkn. eapply (knows_mono _ m); [exact Hkn|apply Hvals|by rewrite Hctr|done]. }
  split.
  - intros s'. destruct (mi_ctr _ _ HM s') as (h & Hh' & Hc). exists h. rewrite Hctr.
    split; [done|]. eapply (ctr_inv_frame E); [apply Hpub|apply Hseen|apply Hgrow..|done].
  - by exists hd.
  - by exists hs.
  - intros s'. rewrite Hpark. apply HM.
  - intros s'. rewrite Hnum. eapply covers_mono; [apply (mi_own _ _ HM)|lia|apply Hgrow].
  - intros s'. rewrite Hseen. eapply covers_mono; [apply (mi_seen _ _ HM)|lia|apply Hgrow].
  - intros s'. rewrite Hknow. intros Hk'. eapply Hknows; [apply Hgrow|].
    by apply (mi_know _ _ HM).
  - intros s'. destruct (side_dec s s') as [-> | ->].
    + rewrite HE'. simpl. intros Hp'. eapply Hknows; [|by apply Hfr]. done.
    + rewrite HEp. intros Hp'. eapply Hknows; [|by apply (mi_freeing _ _ HM)].
      done.
  - intros q. rewrite Hcons, Hnum, Hvals, Hcells. apply HM.
  - intros q. rewrite Hcons, Hnum, Hcells. apply HM.
Qed.

(** Storing [true] to the disconnect flag. *)
Lemma close_inv_ok E m s g V tr c h t :
  SInv E m → E s = Ent g V tr c → gphase g = Open → gpub g = num g →
  hist m !! disconnected sh = Some h → h !! t = None →
  (vw (cur V) (disconnected sh) < t)%nat →
  SInv (upd s (Ent (with_phase g Closed) (write_view (disconnected sh) t V) tr c) E)
       (add_msg (disconnected sh) t (Msg 1 (released (disconnected sh) t Release V)) m).
Proof using Type.
  intros HI HE Hopen Hpub Hh Hnew Hlt.
  assert (Hf : ¬ freed E) by (eapply open_not_freed; [done|by rewrite Hopen]).
  pose proof (si_mem _ _ HI Hf) as HM.
  destruct (write_view_grows (disconnected sh) t V) as [Hg1 Hg2].
  set (m' := add_msg _ _ _ m). set (E' := upd s _ E).
  assert (HE' : E' s = Ent (with_phase g Closed) (write_view (disconnected sh) t V) tr c)
    by apply upd_same.
  assert (HEp : E' (peer s) = E (peer s)) by apply upd_peer.
  assert (Hctr : ∀ s', hist m' !! ctr s' = hist m !! ctr s').
  { intros s'. apply hist_add_other. intros He. by apply (ctr_ne_disc s'). }
  assert (Hvals : ∀ s', vals (eg (E' s')) = vals (eg (E s'))).
  { intros s'. destruct (side_dec s s') as [-> | ->]; by rewrite ?HE', ?HEp, ?HE. }
  assert (mem_inv E' m').
  { destruct (mi_disc _ _ HM) as (hd & Hhd & Hd). rewrite Hh in Hhd. injection Hhd as <-.
    destruct (mi_strong _ _ HM) as (hs & Hhs & Hs).
    eapply (mem_inv_phase E m m' s g V _ tr c Closed); try done.
    - by rewrite Hopen.
    - intros s'. apply hist_add_other. loc_ne.
    - by apply hist_add_same.
    - intros t' x [[<- <-]|[Hne Ht']]%lookup_insert_Some; simpl.
      + right. split; [done|]. exists s. fold E'. rewrite HE'. split; [done|].
        split; [|intros h' Hh'].
        * pose proof (mi_own _ _ HM s) as Ho. rewrite HE in Ho.
          eapply covers_mono; [exact Ho|unfold num; simpl; lia|apply vle_set].
        * rewrite Hctr in Hh'. destruct (mi_ctr _ _ HM s) as (h2 & Hh2 & Hc).
          rewrite Hh' in Hh2. injection Hh2 as <-. pose proof (ci_own _ _ _ _ Hc) as Hown.
          rewrite HE in Hown. eapply final_mono; [exact Hown|apply vle_set].
      + eapply (disc_inv_frame E E' m m' h); [|exact Hd|exact Ht'].
        intros s' Hs'. split_and!; [|apply Hvals|apply Hctr].
        destruct (side_dec s s') as [-> | ->]; by rewrite ?HE', ?HEp.
    - rewrite <-Hhs. apply hist_add_other. loc_ne.
    - eapply (strong_inv_frame E); [| |exact Hs].
      + intros s'. fold E'. destruct (side_dec s s') as [-> | ->]; rewrite ?HE', ?HEp, ?HE; [|done].
        simpl. by rewrite Hopen.
      + intros s' _. split; [apply Hvals|apply Hctr].
    - intros Hfr. pose proof (si_freeing _ _ HI _ Hfr) as [Hne _]. by rewrite peer_peer, HE in Hne. }
  subst E' m'. open_inv HI. split; [close_inv s HE..|by intros _].
  all: rewrite Hopen in *; cbn [is_gone] in *; intuition congruence.
Qed.

(** A release of the [Arc] reads the last update of the count. *)
Lemma strong_last E m s g V tr c h t x :
  SInv E m → E s = Ent g V tr c → gphase g = Closed →
  hist m !! strong sh = Some h → h !! t = Some x → h !! S t = None →
  (∀ t', is_Some (h !! t') ↔ (t' ≤ t)%nat) ∧
  mval x = 1 + Z.b2z (negb (is_gone (gphase (eg (E (peer s)))))) ∧
  (is_gone (gphase (eg (E (peer s)))) = true →
     gphase (eg (E (peer s))) = Gone ∧ knows (peer s) m (eg (E (peer s))) (mview x)).
Proof using Type.
  intros HI HE Hph Hh Ht Hnext.
  assert (Hf : ¬ freed E) by (eapply open_not_freed; [done|by rewrite Hph]).
  destruct (mi_strong _ _ (si_mem _ _ HI Hf)) as (h' & Hh' & n & y & Hdom & Hn & Hv & Hk).
  rewrite Hh in Hh'. injection Hh' as <-.
  assert (t = n) as ->.
  { pose proof (proj1 (Hdom t) (mk_is_Some _ _ Ht)). destruct (decide (t = n)); [done|].
    destruct (proj2 (Hdom (S t)) ltac:(lia)) as [z Hz]. congruence. }
  rewrite Ht in Hn. injection Hn as <-. split_and!; [done| |].
  - rewrite Hv. unfold refs. destruct s; rewrite HE; simpl; rewrite Hph; simpl; lia.
  - intros Hg. split; [|by apply Hk]. destruct (gphase (eg (E (peer s)))) eqn:Hp; try done.
    pose proof (si_freeing _ _ HI _ Hp) as [Hne _]. rewrite peer_peer, HE in Hne.
    simpl in Hne. congruence.
Qed.

Definition release_phase (n : Z) : phase := if n =? 1 then Freeing else Gone.

(** Releasing the reference. *)
Lemma release_inv E m s g V tr c h t x f :
  SInv E m → E s = Ent g V tr c → gphase g = Closed →
  hist m !! strong sh = Some h → h !! t = Some x → h !! S t = None →
  f (mval x) = mval x - 1 →
  let V1 := read_view (strong sh) t Release x V in
  SInv (upd s (Ent (with_phase g (release_phase (mval x))) (write_view (strong sh) (S t) V1) tr c) E)
       (add_msg (strong sh) (S t)
          (Msg (f (mval x)) (vjoin (mview x) (released (strong sh) (S t) Release V1))) m).
Proof using Type.
  intros HI HE Hph Hh Ht Hnext Hfx V1.
  assert (Hf : ¬ freed E) by (eapply open_not_freed; [done|by rewrite Hph]).
  pose proof (si_mem _ _ HI Hf) as HM.
  destruct (strong_last _ _ _ _ _ _ _ _ _ _ HI HE Hph Hh Ht Hnext) as (Hdom & Hv & Hgone).
  destruct (read_view_grows (strong sh) t Release x V) as [Hg1 Hg2].
  destruct (write_view_grows (strong sh) (S t) V1) as [Hg3 Hg4].
  set (V' := write_view (strong sh) (S t) V1) in *. set (m' := add_msg _ _ _ m).
  set (E' := upd s _ E).
  assert (HE' : E' s = Ent (with_phase g (release_phase (mval x))) V' tr c) by apply upd_same.
  assert (HEp : E' (peer s) = E (peer s)) by apply upd_peer.
  assert (Hctr : ∀ s', hist m' !! ctr s' = hist m !! ctr s').
  { intros s'. apply hist_add_other. intros He. by apply (ctr_ne_strong s'). }
  assert (Hvals : ∀ s', vals (eg (E' s')) = vals (eg (E s'))).
  { intros s'. destruct (side_dec s s') as [-> | ->]; by rewrite ?HE', ?HEp, ?HE. }
  assert (Hrel : is_gone (release_phase (mval x)) = true)
    by (unfold release_phase; by destruct (mval x =? 1)).
  assert (mem_inv E' m').
  { destruct (mi_disc _ _ HM) as (hd & Hhd & Hd).
    eapply (mem_inv_phase E m m' s g V V' tr c (release_phase (mval x))); try done.
    - by etrans.
    - by rewrite Hph.
    - unfold release_phase. by destruct (mval x =? 1).
    - intros s'. apply hist_add_other. loc_ne.
    - rewrite <-Hhd. apply hist_add_other. loc_ne.
    - eapply (disc_inv_frame E E'); [|exact Hd].
      intros s' Hs'. split_and!; [|apply Hvals|apply Hctr].
      destruct (side_dec s s') as [-> | ->]; rewrite ?HE', ?HEp; [|done]. simpl.
      intros Ho. by rewrite Ho in Hrel.
    - by apply hist_add_same.
    - exists (S t). eexists. split_and!; [|by rewrite lookup_insert_eq|..].
      + intros t'. destruct (decide (t' = S t)) as [->|Hne].
        * rewrite lookup_insert_eq. split; [lia|by eexists].
        * rewrite lookup_insert_ne, Hdom by done. lia.
      + simpl. rewrite Hfx. change (mval x - 1 = refs E'). rewrite Hv.
        unfold refs. destruct s; cbn [peer] in HEp; rewrite HE', HEp; simpl; rewrite Hrel; simpl; lia.
      + simpl. intros s' Hs'. change (is_gone (gphase (eg (E' s'))) = true) in Hs'.
        change (knows s' m' (eg (E' s')) (vjoin (mview x) (released (strong sh) (S t) Release V1))).
        destruct (side_dec s s') as [-> | ->].
        * rewrite HE'. split; [|intros h' Hh'].
          -- pose proof (mi_own _ _ HM s) as Ho. rewrite HE in Ho.
             eapply covers_mono; [exact Ho|done|]. etrans; [exact Hg1|].
             etrans; [apply vle_set|apply vle_join_r].
          -- rewrite Hctr in Hh'. destruct (mi_ctr _ _ HM s) as (h2 & Hh2 & Hc).
             rewrite Hh' in Hh2. injection Hh2 as <-. pose proof (ci_own _ _ _ _ Hc) as Hown.
             rewrite HE in Hown. eapply final_mono; [exact Hown|]. etrans; [exact Hg1|].
             etrans; [apply vle_set|apply vle_join_r].
        * rewrite HEp in Hs' |- *. destruct (Hgone Hs') as [_ Hk].
          eapply (knows_mono _ m); [exact Hk|done|apply Hctr|apply vle_join_l].
    - unfold release_phase. destruct (Z.eqb_spec (mval x) 1) as [Hone|]; [|done]. intros _.
      destruct (is_gone (gphase (eg (E (peer s))))) eqn:Hg; [|simpl in Hv; lia].
      destruct (Hgone eq_refl) as [_ Hk].
      eapply (knows_mono _ m); [exact Hk|done..|].
      etrans; [|apply vle_join_r]. etrans; [|exact Hg4]. apply vle_join_r.
    - intros Hfr. rewrite Hfr in Hgone. destruct (Hgone eq_refl). congruence. }
  assert (Hpeer : release_phase (mval x) = Freeing → gphase (eg (E (peer s))) = Gone).
  { unfold release_phase. destruct (Z.eqb_spec (mval x) 1) as [Hone|]; [|done]. intros _.
    apply Hgone. destruct (is_gone _) eqn:Hg; [done|]. simpl in Hv. lia. }
  assert (Hnotfreed : release_phase (mval x) = Gone → gphase (eg (E (peer s))) ≠ Gone).
  { unfold release_phase. destruct (Z.eqb_spec (mval x) 1) as [Hone|]; [done|]. intros _ Hg.
    rewrite Hg in Hv. simpl in Hv. lia. }
  subst E' m'. open_inv HI. split; [close_inv s HE..|by intros _].
  all: assert (release_phase (mval x) ≠ Open)
    by (unfold release_phase; by destruct (mval x =? 1)).
  all: rewrite Hph in *; cbn [is_gone peer] in *; intuition congruence.
Qed.

(** The acquire fence of the last release. *)
Lemma fence_know E m s g V tr c :
  SInv E m → E s = Ent g V tr c → gphase g = Freeing →
  SInv (upd s (Ent (with_know g) (acquire_fence V) tr c) E) m.
Proof using Type.
  intros HI HE Hph.
  assert (Hf : ¬ freed E) by (eapply open_not_freed; [done|by rewrite Hph]).
  pose proof (SInv_noise E m m s g V tr c (acquire_fence V) HI HE (vle_join_l _ _)
    (reflexivity _) (same_mem_refl m)) as HI'.
  pose proof (si_freeing _ _ HI s) as Hfr. rewrite HE in Hfr. destruct (Hfr Hph) as [Hpg _].
  pose proof (mi_freeing _ _ (si_mem _ _ HI Hf) s) as Hk. rewrite HE in Hk. specialize (Hk Hph).
  eapply (SInv_ext (upd s _ (upd s _ E))); [intros s'; apply upd_upd|].
  eapply (SInv_observed _ _ _ g); [exact HI'|by rewrite upd_same|done..| |done|done| | |].
  - rewrite upd_peer. pose proof (si_seen _ _ HI s) as Hs. rewrite HE in Hs. simpl in *. lia.
  - rewrite upd_peer. intros _. by rewrite Hpg.
  - rewrite upd_peer. pose proof (si_done _ _ HI s) as Hd'. by rewrite HE in Hd'.
  - intros Hf'. rewrite upd_peer. split; [|intros _; exact Hk].
    pose proof (si_mem _ _ HI' Hf') as HM'. split; simpl.
    + pose proof (mi_seen _ _ HM' s) as Hsn. by rewrite upd_same in Hsn |- *.
    + intros h2 t2 x2 Hh2 Ht2 Hle2. destruct (mi_ctr _ _ HM' (peer s)) as (h3 & Hh3 & Hc3).
      rewrite Hh2 in Hh3. injection Hh3 as <-.
      pose proof (ci_peer _ _ _ _ Hc3 t2 x2 Ht2) as Hp. rewrite peer_peer, upd_same in Hp.
      rewrite upd_same in Hle2. auto.
Qed.

(** In the final drop both counters read as what was really done. *)
Lemma own_counter E m s g V tr c h t x :
  SInv E m → E s = Ent g V tr c → gphase g ≠ Gone →
  hist m !! ctr s = Some h → h !! t = Some x → (vw (cur V) (ctr s) ≤ t)%nat →
  mval x = gpub g.
Proof using Type.
  intros HI HE Hph Hh Ht Hle.
  assert (Hf : ¬ freed E) by (by eapply open_not_freed).
  destruct (mi_ctr _ _ (si_mem _ _ HI Hf) s) as (h' & Hh' & Hc). rewrite Hh in Hh'.
  injection Hh' as <-. destruct (ci_last _ _ _ _ Hc) as (t0 & x0 & Ht0 & Hx0).
  pose proof (ci_own _ _ _ _ Hc t0 (mk_is_Some _ _ Ht0)) as H0. rewrite HE in *. simpl in *.
  pose proof (ci_mono _ _ _ _ Hc _ _ _ _ Ht0 Ht ltac:(lia)).
  pose proof (ci_msg _ _ _ _ Hc _ _ Ht) as [? _]. rewrite HE in *. simpl in *. lia.
Qed.

(** The oldest remaining value, in the final drop. *)
Lemma drop_ready E m s g V tr c :
  SInv E m → E s = Ent g V tr c → gphase g = Freeing → gknow g = true →
  consumed E < num (eg (E Producer)) →
  ∃ v, vals (eg (E Producer)) !! Z.to_nat (consumed E) = Some v ∧
       mcells m !! cell (consumed E) = Some (stamp Producer (consumed E), Some v) ∧
       (stamp Producer (consumed E) ≤ vw (cur V) (cell (consumed E)))%nat.
Proof using Type.
  intros HI HE Hph Hk Hlt.
  assert (Hf : ¬ freed E) by (eapply open_not_freed; [done|by rewrite Hph]).
  pose proof (si_mem _ _ HI Hf) as HM.
  destruct (mi_full _ _ HM (consumed E)) as (v & Hv & Hcell); [lia|].
  exists v. split_and!; [done|done|].
  assert (covers Producer (num (eg (E Producer))) (cur V)) as Hcov.
  { destruct s.
    - pose proof (mi_know _ _ HM Consumer) as Hkn. rewrite HE in Hkn. by apply Hkn.
    - pose proof (mi_own _ _ HM Producer) as Ho. by rewrite HE in Ho |- *. }
  apply Hcov. unfold consumed, num in *. lia.
Qed.

Lemma drop_cell_inv E m s g V tr c v :
  SInv E m → E s = Ent g V tr c → gphase g = Freeing → gknow g = true →
  consumed E < num (eg (E Producer)) →
  vals (eg (E Producer)) !! Z.to_nat (consumed E) = Some v →
  let q := consumed E in let k := S (stamp Producer q) in
  SInv (upd s (Ent (with_drop g (gdrop g ++ [v])) (write_view (cell q) k V) tr c) E)
       (add_mdropped v (set_mcells <[cell q := (k, None)]> m)).
Proof using Hok.
  intros HI HE Hph Hk Hlt Hv q k.
  assert (Hf : ¬ freed E) by (eapply open_not_freed; [done|by rewrite Hph]).
  pose proof (si_mem _ _ HI Hf) as HM.
  destruct (write_view_grows (cell q) k V) as [Hg1 Hg2].
  pose proof (si_freeing _ _ HI s) as Hfr. rewrite HE in Hfr. destruct (Hfr Hph) as [Hpg Hpd].
  set (E' := upd s _ E).
  assert (Hcons' : consumed E' = q + 1).
  { unfold consumed, E', q. destruct s; cbn [upd eg]; unfold consumed; rewrite HE; simpl;
      rewrite length_app; simpl; unfold num; simpl; lia. }
  assert (HnumP : num (eg (E' Producer)) = num (eg (E Producer)))
    by (unfold E'; destruct s; cbn [upd eg]; by rewrite ?HE).
  assert (HvalsP : vals (eg (E' Producer)) = vals (eg (E Producer)))
    by (unfold E'; destruct s; cbn [upd eg]; by rewrite ?HE).
  pose proof (si_seen _ _ HI Producer) as HseenP. pose proof (si_pub _ _ HI Consumer) as HpubC.
  pose proof (si_room _ _ HI) as Hroom.
  destruct (windows_take E m q k None HM) as [Hfull Hfree];
    [done|done|unfold k, stamp; lia|unfold q, consumed; simpl in *; lia|].
  assert (mem_inv E' (add_mdropped v (set_mcells <[cell q := (k, None)]> m))).
  { eapply (mem_inv_cells E m _ s g); try done.
    - pose proof (mi_own _ _ HM s) as Ho. rewrite HE in Ho.
      eapply covers_mono; [exact Ho|done|exact Hg1].
    - fold E'. rewrite Hcons', HnumP, HvalsP. apply Hfull.
    - fold E'. rewrite Hcons', HnumP. by apply Hfree. }
  assert (Hpub : gpub (eg (E Producer)) = num (eg (E Producer))).
  { apply (si_closed _ _ HI). destruct s; [cbn [peer] in Hpg; by rewrite Hpg|].
    rewrite HE. simpl. by rewrite Hph. }
  assert (Hpre : vals (eg (E Consumer)) ++ (gdrop (eg (E Producer)) ++ gdrop (eg (E Consumer))) ++ [v]
    `prefix_of` vals (eg (E Producer))).
  { rewrite app_assoc. apply prefix_snoc; [apply (si_prefix _ _ HI)|].
    rewrite <-Hv. f_equal. unfold consumed, num. rewrite !length_app. lia. }
  subst E'. unfold q in *. clear q. open_inv HI. split; [close_inv s HE..|by intros _].
  all: rewrite ?Hph, ?Hpg; cbn [is_gone]; try done.
  all: rewrite ?Hpd, ?app_nil_r in *; rewrite ?P2, ?app_assoc in *; done.
Qed.

(** Nothing left: the block is freed. *)
Lemma dealloc_inv E m s g V tr c :
  SInv E m → E s = Ent g V tr c → gphase g = Freeing →
  consumed E = num (eg (E Producer)) →
  SInv (upd s (Ent (with_phase g Gone) V tr c) E) (mfree (sh_ring sh) m).
Proof using Type.
  intros HI HE Hph Hcons. pose proof (si_freeing _ _ HI s) as Hfr. rewrite HE in Hfr.
  destruct (Hfr Hph) as [Hpg Hpd]. assert (Hdone : ∀ P : Prop,
    ¬ freed (upd s (Ent (with_phase g Gone) V tr c) E) → P).
  { intros P Hn. destruct Hn. destruct s; split; cbn; done. }
  open_inv HI. split; [close_inv s HE..|by apply Hdone].
  all: rewrite ?Hph, ?Hpg in *; cbn [is_gone] in *; intuition congruence.
Qed.

(** ** Calls *)

(** Starting a call changes neither ghost states nor memory. *)
Lemma start_inv E m s g V tr c :
  SInv E m → E s = Ent g V tr None → SInv (upd s (Ent g V tr (Some c)) E) m.
Proof using Type.
  intros HI HE. pose proof (si_mem _ _ HI) as HM.
  assert (Hob : ∀ s', observed (E s') (upd s (Ent g V tr (Some c)) E s') ∧
    eg (upd s (Ent g V tr (Some c)) E s') = eg (E s')).
  { intros s'. destruct (side_dec s s') as [-> | ->]; rewrite ?upd_same, ?upd_peer, ?HE;
      [by split|]. split; [apply observed_refl|done]. }
  assert (Hfree : ¬ freed (upd s (Ent g V tr (Some c)) E) → mem_inv (upd s (Ent g V tr (Some c)) E) m).
  { intros Hf. assert (Hf' : ¬ freed E) by (unfold freed in *; by rewrite !(proj2 (Hob _)) in Hf).
    eapply mem_inv_observed; [apply Hob| | |auto].
    - intros s'. by rewrite (proj2 (Hob s')).
    - intros s'. rewrite (proj2 (Hob s')). apply (mi_know _ _ (HM Hf')). }
  open_inv HI. split; [close_inv s HE..|done].
  - split; [apply P15|]. destruct P15 as [_ ->]. done.
  - split; [|apply P15]. destruct P15 as [-> _]. split; [done|by apply prefix_app_r].
Qed.

(** A call returns what the ghost state says. *)
Lemma return_inv E m s g V tr c o :
  SInv E m → E s = Ent g V tr (Some c) →
  match s with
  | Producer => vals g = accepted (tr ++ [(c, o)]) ∧
      (saw_disconnect (c, o) = true → gknow g = true)
  | Consumer => vals g = received (tr ++ [(c, o)]) ∧
      (saw_disconnect (c, o) = true → gdone g = true ∧ gseen g = num g)
  end →
  SInv (upd s (Ent g V (tr ++ [(c, o)]) None) E) m.
Proof using Type.
  intros HI HE Hlog. pose proof (si_mem _ _ HI) as HM.
  set (e := Ent g V (tr ++ [(c, o)]) None).
  assert (Hob : ∀ s', observed (E s') (upd s e E s') ∧ eg (upd s e E s') = eg (E s')).
  { intros s'. destruct (side_dec s s') as [-> | ->]; rewrite ?upd_same, ?upd_peer, ?HE;
      [by split|]. split; [apply observed_refl|done]. }
  assert (Hfree : ¬ freed (upd s e E) → mem_inv (upd s e E) m).
  { intros Hf. assert (Hf' : ¬ freed E) by (unfold freed in *; by rewrite !(proj2 (Hob _)) in Hf).
    eapply mem_inv_observed; [apply Hob| | |auto].
    - intros s'. by rewrite (proj2 (Hob s')).
    - intros s'. rewrite (proj2 (Hob s')). apply (mi_know _ _ (HM Hf')). }
  unfold e in *. clear e Hob. open_inv HI. split; [close_inv s HE..|done].
  all: rewrite ?existsb_app; cbn [existsb]; rewrite ?orb_false_r, ?orb_true_iff; intuition.
Qed.
End invariant.
