(* ===== verification/SpscConc.v ===== *)
(** The SPSC ring under every interleaving in weak memory: proof rules for the
    actions of its operations, the operations themselves, and what follows for
    every schedule of a producer and a consumer thread. *)
From S2P Require Import Prelude Usize Atomic Errors Wait Notify Ring Queue Spsc Seq Memory Machine Logic Parking SpscInv.
Local Open Scope Z_scope.

(** The producer is thread 0, the consumer thread 1. *)
Definition tid_of (s : side) : tid := match s with Producer => 0%nat | Consumer => 1%nat end.

Section rules.
Context `{tgt : Target} {T : Type} (sh : Shared).
Hypothesis Hok : ring_ok (cap sh) (mask sh) (buf_len sh).
Abbreviation entry := (ent (ghost T) (call T) (event T)).
Implicit Types (E : side → entry) (m : mem T) (g : ghost T).

(** Only the calls that drop a handle close it. *)
Definition drops (c : call T) : bool :=
  match c with CDropSender | CDropReceiver => true | _ => false end.
Definition calls_ok E : Prop :=
  ∀ s c, ecur (E s) = Some c → drops c = false → gphase (eg (E s)) = Open.

Definition Inv (Γ : list entry) m : Prop :=
  ∃ E, Γ = [E Producer; E Consumer] ∧ SInv sh E m ∧ calls_ok E.

Lemma calls_upd E s g V tr c :
  calls_ok E → (∀ c', c = Some c' → drops c' = false → gphase g = Open) →
  calls_ok (upd s (Ent g V tr c) E).
Proof using Type.
  clear Hok. intros HE Hc s' c'. destruct (side_dec s s') as [-> | ->]; rewrite ?upd_same, ?upd_peer; [|apply HE].
  apply Hc.
Qed.

(** What the protocol is oblivious to. *)
Abbreviation flags := [Parked Consumer; Parked Producer].
Abbreviation here g := (gphase g ≠ Gone).

#[export] Instance spsc_oblivious : Oblivious Inv (sh_ring sh) flags (λ g : ghost T, here g).
Proof using Type.
  clear Hok. split.
  - intros Γ m i g V tr c f (E & -> & HI & _) Hi Hg Hf.
    assert (∃ s, E s = Ent g V tr (Some c)) as [s HE].
    { destruct i as [|[|]]; simplify_eq/=; [by exists Producer|by exists Consumer]. }
    assert (¬ freed E) as Hfr by (by eapply open_not_freed).
    assert (∃ s', f = Parked s') as [s' ->] by (set_unfold; naive_solver).
    apply (mi_parked _ _ _ (si_mem _ _ _ HI Hfr)).
  - intros Γ m i g V tr c V' m' (E & -> & HI & HC) Hi Hg H1 H2 [Hh Hf Hc Hd].
    assert (∃ s, i = tid_of s ∧ E s = Ent g V tr (Some c)) as (s & -> & HE).
    { destruct i as [|[|]]; simplify_eq/=; [by exists Producer|by exists Consumer]. }
    exists (upd s (Ent g V' tr (Some c)) E). split; [by destruct s|].
    split; [|apply calls_upd; [done|]; intros c' [= <-]; specialize (HC s c); by rewrite HE in HC; apply HC].
    eapply SInv_noise; [exact HI|exact HE|done|done|]. split; try done.
    + intros s'. apply Hh. intros f Hin. set_unfold. destruct s'; naive_solver.
    + apply Hh. intros f Hin. set_unfold. naive_solver.
    + apply Hh. intros f Hin. set_unfold. naive_solver.
    + intros s'. apply Hf.
Qed.

Section thread.
Context (s : side) (tr : list (call T * event T)) (c : call T).
Abbreviation safe := (Logic.safe Inv (tid_of s) tr c).

(** One action of this side. *)
Lemma safe_side_act {A} (p : prog T A) g Q :
  p ≠ Panicked → (∀ a, p ≠ Ret a) →
  (∀ E m V, SInv sh E m → E s = Ent g V tr (Some c) → (drops c = false → gphase g = Open) → ∀ t b,
     (∀ x, step (tid_of s) p V m t b ≠ Fault x) ∧
     (∀ p' V' m', step (tid_of s) p V m t b = Next (p', V', m') →
        ∃ g', SInv sh (upd s (Ent g' V' tr (Some c)) E) m' ∧
          (drops c = false → gphase g' = Open) ∧ safe p' g' Q)) →
  safe p g Q.
Proof.
  intros Hnp Hnr Hstep. apply safe_step; [done|done|].
  intros Γ m V (E & -> & HI & HC) Hi t b.
  assert (HE : E s = Ent g V tr (Some c)) by (destruct s; simpl in Hi; congruence).
  assert (Hg : drops c = false → gphase g = Open) by (specialize (HC s c); rewrite HE in HC; by apply HC).
  destruct (Hstep E m V HI HE Hg t b) as [Hf Hn]. split; [done|].
  intros p' V' m' Heq. destruct (Hn _ _ _ Heq) as (g' & HI' & Hg' & Hs). exists g'.
  split; [|apply Hs]. exists (upd s (Ent g' V' tr (Some c)) E). split; [by destruct s|]. split; [exact HI'|].
  apply calls_upd; [done|]. by intros c' [= <-].
Qed.

(** ** The actions of the protocol *)

Lemma safe_load_disc g (Q : bool → ghost T → Prop) :
  gphase g = Open → Q false g → Q true (with_know g) →
  safe (load_bool (disconnected sh) Acquire) g Q.
Proof.
  intros Hph Hf Ht. apply safe_side_act; [done..|]. intros E m V HI HE Hcl t b.
  assert (¬ freed E) as Hfr by (eapply open_not_freed; [done|by rewrite Hph]).
  destruct (mi_disc _ _ _ (si_mem _ _ _ HI Hfr)) as (h & Hh & _). unfold load_bool. simpl. rewrite Hh.
  destruct (h !! t) as [x|] eqn:Hx; [|done]. case_match; [|done]. split; [done|].
  intros p' V' m' [= <- <- <-].
  destruct (load_disc _ _ _ _ _ _ _ _ _ _ _ HI HE Hph Hh Hx) as [[-> HI']|[-> HI']];
    eexists; (split; [exact HI'|]); (split; [exact Hcl|]); by apply safe_ret.
Qed.

(** Loading the peer's counter: between what was seen and what is there. *)
Lemma safe_load_peer g (Q : Z → ghost T → Prop) :
  gphase g ≠ Gone →
  (∀ k, gseen g ≤ k ≤ usize_max → 0 ≤ k → (s = Producer → k ≤ num g) →
     Q k (with_seen g k)) →
  safe (load (ctr sh (peer s)) Acquire) g Q.
Proof.
  intros Hph HQ. apply safe_side_act; [done..|]. intros E m V HI HE Hcl t b.
  assert (¬ freed E) as Hfr by (by eapply open_not_freed).
  destruct (mi_ctr _ _ _ (si_mem _ _ _ HI Hfr) (peer s)) as (h & Hh & _).
  unfold load. simpl. rewrite Hh.
  destruct (h !! t) as [x|] eqn:Hx; [|done]. destruct (Nat.leb_spec (vw (cur V) (ctr sh (peer s))) t); [|done].
  split; [done|]. intros p' V' m' [= <- <- <-].
  destruct (load_peer _ _ _ _ _ _ _ _ _ _ _ HI HE Hph Hh Hx ltac:(done)) as [Hk HI'].
  eexists. split; [exact HI'|]. split; [exact Hcl|]. apply safe_ret, HQ.
  - split; [lia|]. pose proof (si_max _ _ _ HI). pose proof (si_pub _ _ _ HI Producer).
    pose proof (si_pub _ _ _ HI Consumer). pose proof (si_consumed _ _ _ HI).
    destruct s; cbn [peer] in *; unfold consumed in *; lia.
  - pose proof (si_seen _ _ _ HI s) as Hs. rewrite HE in Hs. simpl in Hs. lia.
  - intros ->. pose proof (si_pub _ _ _ HI Producer). pose proof (si_pub _ _ _ HI Consumer).
    pose proof (si_consumed _ _ _ HI). rewrite HE in *. cbn [peer eg] in *.
    unfold consumed in *. lia.
Qed.

Lemma safe_load_own g (Q : Z → ghost T → Prop) :
  gphase g ≠ Gone → Q (gpub g) g → safe (load (ctr sh s) Acquire) g Q.
Proof.
  intros Hph HQ. apply safe_side_act; [done..|]. intros E m V HI HE Hcl t b.
  assert (¬ freed E) as Hfr by (by eapply open_not_freed).
  destruct (mi_ctr _ _ _ (si_mem _ _ _ HI Hfr) s) as (h & Hh & _).
  unfold load. simpl. rewrite Hh.
  destruct (h !! t) as [x|] eqn:Hx; [|done]. destruct (Nat.leb_spec (vw (cur V) (ctr sh s)) t); [|done].
  split; [done|]. intros p' V' m' [= <- <- <-]. exists g. split; [|split; [exact Hcl|]].
  - eapply SInv_noise; [exact HI|exact HE|apply read_view_grows..|apply same_mem_refl].
  - erewrite own_counter by eauto. by apply safe_ret.
Qed.

Lemma safe_publish g (Q : unit → ghost T → Prop) :
  gphase g = Open → Q tt (with_pub g (num g)) →
  safe (store (ctr sh s) (num g) Release) g Q.
Proof.
  intros Hph HQ. apply safe_side_act; [done..|]. intros E m V HI HE Hcl t b.
  assert (¬ freed E) as Hfr by (eapply open_not_freed; [done|by rewrite Hph]).
  destruct (mi_ctr _ _ _ (si_mem _ _ _ HI Hfr) s) as (h & Hh & _).
  unfold store. simpl. rewrite Hh.
  destruct (h !! t) as [x|] eqn:Hx; [done|]. destruct (Nat.ltb_spec (vw (cur V) (ctr sh s)) t); [|done].
  split; [done|]. intros p' V' m' [= <- <- <-]. eexists. split; [by eapply publish|]. split; [exact Hcl|].
  by apply safe_ret.
Qed.

Lemma safe_store_disc g (Q : unit → ghost T → Prop) :
  drops c = true → gphase g = Open → gpub g = num g → Q tt (with_phase g Closed) →
  safe (store_bool (disconnected sh) true Release) g Q.
Proof.
  intros Hdr Hph Hpub HQ. apply safe_side_act; [done..|]. intros E m V HI HE Hcl t b.
  assert (¬ freed E) as Hfr by (eapply open_not_freed; [done|by rewrite Hph]).
  destruct (mi_disc _ _ _ (si_mem _ _ _ HI Hfr)) as (h & Hh & _).
  unfold store_bool, store. simpl. rewrite Hh.
  destruct (h !! t) as [x|] eqn:Hx; [done|].
  destruct (Nat.ltb_spec (vw (cur V) (disconnected sh)) t); [|done].
  split; [done|]. intros p' V' m' [= <- <- <-]. eexists. split; [by eapply close_inv_ok|]. split; [congruence|].
  by apply safe_ret.
Qed.

(** Releasing the reference: the last one goes on to drop the block. *)
Lemma safe_release g (Q : Z → ghost T → Prop) :
  gphase g = Closed →
  (∀ n, Q n (with_phase g (release_phase n))) →
  safe (fetch_sub (strong sh) 1 Release) g Q.
Proof.
  intros Hph HQ. apply safe_side_act; [done..|]. intros E m V HI HE Hcl t b.
  assert (¬ freed E) as Hfr by (eapply open_not_freed; [done|by rewrite Hph]).
  destruct (mi_strong _ _ _ (si_mem _ _ _ HI Hfr)) as (h & Hh & _).
  unfold fetch_sub. simpl. rewrite Hh.
  destruct (h !! t) as [x|] eqn:Hx; [|done]. destruct (h !! S t) eqn:Hn; [done|].
  case_match; [|done]. split; [done|]. intros p' V' m' [= <- <- <-]. eexists.
  split; [|split; [|by apply safe_ret]].
  2: { intros Hdr. specialize (Hcl Hdr). congruence. }
  eapply (release_inv sh E m s g V tr (Some c) h t x (λ v, wrap (v - 1))); try done.
  destruct (strong_last _ _ _ _ _ _ _ _ _ _ _ HI HE Hph Hh Hx Hn) as (_ & -> & _).
  apply wrap_small. pose proof usize_modulus_ge. unfold is_usize.
  destruct (is_gone _); simpl; lia.
Qed.

Lemma safe_last_fence g (Q : unit → ghost T → Prop) :
  gphase g = Freeing → Q tt (with_know g) → safe (fence Acquire) g Q.
Proof.
  intros Hph HQ. apply safe_side_act; [done..|]. intros E m V HI HE Hcl t b. simpl. split; [done|].
  intros p' V' m' [= <- <- <-]. exists (with_know g). split; [|split; [exact Hcl|by apply safe_ret]].
  assert (set_scview (scview m) m = m) as -> by by destruct m.
  by apply fence_know.
Qed.
End thread.
Abbreviation safe s tr c := (Logic.safe Inv (tid_of s) tr c).

(** ** Cells *)

Lemma safe_write tr c g v (Q : unit → ghost T → Prop) :
  gphase g = Open → num g < gseen g + cap sh → num g < usize_max →
  vals g = accepted tr → offered c = [v] → Q tt (with_vals g (vals g ++ [v])) →
  safe Producer tr c (write_cell (cell sh (num g)) v) g Q.
Proof using Hok.
  intros Hph Hroom Hmax Hacc Hoff HQ. apply safe_side_act; [done..|]. intros E m V HI HE Hcl t b.
  destruct (write_ready sh Hok _ _ _ _ _ _ HI HE Hph Hroom) as [Hcell Hle].
  unfold write_cell, step, access. rewrite Hcell.
  destruct (Nat.leb_spec (2 * round sh (num g)) (vw (cur V) (cell sh (num g)))); [|lia].
  split; [done|]. intros p' V' m' [= <- <- <-]. eexists.
  split; [by apply write_cell_inv|]. split; [exact Hcl|]. by apply safe_ret.
Qed.

Lemma safe_read tr c g (Q : T → ghost T → Prop) :
  gphase g = Open → num g < gseen g → (∀ v, Q v (with_vals g (vals g ++ [v]))) →
  safe Consumer tr c (read_cell (cell sh (num g))) g Q.
Proof using Hok.
  intros Hph Hlt HQ. apply safe_side_act; [done..|]. intros E m V HI HE Hcl t b.
  destruct (read_ready sh _ _ _ _ _ _ HI HE Hph Hlt) as (v & Hv & Hcell & Hle).
  unfold read_cell, step, access. rewrite Hcell.
  destruct (Nat.leb_spec (stamp sh Producer (num g)) (vw (cur V) (cell sh (num g)))); [|lia].
  split; [done|]. intros p' V' m' [= <- <- <-]. eexists.
  split; [by apply read_cell_inv|]. split; [exact Hcl|]. by apply safe_ret.
Qed.

(** The final drop, once the peer's count is known. *)
Definition left_ring (s : side) g : Z :=
  match s with Producer => gseen g | Consumer => num g end + Z.of_nat (length (gdrop g)).
Definition put_ring (s : side) g : Z :=
  match s with Producer => num g | Consumer => gseen g end.

Lemma freeing_counts E m s g V tr c :
  SInv sh E m → E s = Ent g V tr c → gphase g = Freeing → gdone g = true →
  consumed E = left_ring s g ∧ num (eg (E Producer)) = put_ring s g.
Proof using Type.
  intros HI HE Hph Hd. pose proof (si_freeing _ _ _ HI s) as Hf. rewrite HE in Hf.
  destruct (Hf Hph) as [_ Hpd]. pose proof (si_done _ _ _ HI s) as Hdn. rewrite HE in Hdn.
  destruct (Hdn Hd) as [_ Hseen]. unfold consumed, left_ring, put_ring.
  destruct s; cbn [peer eg] in *; rewrite HE; rewrite Hpd; simpl; lia.
Qed.

Lemma safe_drop_cell s tr c g (Q : unit → ghost T → Prop) :
  gphase g = Freeing → gknow g = true → gdone g = true → left_ring s g < put_ring s g →
  (∀ v, Q tt (with_drop g (gdrop g ++ [v]))) →
  safe s tr c (drop_cell (cell sh (left_ring s g))) g Q.
Proof using Hok.
  intros Hph Hk Hd Hlt HQ. apply safe_side_act; [done..|]. intros E m V HI HE Hcl t b.
  destruct (freeing_counts _ _ _ _ _ _ _ HI HE Hph Hd) as [Hc Hput].
  rewrite <-Hput, <-Hc in Hlt. rewrite <-Hc. clear Hc Hput.
  destruct (drop_ready sh _ _ _ _ _ _ _ HI HE Hph Hk Hlt) as (v & Hv & Hcell & Hle).
  unfold drop_cell, step, access. rewrite Hcell.
  destruct (Nat.leb_spec (stamp sh Producer (consumed E)) (vw (cur V) (cell sh (consumed E)))); [|lia].
  split; [done|]. intros p' V' m' [= <- <- <-]. eexists.
  split; [by eapply (drop_cell_inv sh Hok)|]. split; [exact Hcl|]. by apply safe_ret.
Qed.

Lemma safe_dealloc s tr c g (Q : unit → ghost T → Prop) :
  gphase g = Freeing → gdone g = true → left_ring s g = put_ring s g →
  Q tt (with_phase g Gone) → safe s tr c (dealloc (sh_ring sh)) g Q.
Proof using Type.
  intros Hph Hd Heq HQ. apply safe_side_act; [done..|]. intros E m V HI HE Hcl t b. simpl. split; [done|].
  intros p' V' m' [= <- <- <-]. eexists. split; [|split; [|by apply safe_ret]].
  2: { intros Hdr. specialize (Hcl Hdr). congruence. }
  destruct (freeing_counts _ _ _ _ _ _ _ HI HE Hph Hd) as [Hc Hput].
  apply dealloc_inv; try done. congruence.
Qed.

(** ** Waking *)

Lemma flag_in s : Parked s ∈ flags.
Proof using Type. clear Hok. destruct s; set_solver. Qed.

Lemma safe_wake_if_park s tr c s' g (Q : unit → ghost T → Prop) :
  here g → Q tt g → safe s tr c (wake_if_park sh (parker_of (sh_ring sh) s')) g Q.
Proof using Type.
  intros Hph HQ. unfold wake_if_park. case_bool; [|by apply safe_ret].
  apply safe_bind, (safe_fence spsc_oblivious); [done|]. apply (safe_wake spsc_oblivious); [apply flag_in|done..].
Qed.

(** ** The sender *)

Section sender.
Context (tr : list (call T * event T)) (c : call T).
Abbreviation safeP p g Q := (safe Producer tr c p g Q).

(** The sender's handle in the middle of a call. *)
Record sends (self : Sender) g : Prop := {
  sn_shared : s_shared self = sh;
  sn_tail : s_tail self = num g;
  sn_seen : cached_head self ≤ gseen g;
  sn_head : 0 ≤ cached_head self ≤ num g;
  sn_room : num g ≤ cached_head self + cap sh;
  sn_open : gphase g = Open;
  sn_pub : gpub g = num g;
  sn_nodrop : gdrop g = [];
  sn_max : num g ≤ usize_max;
}.

Lemma sends_know self g : sends self g → sends self (with_know g).
Proof using Type. by intros []. Qed.

Lemma sends_seen self g k :
  sends self g → gseen g ≤ k → sends self (with_seen g k).
Proof using Type. intros [] Hk. split; try done. simpl. lia. Qed.

Definition sent v g (r : result unit (TrySendError T)) g' : Prop :=
  match r with
  | Ok _ => vals g' = vals g ++ [v]
  | Err (Full w) => w = v ∧ vals g' = vals g
  | Err (SendDisconnected w) => w = v ∧ vals g' = vals g ∧ gknow g' = true
  end.

(** Publishing a value into a slot known to be free. *)
Lemma safe_put hd g v :
  sends (MkSender sh (num g) hd) g → num g - hd ≠ cap sh →
  vals g = accepted tr → offered c = [v] → num g < usize_max →
  safeP (i ← index (buf_len sh) (Z.land (num g) (mask sh));
         _ ← write_cell (buf sh i) v;
         t ← arith (usize_add (num g) 1);
         _ ← store (tail sh) t Release;
         _ ← wake_if_park sh (consumer_parker sh);
         mret (MkSender sh t hd, Ok tt)) g
    (λ '(self', r) g', sends self' g' ∧ sent v g r g').
Proof using Hok.
  intros [_ _ Hsn Hh Hr Ho Hp Hnd Hm] Hne Hacc Hoff Hmax; cbn [cached_head] in *.
  assert (Hu : is_usize (num g)) by (unfold is_usize, usize_max, num in *; lia).
  rewrite <-(wrap_small (num g)) by done. rewrite (index_slot Hok), (wrap_small (num g)) by done.
  apply safe_bind, safe_ret, safe_bind, safe_write; try done; [lia|].
  apply safe_bind. eapply safe_arith.
  { unfold usize_add. apply checked_in_range. unfold is_usize, usize_max in *. lia. }
  assert (Hnum : num (with_vals g (vals g ++ [v])) = num g + 1).
  { unfold num. simpl. rewrite length_app. simpl. lia. }
  apply safe_bind. rewrite <-Hnum. apply safe_publish; [done|].
  apply safe_bind, safe_wake_if_park; [by simpl; rewrite Ho|]. apply safe_ret.
  split; [|done]. split; simpl; try done; unfold num in *; simpl in *; lia.
Qed.

Lemma safe_try_send self g v :
  sends self g → vals g = accepted tr → offered c = [v] → num g < usize_max →
  safeP (try_send self v) g (λ '(self', r) g', sends self' g' ∧ sent v g r g').
Proof using Hok.
  intros Hs Hacc Hoff Hmax. destruct self as [sh' t hd].
  pose proof Hs as [Hsh Ht Hsn Hh Hr Ho Hp Hnd Hm]; cbn [s_shared s_tail cached_head] in *. subst sh' t.
  unfold try_send. cbn [s_shared s_tail cached_head].
  apply safe_bind, safe_load_disc; [done| |].
  2: { apply safe_ret. split; [by apply sends_know|done]. }
  assert (Husub : ∀ k, 0 ≤ k ≤ num g → usize_sub (num g) k = Some (num g - k)).
  { intros k Hk. apply checked_in_range. unfold is_usize, usize_max in *. lia. }
  apply safe_bind. eapply safe_arith; [by apply Husub|]. apply safe_bind.
  destruct (Z.eqb_spec (num g - hd) (cap sh)) as [Heq|Hne].
  2: { apply safe_ret. by apply (safe_put hd g). }
  apply safe_bind, (safe_load_peer Producer); [by rewrite Ho|]. intros k Hk Hk0 HkP.
  specialize (HkP eq_refl). apply safe_bind. eapply safe_arith; [by apply Husub|].
  apply safe_ret. cbn [s_tail cached_head].
  assert (Hs2 : sends (MkSender sh (num g) k) (with_seen g k)).
  { split; try done; cbn [s_tail cached_head gseen]; change (num (with_seen g k)) with (num g); lia. }
  destruct (Z.eqb_spec (num g - k) (cap sh)); [by apply safe_ret|].
  by apply (safe_put k (with_seen g k)).
Qed.

Lemma safe_send_wait self ladder g :
  sends self g → ladder_ok ladder →
  safeP (send_wait self ladder) g
    (λ ladder' g', ladder_ok ladder' ∧ sends self g' ∧ vals g' = vals g).
Proof using Hok.
  intros Hs Hl. pose proof Hs as [Hsh Ht Hsn Hh Hr Ho Hp Hnd Hm]. unfold send_wait.
  rewrite Hsh. assert (here g) as Hg by (by rewrite Ho). destruct (strategy sh).
  - apply safe_bind, (safe_hint spsc_oblivious); [done|by apply safe_ret].
  - by apply (safe_idle spsc_oblivious).
  - by apply (safe_idle spsc_oblivious).
  - apply safe_bind, (safe_prepare_park spsc_oblivious); [apply flag_in|done|].
    apply safe_bind, (safe_fence spsc_oblivious), safe_bind; [done|].
    apply (safe_load_peer Producer); [by rewrite Ho|]. intros k Hk Hk0 HkP. specialize (HkP eq_refl).
    rewrite Ht. apply safe_bind. eapply safe_arith.
    { apply checked_in_range. unfold is_usize, usize_max in *. lia. }
    assert (Hs2 : sends self (with_seen g k)) by (apply sends_seen; [done|lia]).
    case_bool; apply safe_bind.
    + apply safe_ret, (safe_settle spsc_oblivious Producer (flag_in Producer) true); [done|done].
    + apply safe_load_disc; [done|..].
      * apply (safe_settle spsc_oblivious Producer (flag_in Producer) false); [done|done].
      * apply (safe_settle spsc_oblivious Producer (flag_in Producer) true); [done|].
        split_and!; [done| |done]. by apply sends_know.
Qed.

Lemma safe_send_loop fuel self ladder g v :
  sends self g → ladder_ok ladder → vals g = accepted tr → offered c = [v] → num g < usize_max →
  safeP (send_loop fuel self v ladder) g (λ '(self', r) g', sends self' g' ∧
    match r with
    | Ok _ => vals g' = vals g ++ [v]
    | Err (SendErr w) => w = v ∧ vals g' = vals g ∧ gknow g' = true
    end).
Proof using Hok.
  intros Hs Hl Hacc Hoff Hm.
  assert (∃ l, l = vals g) as [l Hl'] by eauto. rewrite <-Hl'.
  revert self ladder g Hs Hl Hacc Hm Hl'. induction fuel as [|fuel IH]; intros; [by apply safe_fuel|].
  cbn [send_loop]. apply safe_bind. eapply safe_mono; [by apply safe_try_send|].
  intros [self' r] g' [Hs' Hr]. destruct r as [[]|[w|w]]; simpl in Hr.
  - apply safe_ret. split; [done|congruence].
  - destruct Hr as [-> Hv]. apply safe_bind. eapply safe_mono; [by apply safe_send_wait|].
    intros ladder' g2 (Hl2 & Hs2 & Hv2).
    apply IH; [done|done|congruence| |congruence]. unfold num in *. congruence.
  - apply safe_ret. split; [done|]. destruct Hr as (-> & ? & ?). by split_and!; [|congruence|].
Qed.
End sender.

(** ** The receiver *)

Section receiver.
Context (tr : list (call T * event T)) (c : call T).
Abbreviation safeC p g Q := (safe Consumer tr c p g Q).

(** The receiver's handle in the middle of a call. *)
Record receives (self : Receiver) g : Prop := {
  rc_shared : r_shared self = sh;
  rc_head : r_head self = num g;
  rc_tail : num g ≤ cached_tail self ≤ gseen g;
  rc_max : gseen g ≤ usize_max;
  rc_open : gphase g = Open;
  rc_nodrop : gdrop g = [];
}.

Lemma receives_seen self g k :
  receives self g → gseen g ≤ k ≤ usize_max → receives self (with_seen g k).
Proof using Type.
  intros [] Hk. split; try done; cbn [gseen with_seen]; change (num (with_seen g k)) with (num g); lia.
Qed.

(** The same with the cached tail refreshed. *)
Lemma receives_refill self g k :
  receives self g → gseen g ≤ k ≤ usize_max →
  receives (MkReceiver sh (r_head self) k) (with_seen g k).
Proof using Type.
  intros [] Hk. split; try done; cbn [gseen cached_tail with_seen]; change (num (with_seen g k)) with (num g); lia.
Qed.

(** Moving the oldest published value out. *)
Lemma safe_take {A} self g (k : T → prog T A) (Q : A → ghost T → Prop) :
  receives self g → r_head self ≠ cached_tail self →
  (∀ v, let g' := with_vals g (vals g ++ [v]) in
     num g' = num g + 1 → usize_add (r_head self) 1 = Some (num g') →
     receives (MkReceiver sh (num g') (cached_tail self)) g' → safeC (k v) g' Q) →
  safeC (i ← index (buf_len sh) (Z.land (r_head self) (mask sh));
         v ← read_cell (buf sh i); k v) g Q.
Proof using Hok.
  intros [Hsh Hh Ht Hm Ho Hd] Hne Hk. rewrite Hh in Hne, Hk |- *.
  assert (Hu : is_usize (num g)) by (unfold is_usize, usize_max, num in *; lia).
  rewrite <-(wrap_small (num g)) by done. rewrite (index_slot Hok).
  apply safe_bind, safe_ret, safe_bind. apply safe_read; [done|lia|]. intros v.
  assert (Hnum : num (with_vals g (vals g ++ [v])) = num g + 1).
  { unfold num. simpl. rewrite length_app. simpl. lia. }
  apply Hk; [done| |].
  - rewrite Hnum. apply checked_in_range. unfold is_usize, usize_max in *. lia.
  - split; try done; cbn [cached_tail gseen]; rewrite ?Hnum; simpl; lia.
Qed.

Definition taken g (r : result T TryRecvError) g' : Prop :=
  gpub g' = num g' ∧
  match r with
  | Ok v => vals g' = vals g ++ [v]
  | Err Empty => vals g' = vals g
  | Err RecvDisconnected => vals g' = vals g ∧ gdone g' = true ∧ gseen g' = num g'
  end.

(** The second half of [try_recv]: move a value out and publish the head. *)
Lemma safe_get self g :
  receives self g → r_head self ≠ cached_tail self →
  safeC (i ← index (buf_len sh) (Z.land (r_head self) (mask sh));
         v ← read_cell (buf sh i);
         h ← arith (usize_add (r_head self) 1);
         _ ← store (head sh) h Release;
         _ ← wake_if_park sh (producer_parker sh);
         mret (MkReceiver sh h (cached_tail self), Ok v)) g
    (λ '(self', r) g', receives self' g' ∧ taken g r g').
Proof using Hok.
  intros Hr Hne. apply safe_take; [done..|]. intros v g' Hnum Hadd Hr'.
  rewrite Hadd. apply safe_bind, safe_ret, safe_bind. apply safe_publish; [apply Hr|].
  apply safe_bind, safe_wake_if_park; [simpl; by rewrite (rc_open _ _ Hr)|].
  apply safe_ret. split; [|done]. by destruct Hr'.
Qed.

Lemma safe_try_recv self g :
  receives self g → gpub g = num g →
  safeC (try_recv self) g (λ '(self', r) g', receives self' g' ∧ taken g r g').
Proof using Hok.
  intros Hr Hp. destruct self as [sh' h t]. pose proof (rc_shared _ _ Hr) as Hsh. simpl in Hsh. subst sh'.
  pose proof (rc_head _ _ Hr) as Hh. simpl in Hh. pose proof (rc_open _ _ Hr) as Ho.
  unfold try_recv. cbn [r_shared r_head cached_tail]. apply safe_bind.
  destruct (Z.eqb_spec h t) as [Heq|Hne]; [|by apply safe_ret, (safe_get (MkReceiver sh h t))].
  apply safe_bind, (safe_load_peer Consumer); [by rewrite Ho|]. intros k Hk Hk0 _.
  assert (Hr2 : receives (MkReceiver sh h k) (with_seen g k)) by (by eapply receives_refill in Hr).
  cbn [r_head cached_tail].
  destruct (Z.eqb_spec h k) as [->|Hne].
  2: { apply safe_ret. by apply (safe_get (MkReceiver sh h k) (with_seen g k)). }
  apply safe_bind, safe_load_disc; [done|by apply safe_ret, safe_ret|].
  apply safe_bind, (safe_load_peer Consumer); [by simpl; rewrite Ho|]. intros k' Hk' _ _.
  assert (Hr3 : receives (MkReceiver sh k k') (with_seen (with_know (with_seen g k)) k')).
  { eapply (receives_refill (MkReceiver sh k k) (with_know (with_seen g k))); [|done]. by destruct Hr2. }
  destruct (Z.eqb_spec k' k) as [->|Hne].
  - apply safe_ret, safe_ret. split.
    + by destruct Hr3.
    + split_and!; [done|done|simpl; by rewrite orb_true_r|done].
  - apply safe_ret.
    by apply (safe_get (MkReceiver sh k k') (with_seen (with_know (with_seen g k)) k')).
Qed.

Lemma safe_recv_wait self ladder g :
  receives self g → gpub g = num g → ladder_ok ladder →
  safeC (recv_wait self ladder) g
    (λ ladder' g', ladder_ok ladder' ∧ receives self g' ∧ gpub g' = num g' ∧ vals g' = vals g).
Proof using Hok.
  intros Hr Hp Hl. pose proof (rc_open _ _ Hr) as Ho. unfold recv_wait.
  rewrite (rc_shared _ _ Hr). assert (here g) as Hg by (by rewrite Ho). destruct (strategy sh).
  - apply safe_bind, (safe_hint spsc_oblivious); [done|by apply safe_ret].
  - by apply (safe_idle spsc_oblivious).
  - by apply (safe_idle spsc_oblivious).
  - apply safe_bind, (safe_prepare_park spsc_oblivious); [apply flag_in|done|].
    apply safe_bind, (safe_fence spsc_oblivious), safe_bind; [done|].
    apply (safe_load_peer Consumer); [by rewrite Ho|]. intros k Hk Hk0 _.
    assert (Hr2 : receives self (with_seen g k)) by (by apply receives_seen).
    case_bool; apply safe_bind.
    + apply safe_ret, (safe_settle spsc_oblivious Consumer (flag_in Consumer) true); [done|done].
    + apply safe_load_disc; [done|..].
      * apply (safe_settle spsc_oblivious Consumer (flag_in Consumer) false); [done|done].
      * apply (safe_settle spsc_oblivious Consumer (flag_in Consumer) true); [done|].
        split_and!; [done| |done..]. by destruct Hr2.
Qed.

Lemma safe_recv_loop fuel self ladder g :
  receives self g → gpub g = num g → ladder_ok ladder →
  safeC (recv_loop fuel self ladder) g (λ '(self', r) g', receives self' g' ∧ gpub g' = num g' ∧
    match r with
    | Ok v => vals g' = vals g ++ [v]
    | Err _ => vals g' = vals g ∧ gdone g' = true ∧ gseen g' = num g'
    end).
Proof using Hok.
  intros Hr Hp Hl. assert (∃ l, l = vals g) as [l Hl'] by eauto. rewrite <-Hl'.
  revert self ladder g Hr Hp Hl Hl'. induction fuel as [|fuel IH]; intros; [by apply safe_fuel|].
  cbn [recv_loop]. apply safe_bind. eapply safe_mono; [by apply safe_try_recv|].
  intros [self' r] g' (Hr' & Hp' & Hv). destruct r as [v|[]].
  - apply safe_ret. by rewrite Hl'.
  - apply safe_bind. eapply safe_mono; [by apply safe_recv_wait|].
    intros ladder' g2 (? & ? & ? & ?). apply IH; congruence || done.
  - apply safe_ret. by rewrite Hl'.
Qed.

(** Draining: the values taken are exactly those the callback saw, in order;
    the count returned is theirs, and only the callback ends it early. *)
Definition drained cb (env : list T) (count : Z) g (x : Receiver * list T * exit) g' : Prop :=
  receives x.1.1 g' ∧ gpub g' = gpub g ∧
  ∃ l, vals g' = vals g ++ l ∧ x.1.2 = env ++ l ∧ ended cb count l x.2.

Lemma drained_refl cb self g env count :
  receives self g → drained cb env count g (self, env, Returned count) g.
Proof using Type. intros. split_and!; [done|done|]. exists []. rewrite !app_nil_r. simpl. split_and!; [done|done|lia]. Qed.

(** One iteration on a value that is there. *)
Lemma safe_drain_step fuel max cb self env count g :
  (∀ self env count g, receives self g → 0 ≤ count ≤ num g →
     safeC (drain_loop fuel max self (collect cb) env count) g (drained cb env count g)) →
  receives self g → 0 ≤ count ≤ num g → r_head self ≠ cached_tail self →
  safeC (i ← index (buf_len sh) (Z.land (r_head self) (mask sh));
         v ← read_cell (buf sh i);
         match usize_add (r_head self) 1 with
         | None => mret (self, env, Unwound)
         | Some h =>
             match usize_add count 1 with
             | None => mret (MkReceiver sh h (cached_tail self), env, Unwound)
             | Some count =>
                 let '(env, returned) := collect cb env v in
                 if (returned : bool)
                 then drain_loop fuel max (MkReceiver sh h (cached_tail self)) (collect cb) env count
                 else mret (MkReceiver sh h (cached_tail self), env, Unwound)
             end
         end) g (drained cb env count g).
Proof using Hok.
  intros IH Hr Hc Hne. apply safe_take; [done..|]. intros v g3 Hnum Hadd Hr3. rewrite Hadd.
  assert (usize_add count 1 = Some (count + 1)) as ->.
  { apply checked_in_range. pose proof (rc_tail _ _ Hr3). pose proof (rc_max _ _ Hr3).
    unfold is_usize, usize_max in *. lia. }
  unfold collect at 1. destruct (cb v) eqn:Hcb.
  - eapply safe_mono; [apply IH; [done|lia]|]. intros [[self' env'] e] g' (Hr' & Hp' & l & Hl & He & Hend).
    split_and!; [done|done|]. exists (v :: l). cbn [fst snd] in *. rewrite Hl, He.
    simpl. rewrite <-!app_assoc. split_and!; [done..|]. destruct e as [n|]; simpl in *; [lia|set_solver].
  - apply safe_ret. split_and!; [done|done|]. exists [v]. split_and!; [done..|]. simpl. set_solver.
Qed.

Lemma safe_drain_loop fuel max cb self env count g :
  receives self g → 0 ≤ count ≤ num g →
  safeC (drain_loop fuel max self (collect cb) env count) g (drained cb env count g).
Proof using Hok.
  revert self env count g. induction fuel as [|fuel IH]; intros self env count g Hr Hc;
    [by apply safe_fuel|].
  destruct self as [sh' h t]. pose proof (rc_shared _ _ Hr) as Hsh. simpl in Hsh. subst sh'.
  cbn [drain_loop r_shared r_head cached_tail].
  destruct (negb (count <? max)); [by apply safe_ret, drained_refl|]. apply safe_bind.
  destruct (Z.eqb_spec h t) as [Heq|Hne].
  - apply safe_bind, (safe_load_peer Consumer); [by rewrite (rc_open _ _ Hr)|]. intros k Hk _ _.
    pose proof (receives_refill _ _ _ Hr Hk) as Hr2. apply safe_ret. cbn [r_head cached_tail] in *.
    destruct (Z.eqb_spec h k); [by apply safe_ret, (drained_refl _ _ (with_seen g k))|].
    by apply (safe_drain_step fuel max cb (MkReceiver sh h k) env count (with_seen g k)).
  - apply safe_ret. cbn [r_head cached_tail]. rewrite (proj2 (Z.eqb_neq _ _)) by done.
    by apply (safe_drain_step fuel max cb (MkReceiver sh h t)).
Qed.

Lemma safe_drain fuel max cb self g :
  receives self g → gpub g = num g →
  safeC (drain fuel self max (collect cb) []) g (λ '(self', env', e) g',
    receives self' g' ∧ gpub g' = num g' ∧ vals g' = vals g ++ env' ∧ ended cb 0 env' e).
Proof using Hok.
  intros Hr Hp. unfold drain. apply safe_bind. eapply safe_mono.
  { apply (safe_drain_loop fuel max cb self [] 0 g); [done|]. unfold num. lia. }
  intros [[self' env'] e] g' (Hr' & Hp' & l & Hl & He & Hend). cbn [fst snd app] in *. subst env'.
  assert (Hpub : ∀ Q : unit → ghost T → Prop,
    (∀ g2, receives self' g2 → gpub g2 = num g2 → vals g2 = vals g ++ l → Q tt g2) →
    safeC (publish_guard_drop self' (r_head self)) g' Q).
  { intros Q HQ. unfold publish_guard_drop. rewrite (rc_head _ _ Hr), (rc_head _ _ Hr'), (rc_shared _ _ Hr').
    destruct (Z.eqb_spec (num g') (num g)); simpl.
    - apply safe_ret, HQ; [done|congruence|done].
    - apply (safe_publish Consumer); [apply Hr'|]. apply HQ; [|done..]. by destruct Hr'. }
  apply safe_bind, Hpub. intros g2 Hr2 Hp2 Hv2. destruct e as [count|]; [|by apply safe_ret].
  apply safe_bind. rewrite (rc_shared _ _ Hr2).
  case_bool; [apply safe_wake_if_park; [by rewrite (rc_open _ _ Hr2)|]|apply safe_ret];
    by apply safe_ret.
Qed.
End receiver.

(** ** Dropping a handle *)

Section drops.
Context (s : side) (tr : list (call T * event T)) (c : call T).
Abbreviation safe' p g Q := (safe s tr c p g Q).

Lemma safe_close g (Q : unit → ghost T → Prop) :
  drops c = true → gphase g = Open → gpub g = num g → Q tt (with_phase g Closed) → safe' (close sh) g Q.
Proof using Type.
  intros Hdr Ho Hp HQ. apply safe_bind, safe_store_disc; [done..|].
  apply safe_bind, (safe_fence spsc_oblivious); [done|].
  apply safe_bind, (safe_wake spsc_oblivious); [apply flag_in|done|].
  by apply (safe_wake spsc_oblivious); [apply flag_in|..].
Qed.

Lemma safe_drop_range n g (Q : unit → ghost T → Prop) :
  gphase g = Freeing → gknow g = true → gdone g = true →
  0 ≤ left_ring s g → left_ring s g + Z.of_nat n = put_ring s g → put_ring s g ≤ usize_max →
  (∀ g', vals g' = vals g → gphase g' = Freeing → gdone g' = true →
     left_ring s g' = put_ring s g' → Q tt g') →
  safe' (drop_range n sh (left_ring s g)) g Q.
Proof using Hok.
  intros Hph Hk Hd. revert g Hph Hk Hd. induction n as [|n IH]; intros g Hph Hk Hd H0 Hn Hm HQ.
  { apply safe_ret, HQ; try done. lia. }
  assert (Hu : is_usize (left_ring s g)) by (unfold is_usize, usize_max in *; lia).
  cbn [drop_range]. rewrite <-(wrap_small (left_ring s g)) at 1 by done. rewrite (index_slot Hok).
  apply safe_bind, safe_ret, safe_bind, safe_drop_cell; try done; [lia|]. intros v.
  set (g' := with_drop g (gdrop g ++ [v])).
  assert (Hl : left_ring s g + 1 = left_ring s g').
  { unfold g', left_ring. destruct s; simpl; rewrite length_app; simpl; unfold num; simpl; lia. }
  assert (Hp' : put_ring s g' = put_ring s g) by (by destruct s).
  rewrite Hl. apply IH; try done; rewrite ?Hp'; lia.
Qed.

(** The last handle drops what is left and frees the block. *)
Lemma safe_free g (Q : unit → ghost T → Prop) :
  gphase g = Freeing → gpub g = num g → gdrop g = [] → num g ≤ usize_max → 0 ≤ gseen g →
  (s = Consumer → num g ≤ gseen g) →
  (∀ g', vals g' = vals g → gphase g' = Gone → Q tt g') →
  safe' (_ ← fence Acquire; _ ← Shared_drop sh; dealloc (sh_ring sh)) g Q.
Proof using Hok.
  intros Hph Hp Hd Hm Hs Hc HQ. apply safe_bind, safe_last_fence; [done|].
  assert (Hdrop : ∀ k, gseen g ≤ k ≤ usize_max → (s = Producer → k ≤ num g) →
    let h := match s with Producer => k | Consumer => num g end in
    let t := match s with Producer => num g | Consumer => k end in
    safe' (drop_range (Z.to_nat (t - h)) sh h) (with_seen (with_know g) k)
      (λ _ g2, safe' (dealloc (sh_ring sh)) g2 Q)).
  { intros k Hk HkP. set (g' := with_seen (with_know g) k).
    assert (Hl : left_ring s g' = match s with Producer => k | Consumer => num g end).
    { unfold left_ring. simpl. rewrite Hd. destruct s; simpl; unfold num; simpl; lia. }
    assert (Hput : put_ring s g' = match s with Producer => num g | Consumer => k end)
      by (by destruct s).
    assert (0 ≤ left_ring s g' ≤ put_ring s g' ∧ put_ring s g' ≤ usize_max) as [? ?].
    { rewrite Hl, Hput. unfold num in *. destruct s; [specialize (Hc eq_refl)|specialize (HkP eq_refl)]; lia. }
    cbv zeta. rewrite <-Hl, <-Hput. apply safe_drop_range; try done; try lia; [by simpl; rewrite orb_true_r|].
    intros g2 Hv2 Hph2 Hd2 Heq. apply safe_dealloc; try done. by apply HQ. }
  apply safe_bind. unfold Shared_drop. destruct s.
  - apply safe_bind, (safe_load_own Consumer); [done || (by simpl; rewrite Hph)|]. cbn [gpub with_know].
    apply safe_bind, (safe_load_peer Consumer); [done || (by simpl; rewrite Hph)|]. intros k Hk _ HkP.
    rewrite Hp. exact (Hdrop k Hk HkP).
  - apply safe_bind, (safe_load_peer Producer); [done || (by simpl; rewrite Hph)|]. intros k Hk _ HkP.
    apply safe_bind, (safe_load_own Producer); [done || (by simpl; rewrite Hph)|]. cbn [gpub with_know with_seen].
    rewrite Hp. exact (Hdrop k Hk HkP).
Qed.

Lemma safe_handle_drop g (Q : unit → ghost T → Prop) :
  drops c = true → gphase g = Open → gpub g = num g → gdrop g = [] → num g ≤ usize_max → 0 ≤ gseen g →
  (s = Consumer → num g ≤ gseen g) →
  (∀ g', vals g' = vals g → gphase g' = Gone → Q tt g') →
  safe' (_ ← close sh; Arc_drop sh) g Q.
Proof using Hok.
  intros Hdr Ho Hp Hd Hm Hs Hc HQ. apply safe_bind, safe_close; [done..|].
  apply safe_bind, safe_release; [done|]. intros n. unfold release_phase.
  destruct (n =? 1); [|apply safe_ret; by apply HQ].
  by apply safe_free.
Qed.
End drops.
End rules.
