(* ===== verification/SpscRuns.v ===== *)
(** Clients of the SPSC ring: a producer and a consumer thread that make any
    calls on their handles, under any schedule; and what every such run
    guarantees. *)
From S2P Require Import Prelude Usize Atomic Errors Wait Notify Ring Queue Spsc Seq Memory Machine Logic Parking SpscInv SpscConc.
Local Open Scope Z_scope.

(** What a thread owns. *)
Inductive handle := HSender (self : Sender) | HReceiver (self : Receiver).

Section clients.
Context `{tgt : Target} {T : Type} (cb : T → bool).

(** A call on a handle. [drain] is given the callback that keeps what it sees
    and panics on the values [cb] rejects. A call that does not fit the handle
    cannot be written in the source; it changes nothing. *)
Definition start (c : call T) (h : handle) : prog T (reply handle (event T)) :=
  match c, h with
  | CTrySend v, HSender self =>
      '(self, r) ← try_send self v; mret (Some (HSender self), [], EvTrySend r)
  | CSend fuel v, HSender self =>
      '(self, r) ← send fuel self v; mret (Some (HSender self), [], EvSend r)
  | CDropSender, HSender self => _ ← Sender_drop self; mret (None, [], EvDropped)
  | CTryRecv, HReceiver self =>
      '(self, r) ← try_recv self; mret (Some (HReceiver self), [], EvTryRecv r)
  | CRecv fuel, HReceiver self =>
      '(self, r) ← recv fuel self; mret (Some (HReceiver self), [], EvRecv r)
  | CDrain fuel max, HReceiver self =>
      '(self, seen, e) ← drain fuel self max (collect cb) [];
      mret (Some (HReceiver self), [], EvDrain seen e)
  | CDropReceiver, HReceiver self => _ ← Receiver_drop self; mret (None, [], EvDropped)
  | _, h => mret (Some h, [], EvNoHandle)
  end.

Abbreviation conf := (config T handle (call T) (event T)).

(** The main thread creates the channel and hands the ends out. *)
Definition launch (cap : Z) (strat : WaitStrategy) : option conf :=
  '(tx, rx, V, m) ← lone_run 2 0 (channel cap strat) fresh_view empty_mem;
  Some (Config m [Thread V (Ready (HSender tx)) []; Thread V (Ready (HReceiver rx)) []]).

(** ** Every call is safe *)

Section calls.
Variable sh : Shared.
Hypothesis Hok : ring_ok (cap sh) (mask sh) (buf_len sh).

Definition ready_ok (i : tid) (h : handle) (_ : tview) (g : ghost T)
    (_ : list (call T * event T)) : Prop :=
  match h with
  | HSender self => i = tid_of Producer ∧ sends sh self g
  | HReceiver self => i = tid_of Consumer ∧ receives sh self g ∧ gpub g = num g
  end.

Definition gone_ok (_ : tid) (g : ghost T) : Prop := gphase g = Gone.

(** The log of side [s] after a call. *)
Definition logged (s : side) (tr : list (call T * event T)) (g : ghost T) : Prop :=
  match s with Producer => vals g = accepted tr | Consumer => vals g = received tr end.
Definition reported (s : side) (x : call T * event T) (g : ghost T) : Prop :=
  saw_disconnect x = true →
  match s with Producer => gknow g = true | Consumer => gdone g = true ∧ gseen g = num g end.

(** A drain that came to its end counted what its callback saw. *)
Definition complete (o : event T) : Prop :=
  match o with EvDrain seen e => ended cb 0 seen e | _ => True end.

Definition post (i : tid) (tr : list (call T * event T)) (c : call T)
    (r : reply handle (event T)) (V : tview) (g : ghost T) : Prop :=
  let '(keep, new, o) := r in
  new = [] ∧ complete o ∧ ∃ s, i = tid_of s ∧ logged s (tr ++ [(c, o)]) g ∧ reported s (c, o) g ∧
  match keep with Some h => ready_ok i h V g tr | None => gphase g = Gone end.

(** A call whose outcome does not depend on the views. *)
Lemma safe_post s tr c (p : prog T (reply handle (event T))) V g :
  safe (Inv sh) (tid_of s) tr c p g (λ r g', ∀ V', post (tid_of s) tr c r V' g') →
  wp (Inv sh) (tid_of s) tr c (post (tid_of s) tr c) p V g.
Proof using Type. intros Hp. eapply wp_mono; [|apply Hp]. intros r V' g' Hr. apply Hr. Qed.

Lemma start_sender tr c self g V :
  sends sh self g → vals g = accepted tr → num g < usize_max →
  wp (Inv sh) (tid_of Producer) tr c (post (tid_of Producer) tr c) (start c (HSender self)) V g.
Proof using Hok.
  intros Hs Hl Hm.
  apply safe_post. clear V. destruct c as [v|fuel v| | |fuel|fuel max|]; cbn [start].
  all: try (apply safe_ret; intros V; split; [done|]; split; [done|]; exists Producer; split_and!; try done;
            simpl; by rewrite accepted_snoc, app_nil_r).
  - apply safe_bind. eapply safe_mono; [by apply (safe_try_send sh Hok)|].
    intros [self' r] g' [Hs' Hr]. apply safe_ret. intros V. split; [done|]. split; [done|]. exists Producer.
    unfold logged, reported. rewrite accepted_snoc, <-Hl.
    destruct r as [[]|[w|w]]; simpl in Hr; split_and!; cbn; rewrite ?app_nil_r; intuition (congruence || done).
  - apply safe_bind. eapply safe_mono; [by apply (safe_send_loop sh Hok); [|apply for_strategy_ok|..]|].
    intros [self' r] g' [Hs' Hr]. apply safe_ret. intros V. split; [done|]. split; [done|]. exists Producer.
    unfold logged, reported. rewrite accepted_snoc, <-Hl.
    destruct r as [[]|[w]]; simpl in Hr; split_and!; cbn; rewrite ?app_nil_r; intuition (congruence || done).
  - apply safe_bind. unfold Sender_drop. destruct Hs. rewrite sn_shared.
    apply (safe_handle_drop sh Hok); try done; [lia|].
    intros g' Hv Hg. apply safe_ret. intros V. split; [done|]. split; [done|]. exists Producer.
    unfold logged, reported. rewrite accepted_snoc, <-Hl. split_and!; cbn; rewrite ?app_nil_r; done.
Qed.

Lemma start_receiver tr c self g V :
  receives sh self g → gpub g = num g → vals g = received tr →
  wp (Inv sh) (tid_of Consumer) tr c (post (tid_of Consumer) tr c) (start c (HReceiver self)) V g.
Proof using Hok.
  intros Hr Hp Hl. apply safe_post. clear V.
  destruct c as [v|fuel v| | |fuel|fuel max|]; cbn [start].
  all: try (apply safe_ret; intros V; split; [done|]; split; [done|]; exists Consumer; split_and!; try done;
            simpl; by rewrite received_snoc, app_nil_r).
  - apply safe_bind. eapply safe_mono; [by apply (safe_try_recv sh Hok)|].
    intros [self' r] g' (Hr' & Hp' & Hv). apply safe_ret. intros V. split; [done|]. split; [done|]. exists Consumer.
    unfold logged, reported. rewrite received_snoc, <-Hl.
    destruct r as [v|[]]; split_and!; cbn; rewrite ?app_nil_r; intuition (congruence || done).
  - apply safe_bind. unfold recv. eapply safe_mono; [by apply (safe_recv_loop sh Hok); [..|apply for_strategy_ok]|].
    intros [self' r] g' (Hr' & Hp' & Hv). apply safe_ret. intros V. split; [done|]. split; [done|]. exists Consumer.
    unfold logged, reported. rewrite received_snoc, <-Hl.
    destruct r as [v|[]]; split_and!; cbn; rewrite ?app_nil_r; intuition (congruence || done).
  - apply safe_bind. eapply safe_mono; [by apply (safe_drain sh Hok)|].
    intros [[self' seen] e] g' (Hr' & Hp' & Hv & He). apply safe_ret. intros V. split; [done|].
    split; [exact He|]. exists Consumer. unfold logged, reported. by rewrite received_snoc, <-Hl.
  - apply safe_bind. unfold Receiver_drop. destruct Hr. rewrite rc_shared.
    apply (safe_handle_drop sh Hok); try done; [lia|unfold num in *; lia|lia|].
    intros g' Hv Hg. apply safe_ret. intros V. split; [done|]. split; [done|]. exists Consumer.
    unfold logged, reported. rewrite received_snoc, <-Hl. split_and!; cbn; rewrite ?app_nil_r; done.
Qed.

(** ** The two obligations of the logic *)

Lemma side_entry E s' e : ([E Producer; E Consumer] : list (ent (ghost T) (call T) (event T))) !! tid_of s' = Some e → E s' = e.
Proof using Type. destruct s'; simpl; congruence. Qed.

Lemma two_sides i (x y z : ent (ghost T) (call T) (event T)) :
  [x; y] !! i = Some z → ∃ s, i = tid_of s.
Proof using Type. destruct i as [|[|]]; [by exists Producer|by exists Consumer|done]. Qed.

Lemma insert_side (E : side → ent (ghost T) (call T) (event T)) s' e :
  <[tid_of s' := e]> [E Producer; E Consumer] = [upd s' e E Producer; upd s' e E Consumer].
Proof using Type. by destruct s'. Qed.

Lemma start_ok Γ m i g V tr h c :
  Inv sh Γ m → Γ !! i = Some (Ent g V tr None) → ready_ok i h V g tr →
  calls_in Γ < usize_max →
  Inv sh (<[i := Ent g V tr (Some c)]> Γ) m ∧ wp (Inv sh) i tr c (post i tr c) (start c h) V g.
Proof using Hok.
  intros (E & -> & HI & HC) Hi Hr Hcalls.
  assert (Hlen : Z.of_nat (length tr) < usize_max).
  { pose proof (weight_le _ _ _ Hi) as Hw. unfold weight in Hw. simpl in Hw. simpl in Hcalls. lia. }
  clear Hcalls. pose proof (si_log _ _ _ HI) as [HlP HlC]. split.
  - destruct (two_sides _ _ _ _ Hi) as [s ->]. apply side_entry in Hi.
    rewrite insert_side. eexists. split; [reflexivity|]. split; [by apply start_inv|].
    apply calls_upd; [done|]. intros c' _ _. destruct h; [by destruct Hr as [_ []]|by destruct Hr as (_ & [] & _)].
  - destruct h as [self|self]; simpl in Hr.
    + destruct Hr as [-> Hs]. apply (side_entry _ Producer) in Hi. rewrite Hi in HlP. apply start_sender; [done|exact HlP|].
      simpl in HlP. unfold num. rewrite HlP. pose proof (accepted_length tr). lia.
    + destruct Hr as (-> & Hs & Hp). apply (side_entry _ Consumer) in Hi. rewrite Hi in HlC. by apply start_receiver.
Qed.

Lemma finish_ok Γ m i g V tr c keep new o :
  Inv sh Γ m → Γ !! i = Some (Ent g V tr (Some c)) → post i tr c (keep, new, o) V g →
  ∃ g' gs,
    Inv sh (<[i := Ent g' V (tr ++ [(c, o)]) None]> Γ ++ ((λ g, Ent g V [] None) <$> gs)) m ∧
    (∀ h, keep = Some h → ready_ok i h V g' (tr ++ [(c, o)])) ∧
    (keep = None → gone_ok i g') ∧ length gs = length new ∧
    (∀ j h g, new !! j = Some h → gs !! j = Some g → ready_ok (length Γ + j) h V g []).
Proof using Type.
  intros (E & -> & HI & HC) Hi (-> & _ & s & -> & Hlog & Hrep & Hkeep). apply side_entry in Hi.
  exists g, []. split_and!; try done.
  - rewrite app_nil_r, insert_side. eexists. split; [reflexivity|].
    split; [|by apply calls_upd].
    apply return_inv; [done|done|]. destruct s; by split.
  - by intros h ->.
  - by intros ->.
Qed.
End calls.

(** ** The start of a run *)

Section initial.
Variables (cap : Z) (strat : WaitStrategy).
Hypothesis Hpos : 0 < cap.
Hypothesis Hmax : cap ≤ usize_max.
Hypothesis Hpow : is_power_of_two cap = true.

Definition shared : Shared := MkShared 0 cap (cap - 1) cap strat.
Definition counts : loc := strong shared.
Definition view0 : tview := read_view counts 0 Relaxed (Msg 1 ∅) fresh_view.
Definition view1 : tview := write_view counts 1 view0.
Definition fields : list (field * Z) :=
  [(StrongCount, 1); (Tail, 0); (Head, 0); (Disconnected, Z.b2z false)]
    ++ Parker_new Consumer ++ Parker_new Producer.
Definition mem1 : mem T :=
  add_msg counts 1 (Msg 2 (vjoin ∅ (released counts 1 Relaxed view0)))
    (malloc (Z.to_nat cap) fields empty_mem).
Definition initial : conf :=
  Config mem1 [Thread view1 (Ready (HSender (MkSender shared 0 0))) [];
               Thread view1 (Ready (HReceiver (MkReceiver shared 0 0))) []].

Lemma shared_ok : ring_ok (Spsc.cap shared) (mask shared) (buf_len shared).
Proof using Hpos Hmax Hpow. by apply ring_ok_intro. Qed.

Abbreviation mem0 := (malloc (Z.to_nat cap) fields (empty_mem (T := T))).

Lemma counts_new : hist mem0 !! counts = Some {[0%nat := Msg 1 ∅]} ∧ newest counts mem0 = 0%nat.
Proof using Type. by split; vm_compute. Qed.

Lemma launch_eq : launch cap strat = Some initial.
Proof using Hpos Hmax Hpow.
  unfold launch, channel, assert_cap. rewrite (proj2 (Z.ltb_lt _ _) Hpos), Hpow.
  pose proof (usize_modulus_ge). assert (usize_sub cap 1 = Some (cap - 1)) as ->.
  { apply checked_in_range. unfold is_usize, usize_max in *. lia. }
  assert (wrap (1 + 1) = 2) as Hw by (apply wrap_small; unfold is_usize; lia).
  assert ((MAX_REFCOUNT <? 1) = false) as Hr by (pose proof MAX_REFCOUNT_ge; apply Z.ltb_ge; lia).
  cbv beta iota zeta delta [lone_run lone_pick Memory.step mbind prog_bind bind mret prog_ret
    Arc_clone fetch_add arith andb].
  change (nextring empty_mem) with 0%nat. fold fields shared. fold counts.
  destruct counts_new as [-> ->].
  rewrite lookup_singleton_eq, lookup_singleton_ne by done.
  rewrite (proj2 (Nat.leb_le _ _)) by (vm_compute; lia). cbn [mval mview]. rewrite Hw, Hr. done.
Qed.

Definition ghost0 : ghost T := Ghost [] 0 0 Open [] false false.
Definition entry0 : ent (ghost T) (call T) (event T) := Ent ghost0 view1 [] None.

Lemma hist1 l h :
  l ≠ counts → hist mem0 !! l = Some h → hist mem1 !! l = Some h.
Proof using Type. intros Hne Hh. unfold mem1, add_msg, set_hist. simpl. by rewrite lookup_insert_ne. Qed.

Lemma hist_zero f :
  (f, 0) ∈ fields → hist mem1 !! Loc 0 f = Some {[0%nat := Msg 0 ∅]}.
Proof using Type.
  unfold fields, Parker_new. cbn [app]. rewrite !elem_of_cons, elem_of_nil. intros Hf.
  apply hist1.
  - intros [= ->]. by destruct Hf as [[=]|[[=]|[[=]|[[=]|[[=]|[[=]|[]]]]]]].
  - by destruct Hf as [[=]|[[= ->]|[[= ->]|[[= ->]|[[= ->]|[[= ->]|[]]]]]]]; vm_compute.
Qed.

Lemma cells_zero i : (i < Z.to_nat cap)%nat → mcells mem1 !! Loc 0 (Buf i) = Some (0%nat, None).
Proof using Type.
  simpl. generalize (Z.to_nat cap). intros n. induction n as [|n IH]; intros Hi; [lia|]. simpl.
  destruct (decide (i = n)) as [->|]; [by rewrite lookup_insert_eq|].
  rewrite lookup_insert_ne by (intros [=]; lia). apply IH. lia.
Qed.

Lemma covers_none s W : covers shared s 0 W.
Proof using Type. intros q Hq. lia. Qed.

Lemma zero_ctr s E :
  (∀ s, E s = entry0) → ctr_inv shared s E mem1 {[0%nat := Msg 0 ∅]}.
Proof using Type.
  intros HE. split; rewrite ?HE; simpl.
  - intros t x [<- <-]%lookup_singleton_Some. simpl. split; [lia|apply covers_none].
  - by intros t x t' x' [<- <-]%lookup_singleton_Some [<- <-]%lookup_singleton_Some.
  - exists 0%nat, (Msg 0 ∅). by rewrite lookup_singleton_eq.
  - intros t [x [<- <-]%lookup_singleton_Some]. lia.
  - by intros t x [<- <-]%lookup_singleton_Some.
Qed.

Lemma fresh_mem E : (∀ s, E s = entry0) → mem_inv shared E mem1.
Proof using Hpos Hmax Hpow.
  intros HE. split.
  - intros s. exists {[0%nat := Msg 0 ∅]}. split; [|by apply zero_ctr].
    destruct s; apply hist_zero; unfold fields; set_solver.
  - exists {[0%nat := Msg 0 ∅]}. split; [apply hist_zero; unfold fields; set_solver|].
    intros t x [<- <-]%lookup_singleton_Some. by left.
  - eexists. split; [unfold mem1, add_msg, set_hist; simpl; by rewrite lookup_insert_eq|].
    destruct counts_new as [Hc _]. simpl in Hc. fold counts in Hc. rewrite Hc. simpl.
    exists 1%nat, (Msg 2 (vjoin ∅ (released counts 1 Relaxed view0))). split_and!.
    + intros t. rewrite lookup_insert_is_Some, lookup_singleton_is_Some. split; [lia|].
      intros Ht. destruct (decide (1 = t)%nat); [by left|right; lia].
    + by rewrite lookup_insert_eq.
    + unfold refs. by rewrite !HE.
    + intros s. by rewrite HE.
  - intros s. eexists. destruct s; apply hist_zero; unfold fields; set_solver.
  - intros s. rewrite HE. apply covers_none.
  - intros s. rewrite HE. apply covers_none.
  - intros s. by rewrite HE.
  - intros s. by rewrite HE.
  - intros q. unfold consumed. rewrite !HE. cbn. lia.
  - intros q. unfold consumed. rewrite !HE. intros Hq. unfold num in Hq. cbn in Hq.
    rewrite (round_small shared) by (cbn; lia).
    apply cells_zero, (slot_of_lt shared_ok).
Qed.

Lemma fresh_inv : SInv shared (λ _, entry0) mem1.
Proof using Hpos Hmax Hpow.
  split; try done; try (intros; by apply fresh_mem).
  all: pose proof usize_modulus_ge; unfold usize_max, consumed, num; cbn; try done; try lia.
Qed.

Lemma initial_ok :
  conf_ok (Inv shared) (ready_ok shared) gone_ok (post shared) [entry0; entry0] initial.
Proof using Hpos Hmax Hpow.
  pose proof usize_modulus_ge.
  split; [|done|].
  - exists (λ _, entry0). split; [done|]. split; [apply fresh_inv|done].
  - intros [|[|]] th e; simpl; [| |done]; intros [= <-] [= <-]; (split; [done|]);
      (split; [done|]); simpl; split; try done.
    + split; [done|]. split; unfold num, usize_max in *; cbn; try done; lia.
    + split; [done|]. split; [|done]. split; unfold num, usize_max in *; cbn; try done; lia.
Qed.

(** What the invariant says of the two threads at the end of a run. *)
Record run_ok (E : side → ent (ghost T) (call T) (event T)) (g : conf) (th : side → thread T handle (call T) (event T)) : Prop := {
  ro_inv : SInv shared E (cmem g);
  ro_pool : pool g = [th Producer; th Consumer];
  ro_trace s : trace (th s) = etr (E s);
  ro_fine s : stat (th s) ≠ Panicking;
  ro_cur s : ecur (E s) = busy (th s);
  ro_ready s h : stat (th s) = Ready h → gphase (eg (E s)) = Open;
  ro_told s h : stat (th s) = Ready h → gpub (eg (E s)) = num (eg (E s));
  ro_calls : calls_ok E;
  ro_exited s : stat (th s) = Exited → gphase (eg (E s)) = Gone;
}.

Lemma run_inv s :
  calls s ≤ usize_max → ∃ g E th, exec start s initial = inr g ∧ run_ok E g th.
Proof using Hpos Hmax Hpow.
  intros Hs.
  destruct (adequacy start (Inv shared) (ready_ok shared) gone_ok (post shared) usize_max
    (start_ok shared shared_ok) (finish_ok shared) [entry0; entry0] initial 0 s initial_ok)
    as (Γ & g & Hrun & Hok); [done|lia|].
  destruct Hok as [(E & -> & HI & HC) Hlen Hth]. cbn [length] in Hlen.
  destruct g as [m [|tP [|tC [|]]]]; try done.
  assert (Hside : ∀ s, thread_ok (Inv shared) (ready_ok shared) gone_ok (post shared) (tid_of s)
    (match s with Producer => tP | Consumer => tC end) (E s)).
  { intros []; by apply Hth. }
  exists (Config m [tP; tC]), E, (λ s, match s with Producer => tP | Consumer => tC end).
  split; [exact Hrun|]. clear Hrun Hth. split; [exact HI|done|..|exact HC|].
  all: intros s'; specialize (Hside s'); destruct Hside as (_ & Htr & Hst).
  - done.
  - by intros Hp; rewrite Hp in Hst.
  - unfold busy. destruct (stat _) as [h|c p| | |c]; try apply Hst. done.
  - intros h Hh. rewrite Hh in Hst. destruct Hst as [_ Hr].
    destruct h; simpl in Hr; [by destruct Hr as [_ []]|by destruct Hr as (_ & [] & _)].
  - intros h Hh. rewrite Hh in Hst. destruct Hst as [_ Hr].
    destruct h; simpl in Hr; [by destruct Hr as [_ []]|by destruct Hr as (_ & _ & ?)].
  - intros Hx. rewrite Hx in Hst. apply Hst.
Qed.

(** [g] is where a schedule takes the two threads. *)
Definition runs_to (s : list (choice (call T))) (g : conf) : Prop :=
  ∃ g0, launch cap strat = Some g0 ∧ exec start s g0 = inr g.

(** The value the call in progress offers. *)
Definition pending (th : thread T handle (call T) (event T)) : list T :=
  default [] (offered <$> busy th).

Lemma runs_to_ok s g tP tC :
  calls s ≤ usize_max → runs_to s g → pool g = [tP; tC] →
  ∃ E th, run_ok E g th ∧ th Producer = tP ∧ th Consumer = tC.
Proof using Hpos Hmax Hpow.
  intros Hs (g0 & Hg0 & Hrun) Hpool. rewrite launch_eq in Hg0. injection Hg0 as <-.
  destruct (run_inv s Hs) as (g' & E & th & Hrun' & Hok).
  rewrite Hrun in Hrun'. injection Hrun' as <-. exists E, th. split; [done|].
  pose proof (ro_pool _ _ _ Hok) as Hp. rewrite Hpool in Hp. by injection Hp.
Qed.

(** What the logs of the threads are to the ghost states. *)
Lemma producer_log E g th :
  run_ok E g th →
  accepted (trace (th Producer)) `prefix_of` vals (eg (E Producer)) ∧
  vals (eg (E Producer)) `prefix_of` accepted (trace (th Producer)) ++ pending (th Producer).
Proof using Type.
  intros Hok. destruct (si_log _ _ _ (ro_inv _ _ _ Hok)) as [Hl _].
  rewrite (ro_cur _ _ _ Hok), <-(ro_trace _ _ _ Hok) in Hl. unfold pending.
  destruct (busy (th Producer)); simpl in *; [done|]. rewrite app_nil_r. by rewrite Hl.
Qed.

Lemma consumer_log E g th :
  run_ok E g th →
  received (trace (th Consumer)) `prefix_of` vals (eg (E Consumer)) ∧
  (busy (th Consumer) = None → vals (eg (E Consumer)) = received (trace (th Consumer))).
Proof using Type.
  intros Hok. destruct (si_log _ _ _ (ro_inv _ _ _ Hok)) as [_ Hl].
  rewrite (ro_cur _ _ _ Hok), <-(ro_trace _ _ _ Hok) in Hl.
  destruct (busy (th Consumer)); [done|]. by rewrite Hl.
Qed.

Lemma run_fifo E g th :
  run_ok E g th →
  received (trace (th Consumer)) `prefix_of` accepted (trace (th Producer)) ++ pending (th Producer).
Proof using Type.
  intros Hok. etrans; [apply (consumer_log _ _ _ Hok)|]. etrans; [|apply (producer_log _ _ _ Hok)].
  etrans; [|apply (si_prefix _ _ _ (ro_inv _ _ _ Hok))]. by apply prefix_app_r.
Qed.

(** ** What every run guarantees *)

(** C3. Memory safety under every interleaving and every weak-memory outcome:
    whatever calls the two threads make and however they are scheduled, as
    long as there are at most [usize::MAX] of them no step races, reads an
    uninitialized slot, overwrites a value or touches freed memory, and no
    thread panics. *)
Theorem spsc_concurrent_safe s :
  calls s ≤ usize_max →
  ∃ g, runs_to s g ∧ Forall (λ th, stat th ≠ Panicking) (pool g).
Proof using Hpos Hmax Hpow.
  intros Hs. destruct (run_inv s Hs) as (g & E & th & Hrun & Hok).
  exists g. split; [exists initial; by rewrite launch_eq|].
  rewrite (ro_pool _ _ _ Hok). repeat constructor; apply (ro_fine _ _ _ Hok).
Qed.

(** C4. FIFO and exactly-once delivery: the values received are, in order, a
    prefix of the values accepted, the one of a send in progress included. *)
Theorem spsc_concurrent_fifo s g tP tC :
  calls s ≤ usize_max → runs_to s g → pool g = [tP; tC] →
  received (trace tC) `prefix_of` accepted (trace tP) ++ pending tP.
Proof using Hpos Hmax Hpow.
  intros Hs Hrun Hpool. destruct (runs_to_ok _ _ _ _ Hs Hrun Hpool) as (E & th & Hok & <- & <-).
  by eapply run_fifo.
Qed.

(** C5. Bounded occupancy: when the consumer is between calls, at most [cap]
    accepted values are outstanding. *)
Theorem spsc_concurrent_bounded s g tP tC :
  calls s ≤ usize_max → runs_to s g → pool g = [tP; tC] → busy tC = None →
  Z.of_nat (length (accepted (trace tP))) ≤ Z.of_nat (length (received (trace tC))) + cap.
Proof using Hpos Hmax Hpow.
  intros Hs Hrun Hpool Hidle. destruct (runs_to_ok _ _ _ _ Hs Hrun Hpool) as (E & th & Hok & <- & <-).
  pose proof (ro_inv _ _ _ Hok) as HI. destruct (producer_log _ _ _ Hok) as [Hp%prefix_length _].
  rewrite <-(proj2 (consumer_log _ _ _ Hok) Hidle).
  pose proof (si_room _ _ _ HI). pose proof (si_seen _ _ _ HI Producer).
  pose proof (si_pub _ _ _ HI Consumer). unfold num in *. cbn [peer Spsc.cap shared] in *. lia.
Qed.

(** C6. A disconnect report is final and loses nothing: once the consumer has
    been told that the sender is gone, every value ever accepted has been
    received and the sender is no longer usable; once the producer has been
    told that the receiver is gone, the receiver is no longer usable. *)
Theorem spsc_concurrent_disconnect s g tP tC :
  calls s ≤ usize_max → runs_to s g → pool g = [tP; tC] →
  (existsb saw_disconnect (trace tC) = true → busy tC = None →
     accepted (trace tP) `prefix_of` received (trace tC) ∧ ∀ h, stat tP ≠ Ready h) ∧
  (existsb saw_disconnect (trace tP) = true → ∀ h, stat tC ≠ Ready h).
Proof using Hpos Hmax Hpow.
  intros Hs Hrun Hpool. destruct (runs_to_ok _ _ _ _ Hs Hrun Hpool) as (E & th & Hok & <- & <-).
  pose proof (ro_inv _ _ _ Hok) as HI. destruct (si_reports _ _ _ HI) as [HrP HrC].
  rewrite <-!(ro_trace _ _ _ Hok) in HrP, HrC. split.
  - intros Hsaw Hidle. destruct (HrC Hsaw) as [Hd Hn].
    destruct (si_done _ _ _ HI Consumer Hd) as [Hph Hseen]. split.
    + rewrite <-(proj2 (consumer_log _ _ _ Hok) Hidle).
      etrans; [apply (producer_log _ _ _ Hok)|].
      assert (vals (eg (E Consumer)) = vals (eg (E Producer))) as ->; [|done].
      apply prefix_length_eq; [|unfold num in *; cbn [peer] in *; lia].
      etrans; [|apply (si_prefix _ _ _ HI)]. by apply prefix_app_r.
    + intros h Hh%(ro_ready _ _ _ Hok). by apply Hph.
  - intros Hsaw h Hh%(ro_ready _ _ _ Hok). by apply (si_know _ _ _ HI Producer (HrP Hsaw)).
Qed.

(** C7. Nothing leaks and nothing is dropped twice: when both handles are
    gone, every accepted value was received or dropped with the ring, in order
    and once. *)
Theorem spsc_concurrent_no_leak s g tP tC :
  calls s ≤ usize_max → runs_to s g → pool g = [tP; tC] →
  stat tP = Exited → stat tC = Exited →
  accepted (trace tP) = received (trace tC) ++ mdropped (cmem g).
Proof using Hpos Hmax Hpow.
  intros Hs Hrun Hpool. destruct (runs_to_ok _ _ _ _ Hs Hrun Hpool) as (E & th & Hok & <- & <-).
  pose proof (ro_inv _ _ _ Hok) as HI. intros HP HC.
  assert (freed E) as Hf by (split; by apply (ro_exited _ _ _ Hok)).
  pose proof (si_freed _ _ _ HI Hf) as Hall.
  assert (busy (th Producer) = None) as HbP by (unfold busy; by rewrite HP).
  assert (busy (th Consumer) = None) as HbC by (unfold busy; by rewrite HC).
  rewrite <-(proj2 (consumer_log _ _ _ Hok) HbC), (si_dropped _ _ _ HI).
  destruct (producer_log _ _ _ Hok) as [H1 H2]. unfold pending in H2. rewrite HbP in H2.
  simpl in H2. rewrite app_nil_r in H2.
  assert (accepted (trace (th Producer)) = vals (eg (E Producer))) as ->.
  { apply prefix_length_eq; [done|]. by apply prefix_length. }
  symmetry. apply prefix_length_eq; [apply (si_prefix _ _ _ HI)|].
  unfold consumed, num in Hall. rewrite !length_app. lia.
Qed.
End initial.
End clients.

(** ** Concrete runs *)

(** A ring of two slots under [Park]; 7 panics the callback of [drain]. *)
Definition demo_cb (v : Z) : bool := negb (v =? 7).
Definition demo_calls : list (list (tid * call Z)) :=
  [[(0%nat, CTrySend 1); (1%nat, CTryRecv)];
   [(0%nat, CTrySend 7); (1%nat, CDrain 5 5)];
   [(0%nat, CTrySend 3); (1%nat, CRecv 5)];
   [(0%nat, CSend 5 4)]; [(0%nat, CTrySend 5)]; [(0%nat, CTrySend 6); (1%nat, CRecv 5)]].
(** The sender goes, and what is left is received. *)
Definition demo_gone : list (list (tid * call Z)) :=
  demo_calls ++ [[(0%nat, CDropSender); (1%nat, CRecv 5)]; [(1%nat, CTryRecv)]].
(** Both go, with values left in the ring. *)
Definition demo_left : list (list (tid * call Z)) :=
  demo_calls ++ [[(0%nat, CDropSender); (1%nat, CDropReceiver)]].

Definition demo (css : list (list (tid * call Z))) : list (choice (call Z)) :=
  match launch 2 Park with Some g0 => rounds (start demo_cb) css g0 | None => [] end.

Abbreviation demo_runs css g := (runs_to demo_cb 2 Park (demo css) g).

(** Evaluate an observation of the two threads and the memory at the end. *)
Abbreviation demo_thread := (thread Z handle (call Z) (event Z)).
Definition look_with {A} (cb : Z → bool) (s : list (choice (call Z)))
    (f : demo_thread → demo_thread → mem Z → A) : option A :=
  match launch 2 Park with
  | Some g0 =>
      match exec (start cb) s g0 with
      | inr {| cmem := m; pool := [tP; tC] |} => Some (f tP tC m)
      | _ => None
      end
  | None => None
  end.

Lemma look_with_schedule {A} cb s (f : demo_thread → demo_thread → mem Z → A) x :
  look_with cb s f = Some x →
  ∃ g tP tC, runs_to cb 2 Park s g ∧ pool g = [tP; tC] ∧ f tP tC (cmem g) = x.
Proof.
  unfold look_with. destruct (launch 2 Park) as [g0|] eqn:Hg0; [|done].
  destruct (exec _ _ g0) as [|[m [|tP [|tC [|]]]]] eqn:Hrun; try done. intros [= <-].
  by exists (Config m [tP; tC]), tP, tC; split; [exists g0|].
Qed.

Definition look_at {A} (s : list (choice (call Z))) (f : demo_thread → demo_thread → mem Z → A) :
    option A := look_with demo_cb s f.

Lemma look_schedule {A} s (f : demo_thread → demo_thread → mem Z → A) x :
  look_at s f = Some x →
  ∃ g tP tC, runs_to demo_cb 2 Park s g ∧ pool g = [tP; tC] ∧ f tP tC (cmem g) = x.
Proof. apply look_with_schedule. Qed.

Definition look {A} (css : list (list (tid * call Z))) (f : demo_thread → demo_thread → mem Z → A) :
    option A :=
  look_at (demo css) f.

Lemma look_run {A} css (f : demo_thread → demo_thread → mem Z → A) x :
  look css f = Some x →
  ∃ g tP tC, demo_runs css g ∧ pool g = [tP; tC] ∧ f tP tC (cmem g) = x.
Proof. apply look_schedule. Qed.

Lemma spsc_concurrent_safe_witness :
  Z.of_nat (length (demo demo_left)) = 95 ∧
  ∃ g, demo_runs demo_left g ∧ Forall (λ th, stat th ≠ Panicking) (pool g).
Proof.
  split; [vm_compute; reflexivity|].
  apply (spsc_concurrent_safe demo_cb 2 Park); by vm_compute.
Defined.

Lemma spsc_concurrent_fifo_witness : ∃ g tP tC,
  demo_runs demo_calls g ∧ pool g = [tP; tC] ∧
  (accepted (trace tP), received (trace tC)) = ([1; 7; 3; 4; 5], [1; 7; 3; 4]) ∧
  received (trace tC) `prefix_of` accepted (trace tP) ++ pending tP.
Proof.
  destruct (look_run demo_calls (λ tP tC _, (accepted (trace tP), received (trace tC)))
    ([1; 7; 3; 4; 5], [1; 7; 3; 4])) as (g & tP & tC & Hrun & Hpool & Heq); [by vm_compute|].
  exists g, tP, tC. split_and!; [exact Hrun|exact Hpool|exact Heq|].
  apply (spsc_concurrent_fifo demo_cb 2 Park) with (s := demo demo_calls) (g := g);
    [by vm_compute..|exact Hrun|exact Hpool].
Defined.

Lemma spsc_concurrent_bounded_witness : ∃ g tP tC,
  demo_runs demo_calls g ∧ pool g = [tP; tC] ∧
  (at_rest tC, accepted (trace tP), received (trace tC)) = (true, [1; 7; 3; 4; 5], [1; 7; 3; 4]) ∧
  Z.of_nat (length (accepted (trace tP))) ≤ Z.of_nat (length (received (trace tC))) + 2.
Proof.
  destruct (look_run demo_calls (λ tP tC _, (at_rest tC, accepted (trace tP), received (trace tC)))
    (true, [1; 7; 3; 4; 5], [1; 7; 3; 4])) as (g & tP & tC & Hrun & Hpool & Heq); [by vm_compute|].
  exists g, tP, tC. split_and!; [exact Hrun|exact Hpool|exact Heq|].
  apply (spsc_concurrent_bounded demo_cb 2 Park) with (s := demo demo_calls) (g := g);
    [by vm_compute..|exact Hrun|exact Hpool|]. apply at_rest_busy. congruence.
Defined.

Lemma spsc_concurrent_disconnect_witness : ∃ g tP tC,
  demo_runs demo_gone g ∧ pool g = [tP; tC] ∧
  (existsb saw_disconnect (trace tC), at_rest tC, received (trace tC)) =
    (true, true, [1; 7; 3; 4; 5]) ∧
  accepted (trace tP) `prefix_of` received (trace tC) ∧ ∀ h, stat tP ≠ Ready h.
Proof.
  destruct (look_run demo_gone
    (λ tP tC _, (existsb saw_disconnect (trace tC), at_rest tC, received (trace tC)))
    (true, true, [1; 7; 3; 4; 5])) as (g & tP & tC & Hrun & Hpool & Heq); [by vm_compute|].
  exists g, tP, tC. split; [exact Hrun|]. split; [exact Hpool|]. split; [exact Heq|].
  apply (spsc_concurrent_disconnect demo_cb 2 Park) with (s := demo demo_gone) (g := g);
    [by vm_compute..|exact Hrun|exact Hpool|congruence|apply at_rest_busy; congruence].
Defined.

Lemma spsc_concurrent_no_leak_witness : ∃ g tP tC,
  demo_runs demo_left g ∧ pool g = [tP; tC] ∧
  (exited tP, exited tC, mdropped (cmem g)) = (true, true, [5]) ∧
  accepted (trace tP) = received (trace tC) ++ mdropped (cmem g).
Proof.
  destruct (look_run demo_left (λ tP tC m, (exited tP, exited tC, mdropped m))
    (true, true, [5])) as (g & tP & tC & Hrun & Hpool & Heq); [by vm_compute|].
  exists g, tP, tC. split_and!; [exact Hrun|exact Hpool|exact Heq|].
  apply (spsc_concurrent_no_leak demo_cb 2 Park) with (s := demo demo_left) (g := g);
    [by vm_compute..|exact Hrun|exact Hpool| |]; apply exited_stat; congruence.
Defined.
