(* ===== verification/SpscCounters.v ===== *)
(** The invariant of the SPSC ring's two shared counters, as one reads it off
    the memory: the histories of [tail] and [head] in any reachable
    configuration, under any schedule. *)
From S2P Require Import Prelude Usize Atomic Errors Wait Notify Ring Queue Spsc Seq Memory Machine Logic Parking SpscInv SpscConc SpscRuns.
Local Open Scope Z_scope.

(** [n] is the newest value of location [l], and the values it took never
    decreased on the way there. *)
Definition climbs_to {T} (m : mem T) (l : loc) (n : Z) : Prop :=
  ∃ h, hist m !! l = Some h ∧
    (∃ t x, h !! t = Some x ∧ mval x = n) ∧
    (∀ t x, h !! t = Some x → 0 ≤ mval x ≤ n) ∧
    (∀ t x t' x', h !! t = Some x → h !! t' = Some x' → (t ≤ t')%nat → mval x ≤ mval x').

Section counters.
Context `{tgt : Target} {T : Type} (cb : T → bool) (cap : Z) (strat : WaitStrategy).
Hypothesis Hpos : 0 < cap.
Hypothesis Hmax : cap ≤ usize_max.
Hypothesis Hpow : is_power_of_two cap = true.

Implicit Types (E : side → ent (ghost T) (call T) (event T)).
Implicit Types (th : side → thread T handle (call T) (event T)).

Lemma ctr_climbs sh s E (m : mem T) :
  mem_inv sh E m → climbs_to m (ctr sh s) (gpub (eg (E s))).
Proof using Type.
  intros HI. destruct (mi_ctr _ _ _ HI s) as (h & Hh & Hc). exists h. split; [done|].
  split_and!; [apply (ci_last _ _ _ _ _ Hc)| |apply (ci_mono _ _ _ _ _ Hc)].
  intros t x Hx. by apply (ci_msg _ _ _ _ _ Hc t).
Qed.

(** A side between two calls has published all it did. *)
Lemma published_trace E g th s h :
  run_ok cap strat E g th → stat (th s) = Ready h →
  gpub (eg (E s)) = match s with
    | Producer => Z.of_nat (length (accepted (trace (th Producer))))
    | Consumer => Z.of_nat (length (received (trace (th Consumer))))
    end.
Proof using Type.
  intros Hok Hst. rewrite (ro_told _ _ _ _ _ Hok _ _ Hst). unfold num.
  pose proof (ro_cur _ _ _ _ _ Hok s) as Hc. unfold busy in Hc. rewrite Hst in Hc.
  destruct (si_log _ _ _ (ro_inv _ _ _ _ _ Hok)) as [HP HC].
  destruct s; rewrite (ro_trace _ _ _ _ _ Hok).
  - rewrite Hc in HC. by rewrite HC.
  - rewrite Hc in HP. by rewrite HP.
Qed.

(** The thread owns its handle and is not giving it up. *)
Definition holding (x : thread T handle (call T) (event T)) : bool :=
  match stat x with
  | Ready _ => true
  | Running c _ | Stalled c => negb (drops c)
  | _ => false
  end.

Lemma holding_open E g th s :
  run_ok cap strat E g th → holding (th s) = true → gphase (eg (E s)) = Open.
Proof using Type.
  intros Hok. pose proof (ro_cur _ _ _ _ _ Hok s) as Hc.
  pose proof (ro_ready _ _ _ _ _ Hok s) as Hr.
  pose proof (ro_calls _ _ _ _ _ Hok s) as Hd. unfold holding, busy in *.
  destruct (stat (th s)); try done; intros Hn%negb_true_iff || intros _; eauto.
Qed.

(** C10. Invariant. As long as one thread owns its handle, under every schedule
    and every weak-memory outcome, no matter what the two threads are in the
    middle of: the shared [tail] and [head] have only ever grown, the head
    never passed the tail, and the tail never ran more than [cap] ahead of the
    head; when the sender is between calls the tail is the number of values
    accepted, and when the receiver is, the head is the number of values
    received. *)
Theorem spsc_counters_invariant s g tP tC :
  calls s ≤ usize_max → runs_to cb cap strat s g → pool g = [tP; tC] →
  holding tP || holding tC = true →
  ∃ t h,
    climbs_to (cmem g) (tail (shared cap strat)) t ∧
    climbs_to (cmem g) (head (shared cap strat)) h ∧
    0 ≤ h ≤ t ∧ t ≤ h + cap ∧ t ≤ usize_max ∧
    (∀ hd, stat tP = Ready hd → t = Z.of_nat (length (accepted (trace tP)))) ∧
    (∀ hd, stat tC = Ready hd → h = Z.of_nat (length (received (trace tC)))).
Proof using Hpos Hmax Hpow.
  intros Hs Hrun Hpool Hh.
  destruct (runs_to_ok cb cap strat Hpos Hmax Hpow _ _ _ _ Hs Hrun Hpool) as (E & th & Hok & <- & <-).
  pose proof (ro_inv _ _ _ _ _ Hok) as HI.
  assert (mem_inv (shared cap strat) E (cmem g)) as Hm.
  { apply (si_mem _ _ _ HI). intros [HP HC].
    apply orb_true_iff in Hh as [Hh%(holding_open _ _ _ _ Hok)|Hh%(holding_open _ _ _ _ Hok)];
      congruence. }
  exists (gpub (eg (E Producer))), (gpub (eg (E Consumer))).
  pose proof (si_seen _ _ _ HI Producer). pose proof (si_seen _ _ _ HI Consumer).
  pose proof (si_room _ _ _ HI). pose proof (si_consumed _ _ _ HI). pose proof (si_max _ _ _ HI).
  pose proof (si_pub _ _ _ HI Producer). pose proof (si_pub _ _ _ HI Consumer).
  unfold consumed in *. cbn [peer Spsc.cap shared] in *.
  split_and!; try lia.
  - apply (ctr_climbs _ Producer _ _ Hm).
  - apply (ctr_climbs _ Consumer _ _ Hm).
  - intros hd. apply (published_trace _ _ _ Producer _ Hok).
  - intros hd. apply (published_trace _ _ _ Consumer _ Hok).
Qed.
End counters.

(** The consumer is in the middle of a blocking [recv], the third value has
    just been sent. *)
Definition midway : list (choice (call Z)) := take 47 (demo demo_calls).

Lemma spsc_counters_invariant_witness : ∃ g tP tC t h,
  runs_to demo_cb 2 Park midway g ∧ pool g = [tP; tC] ∧
  (holding tP, busy tP, holding tC, busy tC, accepted (trace tP), received (trace tC)) =
    (true, None, true, Some (CRecv 5), [1; 7; 3], [1; 7]) ∧
  climbs_to (cmem g) (tail (shared 2 Park)) t ∧ climbs_to (cmem g) (head (shared 2 Park)) h ∧
  0 ≤ h ≤ t ∧ t ≤ h + 2.
Proof.
  destruct (look_schedule midway
    (λ tP tC _, (holding tP, busy tP, holding tC, busy tC, accepted (trace tP), received (trace tC)))
    (true, None, true, Some (CRecv 5), [1; 7; 3], [1; 7]))
    as (g & tP & tC & Hrun & Hpool & Heq); [by vm_compute|].
  destruct (spsc_counters_invariant demo_cb 2 Park ltac:(by vm_compute) ltac:(by vm_compute)
    ltac:(by vm_compute) midway g tP tC) as (t & h & Ht & Hh & Hb & Hc & _);
    [by vm_compute|exact Hrun|exact Hpool|by injection Heq as -> _|].
  exists g, tP, tC, t, h. split_and!; auto; apply Hb.
Defined.
