(* ===== verification/Track.v ===== *)
(** A second, partial logic over the machine: a thread's private stage and an
    invariant on the stages of all threads, for properties that come on top of
    safety. [track] follows a program without having to prove again that it
    is safe, and records where it may block; adequacy runs it along a
    development in [Logic], whose postconditions it may use. *)
From S2P Require Import Prelude Usize Atomic Seq Memory Machine Logic.
Local Open Scope Z_scope.

(** A program about to block in [thread::park]. *)
Definition parking {T A} (p : prog T A) : bool :=
  match p with ParkThread _ => true | _ => false end.

(** ** Passive actions *)

(** Actions that change nothing other threads can observe, but for the content
    of non-atomic cells: loads, accesses of cells, fences and hints. *)
Record undisturbed {T} (m m' : mem T) : Prop := {
  ud_hist : hist m' = hist m;
  ud_slots : mslots m' = mslots m;
  ud_queues : mqueues m' = mqueues m;
  ud_tokens : mtokens m' = mtokens m;
  ud_sc : vle (scview m) (scview m');
}.

Definition passive {T A} (p : prog T A) : Prop :=
  (∀ a, p ≠ Ret a) ∧ parking p = false ∧
  ∀ i V m t b p' V' m', Memory.step i p V m t b = Next (p', V', m') →
    vle (cur V) (cur V') ∧ undisturbed m m' ∧ ∃ a, p' = Ret a.

Section passive.
Context {T : Type}.

Lemma passive_Load {A} l o (f : Z → A) : passive (T := T) (Load l o (λ v, Ret (f v))).
Proof.
  split_and!; [done..|]. intros i V m t b p' V' m'. simpl.
  destruct (hist m !! l) as [h|]; [|done]. destruct (h !! t) as [x|]; [|done]. case_match; [|done].
  intros [= <- <- <-]. split; [apply read_view_grows|]. split; [done|eauto].
Qed.

Lemma passive_load l o : passive (T := T) (load l o).
Proof. apply (passive_Load l o id). Qed.

Lemma passive_load_bool l o : passive (T := T) (load_bool l o).
Proof. apply passive_Load. Qed.

Lemma passive_write l v : passive (T := T) (write_cell l v).
Proof.
  split_and!; [done..|]. intros i V m t b p' V' m'. unfold write_cell, Memory.step, access.
  destruct (mcells m !! l) as [[k [|]]|]; [by case_match|case_match; [|done]|done].
  intros [= <- <- <-]. split; [apply vle_set|]. split; [done|eauto].
Qed.

Lemma passive_read l : passive (T := T) (read_cell l).
Proof.
  split_and!; [done..|]. intros i V m t b p' V' m'. unfold read_cell, Memory.step, access.
  destruct (mcells m !! l) as [[k [|]]|]; [case_match; [|done]|by case_match|done].
  intros [= <- <- <-]. split; [apply vle_set|]. split; [done|eauto].
Qed.

Lemma passive_drop l : passive (T := T) (drop_cell l).
Proof.
  split_and!; [done..|]. intros i V m t b p' V' m'. unfold drop_cell, Memory.step, access.
  destruct (mcells m !! l) as [[k [|]]|]; [case_match; [|done]|by case_match|done].
  intros [= <- <- <-]. split; [apply vle_set|]. split; [done|eauto].
Qed.

Lemma passive_fence o : passive (T := T) (fence o).
Proof.
  split_and!; [done..|]. intros i V m t b p' V' m'. simpl.
  assert (vle (cur V) (cur (fence_view o V (scview m)).1) ∧ vle (scview m) (fence_view o V (scview m)).2) as [H1 H2].
  { destruct o; simpl; try (split; (apply vle_join_l || done)).
    split; [etrans; apply vle_join_l|apply vle_join_r]. }
  destruct (fence_view o V (scview m)) as [V1 G1]. intros [= <- <- <-]. split; [done|]. split; [done|eauto].
Qed.

Lemma passive_spin : passive (T := T) spin_loop.
Proof. split_and!; [done..|]. intros i V m t b p' V' m'. simpl. intros [= <- <- <-]. split; [done|]. split; [done|eauto]. Qed.
End passive.

#[export] Hint Resolve passive_load passive_load_bool passive_write passive_read passive_drop
  passive_fence passive_spin : rings.

Section track.
Context {T C O W : Type}.
(** What the development in [Logic] says of the memory, at every step. *)
Variable J : mem T → Prop.
Context (Wt : list (ent W C O) → mem T → Prop).
(** The stages in which a thread may block. *)
Variable dozing : tid → list (C * O) → C → W → Prop.

Inductive track (i : tid) (tr : list (C * O)) (c : C) {A} (Q : A → W → Prop) :
    prog T A → tview → W → Prop :=
  | track_ret a V w : Q a w → track i tr c Q (Ret a) V w
  | track_panicked V w : track i tr c Q Panicked V w
  | track_fuel V w : track i tr c Q OutOfFuel V w
  | track_step p V w (R : prog T A → tview → W → Prop) :
      (∀ a, p ≠ Ret a) →
      (parking p = true → dozing i tr c w) →
      (∀ Γ m, J m → Wt Γ m → Γ !! i = Some (Ent w V tr (Some c)) → ∀ t b p' V' m',
         step i p V m t b = Next (p', V', m') →
         ∃ w', Wt (<[i := Ent w' V' tr (Some c)]> Γ) m' ∧ R p' V' w') →
      (∀ p' V' w', R p' V' w' → track i tr c Q p' V' w') →
      track i tr c Q p V w.

Section rules.
Context (i : tid) (tr : list (C * O)) (c : C).

Lemma track_mono {A} (Q Q' : A → W → Prop) p V w :
  (∀ a w, Q a w → Q' a w) → track i tr c Q p V w → track i tr c Q' p V w.
Proof using Type.
  intros HQ. induction 1 as [a V w Ha|V w|V w|p V w R Hnr Hpk Hstep _ IH].
  - by apply track_ret, HQ.
  - apply track_panicked.
  - apply track_fuel.
  - by apply (track_step _ _ _ _ _ _ _ R).
Qed.

Lemma track_bind {A B} (f : A → prog T B) (Q : B → W → Prop) p V w :
  track i tr c (λ a w, ∀ V, track i tr c Q (f a) V w) p V w → track i tr c Q (p ≫= f) V w.
Proof using Type.
  induction 1 as [a V w Ha|V w|V w|p V w R Hnr Hpk Hstep _ IH].
  - apply Ha.
  - apply track_panicked.
  - apply track_fuel.
  - apply (track_step _ _ _ _ _ _ _ (λ p' V' w', ∃ p'', p' = p'' ≫= f ∧ R p'' V' w')).
    + intros b. destruct p; try done. by destruct (Hnr a).
    + intros Hp. apply Hpk. destruct p; try done. by destruct (Hnr a).
    + intros Γ m HJ HI Hi t b p' V' m'. unfold mbind, prog_bind. rewrite step_bind by done.
      destruct (step i p V m t b) as [[[p1 V1] m1]| |] eqn:Heq; intros; simplify_eq.
      destruct (Hstep Γ m HJ HI Hi _ _ _ _ _ Heq) as (w' & ? & ?). eauto.
    + intros p' V' w' (p'' & -> & HR). by apply IH.
Qed.

(** [follows p w Q]: from stage [w], whatever its views, [p] keeps the
    invariant and ends as [Q] says. *)
Definition follows {A} (p : prog T A) (w : W) (Q : A → W → Prop) : Prop :=
  ∀ V, track i tr c Q p V w.

Lemma follows_ret {A} (Q : A → W → Prop) a w : Q a w → follows (mret a) w Q.
Proof using Type. intros HQ V. by apply track_ret. Qed.

Lemma follows_panicked {A} (Q : A → W → Prop) w : follows Panicked w Q.
Proof using Type. intros V. apply track_panicked. Qed.

Lemma follows_fuel {A} (Q : A → W → Prop) w : follows OutOfFuel w Q.
Proof using Type. intros V. apply track_fuel. Qed.

Lemma follows_mono {A} (Q Q' : A → W → Prop) p w :
  follows p w Q → (∀ a w, Q a w → Q' a w) → follows p w Q'.
Proof using Type. intros Hp HQ V. eapply track_mono; [exact HQ|apply Hp]. Qed.

Lemma follows_bind {A B} (p : prog T A) (f : A → prog T B) w Q :
  follows p w (λ a w', follows (f a) w' Q) → follows (p ≫= f) w Q.
Proof using Type. intros Hp V. apply track_bind. eapply track_mono; [|apply Hp]. auto. Qed.

(** Checked arithmetic: only its result goes on. *)
Lemma follows_arith o w (Q : Z → W → Prop) : (∀ z, o = Some z → Q z w) → follows (arith o) w Q.
Proof using Type.
  intros HQ. destruct o as [z|]; [by apply follows_ret, HQ|apply follows_panicked].
Qed.

Lemma follows_index len z w (Q : nat → W → Prop) : (∀ n, Q n w) → follows (index len z) w Q.
Proof using Type.
  intros HQ. unfold index. destruct (_ && _); [by apply follows_ret|apply follows_panicked].
Qed.

(** One action. *)
Lemma follows_step {A} (p : prog T A) w Q :
  (∀ a, p ≠ Ret a) → (parking p = true → dozing i tr c w) →
  (∀ Γ m V, J m → Wt Γ m → Γ !! i = Some (Ent w V tr (Some c)) → ∀ t b p' V' m',
     step i p V m t b = Next (p', V', m') →
     ∃ w', Wt (<[i := Ent w' V' tr (Some c)]> Γ) m' ∧ follows p' w' Q) →
  follows p w Q.
Proof using Type.
  intros Hnr Hpk Hstep V. apply (track_step _ _ _ _ _ _ _ (track i tr c Q)); [done|done| |done].
  intros Γ m HJ HI Hi t b p' V' m' Heq.
  destruct (Hstep Γ m V HJ HI Hi _ _ _ _ _ Heq) as (w' & HI' & Hf). exists w'. split; [done|apply Hf].
Qed.
End rules.
End track.

(** ** Adequacy *)

Section adequacy.
Context {T H C O G W : Type} (start : C → H → prog T (reply H O)).
(** The development in [Logic]. *)
Variable Inv : list (ent G C O) → mem T → Prop.
Variable ready_ok : tid → H → tview → G → list (C * O) → Prop.
Variable gone_ok : tid → G → Prop.
Variable post : tid → list (C * O) → C → reply H O → tview → G → Prop.
Variable J : mem T → Prop.
(** The stages on top of it. *)
Variable Wt : list (ent W C O) → mem T → Prop.
Variable dozing : tid → list (C * O) → C → W → Prop.
Variable ready_at : tid → H → W → Prop.
Variable gone_at : tid → W → Prop.
Variable left_at : tid → list (C * O) → C → reply H O → W → Prop.
Variable limit : Z.

Hypothesis Hstart : ∀ Γ m i g V tr h c,
  Inv Γ m → Γ !! i = Some (Ent g V tr None) → ready_ok i h V g tr →
  calls_in Γ < limit →
  Inv (<[i := Ent g V tr (Some c)]> Γ) m ∧ wp Inv i tr c (post i tr c) (start c h) V g.

Hypothesis Hfinish : ∀ Γ m i g V tr c keep new o,
  Inv Γ m → Γ !! i = Some (Ent g V tr (Some c)) → post i tr c (keep, new, o) V g →
  ∃ g' gs,
    Inv (<[i := Ent g' V (tr ++ [(c, o)]) None]> Γ ++ ((λ g, Ent g V [] None) <$> gs)) m ∧
    (∀ h, keep = Some h → ready_ok i h V g' (tr ++ [(c, o)])) ∧
    (keep = None → gone_ok i g') ∧
    length gs = length new ∧
    (∀ j h g, new !! j = Some h → gs !! j = Some g → ready_ok (length Γ + j) h V g []).

Hypothesis Hknown : ∀ Γ m, Inv Γ m → J m.

Hypothesis Htrack : ∀ Γ Δ m i g w V tr h c,
  Inv Γ m → Γ !! i = Some (Ent g V tr None) → ready_ok i h V g tr →
  Wt Δ m → Δ !! i = Some (Ent w V tr None) → ready_at i h w →
  ∃ w', Wt (<[i := Ent w' V tr (Some c)]> Δ) m ∧
    track J Wt dozing i tr c (left_at i tr c) (start c h) V w'.

Hypothesis Hleave : ∀ Δ m i g w V tr c keep new o,
  Wt Δ m → Δ !! i = Some (Ent w V tr (Some c)) →
  post i tr c (keep, new, o) V g → left_at i tr c (keep, new, o) w →
  ∃ w' ws,
    Wt (<[i := Ent w' V (tr ++ [(c, o)]) None]> Δ ++ ((λ w, Ent w V [] None) <$> ws)) m ∧
    (∀ h, keep = Some h → ready_at i h w') ∧
    (keep = None → gone_at i w') ∧
    length ws = length new ∧
    (∀ j h w, new !! j = Some h → ws !! j = Some w → ready_at (length Δ + j) h w).

(** What the stages say of a thread. *)
Definition stage_ok (i : tid) (th : thread T H C O) (e : ent W C O) : Prop :=
  ev e = tvw th ∧ etr e = trace th ∧
  match stat th with
  | Ready h => ecur e = None ∧ ready_at i h (eg e)
  | Running c p => ecur e = Some c ∧ track J Wt dozing i (etr e) c (left_at i (etr e) c) p (ev e) (eg e)
  | Exited => ecur e = None ∧ gone_at i (eg e)
  | Panicking => True
  | Stalled c => ecur e = Some c
  end.

Record stages_ok (Δ : list (ent W C O)) (g : config T H C O) : Prop := {
  so_inv : Wt Δ (cmem g);
  so_len : length Δ = length (pool g);
  so_threads i th e : pool g !! i = Some th → Δ !! i = Some e → stage_ok i th e;
}.

Lemma stages_update Δ g i th th' e' m :
  stages_ok Δ g → pool g !! i = Some th → Wt (<[i := e']> Δ) m → stage_ok i th' e' →
  stages_ok (<[i := e']> Δ) (Config m (<[i := th']> (pool g))).
Proof using Type.
  intros [HI Hlen Hth] Hi HI' Hok. split; simpl; [done|by rewrite !length_insert|].
  intros j th2 e2 Hj He. pose proof (lookup_lt_Some _ _ _ Hi). destruct (decide (i = j)) as [<-|Hne].
  - rewrite list_lookup_insert_eq in Hj by lia. rewrite list_lookup_insert_eq in He by lia. by simplify_eq.
  - rewrite list_lookup_insert_ne in Hj by done. rewrite list_lookup_insert_ne in He by done. eauto.
Qed.

Lemma stages_entry Δ g i th :
  stages_ok Δ g → pool g !! i = Some th →
  ∃ w cur, Δ !! i = Some (Ent w (tvw th) (trace th) cur) ∧
    stage_ok i th (Ent w (tvw th) (trace th) cur).
Proof using Type.
  intros Hok Hi. destruct (lookup_lt_is_Some_2 Δ i) as [e He].
  { rewrite (so_len _ _ Hok). by eapply lookup_lt_Some. }
  pose proof (so_threads _ _ Hok i th e Hi He) as Hth.
  destruct e as [w V tr cur]. pose proof Hth as (HV & Htr & _). simpl in *. subst V tr. eauto.
Qed.

Lemma stages_call Γ Δ g i c :
  conf_ok Inv ready_ok gone_ok post Γ g → stages_ok Δ g →
  match act start (Call i c) g with Next g' => ∃ Δ', stages_ok Δ' g' | _ => True end.
Proof using Htrack.
  intros Hc Hs. simpl. destruct (pool g !! i) as [th|] eqn:Hi; [|done].
  destruct (stat th) as [h| | | |] eqn:Hst; try done.
  destruct (stages_entry _ _ _ _ Hs Hi) as (w & cur & He & Hth).
  unfold stage_ok in Hth. rewrite Hst in Hth. destruct Hth as (_ & _ & Hcur & Hr). simpl in Hcur, Hr. subst cur.
  destruct (lookup_lt_is_Some_2 Γ i) as [e1 He1].
  { rewrite (co_len _ _ _ _ _ _ Hc). by eapply lookup_lt_Some. }
  pose proof (co_threads _ _ _ _ _ _ Hc i th e1 Hi He1) as Hth1. unfold thread_ok in Hth1.
  rewrite Hst in Hth1. destruct e1 as [g1 V1 tr1 cur1], Hth1 as (HV & Htr & Hc1 & Hr1); simpl in *.
  subst V1 tr1 cur1.
  destruct (Htrack Γ Δ (cmem g) i g1 w (tvw th) (trace th) h c) as (w' & HW & Hp);
    [apply Hc|done|done|apply Hs|done|done|].
  eexists. eapply stages_update; [done|done|exact HW|]. by split_and!.
Qed.

Lemma stages_return Γ Δ g i th c keep new o :
  conf_ok Inv ready_ok gone_ok post Γ g → stages_ok Δ g → pool g !! i = Some th →
  stat th = Running c (Ret (keep, new, o)) →
  ∃ Δ', stages_ok Δ' (Config (cmem g) (<[i := returned th c keep o]> (pool g) ++ (spawned th <$> new))).
Proof using Hleave.
  intros Hc Hs Hi Hst. destruct (running_entry _ _ _ _ _ _ _ _ _ _ Hc Hi Hst) as (g1 & _ & Hwp).
  apply wp_ret_inv in Hwp. destruct (stages_entry _ _ _ _ Hs Hi) as (w & cur & He & Hth).
  unfold stage_ok in Hth. rewrite Hst in Hth. destruct Hth as (_ & _ & Hcur & Htr). simpl in Hcur, Htr. subst cur.
  assert (left_at i (trace th) c (keep, new, o) w) as Hleft.
  { inversion Htr as [? ? ? Ha| | |? ? ? ? Hnr]; subst; [done|]. by destruct (Hnr (keep, new, o)). }
  destruct (Hleave Δ (cmem g) i g1 w (tvw th) (trace th) c keep new o (so_inv _ _ Hs) He Hwp Hleft)
    as (w' & ws & HW & Hkeep & Hgone & Hlen & Hnew).
  pose proof (lookup_lt_Some _ _ _ He) as Hlt. pose proof (so_len _ _ Hs) as Hl.
  eexists. split; simpl; [exact HW| |].
  - rewrite !length_app, !length_insert, !length_fmap. lia.
  - intros j th2 e2 [Hj|[Hge Hj]]%lookup_app_Some Hje.
    + pose proof (lookup_lt_Some _ _ _ Hj) as Hjl. rewrite length_insert in Hjl.
      rewrite lookup_app_l in Hje by (rewrite length_insert; lia).
      destruct (decide (i = j)) as [<-|Hne].
      * rewrite list_lookup_insert_eq in Hj by lia. rewrite list_lookup_insert_eq in Hje by lia. simplify_eq.
        unfold stage_ok. simpl. split_and!; try done. destruct keep as [h|]; simpl; auto.
      * rewrite list_lookup_insert_ne in Hj by done. rewrite list_lookup_insert_ne in Hje by done.
        by eapply (so_threads _ _ Hs).
    + rewrite length_insert in Hge, Hj.
      rewrite lookup_app_r in Hje by (rewrite length_insert; lia).
      rewrite length_insert in Hje. rewrite list_lookup_fmap in Hje.
      destruct (ws !! _) as [w2|] eqn:Hw2; simplify_eq/=.
      rewrite list_lookup_fmap in Hj. destruct (new !! _) as [h|] eqn:Hh; simplify_eq/=.
      unfold stage_ok. simpl. split_and!; try done. rewrite Hl in Hw2.
      replace j with (length Δ + (j - length (pool g)))%nat by lia. by eapply Hnew.
Qed.

Lemma stages_step Γ Δ g i th c p t b p' V' m' :
  conf_ok Inv ready_ok gone_ok post Γ g → stages_ok Δ g → pool g !! i = Some th → stat th = Running c p →
  step i p (tvw th) (cmem g) t b = Next (p', V', m') →
  ∃ Δ', stages_ok Δ' (Config m' (<[i := {| tvw := V'; stat := Running c p';
                                           trace := trace th |}]> (pool g))).
Proof using Hknown.
  intros Hc Hs Hi Hst Heq. destruct (stages_entry _ _ _ _ Hs Hi) as (w & cur & He & Hth).
  unfold stage_ok in Hth. rewrite Hst in Hth. destruct Hth as (_ & _ & Hcur & Htr). simpl in Hcur, Htr. subst cur.
  inversion Htr as [? ? ? Ha| | |p2 V2 w2 R _ _ Hstep HR]; subst; try done.
  destruct (Hstep Δ (cmem g) (Hknown _ _ (co_inv _ _ _ _ _ _ Hc)) (so_inv _ _ Hs) He _ _ _ _ _ Heq) as (w' & HW & HR').
  eexists. eapply stages_update; [done|done|exact HW|]. split_and!; try done. simpl. auto.
Qed.

Lemma stages_stay Δ g i th th' :
  stages_ok Δ g → pool g !! i = Some th → tvw th' = tvw th → trace th' = trace th →
  (∀ c p, stat th = Running c p → stat th' = Panicking ∨ stat th' = Stalled c) →
  (∃ c p, stat th = Running c p) →
  ∃ Δ', stages_ok Δ' (Config (cmem g) (<[i := th']> (pool g))).
Proof using Type.
  intros Hs Hi HV Htr Hto (c & p & Hst). destruct (stages_entry _ _ _ _ Hs Hi) as (w & cur & He & Hth).
  exists Δ. rewrite <-(list_insert_id _ _ _ He). eapply stages_update; [done|done| |].
  - rewrite list_insert_id by done. apply Hs.
  - destruct Hth as (_ & _ & Hth). rewrite Hst in Hth. unfold stage_ok. simpl in *.
    split_and!; [done..|]. destruct (Hto c p Hst) as [-> | ->]; [done|apply Hth].
Qed.

Lemma stages_act Γ Δ g a :
  conf_ok Inv ready_ok gone_ok post Γ g → stages_ok Δ g →
  match act start a g with Next g' => ∃ Δ', stages_ok Δ' g' | _ => True end.
Proof using Hknown Htrack Hleave.
  intros Hc Hs. destruct a as [i c|i t b]; [by eapply stages_call|].
  simpl. destruct (pool g !! i) as [th|] eqn:Hi; [|done].
  destruct (stat th) as [h|c p| | |] eqn:Hst; try done.
  assert (Hother : match (match step i p (tvw th) (cmem g) t b with
           | Next (p, V, m) =>
               Next (Config m (<[i := {| tvw := V; stat := Running c p;
                                         trace := trace th |}]> (pool g)))
           | Infeasible => Infeasible
           | Fault x => Fault x
           end) with Next g' => ∃ Δ', stages_ok Δ' g' | _ => True end).
  { destruct (step i p (tvw th) (cmem g) t b) as [[[p' V'] m']| |x] eqn:Heq; [|done..].
    by eapply stages_step. }
  destruct p as [[[keep new] o]| | | | | | | | | | | | | | | | | | |]; try exact Hother.
  - by eapply stages_return.
  - eapply stages_stay; [done|done|done|done| |eauto]. intros c' p'. rewrite Hst. intros. simplify_eq. by left.
  - eapply stages_stay; [done|done|done|done| |eauto]. intros c' p'. rewrite Hst. intros. simplify_eq. by right.
Qed.

(** Both developments hold wherever a schedule leads. *)
Theorem track_adequacy Γ Δ g n s :
  conf_ok Inv ready_ok gone_ok post Γ g → stages_ok Δ g →
  calls_in Γ ≤ n → n + calls s ≤ limit →
  ∃ Γ' Δ' g', exec start s g = inr g' ∧
    conf_ok Inv ready_ok gone_ok post Γ' g' ∧ stages_ok Δ' g'.
Proof using Hstart Hfinish Hknown Htrack Hleave.
  revert Γ Δ g n. induction s as [|a s IH]; intros Γ Δ g n Hc Hs Hw Hn; [by eexists _, _, _|].
  rewrite calls_cons in Hn. assert (0 ≤ calls s) by (unfold calls; lia).
  pose proof (conf_act start Inv ready_ok gone_ok post limit Hstart Hfinish Γ g a n Hc Hw ltac:(lia)) as Hact.
  pose proof (stages_act Γ Δ g a Hc Hs) as Hst. simpl.
  destruct (act start a g) as [g'| |x]; [| |done].
  - destruct Hact as (Γ' & Hc' & Hw'), Hst as (Δ' & Hs').
    apply (IH Γ' Δ' g' (n + Z.b2z (is_call a))); [done|done|done|lia].
  - apply (IH Γ Δ g n); [done|done|done|]. destruct (is_call a); simpl in *; lia.
Qed.

(** A thread blocked in [park] is in one of the stages meant for it. *)
Lemma blocked_stage Δ g i th c p :
  stages_ok Δ g → pool g !! i = Some th → stat th = Running c p → parking p = true →
  ∃ w, Δ !! i = Some (Ent w (tvw th) (trace th) (Some c)) ∧ dozing i (trace th) c w.
Proof using Type.
  intros Hs Hi Hst Hp. destruct (stages_entry _ _ _ _ Hs Hi) as (w & cur & He & Hth).
  unfold stage_ok in Hth. rewrite Hst in Hth. destruct Hth as (_ & _ & Hcur & Htr). simpl in Hcur, Htr. subst cur.
  exists w. split; [done|]. inversion Htr; subst; try done. auto.
Qed.
End adequacy.
