(* ===== verification/SpscWait.v ===== *)
(** No wakeup of the SPSC ring is lost: the stages of the park protocol, seen
    from the side that waits and from the side that wakes it, and the invariant
    that ties them to the flags, the registration slots, the tokens and the
    global view of the sequentially consistent fences.

    A waiter registers, raises its flag, passes a fence and looks at the peer's
    counter and at [disconnected]; a waker publishes one of them, passes a
    fence and looks at the flag. Whichever fence is second sees the other
    side's store. *)
From S2P Require Import Prelude Usize Atomic Errors Wait Notify Queue Spsc Seq Memory Machine Logic SpscInv SpscConc Track.
Local Open Scope Z_scope.

(** The stages of a side. As a waiter: registered; flag raised by the store at
    [p]; past the fence, having seen the peer's counter up to the store at [tc]
    (which had value [vc], once loaded) and [disconnected] up to [td]. As a
    waker: published but not yet fenced; fenced; flag read as raised; flag
    lowered; about to unpark the thread found in the slot. *)
Inductive stage :=
  | Calm
  | Enlisted
  | Flagged (p : nat)
  | Alert (p tc : nat) (vc : option Z) (td : nat) (vd : option Z)
  | Owing
  | Checking
  | Claiming
  | Lowered
  | Calling (j : tid).

#[global] Instance stage_eq_dec : EqDecision stage.
Proof. solve_decision. Defined.

(** A side's stage, whether it stored to [disconnected], and the newest count
    it published. *)
Record wst := Wst { wstage : stage; wclosed : bool; wpub : Z }.

Section watch.
Context `{tgt : Target} {T : Type} (sh : Shared).
Abbreviation entry := (ent wst (call T) (event T)).
Implicit Types (E : side → entry) (e k : entry) (m : mem T) (s : side).

Definition pk s : loc := Loc (sh_ring sh) (Parked s).
Definition sl s : loc := Loc (sh_ring sh) (ParkerSlot s).
Definition slot_tid m s : option tid := mslots m !! sl s ≫= fst.
Definition slot_view m s : view := default ∅ (snd <$> mslots m !! sl s).
Abbreviation stg e := (wstage (eg e)).
Abbreviation seen e := (cur (ev e)).

(** Somebody will wake side [s], or did. *)
Definition alarmed s k m : Prop :=
  is_Some (mtokens m !! tid_of s) ∨ stg k = Calling (tid_of s) ∨
  slot_tid m s = Some (tid_of s) ∧ (stg k = Claiming ∨ stg k = Lowered).

(** Side [s] can be found, and its flag is up for whoever is past store [p]. *)
Definition armed s (p : nat) m : Prop :=
  slot_tid m s = Some (tid_of s) ∧ (∀ t, stored m (pk s) t → (t ≤ p)%nat) ∧
  ∀ h x, hist m !! pk s = Some h → h !! p = Some x → mval x = 1.

(** The peer [k] is still to look at the flag raised at [p]. *)
Definition owes s (p : nat) k : Prop :=
  stg k = Owing ∨ stg k = Checking ∧ (p ≤ vw (seen k) (pk s))%nat.

Definition wait_ok s e k m : Prop :=
  match stg e with
  | Enlisted => alarmed s k m ∨
      slot_tid m s = Some (tid_of s) ∧ latest m (pk s) (vw (seen e) (pk s))
  | Flagged p => (p ≤ vw (seen e) (pk s))%nat ∧ (alarmed s k m ∨ armed s p m)
  | Alert p tc vc td vd =>
      (p ≤ vw (scview m) (pk s))%nat ∧
      (tc ≤ vw (seen e) (ctr sh (peer s)))%nat ∧ (td ≤ vw (seen e) (disconnected sh))%nat ∧
      loaded m (ctr sh (peer s)) tc vc ∧ loaded m (disconnected sh) td vd ∧
      (alarmed s k m ∨ armed s p m ∧
         (latest m (ctr sh (peer s)) tc ∧ latest m (disconnected sh) td ∨ owes s p k))
  | _ => True
  end.

(** Side [s] with entry [e], and its peer with entry [k]. *)
Record guarded s e k m : Prop := {
  gu_flag t : stored m (pk s) t →
    (t ≤ vw (seen e) (pk s))%nat ∨ (t ≤ vw (slot_view m s) (pk s))%nat ∨
    stg k = Lowered ∧ (t ≤ vw (seen k) (pk s))%nat;
  gu_news t : stored m (ctr sh s) t → (t ≤ vw (seen e) (ctr sh s))%nat ∧
    ((t ≤ vw (scview m) (ctr sh s))%nat ∨ stg e = Owing);
  gu_wait : wait_ok s e k m;
  gu_closed : wclosed (eg e) = true →
    ∀ h, hist m !! disconnected sh = Some h → ∃ t x, h !! t = Some x ∧ mval x ≠ 0;
}.

(** The counter of side [s] stands at what the side published. *)
Definition pub_ok s e m : Prop :=
  ∀ h, hist m !! ctr sh s = Some h →
    (∀ t x, h !! t = Some x → mval x ≤ wpub (eg e)) ∧ ∃ t x, h !! t = Some x ∧ mval x = wpub (eg e).

(** The flag both sides store [true] to, and the two counters. *)
Record disc_ok s e k m : Prop := {
  do_news t : stored m (disconnected sh) t →
    (t ≤ vw (scview m) (disconnected sh))%nat ∨
    stg e = Owing ∧ (t ≤ vw (seen e) (disconnected sh))%nat ∨
    stg k = Owing ∧ (t ≤ vw (seen k) (disconnected sh))%nat;
  do_zero h t x : hist m !! disconnected sh = Some h → h !! t = Some x → mval x = 0 → t = 0%nat;
  do_pub : pub_ok s e m;
  do_peer : pub_ok (peer s) k m;
}.

Record Watch E m : Prop := {
  wa_side s : guarded s (E s) (E (peer s)) m;
  wa_disc s : disc_ok s (E s) (E (peer s)) m;
}.

Lemma Watch_upd E s e m :
  guarded s e (E (peer s)) m → guarded (peer s) (E (peer s)) e m → disc_ok s e (E (peer s)) m →
  Watch (upd s e E) m.
Proof using Type.
  intros H1 H2 [H3 H4 H5 H6]. split.
  - apply (both_sides _ s); rewrite ?peer_peer, upd_same, upd_peer; done.
  - apply (both_sides _ s); rewrite ?peer_peer, upd_same, upd_peer; [by split|].
    split; [|done|done|by rewrite peer_peer]. intros t Ht. destruct (H3 t Ht) as [?|[?|?]]; auto.
Qed.

(** ** What does not matter *)

(** The memory lost nothing that guards side [s]. *)
Record milder s m m' : Prop := {
  ml_flag : kept m m' (pk s);
  ml_ctr s' : kept m m' (ctr sh s');
  ml_disc : kept m m' (disconnected sh);
  ml_slot : mslots m' !! sl s = mslots m !! sl s;
  ml_token : is_Some (mtokens m !! tid_of s) → is_Some (mtokens m' !! tid_of s);
  ml_sc : vle (scview m) (scview m');
}.

Lemma milder_refl s m : milder s m m.
Proof using Type. by split. Qed.

Lemma armed_milder s p m m' : milder s m m' → armed s p m → armed s p m'.
Proof using Type.
  intros Hm (H1 & H2 & H3). split_and!.
  - unfold slot_tid. by rewrite (ml_slot _ _ _ Hm).
  - eapply latest_sub; [apply Hm|done].
  - intros h x Hh. eapply H3. by eapply ml_flag.
Qed.

Lemma alarmed_milder s k k' m m' :
  milder s m m' → stg k' = stg k → alarmed s k m → alarmed s k' m'.
Proof using Type.
  intros Hm Hk. unfold alarmed, slot_tid. rewrite Hk, (ml_slot _ _ _ Hm).
  intros [?|?]; [left; by apply (ml_token _ _ _ Hm)|by right].
Qed.

Lemma owes_grown s p k k' : stg k' = stg k → vle (seen k) (seen k') → owes s p k → owes s p k'.
Proof using Type.
  intros Hk Hv. unfold owes. rewrite Hk. intros [?|[? ?]]; [by left|right].
  split; [done|]. specialize (Hv (pk s)). lia.
Qed.

(** The waiter observes more; the waker still does what it has to. *)
Lemma wait_milder s e e' k k' m m' :
  milder s m m' → stg e' = stg e → vle (seen e) (seen e') →
  (alarmed s k m → alarmed s k' m') →
  (∀ p, (p ≤ vw (scview m) (pk s))%nat → armed s p m → owes s p k → alarmed s k' m' ∨ owes s p k') →
  wait_ok s e k m → wait_ok s e' k' m'.
Proof using Type.
  intros Hm He Hv Ha Ho. unfold wait_ok. rewrite He.
  destruct (stg e) as [| |p|p tc vc td vd| | | | |j]; try done.
  - intros [?|[H1 H2]]; [by left; apply Ha|right]. split.
    + unfold slot_tid in *. by rewrite (ml_slot _ _ _ Hm).
    + apply (latest_sub m); [apply Hm|]. intros t Ht. specialize (H2 t Ht). specialize (Hv (pk s)). lia.
  - intros [H1 H2]. split; [specialize (Hv (pk s)); lia|].
    destruct H2; [by left; apply Ha|right; by eapply armed_milder].
  - intros (H1 & H2 & H3 & H4 & H5 & H6). pose proof (ml_sc _ _ _ Hm (pk s)).
    pose proof (Hv (ctr sh (peer s))). pose proof (Hv (disconnected sh)).
    split_and!; [lia|lia|lia|eapply loaded_sub; [apply Hm|done]..|].
    destruct H6 as [?|[Har [[Hc Hd]|Hw]]]; [by left; apply Ha| |].
    + right. split; [by eapply armed_milder|left]. split; (eapply latest_sub; [apply Hm|done]).
    + destruct (Ho p H1 Har Hw) as [?|?]; [by left|right]. split; [by eapply armed_milder|by right].
Qed.

Lemma guarded_other s e e' k k' m m' :
  guarded s e k m → milder s m m' → eg e' = eg e → vle (seen e) (seen e') → vle (seen k) (seen k') →
  (stg k = Lowered → stg k' = Lowered) →
  (alarmed s k m → alarmed s k' m') →
  (∀ p, (p ≤ vw (scview m) (pk s))%nat → armed s p m → owes s p k → alarmed s k' m' ∨ owes s p k') →
  guarded s e' k' m'.
Proof using Type.
  intros [H1 H2 H3 H4] Hm He Hve Hvk Hlow Ha Ho. split.
  - intros t Ht. specialize (H1 t ltac:(eapply stored_sub; [apply Hm|done])).
    specialize (Hve (pk s)). specialize (Hvk (pk s)). unfold slot_view in *. rewrite (ml_slot _ _ _ Hm).
    destruct H1 as [?|[?|[? ?]]]; [left; lia|right; left; lia|right; right]. split; [auto|lia].
  - intros t Ht. rewrite He. pose proof (ml_sc _ _ _ Hm (ctr sh s)).
    specialize (Hve (ctr sh s)).
    destruct (H2 t ltac:(eapply stored_sub; [apply Hm|done])) as [? [?|?]]; (split; [lia|]); [left; lia|by right].
  - eapply wait_milder; [done|by rewrite He|done..].
  - rewrite He. intros Hc h Hh. apply H4; [done|]. by eapply ml_disc.
Qed.

Lemma guarded_milder s e e' k k' m m' :
  guarded s e k m → milder s m m' →
  eg e' = eg e → vle (seen e) (seen e') → stg k' = stg k → vle (seen k) (seen k') →
  guarded s e' k' m'.
Proof using Type.
  intros Hg Hm He Hve Hk1 Hvk.
  eapply guarded_other; [exact Hg|done..| | |]; [by rewrite Hk1|by eapply alarmed_milder|].
  intros p _ _ Ho. right. by eapply owes_grown.
Qed.

Lemma pub_milder s s' e e' m m' :
  pub_ok s e m → milder s' m m' → wpub (eg e') = wpub (eg e) → pub_ok s e' m'.
Proof using Type. intros Hp Hm He h Hh. rewrite He. apply Hp. by eapply ml_ctr. Qed.

Lemma disc_milder s s' e e' k m m' :
  disc_ok s e k m → milder s' m m' → (stg e = Owing → stg e' = Owing) → wpub (eg e') = wpub (eg e) →
  vle (seen e) (seen e') → disc_ok s e' k m'.
Proof using Type.
  intros [H1 H2 H3 H4] Hm He Hp Hv. split; [| |by eapply pub_milder..].
  - intros t Ht. pose proof (ml_sc _ _ _ Hm (disconnected sh)). specialize (Hv (disconnected sh)).
    destruct (H1 t ltac:(eapply stored_sub; [apply Hm|done])) as [?|[[? ?]|?]]; [left; lia|right; left|by right; right].
    split; [auto|lia].
  - intros h t x Hh. eapply H2. by eapply ml_disc.
Qed.

(** Side [s] observes more and the memory gets milder. *)
Lemma Watch_milder E m m' s w V tr c V' :
  Watch E m → E s = Ent w V tr c → vle (cur V) (cur V') → (∀ s', milder s' m m') →
  Watch (upd s (Ent w V' tr c) E) m'.
Proof using Type.
  intros HW HE HV Hm. pose proof (wa_side _ _ HW s) as H1. pose proof (wa_side _ _ HW (peer s)) as H2.
  pose proof (wa_disc _ _ HW s) as H3. rewrite peer_peer in H2. rewrite HE in *. apply Watch_upd.
  - by eapply (guarded_milder s); [exact H1|..].
  - by eapply (guarded_milder (peer s)); [exact H2|..].
  - by eapply (disc_milder s s); [exact H3|..].
Qed.

(** ** New stores *)

(** The locations of the protocol are different ones. *)
Lemma pk_ctr s s' : pk s ≠ ctr sh s'.
Proof using Type. by destruct s, s'. Qed.
Lemma pk_disc s : pk s ≠ disconnected sh.
Proof using Type. done. Qed.
Lemma ctr_disc s : ctr sh s ≠ disconnected sh.
Proof using Type. by destruct s. Qed.
Lemma pk_pk s : pk s ≠ pk (peer s).
Proof using Type. by destruct s. Qed.
Lemma sl_sl s : sl s ≠ sl (peer s).
Proof using Type. by destruct s. Qed.
Lemma ctr_ctr s : ctr sh s ≠ ctr sh (peer s).
Proof using Type. by destruct s. Qed.
Lemma tid_tid s : tid_of s ≠ tid_of (peer s).
Proof using Type. by destruct s. Qed.
Hint Resolve pk_ctr pk_disc ctr_disc pk_pk sl_sl ctr_ctr tid_tid not_eq_sym : core.

Lemma milder_store s l t x m :
  l ≠ pk s → (∀ s', l ≠ ctr sh s') → l ≠ disconnected sh → milder s m (add_msg l t x m).
Proof using Type.
  intros H1 H2 H3. split; try done.
  - intros h. by rewrite hist_add_other.
  - intros s' h. by rewrite hist_add_other.
  - intros h. by rewrite hist_add_other.
Qed.

Lemma milder_slot s l x m : l ≠ sl s → milder s m (set_mslots <[l := x]> m).
Proof using Type. intros Hl. split; try done. simpl. by rewrite lookup_insert_ne. Qed.

Lemma Watch_open E m s e :
  Watch E m → E s = e →
  guarded s e (E (peer s)) m ∧ guarded (peer s) (E (peer s)) e m ∧ disc_ok s e (E (peer s)) m.
Proof using Type.
  intros HW <-. split_and!; [apply HW| |apply HW].
  pose proof (wa_side _ _ HW (peer s)) as H. by rewrite peer_peer in H.
Qed.

(** ** The moves of a waiter *)

(** The stages in which a side has to do with the other side's parker. *)
Definition wakes (σ : stage) : bool :=
  match σ with Owing | Checking | Claiming | Lowered | Calling _ => true | _ => false end.

Lemma guarded_bystander s e k k' m m' :
  guarded s e k m → wakes (stg k) = false → milder s m m' → vle (seen k) (seen k') →
  guarded s e k' m'.
Proof using Type.
  intros Hg Hk Hm Hv. eapply guarded_other; [exact Hg|exact Hm|done|done|exact Hv| | |].
  - by intros Hl; rewrite Hl in Hk.
  - unfold alarmed, slot_tid. rewrite (ml_slot _ _ _ Hm).
    intros [?|[Hc|[_ [Hc|Hc]]]]; [left; by apply (ml_token _ _ _ Hm)|by rewrite Hc in Hk..].
  - intros p _ _ [Ho|[Ho _]]; by rewrite Ho in Hk.
Qed.

Lemma disc_bystander s s' e k e' m m' :
  disc_ok s e k m → wakes (stg e) = false → vle (seen e) (seen e') → wpub (eg e') = wpub (eg e) →
  milder s' m m' → disc_ok s e' k m'.
Proof using Type.
  intros HD He Hv Hp Hm. eapply (disc_milder s s'); [exact HD|done| |done|done]. by intros Ho; rewrite Ho in He.
Qed.

Definition wto (σ : stage) (w : wst) : wst := Wst σ (wclosed w) (wpub w).

Lemma news_grown t l V V' G (P P' : Prop) :
  (t ≤ vw V l)%nat ∧ ((t ≤ vw G l)%nat ∨ P) → (vw V l ≤ vw V' l)%nat → (P → P') →
  (t ≤ vw V' l)%nat ∧ ((t ≤ vw G l)%nat ∨ P').
Proof using Type. intros [? ?] ? ?. split; [lia|tauto]. Qed.

(** Registering. *)
Lemma enlist E m s w V tr c :
  Watch E m → E s = Ent w V tr c → wstage w = Calm →
  let V' := learn (slot_view m s) V in
  Watch (upd s (Ent (wto Enlisted w) V' tr c) E)
        (set_mslots <[sl s := (Some (tid_of s), cur V')]> m).
Proof using Type.
  intros HW HE Hw V'. destruct (Watch_open _ _ _ _ HW HE) as ([F1 F2 F3 F4] & HP & HD).
  assert (HV : vle (cur V) (cur V')) by apply vle_join_l.
  assert (Hsl : vle (slot_view m s) (cur V')) by apply vle_join_r. clearbody V'. apply Watch_upd.
  - split; simpl.
    + intros t Ht. specialize (F1 t Ht). specialize (HV (pk s)). specialize (Hsl (pk s)). simpl in F1.
      destruct F1 as [?|[?|?]]; [left; lia|left; lia|by right; right].
    + intros t Ht. eapply news_grown; [by apply F2|apply HV|simpl; congruence].
    + unfold wait_ok, alarmed, slot_tid. simpl. rewrite lookup_insert_eq. simpl.
      destruct (decide (stg (E (peer s)) = Lowered)) as [?|Hn].
      { left. right; right. auto. }
      right. split; [done|]. intros t Ht. destruct (F1 t Ht) as [Hf|[Hf|[Hf _]]].
      * specialize (HV (pk s)). simpl in *. lia.
      * specialize (Hsl (pk s)). lia.
      * by destruct Hn.
    + exact F4.
  - eapply guarded_bystander; [exact HP|by simpl; rewrite Hw|by apply milder_slot|exact HV].
  - eapply (disc_bystander s (peer s)); [exact HD|by simpl; rewrite Hw|exact HV|done|by apply (milder_slot (peer s))].
Qed.

(** Raising the flag. *)
Lemma raise E m s w V tr c t h b :
  Watch E m → E s = Ent w V tr c → wstage w = Enlisted →
  hist m !! pk s = Some h → h !! t = None → (vw (cur V) (pk s) < t)%nat →
  Watch (upd s (Ent (wto (Flagged t) w) (write_view (pk s) t V) tr c) E)
        (add_msg (pk s) t (Msg 1 b) m).
Proof using Type.
  intros HW HE Hw Hh Ht Hlt. destruct (Watch_open _ _ _ _ HW HE) as ([F1 F2 F3 F4] & HP & HD).
  assert (HV : vle (cur V) (cur (write_view (pk s) t V))) by apply vle_set.
  assert (Hm : milder (peer s) m (add_msg (pk s) t (Msg 1 b) m)) by (by apply milder_store).
  apply Watch_upd.
  - split; simpl.
    + intros t' Ht'. specialize (HV (pk s)). simpl in HV.
      destruct (stored_add _ _ _ _ _ _ Ht') as [[_ ->]|Hs]; [left; rewrite vw_set_same; lia|].
      destruct (F1 t' Hs) as [?|?]; [left; simpl in *; lia|by right].
    + intros t' Ht'. apply stored_add_other in Ht'; [|done].
      eapply news_grown; [by apply F2|apply HV|simpl; congruence].
    + unfold wait_ok in *. simpl in *. rewrite Hw in F3. split; [rewrite vw_set_same; lia|].
      destruct F3 as [?|[Hs Hc]]; [by left|right]. split_and!; [done| |].
      * intros t' Ht'. destruct (stored_add _ _ _ _ _ _ Ht') as [[_ ->]|Hst]; [done|]. specialize (Hc t' Hst). lia.
      * intros h' x. simpl. rewrite lookup_insert_eq, Hh. simpl. intros [= <-].
        rewrite lookup_insert_eq. by intros [= <-].
    + intros Hc h' Hh'. rewrite lookup_insert_ne in Hh' by done. by apply F4.
  - eapply guarded_bystander; [exact HP|by simpl; rewrite Hw|exact Hm|exact HV].
  - eapply (disc_bystander s (peer s)); [exact HD|by simpl; rewrite Hw|exact HV|done|exact Hm].
Qed.

(** The fence after the flag: what this side can still miss, the peer will
    look at its flag for. *)
Lemma fence_waiter E m s w V tr c p :
  Watch E m → E s = Ent w V tr c → wstage w = Flagged p →
  let '(V', G) := fence_view SeqCst V (scview m) in
  Watch (upd s (Ent (wto (Alert p (vw (cur V') (ctr sh (peer s))) None
                                (vw (cur V') (disconnected sh)) None) w) V' tr c) E) (set_scview G m).
Proof using Type.
  intros HW HE Hw. unfold fence_view. set (G := vjoin _ (scview m)). set (V' := {| cur := G; acq := acq V; rel := G |}).
  destruct (Watch_open _ _ _ _ HW HE) as ([F1 F2 F3 F4] & HP & HD).
  assert (HV : vle (cur V) (cur V')) by (etrans; apply vle_join_l).
  assert (HG : vle (scview m) G) by apply vle_join_r.
  assert (HVG : cur V' = G) by done. clearbody V' G. subst G.
  assert (Hm : ∀ s', milder s' m (set_scview (cur V') m)) by done.
  apply Watch_upd.
  - split; simpl.
    + intros t Ht. specialize (HV (pk s)). destruct (F1 t Ht) as [?|?]; [left; simpl in *; lia|by right].
    + intros t Ht. specialize (HG (ctr sh s)). specialize (HV (ctr sh s)).
      destruct (F2 t Ht) as [? [?|Ho]]; (split; [simpl in *; lia|]); [left; lia|]. simpl in Ho. congruence.
    + unfold wait_ok in *. simpl in *. rewrite Hw in F3. destruct F3 as [Hp Ha].
      specialize (HV (pk s)). simpl in HV. split_and!; [lia|done|done|by intros ? ? [=]|by intros ? ? [=]|].
      destruct Ha as [?|Ha]; [by left|right]. split; [done|].
      destruct (decide (stg (E (peer s)) = Owing)) as [?|Hn]; [by right; left|].
      left. split; intros t Ht.
      * destruct (gu_news _ _ _ _ HP t Ht) as [_ [?|?]]; [specialize (HG (ctr sh (peer s))); lia|].
        by destruct Hn.
      * destruct (do_news _ _ _ _ HD t Ht) as [?|[[Ho _]|[? _]]].
        -- specialize (HG (disconnected sh)). lia.
        -- simpl in Ho. congruence.
        -- by destruct Hn.
    + exact F4.
  - eapply guarded_bystander; [exact HP|by simpl; rewrite Hw|apply Hm|exact HV].
  - eapply (disc_bystander s (peer s)); [exact HD|by simpl; rewrite Hw|exact HV|done|apply (Hm (peer s))].
Qed.

(** Loading the peer's counter, or [disconnected]. *)
Lemma look_counter E m s w V tr c p tc vc td vd t h x :
  Watch E m → E s = Ent w V tr c → wstage w = Alert p tc vc td vd →
  hist m !! ctr sh (peer s) = Some h → h !! t = Some x → (vw (cur V) (ctr sh (peer s)) ≤ t)%nat →
  Watch (upd s (Ent (wto (Alert p t (Some (mval x)) td vd) w)
                    (read_view (ctr sh (peer s)) t Acquire x V) tr c) E) m.
Proof using Type.
  intros HW HE Hw Hh Ht Hle. pose proof (read_view_past (ctr sh (peer s)) t Acquire x V) as Hpast.
  destruct (read_view_grows (ctr sh (peer s)) t Acquire x V) as [HV _].
  set (V' := read_view _ _ _ _ _) in *. clearbody V'.
  destruct (Watch_open _ _ _ _ HW HE) as ([F1 F2 F3 F4] & HP & HD). apply Watch_upd.
  - split; simpl; [|intros t' Ht'; eapply news_grown; [by apply F2|apply HV|simpl; congruence]| |exact F4].
    + intros t' Ht'. specialize (HV (pk s)). destruct (F1 t' Ht') as [?|?]; [left; simpl in *; lia|by right].
    + unfold wait_ok in *. simpl in *. rewrite Hw in F3. destruct F3 as (H1 & H2 & H3 & H4 & H5 & H6).
      specialize (HV (disconnected sh)). simpl in *. split_and!; [done|done|lia| |done|].
      * intros z h' [= <-] Hh'. assert (h' = h) as -> by congruence. eauto.
      * destruct H6 as [?|[Har [[Hc Hd]|Ho]]]; [by left|right; split; [done|]..]; [left|by right].
        split; [|done]. intros t' Ht'. specialize (Hc t' Ht'). lia.
  - eapply guarded_bystander; [exact HP|by simpl; rewrite Hw|apply milder_refl|exact HV].
  - eapply (disc_bystander s (peer s)); [exact HD|by simpl; rewrite Hw|exact HV|done|apply (milder_refl (peer s))].
Qed.

Lemma look_disc E m s w V tr c p tc vc td vd t h x :
  Watch E m → E s = Ent w V tr c → wstage w = Alert p tc vc td vd →
  hist m !! disconnected sh = Some h → h !! t = Some x → (vw (cur V) (disconnected sh) ≤ t)%nat →
  Watch (upd s (Ent (wto (Alert p tc vc t (Some (mval x))) w)
                    (read_view (disconnected sh) t Acquire x V) tr c) E) m.
Proof using Type.
  intros HW HE Hw Hh Ht Hle. pose proof (read_view_past (disconnected sh) t Acquire x V) as Hpast.
  destruct (read_view_grows (disconnected sh) t Acquire x V) as [HV _].
  set (V' := read_view _ _ _ _ _) in *. clearbody V'.
  destruct (Watch_open _ _ _ _ HW HE) as ([F1 F2 F3 F4] & HP & HD). apply Watch_upd.
  - split; simpl; [|intros t' Ht'; eapply news_grown; [by apply F2|apply HV|simpl; congruence]| |exact F4].
    + intros t' Ht'. specialize (HV (pk s)). destruct (F1 t' Ht') as [?|?]; [left; simpl in *; lia|by right].
    + unfold wait_ok in *. simpl in *. rewrite Hw in F3. destruct F3 as (H1 & H2 & H3 & H4 & H5 & H6).
      specialize (HV (ctr sh (peer s))). simpl in *. split_and!; [done|lia|done|done| |].
      * intros z h' [= <-] Hh'. assert (h' = h) as -> by congruence. eauto.
      * destruct H6 as [?|[Har [[Hc Hd]|Ho]]]; [by left|right; split; [done|]..]; [left|by right].
        split; [done|]. intros t' Ht'. specialize (Hd t' Ht'). lia.
  - eapply guarded_bystander; [exact HP|by simpl; rewrite Hw|apply milder_refl|exact HV].
  - eapply (disc_bystander s (peer s)); [exact HD|by simpl; rewrite Hw|exact HV|done|apply (milder_refl (peer s))].
Qed.

(** Leaving the wait. *)
Definition waits (σ : stage) : bool :=
  match σ with Enlisted | Flagged _ | Alert _ _ _ _ _ => true | _ => false end.

Lemma not_waiting s e k m : waits (stg e) = false → wait_ok s e k m.
Proof using Type. unfold wait_ok. by destruct (stg e). Qed.

Lemma guarded_calm s e e' k m m' :
  guarded s e k m → milder s m m' → vle (seen e) (seen e') →
  (stg e = Owing → stg e' = Owing) → waits (stg e') = false → wclosed (eg e') = wclosed (eg e) →
  guarded s e' k m'.
Proof using Type.
  intros [F1 F2 F3 F4] Hm Hv Ho Hw Hc. split.
  - intros t Ht. specialize (F1 t ltac:(eapply stored_sub; [apply Hm|done])).
    specialize (Hv (pk s)). unfold slot_view in *. rewrite (ml_slot _ _ _ Hm).
    destruct F1 as [?|?]; [left; lia|by right].
  - intros t Ht. pose proof (ml_sc _ _ _ Hm (ctr sh s)).
    specialize (Hv (ctr sh s)).
    destruct (F2 t ltac:(eapply stored_sub; [apply Hm|done])) as [? [?|?]]; (split; [lia|]); [left; lia|auto].
  - by apply not_waiting.
  - rewrite Hc. intros Hcl h Hh. apply F4; [done|]. by eapply ml_disc.
Qed.

(** What tokens there are concerns waiters only. *)
Lemma guarded_tokens s e k m f :
  guarded s e k m → waits (stg e) = false → guarded s e k (set_mtokens f m).
Proof using Type. intros [F1 F2 _ F4] Hw. split; [exact F1|exact F2|by apply not_waiting|exact F4]. Qed.

(** Lowering one's own flag: after a cancelled or finished wait, or when
    closing. *)
Definition settled (σ : stage) : stage := match σ with Alert _ _ _ _ _ => Calm | _ => σ end.
Definition steady (σ : stage) : bool :=
  match σ with Alert _ _ _ _ _ | Calm | Checking => true | _ => false end.

Lemma steady_settled σ :
  steady σ = true → waits (settled σ) = false ∧ σ ≠ Owing ∧ (settled σ = σ ∨ wakes σ = false ∧ settled σ = Calm).
Proof using Type. destruct σ; simpl; try done; intros _; split_and!; try done; by (left + right). Qed.

Lemma settle_flag E m s w V tr c t h v b :
  Watch E m → E s = Ent w V tr c → steady (wstage w) = true →
  hist m !! pk s = Some h → h !! t = None → (vw (cur V) (pk s) < t)%nat →
  Watch (upd s (Ent (wto (settled (wstage w)) w) (write_view (pk s) t V) tr c) E)
        (add_msg (pk s) t (Msg v b) m).
Proof using Type.
  intros HW HE Hw Hh Ht Hlt. destruct (Watch_open _ _ _ _ HW HE) as ([F1 F2 F3 F4] & HP & HD).
  destruct (steady_settled _ Hw) as (Hnw & Hno & Hs).
  assert (HV : vle (cur V) (cur (write_view (pk s) t V))) by apply vle_set.
  assert (Hm : milder (peer s) m (add_msg (pk s) t (Msg v b) m)) by (by apply milder_store).
  apply Watch_upd.
  - split; simpl; [| |by apply not_waiting|].
    + intros t' Ht'. specialize (HV (pk s)). simpl in HV.
      destruct (stored_add _ _ _ _ _ _ Ht') as [[_ ->]|Hst]; [left; rewrite vw_set_same; lia|].
      destruct (F1 t' Hst) as [?|?]; [left; simpl in *; lia|by right].
    + intros t' Ht'. apply stored_add_other in Ht'; [|done].
      eapply news_grown; [by apply F2|apply HV|simpl; congruence].
    + intros Hc h' Hh'. rewrite lookup_insert_ne in Hh' by done. by apply F4.
  - destruct Hs as [Hs|[Hs _]].
    + by eapply guarded_milder; [exact HP|exact Hm|..].
    + by eapply guarded_bystander; [exact HP|..].
  - by eapply (disc_milder s (peer s)); [exact HD|exact Hm|..].
Qed.

(** Waking up, with a token or without. *)
Lemma wake_up E m s w V tr c V' p tc vc td vd f :
  Watch E m → E s = Ent w V tr c → wstage w = Alert p tc vc td vd → vle (cur V) (cur V') →
  (∀ X, f X !! tid_of (peer s) = X !! tid_of (peer s)) →
  Watch (upd s (Ent (wto Calm w) V' tr c) E) (set_mtokens f m).
Proof using Type.
  intros HW HE Hw HV Hf. destruct (Watch_open _ _ _ _ HW HE) as (HS & HP & HD).
  assert (Hm : milder (peer s) m (set_mtokens f m)) by (split; try done; simpl; by rewrite Hf).
  apply Watch_upd.
  - apply guarded_tokens; [|done]. by eapply guarded_calm; [exact HS|apply milder_refl|exact HV|simpl; rewrite Hw|..].
  - eapply guarded_bystander; [exact HP|by simpl; rewrite Hw|exact Hm|exact HV].
  - eapply (disc_bystander s (peer s)); [exact HD|by simpl; rewrite Hw|exact HV|done|exact Hm].
Qed.

(** ** The moves of a waker *)

(** Something new that side [s] may be waiting for: its peer now owes it a
    look at the flag. *)
Lemma guarded_news s e k k' m l t x h :
  guarded s e k m → stg k = Calm → stg k' = Owing → vle (seen k) (seen k') →
  l = ctr sh (peer s) ∨ l = disconnected sh →
  hist m !! l = Some h → h !! t = None →
  guarded s e k' (add_msg l t x m).
Proof using Type.
  intros [F1 F2 F3 F4] Hk Hk' Hv Hl Hh Ht.
  assert (l ≠ pk s) as Hlp by (destruct Hl as [-> | ->]; auto).
  assert (l ≠ ctr sh s) as Hlc by (destruct Hl as [-> | ->]; auto).
  assert (Ha : ∀ m', mslots m' = mslots m → mtokens m' = mtokens m → alarmed s k m → alarmed s k' m').
  { unfold alarmed, slot_tid. intros m' -> ->. rewrite Hk. naive_solver. }
  split.
  - intros t' Ht'. apply stored_add_other in Ht'; [|done]. rewrite Hk'.
    destruct (F1 t' Ht') as [?|[?|[? _]]]; [by left|by right; left|congruence].
  - intros t' Ht'. apply stored_add_other in Ht'; [|done]. apply F2, Ht'.
  - unfold wait_ok in *.
    assert (Har : ∀ p, armed s p m → armed s p (add_msg l t x m)).
    { intros p (H1 & H2 & H3). split_and!; [done| |].
      - intros t' Ht'. apply stored_add_other in Ht'; [|done]. by apply H2.
      - intros h' y Hh'. rewrite hist_add_other in Hh' by done. by apply H3. }
    destruct (stg e) as [| |p|p tc vc td vd| | | | |j]; try done.
    + destruct F3 as [?|[H1 H2]]; [left; by eapply Ha|right]. split; [done|].
      intros t' Ht'. apply stored_add_other in Ht'; [|done]. by apply H2.
    + destruct F3 as [H1 [?|?]]; (split; [done|]); [left; by eapply Ha|right; by apply Har].
    + destruct F3 as (H1 & H2 & H3 & H4 & H5 & H6). split_and!; [done..|by eapply loaded_add|by eapply loaded_add|].
      destruct H6 as [?|[? _]]; [left; by eapply Ha|right]. split; [by apply Har|]. right. by left.
  - intros Hc h' Hh'. destruct (decide (l = disconnected sh)) as [->|Hne].
    + erewrite hist_add_same in Hh' by done. injection Hh' as <-.
      destruct (F4 Hc h Hh) as (t0 & y & Hy & Hv'). exists t0, y. split; [|done].
      rewrite lookup_insert_ne; [done|]. congruence.
    + rewrite hist_add_other in Hh' by done. eauto.
Qed.

Lemma pub_add s e e' t x m h :
  pub_ok s e m → wpub (eg e') = Z.max (wpub (eg e)) (mval x) →
  hist m !! ctr sh s = Some h → h !! t = None → pub_ok s e' (add_msg (ctr sh s) t x m).
Proof using Type.
  intros Hp He Hh Ht h' Hh'. destruct (Hp h Hh) as (Hle & t0 & y & Hy & Hmax).
  erewrite hist_add_same in Hh' by done. injection Hh' as <-. rewrite He. split.
  - intros t' z [[_ <-]|[_ Hz]]%lookup_insert_Some; [lia|]. specialize (Hle t' z Hz). lia.
  - destruct (Z.le_ge_cases (wpub (eg e)) (mval x)).
    + exists t, x. rewrite lookup_insert_eq. split; [done|lia].
    + exists t0, y. rewrite lookup_insert_ne by congruence. split; [done|lia].
Qed.

(** Publishing the own counter. *)
Lemma publish_news E m s w V tr c t h x :
  Watch E m → E s = Ent w V tr c → wstage w = Calm →
  hist m !! ctr sh s = Some h → h !! t = None →
  Watch (upd s (Ent (Wst Owing (wclosed w) (Z.max (wpub w) (mval x))) (write_view (ctr sh s) t V) tr c) E)
        (add_msg (ctr sh s) t x m).
Proof using Type.
  intros HW HE Hw Hh Ht. destruct (Watch_open _ _ _ _ HW HE) as ([F1 F2 F3 F4] & HP & HD).
  assert (HV : vle (cur V) (cur (write_view (ctr sh s) t V))) by apply vle_set. apply Watch_upd.
  - split; simpl; [| |done|].
    + intros t' Ht'. apply stored_add_other in Ht'; [|done]. specialize (HV (pk s)).
      destruct (F1 t' Ht') as [?|?]; [left; simpl in *; lia|by right].
    + intros t' Ht'. split; [|by right]. specialize (HV (ctr sh s)). simpl in HV.
      destruct (stored_add _ _ _ _ _ _ Ht') as [[_ ->]|Hs]; [rewrite vw_set_same; lia|].
      destruct (F2 t' Hs). simpl in *. lia.
    + intros Hc h' Hh'. rewrite lookup_insert_ne in Hh' by done. by apply F4.
  - eapply guarded_news; [exact HP|done|done|exact HV| |done|done]. left. by rewrite peer_peer.
  - destruct HD as [D1 D2 D3 D4]. split.
    + intros t' Ht'. apply stored_add_other in Ht'; [|done].
      destruct (D1 t' Ht') as [?|[[Ho _]|?]]; [by left|simpl in Ho; congruence|by right; right].
    + intros h' t' y Hh'. rewrite hist_add_other in Hh' by done. by apply D2.
    + eapply pub_add; [exact D3|done|done|done].
    + intros h' Hh'. rewrite hist_add_other in Hh' by done. by apply D4.
Qed.

(** Storing [true] to [disconnected]. *)
Lemma disc_news E m s w V tr c t h b :
  Watch E m → E s = Ent w V tr c → wstage w = Calm →
  hist m !! disconnected sh = Some h → h !! t = None →
  Watch (upd s (Ent (Wst Owing true (wpub w)) (write_view (disconnected sh) t V) tr c) E)
        (add_msg (disconnected sh) t (Msg 1 b) m).
Proof using Type.
  intros HW HE Hw Hh Ht. destruct (Watch_open _ _ _ _ HW HE) as ([F1 F2 F3 F4] & HP & HD).
  assert (HV : vle (cur V) (cur (write_view (disconnected sh) t V))) by apply vle_set. apply Watch_upd.
  - split; simpl; [| |done|].
    + intros t' Ht'. apply stored_add_other in Ht'; [|done]. specialize (HV (pk s)).
      destruct (F1 t' Ht') as [?|?]; [left; simpl in *; lia|by right].
    + intros t' Ht'. apply stored_add_other in Ht'; [|done].
      eapply news_grown; [by apply F2|apply HV|done].
    + intros _ h' Hh'. rewrite lookup_insert_eq, Hh in Hh'. injection Hh' as <-. exists t, (Msg 1 b).
      by rewrite lookup_insert_eq.
  - eapply guarded_news; [exact HP|done|done|exact HV|by right|done|done].
  - destruct HD as [D1 D2 D3 D4]. specialize (HV (disconnected sh)). simpl in HV. split.
    { intros t' Ht'. destruct (stored_add _ _ _ _ _ _ Ht') as [[_ ->]|Hs].
      { right; left. split; [done|]. simpl. rewrite vw_set_same. lia. }
      destruct (D1 t' Hs) as [?|[[Ho _]|?]]; [by left|simpl in Ho; congruence|by right; right]. }
    { intros h' t' y Hh'. erewrite hist_add_same in Hh' by done. injection Hh' as <-.
      intros [[_ <-]|[_ Hy]]%lookup_insert_Some; [done|by eapply D2]. }
    all: intros h' Hh'; rewrite hist_add_other in Hh' by done; by (apply D3 || apply D4).
Qed.

(** The fence after it: this side now knows of every flag raised before a
    fence. *)
Lemma fence_waker E m s w V tr c :
  Watch E m → E s = Ent w V tr c → wstage w = Owing ∨ wstage w = Calm →
  let '(V', G) := fence_view SeqCst V (scview m) in
  Watch (upd s (Ent (wto Checking w) V' tr c) E) (set_scview G m).
Proof using Type.
  intros HW HE Hw. unfold fence_view. set (G := vjoin _ (scview m)). set (V' := {| cur := G; acq := acq V; rel := G |}).
  destruct (Watch_open _ _ _ _ HW HE) as ([F1 F2 F3 F4] & HP & HD).
  assert (HV : vle (cur V) (cur V')) by (etrans; apply vle_join_l).
  assert (HG : vle (scview m) G) by apply vle_join_r.
  assert (HVG : cur V' = G) by done. clearbody V' G. subst G.
  assert (Hm : ∀ s', milder s' m (set_scview (cur V') m)) by done.
  apply Watch_upd.
  - split; simpl; [| |done|exact F4].
    + intros t Ht. specialize (HV (pk s)). destruct (F1 t Ht) as [?|?]; [left; simpl in *; lia|by right].
    + intros t Ht. specialize (HV (ctr sh s)). destruct (F2 t Ht) as [? _]. simpl in *. split; [|left]; lia.
  - eapply guarded_other; [exact HP|apply Hm|done|done|exact HV| | |]; simpl; try (by destruct Hw as [-> | ->]).
    + unfold alarmed. simpl. destruct Hw as [-> | ->]; naive_solver.
    + intros p Hp _ _. right. right. split; [done|]. specialize (HG (pk (peer s))). simpl. lia.
  - destruct HD as [D1 D2 D3 D4]. split; [|exact D2|exact D3|exact D4]. intros t Ht.
    specialize (HG (disconnected sh)). specialize (HV (disconnected sh)).
    destruct (D1 t Ht) as [?|[[_ ?]|?]]; [left|left|by right; right]; simpl in *; lia.
Qed.

(** Reading the peer's flag: raised, it will be answered; lowered, the peer is
    not blocked on what this side published. *)
Lemma claim E m s w V tr c V' :
  Watch E m → E s = Ent w V tr c → wstage w = Checking → vle (cur V) (cur V') →
  Watch (upd s (Ent (wto Claiming w) V' tr c) E) m.
Proof using Type.
  intros HW HE Hw HV. destruct (Watch_open _ _ _ _ HW HE) as (HS & HP & HD). apply Watch_upd.
  - by eapply guarded_calm; [exact HS|apply milder_refl|exact HV|simpl; rewrite Hw|..].
  - eapply guarded_other; [exact HP|apply milder_refl|done|done|exact HV| | |]; simpl; rewrite ?Hw; try done.
    + unfold alarmed. simpl. rewrite Hw. naive_solver.
    + intros p _ (Hs & _) _. left. right; right. auto.
  - eapply (disc_milder s s); [exact HD|apply milder_refl|simpl; congruence|done|exact HV].
Qed.

Lemma pass E m s w V tr c t h x V' :
  Watch E m → E s = Ent w V tr c → wstage w = Checking → vle (cur V) (cur V') →
  hist m !! pk (peer s) = Some h → h !! t = Some x → (vw (cur V) (pk (peer s)) ≤ t)%nat → mval x = 0 →
  Watch (upd s (Ent (wto Calm w) V' tr c) E) m.
Proof using Type.
  intros HW HE Hw HV Hh Ht Hle Hx. destruct (Watch_open _ _ _ _ HW HE) as (HS & HP & HD). apply Watch_upd.
  - by eapply guarded_calm; [exact HS|apply milder_refl|exact HV|simpl; rewrite Hw|..].
  - eapply guarded_other; [exact HP|apply milder_refl|done|done|exact HV| | |]; simpl; rewrite ?Hw; try done.
    + unfold alarmed. simpl. rewrite Hw. naive_solver.
    + intros p _ (_ & Hc & Hv) [Ho|[_ Hp]]; simpl in *; [congruence|].
      assert (t ≤ p)%nat by (apply Hc; exists h; split; [done|by eexists]).
      assert (t = p) as -> by lia. specialize (Hv h x Hh Ht). lia.
  - eapply (disc_milder s s); [exact HD|apply milder_refl|simpl; congruence|done|exact HV].
Qed.

Lemma lower E m s w V tr c t h x :
  Watch E m → E s = Ent w V tr c → wstage w = Claiming →
  hist m !! pk (peer s) = Some h →
  Watch (upd s (Ent (wto Lowered w) (write_view (pk (peer s)) t V) tr c) E) (add_msg (pk (peer s)) t x m).
Proof using Type.
  intros HW HE Hw Hh. destruct (Watch_open _ _ _ _ HW HE) as (HS & [F1 F2 F3 F4] & HD).
  assert (HV : vle (cur V) (cur (write_view (pk (peer s)) t V))) by apply vle_set.
  assert (Hm : milder s m (add_msg (pk (peer s)) t x m)) by (by apply milder_store).
  assert (Ha : ∀ m', mtokens m' = mtokens m → mslots m' = mslots m →
    alarmed (peer s) (Ent w V tr c) m ∨ slot_tid m (peer s) = Some (tid_of (peer s)) →
    ∀ V', alarmed (peer s) (Ent (wto Lowered w) V' tr c) m').
  { unfold alarmed, slot_tid. simpl. rewrite Hw. intros m' -> ->. naive_solver. }
  apply Watch_upd.
  - by eapply guarded_calm; [exact HS|exact Hm|exact HV|simpl; rewrite Hw|..].
  - split; simpl.
    + intros t' Ht'. specialize (HV (pk (peer s))).
      destruct (stored_add _ _ _ _ _ _ Ht') as [[_ ->]|Hs].
      * right; right. split; [done|]. rewrite vw_set_same. lia.
      * destruct (F1 t' Hs) as [?|[?|[Hl _]]]; [by left|by right; left|]. simpl in Hl. congruence.
    + intros t' Ht'. apply stored_add_other in Ht'; [|done]. by apply F2.
    + unfold wait_ok in *. destruct (stg (E (peer s))) as [| |p|p tc vc td vd| | | | |j]; try done.
      * left. apply Ha; [done..|]. naive_solver.
      * destruct F3 as [H1 H2]. split; [done|]. left. apply Ha; [done..|].
        destruct H2 as [?|(? & _)]; [by left|by right].
      * destruct F3 as (H1 & H2 & H3 & H4 & H5 & H6). split_and!; [done..| | |].
        -- eapply loaded_sub; [|exact H4]. intros h'. by rewrite hist_add_other.
        -- eapply loaded_sub; [|exact H5]. intros h'. by rewrite hist_add_other.
        -- left. apply Ha; [done..|]. destruct H6 as [?|[(? & _) _]]; [by left|by right].
    + intros Hc h' Hh'. rewrite lookup_insert_ne in Hh' by done. by apply F4.
  - eapply (disc_milder s s); [exact HD|exact Hm|simpl; congruence|done|exact HV].
Qed.

(** Taking the waiter out of its slot. *)
Definition called (o : option tid) : stage := match o with Some j => Calling j | None => Calm end.

Lemma called_calm o : waits (called o) = false.
Proof using Type. by destruct o. Qed.

Lemma take E m s w V tr c :
  Watch E m → E s = Ent w V tr c → wstage w = Lowered →
  let V' := learn (slot_view m (peer s)) V in
  Watch (upd s (Ent (wto (called (slot_tid m (peer s))) w) V' tr c) E)
        (set_mslots <[sl (peer s) := (None, cur V')]> m).
Proof using Type.
  intros HW HE Hw V'. destruct (Watch_open _ _ _ _ HW HE) as (HS & [F1 F2 F3 F4] & HD).
  assert (HV : vle (cur V) (cur V')) by apply vle_join_l.
  assert (Hsl : vle (slot_view m (peer s)) (cur V')) by apply vle_join_r. clearbody V'.
  assert (Hm : milder s m (set_mslots <[sl (peer s) := (None, cur V')]> m)) by (by apply milder_slot).
  assert (Ha : alarmed (peer s) (Ent w V tr c) m ∨ slot_tid m (peer s) = Some (tid_of (peer s)) →
    alarmed (peer s) (Ent (wto (called (slot_tid m (peer s))) w) V' tr c)
      (set_mslots <[sl (peer s) := (None, cur V')]> m)).
  { unfold alarmed. simpl. rewrite Hw. intros [[?|[?|[Hs _]]]|Hs]; [by left|done|..]; rewrite Hs; by right; left. }
  apply Watch_upd.
  - by eapply guarded_calm; [exact HS|exact Hm|exact HV|simpl; rewrite Hw|apply called_calm|].
  - split; simpl.
    + intros t Ht. unfold slot_view. simpl. rewrite lookup_insert_eq. simpl.
      specialize (HV (pk (peer s))). specialize (Hsl (pk (peer s))).
      destruct (F1 t Ht) as [?|[?|[_ ?]]]; [by left|right; left; lia|right; left; simpl in *; lia].
    + apply F2.
    + unfold wait_ok in *. destruct (stg (E (peer s))) as [| |p|p tc vc td vd| | | | |j]; try done.
      * left. apply Ha. naive_solver.
      * destruct F3 as [H1 H2]. split; [done|]. left. apply Ha.
        destruct H2 as [?|(? & _)]; [by left|by right].
      * destruct F3 as (H1 & H2 & H3 & H4 & H5 & H6). split_and!; [done..|].
        left. apply Ha. destruct H6 as [?|[(? & _) _]]; [by left|by right].
    + exact F4.
  - eapply (disc_milder s s); [exact HD|exact Hm|simpl; congruence|done|exact HV].
Qed.

(** Unparking it. *)
Lemma milder_token s j X m : milder s m (set_mtokens (λ Y, <[j := X Y]> Y) m).
Proof using Type.
  split; try done. simpl. intros Hs. destruct (decide (j = tid_of s)) as [->|Hne].
  - rewrite lookup_insert_eq. by eexists.
  - by rewrite lookup_insert_ne.
Qed.

Lemma call_waiter E m s w V tr c j X :
  Watch E m → E s = Ent w V tr c → wstage w = Calling j →
  Watch (upd s (Ent (wto Calm w) V tr c) E) (set_mtokens (λ Y, <[j := X Y]> Y) m).
Proof using Type.
  intros HW HE Hw. destruct (Watch_open _ _ _ _ HW HE) as (HS & HP & HD). apply Watch_upd.
  - by eapply guarded_calm; [exact HS|apply milder_token|done|simpl; rewrite Hw|..].
  - eapply guarded_other; [exact HP|apply milder_token|done|done|done| | |]; simpl; rewrite ?Hw; try done.
    + intros [Ht|[Hc|[_ [Hc|Hc]]]]; simpl in *; try congruence.
      * left. by apply (ml_token _ _ _ (milder_token _ _ _ _)).
      * left. assert (j = tid_of (peer s)) as -> by congruence. simpl. rewrite lookup_insert_eq. by eexists.
    + intros p _ _ [Ho|[Ho _]]; simpl in Ho; congruence.
  - eapply (disc_milder s s); [exact HD|apply milder_token|simpl; congruence|done|done].
Qed.

(** A side that closes also clears its own slot. *)
Lemma take_own E m s w V tr c :
  Watch E m → E s = Ent w V tr c → wstage w = Calm ∨ wstage w = Checking →
  let V' := learn (slot_view m s) V in
  Watch (upd s (Ent w V' tr c) E) (set_mslots <[sl s := (None, cur V')]> m).
Proof using Type.
  intros HW HE Hw V'. destruct (Watch_open _ _ _ _ HW HE) as ([F1 F2 F3 F4] & HP & HD).
  assert (HV : vle (cur V) (cur V')) by apply vle_join_l.
  assert (Hsl : vle (slot_view m s) (cur V')) by apply vle_join_r. clearbody V'.
  assert (Hm : milder (peer s) m (set_mslots <[sl s := (None, cur V')]> m)) by (by apply milder_slot).
  apply Watch_upd.
  - split; simpl; [| | |exact F4].
    + intros t Ht. specialize (HV (pk s)). specialize (Hsl (pk s)).
      destruct (F1 t Ht) as [?|[?|?]]; [left; simpl in *; lia|left; lia|by right; right].
    + intros t Ht. eapply news_grown; [by apply F2|apply HV|done].
    + apply not_waiting. simpl. by destruct Hw as [-> | ->].
  - by eapply guarded_milder; [exact HP|exact Hm|..].
  - by eapply (disc_milder s (peer s)); [exact HD|exact Hm|..].
Qed.
End watch.
