(* ===== verification/SpscWake.v ===== *)
(** The SPSC operations follow the park protocol: rules for their actions,
    stage by stage, and the operations themselves. *)
From S2P Require Import Prelude Usize Atomic Errors Wait Notify Queue Spsc Seq Memory Machine Logic SpscInv SpscConc Track SpscWait.
Local Open Scope Z_scope.

Section rules.
Context `{tgt : Target} {T : Type} (sh : Shared).
Hypothesis Hpark : strategy sh = Park.
Abbreviation entry := (ent wst (call T) (event T)).
Implicit Types (E : side → entry) (m : mem T) (w : wst).

Definition Stages (Γ : list entry) m : Prop :=
  ∃ E, Γ = [E Producer; E Consumer] ∧ Watch sh E m.

(** How far side [s] was when the calls [tr] were done. *)
Definition done_by (s : side) (tr : list (call T * event T)) : Z :=
  match s with
  | Producer => Z.of_nat (length (accepted tr))
  | Consumer => Z.of_nat (length (received tr))
  end.

(** The count [v] of the peer leaves side [s] nothing to do. *)
Definition blocked (s : side) (own v : Z) : Prop :=
  match s with
  | Consumer => v = own
  | Producer => ∃ used, usize_sub own v = Some used ∧ cap sh ≤ used
  end.

(** A side blocks only in [send] or [recv], having published nothing in this
    call, after it saw the peer's counter in its way and [disconnected] down. *)
Definition dozing (i : tid) (tr : list (call T * event T)) (c : call T) w : Prop :=
  ∃ s p tc v td, i = tid_of s ∧ drops c = false ∧
    wstage w = Alert p tc (Some v) td (Some 0) ∧ wpub w = done_by s tr ∧ blocked s (wpub w) v.

Section side.
Context (s : side) (tr : list (call T * event T)) (c : call T).
Abbreviation follows := (follows (λ _, True) Stages dozing (tid_of s) tr c).

(** One action of this side. *)
Lemma follows_side {A} (p : prog T A) w Q :
  (∀ a, p ≠ Ret a) → (parking p = true → dozing (tid_of s) tr c w) →
  (∀ E m V, Watch sh E m → E s = Ent w V tr (Some c) → ∀ t b p' V' m',
     step (tid_of s) p V m t b = Next (p', V', m') →
     ∃ w', Watch sh (upd s (Ent w' V' tr (Some c)) E) m' ∧ follows p' w' Q) →
  follows p w Q.
Proof using Type.
  intros Hnr Hpk Hstep. apply follows_step; [done|done|].
  intros Γ m V _ (E & -> & HW) Hi t b p' V' m' Heq.
  assert (HE : E s = Ent w V tr (Some c)) by (destruct s; simpl in Hi; congruence).
  destruct (Hstep E m V HW HE _ _ _ _ _ Heq) as (w' & HW' & Hf). exists w'. split; [|done].
  exists (upd s (Ent w' V' tr (Some c)) E). split; [by destruct s|done].
Qed.

(** An action the protocol does not depend on. *)
Lemma follows_quiet {A} (p : prog T A) w Q :
  (∀ a, p ≠ Ret a) → parking p = false →
  (∀ m V t b p' V' m', step (tid_of s) p V m t b = Next (p', V', m') →
     vle (cur V) (cur V') ∧ (∀ s', milder sh s' m m') ∧ follows p' w Q) →
  follows p w Q.
Proof using Type.
  intros Hnr Hpk Hstep. apply follows_side; [done|by rewrite Hpk|].
  intros E m V HW HE t b p' V' m' Heq. destruct (Hstep _ _ _ _ _ _ _ Heq) as (HV & Hm & Hf).
  exists w. split; [by eapply Watch_milder|done].
Qed.

Lemma follows_passive {A} (p : prog T A) w (Q : A → wst → Prop) :
  passive p → (∀ a, Q a w) → follows p w Q.
Proof using Type.
  intros (Hnr & Hpk & Hp) HQ. apply follows_quiet; [done..|]. intros m V t b p' V' m' Heq.
  destruct (Hp _ _ _ _ _ _ _ _ Heq) as (HV & [] & a & ->). split_and!; [done| |by apply follows_ret].
  intros s'. split; congruence || done.
Qed.

Lemma follows_load l o w (Q : Z → wst → Prop) : (∀ v, Q v w) → follows (load l o) w Q.
Proof using Type. apply follows_passive; auto with rings. Qed.

Lemma follows_load_bool l o w (Q : bool → wst → Prop) : (∀ b, Q b w) → follows (load_bool l o) w Q.
Proof using Type. apply follows_passive; auto with rings. Qed.

Lemma follows_write l v w (Q : unit → wst → Prop) : Q tt w → follows (write_cell l v) w Q.
Proof using Type. intros HQ. apply follows_passive; [auto with rings|by intros []]. Qed.

Lemma follows_read l w (Q : T → wst → Prop) : (∀ v, Q v w) → follows (read_cell l) w Q.
Proof using Type. apply follows_passive; auto with rings. Qed.

Lemma follows_drop l w (Q : unit → wst → Prop) : Q tt w → follows (drop_cell l) w Q.
Proof using Type. intros HQ. apply follows_passive; [auto with rings|by intros []]. Qed.

Lemma follows_release w (Q : Z → wst → Prop) :
  (∀ n, Q n w) → follows (fetch_sub (strong sh) 1 Release) w Q.
Proof using Type.
  intros HQ. apply follows_quiet; [done..|]. intros m V t b p' V' m'. unfold fetch_sub. simpl.
  destruct (hist m !! strong sh) as [h|]; [|done]. destruct (h !! t) as [x|]; [|done].
  destruct (h !! S t); [done|]. case_match; [|done]. intros [= <- <- <-]. split_and!.
  - etrans; [apply read_view_grows|apply vle_set].
  - intros s'. apply milder_store; [done|by intros []|done].
  - by apply follows_ret.
Qed.

Lemma follows_acquire w (Q : unit → wst → Prop) : Q tt w → follows (fence Acquire) w Q.
Proof using Type. intros HQ. apply follows_passive; [auto with rings|by intros []]. Qed.

Lemma follows_dealloc w (Q : unit → wst → Prop) : Q tt w → follows (dealloc (sh_ring sh)) w Q.
Proof using Type.
  intros HQ. apply follows_quiet; [done..|]. intros m V t b p' V' m'. simpl. intros [= <- <- <-].
  split_and!; [done| |by apply follows_ret]. intros s'. split; done || (intros; apply kept_free).
Qed.

(** ** The actions of a waiter *)

Lemma follows_enlist b n (Q : unit → wst → Prop) :
  Q tt (Wst Enlisted b n) → follows (SetSlot (sl sh s) (Ret tt)) (Wst Calm b n) Q.
Proof using Type.
  intros HQ. apply follows_side; [done..|]. intros E m V HW HE t b' p' V' m'. simpl. intros [= <- <- <-]%in_block_Next.
  eexists. split; [by eapply enlist|]. by apply follows_ret.
Qed.

Lemma follows_raise b n (Q : unit → wst → Prop) :
  (∀ p, Q tt (Wst (Flagged p) b n)) →
  follows (store_bool (pk sh s) true Relaxed) (Wst Enlisted b n) Q.
Proof using Type.
  intros HQ. apply follows_side; [done..|]. intros E m V HW HE t b' p' V' m'. unfold store_bool, store. simpl.
  destruct (hist m !! pk sh s) as [h|] eqn:Hh; [|done]. destruct (h !! t) eqn:Ht; [done|].
  destruct (Nat.ltb_spec (vw (cur V) (pk sh s)) t); [|done]. intros [= <- <- <-].
  eexists. split; [by eapply raise|]. apply follows_ret, HQ.
Qed.

Lemma follows_wait_fence p b n (Q : unit → wst → Prop) :
  (∀ tc td, Q tt (Wst (Alert p tc None td None) b n)) →
  follows (fence SeqCst) (Wst (Flagged p) b n) Q.
Proof using Type.
  intros HQ. apply follows_side; [done..|]. intros E m V HW HE t b' p' V' m'.
  pose proof (fence_waiter sh E m s _ V tr (Some c) p HW HE eq_refl) as HF. simpl in *.
  intros [= <- <- <-]. eexists. split; [exact HF|]. apply follows_ret, HQ.
Qed.

Lemma follows_look p tc vc td vd b n (Q : Z → wst → Prop) :
  (∀ t v, Q v (Wst (Alert p t (Some v) td vd) b n)) →
  follows (load (ctr sh (peer s)) Acquire) (Wst (Alert p tc vc td vd) b n) Q.
Proof using Type.
  intros HQ. apply follows_side; [done..|]. intros E m V HW HE t b' p' V' m'. unfold load. simpl.
  destruct (hist m !! _) as [h|] eqn:Hh; [|done]. destruct (h !! t) as [x|] eqn:Ht; [|done].
  destruct (Nat.leb_spec (vw (cur V) (ctr sh (peer s))) t); [|done]. intros [= <- <- <-].
  eexists. split; [by eapply look_counter|]. apply follows_ret, HQ.
Qed.

Lemma follows_look_disc p tc vc td vd b n (Q : bool → wst → Prop) :
  (∀ t, Q false (Wst (Alert p tc vc t (Some 0)) b n)) →
  (∀ t v, Q true (Wst (Alert p tc vc t (Some v)) b n)) →
  follows (load_bool (disconnected sh) Acquire) (Wst (Alert p tc vc td vd) b n) Q.
Proof using Type.
  intros Hf Ht. apply follows_side; [done..|]. intros E m V HW HE t b' p' V' m'. unfold load_bool. simpl.
  destruct (hist m !! _) as [h|] eqn:Hh; [|done]. destruct (h !! t) as [x|] eqn:Hx; [|done].
  destruct (Nat.leb_spec (vw (cur V) (disconnected sh)) t); [|done]. intros [= <- <- <-].
  eexists. split; [by eapply look_disc|]. apply follows_ret.
  destruct (Z.eqb_spec (mval x) 0) as [->|]; [apply Hf|apply Ht].
Qed.

Lemma follows_settle σ b n (Q : unit → wst → Prop) :
  steady σ = true → Q tt (Wst (settled σ) b n) →
  follows (store_bool (pk sh s) false Relaxed) (Wst σ b n) Q.
Proof using Type.
  intros Hs HQ. apply follows_side; [done..|]. intros E m V HW HE t b' p' V' m'. unfold store_bool, store. simpl.
  destruct (hist m !! pk sh s) as [h|] eqn:Hh; [|done]. destruct (h !! t) eqn:Ht; [done|].
  destruct (Nat.ltb_spec (vw (cur V) (pk sh s)) t); [|done]. intros [= <- <- <-].
  eexists. split; [by eapply settle_flag|]. by apply follows_ret.
Qed.

Lemma follows_park p tc v td b (Q : unit → wst → Prop) :
  drops c = false → blocked s (done_by s tr) v → Q tt (Wst Calm b (done_by s tr)) →
  follows park (Wst (Alert p tc (Some v) td (Some 0)) b (done_by s tr)) Q.
Proof using Type.
  intros Hd Hb HQ. apply follows_side; [done| |].
  { intros _. by exists s, p, tc, v, td. }
  set (w := Wst (Alert p tc (Some v) td (Some 0)) b (done_by s tr)).
  intros E m V HW HE t b' p' V' m'. simpl. destruct (mtokens m !! tid_of s) as [X|].
  - intros [= <- <- <-]. exists (wto Calm w). split; [|by apply follows_ret].
    eapply (wake_up sh E m s w V); [exact HW|exact HE|done|apply vle_join_l|].
    intros Y. rewrite lookup_delete_ne; [done|apply tid_tid].
  - destruct b'; [|done]. intros [= <- <- <-]. exists (wto Calm w). split; [|by apply follows_ret].
    assert (m = set_mtokens (λ X, X) m) as Hm by by destruct m. rewrite Hm.
    by eapply (wake_up sh E m s w V).
Qed.

(** ** The actions of a waker *)

Lemma follows_publish b n v (Q : unit → wst → Prop) :
  (∀ n', Q tt (Wst Owing b n')) →
  follows (store (ctr sh s) v Release) (Wst Calm b n) Q.
Proof using Type.
  intros HQ. apply follows_side; [done..|]. intros E m V HW HE t b' p' V' m'. unfold store. simpl.
  destruct (hist m !! _) as [h|] eqn:Hh; [|done]. destruct (h !! t) eqn:Ht; [done|].
  case_match; [|done]. intros [= <- <- <-].
  eexists. split; [by eapply publish_news|]. apply follows_ret, HQ.
Qed.

Lemma follows_disconnect b n (Q : unit → wst → Prop) :
  Q tt (Wst Owing true n) →
  follows (store_bool (disconnected sh) true Release) (Wst Calm b n) Q.
Proof using Type.
  intros HQ. apply follows_side; [done..|]. intros E m V HW HE t b' p' V' m'. unfold store_bool, store. simpl.
  destruct (hist m !! _) as [h|] eqn:Hh; [|done]. destruct (h !! t) eqn:Ht; [done|].
  case_match; [|done]. intros [= <- <- <-].
  eexists. split; [by eapply disc_news|]. by apply follows_ret.
Qed.

Lemma follows_wake_fence σ b n (Q : unit → wst → Prop) :
  σ = Owing ∨ σ = Calm → Q tt (Wst Checking b n) →
  follows (fence SeqCst) (Wst σ b n) Q.
Proof using Type.
  intros Hs HQ. apply follows_side; [done..|]. intros E m V HW HE t b' p' V' m'.
  pose proof (fence_waker sh E m s _ V tr (Some c) HW HE Hs) as HF. simpl in *.
  intros [= <- <- <-]. eexists. split; [exact HF|]. by apply follows_ret.
Qed.

Lemma follows_check b n (Q : bool → wst → Prop) :
  Q true (Wst Claiming b n) → Q false (Wst Calm b n) →
  follows (load_bool (pk sh (peer s)) Relaxed) (Wst Checking b n) Q.
Proof using Type.
  intros HT HF. apply follows_side; [done..|]. intros E m V HW HE t b' p' V' m'. unfold load_bool. simpl.
  destruct (hist m !! _) as [h|] eqn:Hh; [|done]. destruct (h !! t) as [x|] eqn:Hx; [|done].
  destruct (Nat.leb_spec (vw (cur V) (pk sh (peer s))) t); [|done]. intros [= <- <- <-].
  destruct (read_view_grows (pk sh (peer s)) t Relaxed x V) as [HV _].
  destruct (Z.eqb_spec (mval x) 0) as [H0|H0]; simpl.
  - exists (Wst Calm b n). split; [|by apply follows_ret]. by eapply (pass sh E m s (Wst Checking b n) V).
  - exists (Wst Claiming b n). split; [|by apply follows_ret]. by eapply (claim sh E m s (Wst Checking b n) V).
Qed.

Lemma follows_lower b n (Q : unit → wst → Prop) :
  Q tt (Wst Lowered b n) →
  follows (store_bool (pk sh (peer s)) false Relaxed) (Wst Claiming b n) Q.
Proof using Type.
  intros HQ. apply follows_side; [done..|]. intros E m V HW HE t b' p' V' m'. unfold store_bool, store. simpl.
  destruct (hist m !! _) as [h|] eqn:Hh; [|done]. destruct (h !! t) eqn:Ht; [done|].
  case_match; [|done]. intros [= <- <- <-].
  exists (Wst Lowered b n). split; [by eapply (lower sh E m s (Wst Claiming b n))|by apply follows_ret].
Qed.

Lemma follows_take b n (Q : option tid → wst → Prop) :
  (∀ o, Q o (Wst (called o) b n)) →
  follows (TakeSlot (sl sh (peer s)) Ret) (Wst Lowered b n) Q.
Proof using Type.
  intros HQ. apply follows_side; [done..|]. intros E m V HW HE t b' p' V' m'. simpl. intros [= <- <- <-]%in_block_Next.
  eexists. split; [by eapply (take sh E m s (Wst Lowered b n))|]. apply follows_ret, HQ.
Qed.

Lemma follows_call j b n (Q : unit → wst → Prop) :
  Q tt (Wst Calm b n) → follows (unpark j) (Wst (Calling j) b n) Q.
Proof using Type.
  intros HQ. apply follows_side; [done..|]. intros E m V HW HE t b' p' V' m'. simpl. intros [= <- <- <-].
  eexists. split; [by eapply (call_waiter sh E m s (Wst (Calling j) b n))|]. by apply follows_ret.
Qed.

(** Waking the peer. *)
Lemma follows_wake b n (Q : unit → wst → Prop) :
  Q tt (Wst Calm b n) →
  follows (wake (parker_of (sh_ring sh) (peer s))) (Wst Checking b n) Q.
Proof using Type.
  intros HQ. apply follows_bind, follows_check; [|by apply follows_ret].
  apply follows_bind, follows_lower, follows_bind, follows_take.
  intros [j|]; [by apply follows_call|by apply follows_ret].
Qed.

Lemma follows_take_own σ b n (Q : option tid → wst → Prop) :
  σ = Calm ∨ σ = Checking → (∀ o, Q o (Wst σ b n)) →
  follows (TakeSlot (sl sh s) Ret) (Wst σ b n) Q.
Proof using Type.
  intros Hs HQ. apply follows_side; [done..|]. intros E m V HW HE t b' p' V' m'. simpl. intros [= <- <- <-]%in_block_Next.
  eexists. split; [by eapply (take_own sh E m s (Wst σ b n))|]. apply follows_ret, HQ.
Qed.

Lemma follows_unpark j w (Q : unit → wst → Prop) : Q tt w → follows (unpark j) w Q.
Proof using Type.
  intros HQ. apply follows_quiet; [done..|]. intros m V t b' p' V' m'. simpl. intros [= <- <- <-].
  split_and!; [done|intros; apply milder_token|by apply follows_ret].
Qed.

(** Waking oneself, in the drop of the handle, changes nothing. *)
Lemma follows_wake_own σ b n (Q : unit → wst → Prop) :
  σ = Calm ∨ σ = Checking → Q tt (Wst σ b n) →
  follows (wake (parker_of (sh_ring sh) s)) (Wst σ b n) Q.
Proof using Type.
  intros Hs HQ. apply follows_bind, follows_load_bool. intros [|]; [|by apply follows_ret].
  apply follows_bind, follows_settle; [by destruct Hs as [-> | ->]|].
  replace (settled σ) with σ by (by destruct Hs as [-> | ->]).
  apply follows_bind, follows_take_own; [done|].
  intros [j|]; [by apply follows_unpark|by apply follows_ret].
Qed.

(** ** Shared steps of the operations *)

Abbreviation calm n := (Wst Calm false n).

(** Where a call leaves a side that keeps its handle. *)
Definition rested w : Prop := ∃ n, w = calm n.

Lemma follows_wake_if_park σ b n (Q : unit → wst → Prop) :
  σ = Owing ∨ σ = Calm → Q tt (Wst Calm b n) →
  follows (wake_if_park sh (parker_of (sh_ring sh) (peer s))) (Wst σ b n) Q.
Proof using Hpark.
  intros Hs HQ. unfold wake_if_park. rewrite bool_decide_true by done.
  apply follows_bind, follows_wake_fence; [done|]. by apply follows_wake.
Qed.

(** The wait both sides share: register and look once more; then give up or
    park. *)
Lemma follows_watch {A} (rest : Z → prog T A) n (Q : A → wst → Prop) :
  (∀ v p t td, follows (rest v) (Wst (Alert p t (Some v) td None) false n) Q) →
  follows (_ ← prepare_park (parker_of (sh_ring sh) s);
           _ ← fence SeqCst;
           v ← load (ctr sh (peer s)) Acquire;
           rest v) (calm n) Q.
Proof using Type.
  intros Hrest. apply follows_bind.
  apply follows_bind, follows_enlist, follows_raise. intros p.
  apply follows_bind, follows_wait_fence. intros tc td.
  apply follows_bind, follows_look. intros t v. apply Hrest.
Qed.

Lemma follows_finish {A} (retry : bool) (ladder : A) p t v td vd (Q : A → wst → Prop) :
  (retry = false → vd = Some 0 ∧ drops c = false ∧ blocked s (done_by s tr) v) →
  Q ladder (calm (done_by s tr)) →
  follows (_ ← (if retry then cancel (parker_of (sh_ring sh) s)
                else Parker_park (parker_of (sh_ring sh) s));
           mret ladder) (Wst (Alert p t (Some v) td vd) false (done_by s tr)) Q.
Proof using Type.
  intros Hb HQ. apply follows_bind. destruct retry.
  - by apply follows_settle, follows_ret.
  - destruct (Hb eq_refl) as (-> & Hd & Hbl). apply follows_bind, follows_park; [done|done|].
    by apply follows_settle, follows_ret.
Qed.

(** ** Dropping a handle *)

Lemma follows_drop_range k z w (Q : unit → wst → Prop) : Q tt w → follows (drop_range k sh z) w Q.
Proof using Type.
  revert z. induction k as [|k IH]; intros z HQ; [by apply follows_ret|].
  cbn [drop_range]. apply follows_bind, follows_index. intros i.
  apply follows_bind, follows_drop. by apply IH.
Qed.

Lemma follows_Arc_drop w (Q : unit → wst → Prop) : Q tt w → follows (Arc_drop sh) w Q.
Proof using Type.
  intros HQ. apply follows_bind, follows_release. intros k. case_match; [|by apply follows_ret].
  apply follows_bind, follows_acquire, follows_bind. unfold Shared_drop.
  apply follows_bind, follows_load. intros h. apply follows_bind, follows_load. intros t.
  by apply follows_drop_range, follows_dealloc.
Qed.

End side.

Lemma follows_close s tr c n (Q : unit → wst → Prop) :
  Q tt (Wst Calm true n) →
  follows (λ _, True) Stages dozing (tid_of s) tr c (close sh) (Wst Calm false n) Q.
Proof using Type.
  intros HQ. apply follows_bind, follows_disconnect.
  apply follows_bind, follows_wake_fence; [by left|]. destruct s.
  - apply follows_bind, (follows_wake_own Consumer); [by right|]. by apply (follows_wake Consumer).
  - apply follows_bind, (follows_wake Producer). by apply (follows_wake_own Producer); [left|].
Qed.

Lemma follows_handle_drop s tr c n (Q : unit → wst → Prop) :
  Q tt (Wst Calm true n) →
  follows (λ _, True) Stages dozing (tid_of s) tr c (_ ← close sh; Arc_drop sh) (Wst Calm false n) Q.
Proof using Type. intros HQ. by apply follows_bind, follows_close, follows_Arc_drop. Qed.

(** ** The sender *)

Section sender.
Context (tr : list (call T * event T)) (c : call T).
Abbreviation follows := (follows (λ _, True) Stages dozing (tid_of Producer) tr c).
Abbreviation calm n := (Wst Calm false n).

Definition send_left (self : Sender) n (x : Sender * result unit (TrySendError T)) w : Prop :=
  s_shared x.1 = sh ∧ rested w ∧
  match x.2 with Err (Full _) => s_tail x.1 = s_tail self ∧ w = calm n | _ => True end.

Lemma follows_put hd t n v (Q : Sender * result unit (TrySendError T) → wst → Prop) :
  (∀ self n', s_shared self = sh → Q (self, Ok tt) (calm n')) →
  follows (i ← index (buf_len sh) (Z.land t (mask sh));
           _ ← write_cell (buf sh i) v;
           t ← arith (usize_add t 1);
           _ ← store (tail sh) t Release;
           _ ← wake_if_park sh (consumer_parker sh);
           mret (MkSender sh t hd, Ok tt)) (calm n) Q.
Proof using Hpark.
  intros HQ. apply follows_bind, follows_index. intros i. apply follows_bind, follows_write.
  apply follows_bind, follows_arith. intros z _. apply follows_bind.
  apply (follows_publish Producer). intros n'. apply follows_bind.
  apply (follows_wake_if_park Producer); [by left|]. by apply follows_ret, HQ.
Qed.

Lemma follows_try_send self v n :
  s_shared self = sh → follows (try_send self v) (calm n) (send_left self n).
Proof using Hpark.
  intros Hsh. destruct self as [sh' t hd]. simpl in Hsh. subst sh'.
  assert (Hok : ∀ self self' n', s_shared self' = sh → send_left self n (self', Ok tt) (calm n')).
  { intros self0 self' n' Hs. split_and!; [done|by exists n'|done]. }
  unfold try_send. cbn [s_shared s_tail cached_head]. apply follows_bind, follows_load_bool. intros [|].
  { apply follows_ret. split_and!; [done|by exists n|done]. }
  apply follows_bind, follows_arith. intros used _. apply follows_bind.
  assert (Hfull : ∀ hd', send_left (MkSender sh t hd) n (MkSender sh t hd', Err (Full v)) (calm n)).
  { intros hd'. split_and!; [done|by exists n|done..]. }
  case_match.
  - apply follows_bind, follows_load. intros k. apply follows_bind, follows_arith. intros used' _.
    apply follows_ret. cbn [s_tail]. case_match; [apply follows_ret; apply Hfull|].
    apply follows_put. intros. by apply Hok.
  - apply follows_ret. apply follows_put. intros. by apply Hok.
Qed.

Lemma follows_send_wait self ladder :
  s_shared self = sh → s_tail self = done_by Producer tr → drops c = false →
  follows (send_wait self ladder) (calm (done_by Producer tr)) (λ _ w, w = calm (done_by Producer tr)).
Proof using Hpark.
  intros Hsh Ht Hd. unfold send_wait. rewrite Hsh, Hpark.
  apply (follows_watch Producer). intros v p t td. apply follows_bind, follows_arith. intros used Hu.
  apply follows_bind. destruct (Z.ltb_spec used (cap sh)).
  - by apply follows_ret, (follows_finish Producer tr c true).
  - apply follows_look_disc; [intros t'|intros t' z].
    2: by apply (follows_finish Producer tr c true).
    apply (follows_finish Producer tr c false); [|done].
    intros _. split_and!; [done..|]. exists used. by rewrite <-Ht.
Qed.

Lemma follows_send_loop fuel self v ladder :
  s_shared self = sh → s_tail self = done_by Producer tr → drops c = false →
  follows (send_loop fuel self v ladder) (calm (done_by Producer tr)) (λ _ w, rested w).
Proof using Hpark.
  intros Hsh Ht Hd. revert self v ladder Hsh Ht.
  induction fuel as [|fuel IH]; intros self v ladder Hsh Ht; [apply follows_fuel|].
  cbn [send_loop]. apply follows_bind. eapply follows_mono; [by apply follows_try_send|].
  intros [self' r] w (Hsh' & Hw & Hr). cbn [fst snd] in *. destruct r as [|[w'|w']].
  - by apply follows_ret.
  - destruct Hr as [Ht' ->]. apply follows_bind.
    eapply follows_mono; [apply follows_send_wait; [done|congruence|done]|].
    intros ladder' w ->. apply IH; [done|congruence].
  - by apply follows_ret.
Qed.
End sender.

(** ** The receiver *)

Section receiver.
Context (tr : list (call T * event T)) (c : call T).
Abbreviation follows := (follows (λ _, True) Stages dozing (tid_of Consumer) tr c).
Abbreviation calm n := (Wst Calm false n).

Definition recv_left (self : Receiver) n (x : Receiver * result T TryRecvError) w : Prop :=
  r_shared x.1 = sh ∧ rested w ∧
  match x.2 with Err Empty => r_head x.1 = r_head self ∧ w = calm n | _ => True end.

Lemma follows_get h t n self (Q : Receiver * result T TryRecvError → wst → Prop) :
  r_shared self = sh →
  (∀ self v n', r_shared self = sh → Q (self, Ok v) (calm n')) →
  follows (i ← index (buf_len sh) (Z.land h (mask sh));
           v ← read_cell (buf sh i);
           h ← arith (usize_add h 1);
           _ ← store (head sh) h Release;
           _ ← wake_if_park sh (producer_parker sh);
           mret (MkReceiver sh h t, Ok v)) (calm n) Q.
Proof using Hpark.
  intros Hsh HQ. apply follows_bind, follows_index. intros i. apply follows_bind, follows_read. intros v.
  apply follows_bind, follows_arith. intros z _. apply follows_bind.
  apply (follows_publish Consumer). intros n'. apply follows_bind.
  apply (follows_wake_if_park Consumer); [by left|]. by apply follows_ret, HQ.
Qed.

Lemma follows_try_recv self n :
  r_shared self = sh → follows (try_recv self) (calm n) (recv_left self n).
Proof using Hpark.
  intros Hsh. destruct self as [sh' h t]. simpl in Hsh. subst sh'.
  assert (Hget : ∀ t', follows (i ← index (buf_len sh) (Z.land h (mask sh));
           v ← read_cell (buf sh i);
           h ← arith (usize_add h 1);
           _ ← store (head sh) h Release;
           _ ← wake_if_park sh (producer_parker sh);
           mret (MkReceiver sh h t', Ok v)) (calm n) (recv_left (MkReceiver sh h t) n)).
  { intros t'. apply (follows_get h t' n (MkReceiver sh h t)); [done|]. intros self v n' Hs. split_and!; [done|by exists n'|done]. }
  unfold try_recv. cbn [r_shared r_head cached_tail]. apply follows_bind.
  case_match; [|by apply follows_ret, Hget].
  apply follows_bind, follows_load. intros k. cbn [r_head cached_tail].
  case_match; [|by apply follows_ret, Hget].
  apply follows_bind, follows_load_bool. intros [|].
  - apply follows_bind, follows_load. intros k'.
    case_match; [|by apply follows_ret, Hget]. apply follows_ret, follows_ret. split_and!; [done|by exists n|done].
  - apply follows_ret, follows_ret. split_and!; [done|by exists n|done..].
Qed.

Lemma follows_recv_wait self ladder :
  r_shared self = sh → r_head self = done_by Consumer tr → drops c = false →
  follows (recv_wait self ladder) (calm (done_by Consumer tr)) (λ _ w, w = calm (done_by Consumer tr)).
Proof using Hpark.
  intros Hsh Hh Hd. unfold recv_wait. rewrite Hsh, Hpark.
  apply (follows_watch Consumer). intros v p t td. apply follows_bind.
  destruct (Z.eqb_spec v (r_head self)); cbn [negb].
  - apply follows_look_disc; [intros t'|intros t' z].
    2: by apply (follows_finish Consumer tr c true).
    apply (follows_finish Consumer tr c false); [|done].
    intros _. split_and!; [done..|]. unfold blocked. congruence.
  - by apply follows_ret, (follows_finish Consumer tr c true).
Qed.

Lemma follows_recv_loop fuel self ladder :
  r_shared self = sh → r_head self = done_by Consumer tr → drops c = false →
  follows (recv_loop fuel self ladder) (calm (done_by Consumer tr)) (λ _ w, rested w).
Proof using Hpark.
  intros Hsh Hh Hd. revert self ladder Hsh Hh.
  induction fuel as [|fuel IH]; intros self ladder Hsh Hh; [apply follows_fuel|].
  cbn [recv_loop]. apply follows_bind. eapply follows_mono; [by apply follows_try_recv|].
  intros [self' r] w (Hsh' & Hw & Hr). cbn [fst snd] in *. destruct r as [|[]].
  - by apply follows_ret.
  - destruct Hr as [Ht' ->]. apply follows_bind.
    eapply follows_mono; [apply follows_recv_wait; [done|congruence|done]|].
    intros ladder' w ->. apply IH; [done|congruence].
  - by apply follows_ret.
Qed.

(** Draining leaves the side calm, unless it unwound, or the count it
    returned is not that of what the callback saw. *)
Definition unfinished (seen : list T) (e : exit) : Prop :=
  match e with Unwound => True | Returned n => n ≤ 0 ∧ seen ≠ [] end.

Definition drain_left (self : Receiver) n (env : list T) (x : Receiver * list T * exit) w : Prop :=
  w = calm n ∧ r_shared x.1.1 = sh ∧
  ∃ l, x.1.2 = env ++ l ∧ (l = [] → r_head x.1.1 = r_head self ∨ x.2 = Unwound).

Lemma follows_drain_loop fuel max cb self env count n :
  r_shared self = sh →
  follows (drain_loop fuel max self (collect cb) env count) (calm n) (drain_left self n env).
Proof using Type.
  clear Hpark. revert self env count. induction fuel as [|fuel IH]; intros self env count Hsh; [apply follows_fuel|].
  destruct self as [sh' h t]. simpl in Hsh. subst sh'.
  assert (Hsame : ∀ t' e, drain_left (MkReceiver sh h t) n env (MkReceiver sh h t', env, e) (calm n)).
  { intros t' e. split_and!; [done..|]. exists []. rewrite app_nil_r. split; [done|]. by left. }
  cbn [drain_loop r_shared r_head cached_tail]. case_match; [by apply follows_ret|].
  apply follows_bind. apply (follows_mono _ _ _ _ _ _ (λ x w, w = calm n ∧ ∃ t', x = MkReceiver sh h t')).
  { case_match; [|apply follows_ret; eauto]. apply follows_bind, follows_load. intros k. apply follows_ret. eauto. }
  intros self' w (-> & t' & ->). cbn [r_head cached_tail]. case_match; [by apply follows_ret|].
  apply follows_bind, follows_index. intros i. apply follows_bind, follows_read. intros v.
  assert (Hend : ∀ h' env' l, env' = env ++ l →
    drain_left (MkReceiver sh h t) n env (MkReceiver sh h' t', env', Unwound) (calm n)).
  { intros h' env' l ->. split_and!; [done..|]. exists l. split; [done|]. by right. }
  case_match; [|apply follows_ret, (Hend h env []); by rewrite app_nil_r].
  case_match; [|apply follows_ret, (Hend _ env []); by rewrite app_nil_r].
  unfold collect at 1. case_match; [|by apply follows_ret, (Hend _ _ [v])].
  eapply follows_mono; [by apply IH|]. intros [[self2 env2] e] w (-> & Hsh2 & l & Hl & _). cbn [fst snd] in *.
  split_and!; [done..|]. exists (v :: l). rewrite Hl, <-app_assoc. by split.
Qed.

Lemma follows_drain fuel max cb self n :
  r_shared self = sh →
  follows (drain fuel self max (collect cb) []) (calm n)
    (λ '(self', seen, e) w, wclosed w = false ∧ (rested w ∨ unfinished seen e)).
Proof using Hpark.
  intros Hsh. unfold drain. apply follows_bind. eapply follows_mono; [by apply follows_drain_loop|].
  intros [[self' seen] e] w (-> & Hsh' & l & Hl & He). cbn [fst snd app] in *. subst seen.
  apply follows_bind.
  apply (follows_mono _ _ _ _ _ _ (λ _ w, ∃ σ n', w = Wst σ false n' ∧ (σ = Owing ∨ σ = Calm) ∧
    (σ = Calm ∨ l ≠ [] ∨ e = Unwound))).
  { unfold publish_guard_drop. rewrite Hsh'. destruct (Z.eqb_spec (r_head self') (r_head self)) as [Heq|Hne]; cbn [negb].
    - apply follows_ret. exists Calm, n. auto.
    - apply (follows_publish Consumer). intros n'. exists Owing, n'. split_and!; [done|by left|]. right.
      destruct l; [|by left]. right. destruct (He eq_refl); congruence. }
  intros _ w (σ & n' & -> & Hs & Hl). destruct e as [count|].
  2: { apply follows_ret. split; [done|]. by right. }
  rewrite Hsh'. apply follows_bind. destruct (Z.ltb_spec 0 count).
  - apply (follows_wake_if_park Consumer); [done|]. apply follows_ret. split; [done|]. left. by exists n'.
  - apply follows_ret, follows_ret. split; [done|]. destruct Hl as [->|[Hl|?]]; [left; by exists n'| |done].
    by right.
Qed.
End receiver.
End rules.
