(* ===== verification/SpscPark.v ===== *)
(** No wakeup of the SPSC ring is lost: under [WaitStrategy::Park] a thread
    sleeps only while it has nothing to do. *)
From S2P Require Import Prelude Usize Atomic Errors Wait Notify Ring Queue Spsc Seq Memory Machine Logic Parking SpscInv SpscConc SpscRuns Track SpscWait SpscWake.
Local Open Scope Z_scope.

Section park.
Context `{tgt : Target} {T : Type} (cb : T → bool) (cap : Z).
Hypothesis Hpos : 0 < cap.
Hypothesis Hmax : cap ≤ usize_max.
Hypothesis Hpow : is_power_of_two cap = true.
Hypothesis Hcalm : ∀ v, cb v = true.

Abbreviation sh := (shared cap Park).
Abbreviation entry := (ent wst (call T) (event T)).
Implicit Types (F : side → entry) (m : mem T).

Definition ready_at (_ : tid) (_ : handle) (w : wst) : Prop := rested w.
Definition gone_at (_ : tid) (w : wst) : Prop := ∃ n, w = Wst Calm true n.
Definition left_at (i : tid) (_ : list (call T * event T)) (_ : call T)
    (r : reply handle (event T)) (w : wst) : Prop :=
  let '(keep, new, o) := r in
  new = [] ∧
  match keep with
  | None => gone_at i w
  | Some _ => wclosed w = false ∧
      (rested w ∨ match o with EvDrain seen e => unfinished seen e | _ => False end)
  end.

(** ** Every call follows the protocol *)

Lemma keep_left i tr c h o w :
  wclosed w = false → rested w ∨ match o with EvDrain seen e => unfinished seen e | _ => False end →
  left_at i tr c (Some h, [], o) w.
Proof using Type. done. Qed.

Lemma rested_left i tr c h o w : rested w → left_at i tr c (Some h, [], o) w.
Proof using Type. intros Hr. apply keep_left; [by destruct Hr as [n ->]|by left]. Qed.

Lemma start_follows_sender tr c self :
  s_shared self = sh → s_tail self = done_by Producer tr →
  follows (λ _, True) (Stages sh) (dozing sh) (tid_of Producer) tr c (start cb c (HSender self))
    (Wst Calm false (done_by Producer tr)) (left_at (tid_of Producer) tr c).
Proof using Type.
  intros Hsh Ht. destruct c as [v|fuel v| | |fuel|fuel max|]; cbn [start].
  all: try (apply follows_ret, rested_left; by eexists).
  - apply follows_bind. eapply follows_mono; [by apply follows_try_send|].
    intros [self' r] w (_ & Hr & _). by apply follows_ret, rested_left.
  - apply follows_bind. unfold send. rewrite Hsh. eapply follows_mono; [by apply follows_send_loop|].
    intros [self' r] w Hr. by apply follows_ret, rested_left.
  - apply follows_bind. unfold Sender_drop. rewrite Hsh. apply follows_handle_drop, follows_ret.
    split; [done|]. by eexists.
Qed.

Lemma start_follows_receiver tr c self :
  r_shared self = sh → r_head self = done_by Consumer tr →
  follows (λ _, True) (Stages sh) (dozing sh) (tid_of Consumer) tr c (start cb c (HReceiver self))
    (Wst Calm false (done_by Consumer tr)) (left_at (tid_of Consumer) tr c).
Proof using Type.
  intros Hsh Ht. destruct c as [v|fuel v| | |fuel|fuel max|]; cbn [start].
  all: try (apply follows_ret, rested_left; by eexists).
  - apply follows_bind. eapply follows_mono; [by apply follows_try_recv|].
    intros [self' r] w (_ & Hr & _). by apply follows_ret, rested_left.
  - apply follows_bind. unfold recv. rewrite Hsh. eapply follows_mono; [by apply follows_recv_loop|].
    intros [self' r] w Hr. by apply follows_ret, rested_left.
  - apply follows_bind. eapply follows_mono; [by apply follows_drain|].
    intros [[self' seen] e] w [Hc Hr]. by apply follows_ret, keep_left.
  - apply follows_bind. unfold Receiver_drop. rewrite Hsh. apply follows_handle_drop, follows_ret.
    split; [done|]. by eexists.
Qed.

(** ** Starting and finishing calls *)

(** Between two calls only the labels of an entry change. *)
Lemma Watch_relabel F m s w V tr c w' tr' c' :
  Watch sh F m → F s = Ent w V tr c → wstage w' = wstage w → wclosed w' = wclosed w →
  pub_ok sh s (Ent w' V tr' c') m →
  Watch sh (upd s (Ent w' V tr' c') F) m.
Proof using Type.
  intros HW HF Hs Hc Hp. destruct (Watch_open _ _ _ _ _ HW HF) as ([F1 F2 F3 F4] & [P1 P2 P3 P4] & [D1 D2 D3 D4]).
  apply Watch_upd; split; simpl; rewrite ?Hs, ?Hc; try done.
  - unfold wait_ok in *. simpl in *. by rewrite Hs.
  - eapply wait_milder; [apply milder_refl|done|done|..|exact P3]; unfold alarmed, owes; simpl; rewrite ?Hs; auto.
Qed.

(** What a handle knows when a call begins. *)
Lemma ready_counts E m s g V tr :
  SInv sh E m → E s = Ent g V tr None → gphase g = Open → gpub g = num g →
  num g = done_by s tr ∧ ∀ w c, wpub w = done_by s tr → pub_ok sh s (Ent w V tr c) m.
Proof using Type.
  intros HI HE Hph Hpub.
  assert (Hn : num g = done_by s tr).
  { destruct (si_log _ _ _ HI) as [HP HC]. unfold num. destruct s; rewrite HE in *; simpl in *; congruence. }
  split; [done|]. intros w c Hw h Hh.
  assert (¬ freed E) as Hf by (eapply open_not_freed; [done|by rewrite Hph]).
  destruct (mi_ctr _ _ _ (si_mem _ _ _ HI Hf) s) as (h' & Hh' & Hc). assert (h' = h) as -> by congruence.
  destruct (ci_last _ _ _ _ _ Hc) as (t0 & x0 & Ht0 & Hx0). rewrite HE in Hx0. simpl in *. split.
  - intros t x Ht. destruct (ci_msg _ _ _ _ _ Hc t x Ht) as [? _]. rewrite HE in *. simpl in *. lia.
  - exists t0, x0. split; [done|]. lia.
Qed.

Lemma track_start Γ Δ m i g w V tr h c :
  Inv sh Γ m → Γ !! i = Some (Ent g V tr None) → ready_ok sh i h V g tr →
  Stages sh Δ m → Δ !! i = Some (Ent w V tr None) → ready_at i h w →
  ∃ w', Stages sh (<[i := Ent w' V tr (Some c)]> Δ) m ∧
    track (λ _, True) (Stages sh) (dozing sh) i tr c (left_at i tr c) (start cb c h) V w'.
Proof using Type.
  intros (E & -> & HI & _) Hi Hr (F & -> & HW) HF [n ->].
  assert (∃ s, i = tid_of s) as [s ->] by (destruct i as [|[|]]; [by exists Producer|by exists Consumer|done]).
  assert (HE : E s = Ent g V tr None) by (destruct s; simpl in Hi; congruence).
  assert (HF' : F s = Ent (Wst Calm false n) V tr None) by (destruct s; simpl in HF; congruence).
  assert (Hopen : gphase g = Open ∧ gpub g = num g).
  { destruct h; simpl in Hr; [by destruct Hr as [_ []]|by destruct Hr as (_ & [] & ?)]. }
  destruct (ready_counts _ _ _ _ _ _ HI HE (proj1 Hopen) (proj2 Hopen)) as [Hn Hpub].
  exists (Wst Calm false (done_by s tr)). split.
  - exists (upd s (Ent (Wst Calm false (done_by s tr)) V tr (Some c)) F). split; [by destruct s|].
    eapply Watch_relabel; [exact HW|exact HF'|done..|by apply Hpub].
  - destruct h as [self|self]; simpl in Hr.
    + destruct Hr as [Hs Hsend]. destruct s; [done|]. apply start_follows_sender; [apply Hsend|].
      rewrite (sn_tail _ _ _ Hsend). done.
    + destruct Hr as (Hs & Hrecv & _). destruct s; [|done]. apply start_follows_receiver; [apply Hrecv|].
      rewrite (rc_head _ _ _ Hrecv). done.
Qed.

Lemma track_leave Δ m i g w V tr c keep new o :
  Stages sh Δ m → Δ !! i = Some (Ent w V tr (Some c)) →
  post cb sh i tr c (keep, new, o) V g → left_at i tr c (keep, new, o) w →
  ∃ w' ws,
    Stages sh (<[i := Ent w' V (tr ++ [(c, o)]) None]> Δ ++ ((λ w, Ent w V [] None) <$> ws)) m ∧
    (∀ h, keep = Some h → ready_at i h w') ∧ (keep = None → gone_at i w') ∧
    length ws = length new ∧
    (∀ j h w, new !! j = Some h → ws !! j = Some w → ready_at (length Δ + j) h w).
Proof using Hcalm.
  intros (F & -> & HW) Hi (-> & Hcomp & s & -> & _) [_ Hleft].
  assert (HF : F s = Ent w V tr (Some c)) by (destruct s; simpl in Hi; congruence).
  exists w, []. split_and!; try done.
  - rewrite app_nil_r. exists (upd s (Ent w V (tr ++ [(c, o)]) None) F). split; [by destruct s|].
    eapply Watch_relabel; [exact HW|exact HF|done..|].
    pose proof (do_pub _ _ _ _ _ (wa_disc _ _ _ HW s)) as Hp. by rewrite HF in Hp.
  - intros h ->. destruct Hleft as [_ [Hr|Hu]]; [done|]. destruct o as [| | | |seen e| |]; try done.
    destruct e as [n|]; simpl in Hcomp, Hu.
    + destruct Hu as [Hn Hne]. destruct seen; [done|]. simpl in *. lia.
    + destruct Hcomp as (v & _ & Hv). by rewrite Hcalm in Hv.
  - by intros ->.
Qed.

(** ** The start of a run *)

Definition stage0 : entry := Ent (Wst Calm false 0) (view1 cap Park) [] None.
Abbreviation mem1 := (mem1 (T := T) cap Park).
Abbreviation zero := ({[0%nat := Msg 0 ∅]} : gmap nat msg).

Lemma zero_hist s :
  hist mem1 !! pk sh s = Some zero ∧ hist mem1 !! ctr sh s = Some zero ∧
  hist mem1 !! disconnected sh = Some zero.
Proof using Type.
  split_and!; [destruct s|destruct s|]; apply hist_zero; unfold fields; set_solver +.
Qed.

Lemma zero_stored l t : hist mem1 !! l = Some zero → stored mem1 l t → t = 0%nat.
Proof using Type.
  intros Hl (h & Hh & [x Hx]). rewrite Hl in Hh. injection Hh as <-.
  by apply lookup_singleton_Some in Hx as [<- _].
Qed.

Lemma initial_watch : Watch sh (λ _, stage0) mem1.
Proof using Type.
  assert (Hpub : ∀ s, pub_ok sh s stage0 mem1).
  { intros s h Hh. rewrite (proj1 (proj2 (zero_hist s))) in Hh. injection Hh as <-. split.
    - by intros t x [<- <-]%lookup_singleton_Some.
    - exists 0%nat, (Msg 0 ∅). by rewrite lookup_singleton_eq. }
  split; intros s; destruct (zero_hist s) as (H1 & H2 & H3); split; try done.
  - intros t ->%zero_stored; [|done]. left. lia.
  - intros t ->%zero_stored; [|done]. split; [lia|]. left. lia.
  - intros t ->%zero_stored; [|done]. left. lia.
  - intros h t x Hh Ht _. rewrite H3 in Hh. injection Hh as <-. by apply lookup_singleton_Some in Ht as [<- _].
Qed.

Abbreviation conf := (config T handle (call T) (event T)).
Abbreviation stages := (stages_ok (H := handle) (λ _, True) (Stages sh) (dozing sh) ready_at gone_at left_at).

Lemma initial_stages : stages [stage0; stage0] (initial cap Park).
Proof using Type.
  split; [|done|].
  - exists (λ _, stage0). split; [done|apply initial_watch].
  - intros [|[|]] th e; simpl; [| |done]; intros [= <-] [= <-];
      (split; [done|]); (split; [done|]); (split; [done|]); by exists 0.
Qed.

(** At the end of a run both developments hold. *)
Lemma run_stages s g tP tC :
  calls s ≤ usize_max → runs_to cb cap Park s g → pool g = [tP; tC] →
  ∃ E th F, run_ok cap Park E g th ∧ th Producer = tP ∧ th Consumer = tC ∧
    Watch sh F (cmem g) ∧ stages [F Producer; F Consumer] g.
Proof using Hpos Hmax Hpow Hcalm.
  intros Hs Hrun Hpool. destruct (runs_to_ok cb cap Park Hpos Hmax Hpow _ _ _ _ Hs Hrun Hpool) as (E & th & Hok & HP & HC).
  destruct Hrun as (g0 & Hg0 & Hrun). rewrite (launch_eq cap Park Hpos Hmax Hpow) in Hg0. injection Hg0 as <-.
  destruct (track_adequacy (start cb) (Inv sh) (ready_ok sh) gone_ok (post cb sh) (λ _, True) (Stages sh) (dozing sh)
    ready_at gone_at left_at usize_max (start_ok cb sh (shared_ok cap Park Hpos Hmax Hpow)) (finish_ok cb sh)
    (λ _ _ _, I) track_start track_leave [entry0 cap Park; entry0 cap Park] [stage0; stage0] (initial cap Park) 0 s)
    as (Γ & Δ & g' & Hrun' & _ & Hst); [by apply initial_ok|apply initial_stages|done|lia|].
  rewrite Hrun in Hrun'. injection Hrun' as <-. destruct (so_inv _ _ _ _ _ _ _ _ Hst) as (F & -> & HW).
  by exists E, th, F.
Qed.

(** ** A sleeping thread has nothing to do *)

(** The peer of a sleeper that is not in the middle of a publication. *)
Lemma sleeper E th F g s (tr : list (call T * event T)) c w V :
  run_ok cap Park E g th → Watch sh F (cmem g) →
  F s = Ent w V tr (Some c) → busy (th s) = Some c →
  dozing sh (tid_of s) tr c w → mtokens (cmem g) !! tid_of s = None →
  wakes (wstage (eg (F (peer s)))) = false →
  gpub (eg (E s)) = done_by s tr ∧ blocked sh s (done_by s tr) (gpub (eg (E (peer s)))) ∧
  wclosed (eg (F (peer s))) = false.
Proof using Type.
  intros Hok HW HF Hb (s' & p & tc & v & td & Hs & Hd & Hst & Hpub & Hbl) Htok Hpeer.
  assert (s' = s) as -> by (by destruct s, s'). clear Hs.
  pose proof (ro_inv _ _ _ _ _ Hok) as HI.
  assert (Hopen : gphase (eg (E s)) = Open).
  { apply (ro_calls _ _ _ _ _ Hok s c); [|done]. by rewrite (ro_cur _ _ _ _ _ Hok). }
  assert (HM : mem_inv sh E (cmem g)).
  { apply (si_mem _ _ _ HI). intros [HP HC]. destruct s; congruence. }
  destruct (Watch_open _ _ _ _ _ HW HF) as ([_ _ Hwait _] & [_ _ _ Hclosed] & [_ Hzero Hown _]).
  unfold wait_ok in Hwait. simpl in Hwait. rewrite Hst in Hwait.
  destruct Hwait as (_ & _ & _ & Hlc & Hld & [Ha|[_ [[Hcc Hcd]|Ho]]]).
  { destruct Ha as [[X HX]|[HX|[_ [HX|HX]]]]; [congruence|by rewrite HX in Hpeer..]. }
  2: { destruct Ho as [HX|[HX _]]; by rewrite HX in Hpeer. }
  split_and!.
  - destruct (mi_ctr _ _ _ HM s) as (h & Hh & Hc). destruct (Hown h Hh) as [Hle (t & x & Ht & Hx)].
    destruct (ci_last _ _ _ _ _ Hc) as (t0 & x0 & Ht0 & Hx0). specialize (Hle _ _ Ht0).
    destruct (ci_msg _ _ _ _ _ Hc _ _ Ht) as [? _]. simpl in *. lia.
  - destruct (mi_ctr _ _ _ HM (peer s)) as (h & Hh & Hc). destruct (Hlc v h eq_refl Hh) as (x & Hx & <-).
    destruct (ci_last _ _ _ _ _ Hc) as (t0 & x0 & Ht0 & Hx0).
    assert (t0 ≤ tc)%nat as Hle by (apply Hcc; exists h; split; [done|by eexists]).
    pose proof (ci_mono _ _ _ _ _ Hc _ _ _ _ Ht0 Hx Hle). destruct (ci_msg _ _ _ _ _ Hc _ _ Hx) as [? _].
    replace (gpub _) with (mval x) by lia. by rewrite <-Hpub.
  - apply not_true_iff_false. intros Hcl. destruct (mi_disc _ _ _ HM) as (h & Hh & _).
    destruct (Hclosed Hcl h Hh) as (t & x & Ht & Hx). destruct (Hld 0 h eq_refl Hh) as (y & Hy & Hy0).
    assert (t ≤ td)%nat as Hle by (apply Hcd; exists h; split; [done|by eexists]).
    pose proof (Hzero h td y Hh Hy Hy0) as ->. assert (t = 0%nat) as -> by lia. congruence.
Qed.

(** The stage of a thread that is asleep or between calls. *)
Lemma resting F g s th :
  stages [F Producer; F Consumer] g → pool g !! tid_of s = Some th → stat th ≠ Panicking →
  (asleep (tid_of s) th (cmem g) = true →
     ∃ c w, F s = Ent w (tvw th) (trace th) (Some c) ∧ busy th = Some c ∧
       dozing sh (tid_of s) (trace th) c w ∧ mtokens (cmem g) !! tid_of s = None) ∧
  (asleep (tid_of s) th (cmem g) = true ∨ busy th = None → wakes (wstage (eg (F s))) = false) ∧
  (stat th = Exited → wclosed (eg (F s)) = true).
Proof using Type.
  intros Hst Hi Hfine.
  assert (HF : ∀ e, [F Producer; F Consumer] !! tid_of s = Some e → F s = e) by (destruct s; simpl; congruence).
  assert (Hsleep : asleep (tid_of s) th (cmem g) = true →
     ∃ c w, F s = Ent w (tvw th) (trace th) (Some c) ∧ busy th = Some c ∧
       dozing sh (tid_of s) (trace th) c w ∧ mtokens (cmem g) !! tid_of s = None).
  { unfold asleep, busy. destruct (stat th) as [|c p| | |] eqn:Hs; try done. intros Ha.
    destruct (blocked_stage _ _ _ _ _ _ _ _ _ _ c p Hst Hi Hs) as (w & HF' & Hd); [by destruct p|].
    exists c, w. split_and!; [by apply HF|done|done|]. destruct p; try done. by apply bool_decide_eq_true in Ha. }
  destruct (stages_entry _ _ _ _ _ _ _ _ _ _ Hst Hi) as (w & cur & HF' & _ & _ & Hstage).
  apply HF in HF'. split_and!; [done| |].
  - intros [Ha|Hb].
    + destruct (Hsleep Ha) as (c & w' & HF2 & _ & (s' & p & tc & v & td & _ & _ & Hw & _) & _).
      rewrite HF2. simpl. by rewrite Hw.
    + rewrite HF'. simpl. unfold busy in Hb. destruct (stat th); try done; simpl in Hstage.
      * destruct Hstage as (_ & n & ->). done.
      * destruct Hstage as (_ & n & ->). done.
  - intros He. rewrite He in Hstage. destruct Hstage as (_ & n & Hw). rewrite HF'. simpl in *. by rewrite Hw.
Qed.

(** A thread that is between calls and still has its handle. *)
Lemma between (E : side → ent (ghost T) (call T) (event T)) th g s :
  run_ok cap Park E g th → busy (th s) = None → stat (th s) ≠ Exited →
  gpub (eg (E s)) = num (eg (E s)) ∧ num (eg (E s)) = done_by s (trace (th s)).
Proof using Type.
  intros Hok Hb He. pose proof (ro_fine _ _ _ _ _ Hok s) as Hf.
  assert (∃ h, stat (th s) = Ready h) as [h Hh] by (unfold busy in Hb; destruct (stat (th s)); eauto; done).
  split; [by eapply ro_told|].
  destruct (si_log _ _ _ (ro_inv _ _ _ _ _ Hok)) as [HP HC].
  rewrite !(ro_cur _ _ _ _ _ Hok), <-!(ro_trace _ _ _ _ _ Hok) in HP, HC.
  unfold num, done_by. destruct s; rewrite Hb in *; congruence.
Qed.

Lemma sub_exact x y used :
  0 ≤ y ≤ x → x ≤ usize_max → usize_sub x y = Some used → used = x - y.
Proof using Type.
  intros Hy Hx Hu. unfold usize_sub in Hu. rewrite checked_in_range in Hu; [congruence|].
  unfold is_usize, usize_max in *. lia.
Qed.

(** C8. No wakeup is lost. Under [WaitStrategy::Park], wherever a schedule
    leads (stale reads, spurious unparks and failures included), as long as no
    callback panics: a receiver sleeps in [recv] while the sender is between
    calls only if everything sent was received and the sender is alive; a
    sender sleeps in [send] while the receiver is between calls only if the
    ring is full and the receiver is alive; and they never both sleep. *)
Theorem spsc_no_lost_wakeup s g tP tC :
  calls s ≤ usize_max → runs_to cb cap Park s g → pool g = [tP; tC] →
  (asleep 1 tC (cmem g) = true → busy tP = None →
     accepted (trace tP) = received (trace tC) ∧ stat tP ≠ Exited) ∧
  (asleep 0 tP (cmem g) = true → busy tC = None →
     Z.of_nat (length (accepted (trace tP))) = Z.of_nat (length (received (trace tC))) + cap ∧
     stat tC ≠ Exited) ∧
  ¬ (asleep 0 tP (cmem g) = true ∧ asleep 1 tC (cmem g) = true).
Proof using Hpos Hmax Hpow Hcalm.
  intros Hs Hrun Hpool. destruct (run_stages _ _ _ _ Hs Hrun Hpool) as (E & th & F & Hok & <- & <- & HW & Hst).
  assert (Hrest : ∀ s', pool g !! tid_of s' = Some (th s')) by (rewrite Hpool; by intros []).
  pose proof (λ s', resting F g s' (th s') Hst (Hrest s') (ro_fine _ _ _ _ _ Hok s')) as HR.
  assert (Hquiet : ∀ s', asleep (tid_of s') (th s') (cmem g) = true →
    wakes (wstage (eg (F (peer s')))) = false →
    gpub (eg (E s')) = done_by s' (trace (th s')) ∧
    blocked sh s' (done_by s' (trace (th s'))) (gpub (eg (E (peer s')))) ∧ stat (th (peer s')) ≠ Exited).
  { intros s' Ha Hp. destruct (proj1 (HR s') Ha) as (c & w & HF & Hb & Hd & Htok).
    destruct (sleeper _ _ _ _ _ _ _ _ _ Hok HW HF Hb Hd Htok Hp) as (H1 & H2 & H3). split_and!; [done..|].
    intros He. apply (HR (peer s')) in He. congruence. }
  pose proof (ro_inv _ _ _ _ _ Hok) as HI. pose proof (si_max _ _ _ HI). pose proof (si_consumed _ _ _ HI).
  pose proof (si_pub _ _ _ HI Consumer). pose proof (si_pub _ _ _ HI Producer).
  pose proof (si_seen _ _ _ HI Producer). pose proof (si_room _ _ _ HI). cbn [peer Spsc.cap shared] in *.
  assert (num (eg (E Consumer)) ≤ consumed E) by (unfold consumed; lia).
  destruct (producer_log _ _ _ _ _ Hok) as [HlP%prefix_length _].
  split_and!.
  - intros Ha Hb. destruct (Hquiet Consumer Ha) as (Hg & Hv & He); [by apply (HR Producer); right|].
    split; [|done]. destruct (between _ _ _ Producer Hok Hb He) as [H6 H7]. symmetry.
    apply prefix_length_eq; [|cbn [blocked peer done_by] in *; lia].
    etrans; [by eapply run_fifo|]. unfold pending. rewrite Hb. simpl. by rewrite app_nil_r.
  - intros Ha Hb. destruct (Hquiet Producer Ha) as (Hg & (used & Hu & Hle) & He); [by apply (HR Consumer); right|].
    split; [|done]. destruct (between _ _ _ Consumer Hok Hb He) as [H6 H7].
    apply sub_exact in Hu; unfold num in *; cbn [peer done_by Spsc.cap shared] in *; lia.
  - intros [HaP HaC].
    destruct (Hquiet Producer HaP) as (HgP & (used & Hu & Hle) & _); [by apply (HR Consumer); left|].
    destruct (Hquiet Consumer HaC) as (HgC & Hv & _); [by apply (HR Producer); left|].
    apply sub_exact in Hu; unfold num in *; cbn [blocked peer done_by Spsc.cap shared] in *; lia.
Qed.
End park.

(** ** Concrete runs *)

(** The receiver goes to sleep on the empty ring; the sender, in another run,
    on the full one. *)
Definition calm_cb (_ : Z) : bool := true.
Definition calm_run (css : list (list (tid * call Z))) : list (choice (call Z)) :=
  match launch 2 Park with Some g0 => rounds (start calm_cb) css g0 | None => [] end.
Definition sleepy_receiver : list (list (tid * call Z)) :=
  [[(0%nat, CTrySend 1)]; [(1%nat, CRecv 5)]; [(1%nat, CRecv 5)]].
Definition sleepy_sender : list (list (tid * call Z)) :=
  [[(0%nat, CTrySend 1)]; [(0%nat, CTrySend 2)]; [(0%nat, CSend 5 3)]].

Lemma spsc_no_lost_wakeup_witness :
  (∃ g tP tC, runs_to calm_cb 2 Park (calm_run sleepy_receiver) g ∧ pool g = [tP; tC] ∧
     asleep 1 tC (cmem g) = true ∧ accepted (trace tP) = received (trace tC) ∧ stat tP ≠ Exited) ∧
  (∃ g tP tC, runs_to calm_cb 2 Park (calm_run sleepy_sender) g ∧ pool g = [tP; tC] ∧
     asleep 0 tP (cmem g) = true ∧
     Z.of_nat (length (accepted (trace tP))) = Z.of_nat (length (received (trace tC))) + 2 ∧
     stat tC ≠ Exited).
Proof.
  split.
  - destruct (look_with_schedule calm_cb (calm_run sleepy_receiver)
      (λ tP tC m, (asleep 1 tC m, at_rest tP)) (true, true)) as (g & tP & tC & Hrun & Hpool & Heq); [by vm_compute|].
    exists g, tP, tC. split; [exact Hrun|]. split; [exact Hpool|]. split; [congruence|].
    apply (spsc_no_lost_wakeup calm_cb 2) with (s := calm_run sleepy_receiver) (g := g);
      [by vm_compute..|exact Hrun|exact Hpool|congruence|apply at_rest_busy; congruence].
  - destruct (look_with_schedule calm_cb (calm_run sleepy_sender)
      (λ tP tC m, (asleep 0 tP m, at_rest tC)) (true, true)) as (g & tP & tC & Hrun & Hpool & Heq); [by vm_compute|].
    exists g, tP, tC. split; [exact Hrun|]. split; [exact Hpool|]. split; [congruence|].
    apply (spsc_no_lost_wakeup calm_cb 2) with (s := calm_run sleepy_sender) (g := g);
      [by vm_compute..|exact Hrun|exact Hpool|congruence|apply at_rest_busy; congruence].
Defined.
