(* ===== verification/Findings.v ===== *)
(** What modelling showed: concrete schedules of the SPSC ring, and a concrete
    load of the sharded channel, on which the code does something its comments
    or [docs/design.md] exclude. *)
From S2P Require Import Prelude Usize Atomic Errors Wait Notify Ring Queue Spsc Seq Memory Machine Logic SpscInv SpscConc SpscRuns.
From S2P Require Import SpscSeq SpscRefine ShardedSeq ShardedRefine.
From S2P Require Sharded.
Local Open Scope Z_scope.

(** ** A wakeup lost to a panicking callback *)

Lemma asleep_stuck i th m (g : config Z handle (call Z) (event Z)) t c :
  asleep i th m = true → pool g !! i = Some th → cmem g = m →
  act (start demo_cb) (Step i t false) g = Infeasible ∧
  act (start demo_cb) (Call i c) g = Infeasible.
Proof.
  unfold asleep, act. intros Ha -> <-. destruct (stat th) as [|? p| | |]; try done.
  destruct p; try done. apply bool_decide_eq_true in Ha. simpl. by rewrite Ha.
Qed.

(** The producer fills the ring and parks in [send]; the callback of [drain]
    panics on the last value; the consumer goes on with [recv]. *)
Definition lost_wakeup_calls : list (list (tid * call Z)) :=
  [[(0%nat, CTrySend 1)]; [(0%nat, CTrySend 7)]; [(0%nat, CSend 5 3)];
   [(1%nat, CDrain 5 5)]; [(1%nat, CRecv 5)]].

(** C38. A callback panic in [drain] leaves a parked producer asleep on an empty
    ring, and the next [recv] does not wake it: it parks too. Both threads are
    then blocked for ever (short of a spurious wakeup), although both handles
    are alive and the ring has room. *)
Theorem drain_panic_loses_wakeup : ∃ g tP tC,
  demo_runs lost_wakeup_calls g ∧ pool g = [tP; tC] ∧
  received (trace tC) = [1; 7] ∧ accepted (trace tP) = [1; 7] ∧
  busy tP = Some (CSend 5 3) ∧ busy tC = Some (CRecv 5) ∧
  ∀ i t c, act (start demo_cb) (Step i t false) g = Infeasible ∧
           act (start demo_cb) (Call i c) g = Infeasible.
Proof.
  destruct (look_run lost_wakeup_calls
    (λ tP tC m, (received (trace tC), accepted (trace tP), busy tP, busy tC, asleep 0 tP m, asleep 1 tC m))
    ([1; 7], [1; 7], Some (CSend 5 3), Some (CRecv 5), true, true))
    as (g & tP & tC & Hrun & Hpool & Heq); [by vm_compute|].
  injection Heq as H1 H2 H3 H4 HP HC. exists g, tP, tC. split_and!; try done.
  intros [|[|i]] t c; [by eapply asleep_stuck; rewrite ?Hpool..|]. simpl. by rewrite Hpool.
Qed.

(** ** A send that races the drop of the receiver *)

(** [Sender::try_send] reads [disconnected]; the receiver goes; the send goes
    on. *)
Definition raced_send : list (choice (call Z)) :=
  let s1 := [Call 0%nat (CTrySend 1); Step 0%nat 0%nat false] in
  match launch 2 Park with
  | Some g0 =>
      match exec (start demo_cb) s1 g0 with
      | inr g1 =>
          let s2 := overlap (start demo_cb) [(1%nat, CDropReceiver)] g1 in
          match exec (start demo_cb) s2 g1 with
          | inr g2 => s1 ++ s2 ++ rotate (start demo_cb) 200 [0%nat] g2
          | _ => []
          end
      | _ => []
      end
  | None => []
  end.

(** C39. [try_send] reports success for a value it put into the ring after the
    receiver was dropped: nobody will receive it and it is not handed back. *)
Theorem send_succeeds_after_receiver_drop : ∃ g tP tC,
  runs_to demo_cb 2 Park raced_send g ∧ pool g = [tP; tC] ∧
  stat tC = Exited ∧ received (trace tC) = [] ∧
  trace tP = [(CTrySend 1, EvTrySend (Ok tt))].
Proof.
  destruct (look_schedule raced_send (λ tP tC _, (trace tP, exited tC, received (trace tC)))
    ([(CTrySend 1, EvTrySend (Ok tt))], true, [])) as (g & tP & tC & Hrun & Hpool & Heq); [by vm_compute|].
  injection Heq as HP HC Hr. exists g, tP, tC. split_and!; [exact Hrun|exact Hpool|by apply exited_stat|exact Hr|exact HP].
Qed.

(** ** [drain] ignores the visit budget *)

(** A sender that refills shard 0 before every [drain(1)], while shard 1
    holds a value: the queues after [k] rounds. *)
Definition busy_round : list (shard_op Z) := [ShTrySend 0 5; ShDrain 1].
Definition busy_obs : list (obs Z) := [ObsSend (Ok tt); ObsDrain [5] (Returned 1)].
Definition busy_state (b : Z) (k : Z) : shard_spec (T := Z) :=
  ShardSpec [SpscSeq.MkChan k [5] false 2; SpscSeq.MkChan 0 [7] false 2] [true; true] true 0 b [].

Lemma busy_rounds b n : ∀ k,
  shard_spec_run (λ _, true) 2 (concat (replicate n busy_round)) (busy_state b k) =
  (concat (replicate n busy_obs), busy_state b (k + Z.of_nat n)).
Proof.
  induction n as [|n IH]; intros k; [by rewrite Z.add_0_r|].
  assert (Hsend : shard_spec_step (λ _, true) 2 (ShTrySend 0 5) (busy_state b k) = (ObsSend (Ok tt),
    ShardSpec [SpscSeq.MkChan k [5; 5] false 2; SpscSeq.MkChan 0 [7] false 2] [true; true] true 0 b [])) by done.
  assert (Hdrain : shard_spec_step (λ _, true) 2 (ShDrain 1)
    (ShardSpec [SpscSeq.MkChan k [5; 5] false 2; SpscSeq.MkChan 0 [7] false 2] [true; true] true 0 b []) =
    (ObsDrain [5] (Returned 1), ShardSpec [SpscSeq.MkChan (k + 2 - 1) [5] false 2; SpscSeq.MkChan 0 [7] false 2] [true; true] true 0 b [])) by done.
  cbn [replicate concat busy_round app shard_spec_run]. rewrite Hsend, Hdrain.
  replace (k + 2 - 1) with (k + 1) by lia. fold (busy_state b (k + 1)). rewrite IH.
  do 2 f_equal. lia.
Qed.

(** C37. [try_recv] leaves a busy shard after [VISIT_BUDGET] values in a row;
    [drain] never does: however often it is called, as long as shard 0 can
    fill the request it delivers from shard 0 and the value of shard 1 stays
    where it is. *)
Theorem drain_starves_other_shards k :
  2 + 2 * Z.of_nat k ≤ usize_max →
  ∃ st, run 0 (shard_client (λ _, true) 3 2 4 Backoff
                 ([ShTrySend 0 5; ShTrySend 1 7] ++ concat (replicate k busy_round))) empty_state =
        Done ([ObsSend (Ok tt); ObsSend (Ok tt)] ++ concat (replicate k busy_obs)) st.
Proof.
  intros Hk.
  destruct (sharded_channel_run 0 2 4 Backoff (empty_state (T := Z))) as (shs & txs & rx & st & Hrun & _ & Hrel);
    [split; vm_compute; (reflexivity || discriminate)|reflexivity
    |split; vm_compute; (reflexivity || discriminate)|reflexivity|discriminate|reflexivity|].
  set (ops := [ShTrySend 0 5; ShTrySend 1 7] ++ concat (replicate k busy_round)).
  destruct (shard_run_sim (λ _, true) 0 3 2 shs ops 0 _ _ _ Hrel) as (st' & Hst' & _).
  - apply Forall_app. split; [repeat constructor|]. clear. 
    induction k; [constructor|]. cbn [replicate concat]. apply Forall_app. split; [|done].
    repeat constructor; vm_compute; discriminate.
  - vm_compute. lia.
  - assert (length (concat (replicate k busy_round)) = 2 * k)%nat as Hlen
      by (clear; induction k; simpl in *; lia). 
    unfold ops. rewrite length_app, Hlen. simpl. lia.
  - exists st'. unfold shard_client. erewrite run_bind_Done by exact Hrun.
    etrans; [exact Hst'|]. f_equal. unfold ops.
    change (Z.to_nat 2) with 2%nat. cbn [app shard_spec_run].
    assert (H1 : shard_spec_step (λ _, true) 2 (ShTrySend 0 5) (shard_init 2) = (ObsSend (Ok tt),
      ShardSpec [SpscSeq.MkChan 0 [5] false 2; SpscSeq.new_chan] [true; true] true 0 0 [])) by done.
    assert (H2 : shard_spec_step (λ _, true) 2 (ShTrySend 1 7)
      (ShardSpec [SpscSeq.MkChan 0 [5] false 2; SpscSeq.new_chan] [true; true] true 0 0 []) =
      (ObsSend (Ok tt), busy_state 0 0)) by done.
    change (4 / 2) with 2. by rewrite H1, H2, busy_rounds.
Qed.

Lemma drain_starves_other_shards_witness :
  ∃ st, run 0 (shard_client (λ _, true) 3 2 4 Backoff
                 ([ShTrySend 0 5; ShTrySend 1 7] ++ concat (replicate 100 busy_round))) empty_state =
        Done ([ObsSend (Ok tt); ObsSend (Ok tt)] ++ concat (replicate 100 busy_obs)) st.
Proof. apply (drain_starves_other_shards 100). vm_compute. discriminate. Defined.
