(* ===== verification/MpscInv.v ===== *)
(** The protocol of the MPSC ring in weak memory. The senders' claims form one
    log of tickets; a ticket is claimed, then its value written, then its round
    published. The invariant ties the log, the threads' private ghost states
    and views to the histories of the atomics and to the cells; it is split
    into a global part and a part per thread, so that an action of one thread
    re-establishes its own part and moves the others along ([evolves]). *)
From S2P Require Import Prelude Usize Atomic Errors Wait Notify Ring Queue Mpsc Seq Memory Machine Logic.
From S2P Require MpscSeq.
Local Open Scope Z_scope.

(** ** Calls and observations *)

Inductive call (T : Type) :=
  | CTrySend (fuel : nat) (v : T)
  | CSend (fuel cas_fuel : nat) (v : T)
  | CClone
  | CDropSender
  | CTryRecv
  | CRecv (fuel : nat)
  | CDrain (fuel : nat) (max : Z)
  | CDropReceiver.
Arguments CTrySend {T} fuel v.
Arguments CSend {T} fuel cas_fuel v.
Arguments CClone {T}.
Arguments CDropSender {T}.
Arguments CTryRecv {T}.
Arguments CRecv {T} fuel.
Arguments CDrain {T} fuel max.
Arguments CDropReceiver {T}.

Inductive event (T : Type) :=
  | EvTrySend (r : result unit (TrySendError T))
  | EvSend (r : result unit (SendError T))
  | EvCloned
  | EvTryRecv (r : result T TryRecvError)
  | EvRecv (r : result T RecvError)
  | EvDrain (seen : list T) (e : exit)
  | EvDropped
  | EvNoHandle.
Arguments EvTrySend {T} r.
Arguments EvSend {T} r.
Arguments EvCloned {T}.
Arguments EvTryRecv {T} r.
Arguments EvRecv {T} r.
Arguments EvDrain {T} seen e.
Arguments EvDropped {T}.
Arguments EvNoHandle {T}.

Section log.
Context {T : Type}.

Definition offered (c : call T) : list T :=
  match c with CTrySend _ v | CSend _ _ v => [v] | _ => [] end.
Definition accepted_by (x : call T * event T) : list T :=
  match x.2 with EvTrySend (Ok _) | EvSend (Ok _) => offered x.1 | _ => [] end.
Definition received_by (x : call T * event T) : list T :=
  match x.2 with
  | EvTryRecv (Ok v) | EvRecv (Ok v) => [v]
  | EvDrain seen _ => seen
  | _ => []
  end.
Definition accepted (tr : list (call T * event T)) : list T := concat (accepted_by <$> tr).
Definition received (tr : list (call T * event T)) : list T := concat (received_by <$> tr).

Definition saw_disconnect (x : call T * event T) : bool :=
  match x.2 with
  | EvTrySend (Err (SendDisconnected _)) | EvSend (Err _)
  | EvTryRecv (Err RecvDisconnected) | EvRecv (Err _) => true
  | _ => false
  end.

Lemma mpsc_accepted_snoc tr x : accepted (tr ++ [x]) = accepted tr ++ accepted_by x.
Proof. unfold accepted. rewrite fmap_app, concat_app. simpl. by rewrite app_nil_r. Qed.
Lemma mpsc_received_snoc tr x : received (tr ++ [x]) = received tr ++ received_by x.
Proof. unfold received. rewrite fmap_app, concat_app. simpl. by rewrite app_nil_r. Qed.
End log.

(** ** Ghost state *)

(** A claimed sequence number: by whom, with which value, and how far its
    send has come (published by the store of timestamp [t]). *)
Inductive stage := Claimed | Written | Published (t : nat).
Record ticket (T : Type) := MkTicket { tby : tid; tval : T; tst : stage }.
Arguments MkTicket {T}.
Arguments tby {T}.
Arguments tval {T}.
Arguments tst {T}.

(** What all threads share: the log of tickets, how many the receiver took
    out, how far the head was published, how many left the ring at all (taken
    or dropped with the block); whether the receiver is open; who is counted
    in [senders] and who holds a reference of the [Arc], the pending clones
    apart; who is dropping the block, and whether it is gone. *)
Record glob (T : Type) := Glob {
  tickets : list (ticket T);
  npop : nat;
  npub : nat;
  nleft : nat;
  rx_open : bool;
  live : gset tid;
  cloning : gset tid;
  holding : gset tid;
  cloned : gset tid;
  freer : option tid;
  freed : bool;
}.
Arguments Glob {T}.
Arguments tickets {T}.
Arguments npop {T}.
Arguments npub {T}.
Arguments nleft {T}.
Arguments rx_open {T}.
Arguments live {T}.
Arguments cloning {T}.
Arguments holding {T}.
Arguments cloned {T}.
Arguments freer {T}.
Arguments freed {T}.

(** The life of a handle: open; no longer counted but still holding its
    reference; holding the last reference and dropping the block; gone. *)
Inductive phase := Open | Closed | Freeing | Gone.
#[global] Instance mpsc_phase_eq_dec : EqDecision phase.
Proof. solve_decision. Defined.

(** How far a clone in progress has come. *)
Inductive clone_stage := NoClone | Counted | Referenced.
#[global] Instance clone_stage_eq_dec : EqDecision clone_stage.
Proof. solve_decision. Defined.

(** What a thread knows. *)
Record ghost (T : Type) := Ghost {
  gphase : phase;
  (** The values it claimed tickets for, or took out. *)
  vals : list T;
  (** Sender: the head it relies on, and the ticket in progress with its
      value, and whether that is written. *)
  seen : nat;
  slot : option (nat * T * bool);
  gclone : clone_stage;
  (** Receiver: the head it published; whether the slot at its head was seen
      published. *)
  gpub : nat;
  ready : bool;
  (** It has observed the other side's disconnect; the receiver: and that
      nothing is left. *)
  gknow : bool;
  gdone : bool;
  (** Last owner: what was received, what left the ring, where the log ends. *)
  plan : option (nat * nat * nat);
}.
Arguments Ghost {T}.
Arguments gphase {T}.
Arguments vals {T}.
Arguments seen {T}.
Arguments slot {T}.
Arguments gclone {T}.
Arguments gpub {T}.
Arguments ready {T}.
Arguments gknow {T}.
Arguments gdone {T}.
Arguments plan {T}.

(** Updates of one component. *)
Section updates.
Context {T : Type}.
Implicit Types (g : ghost T) (G : glob T).

Definition with_phase x g : ghost T :=
  Ghost x (vals g) (seen g) (slot g) (gclone g) (gpub g) (ready g) (gknow g) (gdone g) (plan g).
Definition with_vals x g : ghost T :=
  Ghost (gphase g) x (seen g) (slot g) (gclone g) (gpub g) (ready g) (gknow g) (gdone g) (plan g).
Definition with_seen x g : ghost T :=
  Ghost (gphase g) (vals g) x (slot g) (gclone g) (gpub g) (ready g) (gknow g) (gdone g) (plan g).
Definition with_slot x g : ghost T :=
  Ghost (gphase g) (vals g) (seen g) x (gclone g) (gpub g) (ready g) (gknow g) (gdone g) (plan g).
Definition with_clone x g : ghost T :=
  Ghost (gphase g) (vals g) (seen g) (slot g) x (gpub g) (ready g) (gknow g) (gdone g) (plan g).
Definition with_pub x g : ghost T :=
  Ghost (gphase g) (vals g) (seen g) (slot g) (gclone g) x (ready g) (gknow g) (gdone g) (plan g).
Definition with_ready x g : ghost T :=
  Ghost (gphase g) (vals g) (seen g) (slot g) (gclone g) (gpub g) x (gknow g) (gdone g) (plan g).
Definition with_know x g : ghost T :=
  Ghost (gphase g) (vals g) (seen g) (slot g) (gclone g) (gpub g) (ready g) x (gdone g) (plan g).
Definition with_done x g : ghost T :=
  Ghost (gphase g) (vals g) (seen g) (slot g) (gclone g) (gpub g) (ready g) (gknow g) x (plan g).
Definition with_plan x g : ghost T :=
  Ghost (gphase g) (vals g) (seen g) (slot g) (gclone g) (gpub g) (ready g) (gknow g) (gdone g) x.

Definition set_tickets x G : glob T :=
  Glob x (npop G) (npub G) (nleft G) (rx_open G) (live G) (cloning G) (holding G) (cloned G) (freer G) (freed G).
Definition set_npop x G : glob T :=
  Glob (tickets G) x (npub G) (nleft G) (rx_open G) (live G) (cloning G) (holding G) (cloned G) (freer G) (freed G).
Definition set_npub x G : glob T :=
  Glob (tickets G) (npop G) x (nleft G) (rx_open G) (live G) (cloning G) (holding G) (cloned G) (freer G) (freed G).
Definition set_nleft x G : glob T :=
  Glob (tickets G) (npop G) (npub G) x (rx_open G) (live G) (cloning G) (holding G) (cloned G) (freer G) (freed G).
Definition set_rx_open x G : glob T :=
  Glob (tickets G) (npop G) (npub G) (nleft G) x (live G) (cloning G) (holding G) (cloned G) (freer G) (freed G).
Definition set_live x G : glob T :=
  Glob (tickets G) (npop G) (npub G) (nleft G) (rx_open G) x (cloning G) (holding G) (cloned G) (freer G) (freed G).
Definition set_cloning x G : glob T :=
  Glob (tickets G) (npop G) (npub G) (nleft G) (rx_open G) (live G) x (holding G) (cloned G) (freer G) (freed G).
Definition set_holding x G : glob T :=
  Glob (tickets G) (npop G) (npub G) (nleft G) (rx_open G) (live G) (cloning G) x (cloned G) (freer G) (freed G).
Definition set_cloned x G : glob T :=
  Glob (tickets G) (npop G) (npub G) (nleft G) (rx_open G) (live G) (cloning G) (holding G) x (freer G) (freed G).
Definition set_freer x G : glob T :=
  Glob (tickets G) (npop G) (npub G) (nleft G) (rx_open G) (live G) (cloning G) (holding G) (cloned G) x (freed G).
Definition set_freed x G : glob T :=
  Glob (tickets G) (npop G) (npub G) (nleft G) (rx_open G) (live G) (cloning G) (holding G) (cloned G) (freer G) x.
End updates.

(** The receiver is thread 1. *)
Definition rx : tid := 1%nat.

Section invariant.
Context `{tgt : Target} {T : Type} (sh : Shared).
Abbreviation entry := (ent (ghost T) (call T) (event T)).
Implicit Types (G : glob T) (m : mem T) (W : view) (g : ghost T) (e : entry) (Γ : list entry)
  (tk : ticket T) (q : nat).

Definition capn : nat := Z.to_nat (cap sh).
Definition sl q : nat := slot_of (cap sh) (Z.of_nat q).
Definition cell q : loc := slot_value sh (sl q).
Definition rnd q : loc := slot_round sh (sl q).

(** The stamps a write and a read of [q] leave in its cell. *)
Definition turn q : nat := (q / capn)%nat.
Definition wstamp q : nat := (2 * turn q + 1)%nat.
Definition rstamp q : nat := (2 * turn q + 2)%nat.

Definition ntk G : nat := length (tickets G).
Definition published tk : Prop := ∃ t, tst tk = Published t.

(** [W] is past what the sender of ticket [tk] did to slot [q]. *)
Definition covered W q tk : Prop :=
  match tst tk with
  | Claimed => True
  | Written => (wstamp q ≤ vw W (cell q))%nat
  | Published t => (wstamp q ≤ vw W (cell q))%nat ∧ (t ≤ vw W (rnd q))%nat
  end.

(** [W] is past the tickets of the threads in [P]. *)
Definition covers_by (P : tid → Prop) G W : Prop :=
  ∀ q tk, tickets G !! q = Some tk → P (tby tk) → covered W q tk.

(** [W] is past the first [k] receives. *)
Definition covers G (k : nat) W : Prop :=
  ∀ q, (q < k)%nat → (rstamp q ≤ vw W (cell q))%nat ∧
    ∀ tk t, tickets G !! q = Some tk → tst tk = Published t → (t ≤ vw W (rnd q))%nat.

(** [W] is past every store of [l]. *)
Definition past m (l : loc) W : Prop := ∀ h, hist m !! l = Some h → final h l W.

(** [W] is past everything. *)
Definition knows_all G m W : Prop :=
  covers_by (λ _, True) G W ∧ covers G (npop G) W ∧ past m (head sh) W.

(** ** The global part *)

Definition claim_ok (n : nat) (h : gmap nat msg) : Prop :=
  (∀ t, is_Some (h !! t) ↔ (t ≤ n)%nat) ∧ ∀ t x, h !! t = Some x → mval x = Z.of_nat t.

Definition head_ok G (h : gmap nat msg) : Prop :=
  (∀ t x, h !! t = Some x → ∃ k, mval x = Z.of_nat k ∧ (k ≤ npub G)%nat ∧ covers G k (mview x)) ∧
  ∃ n x, h !! n = Some x ∧ mval x = Z.of_nat (npub G) ∧ ∀ t, is_Some (h !! t) → (t ≤ n)%nat.

(** The rounds of slot [j]: the initial [-1] and the publications, in order. *)
Definition round_ok G (j : nat) (h : gmap nat msg) : Prop :=
  (∃ x, h !! 0%nat = Some x) ∧
  (∀ t x, h !! t = Some x → (t = 0%nat ∧ mval x = -1) ∨
     ∃ q tk, sl q = j ∧ tickets G !! q = Some tk ∧ tst tk = Published t ∧
       mval x = round_of sh (Z.of_nat q) ∧ covered (mview x) q tk) ∧
  ∀ q tk t, sl q = j → tickets G !! q = Some tk → tst tk = Published t → is_Some (h !! t).

Definition senders_ok G (h : gmap nat msg) : Prop :=
  ∃ n x, (∀ t, is_Some (h !! t) ↔ (t ≤ n)%nat) ∧ h !! n = Some x ∧
    mval x = Z.of_nat (size (live G) + size (cloning G)) ∧
    covers_by (.∉ live G) G (mview x) ∧
    ∀ t y, h !! t = Some y → mval y = 0 → t = n.

Definition gone_flag_ok G (h : gmap nat msg) : Prop :=
  ∀ t x, h !! t = Some x → mval x = 0 ∨ mval x = 1 ∧ rx_open G = false.

Definition strong_ok G m (h : gmap nat msg) : Prop :=
  ∃ n x, (∀ t, is_Some (h !! t) ↔ (t ≤ n)%nat) ∧ h !! n = Some x ∧
    mval x = Z.of_nat (size (holding G) + size (cloned G)) ∧
    covers_by (.∉ holding G) G (mview x) ∧
    (rx ∉ holding G → covers G (npop G) (mview x) ∧ past m (head sh) (mview x)).

Definition cells_ok G (C : gmap loc (nat * option T)) : Prop :=
  (∀ q tk, (nleft G ≤ q)%nat → tickets G !! q = Some tk →
     C !! cell q = Some (match tst tk with
                         | Claimed => (2 * turn q, None)
                         | _ => (wstamp q, Some (tval tk))
                         end)%nat) ∧
  ∀ q, (ntk G ≤ q < nleft G + capn)%nat → C !! cell q = Some ((2 * turn q)%nat, None).

Definition has m (l : loc) (P : gmap nat msg → Prop) : Prop := ∃ h, hist m !! l = Some h ∧ P h.

Record mem_ok G m : Prop := {
  mo_claim : has m (claim sh) (claim_ok (ntk G));
  mo_head : has m (head sh) (head_ok G);
  mo_round j : (j < capn)%nat → has m (slot_round sh j) (round_ok G j);
  mo_senders : has m (senders sh) (senders_ok G);
  mo_gone : has m (rx_dropped sh) (gone_flag_ok G);
  mo_strong : has m (strong sh) (strong_ok G m);
  mo_parked : is_Some (hist m !! Loc (sh_ring sh) (Parked Consumer));
  mo_waiting : is_Some (hist m !! Loc (sh_ring sh) Waiting);
  mo_cells : cells_ok G (mcells m);
}.

(** [len] threads were ever started. *)
Record glob_ok G (len : nat) m : Prop := {
  go_pub : (npub G ≤ npop G ≤ nleft G)%nat;
  go_left : (nleft G ≤ ntk G)%nat;
  go_room : (ntk G ≤ npub G + capn)%nat;
  go_max : Z.of_nat (ntk G) ≤ usize_max;
  go_done q tk : (q < nleft G)%nat → tickets G !! q = Some tk → published tk;
  go_unpub q tk : tickets G !! q = Some tk → published tk ∨ tby tk ∈ live G;
  go_order q q' tk tk' t t' : (q < q')%nat → sl q = sl q' → tickets G !! q = Some tk →
    tickets G !! q' = Some tk' → tst tk = Published t → tst tk' = Published t' → (t < t')%nat;
  go_first q tk t : tickets G !! q = Some tk → tst tk = Published t → (0 < t)%nat;
  go_by q tk : tickets G !! q = Some tk → (tby tk < len)%nat ∧ tby tk ≠ rx;
  go_closed : rx_open G = false → npub G = npop G;
  go_keep : freer G = None → freed G = false → nleft G = npop G;
  go_dropped : mdropped m = tval <$> take (nleft G - npop G) (drop (npop G) (tickets G));
  go_live : live G ⊆ holding G;
  go_cloning : cloning G ⊆ live G;
  go_cloned : cloned G ⊆ cloning G;
  go_holding i : i ∈ holding G → (i < len)%nat;
  go_rx : rx ∉ live G;
  go_freer i : freer G = Some i → holding G = ∅;
  go_freer_at i : freer G = Some i → (i < len)%nat;
  go_freed : freed G = true → holding G = ∅ ∧ freer G = None ∧ nleft G = ntk G;
  go_end : holding G = ∅ → freed G = true ∨ freer G ≠ None;
  go_gone : freed G = true → ∀ f, hist m !! Loc (sh_ring sh) f = None;
  go_mem : freed G = false → mem_ok G m;
}.

(** ** The part of a thread *)

Record sender_ok G i e : Prop := {
  ls_vals : vals (eg e) = tval <$> filter (λ tk, tby tk = i) (tickets G);
  ls_seen : (seen (eg e) ≤ npub G)%nat ∧ covers G (seen (eg e)) (cur (ev e));
  ls_own : covers_by (.= i) G (cur (ev e));
  ls_slot : match slot (eg e) with
    | None => ∀ q tk, tickets G !! q = Some tk → tby tk = i → published tk
    | Some (q, v, w) =>
        gphase (eg e) = Open ∧ (q < seen (eg e) + capn)%nat ∧
        tickets G !! q = Some (MkTicket i v (if (w : bool) then Written else Claimed)) ∧
        ∀ q' tk, q' ≠ q → tickets G !! q' = Some tk → tby tk = i → published tk
    end;
  ls_know : gknow (eg e) = true → rx_open G = false;
}.

Record receiver_ok G m e : Prop := {
  lr_open : gphase (eg e) = Open ↔ rx_open G = true;
  lr_len : length (vals (eg e)) = npop G;
  lr_vals : vals (eg e) = take (npop G) (tval <$> tickets G);
  lr_pub : gpub (eg e) = npub G;
  lr_own : covers G (npop G) (cur (ev e));
  lr_head : past m (head sh) (cur (ev e));
  lr_ready : ready (eg e) = true → ∃ tk, tickets G !! npop G = Some tk ∧ published tk ∧
    covered (cur (ev e)) (npop G) tk;
  lr_know : gknow (eg e) = true → live G = ∅ ∧ covers_by (λ _, True) G (cur (ev e));
  lr_done : gdone (eg e) = true → live G = ∅ ∧ npop G = ntk G;
}.

Record common_ok G m i e : Prop := {
  lc_hold : i ∈ holding G ↔ gphase (eg e) = Open ∨ gphase (eg e) = Closed;
  lc_live : i ∈ live G ↔ i ≠ rx ∧ gphase (eg e) = Open;
  lc_cloning : i ∈ cloning G ↔ gclone (eg e) ≠ NoClone;
  lc_cloned : i ∈ cloned G ↔ gclone (eg e) = Referenced;
  lc_freed : gphase (eg e) ≠ Gone → freed G = false;
  lc_freer : gphase (eg e) = Freeing ↔ freer G = Some i;
  lc_all : gphase (eg e) = Freeing → knows_all G m (vjoin (cur (ev e)) (acq (ev e)));
  lc_start : gphase (eg e) = Freeing → plan (eg e) = None → nleft G = npop G;
  lc_plan p d n : gphase (eg e) = Freeing → plan (eg e) = Some (p, d, n) →
    p = npop G ∧ d = nleft G ∧ n = ntk G ∧ knows_all G m (cur (ev e));
}.

(** The trace of a thread agrees with its ghost state. *)
Definition log_ok i e : Prop :=
  if decide (i = rx) then
    match ecur e with
    | None => vals (eg e) = received (etr e)
    | Some _ => received (etr e) `prefix_of` vals (eg e)
    end ∧ (existsb saw_disconnect (etr e) = true → gdone (eg e) = true)
  else
    match ecur e with
    | None => vals (eg e) = accepted (etr e)
    | Some c => accepted (etr e) `prefix_of` vals (eg e) ∧
                vals (eg e) `prefix_of` accepted (etr e) ++ offered c
    end ∧ (existsb saw_disconnect (etr e) = true → gknow (eg e) = true).

Record local_ok G m i e : Prop := {
  lo_common : common_ok G m i e;
  lo_role : if decide (i = rx) then receiver_ok G m e else sender_ok G i e;
  lo_log : log_ok i e;
}.

(** All threads together started at most [limit] calls. *)
Record MInv (limit : Z) G Γ m : Prop := {
  mi_glob : glob_ok G (length Γ) m;
  mi_local i e : Γ !! i = Some e → local_ok G m i e;
  mi_rx : (rx < length Γ)%nat;
  mi_calls : calls_in Γ ≤ limit;
  mi_len : Z.of_nat (length Γ) ≤ 2 + returns_in Γ;
}.

(** ** How one thread's action moves the shared state *)

(** The log grows by a claim of thread [i], or a ticket of [i] advances. *)
Inductive tk_evolves (i : tid) : list (ticket T) → list (ticket T) → Prop :=
  | tk_same l : tk_evolves i l l
  | tk_claims l v : tk_evolves i l (l ++ [MkTicket i v Claimed])
  | tk_moves l q v st st' :
      l !! q = Some (MkTicket i v st) → (∀ t, st ≠ Published t) →
      tk_evolves i l (<[q := MkTicket i v st']> l).

Lemma tk_old i l l' q tk :
  tk_evolves i l l' → l !! q = Some tk →
  ∃ tk', l' !! q = Some tk' ∧ tby tk' = tby tk ∧ tval tk' = tval tk ∧
    (tk' = tk ∨ tby tk = i ∧ ¬ published tk).
Proof.
  intros [l0|l0 v|l0 q0 v st st' Hq0 Hst] Hq; [by exists tk; auto|exists tk; auto using lookup_app_l_Some|].
  destruct (decide (q0 = q)) as [<-|Hne].
  - simplify_eq. exists (MkTicket i v st'). rewrite list_lookup_insert_eq by (by eapply lookup_lt_Some).
    split_and!; try done. right. split; [done|]. intros [t Ht]. by apply (Hst t).
  - exists tk. rewrite list_lookup_insert_ne by done. auto.
Qed.

Lemma tk_new i l l' q tk :
  tk_evolves i l l' → l' !! q = Some tk →
  l !! q = Some tk ∨ tby tk = i ∧ ∀ tk0, l !! q = Some tk0 → ¬ published tk0 ∧ tby tk0 = i.
Proof.
  intros [l0|l0 v|l0 q0 v st st' Hq0 Hst] Hq; [by left| |].
  - apply lookup_app_Some in Hq as [Hq|[Hge Hq]]; [by left|right].
    apply list_lookup_singleton_Some in Hq as [_ <-]. split; [done|].
    intros tk0 Htk0%lookup_lt_Some. lia.
  - apply list_lookup_insert_Some in Hq as [(<- & <- & _)|[Hne Hq]]; [right|by left].
    split; [done|]. intros tk0 Htk0. simplify_eq. split; [|done]. intros [t Ht]. by apply (Hst t).
Qed.

(** Published tickets stay as they are. *)
Lemma tk_published i l l' q tk :
  tk_evolves i l l' → l !! q = Some tk → published tk → l' !! q = Some tk.
Proof. intros Hl Hq Hp. destruct (tk_old _ _ _ _ _ Hl Hq) as (tk' & ? & _ & _ & [-> | [_ []]]); done. Qed.

Lemma tk_others i l l' j :
  tk_evolves i l l' → j ≠ i →
  tval <$> filter (λ tk, tby tk = j) l' = tval <$> filter (λ tk, tby tk = j) l.
Proof.
  intros [l0|l0 v|l0 q v st st' Hq Hst] Hj; [done| |].
  - rewrite filter_app, fmap_app. rewrite filter_cons_False by (simpl; congruence). by rewrite app_nil_r.
  - rewrite <-(take_drop_middle l0 q _ Hq) at 2.
    rewrite insert_take_drop by (by eapply lookup_lt_Some).
    by rewrite !filter_app, !filter_cons_False by (simpl; congruence).
Qed.

Lemma tk_length i l l' : tk_evolves i l l' → (length l ≤ length l')%nat.
Proof. intros []; rewrite ?length_app, ?length_insert; simpl; lia. Qed.

Lemma tk_vals i l l' k :
  tk_evolves i l l' → (k ≤ length l)%nat → take k (tval <$> l') = take k (tval <$> l).
Proof.
  intros [l0|l0 v|l0 q v st st' Hq Hst] Hk; [done| |].
  - rewrite fmap_app, take_app_le by (by rewrite length_fmap). done.
  - f_equal. rewrite list_fmap_insert. apply list_insert_id. by rewrite list_lookup_fmap, Hq.
Qed.

Record evolves (i : tid) G m G' m' : Prop := {
  ev_tickets : tk_evolves i (tickets G) (tickets G');
  ev_work : tickets G' = tickets G ∨ i ∈ live G;
  ev_live j : j ≠ i → (j ∈ live G' ↔ j ∈ live G);
  ev_live_self : i ∈ live G' → i ∈ live G;
  ev_holding j : j ≠ i → (j ∈ holding G' ↔ j ∈ holding G);
  ev_cloning j : j ≠ i → (j ∈ cloning G' ↔ j ∈ cloning G);
  ev_cloned j : j ≠ i → (j ∈ cloned G' ↔ j ∈ cloned G);
  ev_rx : i ≠ rx → npop G' = npop G ∧ npub G' = npub G ∧ rx_open G' = rx_open G ∧
    kept m m' (head sh);
  ev_pub : (npub G ≤ npub G')%nat;
  ev_closed : rx_open G = false → rx_open G' = false;
  ev_freed : freed G' = freed G ∨ freer G = Some i;
  ev_freer j : j ≠ i → (freer G' = Some j ↔ freer G = Some j);
  ev_act : freer G = None ∨ freer G = Some i;
}.

(** ** Stability *)

Lemma covered_mono W W' q tk : covered W q tk → vle W W' → covered W' q tk.
Proof.
  unfold covered. intros Hc Hv. pose proof (Hv (cell q)). pose proof (Hv (rnd q)).
  destruct (tst tk); [done|lia|lia].
Qed.

Lemma covers_by_mono (P P' : tid → Prop) G W W' :
  covers_by P G W → (∀ j, P' j → P j) → vle W W' → covers_by P' G W'.
Proof. intros Hc HP Hv q tk Hq Htk. eapply covered_mono; [|done]. eauto. Qed.

Lemma mp_covers_mono G k k' W W' : covers G k W → (k' ≤ k)%nat → vle W W' → covers G k' W'.
Proof.
  intros Hc Hk Hv q Hq. destruct (Hc q ltac:(lia)) as [H1 H2]. split.
  - pose proof (Hv (cell q)). lia.
  - intros tk t Htk Ht. pose proof (H2 tk t Htk Ht). pose proof (Hv (rnd q)). lia.
Qed.

Lemma past_mono m l W W' : past m l W → vle W W' → past m l W'.
Proof. intros Hp Hv h Hh. eapply final_mono; eauto. Qed.

Lemma past_kept m m' l W : kept m m' l → past m l W → past m' l W.
Proof. intros Hk Hp h Hh. by apply Hp, Hk. Qed.

Lemma past_same m m' l W : hist m' !! l = hist m !! l → past m l W → past m' l W.
Proof. intros Hl. by apply past_kept, kept_same. Qed.

Lemma knows_all_mono G m W W' : knows_all G m W → vle W W' → knows_all G m W'.
Proof.
  intros (H1 & H2 & H3) Hv. split_and!.
  - by eapply covers_by_mono.
  - by eapply mp_covers_mono.
  - by eapply past_mono.
Qed.

Section stability.
Context (i : tid) (G G' : glob T) (m m' : mem T) (len : nat).
Hypothesis HG : glob_ok G len m.
Hypothesis Hev : evolves i G m G' m'.

Lemma covers_evolves k W : (k ≤ npop G)%nat → covers G k W → covers G' k W.
Proof using HG Hev.
  intros Hk Hc q Hq. destruct (Hc q Hq) as [H1 H2]. split; [done|]. intros tk t Htk Ht.
  pose proof (go_pub _ _ _ HG). pose proof (go_left _ _ _ HG).
  destruct (lookup_lt_is_Some_2 (tickets G) q) as [tk0 Htk0]; [unfold ntk in *; lia|].
  pose proof (go_done _ _ _ HG q tk0 ltac:(lia) Htk0) as Hp.
  rewrite (tk_published _ _ _ _ _ (ev_tickets _ _ _ _ _ Hev) Htk0 Hp) in Htk. simplify_eq. eauto.
Qed.

(** Tickets of threads other than [i] keep being covered. *)
Lemma covers_by_evolves (P : tid → Prop) W :
  ¬ P i → covers_by P G W → covers_by P G' W.
Proof using Hev.
  intros HP Hc q tk Hq Htk.
  destruct (tk_new _ _ _ _ _ (ev_tickets _ _ _ _ _ Hev) Hq) as [Hq'|[Hby _]]; [eauto|].
  destruct HP. by rewrite <-Hby.
Qed.

Lemma sender_stable j e : j ≠ i → sender_ok G j e → sender_ok G' j e.
Proof using HG Hev.
  intros Hj []. pose proof (ev_tickets _ _ _ _ _ Hev) as Htk. pose proof (go_pub _ _ _ HG). split.
  - by rewrite (tk_others _ _ _ _ Htk Hj).
  - pose proof (ev_pub _ _ _ _ _ Hev). split; [lia|]. apply covers_evolves; [lia|apply ls_seen0].
  - apply covers_by_evolves; [congruence|done].
  - assert (Hothers : ∀ (P : nat → Prop), (∀ q tk, P q → tickets G !! q = Some tk → tby tk = j → published tk) →
      ∀ q tk, P q → tickets G' !! q = Some tk → tby tk = j → published tk).
    { intros P HP q tk Hq Hq' Hby. destruct (tk_new _ _ _ _ _ Htk Hq') as [?|[? _]]; [eauto|congruence]. }
    destruct (slot (eg e)) as [[[q v] w]|].
    + destruct ls_slot0 as (? & ? & Hq & Hrest). split_and!; [done|done| |by apply Hothers].
      destruct (tk_old _ _ _ _ _ Htk Hq) as (tk' & Hq' & _ & _ & [-> | [Hby _]]); [done|].
      simpl in Hby. congruence.
    + intros q tk Hq. eapply (Hothers (λ _, True)); [|done|exact Hq]. eauto.
  - intros Hk. apply (ev_closed _ _ _ _ _ Hev). auto.
Qed.

Lemma receiver_stable e : i ≠ rx → receiver_ok G m e → receiver_ok G' m' e.
Proof using HG Hev.
  intros Hi []. pose proof (ev_tickets _ _ _ _ _ Hev) as Htk.
  pose proof (go_pub _ _ _ HG) as Hpub. pose proof (go_left _ _ _ HG) as Hleft. unfold ntk in Hleft.
  destruct (ev_rx _ _ _ _ _ Hev Hi) as (Hpop & Hpb & Hrx & Hh).
  assert (Hidle : live G = ∅ → live G' = ∅ ∧ tickets G' = tickets G).
  { intros Hl. assert (i ∉ live G) as Hni by (rewrite Hl; set_solver). split.
    - apply leibniz_equiv. intros j. split; [|set_solver]. intros Hj'. destruct (decide (j = i)) as [->|Hne].
      + by apply (ev_live_self _ _ _ _ _ Hev) in Hj'.
      + apply (ev_live _ _ _ _ _ Hev j Hne) in Hj'. by rewrite Hl in Hj'.
    - by destruct (ev_work _ _ _ _ _ Hev). }
  split; rewrite ?Hpop, ?Hrx, ?Hpb; try done.
  - rewrite lr_vals0. symmetry. eapply tk_vals; [done|lia].
  - by apply covers_evolves.
  - by eapply past_kept.
  - intros Hr. destruct (lr_ready0 Hr) as (tk & Htk0 & Hp & Hc). exists tk. split_and!; try done.
    by eapply tk_published.
  - intros Hk. destruct (lr_know0 Hk) as [Hl Hc]. destruct (Hidle Hl) as [? Heq]. split; [done|].
    unfold covers_by. by rewrite Heq.
  - intros Hk. destruct (lr_done0 Hk) as [Hl Hc]. destruct (Hidle Hl) as [? Heq]. split; [done|].
    unfold ntk. by rewrite Heq.
Qed.

Lemma common_stable j e : j ≠ i → common_ok G m j e → common_ok G' m' j e.
Proof using HG Hev.
  intros Hj [].
  assert (Hnf : gphase (eg e) ≠ Freeing).
  { intros Hf%lc_freer0. destruct (ev_act _ _ _ _ _ Hev); congruence. }
  split; rewrite ?(ev_live _ _ _ _ _ Hev), ?(ev_holding _ _ _ _ _ Hev), ?(ev_cloning _ _ _ _ _ Hev),
    ?(ev_cloned _ _ _ _ _ Hev), ?(ev_freer _ _ _ _ _ Hev) by done; try done.
  intros Hg. destruct (ev_freed _ _ _ _ _ Hev) as [-> | Hf]; [auto|].
  pose proof (go_freer _ _ _ HG _ Hf) as Hh. rewrite Hh in lc_hold0.
  destruct (gphase (eg e)); try done; destruct (not_elem_of_empty (C := gset tid) j); apply lc_hold0; auto.
Qed.

Lemma local_stable j e : j ≠ i → local_ok G m j e → local_ok G' m' j e.
Proof using HG Hev.
  intros Hj [Hc Hr Hl]. split; [by apply common_stable| |done].
  destruct (decide (j = rx)) as [->|]; [by apply receiver_stable; [congruence|]|by apply sender_stable].
Qed.
End stability.

(** One thread moves. *)
Lemma step_inv limit G Γ m G' m' i g V g' V' tr c :
  MInv limit G Γ m → Γ !! i = Some (Ent g V tr c) → evolves i G m G' m' →
  glob_ok G' (length Γ) m' → local_ok G' m' i (Ent g' V' tr c) →
  MInv limit G' (<[i := Ent g' V' tr c]> Γ) m'.
Proof.
  intros [HG Hloc Hrx Hcalls Hlen] Hi Hev HG' Hl. split.
  - by rewrite length_insert.
  - intros j e Hj. destruct (decide (i = j)) as [<-|Hne].
    + rewrite list_lookup_insert_eq in Hj by (by eapply lookup_lt_Some). by simplify_eq.
    + rewrite list_lookup_insert_ne in Hj by done. eapply local_stable; [exact HG|exact Hev|done|auto].
  - by rewrite length_insert.
  - rewrite (calls_in_insert _ _ _ _ Hi). unfold weight in *. simpl. lia.
  - rewrite length_insert, (returns_in_insert _ _ _ _ Hi). simpl. lia.
Qed.
End invariant.

(** Most of the ways a thread moves the state leave all of it but a little. *)
Ltac evolve :=
  split; simpl; auto;
  try (intros ?; split_and!; try done; apply kept_same; by auto).

(** The block is there for the thread that moves. *)
Ltac block_there :=
  try match goal with |- _ = true → ∀ f : field, _ => intros ?; simpl in *; congruence end.
