(* ===== verification/MpscProt.v ===== *)
(** The actions of the MPSC protocol: every atomic access, cell access and
    fence of the operations keeps the invariant of [MpscInv]. *)
From S2P Require Import Prelude Usize Atomic Errors Wait Notify Ring Queue Mpsc Seq Memory Machine Logic MpscInv.
From S2P Require MpscSeq.
Local Open Scope Z_scope.

Section protocol.
Context `{tgt : Target} {T : Type} (sh : Shared).
Hypothesis Hok : MpscSeq.shared_ok sh.
Abbreviation entry := (ent (ghost T) (call T) (event T)).
Implicit Types (G : glob T) (m : mem T) (W : view) (g : ghost T) (e : entry) (Γ : list entry)
  (tk : ticket T) (q : nat) (i j : tid).

Abbreviation capn := (capn sh).
Abbreviation sl := (sl sh).
Abbreviation cell := (cell sh).
Abbreviation rnd := (rnd sh).
Abbreviation turn := (turn sh).
Abbreviation wstamp := (wstamp sh).
Abbreviation rstamp := (rstamp sh).

(** ** Slots, turns and rounds *)

Lemma capn_cap : Z.of_nat capn = cap sh ∧ (0 < capn)%nat.
Proof using Hok. pose proof (cap_pos (MpscSeq.sok_ring _ Hok)). unfold MpscInv.capn. lia. Qed.

Lemma sl_lt q : (sl q < capn)%nat.
Proof using Hok. apply (slot_of_lt (MpscSeq.sok_ring _ Hok)). Qed.

Lemma sl_inj q q' : (q < q' + capn)%nat → (q' < q + capn)%nat → sl q = sl q' → q = q'.
Proof using Hok.
  destruct capn_cap. intros ? ? Heq. apply Nat2Z.inj.
  apply (slot_of_inj (MpscSeq.sok_ring _ Hok)); [lia|exact Heq].
Qed.

Lemma sl_far q q' : sl q = sl q' → (q < q')%nat → (q + capn ≤ q')%nat.
Proof using Hok.
  intros Heq Hlt. destruct (decide (q + capn ≤ q')%nat) as [|Hn]; [done|].
  assert (q = q') by (apply sl_inj; [lia|lia|done]). lia.
Qed.

Lemma sl_cap q : sl (q + capn) = sl q.
Proof using Hok.
  unfold MpscInv.sl. rewrite Nat2Z.inj_add, (proj1 capn_cap).
  apply (slot_of_add_cap (MpscSeq.sok_ring _ Hok)).
Qed.

Lemma cell_ne q q' : sl q ≠ sl q' → cell q ≠ cell q'.
Proof using Hok. intros Hne [=]. done. Qed.

Lemma turn_cap q : turn (q + capn) = S (turn q).
Proof using Hok.
  unfold MpscInv.turn. replace (q + capn)%nat with (q + 1 * capn)%nat by lia.
  rewrite Nat.div_add by (pose proof (proj2 capn_cap); lia). lia.
Qed.

Lemma turn_small q : (q < capn)%nat → turn q = 0%nat.
Proof using Hok. intros. by apply Nat.div_small. Qed.

(** The stamp an earlier turn's read leaves is what a write finds. *)
Lemma stamp_before q : (capn ≤ q)%nat → rstamp (q - capn) = (2 * turn q)%nat ∧ sl (q - capn) = sl q.
Proof using Hok.
  intros Hq. pose proof (turn_cap (q - capn)) as Ht. pose proof (sl_cap (q - capn)) as Hs.
  replace (q - capn + capn)%nat with q in * by lia. unfold MpscInv.rstamp. split; [lia|done].
Qed.

Lemma usize_seq n : (Z.of_nat n ≤ usize_max) → is_usize (Z.of_nat n).
Proof using Hok. unfold is_usize, usize_max. lia. Qed.

Lemma round_same q q' :
  Z.of_nat q ≤ usize_max → Z.of_nat q' ≤ usize_max → sl q = sl q' →
  round_of sh (Z.of_nat q) = round_of sh (Z.of_nat q') → q = q'.
Proof using Hok.
  intros Hq Hq' Hs Hr. apply Nat2Z.inj.
  eapply (MpscSeq.round_inj sh Hok); [by apply usize_seq..| |done].
  pose proof (cap_pos (MpscSeq.sok_ring _ Hok)) as Hc. unfold MpscInv.sl, slot_of in Hs.
  pose proof (Z.mod_pos_bound (Z.of_nat q) _ Hc). pose proof (Z.mod_pos_bound (Z.of_nat q') _ Hc). lia.
Qed.

Lemma round_start q : (q < capn)%nat → round_of sh (Z.of_nat q) ≠ -1.
Proof using Hok.
  intros Hq. destruct capn_cap. rewrite (MpscSeq.round_of_div sh Hok) by lia.
  rewrite Z.div_small by lia. by vm_compute.
Qed.

(** ** Frames *)

(** The part of the memory the protocol speaks of is the same. *)
Record same_mem m m' : Prop := {
  sm_claim : hist m' !! claim sh = hist m !! claim sh;
  sm_head : hist m' !! head sh = hist m !! head sh;
  sm_round k : hist m' !! slot_round sh k = hist m !! slot_round sh k;
  sm_senders : hist m' !! senders sh = hist m !! senders sh;
  sm_gone : hist m' !! rx_dropped sh = hist m !! rx_dropped sh;
  sm_strong : hist m' !! strong sh = hist m !! strong sh;
  sm_parked : is_Some (hist m !! Loc (sh_ring sh) (Parked Consumer)) →
    is_Some (hist m' !! Loc (sh_ring sh) (Parked Consumer));
  sm_waiting : is_Some (hist m !! Loc (sh_ring sh) Waiting) →
    is_Some (hist m' !! Loc (sh_ring sh) Waiting);
  sm_cells : mcells m' = mcells m;
  sm_dropped : mdropped m' = mdropped m;
}.

Lemma mp_same_mem_refl m : same_mem m m.
Proof using Hok. by split. Qed.

Lemma has_same m m' l (P P' : gmap nat msg → Prop) :
  hist m' !! l = hist m !! l → (∀ h, P h → P' h) → has m l P → has m' l P'.
Proof using Hok. intros Hl HP (h & Hh & Hp). exists h. rewrite Hl. auto. Qed.

Lemma strong_ok_head G m m' h :
  hist m' !! head sh = hist m !! head sh → strong_ok sh G m h → strong_ok sh G m' h.
Proof using Hok.
  intros Hh (n & x & H1 & H2 & H3 & H4 & H5). exists n, x. split_and!; try done.
  intros Hrx. destruct (H5 Hrx). split; [done|by eapply past_same].
Qed.

Lemma mem_ok_same G m m' : same_mem m m' → mem_ok sh G m → mem_ok sh G m'.
Proof using Hok.
  intros [] []. split; auto.
  all: try (eapply has_same; [done|by intros|done]).
  - intros k Hk. eapply has_same; [auto|by intros|auto].
  - eapply has_same; [done|intros h; by apply strong_ok_head|done].
  - by rewrite sm_cells0.
Qed.

Lemma glob_ok_same G len m m' : freed G = false → same_mem m m' → glob_ok sh G len m → glob_ok sh G len m'.
Proof using Hok.
  intros Hf Hm []. split; try done.
  - by rewrite (sm_dropped _ _ Hm).
  - congruence.
  - intros _. eapply mem_ok_same; eauto.
Qed.

(** A thread that still has something to do shares the memory with nobody who
    drops the block. *)
Lemma actor limit G Γ m i g V tr c :
  MInv sh limit G Γ m → Γ !! i = Some (Ent g V tr c) → gphase g ≠ Gone →
  freed G = false ∧ mem_ok sh G m ∧ (freer G = None ∨ freer G = Some i) ∧
  (gphase g ≠ Freeing → freer G = None).
Proof using Hok.
  intros HI Hi Hg. pose proof (mi_glob _ _ _ _ _ HI) as HG.
  pose proof (lo_common _ _ _ _ _ (mi_local _ _ _ _ _ HI _ _ Hi)) as []. simpl in *.
  specialize (lc_freed Hg). split; [done|]. split; [by apply (go_mem _ _ _ _ HG)|].
  destruct (freer G) as [j|] eqn:Hf; [|split; auto].
  pose proof (go_freer _ _ _ _ HG _ Hf) as Hh. rewrite Hh in lc_hold.
  assert (gphase g = Freeing) as HF by (destruct (gphase g); try done; set_solver).
  rewrite HF in *. destruct lc_freer as [Hfr _]. specialize (Hfr eq_refl). simplify_eq. by split; [right|].
Qed.

Lemma evolves_refl i G m m' :
  freer G = None ∨ freer G = Some i → (i ≠ rx → hist m' !! head sh = hist m !! head sh) →
  evolves sh i G m G m'.
Proof using Hok. intros Hf Hh. evolve. apply tk_same. Qed.

(** The views of an entry grow. *)
Lemma common_grown G m m' i g V tr c V' c' tr' :
  hist m' !! head sh = hist m !! head sh →
  vle (cur V) (cur V') → vle (acq V) (acq V') →
  common_ok sh G m i (Ent g V tr c) → common_ok sh G m' i (Ent g V' tr' c').
Proof using Hok.
  intros Hh Hc Ha []. split; simpl in *; try done.
  - intros Hf. destruct (lc_all Hf) as (H1 & H2 & H3).
    assert (vle (vjoin (cur V) (acq V)) (vjoin (cur V') (acq V'))) as Hv.
    { intros l. rewrite !vw_join. specialize (Hc l). specialize (Ha l). lia. }
    split_and!; [by eapply covers_by_mono|by eapply mp_covers_mono|].
    eapply past_same; [done|]. by eapply past_mono.
  - intros p d n Hf Hp. destruct (lc_plan p d n Hf Hp) as (-> & -> & -> & H1 & H2 & H3). split_and!; try done.
    split_and!; [by eapply covers_by_mono|by eapply mp_covers_mono|].
    eapply past_same; [done|]. by eapply past_mono.
Qed.

Lemma sender_grown G i g V tr c V' c' tr' :
  vle (cur V) (cur V') → sender_ok sh G i (Ent g V tr c) → sender_ok sh G i (Ent g V' tr' c').
Proof using Hok.
  intros Hc []. split; simpl in *; try done.
  - split; [lia|]. by eapply mp_covers_mono; [apply ls_seen|..].
  - by eapply covers_by_mono.
Qed.

Lemma receiver_grown G m m' g V tr c V' c' tr' :
  hist m' !! head sh = hist m !! head sh → vle (cur V) (cur V') →
  receiver_ok sh G m (Ent g V tr c) → receiver_ok sh G m' (Ent g V' tr' c').
Proof using Hok.
  intros Hh Hc []. split; simpl in *; try done.
  - by eapply mp_covers_mono.
  - eapply past_same; [done|]. by eapply past_mono.
  - intros Hr. destruct (lr_ready Hr) as (tk & ? & ? & ?). exists tk. split_and!; try done.
    by eapply covered_mono.
  - intros Hk. destruct (lr_know Hk). split; [done|]. by eapply covers_by_mono.
Qed.

Lemma local_grown G m m' i g V tr c V' :
  hist m' !! head sh = hist m !! head sh →
  vle (cur V) (cur V') → vle (acq V) (acq V') →
  local_ok sh G m i (Ent g V tr c) → local_ok sh G m' i (Ent g V' tr c).
Proof using Hok.
  intros Hh Hc Ha [H1 H2 H3]. split; [by eapply common_grown| |done].
  destruct (decide (i = rx)); [by eapply receiver_grown|by eapply sender_grown].
Qed.

(** Actions that concern none of the protocol's locations. *)
Lemma noise_inv limit G Γ m i g V tr c V' m' :
  MInv sh limit G Γ m → Γ !! i = Some (Ent g V tr c) → gphase g ≠ Gone →
  vle (cur V) (cur V') → vle (acq V) (acq V') → same_mem m m' →
  MInv sh limit G (<[i := Ent g V' tr c]> Γ) m'.
Proof using Hok.
  intros HI Hi Hg Hc Ha Hm. destruct (actor _ _ _ _ _ _ _ _ _ HI Hi Hg) as (Hfd & _ & Hf & _).
  eapply step_inv; [exact HI|exact Hi|apply evolves_refl; [done|intros _; apply Hm]| |].
  - eapply glob_ok_same; [exact Hfd|exact Hm|apply HI].
  - eapply local_grown; [apply Hm|done|done|]. by apply (mi_local _ _ _ _ _ HI).
Qed.

(** The memory stays and the thread learns something. *)
Lemma learn_inv limit G Γ m i g V tr c g' V' :
  MInv sh limit G Γ m → Γ !! i = Some (Ent g V tr c) → gphase g ≠ Gone →
  local_ok sh G m i (Ent g' V' tr c) → MInv sh limit G (<[i := Ent g' V' tr c]> Γ) m.
Proof using Hok.
  intros HI Hi Hg Hl. destruct (actor _ _ _ _ _ _ _ _ _ HI Hi Hg) as (_ & _ & Hf & _).
  eapply step_inv; [exact HI|exact Hi|by apply evolves_refl|apply HI|done].
Qed.
End protocol.
