(* ===== verification/MpscActs.v ===== *)
(** The actions of the MPSC senders and of the receiver on the ring: claiming,
    writing and publishing a ticket, looking for one, taking it out and
    publishing the head. *)
From S2P Require Import Prelude Usize Atomic Errors Wait Notify Ring Queue Mpsc Seq Memory Machine Logic MpscInv MpscProt.
From S2P Require MpscSeq.
Local Open Scope Z_scope.

Section actions.
Context `{tgt : Target} {T : Type} (sh : Shared).
Hypothesis Hok : MpscSeq.shared_ok sh.
Variable limit : Z.
Abbreviation entry := (ent (ghost T) (call T) (event T)).
Implicit Types (G : glob T) (m : mem T) (W : view) (g : ghost T) (e : entry) (Γ : list entry)
  (tk : ticket T) (q : nat) (i j : tid).

Abbreviation capn := (capn sh).
Abbreviation sl := (sl sh).
Abbreviation cell := (cell sh).
Abbreviation rnd := (rnd sh).
Abbreviation turn := (turn sh).
Abbreviation wstamp := (wstamp sh).
Abbreviation rstamp := (rstamp sh).
Abbreviation Inv := (MInv sh limit).

(** What the invariant says of the entry of a sender in a call. *)
Lemma sender_entry G Γ m i g V tr c :
  Inv G Γ m → Γ !! i = Some (Ent g V tr c) → i ≠ rx →
  common_ok sh G m i (Ent g V tr c) ∧ sender_ok sh G i (Ent g V tr c) ∧ log_ok i (Ent g V tr c).
Proof using Type.
  intros HI Hi Hrx. destruct (mi_local _ _ _ _ _ HI _ _ Hi) as [H1 H2 H3].
  by rewrite decide_False in H2.
Qed.

Lemma receiver_entry G Γ m g V tr c :
  Inv G Γ m → Γ !! rx = Some (Ent g V tr c) →
  common_ok sh G m rx (Ent g V tr c) ∧ receiver_ok sh G m (Ent g V tr c) ∧ log_ok rx (Ent g V tr c).
Proof using Type.
  intros HI Hi. destruct (mi_local _ _ _ _ _ HI _ _ Hi) as [H1 H2 H3].
  by rewrite decide_True in H2.
Qed.

Lemma sender_local G m i e :
  i ≠ rx → common_ok sh G m i e → sender_ok sh G i e → log_ok i e → local_ok sh G m i e.
Proof using Type. intros Hi ? ? ?. split; [done| |done]. by rewrite decide_False. Qed.

Lemma receiver_local G m e :
  common_ok sh G m rx e → receiver_ok sh G m e → log_ok rx e → local_ok sh G m rx e.
Proof using Type. intros ? ? ?. split; [done| |done]. by rewrite decide_True. Qed.

(** ** What a sender learns *)

Lemma load_gone_inv G Γ m i g V tr c h t x :
  Inv G Γ m → Γ !! i = Some (Ent g V tr c) → i ≠ rx → gphase g = Open →
  hist m !! rx_dropped sh = Some h → h !! t = Some x →
  let V' := read_view (rx_dropped sh) t Acquire x V in
  mval x = 0 ∧ Inv G (<[i := Ent g V' tr c]> Γ) m ∨
  mval x = 1 ∧ Inv G (<[i := Ent (with_know true g) V' tr c]> Γ) m.
Proof using Hok.
  intros HI Hi Hrx Hph Hh Ht V'. destruct (read_view_grows (rx_dropped sh) t Acquire x V) as [Hg1 Hg2].
  assert (gphase g ≠ Gone) as Hng by (by rewrite Hph).
  destruct (actor sh Hok _ _ _ _ _ _ _ _ _ HI Hi Hng) as (_ & HM & _).
  destruct (mo_gone _ _ _ HM) as (h' & Hh' & Hx). rewrite Hh in Hh'. injection Hh' as <-.
  destruct (Hx t x Ht) as [Hv|[Hv Hclosed]]; [left|right]; (split; [done|]).
  - by eapply (noise_inv sh Hok).
  - destruct (sender_entry _ _ _ _ _ _ _ _ HI Hi Hrx) as (Hc & Hs & Hl).
    eapply (learn_inv sh Hok); try done. apply sender_local; [done| | |].
    + destruct (common_grown sh Hok _ _ m _ _ _ _ _ V' c tr eq_refl Hg1 Hg2 Hc). by split.
    + destruct (sender_grown sh Hok _ _ _ _ _ _ V' c tr Hg1 Hs). by split.
    + unfold log_ok in *. rewrite decide_False in * by done. split; [apply Hl|done].
Qed.

(** Loading the head: room up to a capacity past it. *)
Lemma load_head_inv G Γ m i g V tr c h t x :
  Inv G Γ m → Γ !! i = Some (Ent g V tr c) → i ≠ rx → gphase g = Open → slot g = None →
  hist m !! head sh = Some h → h !! t = Some x →
  ∃ k, mval x = Z.of_nat k ∧ Z.of_nat k ≤ usize_max ∧
    Inv G (<[i := Ent (with_seen k g) (read_view (head sh) t Acquire x V) tr c]> Γ) m.
Proof using Hok.
  intros HI Hi Hrx Hph Hsl Hh Ht. destruct (read_view_grows (head sh) t Acquire x V) as [Hg1 Hg2].
  assert (gphase g ≠ Gone) as Hng by (by rewrite Hph).
  destruct (actor sh Hok _ _ _ _ _ _ _ _ _ HI Hi Hng) as (_ & HM & _).
  destruct (mo_head _ _ _ HM) as (h' & Hh' & Hx & _). rewrite Hh in Hh'. injection Hh' as <-.
  destruct (Hx t x Ht) as (k & Hv & Hk & Hc). exists k. split; [done|].
  pose proof (mi_glob _ _ _ _ _ HI) as HG. pose proof (go_pub _ _ _ _ HG). pose proof (go_left _ _ _ _ HG).
  split; [pose proof (go_max _ _ _ _ HG); lia|].
  destruct (sender_entry _ _ _ _ _ _ _ _ HI Hi Hrx) as (Hcm & Hs & Hl).
  eapply (learn_inv sh Hok); try done. apply sender_local; [done| | |done].
  - destruct (common_grown sh Hok _ _ m _ _ _ _ _ _ c tr eq_refl Hg1 Hg2 Hcm). by split.
  - destruct (sender_grown sh Hok _ _ _ _ _ _ _ c tr Hg1 Hs). split; simpl in *; try done.
    + split; [done|]. eapply mp_covers_mono; [exact Hc|done|apply acquire_read].
    + by rewrite Hsl in *.
Qed.

(** ** Moving the log *)

Section log_moves.
Context (G : glob T) (m : mem T) (i : tid) (len : nat) (l' : list (ticket T)).
Hypothesis HG : glob_ok sh G len m.
Hypothesis Hli : i ∈ live G.
Hypothesis Htk : tk_evolves i (tickets G) l'.
Hypothesis Hfr : freer G = None.
Hypothesis Hfd : freed G = false.
Abbreviation G' := (set_tickets l' G).

Lemma log_evolves m' : hist m' !! head sh = hist m !! head sh → evolves sh i G m G' m'.
Proof using Hok HG Hli Htk Hfr Hfd. intros Hh. evolve. Qed.

Lemma head_log h : head_ok sh G h → head_ok sh G' h.
Proof using Hok HG Hli Htk Hfr Hfd.
  intros [Hx Hl]. split; [|done]. intros t x Ht. destruct (Hx t x Ht) as (k & ? & Hk & Hc).
  exists k. split_and!; [done|done|]. pose proof (go_pub _ _ _ _ HG).
  eapply (covers_evolves sh i G G' m m); [done|by apply log_evolves|lia|done].
Qed.

Lemma senders_log h : senders_ok sh G h → senders_ok sh G' h.
Proof using Hok HG Hli Htk Hfr Hfd.
  intros (n & x & H1 & H2 & H3 & H4 & H5). exists n, x. split_and!; try done.
  apply (covers_by_evolves sh i G G' m m); [by apply log_evolves|set_solver|done].
Qed.

Lemma strong_log m' h :
  hist m' !! head sh = hist m !! head sh → strong_ok sh G m h → strong_ok sh G' m' h.
Proof using Hok HG Hli Htk Hfr Hfd.
  intros Hh (n & x & H1 & H2 & H3 & H4 & H5). exists n, x. split_and!; try done.
  - pose proof (go_live _ _ _ _ HG).
    apply (covers_by_evolves sh i G G' m m); [by apply log_evolves|set_solver|done].
  - intros Hrx. destruct (H5 Hrx). split; [|by eapply past_same].
    eapply (covers_evolves sh i G G' m m); [done|by apply log_evolves|done|done].
Qed.

(** Slots whose published tickets are the same. *)
Lemma round_log k h :
  (∀ q tk, sl q = k → published tk → (l' !! q = Some tk ↔ tickets G !! q = Some tk)) →
  round_ok sh G k h → round_ok sh G' k h.
Proof using Hok HG Hli Htk Hfr Hfd.
  intros Hp (H0 & H1 & H2). split_and!; [done| |].
  - intros t x Ht. destruct (H1 t x Ht) as [?|(q & tk & Hk & Hq & Hst & ?)]; [by left|right].
    exists q, tk. split_and!; try done; [|naive_solver..]. simpl. apply Hp; [done|by exists t|done].
  - intros q tk t Hk Hq Hst. eapply H2; [exact Hk| |exact Hst]. apply Hp; [done|by exists t|done].
Qed.

Lemma mem_log m' :
  (∀ f, f ∈ [Head; Senders; RxDropped; StrongCount; Parked Consumer; Waiting] →
     hist m' !! Loc (sh_ring sh) f = hist m !! Loc (sh_ring sh) f) →
  mem_ok sh G m → has m' (claim sh) (claim_ok (length l')) →
  (∀ k, (k < capn)%nat → has m' (slot_round sh k) (round_ok sh G' k)) →
  cells_ok sh G' (mcells m') → mem_ok sh G' m'.
Proof using Hok HG Hli Htk Hfr Hfd.
  intros Hsame [] Hcl Hrd Hce.
  assert (Hh : hist m' !! head sh = hist m !! head sh) by (apply Hsame; set_solver).
  split; try done.
  - eapply (has_same sh Hok); [exact Hh|apply head_log|done].
  - eapply (has_same sh Hok); [apply Hsame; set_solver|apply senders_log|done].
  - eapply (has_same sh Hok); [apply Hsame; set_solver| |done]. by intros h.
  - eapply (has_same sh Hok); [apply Hsame; set_solver| |done]. intros h. by apply strong_log.
  - rewrite Hsame by set_solver. done.
  - rewrite Hsame by set_solver. done.
Qed.

(** Keeping the part that does not concern the memory. *)
Lemma glob_log m' :
  (length l' ≤ npub G + capn)%nat → Z.of_nat (length l') ≤ usize_max → (i < len)%nat → i ≠ rx →
  (∀ q tk t, l' !! q = Some tk → tst tk = Published t → tickets G !! q ≠ Some tk →
     (0 < t)%nat ∧ (∀ q' tk' t', q' ≠ q → sl q = sl q' → l' !! q' = Some tk' → tst tk' = Published t' →
        (q' < q)%nat ∧ (t' < t)%nat)) →
  mdropped m' = mdropped m → mem_ok sh G' m' → glob_ok sh G' len m'.
Proof using Hok HG Hli Htk Hfr Hfd.
  intros Hroom Hmax Hi Hrx Hnew Hd HM. pose proof (tk_length _ _ _ Htk) as Hlen.
  pose proof (go_pub _ _ _ _ HG). pose proof (go_left _ _ _ _ HG) as Hleft. unfold ntk in Hleft.
  assert (Hold : ∀ q tk t, l' !! q = Some tk → tst tk = Published t →
    tickets G !! q = Some tk ∨ tickets G !! q ≠ Some tk).
  { intros q tk t Hq Ht. destruct (tk_new _ _ _ _ _ Htk Hq) as [?|[_ Hn]]; [by left|right].
    intros Hq'. destruct (Hn _ Hq') as [[] _]. by exists t. }
  destruct HG. split; simpl; unfold ntk; simpl; try done; try lia.
  - intros q tk Hq Hq'. destruct (lookup_lt_is_Some_2 (tickets G) q) as [tk0 Htk0]; [lia|].
    pose proof (go_done q tk0 Hq Htk0) as Hp. rewrite (tk_published _ _ _ _ _ Htk Htk0 Hp) in Hq'. by simplify_eq.
  - intros q tk Hq. destruct (tk_new _ _ _ _ _ Htk Hq) as [?|[-> _]]; [eauto|by right].
  - intros q q' tk tk' t t' Hlt Hs Hq Hq' Ht Ht'.
    destruct (Hold _ _ _ Hq Ht) as [Ho|Hn], (Hold _ _ _ Hq' Ht') as [Ho'|Hn'].
    + by eapply (go_order q q').
    + destruct (Hnew q' tk' t' Hq' Ht' Hn') as [_ Hx]. by destruct (Hx q tk t); [lia|..].
    + destruct (Hnew q tk t Hq Ht Hn) as [_ Hx]. destruct (Hx q' tk' t'); [lia|done..|lia].
    + destruct (Hnew q tk t Hq Ht Hn) as [_ Hx]. destruct (Hx q' tk' t'); [lia|done..|lia].
  - intros q tk t Hq Ht. destruct (Hold _ _ _ Hq Ht) as [Ho|Hn]; [eauto|]. by destruct (Hnew q tk t Hq Ht Hn).
  - intros q tk Hq. destruct (tk_new _ _ _ _ _ Htk Hq) as [?|[-> _]]; [eauto|done].
  - rewrite Hd, go_dropped, (go_keep Hfr Hfd), Nat.sub_diag. done.
  - intros Hf. congruence.
  - intros Hf. congruence.
Qed.
End log_moves.

(** ** Claiming *)

Lemma live_open G m i e : common_ok sh G m i e → i ≠ rx → gphase (eg e) = Open → i ∈ live G.
Proof using Type. intros [] ? ?. by apply lc_live. Qed.

(** The state of an open sender: the log is shared, nobody drops the block. *)
Lemma open_sender G Γ m i g V tr c :
  Inv G Γ m → Γ !! i = Some (Ent g V tr c) → i ≠ rx → gphase g = Open →
  mem_ok sh G m ∧ i ∈ live G ∧ freer G = None ∧ freed G = false ∧ (i < length Γ)%nat.
Proof using Hok.
  intros HI Hi Hrx Hph. assert (gphase g ≠ Gone) as Hng by (by rewrite Hph).
  destruct (actor sh Hok _ _ _ _ _ _ _ _ _ HI Hi Hng) as (Hf & HM & _ & Hfr).
  destruct (sender_entry _ _ _ _ _ _ _ _ HI Hi Hrx) as (Hc & _ & _).
  split_and!; [done|by eapply live_open|apply Hfr; by rewrite Hph|done|by eapply lookup_lt_Some].
Qed.

(** Only the newest store of [claim] can be exchanged. *)
Lemma claim_last G m h t x :
  has m (claim sh) (claim_ok (ntk G)) → hist m !! claim sh = Some h → h !! t = Some x → h !! S t = None →
  t = ntk G ∧ mval x = Z.of_nat t.
Proof using Type.
  intros (h' & Hh' & Hd & Hv) Hh Ht Hn. rewrite Hh in Hh'. injection Hh' as <-.
  split; [|by apply Hv]. pose proof (proj1 (Hd t) (mk_is_Some _ _ Ht)).
  destruct (decide (t = ntk G)) as [|Hne]; [done|].
  destruct (proj2 (Hd (S t)) ltac:(lia)) as [? ?]. congruence.
Qed.

(** A new ticket. *)
Definition claim_ghost q v g : ghost T := with_slot (Some (q, v, false)) (with_vals (vals g ++ [v]) g).

Lemma cells_claimed G v i C :
  (nleft G ≤ ntk G)%nat → (ntk G < nleft G + capn)%nat →
  cells_ok sh G C → cells_ok sh (set_tickets (tickets G ++ [MkTicket i v Claimed]) G) C.
Proof using Type.
  intros Hle Hlt [Hfull Hfree]. split; simpl.
  - intros q tk Hq [Hl|[Hge Hl]]%lookup_app_Some; [by apply Hfull|].
    apply list_lookup_singleton_Some in Hl as [Hz <-]. simpl. apply Hfree. unfold ntk in *. lia.
  - intros q Hq. unfold ntk in Hq. simpl in Hq. rewrite length_app in Hq. simpl in Hq.
    apply Hfree. unfold ntk. lia.
Qed.

Lemma claim_inv G Γ m i g V tr c h t x v f W :
  Inv G Γ m → Γ !! i = Some (Ent g V tr (Some c)) → i ≠ rx → gphase g = Open → slot g = None →
  hist m !! claim sh = Some h → h !! t = Some x → h !! S t = None →
  mval x < Z.of_nat (seen g) + cap sh → mval x < usize_max → f = mval x + 1 →
  vals g = accepted tr → offered c = [v] →
  let V' := write_view (claim sh) (S t) (read_view (claim sh) t Relaxed x V) in
  ∃ q G', mval x = Z.of_nat q ∧
    Inv G' (<[i := Ent (claim_ghost q v g) V' tr (Some c)]> Γ) (add_msg (claim sh) (S t) (Msg f W) m).
Proof using Hok.
  intros HI Hi Hrx Hph Hsl Hh Ht Hn Hroom Hmax -> Hacc Hoff V'.
  destruct (open_sender _ _ _ _ _ _ _ _ HI Hi Hrx Hph) as (HM & Hli & Hfr & Hfd & Hlen).
  destruct (claim_last _ _ _ _ _ (mo_claim _ _ _ HM) Hh Ht Hn) as [-> Hv].
  destruct (sender_entry _ _ _ _ _ _ _ _ HI Hi Hrx) as (Hc & Hs & Hl).
  pose proof (mi_glob _ _ _ _ _ HI) as HG. pose proof (capn_cap sh Hok) as [Hcap _].
  pose proof (go_pub _ _ _ _ HG). pose proof (go_left _ _ _ _ HG). pose proof (proj1 (ls_seen _ _ _ _ Hs)). simpl in *.
  set (l' := tickets G ++ [MkTicket i v Claimed]).
  assert (Htk : tk_evolves i (tickets G) l') by apply tk_claims.
  assert (vle (cur V) (cur V') ∧ vle (acq V) (acq V')) as [Hg1 Hg2].
  { destruct (read_view_grows (claim sh) (ntk G) Relaxed x V), (write_view_grows (claim sh) (S (ntk G)) (read_view (claim sh) (ntk G) Relaxed x V)).
    split; by etrans. }
  set (m' := add_msg _ _ _ m).
  assert (Hsame : ∀ f, f ≠ Claim → hist m' !! Loc (sh_ring sh) f = hist m !! Loc (sh_ring sh) f).
  { intros f Hf. apply hist_add_other. by intros [=]. }
  exists (ntk G), (set_tickets l' G). split; [done|].
  eapply step_inv; [exact HI|exact Hi|apply (log_evolves G m i (length Γ) l'); try done; by apply Hsame|..].
  - apply (glob_log G m i (length Γ) l'); try done.
    + unfold l'. rewrite length_app. simpl. unfold ntk in *. lia.
    + unfold l'. rewrite length_app. simpl. unfold ntk in *. lia.
    + intros q tk t [Hq|[_ Hq]]%lookup_app_Some Hst Hne; [done|].
      apply list_lookup_singleton_Some in Hq as [_ <-]. done.
    + apply (mem_log G m i (length Γ) l'); try done.
      * intros f Hf. apply Hsame. set_solver.
      * eexists. split; [by apply hist_add_same|]. unfold l'. rewrite length_app. simpl.
        destruct (mo_claim _ _ _ HM) as (h' & Hh' & Hd & Hvs). rewrite Hh in Hh'. injection Hh' as <-. split.
        -- intros t. rewrite lookup_insert_is_Some, Hd. unfold ntk. split; [lia|].
           intros Hle. destruct (decide (S (length (tickets G)) = t)); [by left|right; lia].
        -- intros t y [[<- <-]|[_ Hy]]%lookup_insert_Some; [simpl; lia|by apply Hvs].
      * intros k Hk. eapply (has_same sh Hok); [by apply Hsame| |by apply (mo_round _ _ _ HM)].
        intros h0. apply (round_log G m i (length Γ) l'); try done. intros q tk _ [t Hp]. split; [|intros; by apply lookup_app_l_Some].
        intros [Hq|[_ Hq]]%lookup_app_Some; [done|].
        apply list_lookup_singleton_Some in Hq as [_ <-]. done.
      * apply cells_claimed; [lia|unfold ntk in *; lia|apply HM].
  - pose proof (common_grown sh Hok _ _ m' _ _ _ _ _ V' (Some c) tr (Hsame Head ltac:(done)) Hg1 Hg2 Hc) as Hc'.
    pose proof (sender_grown sh Hok _ _ _ _ _ _ V' (Some c) tr Hg1 Hs) as Hs'.
    assert (Hev : evolves sh i G m (set_tickets l' G) m) by (by apply (log_evolves G m i (length Γ) l')).
    apply sender_local; [done| | |].
    + destruct Hc'. split; simpl in *; try done; intros; congruence.
    + destruct Hs' as [Hs1 Hs2 Hs3 Hs4 Hs5]. split; simpl in *; try done.
      * unfold l'. rewrite filter_app, filter_cons_True, fmap_app by done. by rewrite Hs1.
      * split; [lia|]. eapply (covers_evolves sh i G _ m m (length Γ)); [done|exact Hev|lia|by apply Hs2].
      * intros q tk [Hq|[_ Hq]]%lookup_app_Some Hby; [by apply Hs3|].
        apply list_lookup_singleton_Some in Hq as [_ <-]. done.
      * split_and!; [done|lia| |].
        -- unfold l', ntk. by rewrite lookup_app_r, Nat.sub_diag by lia.
        -- rewrite Hsl in Hs4. intros q' tk Hne [Hq|[Hge Hq]]%lookup_app_Some Hby; [by eapply Hs4|].
           apply list_lookup_singleton_Some in Hq as [Hz _]. unfold ntk in *. lia.
    + unfold log_ok in *. rewrite decide_False in * by done. simpl in *. split; [|apply Hl].
      rewrite Hacc, Hoff. split; [by apply prefix_app_r|done].
Qed.

(** ** Writing *)

(** A ticket in progress is still in the ring. *)
Lemma ticket_window G len m i q v st :
  glob_ok sh G len m → tickets G !! q = Some (MkTicket i v st) → (∀ t, st ≠ Published t) →
  (nleft G ≤ q)%nat ∧ (q < nleft G + capn)%nat.
Proof using Type.
  intros HG Hq Hst. split.
  - destruct (decide (nleft G ≤ q)%nat) as [|Hn]; [done|].
    destruct (go_done _ _ _ _ HG q _ ltac:(lia) Hq) as [t Ht]. by destruct (Hst t).
  - apply lookup_lt_Some in Hq. pose proof (go_pub _ _ _ _ HG). pose proof (go_room _ _ _ _ HG).
    unfold ntk in *. lia.
Qed.

Lemma window_ne q q' d :
  (d ≤ q)%nat → (q < d + capn)%nat → (d ≤ q')%nat → (q' < d + capn)%nat → q ≠ q' → cell q ≠ cell q'.
Proof using Hok. intros ? ? ? ? Hne Heq. apply cell_ne in Heq; [done|done|]. intros Hs. apply Hne, (sl_inj sh Hok); [lia|lia|done]. Qed.

Lemma slot_write_ready G Γ m i g V tr c q v :
  Inv G Γ m → Γ !! i = Some (Ent g V tr c) → i ≠ rx → slot g = Some (q, v, false) →
  mcells m !! cell q = Some ((2 * turn q)%nat, None) ∧ (2 * turn q ≤ vw (cur V) (cell q))%nat.
Proof using Hok.
  intros HI Hi Hrx Hsl. destruct (sender_entry _ _ _ _ _ _ _ _ HI Hi Hrx) as (_ & [_ [Hseen Hcov] _ Hslot _] & _).
  simpl in *. rewrite Hsl in Hslot. destruct Hslot as (Hph & Hlt & Hq & _).
  destruct (open_sender _ _ _ _ _ _ _ _ HI Hi Hrx Hph) as (HM & _).
  destruct (ticket_window _ _ _ _ _ _ _ (mi_glob _ _ _ _ _ HI) Hq) as [? ?]; [done|]. split.
  - by rewrite (proj1 (mo_cells _ _ _ HM) q _ ltac:(lia) Hq).
  - destruct (decide (q < capn)%nat) as [Hs|Hs]; [rewrite (turn_small sh Hok) by done; lia|].
    destruct (stamp_before sh Hok q ltac:(lia)) as [Hst Hsl'].
    destruct (Hcov (q - capn)%nat ltac:(lia)) as [Hr _].
    unfold MpscInv.cell in *. rewrite Hsl' in Hr. lia.
Qed.

(** What a move of ticket [q] of [i] does to the entry of [i]. *)
Section ticket_moves.
Context (G : glob T) (m : mem T) (i : tid) (len q : nat) (v : T) (w : bool) (st' : stage).
Context (g : ghost T) (V V' : tview) (tr : list (call T * event T)) (c : option (call T)).
Abbreviation l' := (<[q := MkTicket i v st']> (tickets G)).
Hypothesis HG : glob_ok sh G len m.
Hypothesis Hsl : slot g = Some (q, v, w).
Hypothesis Hs : sender_ok sh G i (Ent g V tr c).
Hypothesis Hli : i ∈ live G.
Hypothesis Hfr : freer G = None.
Hypothesis Hv : vle (cur V) (cur V').

Lemma slot_ticket :
  gphase g = Open ∧ (q < seen g + capn)%nat ∧
  tickets G !! q = Some (MkTicket i v (if w then Written else Claimed)) ∧
  ∀ q' tk, q' ≠ q → tickets G !! q' = Some tk → tby tk = i → published tk.
Proof using Hsl Hs. pose proof (ls_slot _ _ _ _ Hs) as H. simpl in H. by rewrite Hsl in H. Qed.

Lemma slot_moves : tk_evolves i (tickets G) l'.
Proof using Hsl Hs. destruct slot_ticket as (_ & _ & Hq & _). by apply (tk_moves _ _ _ _ _ _ Hq); destruct w. Qed.

Lemma moved_sender x :
  covered sh (cur V') q (MkTicket i v st') →
  (match x with
   | None => ∃ t, st' = Published t
   | Some (q', v', w') => q' = q ∧ v' = v ∧ st' = if (w' : bool) then Written else Claimed
   end) →
  sender_ok sh (set_tickets l' G) i (Ent (with_slot x g) V' tr c).
Proof using Hok HG Hsl Hs Hli Hfr Hv.
  intros Hcov Hx. destruct slot_ticket as (Hph & Hlt & Hq & Hrest). pose proof slot_moves as Htk.
  pose proof (lookup_lt_Some _ _ _ Hq) as Hlq.
  assert (Hev : evolves sh i G m (set_tickets l' G) m).
  { evolve. }
  pose proof (go_pub _ _ _ _ HG). destruct (sender_grown sh Hok _ _ _ _ _ _ V' c tr Hv Hs) as [H1 H2 H3 H4 H5].
  simpl in *. split; simpl; try done.
  - rewrite H1. rewrite <-(take_drop_middle _ _ _ Hq) at 1. rewrite insert_take_drop by done.
    by rewrite !filter_app, !filter_cons_True, !fmap_app by done.
  - split; [lia|]. eapply (covers_evolves sh i G _ m m len); [done|exact Hev|lia|by apply H2].
  - intros q' tk [(<- & <- & _)|[Hne Hq']]%list_lookup_insert_Some Hby; [done|by apply H3].
  - assert (Hothers : ∀ q' tk, q' ≠ q → l' !! q' = Some tk → tby tk = i → published tk).
    { intros q' tk Hne. rewrite list_lookup_insert_ne by done. eauto. }
    destruct x as [[[q' v'] w']|].
    + destruct Hx as (-> & -> & ->). split_and!; [done|done|by rewrite list_lookup_insert_eq|done].
    + intros q' tk Hq' Hby. destruct (decide (q' = q)) as [->|Hne]; [|by eapply Hothers].
      rewrite list_lookup_insert_eq in Hq' by done. injection Hq' as <-. exact Hx.
Qed.

Lemma moved_common l0 m' x :
  gphase g = Open → hist m' !! head sh = hist m !! head sh → vle (acq V) (acq V') →
  common_ok sh G m i (Ent g V tr c) → common_ok sh (set_tickets l0 G) m' i (Ent (with_slot x g) V' tr c).
Proof using Hok Hv.
  intros Hph Hh Ha Hc. destruct (common_grown sh Hok _ _ m' _ _ _ _ _ V' c tr Hh Hv Ha Hc) as [].
  split; simpl in *; try done; intros; congruence.
Qed.

Lemma cells_moved C y :
  cells_ok sh G C →
  y = (match st' with Claimed => (2 * turn q, None) | _ => (wstamp q, Some v) end)%nat →
  cells_ok sh (set_tickets l' G) (<[cell q := y]> C).
Proof using Hok HG Hsl Hs.
  intros [Hfull Hfree] ->. destruct slot_ticket as (Hph & Hlt & Hq & Hrest).
  destruct (ticket_window _ _ _ _ _ _ _ HG Hq) as [? ?]; [by destruct w|].
  pose proof (lookup_lt_Some _ _ _ Hq) as Hlq. pose proof (go_pub _ _ _ _ HG). pose proof (go_room _ _ _ _ HG). split; simpl.
  - intros q' tk Hq' [(<- & <- & _)|[Hne Hl]]%list_lookup_insert_Some; [by rewrite lookup_insert_eq|].
    pose proof (lookup_lt_Some _ _ _ Hl). unfold ntk in *.
    rewrite lookup_insert_ne by (apply (window_ne _ _ (nleft G)); lia). auto.
  - intros q'. unfold ntk in *. simpl. rewrite length_insert. intros Hq'.
    rewrite lookup_insert_ne by (apply (window_ne _ _ (nleft G)); lia). apply Hfree. unfold ntk. lia.
Qed.
End ticket_moves.

Lemma write_inv G Γ m i g V tr c q v :
  Inv G Γ m → Γ !! i = Some (Ent g V tr c) → i ≠ rx → slot g = Some (q, v, false) →
  ∃ G', Inv G' (<[i := Ent (with_slot (Some (q, v, true)) g)
                        (write_view (cell q) (wstamp q) V) tr c]> Γ)
          (set_mcells <[cell q := (wstamp q, Some v)]> m).
Proof using Hok.
  intros HI Hi Hrx Hsl. destruct (sender_entry _ _ _ _ _ _ _ _ HI Hi Hrx) as (Hc & Hs & Hl).
  destruct (slot_ticket _ _ _ _ _ _ _ _ _ Hsl Hs) as (Hph & Hlt & Hq & Hrest).
  destruct (open_sender _ _ _ _ _ _ _ _ HI Hi Hrx Hph) as (HM & Hli & Hfr & Hfd & Hlen).
  pose proof (mi_glob _ _ _ _ _ HI) as HG. destruct (write_view_grows (cell q) (wstamp q) V) as [Hg1 Hg2].
  set (V' := write_view _ _ V) in *. set (m' := set_mcells _ m).
  set (l' := <[q := MkTicket i v Written]> (tickets G)).
  assert (Htk : tk_evolves i (tickets G) l') by (by eapply (tk_moves _ _ _ _ _ _ Hq)).
  pose proof (lookup_lt_Some _ _ _ Hq) as Hlq.
  assert (Hlen' : length l' = ntk G) by apply length_insert.
  assert (Hpub : ∀ q' tk, published tk → (l' !! q' = Some tk ↔ tickets G !! q' = Some tk)).
  { intros q' tk [t Ht]. unfold l'. destruct (decide (q' = q)) as [->|Hne].
    - rewrite list_lookup_insert_eq by done. rewrite Hq. split; intros [= <-]; done.
    - by rewrite list_lookup_insert_ne. }
  exists (set_tickets l' G).
  eapply step_inv; [exact HI|exact Hi|by apply (log_evolves G m i (length Γ) l')|..].
  - apply (glob_log G m i (length Γ) l'); try done.
    + rewrite Hlen'. apply HG.
    + rewrite Hlen'. apply HG.
    + intros q' tk t Hq' Hst Hne. destruct Hne. apply Hpub; [by exists t|done].
    + apply (mem_log G m i (length Γ) l'); try done.
      * rewrite Hlen'. apply HM.
      * intros k Hk. eapply (has_same sh Hok); [done| |by apply (mo_round _ _ _ HM)].
        intros h0. apply (round_log G m i (length Γ) l'); try done. auto.
      * eapply cells_moved; [exact HG|exact Hsl|exact Hs|apply HM|done].
  - apply sender_local; [done| |..].
    + by apply (moved_common G m i g V V' tr c).
    + eapply (moved_sender G m i (length Γ) q v false); try done. unfold covered. simpl. rewrite vw_set_same. lia.
    + unfold log_ok in *. by rewrite decide_False in *.
Qed.

(** ** Publishing *)

(** What is published in the slot of a ticket in progress is older, and its
    sender is past it. *)
Lemma publish_order G Γ m i g V tr c q v q' tk t' :
  Inv G Γ m → Γ !! i = Some (Ent g V tr c) → i ≠ rx → slot g = Some (q, v, true) →
  q' ≠ q → sl q = sl q' → tickets G !! q' = Some tk → tst tk = Published t' →
  (q' < q)%nat ∧ (t' ≤ vw (cur V) (rnd q))%nat.
Proof using Hok.
  intros HI Hi Hrx Hsl Hne Heq Hq' Ht'. destruct (sender_entry _ _ _ _ _ _ _ _ HI Hi Hrx) as (Hc & Hs & Hl).
  destruct (slot_ticket _ _ _ _ _ _ _ _ _ Hsl Hs) as (Hph & Hlt & Hq & Hrest).
  pose proof (mi_glob _ _ _ _ _ HI) as HG. destruct (ticket_window _ _ _ _ _ _ _ HG Hq) as [? ?]; [done|].
  pose proof (go_pub _ _ _ _ HG). pose proof (go_room _ _ _ _ HG). pose proof (lookup_lt_Some _ _ _ Hq').
  unfold ntk in *. assert (q' < q)%nat as Hlt'.
  { destruct (decide (q' < q)%nat); [done|]. pose proof (sl_far sh Hok q q' Heq ltac:(lia)). lia. }
  split; [done|]. pose proof (sl_far sh Hok q' q (eq_sym Heq) Hlt').
  destruct (proj2 (ls_seen _ _ _ _ Hs) q') as [_ Hr]; [simpl; lia|]. specialize (Hr _ _ Hq' Ht'). simpl in Hr.
  unfold MpscInv.rnd in *. by rewrite Heq.
Qed.

Lemma round_published G h q v i t W :
  round_ok sh G (sl q) h → tickets G !! q = Some (MkTicket i v Written) →
  covered sh W q (MkTicket i v (Published t)) → h !! t = None →
  round_ok sh (set_tickets (<[q := MkTicket i v (Published t)]> (tickets G)) G) (sl q)
    (<[t := Msg (round_of sh (Z.of_nat q)) W]> h).
Proof using Type.
  intros (H0 & H1 & H2) Hq Hcov Hn. pose proof (lookup_lt_Some _ _ _ Hq). split_and!.
  - destruct H0 as [x0 H0]. exists x0. rewrite lookup_insert_ne; [done|]. intros ->. congruence.
  - intros t0 x [[<- <-]|[Hne Hx]]%lookup_insert_Some; simpl.
    + right. exists q, (MkTicket i v (Published t)). by rewrite list_lookup_insert_eq.
    + destruct (H1 _ _ Hx) as [?|(q' & tk & Hs & Hq' & Hst & ?)]; [by left|right].
      exists q', tk. split_and!; try done; [|naive_solver..].
      rewrite list_lookup_insert_ne; [done|]. intros ->. rewrite Hq in Hq'. by injection Hq' as <-.
  - simpl. intros q' tk t' Hs [(<- & <- & _)|[Hne Hq']]%list_lookup_insert_Some Hst.
    + simpl in Hst. injection Hst as ->. rewrite lookup_insert_eq. by eexists.
    + rewrite lookup_insert_is_Some. right. split; [|by eapply H2].
      intros ->. destruct (H2 _ _ _ Hs Hq' Hst). congruence.
Qed.

Lemma publish_inv G Γ m i g V tr c q v h t :
  Inv G Γ m → Γ !! i = Some (Ent g V tr c) → i ≠ rx → slot g = Some (q, v, true) →
  hist m !! rnd q = Some h → h !! t = None → (vw (cur V) (rnd q) < t)%nat →
  ∃ G', Inv G' (<[i := Ent (with_slot None g) (write_view (rnd q) t V) tr c]> Γ)
    (add_msg (rnd q) t (Msg (round_of sh (Z.of_nat q)) (released (rnd q) t Release V)) m).
Proof using Hok.
  intros HI Hi Hrx Hsl Hh Hn Hlt. destruct (sender_entry _ _ _ _ _ _ _ _ HI Hi Hrx) as (Hc & Hs & Hl).
  destruct (slot_ticket _ _ _ _ _ _ _ _ _ Hsl Hs) as (Hph & Hltq & Hq & Hrest).
  destruct (open_sender _ _ _ _ _ _ _ _ HI Hi Hrx Hph) as (HM & Hli & Hfr & Hfd & Hlen).
  pose proof (mi_glob _ _ _ _ _ HI) as HG. destruct (write_view_grows (rnd q) t V) as [Hg1 Hg2].
  set (V' := write_view _ _ V) in *. set (m' := add_msg _ _ _ m).
  set (l' := <[q := MkTicket i v (Published t)]> (tickets G)).
  assert (Htk : tk_evolves i (tickets G) l') by (by eapply (tk_moves _ _ _ _ _ _ Hq)).
  pose proof (lookup_lt_Some _ _ _ Hq) as Hlq.
  assert (Hlen' : length l' = ntk G) by apply length_insert.
  assert (Hcov : covered sh (cur V') q (MkTicket i v (Published t))).
  { pose proof (ls_own _ _ _ _ Hs q _ Hq eq_refl) as Ho. unfold covered in *. simpl in *.
    rewrite vw_set_same. rewrite vw_set_other by (intros [=]). lia. }
  assert (Hsame : ∀ l, l ≠ rnd q → hist m' !! l = hist m !! l) by (intros; by apply hist_add_other).
  exists (set_tickets l' G).
  eapply step_inv; [exact HI|exact Hi|apply (log_evolves G m i (length Γ) l'); try done; by apply Hsame|..].
  - apply (glob_log G m i (length Γ) l'); try done.
    + rewrite Hlen'. apply HG.
    + rewrite Hlen'. apply HG.
    + intros q' tk t' [(<- & <- & _)|[Hne Hq']]%list_lookup_insert_Some Hst Hnew; [|done].
      simpl in Hst. injection Hst as ->. split; [lia|]. intros q' tk' t'' Hne Heq.
      unfold l'. rewrite list_lookup_insert_ne by done. intros Hq' Ht'.
      destruct (publish_order _ _ _ _ _ _ _ _ _ _ _ _ _ HI Hi Hrx Hsl Hne Heq Hq' Ht'). split; [done|lia].
    + apply (mem_log G m i (length Γ) l'); try done.
      * intros f Hf. apply Hsame. intros [= ->]. set_solver.
      * rewrite Hlen'. eapply (has_same sh Hok); [by apply Hsame| |apply HM]. done.
      * intros k Hk. destruct (decide (k = sl q)) as [->|Hne].
        -- destruct (mo_round _ _ _ HM _ Hk) as (h' & Hh' & Hr). fold (rnd q) in Hh'. rewrite Hh in Hh'. injection Hh' as <-.
           eexists. split; [by apply hist_add_same|]. by apply round_published.
        -- eapply (has_same sh Hok); [apply Hsame; by intros [=]| |by apply (mo_round _ _ _ HM)].
           intros h0. apply (round_log G m i (length Γ) l'); try done.
           intros q' tk Hk' Hp. unfold l'. rewrite list_lookup_insert_ne by (by intros ->). done.
      * assert (cells_ok sh (set_tickets l' G) (<[cell q := (wstamp q, Some v)]> (mcells m))) as Hce
          by (eapply cells_moved; [exact HG|exact Hsl|exact Hs|apply HM|done]).
        rewrite insert_id in Hce; [done|].
        destruct (ticket_window _ _ _ _ _ _ _ HG Hq) as [? ?]; [done|].
        by rewrite (proj1 (mo_cells _ _ _ HM) q _ ltac:(lia) Hq).
  - apply sender_local; [done| |..].
    + apply (moved_common G m i g V V' tr c); try done. by apply Hsame.
    + eapply (moved_sender G m i (length Γ) q v true); try done. by exists t.
    + unfold log_ok in *. by rewrite decide_False in *.
Qed.
End actions.
