(* ===== verification/MpscTake.v ===== *)
(** The actions of the MPSC receiver: looking for the ticket at its head,
    taking its value out, publishing the head, observing the last sender's
    drop. *)
From S2P Require Import Prelude Usize Atomic Errors Wait Notify Ring Queue Mpsc Seq Memory Machine Logic MpscInv MpscProt MpscActs.
From S2P Require MpscSeq.
Local Open Scope Z_scope.

Section actions.
Context `{tgt : Target} {T : Type} (sh : Shared).
Hypothesis Hok : MpscSeq.shared_ok sh.
Variable limit : Z.
Abbreviation entry := (ent (ghost T) (call T) (event T)).
Implicit Types (G : glob T) (m : mem T) (W : view) (g : ghost T) (e : entry) (Γ : list entry)
  (tk : ticket T) (q : nat) (i j : tid).

Abbreviation capn := (capn sh).
Abbreviation sl := (sl sh).
Abbreviation cell := (cell sh).
Abbreviation rnd := (rnd sh).
Abbreviation turn := (turn sh).
Abbreviation wstamp := (wstamp sh).
Abbreviation rstamp := (rstamp sh).
Abbreviation Inv := (MInv sh limit).

(** ** Reading a round *)

(** The first ticket [d] still in the ring, seen by a thread that is past the
    earlier ones: its slot holds the round of [d] exactly when [d] was
    published. *)
Lemma round_read G len m W d h t x :
  glob_ok sh G len m → round_ok sh G (sl d) h → h !! t = Some x → (vw W (rnd d) ≤ t)%nat →
  (nleft G ≤ d ≤ ntk G)%nat →
  (∀ q tk t', (q < d)%nat → tickets G !! q = Some tk → tst tk = Published t' → (t' ≤ vw W (rnd q))%nat) →
  (∀ q, (q < d)%nat → ∃ tk, tickets G !! q = Some tk ∧ published tk) →
  (mval x = round_of sh (Z.of_nat d) →
     ∃ tk, tickets G !! d = Some tk ∧ tst tk = Published t ∧ covered sh (mview x) d tk) ∧
  (∀ tk t', tickets G !! d = Some tk → tst tk = Published t' → (t' ≤ vw W (rnd d))%nat →
     mval x = round_of sh (Z.of_nat d)).
Proof using Hok.
  intros HG (_ & Hmsg & _) Ht Hle Hd Hpast Hpub.
  pose proof (go_max _ _ _ _ HG) as Hmax. pose proof (go_pub _ _ _ _ HG). pose proof (go_room _ _ _ _ HG).
  destruct (Hmsg t x Ht) as [[-> Hv]|(q & tk & Hs & Hq & Hst & Hv & Hcov)].
  - assert (d < capn)%nat as Hsmall.
    { destruct (decide (d < capn)%nat) as [|Hn]; [done|]. destruct (stamp_before sh Hok d ltac:(lia)) as [_ Hs].
      pose proof (proj2 (capn_cap sh Hok)). destruct (Hpub (d - capn)%nat ltac:(lia)) as (tk & Hq & t' & Ht').
      pose proof (go_first _ _ _ _ HG _ _ _ Hq Ht'). pose proof (Hpast (d - capn)%nat tk t' ltac:(lia) Hq Ht') as Hp.
      unfold MpscInv.rnd in *. rewrite Hs in Hp. lia. }
    split; [intros Heq; rewrite Hv in Heq; by destruct (round_start sh Hok d Hsmall)|].
    intros tk t' Hq Ht' Hp. pose proof (go_first _ _ _ _ HG _ _ _ Hq Ht'). lia.
  - pose proof (lookup_lt_Some _ _ _ Hq) as Hlq. unfold ntk in *.
    assert (Hq' : q ≠ d → mval x ≠ round_of sh (Z.of_nat d)).
    { intros Hne Heq. apply Hne. apply (round_same sh Hok); [lia|lia|done|congruence]. }
    split.
    + intros Heq. destruct (decide (q = d)) as [->|Hne]; [by exists tk|by destruct (Hq' Hne)].
    + intros tk' t' Hd' Ht' Hp. destruct (decide (q = d)) as [->|Hne]; [done|].
      assert (q < d)%nat as Hlt.
      { destruct (decide (q < d)%nat); [done|]. pose proof (sl_far sh Hok d q (eq_sym Hs) ltac:(lia)). lia. }
      pose proof (go_order _ _ _ _ HG q d tk tk' t t' Hlt Hs Hq Hd' Hst Ht'). lia.
Qed.

(** The state of an open receiver. *)
Lemma open_receiver G Γ m g V tr c :
  Inv G Γ m → Γ !! rx = Some (Ent g V tr c) → gphase g = Open →
  mem_ok sh G m ∧ freer G = None ∧ freed G = false ∧ nleft G = npop G.
Proof using Hok.
  intros HI Hi Hph. assert (gphase g ≠ Gone) as Hng by (by rewrite Hph).
  destruct (actor sh Hok _ _ _ _ _ _ _ _ _ HI Hi Hng) as (Hf & HM & _ & Hfr).
  assert (freer G = None) as Hn by (apply Hfr; by rewrite Hph).
  split_and!; [done..|]. by apply (go_keep _ _ _ _ (mi_glob _ _ _ _ _ HI)).
Qed.

Lemma taken_published G len m q :
  glob_ok sh G len m → (q < nleft G)%nat → ∃ tk, tickets G !! q = Some tk ∧ published tk.
Proof using Type.
  intros HG Hq. pose proof (go_left _ _ _ _ HG). unfold ntk in *.
  destruct (lookup_lt_is_Some_2 (tickets G) q ltac:(lia)) as [tk Htk]. exists tk.
  split; [done|]. by eapply go_done.
Qed.

Lemma load_round_inv G Γ m g V tr c h t x :
  Inv G Γ m → Γ !! rx = Some (Ent g V tr c) → gphase g = Open →
  hist m !! rnd (length (vals g)) = Some h → h !! t = Some x → (vw (cur V) (rnd (length (vals g))) ≤ t)%nat →
  let V' := read_view (rnd (length (vals g))) t Acquire x V in
  Z.of_nat (length (vals g)) ≤ usize_max ∧
  if decide (mval x = round_of sh (Z.of_nat (length (vals g)))) then
    Z.of_nat (length (vals g)) < usize_max ∧
    Inv G (<[rx := Ent (with_ready true g) V' tr c]> Γ) m
  else Inv G (<[rx := Ent (with_done (gdone g || gknow g) g) V' tr c]> Γ) m.
Proof using Hok.
  intros HI Hi Hph Hh Ht Hle V'. destruct (read_view_grows (rnd (length (vals g))) t Acquire x V) as [Hg1 Hg2].
  fold V' in Hg1, Hg2.
  destruct (open_receiver _ _ _ _ _ _ _ HI Hi Hph) as (HM & Hfr & Hfd & Hkeep).
  destruct (receiver_entry sh _ _ _ _ _ _ _ _ HI Hi) as (Hc & Hr & Hl).
  pose proof (mi_glob _ _ _ _ _ HI) as HG. pose proof (go_left _ _ _ _ HG) as Hleft.
  pose proof (go_max _ _ _ _ HG) as Hmax. pose proof (lr_len _ _ _ _ Hr) as Hlen. simpl in Hlen. rewrite Hlen in *.
  set (P := npop G) in *.
  destruct (mo_round _ _ _ HM (sl P) (sl_lt sh Hok P)) as (h' & Hh' & Hro).
  fold (rnd P) in Hh'. rewrite Hh in Hh'. injection Hh' as <-.
  destruct (round_read G (length Γ) m (cur V) P h t x HG Hro Ht Hle) as [Hyes Hno]; [lia| | |].
  { intros q tk t' Hq. by apply (lr_own _ _ _ _ Hr). }
  { intros q Hq. eapply taken_published; [exact HG|lia]. }
  split; [lia|]. assert (gphase g ≠ Gone) as Hng by (by rewrite Hph).
  pose proof (common_grown sh Hok _ _ m _ _ _ _ _ V' c tr eq_refl Hg1 Hg2 Hc) as Hc'.
  pose proof (receiver_grown sh Hok _ m m _ _ _ _ V' c tr eq_refl Hg1 Hr) as Hr'.
  destruct (decide _) as [Heq|Hne].
  - destruct (Hyes Heq) as (tk & Hq & Hst & Hcov).
    assert (P < ntk G)%nat by (by apply lookup_lt_Some in Hq). split; [lia|].
    eapply (learn_inv sh Hok); try done. apply receiver_local; [|..].
    + destruct Hc'. by split.
    + destruct Hr'. split; try done. intros _. exists tk. split_and!; [done|by exists t|].
      eapply covered_mono; [exact Hcov|apply acquire_read].
    + done.
  - eapply (learn_inv sh Hok); try done. apply receiver_local; [|..].
    + destruct Hc'. by split.
    + pose proof (lr_know _ _ _ _ Hr) as Hknow. destruct Hr'. split; try done. simpl.
      intros Hd. apply orb_true_iff in Hd as [Hd|Hk]; [by apply lr_done|].
      destruct (Hknow Hk) as [Hlive Hcov]. split; [done|].
      destruct (decide (npop G = ntk G)) as [|Hn]; [done|]. destruct Hne.
      destruct (lookup_lt_is_Some_2 (tickets G) P) as [tk Hq]; [unfold ntk, P in *; lia|].
      destruct (go_unpub _ _ _ _ HG _ _ Hq) as [[t' Ht']|Hin]; [|rewrite Hlive in Hin; set_solver].
      pose proof (Hcov _ _ Hq I) as Hcv. unfold covered in Hcv. rewrite Ht' in Hcv. simpl in Hcv.
      eapply Hno; [done|done|lia].
    + unfold log_ok in *. rewrite decide_True in * by done. split; [apply Hl|]. simpl. intros Hs.
      apply orb_true_iff. left. by apply Hl.
Qed.

(** Observing that no sender is left. *)
Lemma load_senders_inv G Γ m g V tr c h t x :
  Inv G Γ m → Γ !! rx = Some (Ent g V tr c) → gphase g = Open →
  hist m !! senders sh = Some h → h !! t = Some x →
  let V' := read_view (senders sh) t Acquire x V in
  Inv G (<[rx := Ent (with_know (gknow g || (mval x =? 0)) g) V' tr c]> Γ) m.
Proof using Hok.
  intros HI Hi Hph Hh Ht V'. destruct (read_view_grows (senders sh) t Acquire x V) as [Hg1 Hg2]. fold V' in Hg1, Hg2.
  destruct (open_receiver _ _ _ _ _ _ _ HI Hi Hph) as (HM & Hfr & Hfd & Hkeep).
  destruct (receiver_entry sh _ _ _ _ _ _ _ _ HI Hi) as (Hc & Hr & Hl).
  assert (gphase g ≠ Gone) as Hng by (by rewrite Hph).
  pose proof (common_grown sh Hok _ _ m _ _ _ _ _ V' c tr eq_refl Hg1 Hg2 Hc) as Hc'.
  pose proof (receiver_grown sh Hok _ m m _ _ _ _ V' c tr eq_refl Hg1 Hr) as Hr'.
  eapply (learn_inv sh Hok); try done. apply receiver_local; [|..|done].
  - destruct Hc'. by split.
  - destruct Hr'. split; try done. simpl. intros [Hk|Hz]%orb_true_iff; [by apply lr_know|].
    apply Z.eqb_eq in Hz. destruct (mo_senders _ _ _ HM) as (h' & Hh' & n & y & Hdom & Hn & Hv & Hcov & Hlast).
    rewrite Hh in Hh'. injection Hh' as <-. pose proof (Hlast _ _ Ht Hz) as ->.
    rewrite Ht in Hn. injection Hn as <-. assert (size (live G) = 0)%nat as Hs by lia.
    assert (live G = ∅) as Hlive by (by apply leibniz_equiv, size_empty_inv). split; [done|].
    eapply covers_by_mono; [exact Hcov| |apply acquire_read]. rewrite Hlive. set_solver.
Qed.

(** ** Moving the head *)

Lemma receiver_evolves G m' m x y :
  freer G = None → (npub G ≤ y)%nat →
  evolves sh rx G m (set_npub y (set_nleft x (set_npop x G))) m'.
Proof using Type. intros Hf Hy. split; simpl; auto; try done. apply tk_same. Qed.

(** Taking the value of the ticket at the head out of its cell. *)
Definition take_glob G : glob T := set_npub (npub G) (set_nleft (S (npop G)) (set_npop (S (npop G)) G)).
Definition take_ghost v g : ghost T := with_ready false (with_vals (vals g ++ [v]) g).

Lemma take_ready G Γ m g V tr c :
  Inv G Γ m → Γ !! rx = Some (Ent g V tr c) → gphase g = Open → ready g = true →
  let p := length (vals g) in
  ∃ tk, tickets G !! p = Some tk ∧ published tk ∧ p = npop G ∧
    mcells m !! cell p = Some (wstamp p, Some (tval tk)) ∧ (wstamp p ≤ vw (cur V) (cell p))%nat.
Proof using Hok.
  intros HI Hi Hph Hrd p. destruct (open_receiver _ _ _ _ _ _ _ HI Hi Hph) as (HM & Hfr & Hfd & Hkeep).
  destruct (receiver_entry sh _ _ _ _ _ _ _ _ HI Hi) as (Hc & Hr & Hl).
  destruct (lr_ready _ _ _ _ Hr Hrd) as (tk & Hq & [t Ht] & Hcov). simpl in *.
  pose proof (lr_len _ _ _ _ Hr) as Hp. simpl in Hp. fold p in Hp. rewrite Hp. exists tk. split_and!; [done|by exists t|done| |].
  - rewrite (proj1 (mo_cells _ _ _ HM) (npop G) _ ltac:(lia) Hq). by rewrite Ht.
  - unfold covered in Hcov. rewrite Ht in Hcov. simpl in Hcov. lia.
Qed.

Lemma cells_taken G G' len m C p y :
  glob_ok sh G len m → p = nleft G → (p < ntk G)%nat → tickets G' = tickets G → nleft G' = S p →
  y = (rstamp p, None) → cells_ok sh G C → cells_ok sh G' (<[cell p := y]> C).
Proof using Hok.
  intros HG -> Hlt Htk Hl' -> [Hfull Hfree]. pose proof (go_pub _ _ _ _ HG). pose proof (go_room _ _ _ _ HG).
  pose proof (proj2 (capn_cap sh Hok)). split; unfold ntk in *; rewrite Htk, Hl'.
  - intros q tk Hq Hl. pose proof (lookup_lt_Some _ _ _ Hl).
    rewrite lookup_insert_ne by (apply (window_ne sh Hok _ _ (nleft G)); lia). apply Hfull; [lia|done].
  - intros q Hq. destruct (decide (q = nleft G + capn)%nat) as [->|Hne].
    + unfold MpscInv.cell. rewrite (sl_cap sh Hok), lookup_insert_eq, (turn_cap sh Hok). f_equal. f_equal.
      unfold MpscInv.rstamp. lia.
    + rewrite lookup_insert_ne by (apply (window_ne sh Hok _ _ (nleft G)); lia). apply Hfree. unfold ntk. lia.
Qed.

Lemma take_inv G Γ m g V tr c v :
  Inv G Γ m → Γ !! rx = Some (Ent g V tr (Some c)) → gphase g = Open → ready g = true →
  let p := length (vals g) in
  mcells m !! cell p = Some (wstamp p, Some v) →
  ∃ G', Inv G' (<[rx := Ent (take_ghost v g) (write_view (cell p) (rstamp p) V) tr (Some c)]> Γ)
    (set_mcells <[cell p := (rstamp p, None)]> m).
Proof using Hok.
  intros HI Hi Hph Hrd p Hcell. destruct (open_receiver _ _ _ _ _ _ _ HI Hi Hph) as (HM & Hfr & Hfd & Hkeep).
  destruct (receiver_entry sh _ _ _ _ _ _ _ _ HI Hi) as (Hc & Hr & Hl).
  destruct (take_ready _ _ _ _ _ _ _ HI Hi Hph Hrd) as (tk & Hq & Hpb & Hp & Hcell' & Hcov). fold p in Hq, Hp, Hcell'.
  rewrite Hcell in Hcell'. injection Hcell' as ->.
  pose proof (lookup_lt_Some _ _ _ Hq) as Hlt.
  pose proof (mi_glob _ _ _ _ _ HI) as HG. destruct (write_view_grows (cell p) (rstamp p) V) as [Hg1 Hg2].
  set (V' := write_view _ _ V) in *. set (m' := set_mcells _ m).
  assert (Hev : evolves sh rx G m (take_glob G) m') by (by apply receiver_evolves).
  assert (Hcv : covers sh G (S (npop G)) (cur V')).
  { intros q Hlq. destruct (decide (q = npop G)) as [->|Hne].
    - rewrite <-Hp. split; [simpl; rewrite vw_set_same; lia|].
      intros tk' t' Hq' Ht'. rewrite Hq in Hq'. injection Hq' as <-.
      destruct (lr_ready _ _ _ _ Hr Hrd) as (tk2 & Hq2 & _ & Hcv2). rewrite <-Hp, Hq in Hq2. injection Hq2 as <-.
      unfold covered in Hcv2. rewrite Ht', <-Hp in Hcv2. simpl in Hcv2. pose proof (Hg1 (rnd p)). simpl in *. lia.
    - eapply (mp_covers_mono sh G (npop G)); [apply Hr|done|exact Hg1|lia]. }
  exists (take_glob G).
  eapply step_inv; [exact HI|exact Hi|exact Hev|..].
  - pose proof (go_pub _ _ _ _ HG). destruct HG. split; simpl; unfold ntk in *; simpl; try done; try lia.
    + intros q tk' Hlq Hq'. destruct (decide (q = p)) as [->|Hne]; [congruence|]. eapply go_done; [|done]. lia.
    + intros Hcl. apply (lr_open _ _ _ _ Hr) in Hph. congruence.
    + rewrite go_dropped, Hkeep, !Nat.sub_diag. done.
    + intros Hf. congruence.
    + intros _. destruct HM. split; try done.
      * destruct mo_strong as (h & Hh & n & x & H1 & H2 & H3 & H4 & H5). exists h. split; [done|].
        exists n, x. split_and!; try done. intros Hnot. destruct Hnot. apply (lc_hold _ _ _ _ _ Hc). by left.
      * eapply cells_taken; [by apply HI|congruence|unfold ntk; lia|done|simpl; congruence|done|done].
  - apply receiver_local.
    + destruct (common_grown sh Hok _ m m' _ _ _ _ _ V' (Some c) tr eq_refl Hg1 Hg2 Hc) as [].
      split; simpl in *; try done; intros; congruence.
    + destruct (receiver_grown sh Hok _ m m' _ _ _ _ V' (Some c) tr eq_refl Hg1 Hr) as []. simpl in *.
      split; simpl; try done.
      * rewrite length_app. simpl. lia.
      * rewrite (take_S_r _ _ (tval tk)); [by rewrite lr_vals|]. by rewrite list_lookup_fmap, <-Hp, Hq.
      * intros Hd. destruct (lr_done Hd). unfold ntk in *. lia.
    + unfold log_ok in *. rewrite decide_True in * by done. simpl in *. split; [|apply Hl].
      destruct Hl as [Hl _]. etrans; [exact Hl|]. by apply prefix_app_r.
Qed.

(** Publishing the head. *)
Lemma publish_head_inv G Γ m g V tr c h t :
  Inv G Γ m → Γ !! rx = Some (Ent g V tr c) → gphase g = Open →
  hist m !! head sh = Some h → h !! t = None → (vw (cur V) (head sh) < t)%nat →
  ∃ G', Inv G' (<[rx := Ent (with_pub (length (vals g)) g) (write_view (head sh) t V) tr c]> Γ)
    (add_msg (head sh) t (Msg (Z.of_nat (length (vals g))) (released (head sh) t Release V)) m).
Proof using Hok.
  intros HI Hi Hph Hh Hn Hlt. destruct (open_receiver _ _ _ _ _ _ _ HI Hi Hph) as (HM & Hfr & Hfd & Hkeep).
  destruct (receiver_entry sh _ _ _ _ _ _ _ _ HI Hi) as (Hc & Hr & Hl).
  pose proof (mi_glob _ _ _ _ _ HI) as HG. destruct (write_view_grows (head sh) t V) as [Hg1 Hg2].
  set (V' := write_view _ _ V) in *. set (m' := add_msg _ _ _ m).
  pose proof (lr_len _ _ _ _ Hr) as Hlen. simpl in Hlen. pose proof (go_pub _ _ _ _ HG).
  set (G' := set_npub (npop G) (set_nleft (nleft G) (set_npop (npop G) G))).
  assert (Hev : evolves sh rx G m G' m').
  { split; simpl; auto; try done; [apply tk_same|lia]. }
  assert (Hsame : ∀ l, l ≠ head sh → hist m' !! l = hist m !! l) by (intros; by apply hist_add_other).
  assert (Hnew : hist m' !! head sh = Some (<[t := Msg (Z.of_nat (npop G)) (released (head sh) t Release V)]> h)).
  { unfold m'. rewrite Hlen. by apply hist_add_same. }
  assert (Hpast : ∀ t', is_Some (h !! t') → (t' < t)%nat).
  { intros t' Ht'. pose proof (lr_head _ _ _ _ Hr h Hh t' Ht') as Hp. simpl in Hp. lia. }
  exists G'. eapply step_inv; [exact HI|exact Hi|exact Hev|..].
  - pose proof (go_room _ _ _ _ HG). destruct HG. split; simpl; unfold ntk in *; simpl; block_there; try done; try lia.
    + intros _. destruct HM. split; simpl; try (eapply (has_same sh Hok); [by apply Hsame| |done]; by intros h0).
      * eexists. split; [exact Hnew|]. destruct mo_head as (h' & Hh' & Hx & Hlast). rewrite Hh in Hh'. injection Hh' as <-. split.
        -- intros t' x [[<- <-]|[Hne Hx']]%lookup_insert_Some; simpl.
           ++ exists (npop G). split_and!; [done|lia|]. eapply mp_covers_mono; [apply (lr_own _ _ _ _ Hr)|lia|].
              apply vle_set.
           ++ destruct (Hx _ _ Hx') as (k & ? & ? & ?). exists k. split_and!; [done|lia|done].
        -- exists t. eexists. rewrite lookup_insert_eq. split_and!; [done|done|].
           intros t' [->|[_ Ht']]%lookup_insert_is_Some; [lia|]. by apply Nat.lt_le_incl, Hpast.
      * intros k Hk. eapply (has_same sh Hok); [by apply Hsame| |by apply mo_round]. by intros h0.
      * destruct mo_strong as (h0 & Hh0 & n & x & H1 & H2 & H3 & H4 & H5). exists h0. split; [by rewrite Hsame|].
        exists n, x. split_and!; try done. intros Hnot. destruct Hnot. apply (lc_hold _ _ _ _ _ Hc). by left.
      * by rewrite Hsame.
      * by rewrite Hsame.
      * exact mo_cells.
  - apply receiver_local; [|..|done].
    + destruct Hc. split; simpl in *; try done; intros; congruence.
    + assert (past m' (head sh) (cur V')).
      { intros h' Hh'. rewrite Hnew in Hh'. injection Hh' as <-. intros t' [->|[_ Ht']]%lookup_insert_is_Some; simpl; rewrite vw_set_same.
        - lia.
        - specialize (Hpast _ Ht'). lia. }
      destruct Hr. simpl in *. split; simpl; try done.
      * by eapply mp_covers_mono.
      * intros Hrd. destruct (lr_ready Hrd) as (tk & ? & ? & ?). exists tk. split_and!; try done. by eapply covered_mono.
      * intros Hk. destruct (lr_know Hk). split; [done|]. by eapply covers_by_mono.
Qed.
End actions.
