(* ===== verification/MpscDrop.v ===== *)
(** The counts of the MPSC ring: closing either side, cloning a sender,
    releasing references, and the last owner's drop of the block. *)
From S2P Require Import Prelude Usize Atomic Errors Wait Notify Ring Queue Mpsc Seq Memory Machine Logic MpscInv MpscProt MpscActs MpscTake.
From S2P Require MpscSeq.
Local Open Scope Z_scope.

(** ** Histories that are chains of updates *)

Section chains.
Implicit Types h : gmap nat msg.

Lemma chain_last h n t x :
  (∀ t, is_Some (h !! t) ↔ (t ≤ n)%nat) → h !! t = Some x → h !! S t = None → t = n.
Proof.
  intros Hd Ht Hn. pose proof (proj1 (Hd t) (mk_is_Some _ _ Ht)).
  destruct (decide (t = n)); [done|]. destruct (proj2 (Hd (S t)) ltac:(lia)) as [z Hz]. congruence.
Qed.

Lemma chain_next h n y :
  (∀ t, is_Some (h !! t) ↔ (t ≤ n)%nat) → ∀ t, is_Some (<[S n := y]> h !! t) ↔ (t ≤ S n)%nat.
Proof.
  intros Hd t. rewrite lookup_insert_is_Some, Hd. split; [lia|].
  intros Ht. destruct (decide (S n = t)); [by left|right; lia].
Qed.
End chains.

Lemma size_below (X : gset nat) n : (∀ i, i ∈ X → (i < n)%nat) → (size X ≤ n)%nat.
Proof.
  intros HX. assert (X ⊆ set_seq (C := gset nat) 0 n) as Hs.
  { intros i Hi. apply elem_of_set_seq. specialize (HX i Hi). lia. }
  pose proof (subseteq_size _ _ Hs). rewrite size_set_seq in *. done.
Qed.

Lemma size_remove (X : gset nat) i : i ∈ X → size X = S (size (X ∖ {[i]})).
Proof.
  intros Hi. rewrite size_difference by set_solver. rewrite size_singleton.
  assert (size X ≠ 0)%nat; [|lia]. rewrite size_empty_iff. set_solver.
Qed.

Lemma size_add (X : gset nat) i : i ∉ X → size ({[i]} ∪ X) = S (size X).
Proof. intros Hi. rewrite size_union by set_solver. by rewrite size_singleton. Qed.

Lemma size_last (X : gset nat) i : i ∈ X → size X = 1%nat → X = {[i]}.
Proof.
  intros Hi [x Hx%leibniz_equiv]%size_1_elem_of. rewrite Hx in *. set_solver.
Qed.

Lemma elem_remove_ne (X : gset nat) i j : j ≠ i → j ∈ X ∖ {[i]} ↔ j ∈ X.
Proof. set_solver. Qed.
Lemma subset_remove (X Y : gset nat) i : X ⊆ Y → i ∉ X → X ⊆ Y ∖ {[i]}.
Proof. set_solver. Qed.

Section actions.
Context `{tgt : Target} {T : Type} (sh : Shared).
Hypothesis Hok : MpscSeq.shared_ok sh.
Variable limit : Z.
Abbreviation entry := (ent (ghost T) (call T) (event T)).
Implicit Types (G : glob T) (m : mem T) (W : view) (g : ghost T) (e : entry) (Γ : list entry)
  (tk : ticket T) (q : nat) (i j : tid).

Abbreviation capn := (capn sh).
Abbreviation sl := (sl sh).
Abbreviation cell := (cell sh).
Abbreviation rnd := (rnd sh).
Abbreviation turn := (turn sh).
Abbreviation wstamp := (wstamp sh).
Abbreviation rstamp := (rstamp sh).
Abbreviation Inv := (MInv sh limit).

(** ** Closing the receiver *)

Lemma close_rx_inv G Γ m g V tr c h t :
  Inv G Γ m → Γ !! rx = Some (Ent g V tr c) → gphase g = Open → gpub g = length (vals g) →
  hist m !! rx_dropped sh = Some h → h !! t = None →
  Inv (set_rx_open false G) (<[rx := Ent (with_phase Closed g) (write_view (rx_dropped sh) t V) tr c]> Γ)
    (add_msg (rx_dropped sh) t (Msg 1 (released (rx_dropped sh) t Release V)) m).
Proof using Hok.
  intros HI Hi Hph Hpub Hh Hn. destruct (open_receiver sh Hok _ _ _ _ _ _ _ _ HI Hi Hph) as (HM & Hfr & Hfd & Hkeep).
  destruct (receiver_entry sh _ _ _ _ _ _ _ _ HI Hi) as (Hc & Hr & Hl).
  pose proof (mi_glob _ _ _ _ _ HI) as HG. destruct (write_view_grows (rx_dropped sh) t V) as [Hg1 Hg2].
  set (V' := write_view _ _ V) in *. set (m' := add_msg _ _ _ m).
  assert (Hsame : ∀ l, l ≠ rx_dropped sh → hist m' !! l = hist m !! l) by (intros; by apply hist_add_other).
  assert (npub G = npop G) as Hpp by (pose proof (lr_len _ _ _ _ Hr); pose proof (lr_pub _ _ _ _ Hr); simpl in *; lia).
  eapply step_inv; [exact HI|exact Hi| |..].
  - split; simpl; auto; try done. apply tk_same.
  - destruct HG. split; simpl; block_there; try done. intros _. destruct HM. split; simpl;
      try (eapply (has_same sh Hok); [by apply Hsame| |done]; by intros h0).
    + intros k Hk. eapply (has_same sh Hok); [by apply Hsame| |by apply mo_round]. by intros h0.
    + destruct mo_gone as (h' & Hh' & Hx). rewrite Hh in Hh'. injection Hh' as <-.
      eexists. split; [by apply hist_add_same|]. intros t' x [[<- <-]|[_ Hx']]%lookup_insert_Some; simpl; [by right|].
      destruct (Hx _ _ Hx') as [?|[? _]]; [by left|by right].
    + eapply (has_same sh Hok); [by apply Hsame| |done]. intros h0. exact (strong_ok_head sh Hok G m m' h0 (Hsame (head sh) ltac:(done))).
    + by rewrite Hsame.
    + by rewrite Hsame.
    + exact mo_cells.
  - assert (hist m' !! head sh = hist m !! head sh) as Hhd by (by apply Hsame).
    apply receiver_local; [|..|done].
    + destruct (common_grown sh Hok _ m m' _ _ _ _ _ V' c tr Hhd Hg1 Hg2 Hc) as [].
      simpl in *. rewrite Hph in *. split; simpl; try done; try (intros; congruence).
      * rewrite lc_hold. split; [intros _; by right|intros _; by left].
      * rewrite lc_live. split; [intros [[] ?]; done|intros [[] ?]; done].
      * split; [done|]. intros Hf. by apply lc_freer in Hf.
    + destruct (receiver_grown sh Hok _ m m' _ _ _ _ V' c tr Hhd Hg1 Hr) as []. by split.
Qed.

(** ** Closing a sender *)

Lemma close_tx_inv G Γ m i g V tr c h t x f :
  Inv G Γ m → Γ !! i = Some (Ent g V tr c) → i ≠ rx → gphase g = Open → slot g = None → gclone g = NoClone →
  hist m !! senders sh = Some h → h !! t = Some x → h !! S t = None → f = wrap (mval x - 1) →
  2 * (limit + 2) < usize_max →
  let V1 := read_view (senders sh) t AcqRel x V in
  Inv (set_live (live G ∖ {[i]}) G)
    (<[i := Ent (with_phase Closed g) (write_view (senders sh) (S t) V1) tr c]> Γ)
    (add_msg (senders sh) (S t) (Msg f (vjoin (mview x) (released (senders sh) (S t) AcqRel V1))) m).
Proof using Hok.
  intros HI Hi Hrx Hph Hsl Hcl Hh Ht Hn -> Hlim V1.
  destruct (open_sender sh Hok _ _ _ _ _ _ _ _ _ HI Hi Hrx Hph) as (HM & Hli & Hfr & Hfd & Hlen).
  destruct (sender_entry sh _ _ _ _ _ _ _ _ _ HI Hi Hrx) as (Hc & Hs & Hl).
  pose proof (mi_glob _ _ _ _ _ HI) as HG.
  destruct (read_view_grows (senders sh) t AcqRel x V) as [Hg1 Hg2]. fold V1 in Hg1, Hg2.
  destruct (write_view_grows (senders sh) (S t) V1) as [Hg3 Hg4].
  set (V' := write_view _ _ V1) in *. set (m' := add_msg _ _ _ m).
  assert (Hsame : ∀ l, l ≠ senders sh → hist m' !! l = hist m !! l) by (intros; by apply hist_add_other).
  assert (i ∉ cloning G) as Hic by (intros Hin%(lc_cloning _ _ _ _ _ Hc); done).
  pose proof (mi_len _ _ _ _ _ HI). pose proof (returns_in_le Γ). pose proof (mi_calls _ _ _ _ _ HI).
  assert (Hcount : (size (live G) ≤ length Γ)%nat ∧ (size (cloning G) ≤ length Γ)%nat).
  { pose proof (go_live _ _ _ _ HG). pose proof (go_cloning _ _ _ _ HG).
    split; apply size_below; intros j Hj; apply (go_holding _ _ _ _ HG); set_solver. }
  pose proof (size_remove _ _ Hli) as Hsz.
  eapply step_inv; [exact HI|exact Hi| |..].
  - evolve; [apply tk_same|set_solver..].
  - destruct HG. split; simpl; block_there; try done.
    + intros q tk Hq. destruct (go_unpub q tk Hq) as [|Hin]; [by left|].
      destruct (decide (tby tk = i)) as [Hb|Hb]; [left|right; set_solver].
      pose proof (ls_slot _ _ _ _ Hs) as Hslot. simpl in Hslot. rewrite Hsl in Hslot. by eapply Hslot.
    + set_solver.
    + set_solver.
    + set_solver.
    + intros _. destruct HM. split; simpl;
        try (eapply (has_same sh Hok); [by apply Hsame| |done]; by intros h0).
      * intros k Hk. eapply (has_same sh Hok); [by apply Hsame| |by apply mo_round]. by intros h0.
      * destruct mo_senders as (h' & Hh' & n & y & Hd & Hy & Hv & Hcov & Hz). rewrite Hh in Hh'. injection Hh' as <-.
        pose proof (chain_last _ _ _ _ Hd Ht Hn) as ->. rewrite Ht in Hy. injection Hy as <-.
        eexists. split; [by apply hist_add_same|]. exists (S n). eexists. rewrite lookup_insert_eq.
        split_and!; [by apply chain_next|done|..]; simpl.
        -- rewrite Hv. rewrite wrap_small; [lia|]. unfold is_usize, usize_max in *. lia.
        -- intros q tk Hq Hnot. simpl in Hq. destruct (decide (tby tk = i)) as [Hb|Hb].
           ++ eapply covered_mono; [by apply (ls_own _ _ _ _ Hs)|]. simpl. etrans; [exact Hg1|].
              etrans; [apply vle_set|apply vle_join_r].
           ++ eapply covered_mono; [apply (Hcov _ _ Hq); set_solver|apply vle_join_l].
        -- intros t' y [[<- <-]|[_ Hy']]%lookup_insert_Some Hzero; [done|].
           pose proof (Hz _ _ Hy' Hzero) as ->. rewrite Ht in Hy'. injection Hy' as <-. lia.
      * eapply (has_same sh Hok); [by apply Hsame| |done]. intros h0. exact (strong_ok_head sh Hok G m m' h0 (Hsame (head sh) ltac:(done))).
      * by rewrite Hsame.
      * by rewrite Hsame.
      * exact mo_cells.
  - assert (hist m' !! head sh = hist m !! head sh) as Hhd by (by apply Hsame).
    assert (vle (cur V) (cur V') ∧ vle (acq V) (acq V')) as [Hg5 Hg6] by (split; by etrans).
    apply sender_local; [done| | |].
    + destruct (common_grown sh Hok _ m m' _ _ _ _ _ V' c tr Hhd Hg5 Hg6 Hc) as [].
      simpl in *. rewrite Hph in *. split; simpl; try done; try (intros; congruence).
      * rewrite lc_hold. split; [intros _; by right|intros _; by left].
      * split; [set_solver|]. intros [_ ?]; done.
      * split; [done|]. intros Hf. by apply lc_freer in Hf.
    + destruct (sender_grown sh Hok _ _ _ _ _ _ V' c tr Hg5 Hs) as []. simpl in *. rewrite Hsl in *. split; simpl; try done.
      by rewrite Hsl.
    + done.
Qed.
(** ** Cloning a sender *)

(** Moving only the two counts. *)
Lemma mem_ok_counts G G' m m' :
  tickets G' = tickets G → npop G' = npop G → npub G' = npub G → nleft G' = nleft G → rx_open G' = rx_open G →
  (∀ l, l ≠ senders sh → l ≠ strong sh → hist m' !! l = hist m !! l) → mcells m' = mcells m →
  mem_ok sh G m → has m' (senders sh) (senders_ok sh G') → has m' (strong sh) (strong_ok sh G' m') →
  mem_ok sh G' m'.
Proof using Hok.
  destruct G, G'. simpl. intros -> -> -> -> -> Hsame Hce [] Hsn Hst.
  split; simpl in *; try (eapply (has_same sh Hok); [by apply Hsame| |done]; by intros h0); try done.
  - intros k Hk. eapply (has_same sh Hok); [by apply Hsame| |by apply mo_round]. by intros h0.
  - by rewrite Hsame.
  - by rewrite Hsame.
  - by rewrite Hce.
Qed.

(** Both counts stay far below the width of a [usize]. *)
Lemma counts_small G Γ m :
  Inv G Γ m →
  Z.of_nat (size (live G) + size (cloning G)) ≤ 2 * (limit + 2) ∧
  Z.of_nat (size (holding G) + size (cloned G)) ≤ 2 * (limit + 2).
Proof using Hok.
  intros HI. pose proof (mi_glob _ _ _ _ _ HI) as HG.
  pose proof (mi_len _ _ _ _ _ HI). pose proof (returns_in_le Γ). pose proof (mi_calls _ _ _ _ _ HI).
  pose proof (go_live _ _ _ _ HG). pose proof (go_cloning _ _ _ _ HG). pose proof (go_cloned _ _ _ _ HG).
  assert (∀ X, X ⊆ holding G → (size X ≤ length Γ)%nat) as Hle.
  { intros X HX. apply size_below. intros j Hj. apply (go_holding _ _ _ _ HG). set_solver. }
  pose proof (Hle (live G) ltac:(done)). pose proof (Hle (cloning G) ltac:(set_solver)).
  pose proof (Hle (holding G) ltac:(done)). pose proof (Hle (cloned G) ltac:(set_solver)). lia.
Qed.

Section cloning.
Context (G : glob T) (Γ : list entry) (m : mem T) (i : tid) (g : ghost T) (V : tview).
Context (tr : list (call T * event T)) (c : option (call T)) (h : gmap nat msg) (t : nat) (x : msg) (f : Z).
Hypothesis HI : Inv G Γ m.
Hypothesis Hi : Γ !! i = Some (Ent g V tr c).
Hypothesis Hrx : i ≠ rx.
Hypothesis Hph : gphase g = Open.
Hypothesis Ht : h !! t = Some x.
Hypothesis Hn : h !! S t = None.
Hypothesis Hf : f = wrap (mval x + 1).
Hypothesis Hlim : 2 * (limit + 2) < usize_max.

Lemma clone_count_inv :
  gclone g = NoClone → hist m !! senders sh = Some h →
  let V1 := read_view (senders sh) t Relaxed x V in
  Inv (set_cloning ({[i]} ∪ cloning G) G)
    (<[i := Ent (with_clone Counted g) (write_view (senders sh) (S t) V1) tr c]> Γ)
    (add_msg (senders sh) (S t) (Msg f (vjoin (mview x) (released (senders sh) (S t) Relaxed V1))) m).
Proof using Hok HI Hi Hrx Hph Ht Hn Hf Hlim.
  intros Hcl Hh V1. destruct (open_sender sh Hok _ _ _ _ _ _ _ _ _ HI Hi Hrx Hph) as (HM & Hli & Hfr & Hfd & Hlen).
  destruct (sender_entry sh _ _ _ _ _ _ _ _ _ HI Hi Hrx) as (Hc & Hs & Hl).
  pose proof (mi_glob _ _ _ _ _ HI) as HG. destruct (counts_small _ _ _ HI) as [Hsmall _].
  destruct (read_view_grows (senders sh) t Relaxed x V) as [Hg1 Hg2]. fold V1 in Hg1, Hg2.
  destruct (write_view_grows (senders sh) (S t) V1) as [Hg3 Hg4].
  set (V' := write_view _ _ V1) in *. set (m' := add_msg _ _ _ m).
  assert (Hsame : ∀ l, l ≠ senders sh → hist m' !! l = hist m !! l) by (intros; by apply hist_add_other).
  assert (i ∉ cloning G) as Hic by (intros Hin%(lc_cloning _ _ _ _ _ Hc); done).
  pose proof (size_add _ _ Hic) as Hsz.
  assert (hist m' !! head sh = hist m !! head sh) as Hhd by (by apply Hsame).
  eapply step_inv; [exact HI|exact Hi|evolve; [apply tk_same|set_solver]|..].
  - destruct HG. split; simpl; block_there; try done; [set_solver..|]. intros _.
    apply (mem_ok_counts G _ m m'); try done.
    + intros l Hl1 _. by apply Hsame.
    + destruct (mo_senders _ _ _ HM) as (h' & Hh' & n & y & Hd & Hy & Hv & Hcov & Hz). rewrite Hh in Hh'. injection Hh' as <-.
      pose proof (chain_last _ _ _ _ Hd Ht Hn) as ->. rewrite Ht in Hy. injection Hy as <-.
      pose proof (size_remove _ _ Hli).
      eexists. split; [by apply hist_add_same|]. exists (S n). eexists. rewrite lookup_insert_eq.
      split_and!; [by apply chain_next|done|..]; simpl.
      * rewrite Hf, Hv, wrap_small; [lia|]. unfold is_usize, usize_max in *. lia.
      * intros q tk Hq Hnot. eapply covered_mono; [by apply (Hcov _ _ Hq)|apply vle_join_l].
      * intros t' y [[<- <-]|[_ Hy']]%lookup_insert_Some Hzero; [done|].
        pose proof (Hz _ _ Hy' Hzero) as ->. rewrite Ht in Hy'. injection Hy' as <-. lia.
    + eapply (has_same sh Hok); [by apply Hsame| |exact (mo_strong _ _ _ HM)].
      intros h0. exact (strong_ok_head sh Hok G m m' h0 Hhd).
  - assert (vle (cur V) (cur V') ∧ vle (acq V) (acq V')) as [Hg5 Hg6] by (split; by etrans).
    apply sender_local; [done| | |done].
    + destruct (common_grown sh Hok _ m m' _ _ _ _ _ V' c tr Hhd Hg5 Hg6 Hc) as [].
      simpl in *. rewrite Hph, Hcl in *. split; simpl; try done; try (intros; congruence); set_solver.
    + destruct (sender_grown sh Hok _ _ _ _ _ _ V' c tr Hg5 Hs). by split.
Qed.

Lemma clone_ref_inv :
  gclone g = Counted → hist m !! strong sh = Some h →
  let V1 := read_view (strong sh) t Relaxed x V in
  mval x ≤ 2 * (limit + 2) ∧
  Inv (set_cloned ({[i]} ∪ cloned G) G)
    (<[i := Ent (with_clone Referenced g) (write_view (strong sh) (S t) V1) tr c]> Γ)
    (add_msg (strong sh) (S t) (Msg f (vjoin (mview x) (released (strong sh) (S t) Relaxed V1))) m).
Proof using Hok HI Hi Hrx Hph Ht Hn Hf Hlim.
  intros Hcl Hh V1. destruct (open_sender sh Hok _ _ _ _ _ _ _ _ _ HI Hi Hrx Hph) as (HM & Hli & Hfr & Hfd & Hlen).
  destruct (sender_entry sh _ _ _ _ _ _ _ _ _ HI Hi Hrx) as (Hc & Hs & Hl).
  pose proof (mi_glob _ _ _ _ _ HI) as HG. destruct (counts_small _ _ _ HI) as [_ Hsmall].
  destruct (read_view_grows (strong sh) t Relaxed x V) as [Hg1 Hg2]. fold V1 in Hg1, Hg2.
  destruct (write_view_grows (strong sh) (S t) V1) as [Hg3 Hg4].
  set (V' := write_view _ _ V1) in *. set (m' := add_msg _ _ _ m).
  assert (Hsame : ∀ l, l ≠ strong sh → hist m' !! l = hist m !! l) by (intros; by apply hist_add_other).
  assert (i ∉ cloned G) as Hic by (intros Hin%(lc_cloned _ _ _ _ _ Hc); simpl in Hin; congruence).
  assert (i ∈ cloning G) as Hicl by (apply (lc_cloning _ _ _ _ _ Hc); simpl; congruence).
  pose proof (size_add _ _ Hic) as Hsz.
  assert (hist m' !! head sh = hist m !! head sh) as Hhd by (by apply Hsame).
  destruct (mo_strong _ _ _ HM) as (h' & Hh' & n & y & Hd & Hy & Hv & Hcov & Hrxc). rewrite Hh in Hh'. injection Hh' as <-.
  pose proof (chain_last _ _ _ _ Hd Ht Hn) as ->. rewrite Ht in Hy. injection Hy as <-.
  split; [lia|].
  eapply step_inv; [exact HI|exact Hi|evolve; [apply tk_same|set_solver]|..].
  - destruct HG. split; simpl; block_there; try done; [set_solver..|]. intros _.
    apply (mem_ok_counts G _ m m'); try done.
    + intros l _ Hl2. by apply Hsame.
    + eapply (has_same sh Hok); [by apply Hsame| |exact (mo_senders _ _ _ HM)]. by intros h0.
    + eexists. split; [by apply hist_add_same|]. exists (S n). eexists. rewrite lookup_insert_eq.
      split_and!; [by apply chain_next|done|..]; simpl.
      * rewrite Hf, Hv, wrap_small; [lia|]. unfold is_usize, usize_max in *. lia.
      * intros q tk Hq Hnot. eapply covered_mono; [by apply (Hcov _ _ Hq)|apply vle_join_l].
      * intros Hno. destruct (Hrxc Hno) as [Hc1 Hc2]. split.
        -- eapply (mp_covers_mono sh G); [exact Hc1|done|apply vle_join_l].
        -- eapply past_same; [exact Hhd|]. eapply past_mono; [exact Hc2|apply vle_join_l].
  - assert (vle (cur V) (cur V') ∧ vle (acq V) (acq V')) as [Hg5 Hg6] by (split; by etrans).
    apply sender_local; [done| | |done].
    + destruct (common_grown sh Hok _ m m' _ _ _ _ _ V' c tr Hhd Hg5 Hg6 Hc) as [].
      simpl in *. rewrite Hph, Hcl in *. split; simpl; try done; try (intros; congruence); set_solver.
    + destruct (sender_grown sh Hok _ _ _ _ _ _ V' c tr Hg5 Hs). by split.
Qed.
End cloning.
End actions.
