(* ===== verification/MpscFree.v ===== *)
(** The end of the MPSC ring: releasing references, and what the last owner
    does to the block. *)
From S2P Require Import Prelude Usize Atomic Errors Wait Notify Ring Queue Mpsc Seq Memory Machine Logic MpscInv MpscProt MpscActs MpscTake MpscDrop.
From S2P Require MpscSeq.
Local Open Scope Z_scope.

Section actions.
Context `{tgt : Target} {T : Type} (sh : Shared).
Hypothesis Hok : MpscSeq.shared_ok sh.
Variable limit : Z.
Abbreviation entry := (ent (ghost T) (call T) (event T)).
Implicit Types (G : glob T) (m : mem T) (W : view) (g : ghost T) (e : entry) (Γ : list entry)
  (tk : ticket T) (q : nat) (i j : tid).

Abbreviation capn := (capn sh).
Abbreviation sl := (sl sh).
Abbreviation cell := (cell sh).
Abbreviation rnd := (rnd sh).
Abbreviation wstamp := (wstamp sh).
Abbreviation rstamp := (rstamp sh).
Abbreviation Inv := (MInv sh limit).

(** ** Releasing a reference *)

Definition released_phase (n : Z) : phase := if n =? 1 then Freeing else Gone.
Definition release_ghost (n : Z) g : ghost T := with_plan None (with_phase (released_phase n) g).
Definition release_glob i (n : Z) G : glob T :=
  let G := set_holding (holding G ∖ {[i]}) G in
  if n =? 1 then set_freer (Some i) G else G.

(** A role's own part does not depend on its own phase, once it is closed. *)
Lemma role_closed G G' m i g V tr c g' :
  (if decide (i = rx) then receiver_ok sh G m (Ent g V tr c) else sender_ok sh G i (Ent g V tr c)) →
  gphase g ≠ Open → gphase g' ≠ Open →
  tickets G' = tickets G → npop G' = npop G → npub G' = npub G → rx_open G' = rx_open G → live G' = live G →
  vals g' = vals g → seen g' = seen g → slot g' = slot g → gpub g' = gpub g → ready g' = ready g →
  gknow g' = gknow g → gdone g' = gdone g →
  if decide (i = rx) then receiver_ok sh G' m (Ent g' V tr c) else sender_ok sh G' i (Ent g' V tr c).
Proof using Type.
  destruct G, G', g, g'. simpl. intros Hr Hp Hp' -> -> -> -> -> -> -> -> -> -> -> ->.
  case_decide; destruct Hr; split; simpl in *; try done.
  - split; intros Ho; [done|]. by apply lr_open in Ho.
  - destruct slot as [[[q v] w]|]; [by destruct ls_slot|done].
Qed.

(** Who lets go last is past everything. *)
Lemma last_knows G Γ m i g V tr c x :
  Inv G Γ m → Γ !! i = Some (Ent g V tr c) → gphase g = Closed →
  holding G ⊆ {[i]} →
  covers_by sh (.∉ holding G) G (mview x) →
  (rx ∉ holding G → covers sh G (npop G) (mview x) ∧ past m (head sh) (mview x)) →
  ∀ W, vle (cur V) W → vle (mview x) W → knows_all sh G m W.
Proof using Hok.
  intros HI Hi Hph Hh Hcov Hrxc W HW Hx. destruct (mi_local _ _ _ _ _ HI _ _ Hi) as [Hc Hr _].
  pose proof (mi_glob _ _ _ _ _ HI) as HG. split.
  - intros q tk Hq _. destruct (decide (tby tk = i)) as [Hb|Hb].
    + rewrite decide_False in Hr by (rewrite <-Hb; by apply (go_by _ _ _ _ HG _ _ Hq)).
      eapply covered_mono; [by apply (ls_own _ _ _ _ Hr)|done].
    + eapply covered_mono; [apply (Hcov _ _ Hq); set_solver|done].
  - destruct (decide (i = rx)) as [->|Hrx].
    + destruct Hr. split; [by eapply mp_covers_mono|by eapply past_mono].
    + destruct Hrxc as [H1 H2]; [set_solver|]. split; [by eapply mp_covers_mono|by eapply past_mono].
Qed.

Lemma knows_all_moved G G' m m' W :
  tickets G' = tickets G → npop G' = npop G → kept m m' (head sh) →
  knows_all sh G m W → knows_all sh G' m' W.
Proof using Type.
  destruct G, G'. simpl. intros -> -> Hk (H1 & H2 & H3). split_and!; [done|done|by eapply past_kept].
Qed.

Lemma release_ref_inv G Γ m i g V tr c h t x f :
  Inv G Γ m → Γ !! i = Some (Ent g V tr c) → gphase g = Closed →
  hist m !! strong sh = Some h → h !! t = Some x → h !! S t = None → f = wrap (mval x - 1) →
  2 * (limit + 2) < usize_max →
  let V1 := read_view (strong sh) t Release x V in
  Inv (release_glob i (mval x) G)
    (<[i := Ent (release_ghost (mval x) g) (write_view (strong sh) (S t) V1) tr c]> Γ)
    (add_msg (strong sh) (S t) (Msg f (vjoin (mview x) (released (strong sh) (S t) Release V1))) m).
Proof using Hok.
  intros HI Hi Hph Hh Ht Hn -> Hlim V1.
  assert (gphase g ≠ Gone) as Hng by (by rewrite Hph).
  destruct (actor sh Hok _ _ _ _ _ _ _ _ _ HI Hi Hng) as (Hfd & HM & _ & Hfr).
  specialize (Hfr ltac:(by rewrite Hph)). pose proof (mi_glob _ _ _ _ _ HI) as HG.
  destruct (counts_small sh Hok _ _ _ _ HI) as [_ Hsmall].
  destruct (mi_local _ _ _ _ _ HI _ _ Hi) as [Hc Hr Hl].
  destruct (read_view_grows (strong sh) t Release x V) as [Hg1 Hg2]. fold V1 in Hg1, Hg2.
  destruct (write_view_grows (strong sh) (S t) V1) as [Hg3 Hg4].
  set (V' := write_view _ _ V1) in *. set (m' := add_msg _ _ _ m).
  assert (Hsame : ∀ l, l ≠ strong sh → hist m' !! l = hist m !! l) by (intros; by apply hist_add_other).
  assert (hist m' !! head sh = hist m !! head sh) as Hhd by (by apply Hsame).
  destruct (mo_strong _ _ _ HM) as (h' & Hh' & n & y & Hd & Hy & Hv & Hcov & Hrxc). rewrite Hh in Hh'. injection Hh' as <-.
  pose proof (chain_last _ _ _ _ Hd Ht Hn) as ->. rewrite Ht in Hy. injection Hy as <-.
  assert (i ∈ holding G) as Hin by (apply (lc_hold _ _ _ _ _ Hc); by right).
  assert (i ∉ live G) as Hnl by (intros [_ ?]%(lc_live _ _ _ _ _ Hc); simpl in *; congruence).
  pose proof (size_remove _ _ Hin) as Hsz.
  assert (vle (cur V) (cur V') ∧ vle (acq V) (acq V')) as [Hg5 Hg6] by (split; by etrans).
  set (W' := vjoin (mview x) (released (strong sh) (S n) Release V1)).
  assert (vle (cur V) W') as HW1 by (etrans; [exact Hg1|]; etrans; [apply vle_set|apply vle_join_r]).
  assert (Hlast : mval x = 1 → holding G = {[i]}).
  { intros Hone. apply size_last; [done|lia]. }
  set (G' := release_glob i (mval x) G).
  assert (HG' : tickets G' = tickets G ∧ npop G' = npop G ∧ npub G' = npub G ∧ nleft G' = nleft G ∧
    rx_open G' = rx_open G ∧ live G' = live G ∧ cloning G' = cloning G ∧ cloned G' = cloned G ∧
    holding G' = holding G ∖ {[i]} ∧ freed G' = freed G ∧ freer G' = if mval x =? 1 then Some i else None).
  { unfold G', release_glob. destruct (mval x =? 1); by split_and!. }
  destruct HG' as (E1 & E2 & E3 & E4 & E5 & E6 & E7 & E8 & E9 & E10 & E11).
  assert (HM' : mem_ok sh G' m').
  { apply (mem_ok_counts sh Hok G G' m m'); try done.
    - intros l _ Hl2. by apply Hsame.
    - eapply (has_same sh Hok); [by apply Hsame| |exact (mo_senders _ _ _ HM)]. unfold G', release_glob. by destruct (mval x =? 1).
    - eexists. split; [by apply hist_add_same|]. exists (S n). eexists. rewrite lookup_insert_eq.
      split_and!; [by apply chain_next|done|..]; cbn [mval mview]; rewrite ?E8, ?E9.
      + rewrite Hv, wrap_small; [lia|]. unfold is_usize, usize_max in *. lia.
      + intros q tk Hq Hnot. rewrite E1 in Hq. destruct (decide (tby tk = i)) as [Hb|Hb].
        * rewrite decide_False in Hr by (rewrite <-Hb; by apply (go_by _ _ _ _ HG _ _ Hq)).
          eapply covered_mono; [by apply (ls_own _ _ _ _ Hr)|exact HW1].
        * eapply covered_mono; [apply (Hcov _ _ Hq); set_solver|apply vle_join_l].
      + intros Hnot. assert (covers sh G (npop G) W' ∧ past m (head sh) W') as [H1 H2].
        { destruct (decide (i = rx)) as [->|Hrx].
          - destruct Hr. split; [by eapply mp_covers_mono|by eapply past_mono].
          - destruct Hrxc as [H1 H2]; [set_solver|].
            split; [eapply mp_covers_mono; [exact H1|done|apply vle_join_l]|eapply past_mono; [exact H2|apply vle_join_l]]. }
        split; [|by eapply past_same]. unfold covers. rewrite E1, E2. exact H1. }
  eapply step_inv; [exact HI|exact Hi| |..].
  - split; rewrite ?E1, ?E2, ?E3, ?E4, ?E5, ?E6, ?E7, ?E8, ?E9, ?E10, ?E11; auto.
    + apply tk_same.
    + intros j. apply elem_remove_ne.
    + intros _. by split_and!; [..|apply kept_same].
    + intros j Hj. rewrite Hfr. case_match; [|done]. split; [intros [= ->]; done|done].
  - destruct HG. split; unfold ntk in *; rewrite ?E1, ?E2, ?E3, ?E4, ?E5, ?E6, ?E7, ?E8, ?E9, ?E10, ?E11; block_there; try done.
    + intros _ _. auto.
    + by apply subset_remove.
    + intros j [Hj _]%elem_of_difference. auto.
    + intros j. destruct (Z.eqb_spec (mval x) 1) as [Hone|]; [|done]. intros _. rewrite (Hlast Hone). by apply difference_diag_L.
    + intros j. destruct (mval x =? 1); [|done]. intros [= <-]. by eapply lookup_lt_Some.
    + congruence.
    + intros Hnil. right. assert (size (holding G) = 1%nat ∧ cloned G = ∅) as [Hs1 Hc0].
      { rewrite Hsz, Hnil. split; [done|]. apply set_eq. intros j. split; [|set_solver +].
        intros Hj%go_cloned%go_cloning. assert (j ∈ holding G ∖ {[i]}) as Hj'.
        { apply elem_of_difference. split; [by apply go_live|]. intros ->%elem_of_singleton. done. }
        by rewrite Hnil in Hj'. }
      rewrite Hc0, size_empty, Hs1 in Hv. rewrite (proj2 (Z.eqb_eq _ _)) by lia. done.
  - split.
    + destruct (common_grown sh Hok _ m m' _ _ _ _ _ V' c tr Hhd Hg5 Hg6 Hc) as [].
      assert (Hfree : released_phase (mval x) = Freeing ↔ mval x = 1).
      { unfold released_phase. by destruct (Z.eqb_spec (mval x) 1). }
      assert (released_phase (mval x) ≠ Open ∧ released_phase (mval x) ≠ Closed) as [Hno Hnc].
      { unfold released_phase. by destruct (Z.eqb_spec (mval x) 1). }
      simpl in *. split; simpl; rewrite ?E6, ?E7, ?E8, ?E9, ?E10, ?E11; try done.
      * split; [intros [_ Hni]%elem_of_difference; by destruct Hni; apply elem_of_singleton|]. by intros [].
      * split; [done|]. by intros [_ ?].
      * rewrite Hfree. destruct (Z.eqb_spec (mval x) 1); by split.
      * intros Hone%Hfree. eapply (knows_all_moved G); [done|done|by apply kept_same|].
        eapply (last_knows G Γ m); [exact HI|exact Hi|done|by rewrite (Hlast Hone)|done|done| |].
        -- etrans; [exact Hg5|apply vle_join_l].
        -- etrans; [|apply vle_join_r]. etrans; [|exact Hg4]. apply vle_join_r.
      * intros _ _. rewrite E2, E4. by apply (go_keep _ _ _ _ HG).
    + eapply (role_closed G G' m' i g V'); try done.
      * case_decide; [by eapply (receiver_grown sh Hok)|by eapply (sender_grown sh Hok)].
      * by rewrite Hph.
      * simpl. unfold released_phase. by destruct (mval x =? 1).
    + exact Hl.
Qed.
(** ** The last owner *)

(** Nobody else is left. *)
Lemma freer_alone G Γ m i g V tr c :
  Inv G Γ m → Γ !! i = Some (Ent g V tr c) → gphase g = Freeing →
  mem_ok sh G m ∧ freer G = Some i ∧ freed G = false ∧ holding G = ∅ ∧ live G = ∅ ∧
  npub G = npop G ∧ ∀ q tk, tickets G !! q = Some tk → published tk.
Proof using Hok.
  intros HI Hi Hph. assert (gphase g ≠ Gone) as Hng by (by rewrite Hph).
  destruct (actor sh Hok _ _ _ _ _ _ _ _ _ HI Hi Hng) as (Hfd & HM & _ & _).
  destruct (mi_local _ _ _ _ _ HI _ _ Hi) as [Hc _ _]. pose proof (mi_glob _ _ _ _ _ HI) as HG.
  assert (freer G = Some i) as Hfr by (by apply (lc_freer _ _ _ _ _ Hc)).
  pose proof (go_freer _ _ _ _ HG _ Hfr) as Hh.
  assert (live G = ∅) as Hl by (pose proof (go_live _ _ _ _ HG) as Hlv; rewrite Hh in Hlv; set_solver).
  assert (npub G = npop G).
  { apply (go_closed _ _ _ _ HG). destruct (rx_open G) eqn:Ho; [|done].
    destruct (lookup_lt_is_Some_2 Γ rx (mi_rx _ _ _ _ _ HI)) as [[g1 V1 tr1 c1] He].
    destruct (mi_local _ _ _ _ _ HI _ _ He) as [Hc1 Hr1 _]. rewrite decide_True in Hr1 by done.
    apply (lr_open _ _ _ _ Hr1) in Ho. assert (rx ∈ holding G) as Hin by (apply (lc_hold _ _ _ _ _ Hc1); by left).
    rewrite Hh in Hin. set_solver. }
  split_and!; try done. intros q tk Hq. destruct (go_unpub _ _ _ _ HG _ _ Hq) as [|Hin]; [done|].
  rewrite Hl in Hin. set_solver.
Qed.

(** The acquire fence of the last release: where the rest of the log is. *)
Lemma last_fence_inv G Γ m i g V tr c :
  Inv G Γ m → Γ !! i = Some (Ent g V tr c) → gphase g = Freeing → plan g = None →
  ∃ p n : nat, (p ≤ n)%nat ∧ Z.of_nat n ≤ usize_max ∧ (n ≤ p + capn)%nat ∧
  Inv G (<[i := Ent (with_plan (Some (p, p, n)) g) (acquire_fence V) tr c]> Γ) m.
Proof using Hok.
  intros HI Hi Hph Hpl. destruct (freer_alone _ _ _ _ _ _ _ _ HI Hi Hph) as (HM & Hfr & Hfd & Hh & Hl & Hpub & Hall).
  pose proof (mi_glob _ _ _ _ _ HI) as HG. pose proof (go_pub _ _ _ _ HG). pose proof (go_left _ _ _ _ HG).
  pose proof (go_max _ _ _ _ HG). pose proof (go_room _ _ _ _ HG).
  destruct (mi_local _ _ _ _ _ HI _ _ Hi) as [Hc Hr Hlog].
  pose proof (lc_start _ _ _ _ _ Hc Hph Hpl) as Hst. pose proof (lc_all _ _ _ _ _ Hc Hph) as Hka. simpl in Hka.
  exists (npop G), (ntk G). split_and!; [lia|lia|lia|].
  assert (vle (cur V) (cur (acquire_fence V)) ∧ vle (acq V) (acq (acquire_fence V))) as [Hg1 Hg2].
  { split; [apply vle_join_l|done]. }
  eapply (learn_inv sh Hok); try done; [by rewrite Hph|].
  destruct (local_grown sh Hok _ m m _ _ _ _ _ (acquire_fence V) eq_refl Hg1 Hg2
    (mi_local _ _ _ _ _ HI _ _ Hi)) as [[] Hr' _]. split.
  - split; simpl in *; try done. intros p d n _ [= <- <- <-]. by split_and!.
  - eapply (role_closed G G m i g); try done; simpl; by rewrite Hph.
  - done.
Qed.

(** Its loads find the newest stores. *)
Lemma load_left_inv G Γ m i g V tr c p d n h t x :
  Inv G Γ m → Γ !! i = Some (Ent g V tr c) → gphase g = Freeing → plan g = Some (p, d, n) →
  hist m !! head sh = Some h → h !! t = Some x → (vw (cur V) (head sh) ≤ t)%nat →
  mval x = Z.of_nat p.
Proof using Hok.
  intros HI Hi Hph Hpl Hh Ht Hle. destruct (freer_alone _ _ _ _ _ _ _ _ HI Hi Hph) as (HM & _ & _ & _ & _ & Hpub & _).
  destruct (mi_local _ _ _ _ _ HI _ _ Hi) as [Hc _ _].
  destruct (lc_plan _ _ _ _ _ Hc _ _ _ Hph Hpl) as (-> & _ & _ & _ & _ & Hpast).
  destruct (mo_head _ _ _ HM) as (h' & Hh' & _ & t0 & x0 & Hx0 & Hv0 & Hmax). rewrite Hh in Hh'. injection Hh' as <-.
  pose proof (Hpast h Hh t0 (mk_is_Some _ _ Hx0)) as H0. simpl in H0. pose proof (Hmax t (mk_is_Some _ _ Ht)).
  assert (t = t0) as -> by lia. congruence.
Qed.

Lemma round_left_inv G Γ m i g V tr c p d n h t x :
  Inv G Γ m → Γ !! i = Some (Ent g V tr c) → gphase g = Freeing → plan g = Some (p, d, n) →
  hist m !! rnd d = Some h → h !! t = Some x → (vw (cur V) (rnd d) ≤ t)%nat →
  (mval x =? round_of sh (Z.of_nat d)) = bool_decide (d < n)%nat.
Proof using Hok.
  intros HI Hi Hph Hpl Hh Ht Hle. destruct (freer_alone _ _ _ _ _ _ _ _ HI Hi Hph) as (HM & _ & _ & _ & _ & Hpub & Hall).
  destruct (mi_local _ _ _ _ _ HI _ _ Hi) as [Hc _ _]. pose proof (mi_glob _ _ _ _ _ HI) as HG.
  destruct (lc_plan _ _ _ _ _ Hc _ _ _ Hph Hpl) as (-> & -> & -> & Hcov & Hpop & Hpast). simpl in *.
  destruct (mo_round _ _ _ HM (sl (nleft G)) (sl_lt sh Hok _)) as (h' & Hh' & Hro).
  fold (rnd (nleft G)) in Hh'. rewrite Hh in Hh'. injection Hh' as <-. pose proof (go_left _ _ _ _ HG).
  destruct (round_read sh Hok G (length Γ) m (cur V) (nleft G) h t x HG Hro Ht Hle) as [Hyes Hno]; [lia| | |].
  - intros q tk t' _ Hq Ht'. pose proof (Hcov _ _ Hq I) as Hcv. unfold covered in Hcv. rewrite Ht' in Hcv. lia.
  - intros q Hq. destruct (lookup_lt_is_Some_2 (tickets G) q) as [tk Htk]; [unfold ntk in *; lia|]. eauto.
  - case_bool_decide as Hlt.
    + apply Z.eqb_eq. destruct (lookup_lt_is_Some_2 (tickets G) (nleft G)) as [tk Htk]; [unfold ntk in *; lia|].
      destruct (Hall _ _ Htk) as [t' Ht']. eapply Hno; [done|done|].
      pose proof (Hcov _ _ Htk I) as Hcv. unfold covered in Hcv. rewrite Ht' in Hcv. lia.
    + apply Z.eqb_neq. intros Heq. destruct (Hyes Heq) as (tk & Hq & _). apply lookup_lt_Some in Hq. unfold ntk in *. lia.
Qed.

Lemma drop_left_inv G Γ m i g V tr c p d n :
  Inv G Γ m → Γ !! i = Some (Ent g V tr c) → gphase g = Freeing → plan g = Some (p, d, n) → (d < n)%nat →
  ∃ v, mcells m !! cell d = Some (wstamp d, Some v) ∧ (wstamp d ≤ vw (cur V) (cell d))%nat ∧
  Inv (set_nleft (S d) G)
    (<[i := Ent (with_plan (Some (p, S d, n)) g) (write_view (cell d) (rstamp d) V) tr c]> Γ)
    (add_mdropped v (set_mcells <[cell d := (rstamp d, None)]> m)).
Proof using Hok.
  intros HI Hi Hph Hpl Hlt.
  destruct (freer_alone _ _ _ _ _ _ _ _ HI Hi Hph) as (HM & Hfr & Hfd & Hh & Hl & Hpub & Hall).
  destruct (mi_local _ _ _ _ _ HI _ _ Hi) as [Hc Hr Hlog]. pose proof (mi_glob _ _ _ _ _ HI) as HG.
  destruct (lc_plan _ _ _ _ _ Hc _ _ _ Hph Hpl) as (-> & -> & -> & Hka). simpl in Hka.
  pose proof Hka as (Hcov & Hpop & Hpast). pose proof (go_left _ _ _ _ HG). pose proof (go_pub _ _ _ _ HG).
  destruct (lookup_lt_is_Some_2 (tickets G) (nleft G)) as [tk Htk]; [unfold ntk in *; lia|].
  destruct (Hall _ _ Htk) as [t Hst]. pose proof (Hcov _ _ Htk I) as Hcv. unfold covered in Hcv. rewrite Hst in Hcv.
  assert (mcells m !! cell (nleft G) = Some (wstamp (nleft G), Some (tval tk))) as Hcell.
  { rewrite (proj1 (mo_cells _ _ _ HM) (nleft G) _ ltac:(lia) Htk). by rewrite Hst. }
  exists (tval tk). split_and!; [done|lia|].
  destruct (write_view_grows (cell (nleft G)) (rstamp (nleft G)) V) as [Hg1 Hg2].
  set (V' := write_view _ _ V) in *. set (m' := add_mdropped _ _).
  eapply step_inv; [exact HI|exact Hi|evolve; apply tk_same|..].
  - destruct HG. split; simpl; unfold ntk in *; simpl; block_there; try done; try lia.
    + eauto.
    + congruence.
    + rewrite go_dropped. replace (S (nleft G) - npop G)%nat with (S (nleft G - npop G)) by lia.
      rewrite (take_S_r _ _ tk); [by rewrite fmap_app|]. rewrite lookup_drop. rewrite <-Htk. f_equal. lia.
    + congruence.
    + intros _. destruct HM. split; try done.
      eapply cells_taken; [exact Hok|by apply HI|done|unfold ntk; lia|done..].
  - split.
    + destruct (common_grown sh Hok _ m m' _ _ _ _ _ V' c tr eq_refl Hg1 Hg2 Hc) as [].
      simpl in *. split; simpl; try done. intros p d n _ [= <- <- <-]. split_and!; try done.
      by apply (knows_all_mono sh G m (cur V)).
    + eapply (role_closed G _ m' i g V'); try done; simpl; try by rewrite Hph.
      case_decide; [by eapply (receiver_grown sh Hok _ m)|by eapply (sender_grown sh Hok)].
    + exact Hlog.
Qed.

(** Nothing left: the block goes. *)
Lemma free_inv G Γ m i g V tr c p n :
  Inv G Γ m → Γ !! i = Some (Ent g V tr c) → gphase g = Freeing → plan g = Some (p, n, n) →
  Inv (set_freed true (set_freer None G)) (<[i := Ent (with_phase Gone g) V tr c]> Γ) (mfree (sh_ring sh) m).
Proof using Hok.
  intros HI Hi Hph Hpl.
  destruct (freer_alone _ _ _ _ _ _ _ _ HI Hi Hph) as (HM & Hfr & Hfd & Hh & Hl & Hpub & Hall).
  destruct (mi_local _ _ _ _ _ HI _ _ Hi) as [Hc Hr Hlog]. pose proof (mi_glob _ _ _ _ _ HI) as HG.
  destruct (lc_plan _ _ _ _ _ Hc _ _ _ Hph Hpl) as (-> & Heq & -> & Hka).
  assert (∀ l, kept m (mfree (sh_ring sh) m) l) as Hkept.
  { intros l h. simpl. by intros [? _]%map_lookup_filter_Some. }
  eapply step_inv; [exact HI|exact Hi| |..].
  - split; simpl; auto; [apply tk_same|]. intros j Hj. rewrite Hfr. split; [done|]. intros [= ->]. done.
  - destruct HG. split; simpl; try done; [by left|]. intros _ f. exact (free_gone _ m f).
  - split.
    + destruct Hc. simpl in *. rewrite Hph in *. split; simpl; try done; intuition congruence.
    + assert (if decide (i = rx) then receiver_ok sh G (mfree (sh_ring sh) m) (Ent g V tr c) else sender_ok sh G i (Ent g V tr c)) as Hr'.
      { case_decide; [|done]. destruct Hr. split; try done. by eapply past_kept. }
      eapply (role_closed G _ _ i g); try done; simpl; by rewrite Hph.
    + exact Hlog.
Qed.
End actions.
