(* ===== verification/MpscCalls.v ===== *)
(** Calls of the MPSC ring's clients: what starting a call, returning from it
    and handing a cloned sender to a new thread do to the invariant. *)
From S2P Require Import Prelude Usize Atomic Errors Wait Notify Ring Queue Mpsc Seq Memory Machine Logic MpscInv MpscProt MpscActs MpscTake MpscDrop.
From S2P Require MpscSeq.
Local Open Scope Z_scope.

Section calls.
Context `{tgt : Target} {T : Type} (sh : Shared).
Hypothesis Hok : MpscSeq.shared_ok sh.
Variable limit : Z.
Abbreviation entry := (ent (ghost T) (call T) (event T)).
Implicit Types (G : glob T) (m : mem T) (W : view) (g : ghost T) (e : entry) (Γ : list entry)
  (tk : ticket T) (q : nat) (i j : tid).
Abbreviation Inv := (MInv sh limit).

(** Only the log of one thread changes. *)
Lemma log_inv G Γ m i g V tr c tr' c' :
  Inv G Γ m → Γ !! i = Some (Ent g V tr c) → log_ok i (Ent g V tr' c') →
  calls_in (<[i := Ent g V tr' c']> Γ) ≤ limit → (length tr ≤ length tr')%nat →
  Inv G (<[i := Ent g V tr' c']> Γ) m.
Proof using Type.
  intros [HG Hloc Hrx Hcalls Hlen] Hi Hlog Hle Htr. split.
  - by rewrite length_insert.
  - intros j e [(<- & <- & _)|[_ Hj]]%list_lookup_insert_Some; [|auto].
    destruct (Hloc _ _ Hi) as [Hc Hr _]. split; [by destruct Hc| |done].
    case_decide; by destruct Hr.
  - by rewrite length_insert.
  - done.
  - rewrite length_insert, (returns_in_insert _ _ _ _ Hi). simpl. lia.
Qed.

Lemma call_inv G Γ m i g V tr c :
  Inv G Γ m → Γ !! i = Some (Ent g V tr None) → calls_in Γ < limit →
  Inv G (<[i := Ent g V tr (Some c)]> Γ) m.
Proof using Type.
  intros HI Hi Hlt. eapply log_inv; [exact HI|exact Hi| | |done].
  - pose proof (lo_log _ _ _ _ _ (mi_local _ _ _ _ _ HI _ _ Hi)) as Hl. unfold log_ok in *. simpl in *.
    case_decide; destruct Hl as [-> ?]; (split; [|done]); [done|]. split; [done|by apply prefix_app_r].
  - rewrite (calls_in_insert _ _ _ _ Hi). unfold weight. simpl. lia.
Qed.

(** What a returning call leaves in the log. *)
Definition done_log i (tr : list (call T * event T)) (x : call T * event T) g : Prop :=
  if decide (i = rx) then vals g = received (tr ++ [x]) ∧ (saw_disconnect x = true → gdone g = true)
  else vals g = accepted (tr ++ [x]) ∧ (saw_disconnect x = true → gknow g = true).

Lemma reports_snoc (tr : list (call T * event T)) x :
  existsb saw_disconnect (tr ++ [x]) = true → existsb saw_disconnect tr = true ∨ saw_disconnect x = true.
Proof using Type. rewrite existsb_app. simpl. rewrite orb_false_r. by intros ?%orb_true_iff. Qed.

Lemma log_snoc i g V tr c o :
  log_ok i (Ent g V tr (Some c)) → done_log i tr (c, o) g → log_ok i (Ent g V (tr ++ [(c, o)]) None).
Proof using Type.
  unfold log_ok, done_log. simpl. case_decide; intros [_ Hs] [-> Hd]; (split; [done|]);
    intros [?|?]%reports_snoc; auto.
Qed.

Lemma return_call_inv G Γ m i g V tr c o :
  Inv G Γ m → Γ !! i = Some (Ent g V tr (Some c)) → done_log i tr (c, o) g →
  Inv G (<[i := Ent g V (tr ++ [(c, o)]) None]> Γ) m.
Proof using Type.
  intros HI Hi Hlog. pose proof (mi_calls _ _ _ _ _ HI). eapply log_inv; [exact HI|exact Hi| | |].
  - apply log_snoc; [|done]. by apply (mi_local _ _ _ _ _ HI).
  - rewrite (calls_in_insert _ _ _ _ Hi). unfold weight. simpl. rewrite length_app. simpl. lia.
  - rewrite length_app. lia.
Qed.

(** ** A cloned sender goes to a new thread *)

Definition new_ghost : ghost T := Ghost Open [] 0 None NoClone 0 false false false None.
Definition spawn_glob i j G : glob T :=
  set_live ({[j]} ∪ live G) (set_holding ({[j]} ∪ holding G)
    (set_cloning (cloning G ∖ {[i]}) (set_cloned (cloned G ∖ {[i]}) G))).

Lemma sizes_swap (X Y : gset nat) i j :
  i ∈ Y → j ∉ X → (size ({[j]} ∪ X) + size (Y ∖ {[i]}) = size X + size Y)%nat.
Proof using Type. intros Hi Hj. rewrite (size_add _ _ Hj), (size_remove _ _ Hi). lia. Qed.

Lemma spawn_mem G m i j :
  mem_ok sh G m → i ∈ cloning G → i ∈ cloned G → j ∉ live G → j ∉ holding G → j ≠ rx →
  mem_ok sh (spawn_glob i j G) m.
Proof using Hok.
  intros HM Hi Hi' Hj Hj' Hjrx. apply (mem_ok_counts sh Hok G _ m m); try done.
  - destruct (mo_senders _ _ _ HM) as (h & Hh & n & x & H1 & H2 & H3 & H4 & H5). exists h. split; [done|].
    exists n, x. simpl. rewrite (sizes_swap _ _ _ _ Hi Hj). split_and!; try done.
    intros q tk Hq Hn. apply (H4 _ _ Hq). set_solver +Hn.
  - destruct (mo_strong _ _ _ HM) as (h & Hh & n & x & H1 & H2 & H3 & H4 & H5). exists h. split; [done|].
    exists n, x. simpl. rewrite (sizes_swap _ _ _ _ Hi' Hj'). split_and!; try done.
    + intros q tk Hq Hn. apply (H4 _ _ Hq). set_solver +Hn.
    + intros Hn. apply H5. set_solver +Hn.
Qed.

Lemma new_local G m j V :
  (∀ q tk, tickets G !! q = Some tk → tby tk ≠ j) → freer G = None → freed G = false → j ≠ rx →
  j ∈ live G → j ∈ holding G → j ∉ cloning G → j ∉ cloned G →
  local_ok sh G m j (Ent new_ghost V [] None).
Proof using Type.
  intros Hno Hfr Hfd Hj Hl Hh Hc Hc'. apply (sender_local sh G m j); [done|..].
  - split; simpl; try done; intuition congruence.
  - split; simpl; try done.
    + assert (filter (λ tk, tby tk = j) (tickets G) = []) as ->; [|done].
      apply elem_of_nil_inv. intros tk [Hb [q Hq]%list_elem_of_lookup]%list_elem_of_filter. by eapply Hno.
    + split; [lia|]. intros q Hq. lia.
    + intros q tk Hq Hb. by destruct (Hno q tk).
    + intros q tk Hq Hb. by destruct (Hno q tk).
  - unfold log_ok. by rewrite decide_False.
Qed.

(** The threads that are not concerned. *)
Lemma spawn_others G m i j k e :
  i ∈ live G → k ≠ i → k ≠ j → j ≠ rx → local_ok sh G m k e → local_ok sh (spawn_glob i j G) m k e.
Proof using Type.
  intros Hi Hki Hkj Hj [[] Hr Hl]. split; [|..|done].
  - split; simpl; try done.
    + rewrite <-lc_hold. set_solver +Hkj.
    + rewrite <-lc_live. set_solver +Hkj.
    + rewrite <-lc_cloning. by apply elem_remove_ne.
    + rewrite <-lc_cloned. by apply elem_remove_ne.
  - case_decide; [|by destruct Hr].
    assert (∀ P : Prop, live G = ∅ → P) as Hne by (intros P Hl0; rewrite Hl0 in Hi; set_solver +Hi).
    destruct Hr. split; try done; intros Hk.
    + destruct (lr_know Hk). by apply Hne.
    + destruct (lr_done Hk). by apply Hne.
Qed.

Lemma spawn_inv G Γ m i g V tr c o :
  Inv G Γ m → Γ !! i = Some (Ent g V tr (Some c)) → i ≠ rx → gphase g = Open → gclone g = Referenced →
  done_log i tr (c, o) g →
  Inv (spawn_glob i (length Γ) G)
    (<[i := Ent (with_clone NoClone g) V (tr ++ [(c, o)]) None]> Γ ++ [Ent new_ghost V [] None]) m.
Proof using Hok.
  intros HI Hi Hrx Hph Hcl Hlog. set (j := length Γ).
  destruct (open_sender sh Hok _ _ _ _ _ _ _ _ _ HI Hi Hrx Hph) as (HM & Hli & Hfr & Hfd & Hlen).
  destruct (sender_entry sh _ _ _ _ _ _ _ _ _ HI Hi Hrx) as (Hc & Hs & Hl). pose proof (mi_glob _ _ _ _ _ HI) as HG.
  assert (i ∈ cloning G) as Hcg by (apply (lc_cloning _ _ _ _ _ Hc); simpl; congruence).
  assert (i ∈ cloned G) as Hcd by (by apply (lc_cloned _ _ _ _ _ Hc)).
  assert (∀ X, X ⊆ holding G → j ∉ X) as Hfresh.
  { intros X HX Hin. pose proof (go_holding _ _ _ _ HG j (HX _ Hin)). unfold j in *. lia. }
  pose proof (go_live _ _ _ _ HG) as HlG. pose proof (go_cloning _ _ _ _ HG) as HclG. pose proof (go_cloned _ _ _ _ HG) as HcdG.
  assert ((j ∉ live G) ∧ (j ∉ holding G) ∧ (j ∉ cloning G) ∧ (j ∉ cloned G)) as (Hj1 & Hj2 & Hj3 & Hj4).
  { split_and!; apply Hfresh; [done|done|by etrans|]. etrans; [exact HcdG|by etrans]. }
  pose proof (mi_rx _ _ _ _ _ HI) as Hrxl. assert (j ≠ rx) as Hjrx by (unfold j; lia).
  pose proof (mi_calls _ _ _ _ _ HI). pose proof (mi_len _ _ _ _ _ HI).
  split.
  - rewrite length_app, length_insert. simpl. pose proof (go_freed _ _ _ _ HG). destruct HG.
    split; try done; simpl.
    + intros q tk Hq. destruct (go_unpub q tk Hq); [by left|right; by apply elem_of_union_r].
    + intros q tk Hq. destruct (go_by q tk Hq). split; [lia|done].
    + set_solver +HlG.
    + set_solver +HclG.
    + set_solver +HcdG.
    + intros k [->%elem_of_singleton|Hk]%elem_of_union; [unfold j; lia|]. pose proof (go_holding _ Hk). lia.
    + intros [Hr%elem_of_singleton|Hr]%elem_of_union; [by destruct Hjrx|done].
    + intros k Hk. congruence.
    + intros k Hk. congruence.
    + intros Hf. congruence.
    + intros Hnil. assert (j ∈ ({[j]} ∪ holding G : gset tid)) as Hin by set_solver +.
      by rewrite Hnil in Hin.
    + intros _. by apply spawn_mem.
  - intros k e [Hk|[Hge Hk]]%lookup_app_Some.
    + apply list_lookup_insert_Some in Hk as [(<- & <- & _)|[Hne Hk]].
      * apply sender_local; [done|..].
        -- destruct Hc. simpl in *. rewrite Hph in *. split; simpl; try done; intros; try congruence.
           ++ split; [by left|]. intros _. apply elem_of_union_r. by apply lc_hold; left.
           ++ split; [done|]. intros _. by apply elem_of_union_r.
           ++ split; [|done]. intros [_ Hn]%elem_of_difference. by destruct Hn; apply elem_of_singleton.
           ++ split; [|done]. intros [_ Hn]%elem_of_difference. by destruct Hn; apply elem_of_singleton.
        -- by destruct Hs.
        -- exact (log_snoc i g V tr c o Hl Hlog).
      * pose proof (lookup_lt_Some _ _ _ Hk). apply spawn_others; try done; [unfold j; lia|]. by apply (mi_local _ _ _ _ _ HI).
    + rewrite length_insert in Hge, Hk. apply list_lookup_singleton_Some in Hk as [Hz <-].
      assert (k = j) as -> by (unfold j; lia). apply new_local; try done; simpl.
      * intros q tk Hq. destruct (go_by _ _ _ _ HG _ _ Hq). unfold j. lia.
      * set_solver +.
      * set_solver +.
      * set_solver +Hj3.
      * set_solver +Hj4.
  - rewrite length_app, length_insert. lia.
  - rewrite calls_in_app, (calls_in_insert _ _ _ _ Hi). simpl. unfold weight. simpl. rewrite length_app. simpl. lia.
  - rewrite length_app, length_insert, returns_in_app, (returns_in_insert _ _ _ _ Hi). simpl. rewrite length_app. simpl. lia.
Qed.
End calls.
