(* ===== verification/MpscConc.v ===== *)
(** The MPSC ring under every interleaving in weak memory: proof rules for the
    actions of its operations, and the operations themselves. *)
From S2P Require Import Prelude Usize Atomic Errors Wait Notify Ring Queue Mpsc Seq Memory Machine Logic Parking.
From S2P Require Import MpscInv MpscProt MpscActs MpscTake MpscDrop MpscFree MpscCalls.
From S2P Require MpscSeq.
Local Open Scope Z_scope.

Section rules.
Context `{tgt : Target} {T : Type} (sh : Shared).
Hypothesis Hok : MpscSeq.shared_ok sh.
Variable limit : Z.
Hypothesis Hlim : 2 * (limit + 2) ≤ MAX_REFCOUNT.
Abbreviation entry := (ent (ghost T) (call T) (event T)).
Implicit Types (G : glob T) (m : mem T) (g : ghost T) (Γ : list entry) (i : tid).

(** Only the calls that drop a handle close it. *)
Definition drops (c : call T) : bool :=
  match c with CDropSender | CDropReceiver => true | _ => false end.
Definition open_calls Γ : Prop :=
  ∀ i e c, Γ !! i = Some e → ecur e = Some c → drops c = false → gphase (eg e) = Open.

Definition MInvs Γ m : Prop := (∃ G, MInv sh limit G Γ m) ∧ open_calls Γ.

Lemma open_calls_upd Γ i e :
  open_calls Γ → (∀ c, ecur e = Some c → drops c = false → gphase (eg e) = Open) →
  open_calls (<[i := e]> Γ).
Proof using Type.
  intros HO He j e' c [(-> & <- & _)|[_ Hj]]%list_lookup_insert_Some; [apply He|by eapply HO].
Qed.

Lemma limit_small : 2 * (limit + 2) < usize_max.
Proof using Hlim.
  pose proof usize_modulus_ge. pose proof Hlim as Hl. pose proof (Z.mul_div_le usize_modulus 2 ltac:(lia)).
  unfold MAX_REFCOUNT, usize_max in *. lia.
Qed.

(** ** What the protocol is oblivious to *)

Abbreviation flags := [Parked Consumer; Waiting].
Abbreviation here g := (gphase g ≠ Gone).

#[export] Instance mpsc_oblivious : Oblivious MInvs (sh_ring sh) flags (λ g : ghost T, here g).
Proof using Hok.
  split.
  - intros Γ m i g V tr c f ((G & HI) & _) Hi Hg Hf.
    destruct (actor sh Hok _ _ _ _ _ _ _ _ _ HI Hi Hg) as (_ & HM & _).
    apply elem_of_cons in Hf as [->|Hf%list_elem_of_singleton]; [|subst f]; apply HM.
  - intros Γ m i g V tr c V' m' ((G & HI) & HO) Hi Hg H1 H2 [Hh Hf Hc Hd].
    split; [exists G|apply open_calls_upd; [done|]; intros c'; by apply (HO _ _ _ Hi)].
    assert (∀ f, f ≠ Parked Consumer → f ≠ Waiting → hist m' !! Loc (sh_ring sh) f = hist m !! Loc (sh_ring sh) f) as Hs.
    { intros f Hf1 Hf2. apply Hh. intros f' Hf' [=]. apply elem_of_cons in Hf' as [Hf'|Hf'%list_elem_of_singleton]; congruence. }
    eapply (noise_inv sh Hok); [exact HI|exact Hi|done..|]. split; try (by apply Hs); try apply Hf; try done.
    intros k. by apply Hs.
Qed.

Lemma parked_in : Parked Consumer ∈ flags.
Proof using Type. clear. set_solver. Qed.
Lemma waiting_in : Waiting ∈ flags.
Proof using Type. clear. set_solver. Qed.

Section thread.
Context (i : tid) (tr : list (call T * event T)) (c : call T).
Abbreviation safe := (Logic.safe MInvs i tr c).

(** One action, in terms of the protocol's invariant. *)
Lemma safe_prot {A} (p : prog T A) g Q :
  p ≠ Panicked → (∀ a, p ≠ Ret a) → here g →
  (∀ G Γ m V, MInv sh limit G Γ m → Γ !! i = Some (Ent g V tr (Some c)) → mem_ok sh G m → ∀ t b,
     (∀ x, Memory.step i p V m t b ≠ Fault x) ∧
     (∀ p' V' m', Memory.step i p V m t b = Next (p', V', m') →
        ∃ G' g', MInv sh limit G' (<[i := Ent g' V' tr (Some c)]> Γ) m' ∧
          (gphase g = Open → drops c = false → gphase g' = Open) ∧ safe p' g' Q)) →
  safe p g Q.
Proof using Hok.
  intros Hnp Hnr Hg Hstep. apply safe_step; [done..|]. intros Γ m V ((G & HI) & HO) Hi t b.
  destruct (actor sh Hok _ _ _ _ _ _ _ _ _ HI Hi Hg) as (_ & HM & _).
  destruct (Hstep G Γ m V HI Hi HM t b) as [Hf Hn]. split; [done|].
  intros p' V' m' Heq. destruct (Hn _ _ _ Heq) as (G' & g' & HI' & Hg' & ?). exists g'. split; [|done].
  split; [by exists G'|]. apply open_calls_upd; [done|]. intros c' [= <-] Hd. apply Hg'; [|done]. by apply (HO _ _ c Hi).
Qed.

(** The phase stays what it was, or the call closes its handle. *)
Ltac open_kept := split; [intros; simpl in *; congruence|].

(** ** Senders *)

Section sender.
Hypothesis Hi : i ≠ rx.

Lemma safe_load_gone g (Q : bool → ghost T → Prop) :
  gphase g = Open → Q false g → Q true (with_know true g) →
  safe (load_bool (rx_dropped sh) Acquire) g Q.
Proof using Hok Hi.
  intros Hph Hf Ht. apply safe_prot; [done..|by rewrite Hph|]. intros G Γ m V HI He HM t b.
  destruct (mo_gone _ _ _ HM) as (h & Hh & _). unfold load_bool. simpl. rewrite Hh.
  destruct (h !! t) as [x|] eqn:Hx; [|done]. case_match; [|done]. split; [done|].
  intros p' V' m' [= <- <- <-]. exists G.
  destruct (load_gone_inv sh Hok _ _ _ _ _ _ _ _ _ _ _ _ HI He Hi Hph Hh Hx) as [[-> HI']|[-> HI']];
    eexists; (split; [exact HI'|]; open_kept); by apply safe_ret.
Qed.

(** A stale head bounds what may be claimed. *)
Lemma safe_load_head g (Q : Z → ghost T → Prop) :
  gphase g = Open → slot g = None →
  (∀ k : nat, Z.of_nat k ≤ usize_max → Q (Z.of_nat k) (with_seen k g)) →
  safe (load (head sh) Acquire) g Q.
Proof using Hok Hi.
  intros Hph Hsl HQ. apply safe_prot; [done..|by rewrite Hph|]. intros G Γ m V HI He HM t b.
  destruct (mo_head _ _ _ HM) as (h & Hh & _). unfold load. simpl. rewrite Hh.
  destruct (h !! t) as [x|] eqn:Hx; [|done]. case_match; [|done]. split; [done|].
  intros p' V' m' [= <- <- <-].
  destruct (load_head_inv sh Hok _ _ _ _ _ _ _ _ _ _ _ _ HI He Hi Hph Hsl Hh Hx) as (k & -> & Hk & HI').
  eexists _, _. split; [exact HI'|]; open_kept. by apply safe_ret, HQ.
Qed.

(** The head looked at without relying on it. *)
Lemma safe_peek_head g (Q : Z → ghost T → Prop) :
  gphase g = Open → (∀ k : nat, Z.of_nat k ≤ usize_max → Q (Z.of_nat k) g) →
  safe (load (head sh) Acquire) g Q.
Proof using Hok.
  intros Hph HQ. assert (here g) as Hg by (by rewrite Hph). apply safe_prot; [done..|]. intros G Γ m V HI He HM t b.
  destruct (mo_head _ _ _ HM) as (h & Hh & Hv & _). unfold load. simpl. rewrite Hh.
  destruct (h !! t) as [x|] eqn:Hx; [|done]. case_match; [|done]. split; [done|].
  intros p' V' m' [= <- <- <-]. exists G, g. split; [|open_kept].
  - eapply (noise_inv sh Hok); [exact HI|exact He|done|apply read_view_grows..|by apply mp_same_mem_refl].
  - apply safe_ret. destruct (Hv _ _ Hx) as (k & -> & Hk & _). apply HQ.
    pose proof (mi_glob _ _ _ _ _ HI) as HG. pose proof (go_max _ _ _ _ HG).
    pose proof (go_pub _ _ _ _ HG). pose proof (go_left _ _ _ _ HG). clear Hi. lia.
Qed.

(** The claim counter is read for a guess only. *)
Lemma safe_load_claim g (Q : Z → ghost T → Prop) :
  gphase g = Open → (∀ k : nat, Z.of_nat k ≤ usize_max → Q (Z.of_nat k) g) →
  safe (load (claim sh) Relaxed) g Q.
Proof using Hok Hi.
  intros Hph HQ. assert (here g) as Hg by (by rewrite Hph). apply safe_prot; [done..|]. intros G Γ m V HI He HM t b.
  destruct (mo_claim _ _ _ HM) as (h & Hh & Hd & Hv). unfold load. simpl. rewrite Hh.
  destruct (h !! t) as [x|] eqn:Hx; [|done]. case_match; [|done]. split; [done|].
  intros p' V' m' [= <- <- <-]. exists G, g. split; [|open_kept].
  - eapply (noise_inv sh Hok); [exact HI|exact He|done|apply read_view_grows..|by apply mp_same_mem_refl].
  - apply safe_ret. rewrite (Hv _ _ Hx). apply HQ. pose proof (go_max _ _ _ _ (mi_glob _ _ _ _ _ HI)).
    pose proof (proj1 (Hd t) (mk_is_Some _ _ Hx)). lia.
Qed.

(** The claim. *)
Lemma safe_claim g v s n (Q : Z + Z → ghost T → Prop) :
  gphase g = Open → slot g = None → 0 ≤ s → s < Z.of_nat (seen g) + cap sh → s < usize_max → n = s + 1 →
  vals g = accepted tr → offered c = [v] →
  Q (inl s) (claim_ghost (Z.to_nat s) v g) →
  (∀ k : nat, Z.of_nat k ≤ usize_max → Q (inr (Z.of_nat k)) g) →
  safe (compare_exchange_weak (claim sh) s n Relaxed Relaxed) g Q.
Proof using Hok Hi.
  intros Hph Hsl Hs Hroom Hmax -> Hacc Hoff HQ HQ'. assert (here g) as Hg by (by rewrite Hph).
  apply safe_prot; [done..|]. intros G Γ m V HI He HM t b.
  destruct (mo_claim _ _ _ HM) as (h & Hh & Hd & Hv). unfold compare_exchange_weak. simpl. rewrite Hh.
  destruct (h !! t) as [x|] eqn:Hx; [|done]. destruct (negb _); [done|].
  destruct ((mval x =? s) && negb b) eqn:Hcas.
  - destruct (h !! S t) eqn:Hn; [done|]. split; [done|]. intros p' V' m' [= <- <- <-].
    apply andb_true_iff in Hcas as [Heq%Z.eqb_eq _].
    destruct (claim_inv sh Hok limit G Γ m i g V tr c h t x v (s + 1)
      (vjoin (mview x) (released (claim sh) (S t) Relaxed (read_view (claim sh) t Relaxed x V))))
      as (q & G' & Hq & HI'); try done; [lia|lia|congruence|].
    rewrite Heq in Hq. exists G', (claim_ghost q v g). split; [exact HI'|]; open_kept. apply safe_ret.
    rewrite Heq. by rewrite Hq, Nat2Z.id in *.
  - split; [done|]. intros p' V' m' [= <- <- <-]. exists G, g. split; [|open_kept].
    + eapply (noise_inv sh Hok); [exact HI|exact He|done|apply read_view_grows..|by apply mp_same_mem_refl].
    + apply safe_ret. rewrite (Hv _ _ Hx). apply HQ'. pose proof (go_max _ _ _ _ (mi_glob _ _ _ _ _ HI)).
      pose proof (proj1 (Hd t) (mk_is_Some _ _ Hx)). lia.
Qed.

Lemma slot_open G m g V q v w : sender_ok sh G i (Ent g V tr (Some c)) → slot g = Some (q, v, w) → gphase g = Open.
Proof using Type. intros Hs Hsl. pose proof (ls_slot _ _ _ _ Hs) as H. simpl in H. rewrite Hsl in H. apply H. Qed.

Lemma safe_write_slot g q v (Q : unit → ghost T → Prop) :
  gphase g = Open → slot g = Some (q, v, false) → Q tt (with_slot (Some (q, v, true)) g) →
  safe (write_cell (cell sh q) v) g Q.
Proof using Hok Hi.
  intros Hph Hsl HQ. apply safe_prot; [done..|by rewrite Hph|]. intros G Γ m V HI He HM t b.
  destruct (slot_write_ready sh Hok _ _ _ _ _ _ _ _ _ _ _ HI He Hi Hsl) as [Hcell Hle].
  unfold write_cell, Memory.step, access. rewrite Hcell.
  rewrite (proj2 (Nat.leb_le _ _) Hle). split; [done|]. intros p' V' m' [= <- <- <-].
  destruct (write_inv sh Hok _ _ _ _ _ _ _ _ _ _ _ HI He Hi Hsl) as (G' & HI').
  eexists _, _. unfold wstamp in HI'. rewrite Nat.add_1_r in HI'. split; [exact HI'|]; open_kept. by apply safe_ret.
Qed.

Lemma safe_publish_round g q v (Q : unit → ghost T → Prop) :
  gphase g = Open → slot g = Some (q, v, true) → Q tt (with_slot None g) →
  safe (store (rnd sh q) (round_of sh (Z.of_nat q)) Release) g Q.
Proof using Hok Hi.
  intros Hph Hsl HQ. apply safe_prot; [done..|by rewrite Hph|]. intros G Γ m V HI He HM t b.
  destruct (mo_round _ _ _ HM (sl sh q) (sl_lt sh Hok q)) as (h & Hh & _). fold (rnd sh q) in Hh.
  unfold store. simpl. rewrite Hh. destruct (h !! t) as [x|] eqn:Hx; [done|].
  destruct (Nat.ltb_spec (vw (cur V) (rnd sh q)) t); [|done]. split; [done|]. intros p' V' m' [= <- <- <-].
  destruct (publish_inv sh Hok _ _ _ _ _ _ _ _ _ _ _ _ _ HI He Hi Hsl Hh Hx) as (G' & HI'); [done|].
  eexists _, _. split; [exact HI'|]; open_kept. by apply safe_ret.
Qed.
End sender.

(** ** The receiver *)

Section receiver.
Hypothesis Hi : i = rx.
Abbreviation p g := (length (vals g)).

(** The round of the slot at the head. *)
Lemma safe_load_round g (Q : Z → ghost T → Prop) :
  gphase g = Open →
  (Z.of_nat (p g) < usize_max → Q (round_of sh (Z.of_nat (p g))) (with_ready true g)) →
  (∀ z, z ≠ round_of sh (Z.of_nat (p g)) → Q z (with_done (gdone g || gknow g) g)) →
  safe (load (rnd sh (p g)) Acquire) g Q.
Proof using Hok Hi.
  intros Hph Hyes Hno. apply safe_prot; [done..|by rewrite Hph|]. intros G Γ m V HI He HM t b. rewrite Hi in He.
  destruct (mo_round _ _ _ HM (sl sh (p g)) (sl_lt sh Hok _)) as (h & Hh & _). fold (rnd sh (p g)) in Hh.
  unfold load. simpl. rewrite Hh. destruct (h !! t) as [x|] eqn:Hx; [|done].
  destruct (Nat.leb_spec (vw (cur V) (rnd sh (p g))) t); [|done].
  split; [done|]. intros p' V' m' [= <- <- <-]. rewrite Hi.
  destruct (load_round_inv sh Hok limit G Γ m g V tr (Some c) h t x HI He Hph Hh Hx ltac:(done)) as [_ HI'].
  destruct (decide _) as [Heq|Hne].
  - destruct HI' as [Hlt HI']. eexists _, _. split; [exact HI'|]; open_kept. rewrite Heq. apply safe_ret. by apply Hyes.
  - eexists _, _. split; [exact HI'|]; open_kept. apply safe_ret. by apply Hno.
Qed.

Lemma safe_load_senders g (Q : Z → ghost T → Prop) :
  gphase g = Open → (∀ z, Q z (with_know (gknow g || (z =? 0)) g)) →
  safe (load (senders sh) Acquire) g Q.
Proof using Hok Hi.
  intros Hph HQ. apply safe_prot; [done..|by rewrite Hph|]. intros G Γ m V HI He HM t b. rewrite Hi in He.
  destruct (mo_senders _ _ _ HM) as (h & Hh & _). unfold load. simpl. rewrite Hh.
  destruct (h !! t) as [x|] eqn:Hx; [|done]. case_match; [|done].
  split; [done|]. intros p' V' m' [= <- <- <-]. rewrite Hi. eexists _, _.
  split; [by apply (load_senders_inv sh Hok limit G Γ m g V tr (Some c) h t x)|]; open_kept. apply safe_ret, HQ.
Qed.

Lemma safe_take_value g (Q : T → ghost T → Prop) :
  gphase g = Open → ready g = true → (∀ v, Q v (take_ghost v g)) →
  safe (read_cell (cell sh (p g))) g Q.
Proof using Hok Hi.
  intros Hph Hrd HQ. apply safe_prot; [done..|by rewrite Hph|]. intros G Γ m V HI He HM t b. rewrite Hi in He.
  destruct (take_ready sh Hok _ _ _ _ _ _ _ _ HI He Hph Hrd) as (tk & _ & _ & _ & Hcell & Hle).
  unfold read_cell, Memory.step, access. rewrite Hcell, (proj2 (Nat.leb_le _ _) Hle).
  split; [done|]. intros p' V' m' [= <- <- <-]. rewrite Hi.
  destruct (take_inv sh Hok limit G Γ m g V tr c (tval tk) HI He Hph Hrd Hcell) as (G' & HI').
  exists G', (take_ghost (tval tk) g).
  assert (S (wstamp sh (p g)) = rstamp sh (p g)) as -> by (unfold wstamp, rstamp; lia).
  split; [exact HI'|]; open_kept. apply safe_ret, HQ.
Qed.

Lemma safe_publish_head g (Q : unit → ghost T → Prop) :
  gphase g = Open → Q tt (with_pub (p g) g) →
  safe (store (head sh) (Z.of_nat (p g)) Release) g Q.
Proof using Hok Hi.
  intros Hph HQ. apply safe_prot; [done..|by rewrite Hph|]. intros G Γ m V HI He HM t b. rewrite Hi in He.
  destruct (mo_head _ _ _ HM) as (h & Hh & _). unfold store. simpl. rewrite Hh.
  destruct (h !! t) as [x|] eqn:Hx; [done|]. destruct (Nat.ltb_spec (vw (cur V) (head sh)) t); [|done].
  split; [done|]. intros p' V' m' [= <- <- <-]. rewrite Hi.
  destruct (publish_head_inv sh Hok limit G Γ m g V tr (Some c) h t HI He Hph Hh Hx ltac:(done)) as (G' & HI').
  eexists _, _. split; [exact HI'|]; open_kept. by apply safe_ret.
Qed.
End receiver.

(** ** Both sides: closing and releasing *)

Lemma safe_close_tx g (Q : Z → ghost T → Prop) :
  drops c = true → i ≠ rx → gphase g = Open → slot g = None → gclone g = NoClone →
  (∀ n, Q n (with_phase Closed g)) → safe (fetch_sub (senders sh) 1 AcqRel) g Q.
Proof using Hok Hlim.
  intros Hd Hrx Hph Hsl Hcl HQ. apply safe_prot; [done..|by rewrite Hph|]. intros G Γ m V HI He HM t b.
  destruct (mo_senders _ _ _ HM) as (h & Hh & _). unfold fetch_sub. simpl. rewrite Hh.
  destruct (h !! t) as [x|] eqn:Hx; [|done]. destruct (h !! S t) eqn:Hn; [done|].
  case_match; [|done]. split; [done|]. intros p' V' m' [= <- <- <-]. eexists _, _.
  split; [by eapply (close_tx_inv sh Hok); try done; apply limit_small|]; open_kept. by apply safe_ret.
Qed.

Lemma safe_close_rx g (Q : unit → ghost T → Prop) :
  drops c = true → i = rx → gphase g = Open → gpub g = length (vals g) → Q tt (with_phase Closed g) →
  safe (store_bool (rx_dropped sh) true Release) g Q.
Proof using Hok.
  intros Hd Hrx Hph Hpub HQ. apply safe_prot; [done..|by rewrite Hph|]. intros G Γ m V HI He HM t b.
  destruct (mo_gone _ _ _ HM) as (h & Hh & _). unfold store_bool, store. simpl. rewrite Hh.
  destruct (h !! t) as [x|] eqn:Hx; [done|]. case_match; [|done]. split; [done|].
  intros p' V' m' [= <- <- <-]. rewrite Hrx in *. eexists _, _.
  split; [by eapply (close_rx_inv sh Hok)|]; open_kept. by apply safe_ret.
Qed.

Lemma safe_release_ref g (Q : Z → ghost T → Prop) :
  gphase g = Closed → (∀ n, Q n (release_ghost n g)) → safe (fetch_sub (strong sh) 1 Release) g Q.
Proof using Hok Hlim.
  intros Hph HQ. apply safe_prot; [done..|by rewrite Hph|]. intros G Γ m V HI He HM t b.
  destruct (mo_strong _ _ _ HM) as (h & Hh & _). unfold fetch_sub. simpl. rewrite Hh.
  destruct (h !! t) as [x|] eqn:Hx; [|done]. destruct (h !! S t) eqn:Hn; [done|].
  case_match; [|done]. split; [done|]. intros p' V' m' [= <- <- <-]. eexists _, _.
  split; [by eapply (release_ref_inv sh Hok); try done; apply limit_small|]; open_kept. by apply safe_ret.
Qed.

(** ** Cloning *)

Lemma safe_clone_count g (Q : Z → ghost T → Prop) :
  i ≠ rx → gphase g = Open → gclone g = NoClone → (∀ n, Q n (with_clone Counted g)) →
  safe (fetch_add (senders sh) 1 Relaxed) g Q.
Proof using Hok Hlim.
  intros Hrx Hph Hcl HQ. apply safe_prot; [done..|by rewrite Hph|]. intros G Γ m V HI He HM t b.
  destruct (mo_senders _ _ _ HM) as (h & Hh & _). unfold fetch_add. simpl. rewrite Hh.
  destruct (h !! t) as [x|] eqn:Hx; [|done]. destruct (h !! S t) eqn:Hn; [done|].
  case_match; [|done]. split; [done|]. intros p' V' m' [= <- <- <-]. eexists _, _.
  split; [by eapply (clone_count_inv sh Hok); try done; apply limit_small|]; open_kept. by apply safe_ret.
Qed.

Lemma safe_clone_ref g (Q : Z → ghost T → Prop) :
  i ≠ rx → gphase g = Open → gclone g = Counted →
  (∀ n, n ≤ MAX_REFCOUNT → Q n (with_clone Referenced g)) →
  safe (fetch_add (strong sh) 1 Relaxed) g Q.
Proof using Hok Hlim.
  intros Hrx Hph Hcl HQ. apply safe_prot; [done..|by rewrite Hph|]. intros G Γ m V HI He HM t b.
  destruct (mo_strong _ _ _ HM) as (h & Hh & _). unfold fetch_add. simpl. rewrite Hh.
  destruct (h !! t) as [x|] eqn:Hx; [|done]. destruct (h !! S t) eqn:Hn; [done|].
  case_match; [|done]. split; [done|]. intros p' V' m' [= <- <- <-].
  destruct (clone_ref_inv sh Hok limit G Γ m i g V tr (Some c) h t x (wrap (mval x + 1)))
    as [Hle HI']; try done; [apply limit_small|].
  eexists _, _. split; [exact HI'|]; open_kept. apply safe_ret, HQ. lia.
Qed.

(** ** The last owner *)

Lemma safe_freeing_fence g (Q : unit → ghost T → Prop) :
  gphase g = Freeing → plan g = None →
  (∀ p n : nat, (p ≤ n)%nat → Z.of_nat n ≤ usize_max → (n ≤ p + capn sh)%nat →
     Q tt (with_plan (Some (p, p, n)) g)) →
  safe (fence Acquire) g Q.
Proof using Hok.
  intros Hph Hpl HQ. apply safe_prot; [done..|by rewrite Hph|]. intros G Γ m V HI He HM t b. simpl.
  split; [done|]. intros p' V' m' [= <- <- <-].
  destruct (last_fence_inv sh Hok _ _ _ _ _ _ _ _ _ HI He Hph Hpl) as (p & n & ? & ? & ? & HI').
  exists G, (with_plan (Some (p, p, n)) g). split; [|open_kept; by apply safe_ret, HQ].
  assert (set_scview (scview m) m = m) as -> by by destruct m. exact HI'.
Qed.

Lemma safe_load_left g p d n (Q : Z → ghost T → Prop) :
  gphase g = Freeing → plan g = Some (p, d, n) → Q (Z.of_nat p) g → safe (load (head sh) Acquire) g Q.
Proof using Hok.
  intros Hph Hpl HQ. assert (here g) as Hg by (by rewrite Hph). apply safe_prot; [done..|].
  intros G Γ m V HI He HM t b. destruct (mo_head _ _ _ HM) as (h & Hh & _). unfold load. simpl. rewrite Hh.
  destruct (h !! t) as [x|] eqn:Hx; [|done]. destruct (Nat.leb_spec (vw (cur V) (head sh)) t); [|done].
  split; [done|]. intros p' V' m' [= <- <- <-]. exists G, g. split; [|open_kept].
  - eapply (noise_inv sh Hok); [exact HI|exact He|done|apply read_view_grows..|by apply mp_same_mem_refl].
  - apply safe_ret. by rewrite (load_left_inv sh Hok _ _ _ _ _ _ _ _ _ _ _ _ _ _ _ HI He Hph Hpl Hh Hx).
Qed.

Lemma safe_load_round_left g p d n (Q : Z → ghost T → Prop) :
  gphase g = Freeing → plan g = Some (p, d, n) →
  (∀ z, (z =? round_of sh (Z.of_nat d)) = bool_decide (d < n)%nat → Q z g) →
  safe (load (rnd sh d) Acquire) g Q.
Proof using Hok.
  intros Hph Hpl HQ. assert (here g) as Hg by (by rewrite Hph). apply safe_prot; [done..|].
  intros G Γ m V HI He HM t b. destruct (mo_round _ _ _ HM (sl sh d) (sl_lt sh Hok d)) as (h & Hh & _).
  fold (rnd sh d) in Hh. unfold load. simpl. rewrite Hh.
  destruct (h !! t) as [x|] eqn:Hx; [|done]. destruct (Nat.leb_spec (vw (cur V) (rnd sh d)) t); [|done].
  split; [done|]. intros p' V' m' [= <- <- <-]. exists G, g. split; [|open_kept].
  - eapply (noise_inv sh Hok); [exact HI|exact He|done|apply read_view_grows..|by apply mp_same_mem_refl].
  - apply safe_ret, HQ. by apply (round_left_inv sh Hok _ _ _ _ _ _ _ _ _ _ _ _ _ _ _ HI He Hph Hpl Hh Hx).
Qed.

Lemma safe_drop_left g p d n (Q : unit → ghost T → Prop) :
  gphase g = Freeing → plan g = Some (p, d, n) → (d < n)%nat →
  Q tt (with_plan (Some (p, S d, n)) g) → safe (drop_cell (cell sh d)) g Q.
Proof using Hok.
  intros Hph Hpl Hlt HQ. apply safe_prot; [done..|by rewrite Hph|]. intros G Γ m V HI He HM t b.
  destruct (drop_left_inv sh Hok _ _ _ _ _ _ _ _ _ _ _ _ HI He Hph Hpl Hlt) as (v & Hcell & Hle & HI').
  unfold drop_cell, Memory.step, access. rewrite Hcell. rewrite (proj2 (Nat.leb_le _ _) Hle).
  split; [done|]. intros p' V' m' [= <- <- <-]. eexists _, _.
  assert (S (wstamp sh d) = rstamp sh d) as -> by (unfold wstamp, rstamp; lia).
  split; [exact HI'|]; open_kept. by apply safe_ret.
Qed.

Lemma safe_free_block g p n (Q : unit → ghost T → Prop) :
  gphase g = Freeing → plan g = Some (p, n, n) → Q tt (with_phase Gone g) →
  safe (dealloc (sh_ring sh)) g Q.
Proof using Hok.
  intros Hph Hpl HQ. apply safe_prot; [done..|by rewrite Hph|]. intros G Γ m V HI He HM t b. simpl.
  split; [done|]. intros p' V' m' [= <- <- <-]. eexists _, _.
  split; [by eapply (free_inv sh Hok)|]; open_kept. by apply safe_ret.
Qed.
End thread.
End rules.
