(* ===== verification/MpscOps.v ===== *)
(** The operations of the MPSC ring never go wrong, whatever the other threads
    do, and what they return agrees with the protocol's ghost state. *)
From S2P Require Import Prelude Usize Atomic Errors Wait Notify Ring Queue Mpsc Seq Memory Machine Logic Parking.
From S2P Require Import MpscInv MpscProt MpscActs MpscTake MpscDrop MpscFree MpscCalls MpscConc.
From S2P Require MpscSeq.
Local Open Scope Z_scope.

Section operations.
Context `{tgt : Target} {T : Type} (sh : Shared).
Hypothesis Hok : MpscSeq.shared_ok sh.
Variable limit : Z.
Hypothesis Hlim : 2 * (limit + 2) ≤ MAX_REFCOUNT.
Implicit Types (g : ghost T) (i : tid).
Abbreviation here g := (gphase g ≠ Gone).
Abbreviation ob := (mpsc_oblivious sh Hok limit).

(** The slot of a sequence number. *)
Lemma index_ticket q :
  Z.of_nat q ≤ usize_max → index (T := T) (slots_len sh) (Z.land (Z.of_nat q) (mask sh)) = mret (sl sh q).
Proof using Hok.
  intros Hq. assert (is_usize (Z.of_nat q)) by (unfold is_usize, usize_max in *; lia).
  rewrite <-(wrap_small (Z.of_nat q)) by done. by rewrite (index_slot (MpscSeq.sok_ring _ Hok)).
Qed.

Lemma usize_succ q : Z.of_nat q < usize_max → usize_add (Z.of_nat q) 1 = Some (Z.of_nat (S q)).
Proof using Type.
  intros Hq. unfold usize_add. rewrite checked_in_range by (unfold is_usize, usize_max in *; lia). f_equal. lia.
Qed.

(** ** The sender *)

Section sender.
Context (i : tid) (tr : list (call T * event T)) (c : call T) (Hi : i ≠ rx).
Abbreviation safe := (Logic.safe (MInvs sh limit) i tr c).

(** A sender's handle in the middle of a call. *)
Record sends (self : Sender) g : Prop := {
  sn_shared : s_shared self = sh;
  sn_head : cached_head self = Z.of_nat (seen g);
  sn_open : gphase g = Open;
  sn_slot : slot g = None;
  sn_clone : gclone g = NoClone;
}.

Lemma mpsc_sends_know self g : sends self g → sends self (with_know true g).
Proof using Type. by intros []. Qed.

(** A claim is held: the handle and what it has to write. *)
Record claims (self : Sender) (q : nat) (v : T) g : Prop := {
  cl_shared : s_shared self = sh;
  cl_head : cached_head self = Z.of_nat (seen g);
  cl_open : gphase g = Open;
  cl_slot : slot g = Some (q, v, false);
  cl_clone : gclone g = NoClone;
  cl_max : Z.of_nat q ≤ usize_max;
}.

Definition claimed v g (r : Sender * option Z) g' : Prop :=
  match r.2 with
  | None => sends r.1 g' ∧ vals g' = vals g
  | Some s => ∃ q, s = Z.of_nat q ∧ claims r.1 q v g' ∧ vals g' = vals g ++ [v]
  end.

(** One attempt at [seq] with room known up to the cached head. *)
Lemma safe_attempt fuel self g v (seq : nat) backoff :
  (∀ self g (seq : nat) backoff, sends self g → vals g = accepted tr → Z.of_nat seq ≤ usize_max →
     1 ≤ backoff ≤ CLAIM_BACKOFF_MAX → safe (claim_loop fuel self (Z.of_nat seq) backoff) g (claimed v g)) →
  sends self g → vals g = accepted tr → offered c = [v] → 1 ≤ backoff ≤ CLAIM_BACKOFF_MAX →
  Z.of_nat seq < saturating_add (cached_head self) (cap sh) →
  safe (next ← arith (usize_add (Z.of_nat seq) 1);
        r ← compare_exchange_weak (claim sh) (Z.of_nat seq) next Relaxed Relaxed;
        match r with
        | inl _ => mret (self, Some (Z.of_nat seq))
        | inr cur =>
            _ ← repeat_prog (Z.to_nat backoff) spin_loop;
            doubled ← arith (u32_mul backoff 2);
            claim_loop fuel self cur (Z.min doubled CLAIM_BACKOFF_MAX)
        end) g (claimed v g).
Proof using Hok Hi.
  intros IH Hs Hacc Hoff Hb Hlt. pose proof Hs as [Hsh Hhd Ho Hsl Hcl]. unfold saturating_add in Hlt. rewrite Hhd in Hlt.
  apply safe_bind. eapply safe_arith; [apply usize_succ; lia|].
  apply safe_bind, (safe_claim sh Hok limit i tr c Hi g v); try done; [lia..| |].
  - apply safe_ret. exists seq. split; [done|]. rewrite Nat2Z.id. split; [|done]. split; try done. lia.
  - intros k Hk. apply safe_bind, (safe_spins ob); [by rewrite Ho|].
    apply safe_bind. unfold CLAIM_BACKOFF_MAX in *. eapply safe_arith.
    { unfold u32_mul, u32_max. rewrite (proj2 (Z.ltb_ge _ _)) by lia. by rewrite andb_false_r. }
    rewrite Z.mod_small by lia. apply IH; [done..|lia].
Qed.

Lemma safe_claim_loop fuel self g v (seq : nat) backoff :
  offered c = [v] → sends self g → vals g = accepted tr → Z.of_nat seq ≤ usize_max →
  1 ≤ backoff ≤ CLAIM_BACKOFF_MAX → safe (claim_loop fuel self (Z.of_nat seq) backoff) g (claimed v g).
Proof using Hok Hi.
  intros Hoff. revert self g seq backoff. induction fuel as [|fuel IH]; intros self g seq backoff Hs Hacc Hseq Hb;
    [by apply safe_fuel|].
  pose proof Hs as [Hsh Hhd Ho Hsl Hcl]. cbn [claim_loop]. rewrite Hsh. apply safe_bind.
  destruct (Z.geb_spec (Z.of_nat seq) (saturating_add (cached_head self) (cap sh))) as [Hge|Hlt].
  - apply safe_bind, (safe_load_head sh Hok limit i tr c Hi); [done..|]. intros k Hk. apply safe_ret. cbn [cached_head].
    assert (Hs2 : sends (MkSender sh (Z.of_nat k)) (with_seen k g)) by done.
    destruct (Z.geb_spec (Z.of_nat seq) (saturating_add (Z.of_nat k) (cap sh))) as [Hge'|Hlt'].
    + by apply safe_ret.
    + by apply (safe_attempt fuel (MkSender sh (Z.of_nat k)) (with_seen k g)).
  - apply safe_ret. by apply safe_attempt.
Qed.

Definition sent v g (r : result unit (TrySendError T)) g' : Prop :=
  match r with
  | Ok _ => vals g' = vals g ++ [v]
  | Err (Full w) => w = v ∧ vals g' = vals g
  | Err (SendDisconnected w) => w = v ∧ vals g' = vals g ∧ gknow g' = true
  end.

Lemma mpsc_safe_try_send fuel self g v :
  sends self g → vals g = accepted tr → offered c = [v] →
  safe (try_send fuel self v) g (λ '(self', r) g', sends self' g' ∧ sent v g r g').
Proof using Hok Hi.
  intros Hs Hacc Hoff. unfold try_send. rewrite (sn_shared _ _ Hs).
  apply safe_bind, (safe_load_gone sh Hok limit i tr c Hi); [apply Hs| |].
  2: { apply safe_ret. split; [by apply mpsc_sends_know|done]. }
  apply safe_bind, (safe_load_claim sh Hok limit i tr c Hi); [apply Hs|]. intros k Hk.
  apply safe_bind. eapply safe_mono; [by apply safe_claim_loop|].
  intros [self' [s|]] g' Hcl; unfold claimed in Hcl; cbn [fst snd] in Hcl; [|by destruct Hcl; apply safe_ret].
  destruct Hcl as (q & -> & [Hsh Hhd Ho Hsl Hnc Hmax] & Hv).
  rewrite (index_ticket q Hmax). apply safe_bind, safe_ret.
  apply safe_bind, (safe_write_slot sh Hok limit i tr c Hi _ q v); [done..|].
  apply safe_bind, (safe_publish_round sh Hok limit i tr c Hi _ q v); [done..|].
  assert (∀ g2, sends self' g2 → vals g2 = vals g' → safe (mret (self', Ok tt)) g2
    (λ '(self', r) g', sends self' g' ∧ sent v g r g')) as Hend.
  { intros g2 Hs2 Hv2. apply safe_ret. split; [done|]. simpl. congruence. }
  apply safe_bind. case_bool.
  - apply safe_bind, (safe_fence ob); [by simpl; rewrite Ho|].
    apply (safe_wake ob); [apply parked_in|by simpl; rewrite Ho|by apply Hend].
  - apply safe_ret. by apply Hend.
Qed.

Lemma mpsc_safe_send_wait self ladder g :
  sends self g → ladder_ok ladder →
  safe (send_wait self ladder) g (λ ladder' g', ladder_ok ladder' ∧ sends self g' ∧ vals g' = vals g).
Proof using Hok Hi.
  intros Hs Hl. unfold send_wait. rewrite (sn_shared _ _ Hs). pose proof (sn_open _ _ Hs) as Ho.
  assert (here g) as Hg by (by rewrite Ho). destruct (strategy sh).
  - apply safe_bind, (safe_hint ob); [done|]. by apply safe_ret.
  - by apply (safe_idle ob).
  - by apply (safe_idle ob).
  - apply safe_bind, (safe_prepare_wait ob); [apply waiting_in|done|].
    apply safe_bind, (safe_fence ob); [done|].
    apply safe_bind, (safe_load_claim sh Hok limit i tr c Hi); [done|]. intros a Ha.
    apply safe_bind, (safe_peek_head sh Hok limit i tr c); [done|]. intros h Hh.
    assert (∀ (retry : bool) g2, sends self g2 → vals g2 = vals g →
      safe (_ ← (if retry then mret tt else WaiterList_park (prod_waiters sh)); mret ladder) g2
        (λ ladder' g', ladder_ok ladder' ∧ sends self g' ∧ vals g' = vals g)) as Hend.
    { intros retry g2 Hs2 Hv2. apply safe_bind. destruct retry; [by apply safe_ret, safe_ret|].
      apply (safe_park ob); [by rewrite (sn_open _ _ Hs2)|by apply safe_ret]. }
    apply safe_bind. destruct (Z.of_nat a <? saturating_add (Z.of_nat h) (cap sh)); [by apply safe_ret, (Hend true)|].
    apply (safe_load_gone sh Hok limit i tr c Hi); [done|by apply (Hend false)|apply (Hend true); [by apply mpsc_sends_know|done]].
Qed.

Lemma mpsc_safe_send_loop fuel cas_fuel self ladder g v :
  sends self g → ladder_ok ladder → vals g = accepted tr → offered c = [v] →
  safe (send_loop fuel cas_fuel self v ladder) g (λ '(self', r) g', sends self' g' ∧
    match r with
    | Ok _ => vals g' = vals g ++ [v]
    | Err (SendErr w) => w = v ∧ vals g' = vals g ∧ gknow g' = true
    end).
Proof using Hok Hi.
  intros Hs Hl Hacc Hoff. assert (∃ l, l = vals g) as [l Hl'] by eauto. rewrite <-Hl'.
  revert self ladder g Hs Hl Hacc Hl'. induction fuel as [|fuel IH]; intros; [by apply safe_fuel|].
  cbn [send_loop]. apply safe_bind. eapply safe_mono; [by apply mpsc_safe_try_send|].
  intros [self' r] g' [Hs' Hr]. destruct r as [[]|[w|w]]; simpl in Hr.
  - apply safe_ret. split; [done|congruence].
  - destruct Hr as [-> Hv]. apply safe_bind. eapply safe_mono; [by apply mpsc_safe_send_wait|].
    intros ladder' g2 (Hl2 & Hs2 & Hv2). apply IH; [done|done|congruence..].
  - apply safe_ret. split; [done|]. destruct Hr as (-> & ? & ?). by split_and!; [|congruence|].
Qed.

(** Cloning: the new handle shares the ring and has seen nothing. *)
Lemma safe_Sender_clone self g :
  sends self g →
  safe (Sender_clone self) g (λ new g', new = MkSender sh 0 ∧ g' = with_clone Referenced g).
Proof using Hok Hi Hlim.
  intros [Hsh Hhd Ho Hsl Hcl]. unfold Sender_clone, Arc_clone. rewrite Hsh.
  apply safe_bind, (safe_clone_count sh Hok limit Hlim i tr c); [done..|]. intros _.
  apply safe_bind, safe_bind, (safe_clone_ref sh Hok limit Hlim i tr c); [done..|]. intros n Hn.
  rewrite (proj2 (Z.ltb_ge _ _)) by done. by apply safe_ret, safe_ret.
Qed.
End sender.

(** ** The receiver *)

Section receiver.
Context (i : tid) (tr : list (call T * event T)) (c : call T) (Hi : i = rx).
Abbreviation safe := (Logic.safe (MInvs sh limit) i tr c).
Abbreviation len g := (length (vals g)).

(** A receiver's handle in the middle of a call. *)
Record receives (self : Receiver) g : Prop := {
  rc_shared : r_shared self = sh;
  rc_head : r_head self = Z.of_nat (len g);
  rc_open : gphase g = Open;
  rc_max : Z.of_nat (len g) ≤ usize_max;
}.

(** Only what was observed differs. *)
Definition observes g g' : Prop :=
  vals g' = vals g ∧ gpub g' = gpub g ∧ gphase g' = gphase g ∧ (gdone g = true → gdone g' = true).

Lemma observes_trans g1 g2 g3 : observes g1 g2 → observes g2 g3 → observes g1 g3.
Proof using Type. unfold observes. intuition congruence. Qed.

Lemma observes_receives self g g' : receives self g → observes g g' → receives self g'.
Proof using Type. intros [] (Hv & _ & Hp & _). split; rewrite ?Hv, ?Hp; done. Qed.

Lemma observes_round g : observes g (with_done (gdone g || gknow g) g).
Proof using Type. split_and!; try done. simpl. by intros ->. Qed.

(** A look at the slot at the head: [true] when it can be taken; after an
    observed disconnect, [false] says that nothing is left. *)
Definition looked g (b : bool) g' : Prop :=
  observes g g' ∧ gknow g' = gknow g ∧
  if b then ready g' = true ∧ Z.of_nat (len g) < usize_max else gknow g = true → gdone g' = true.

Lemma safe_look {A} (f : bool → A) self g (Q : A → ghost T → Prop) :
  receives self g → (∀ b g', looked g b g' → Q (f b) g') →
  safe (i0 ← index (slots_len sh) (Z.land (r_head self) (mask sh));
        r ← load (slot_round sh i0) Acquire; mret (f (r =? round_of sh (r_head self)))) g Q.
Proof using Hok Hi.
  intros [Hsh Hh Ho Hm] HQ. rewrite Hh, (index_ticket _ Hm). apply safe_bind, safe_ret.
  apply safe_bind, (safe_load_round sh Hok limit i tr c Hi); [done| |].
  - intros Hlt. rewrite Z.eqb_refl. apply safe_ret, HQ. by split_and!.
  - intros z Hz. rewrite (proj2 (Z.eqb_neq _ _)) by done. apply safe_ret, HQ. split; [apply observes_round|].
    split; [done|]. simpl. intros ->. by rewrite orb_true_r.
Qed.

Lemma safe_slot_published self g (Q : bool → ghost T → Prop) :
  receives self g → (∀ b g', looked g b g' → Q b g') → safe (slot_published self (r_head self)) g Q.
Proof using Hok Hi.
  intros Hr HQ. unfold slot_published. rewrite (rc_shared _ _ Hr). by apply (safe_look (λ b, b)).
Qed.

Lemma safe_wake_producers self g (Q : unit → ghost T → Prop) :
  r_shared self = sh → gphase g = Open → Q tt g → safe (wake_producers self) g Q.
Proof using Hok.
  intros Hsh Ho HQ. unfold wake_producers. rewrite Hsh. case_bool; [|by apply safe_ret].
  apply safe_bind, (safe_fence ob); [by rewrite Ho|].
  apply (safe_wake_all ob); [apply waiting_in|by rewrite Ho|done].
Qed.

Lemma receives_take self g v :
  receives self g → Z.of_nat (len g) < usize_max →
  receives (MkReceiver sh (Z.of_nat (S (len g)))) (take_ghost v g).
Proof using Type. clear Hi. intros [] Hlt. split; simpl; try done; rewrite length_app; simpl; lia. Qed.

(** Taking the value at the head. *)
Lemma safe_take_from {A} self g (k : T → prog T A) (Q : A → ghost T → Prop) :
  receives self g → ready g = true → (∀ v, safe (k v) (take_ghost v g) Q) →
  safe (i0 ← index (slots_len sh) (Z.land (r_head self) (mask sh));
        v ← read_cell (slot_value sh i0); k v) g Q.
Proof using Hok Hi.
  intros [Hsh Hh Ho Hm] Hrd Hk. rewrite Hh, (index_ticket _ Hm). apply safe_bind, safe_ret.
  by apply safe_bind, (safe_take_value sh Hok limit i tr c Hi).
Qed.

Definition taken g (r : result T TryRecvError) g' : Prop :=
  gpub g' = len g' ∧
  match r with
  | Ok v => vals g' = vals g ++ [v]
  | Err Empty => vals g' = vals g
  | Err RecvDisconnected => vals g' = vals g ∧ gdone g' = true
  end.

(** The second half of [try_recv]. *)
Lemma mpsc_safe_get self g :
  receives self g → ready g = true → Z.of_nat (len g) < usize_max →
  safe (i0 ← index (slots_len sh) (Z.land (r_head self) (mask sh));
        v ← read_cell (slot_value sh i0);
        h ← arith (usize_add (r_head self) 1);
        let self := MkReceiver sh h in
        _ ← store (head sh) (r_head self) Release;
        _ ← wake_producers self;
        mret (self, Ok v)) g (λ '(self', r) g', receives self' g' ∧ taken g r g').
Proof using Hok Hi.
  intros Hr Hrd Hlt. apply safe_take_from; [done..|]. intros v. pose proof (receives_take self g v Hr Hlt) as Hr'.
  apply safe_bind. rewrite (rc_head _ _ Hr). eapply safe_arith; [by apply usize_succ|]. cbv zeta. cbn [r_head].
  assert (Z.of_nat (S (len g)) = Z.of_nat (len (take_ghost v g))) as -> by (simpl; rewrite length_app; simpl; lia).
  apply safe_bind, (safe_publish_head sh Hok limit i tr c Hi); [apply Hr'|].
  apply safe_bind, safe_wake_producers; [done|apply Hr'|]. apply safe_ret. split; [|done]. by destruct Hr'.
Qed.

Lemma mpsc_safe_try_recv self g :
  receives self g → gpub g = len g →
  safe (try_recv self) g (λ '(self', r) g', receives self' g' ∧ taken g r g').
Proof using Hok Hi.
  intros Hr Hp. unfold try_recv.
  apply safe_bind, safe_slot_published; [done|]. intros b1 g1 (Ho1 & Hk1 & Hb1).
  pose proof (observes_receives _ _ _ Hr Ho1) as Hr1. rewrite (rc_shared _ _ Hr).
  assert (∀ g2, observes g g2 → ready g2 = true → Z.of_nat (len g) < usize_max →
    safe (i0 ← index (slots_len sh) (Z.land (r_head self) (mask sh));
          v ← read_cell (slot_value sh i0);
          h ← arith (usize_add (r_head self) 1);
          let self := MkReceiver sh h in
          _ ← store (head sh) (r_head self) Release;
          _ ← wake_producers self;
          mret (self, Ok v)) g2 (λ '(self', r) g', receives self' g' ∧ taken g r g')) as Hget.
  { intros g2 Ho Hrd Hlt. pose proof Ho as (Hv & _). eapply safe_mono; [apply mpsc_safe_get|].
    - exact (observes_receives _ _ _ Hr Ho).
    - done.
    - by rewrite Hv.
    - intros [self' r] g' [? Ht]. split; [done|]. unfold taken in *. by rewrite Hv in Ht. }
  assert (∀ g2, observes g g2 → gpub g2 = len g2) as Hpub by (intros g2 (Hv & Hg & _); congruence).
  apply safe_bind. destruct b1; cbn [negb].
  { destruct Hb1. apply safe_ret. by apply Hget. }
  apply safe_bind, (safe_load_senders sh Hok limit i tr c Hi); [apply Hr1|]. intros z.
  set (g2 := with_know _ g1). assert (observes g g2) as Ho2 by (eapply observes_trans; [exact Ho1|by split_and!]).
  pose proof (observes_receives _ _ _ Hr Ho2) as Hr2.
  destruct (z =? 0) eqn:Hz.
  - apply safe_bind, safe_slot_published; [done|]. intros b3 g3 (Ho3 & Hk3 & Hb3).
    assert (observes g g3) as Ho by (by eapply observes_trans). destruct b3; cbn [negb].
    + apply safe_ret. destruct Ho2 as [Hv2 _]. rewrite Hv2 in Hb3. destruct Hb3. by apply Hget.
    + apply safe_ret, safe_ret. split; [exact (observes_receives _ _ _ Hr Ho)|]. split; [by apply Hpub|]. split; [apply Ho|].
      apply Hb3. unfold g2. simpl. apply orb_true_r.
  - apply safe_ret, safe_ret. split; [done|]. split; [by apply Hpub|apply Ho2].
Qed.

(** Spinning and waiting only observe. *)
Definition idles self g (g' : ghost T) : Prop := receives self g' ∧ gpub g' = gpub g ∧ vals g' = vals g.

Lemma idles_refl self g : receives self g → idles self g g.
Proof using Type. by split. Qed.

Lemma idles_look self g g1 b g2 : receives self g → idles self g g1 → looked g1 b g2 → idles self g g2.
Proof using Type.
  intros Hr (Hr1 & Hp & Hv) (Ho & _). pose proof (observes_receives _ _ _ Hr1 Ho).
  destruct Ho as (Hv' & Hp' & _). split_and!; [done|congruence..].
Qed.

Lemma safe_park_spins n self g g0 (Q : bool → ghost T → Prop) :
  receives self g0 → idles self g0 g → (∀ b g', idles self g0 g' → Q b g') → safe (park_spins n self) g Q.
Proof using Hok Hi.
  intros Hr0. revert g. induction n as [|n IH]; intros g Hid HQ; [by apply safe_ret, HQ|].
  cbn [park_spins]. apply safe_bind, safe_slot_published; [apply Hid|]. intros b g1 Hl.
  pose proof (idles_look _ _ _ _ _ Hr0 Hid Hl) as Hid1. destruct b; [by apply safe_ret, HQ|].
  apply safe_bind, (safe_hint ob); [|by apply IH]. destruct Hid1 as [Hr1 _]. by rewrite (rc_open _ _ Hr1).
Qed.

Lemma mpsc_safe_recv_wait self ladder g :
  receives self g → ladder_ok ladder →
  safe (recv_wait self ladder) g (λ ladder' g', ladder_ok ladder' ∧ idles self g g').
Proof using Hok Hi.
  intros Hr Hl. unfold recv_wait. rewrite (rc_shared _ _ Hr). pose proof (rc_open _ _ Hr) as Ho.
  assert (here g) as Hg by (by rewrite Ho). pose proof (idles_refl _ _ Hr) as Hid0. destruct (strategy sh).
  - apply safe_bind, (safe_hint ob); [done|]. by apply safe_ret.
  - by apply (safe_idle ob).
  - by apply (safe_idle ob).
  - apply safe_bind, (safe_park_spins PARK_SPINS self g g); [done..|]. intros b g1 Hid1.
    destruct b; [by apply safe_ret|]. assert (here g1) as Hg1 by (by rewrite (rc_open _ _ (proj1 Hid1))).
    apply safe_bind, (safe_prepare_park ob); [apply parked_in|done|].
    apply safe_bind, (safe_fence ob); [done|].
    apply safe_bind, safe_slot_published; [apply Hid1|]. intros b g2 Hl2.
    pose proof (idles_look _ _ _ _ _ Hr Hid1 Hl2) as Hid2.
    assert (∀ (retry : bool) g3, idles self g g3 →
      safe (_ ← (if retry then cancel (consumer_parker sh) else Parker_park (consumer_parker sh)); mret ladder) g3
        (λ ladder' g', ladder_ok ladder' ∧ idles self g g')) as Hend.
    { intros retry g3 Hid3. apply (safe_settle ob Consumer parked_in); [by rewrite (rc_open _ _ (proj1 Hid3))|done]. }
    apply safe_bind. destruct b; [by apply safe_ret, (Hend true)|].
    apply safe_bind, (safe_load_senders sh Hok limit i tr c Hi); [apply Hid2|]. intros z. apply safe_ret, Hend.
    destruct Hid2 as ([] & ? & ?). by split_and!.
Qed.

Lemma mpsc_safe_recv_loop fuel self ladder g :
  receives self g → gpub g = len g → ladder_ok ladder →
  safe (recv_loop fuel self ladder) g (λ '(self', r) g', receives self' g' ∧ gpub g' = len g' ∧
    match r with
    | Ok v => vals g' = vals g ++ [v]
    | Err _ => vals g' = vals g ∧ gdone g' = true
    end).
Proof using Hok Hi.
  intros Hr Hp Hl. assert (∃ l, l = vals g) as [l Hl'] by eauto. rewrite <-Hl'.
  revert self ladder g Hr Hp Hl Hl'. induction fuel as [|fuel IH]; intros; [by apply safe_fuel|].
  cbn [recv_loop]. apply safe_bind. eapply safe_mono; [by apply mpsc_safe_try_recv|].
  intros [self' r] g' (Hr' & Hp' & Hv). destruct r as [v|[]].
  - apply safe_ret. by rewrite Hl'.
  - apply safe_bind. eapply safe_mono; [by apply mpsc_safe_recv_wait|].
    intros ladder' g2 (? & ? & ? & Hv2). apply IH; [done| |done|congruence]. by rewrite Hv2; congruence.
  - apply safe_ret. by rewrite Hl'.
Qed.

(** ** Draining *)

(** The values taken are exactly those the callback saw, in order. *)
Definition drained cb (env : list T) (count : Z) g (x : Receiver * list T * exit) g' : Prop :=
  receives x.1.1 g' ∧ gpub g' = gpub g ∧ ∃ l, vals g' = vals g ++ l ∧ x.1.2 = env ++ l ∧ ended cb count l x.2.

Lemma mpsc_safe_drain_loop fuel max cb self env count g :
  receives self g → 0 ≤ count ≤ Z.of_nat (len g) →
  safe (drain_loop fuel max self (collect cb) env count) g (drained cb env count g).
Proof using Hok Hi.
  revert self env count g. induction fuel as [|fuel IH]; intros self env count g Hr Hc; [by apply safe_fuel|].
  cbn [drain_loop]. assert (∀ g', observes g g' → drained cb env count g (self, env, Returned count) g') as Hrefl.
  { intros g' Ho. pose proof (observes_receives _ _ _ Hr Ho). destruct Ho as (Hv & Hp & _).
    split_and!; [done|done|]. exists []. rewrite !app_nil_r. split_and!; [done..|]. simpl. clear Hi. lia. }
  destruct (negb (count <? max)); [by apply safe_ret, Hrefl|].
  rewrite (rc_shared _ _ Hr), (rc_head _ _ Hr), (index_ticket _ (rc_max _ _ Hr)). apply safe_bind, safe_ret.
  apply safe_bind, (safe_load_round sh Hok limit i tr c Hi); [apply Hr| |].
  2: { intros z Hz. rewrite (proj2 (Z.eqb_neq _ _)) by done. apply safe_ret, Hrefl, observes_round. }
  intros Hlt. rewrite Z.eqb_refl. cbn [negb]. set (g1 := with_ready true g).
  assert (receives self g1) as Hr1 by (by destruct Hr).
  apply safe_bind, (safe_take_value sh Hok limit i tr c Hi g1); [apply Hr1|done|]. intros v.
  rewrite (usize_succ _ Hlt).
  pose proof (receives_take self g1 v Hr1 Hlt) as Hr2. pose proof (rc_max _ _ Hr2) as Hm.
  assert (usize_add count 1 = Some (count + 1)) as ->.
  { apply checked_in_range. simpl in Hm. rewrite length_app in Hm. unfold is_usize, usize_max in *. simpl in Hm. clear Hi. lia. }
  unfold collect at 1. destruct (cb v) eqn:Hcbv.
  - eapply safe_mono; [apply IH; [exact Hr2|simpl; rewrite length_app; simpl; clear Hi; lia]|].
    intros [[self' env'] e] g' (Hr' & Hp' & l & Hl & He & Hx). split_and!; [done|done|]. exists (v :: l).
    cbn [fst snd] in *. rewrite Hl, He. simpl. rewrite <-!app_assoc. split_and!; [done..|].
    destruct e as [k|]; simpl in *; [clear Hi; lia|]. destruct Hx as (w & Hw & Hcb). exists w. split; [by apply elem_of_cons; right|done].
  - apply safe_ret. split_and!; [done|done|]. exists [v]. split_and!; [done..|]. exists v. split; [by apply elem_of_cons; left|done].
Qed.

Lemma mpsc_safe_drain fuel max cb self g :
  receives self g → gpub g = len g →
  safe (drain fuel self max (collect cb) []) g (λ '(self', env', e) g',
    receives self' g' ∧ gpub g' = len g' ∧ vals g' = vals g ++ env' ∧ ended cb 0 env' e).
Proof using Hok Hi.
  intros Hr Hp. unfold drain. apply safe_bind. eapply safe_mono.
  { apply (mpsc_safe_drain_loop fuel max cb self [] 0 g); [done|]. clear Hi. lia. }
  intros [[self' env'] e] g' (Hr' & Hp' & l & Hl & He & Hx). cbn [fst snd app] in *. subst env'.
  assert (Hpub : ∀ Q : unit → ghost T → Prop,
    (∀ g2, receives self' g2 → gpub g2 = len g2 → vals g2 = vals g ++ l → Q tt g2) →
    safe (publish_guard_drop self' (r_head self)) g' Q).
  { intros Q HQ. unfold publish_guard_drop. rewrite (rc_head _ _ Hr), (rc_head _ _ Hr'), (rc_shared _ _ Hr').
    destruct (Z.eqb_spec (Z.of_nat (len g')) (Z.of_nat (len g))); cbn [negb].
    - apply safe_ret, HQ; [done| |done]. clear Hi. lia.
    - apply (safe_publish_head sh Hok limit i tr c Hi); [apply Hr'|]. apply HQ; [|done..]. by destruct Hr'. }
  apply safe_bind, Hpub. intros g2 Hr2 Hp2 Hv2. destruct e as [count|]; [|by apply safe_ret].
  apply safe_bind. case_bool; [apply safe_wake_producers; [apply Hr2|apply Hr2|]|apply safe_ret]; by apply safe_ret.
Qed.
End receiver.

(** ** Dropping a handle *)

Section drops.
Context (i : tid) (tr : list (call T * event T)) (c : call T).
Abbreviation safe := (Logic.safe (MInvs sh limit) i tr c).

(** Walking over what is left: up to the end of the log, never out of fuel. *)
Lemma safe_drop_prefix fuel g p d n (Q : unit → ghost T → Prop) :
  gphase g = Freeing → plan g = Some (p, d, n) → (d ≤ n)%nat → Z.of_nat n ≤ usize_max → (n < d + fuel)%nat →
  Q tt (with_plan (Some (p, n, n)) g) → safe (drop_prefix fuel sh (Z.of_nat d)) g Q.
Proof using Hok.
  revert g d. induction fuel as [|fuel IH]; intros g d Hph Hpl Hle Hmax Hfuel HQ; [lia|].
  cbn [drop_prefix]. rewrite index_ticket by lia. apply safe_bind, safe_ret.
  apply safe_bind, (safe_load_round_left sh Hok limit i tr c g p d n); [done..|]. intros z ->.
  case_bool_decide as Hlt; cbn [negb].
  - apply safe_bind, (safe_drop_left sh Hok limit i tr c g p d n); [done..|].
    apply safe_bind. eapply safe_arith; [apply usize_succ; lia|]. apply IH; try done; lia.
  - apply safe_ret. assert (d = n) as -> by lia. destruct g; simpl in *; by subst.
Qed.

Lemma safe_Arc_drop g (Q : unit → ghost T → Prop) :
  gphase g = Closed →
  (∀ g', vals g' = vals g → gphase g' = Gone → gknow g' = gknow g → gdone g' = gdone g → Q tt g') →
  safe (Arc_drop sh) g Q.
Proof using Hok Hlim.
  intros Hph HQ. unfold Arc_drop.
  apply safe_bind, (safe_release_ref sh Hok limit Hlim i tr c); [done..|]. intros k.
  destruct (Z.eqb_spec k 1) as [->|Hne].
  - apply safe_bind, (safe_freeing_fence sh Hok limit i tr c); [done..|]. intros p n Hle Hmax Hroom.
    set (g1 := with_plan _ _). pose proof (capn_cap sh Hok) as [Hcap _].
    apply safe_bind. unfold Shared_drop.
    apply safe_bind, (safe_load_left sh Hok limit i tr c g1 p p n); [done..|].
    apply (safe_drop_prefix _ g1 p p n); try done; [unfold capn in *; lia|].
    apply (safe_free_block sh Hok limit i tr c _ p n); [done..|]. by apply HQ.
  - apply safe_ret, HQ; try done. unfold release_ghost, released_phase. simpl.
    by rewrite (proj2 (Z.eqb_neq _ _)).
Qed.

Lemma safe_Sender_drop self g (Q : unit → ghost T → Prop) :
  drops c = true → i ≠ rx → sends self g →
  (∀ g', vals g' = vals g → gphase g' = Gone → gknow g' = gknow g → Q tt g') → safe (Sender_drop self) g Q.
Proof using Hok Hlim.
  intros Hc Hi [Hsh Hhd Ho Hsl Hcl] HQ. unfold Sender_drop. rewrite Hsh.
  apply safe_bind, (safe_close_tx sh Hok limit Hlim i tr c); [done..|]. intros n.
  apply safe_bind. assert (safe (Arc_drop sh) (with_phase Closed g) Q) as Hend.
  { apply safe_Arc_drop; [done..|]. intros g' Hv Hg Hk _. by apply HQ. }
  destruct (n =? 1); [|by apply safe_ret].
  apply safe_bind, (safe_fence ob); [done|]. by apply (safe_wake ob); [apply parked_in|..].
Qed.

Lemma safe_Receiver_drop self g (Q : unit → ghost T → Prop) :
  drops c = true → i = rx → receives self g → gpub g = length (vals g) →
  (∀ g', vals g' = vals g → gphase g' = Gone → gdone g' = gdone g → Q tt g') →
  safe (Receiver_drop self) g Q.
Proof using Hok Hlim.
  intros Hc Hi [Hsh Hh Ho Hm] Hp HQ. unfold Receiver_drop. rewrite Hsh.
  apply safe_bind, (safe_close_rx sh Hok limit i tr c); [done..|].
  apply safe_bind, (safe_fence ob); [done|].
  apply safe_bind, (safe_wake_all ob); [apply waiting_in|done|].
  apply safe_Arc_drop; [done..|]. intros g' Hv Hg _ Hd. by apply HQ.
Qed.
End drops.
End operations.
