(* ===== verification/MpscClients.v ===== *)
(** Clients of the MPSC ring: threads that each own one handle, a sender's or
    the receiver's, make any calls on it and pass cloned senders to new
    threads; the two obligations of the logic for every call. *)
From S2P Require Import Prelude Usize Atomic Errors Wait Notify Ring Queue Mpsc Seq Memory Machine Logic Parking.
From S2P Require Import MpscInv MpscProt MpscActs MpscTake MpscDrop MpscFree MpscCalls MpscConc MpscOps.
From S2P Require MpscSeq.
Local Open Scope Z_scope.

(** What a thread owns. *)
Inductive handle := HSender (self : Sender) | HReceiver (self : Receiver).

Section clients.
Context `{tgt : Target} {T : Type} (cb : T → bool).

(** A call on a handle. [drain] is given the callback that keeps what it sees
    and panics on the values [cb] rejects. A call that does not fit the handle
    cannot be written in the source; it changes nothing. *)
Definition start (c : call T) (h : handle) : prog T (reply handle (event T)) :=
  match c, h with
  | CTrySend fuel v, HSender self =>
      '(self, r) ← try_send fuel self v; mret (Some (HSender self), [], EvTrySend r)
  | CSend fuel cas_fuel v, HSender self =>
      '(self, r) ← send fuel cas_fuel self v; mret (Some (HSender self), [], EvSend r)
  | CClone, HSender self =>
      new ← Sender_clone self; mret (Some (HSender self), [HSender new], EvCloned)
  | CDropSender, HSender self => _ ← Sender_drop self; mret (None, [], EvDropped)
  | CTryRecv, HReceiver self =>
      '(self, r) ← try_recv self; mret (Some (HReceiver self), [], EvTryRecv r)
  | CRecv fuel, HReceiver self =>
      '(self, r) ← recv fuel self; mret (Some (HReceiver self), [], EvRecv r)
  | CDrain fuel max, HReceiver self =>
      '(self, seen, e) ← drain fuel self max (collect cb) [];
      mret (Some (HReceiver self), [], EvDrain seen e)
  | CDropReceiver, HReceiver self => _ ← Receiver_drop self; mret (None, [], EvDropped)
  | _, h => mret (Some h, [], EvNoHandle)
  end.

Section calls.
Variable sh : Shared.
Hypothesis Hok : MpscSeq.shared_ok sh.
Variable limit : Z.
Hypothesis Hlim : 2 * (limit + 2) ≤ MAX_REFCOUNT.
Implicit Types (g : ghost T) (i : tid) (V : tview) (tr : list (call T * event T)).
Abbreviation Inv := (MInvs sh limit).

Definition ready_ok i (h : handle) V g tr : Prop :=
  match h with
  | HSender self => i ≠ rx ∧ sends sh self g
  | HReceiver self => i = rx ∧ receives sh self g ∧ gpub g = length (vals g)
  end.

Definition gone_ok i g : Prop := gphase g = Gone.

(** A drain counted what it gave to the callback, unless that panicked. *)
Definition drain_done (o : event T) : Prop :=
  match o with EvDrain seen e => ended cb 0 seen e | _ => True end.

(** What a call leaves: its entry in the log, and the handles. *)
Definition post i tr (c : call T) (r : reply handle (event T)) V g : Prop :=
  let '(keep, new, o) := r in
  done_log i tr (c, o) g ∧ drain_done o ∧
  match new with
  | [] => match keep with Some h => ready_ok i h V g tr | None => gphase g = Gone end
  | [h] => i ≠ rx ∧ h = HSender (MkSender sh 0) ∧
      ∃ self g0, keep = Some (HSender self) ∧ sends sh self g0 ∧ g = with_clone Referenced g0
  | _ => False
  end.

(** A call whose outcome does not depend on the views. *)
Lemma safe_call i tr c (p : prog T (reply handle (event T))) V g :
  safe Inv i tr c p g (λ r g', ∀ V', post i tr c r V' g') →
  wp Inv i tr c (post i tr c) p V g.
Proof using Type. intros Hp. eapply wp_mono; [|apply Hp]. intros r V' g' Hr. apply Hr. Qed.

Lemma sender_logs i tr x g :
  i ≠ rx → vals g = accepted tr ++ accepted_by x → (saw_disconnect x = true → gknow g = true) → done_log i tr x g.
Proof using Type. intros Hi Hv Hk. unfold done_log. rewrite decide_False by done. by rewrite mpsc_accepted_snoc. Qed.

Lemma receiver_logs tr x g :
  vals g = received tr ++ received_by x → (saw_disconnect x = true → gdone g = true) → done_log rx tr x g.
Proof using Type. intros Hv Hk. unfold done_log. rewrite decide_True by done. by rewrite mpsc_received_snoc. Qed.

Lemma mpsc_start_sender i tr c self g V :
  i ≠ rx → sends sh self g → vals g = accepted tr →
  wp Inv i tr c (post i tr c) (start c (HSender self)) V g.
Proof using Hok Hlim.
  intros Hi Hs Hl. apply safe_call. clear V.
  destruct c as [fuel v|fuel cas_fuel v| | | |fuel|fuel max|]; cbn [start].
  all: try (apply safe_ret; intros V; split; [apply sender_logs; cbn; rewrite ?app_nil_r; done|by split]).
  - apply safe_bind. eapply safe_mono; [by apply (mpsc_safe_try_send sh Hok limit i tr _ Hi)|].
    intros [self' r] g' [Hs' Hr]. apply safe_ret. intros V. split; [|by split].
    unfold sent in Hr. rewrite Hl in Hr. apply sender_logs; [done|..];
      destruct r as [[]|[w|w]]; simpl in Hr; cbn; rewrite ?app_nil_r; intuition (congruence || done).
  - apply safe_bind. eapply safe_mono.
    { by apply (mpsc_safe_send_loop sh Hok limit i tr _ Hi); [|apply for_strategy_ok|..]. }
    intros [self' r] g' [Hs' Hr]. apply safe_ret. intros V. split; [|by split].
    rewrite Hl in Hr. apply sender_logs; [done|..];
      destruct r as [[]|[w]]; simpl in Hr; cbn; rewrite ?app_nil_r; intuition (congruence || done).
  - apply safe_bind. eapply safe_mono; [by apply (safe_Sender_clone sh Hok limit Hlim i tr _ Hi)|].
    intros new g' [-> ->]. apply safe_ret. intros V. split; [apply sender_logs; cbn; rewrite ?app_nil_r; done|].
    split; [done|]. split; [done|]. split; [done|]. by exists self, g.
  - apply safe_bind, (safe_Sender_drop sh Hok limit Hlim i tr _ self); [done..|].
    intros g' Hv Hg Hk. apply safe_ret. intros V. split; [|by split].
    apply sender_logs; cbn; rewrite ?app_nil_r; [done|congruence|done].
Qed.

Lemma mpsc_start_receiver tr c self g V :
  receives sh self g → gpub g = length (vals g) → vals g = received tr →
  wp Inv rx tr c (post rx tr c) (start c (HReceiver self)) V g.
Proof using Hok Hlim.
  intros Hr Hp Hl. apply safe_call. clear V.
  destruct c as [fuel v|fuel cas_fuel v| | | |fuel|fuel max|]; cbn [start].
  all: try (apply safe_ret; intros V; split; [apply receiver_logs; cbn; rewrite ?app_nil_r; done|by split]).
  - apply safe_bind. eapply safe_mono; [by apply (mpsc_safe_try_recv sh Hok limit rx tr _ eq_refl)|].
    intros [self' r] g' (Hr' & Hp' & Hv). apply safe_ret. intros V. split; [|by split].
    rewrite Hl in Hv. apply receiver_logs; destruct r as [v|[]]; cbn; rewrite ?app_nil_r; intuition (congruence || done).
  - apply safe_bind. eapply safe_mono.
    { by apply (mpsc_safe_recv_loop sh Hok limit rx tr _ eq_refl); [..|apply for_strategy_ok]. }
    intros [self' r] g' (Hr' & Hp' & Hv). apply safe_ret. intros V. split; [|by split].
    rewrite Hl in Hv. apply receiver_logs; destruct r as [v|[]]; cbn; rewrite ?app_nil_r; intuition (congruence || done).
  - apply safe_bind. eapply safe_mono; [by apply (mpsc_safe_drain sh Hok limit rx tr _ eq_refl)|].
    intros [[self' seen] e] g' (Hr' & Hp' & Hv & Hx). apply safe_ret. intros V. split; [|by split].
    rewrite Hl in Hv. by apply receiver_logs.
  - apply safe_bind, (safe_Receiver_drop sh Hok limit Hlim rx tr _ self); [done..|].
    intros g' Hv Hg Hd. apply safe_ret. intros V. split; [|by split].
    apply receiver_logs; cbn; rewrite ?app_nil_r; [congruence|done].
Qed.

(** ** The two obligations of the logic *)

Lemma mpsc_start_ok Γ m i g V tr h c :
  Inv Γ m → Γ !! i = Some (Ent g V tr None) → ready_ok i h V g tr → calls_in Γ < limit →
  Inv (<[i := Ent g V tr (Some c)]> Γ) m ∧ wp Inv i tr c (post i tr c) (start c h) V g.
Proof using Hok Hlim.
  intros ((G & HI) & HO) Hi Hr Hcalls. pose proof (lo_log _ _ _ _ _ (mi_local _ _ _ _ _ HI _ _ Hi)) as Hl. split.
  - split; [exists G; by apply call_inv|]. apply open_calls_upd; [done|]. intros c' _ _.
    destruct h as [self|self]; simpl in Hr; [apply (sn_open _ _ _ (proj2 Hr))|apply (rc_open _ _ _ (proj1 (proj2 Hr)))].
  - unfold log_ok in Hl. simpl in Hl. destruct h as [self|self]; simpl in Hr.
    + destruct Hr as [Hne Hs]. rewrite decide_False in Hl by done. by apply mpsc_start_sender; [..|apply Hl].
    + destruct Hr as (-> & Hs & Hp). rewrite decide_True in Hl by done. by apply mpsc_start_receiver; [..|apply Hl].
Qed.

Lemma clone_done g0 self : sends sh self g0 → with_clone NoClone (with_clone Referenced g0) = g0.
Proof using Hok. intros []. destruct g0. simpl in *. by subst. Qed.

Lemma mpsc_finish_ok Γ m i g V tr c keep new o :
  Inv Γ m → Γ !! i = Some (Ent g V tr (Some c)) → post i tr c (keep, new, o) V g →
  ∃ g' gs,
    Inv (<[i := Ent g' V (tr ++ [(c, o)]) None]> Γ ++ ((λ g, Ent g V [] None) <$> gs)) m ∧
    (∀ h, keep = Some h → ready_ok i h V g' (tr ++ [(c, o)])) ∧
    (keep = None → gone_ok i g') ∧ length gs = length new ∧
    (∀ j h g, new !! j = Some h → gs !! j = Some g → ready_ok (length Γ + j) h V g []).
Proof using Hok.
  intros ((G & HI) & HO) Hi (Hlog & _ & Hnew). destruct new as [|h [|]]; [| |done].
  - exists g, []. rewrite app_nil_r. split_and!; try done.
    + split; [exists G; by apply return_call_inv|by apply open_calls_upd].
    + by intros h ->.
    + by intros ->.
  - destruct Hnew as (Hne & -> & self & g0 & -> & Hs & ->).
    exists (with_clone NoClone (with_clone Referenced g0)), [new_ghost]. split_and!; try done.
    + split; [eexists; apply (spawn_inv sh Hok); try done; apply Hs|].
      intros j e c' [Hj|[_ [_ <-]%list_lookup_singleton_Some]]%lookup_app_Some; [|done].
      revert j e c' Hj. by apply open_calls_upd.
    + intros h [= <-]. by rewrite (clone_done _ _ Hs).
    + intros j h g1 [-> <-]%list_lookup_singleton_Some [_ <-]%list_lookup_singleton_Some.
      pose proof (mi_rx _ _ _ _ _ HI). split; [lia|done].
Qed.
End calls.
End clients.
