(* ===== verification/MpscRuns.v ===== *)
(** Runs of the MPSC ring: any number of sender threads, cloned at run time,
    and one receiver thread, under any schedule; and what every such run
    guarantees. *)
From S2P Require Import Prelude Usize Atomic Errors Wait Notify Ring Queue Mpsc Seq Memory Machine Logic Parking.
From S2P Require Import MpscInv MpscProt MpscActs MpscTake MpscDrop MpscFree MpscCalls MpscConc MpscOps MpscClients.
From S2P Require MpscSeq.
Local Open Scope Z_scope.

(** ** Fresh histories *)

Fixpoint initial_value (f : field) (init : list (field * Z)) : option Z :=
  match init with
  | [] => None
  | (f', v) :: init => if decide (f' = f) then Some v else initial_value f init
  end.

Lemma alloc_hist_lookup r init H f v :
  initial_value f init = Some v → alloc_hist r init H !! Loc r f = Some {[0%nat := Msg v ∅]}.
Proof.
  induction init as [|[f' v'] init IH]; [done|]. simpl. case_decide as Hf.
  - intros [= <-]. by rewrite Hf, lookup_insert_eq.
  - intros Hv. rewrite lookup_insert_ne by (by intros [=]). auto.
Qed.

Lemma initial_value_app f l1 l2 :
  initial_value f (l1 ++ l2) = match initial_value f l1 with Some v => Some v | None => initial_value f l2 end.
Proof. induction l1 as [|[f' v'] l1 IH]; simpl; [done|]. by case_decide. Qed.

Lemma initial_value_rounds n i : (i < n)%nat → initial_value (Round i) (initial_rounds n) = Some (-1).
Proof.
  intros Hi. unfold initial_rounds. assert (0 ≤ i < 0 + n)%nat as Hk by lia. clear Hi. revert Hk.
  generalize 0%nat as k. induction n as [|n IH]; intros k Hk; simpl; [lia|]. case_decide as Hf; [done|].
  apply IH. assert (k ≠ i) by (intros ->; done). lia.
Qed.

Lemma initial_value_other n f : (∀ i, f ≠ Round i) → initial_value f (initial_rounds n) = None.
Proof.
  intros Hf. unfold initial_rounds. generalize 0%nat as k.
  induction n as [|n IH]; intros k; simpl; [done|]. rewrite decide_False by (intros He; by apply (Hf k)). apply IH.
Qed.

Section runs.
Context `{tgt : Target} {T : Type} (cb : T → bool).
Abbreviation start := (start cb).
Abbreviation mthread := (thread T handle (call T) (event T)).
Abbreviation conf := (config T handle (call T) (event T)).

(** The main thread creates the channel and hands the ends out: thread 0 gets
    the sender, thread 1 the receiver; clones get the threads from 2 on. *)
Definition launch (cap : Z) (strat : WaitStrategy) : option conf :=
  '(tx, rx, V, m) ← lone_run 2 0 (channel cap strat) fresh_view empty_mem;
  Some (Config m [Thread V (Ready (HSender tx)) []; Thread V (Ready (HReceiver rx)) []]).

(** ** The start of a run *)

Section initial.
Variables (capacity : Z) (strat : WaitStrategy).
Hypothesis Hpos : 0 < capacity.
Hypothesis Hmax : capacity ≤ usize_max.
Hypothesis Hpow : is_power_of_two capacity = true.

Definition shared : Shared := MkShared 0 capacity (capacity - 1) capacity (trailing_zeros capacity) strat.
Definition counts : loc := strong shared.
Definition view0 : tview := read_view counts 0 Relaxed (Msg 1 ∅) fresh_view.
Definition view1 : tview := write_view counts 1 view0.
Definition fields : list (field * Z) :=
  [(StrongCount, 1); (Claim, 0); (Head, 0); (Senders, 1); (RxDropped, Z.b2z false)]
    ++ initial_rounds (Z.to_nat capacity) ++ Parker_new Consumer ++ WaiterList_new.
Abbreviation mem0 := (malloc (Z.to_nat capacity) fields (empty_mem (T := T))).
Definition mem1 : mem T :=
  add_msg counts 1 (Msg 2 (vjoin ∅ (released counts 1 Relaxed view0))) mem0.
Definition initial : conf :=
  Config mem1 [Thread view1 (Ready (HSender (MkSender shared 0))) [];
               Thread view1 (Ready (HReceiver (MkReceiver shared 0))) []].

Lemma mpsc_shared_ok : MpscSeq.shared_ok shared.
Proof using Hpos Hmax Hpow.
  pose proof (proj1 (is_power_of_two_spec _) Hpow) as (k & Hk & Hcapk).
  split; [by apply ring_ok_intro|]. simpl. rewrite Hcapk, trailing_zeros_pow2 by done. done.
Qed.

Lemma mpsc_counts_new : hist mem0 !! counts = Some {[0%nat := Msg 1 ∅]} ∧ newest counts mem0 = 0%nat.
Proof using Type.
  assert (hist mem0 !! counts = Some {[0%nat := Msg 1 ∅]}) as Hh by (by apply alloc_hist_lookup).
  split; [done|]. unfold newest. rewrite Hh. by vm_compute.
Qed.

Lemma mpsc_launch_eq : launch capacity strat = Some initial.
Proof using Hpos Hmax Hpow.
  pose proof usize_modulus_ge. destruct (MpscSeq.sok_shift _ mpsc_shared_ok) as [_ Hs].
  unfold launch, channel, assert_cap. rewrite (proj2 (Z.ltb_lt _ _) Hpos), Hpow.
  assert (usize_sub capacity 1 = Some (capacity - 1)) as ->.
  { apply checked_in_range. unfold is_usize, usize_max in *. lia. }
  assert ((wrap (Z.shiftl 1 (trailing_zeros capacity)) =? capacity) = true) as Hsh.
  { rewrite Z.shiftl_1_l. simpl in Hs. rewrite <-Hs.
    apply Z.eqb_eq, wrap_small. unfold is_usize, usize_max in *. lia. }
  assert (wrap (1 + 1) = 2) as Hw by (apply wrap_small; unfold is_usize; lia).
  assert ((MAX_REFCOUNT <? 1) = false) as Hr by (pose proof MAX_REFCOUNT_ge; apply Z.ltb_ge; lia).
  cbv beta iota zeta delta [lone_run lone_pick Memory.step mbind prog_bind bind mret prog_ret
    Arc_clone fetch_add arith andb]. rewrite Hsh. cbn [negb].
  replace (if debug_assertions then false else false) with false by (by destruct debug_assertions).
  change (nextring empty_mem) with 0%nat. fold fields shared. fold counts.
  destruct mpsc_counts_new as [-> ->].
  rewrite lookup_singleton_eq, lookup_singleton_ne by done.
  rewrite (proj2 (Nat.leb_le _ _)) by (vm_compute; lia). cbn [mval mview]. rewrite Hw, Hr. done.
Qed.

(** The protocol's state at the start. *)
Definition glob0 : glob T := Glob [] 0 0 0 true {[0%nat]} ∅ {[0%nat; rx]} ∅ None false.
Definition entry0 : ent (ghost T) (call T) (event T) := Ent new_ghost view1 [] None.

Lemma mpsc_hist1 f v :
  f ≠ StrongCount → initial_value f fields = Some v → hist mem1 !! Loc 0 f = Some {[0%nat := Msg v ∅]}.
Proof using Type.
  intros Hne Hv. unfold mem1. rewrite hist_add_other by (by intros [=]). by apply alloc_hist_lookup.
Qed.

Lemma mpsc_cells1 j : (j < Z.to_nat capacity)%nat → mcells mem1 !! Loc 0 (Buf j) = Some (0%nat, None).
Proof using Type.
  simpl. generalize (Z.to_nat capacity). intros n. induction n as [|n IH]; intros Hj; [lia|]. simpl.
  destruct (decide (j = n)) as [->|]; [by rewrite lookup_insert_eq|].
  rewrite lookup_insert_ne by (intros [=]; lia). apply IH. lia.
Qed.

Lemma covers_zero W : covers shared glob0 0 W.
Proof using Type. intros q Hq. lia. Qed.

Lemma initial_skip f :
  (∀ i, f ≠ Round i) → f ≠ StrongCount →
  initial_value f fields = initial_value f ([(Claim, 0); (Head, 0); (Senders, 1); (RxDropped, 0)] ++
    Parker_new Consumer ++ WaiterList_new).
Proof using Type.
  intros Hr Hs. unfold fields. rewrite !initial_value_app, initial_value_other by done. simpl.
  rewrite decide_False by done. repeat case_decide; done.
Qed.

(** One store, at timestamp 0. *)
Lemma one_store (t : nat) (x : msg) v : ({[0%nat := Msg v ∅]} : gmap nat msg) !! t = Some x → t = 0%nat ∧ mval x = v.
Proof using Type. by intros [<- <-]%lookup_singleton_Some. Qed.
Lemma one_dom (t : nat) v : is_Some (({[0%nat := Msg v ∅]} : gmap nat msg) !! t) ↔ (t ≤ 0)%nat.
Proof using Type.
  split; [by intros [x [-> _]%one_store]|]. intros Ht. assert (t = 0%nat) as -> by lia.
  rewrite lookup_singleton_eq. by eexists.
Qed.

Lemma mpsc_fresh_mem : mem_ok shared glob0 mem1.
Proof using Hpos Hmax Hpow.
  split.
  - eexists. split; [apply mpsc_hist1; [done|by rewrite initial_skip]|]. split; [intros ?; apply one_dom|]. by intros t x [-> ->]%one_store.
  - eexists. split; [apply mpsc_hist1; [done|by rewrite initial_skip]|]. split.
    + intros t x [-> ->]%one_store. exists 0%nat. split_and!; [done|done|apply covers_zero].
    + exists 0%nat, (Msg 0 ∅). rewrite lookup_singleton_eq. split_and!; [done..|]. intros t. apply one_dom.
  - intros j Hj. eexists. split; [apply mpsc_hist1; [done|]|].
    { unfold fields. rewrite initial_value_app. simpl. by rewrite initial_value_app, initial_value_rounds. }
    split_and!; [eexists; by rewrite lookup_singleton_eq| |].
    + intros t x [-> ->]%one_store. by left.
    + by intros q tk t _ Hq.
  - eexists. split; [apply mpsc_hist1; [done|by rewrite initial_skip]|]. exists 0%nat, (Msg 1 ∅).
    rewrite lookup_singleton_eq. split_and!; [intros ?; apply one_dom|done|done|by intros q tk Hq|].
    by intros t y [-> _]%one_store.
  - eexists. split; [apply mpsc_hist1; [done|by rewrite initial_skip]|]. intros t x [_ ->]%one_store. by left.
  - eexists. split; [apply hist_add_same, mpsc_counts_new|]. exists 1%nat. eexists. rewrite lookup_insert_eq.
    split_and!; [|done|done|by intros q tk Hq|intros Hn; set_solver +Hn].
    intros t. rewrite lookup_insert_is_Some, lookup_singleton_is_Some. split; [lia|].
    intros Ht. destruct (decide (1 = t)%nat); [by left|right; lia].
  - eexists. apply mpsc_hist1; [done|by rewrite initial_skip].
  - eexists. apply mpsc_hist1; [done|by rewrite initial_skip].
  - split; [by intros q tk _ Hq|]. intros q [_ Hq]. change (q < capn shared)%nat in Hq.
    rewrite (turn_small shared mpsc_shared_ok) by done. apply mpsc_cells1, (sl_lt shared mpsc_shared_ok).
Qed.

Lemma mpsc_fresh_inv limit : 0 ≤ limit → MInv shared limit glob0 [entry0; entry0] mem1.
Proof using Hpos Hmax Hpow.
  intros Hl. pose proof usize_modulus_ge. split; [| |unfold rx; simpl; lia|simpl; unfold weight; simpl; lia|simpl; lia].
  - split; simpl; try done; try lia; try set_solver +.
    + unfold ntk. simpl. lia.
    + unfold ntk, usize_max. simpl. lia.
    + intros _. apply mpsc_fresh_mem.
  - intros [|[|]] e; simpl; [| |done]; intros [= <-].
    + apply sender_local; [done|..|done].
      * split; simpl; try done; unfold rx; set_solver +.
      * split; simpl; try done. split; [done|apply covers_zero].
    + apply receiver_local; [..|done].
      * split; simpl; try done; unfold rx; set_solver +.
      * split; simpl; try done.
        -- apply covers_zero.
        -- intros h Hh t Ht. assert (hist mem1 !! Loc 0 Head = Some {[0%nat := Msg 0 ∅]}) as Hh'
             by (apply mpsc_hist1; [done|by rewrite initial_skip]).
           assert (Some h = Some ({[0%nat := Msg 0 ∅]} : gmap nat msg)) as [= ->] by (rewrite <-Hh'; exact (eq_sym Hh)).
           apply one_dom in Ht. lia.
Qed.

Lemma mpsc_initial_ok limit :
  0 ≤ limit →
  conf_ok (MInvs shared limit) (ready_ok shared) gone_ok (post cb shared) [entry0; entry0] initial.
Proof using Hpos Hmax Hpow.
  intros Hl. split; [|done|].
  - split; [exists glob0; by apply mpsc_fresh_inv|]. by intros [|[|]] e c; simpl; [intros [= <-]..|].
  - intros [|[|]] th e; simpl; [| |done]; intros [= <-] [= <-]; (split; [done|]);
      (split; [done|]); simpl; (split; [done|]).
    + by split.
    + split; [done|]. split; [|done]. split; simpl; try done. unfold usize_max. pose proof usize_modulus_ge. lia.
Qed.

(** What the invariant says of a thread at the end of a run. *)
Record thread_at (e : ent (ghost T) (call T) (event T)) (th : mthread) : Prop := {
  ta_trace : etr e = trace th;
  ta_fine : stat th ≠ Panicking;
  ta_cur : ecur e = busy th;
  ta_ready h : stat th = Ready h → gphase (eg e) = Open;
  ta_exited : stat th = Exited → gphase (eg e) = Gone;
  ta_open c : busy th = Some c → drops c = false → gphase (eg e) = Open;
}.

Record mrun_ok (limit : Z) (G : glob T) (Γ : list (ent (ghost T) (call T) (event T))) (g : conf) : Prop := {
  mr_inv : MInv shared limit G Γ (cmem g);
  mr_len : length Γ = length (pool g);
  mr_threads i th : pool g !! i = Some th → ∃ e, Γ !! i = Some e ∧ thread_at e th;
  (** Between calls, all the receiver took out is published. *)
  mr_told e th h : Γ !! rx = Some e → pool g !! rx = Some th → stat th = Ready h →
    gpub (eg e) = length (vals (eg e));
}.

Lemma conf_mrun limit Γ g :
  conf_ok (MInvs shared limit) (ready_ok shared) gone_ok (post cb shared) Γ g → ∃ G, mrun_ok limit G Γ g.
Proof using Type.
  intros [[[G HI] HO] Hlen Hth]. exists G. split; [done|done| |].
  - intros i th Hi. destruct (lookup_lt_is_Some_2 Γ i) as [e He]; [rewrite Hlen; by eapply lookup_lt_Some|].
    exists e. split; [done|]. destruct (Hth _ _ _ Hi He) as (_ & Htr & Hst).
    assert (ecur e = busy th) as Hcur by (unfold busy; destruct (stat th) as [h|c p| | |c]; apply Hst || done).
    split; [done|by intros Hp; rewrite Hp in Hst|done|..].
    + intros h Hh. rewrite Hh in Hst. destruct Hst as [_ Hr].
      destruct h; simpl in Hr; [by destruct Hr as [_ []]|by destruct Hr as (_ & [] & _)].
    + intros Hx. rewrite Hx in Hst. apply Hst.
    + intros c Hb. rewrite <-Hcur in Hb. by apply (HO _ _ _ He).
  - intros e th h He Hi Hh. destruct (Hth _ _ _ Hi He) as (_ & _ & Hst). rewrite Hh in Hst.
    destruct Hst as [_ Hr], h; simpl in Hr; [by destruct Hr|apply Hr].
Qed.

Lemma mpsc_run_inv s :
  2 * (calls s + 2) ≤ MAX_REFCOUNT →
  ∃ g G Γ, exec start s initial = inr g ∧ mrun_ok (calls s) G Γ g.
Proof using Hpos Hmax Hpow.
  intros Hs. assert (0 ≤ calls s) by (unfold calls; lia).
  destruct (adequacy start (MInvs shared (calls s)) (ready_ok shared) gone_ok (post cb shared) (calls s)
    (mpsc_start_ok cb shared mpsc_shared_ok (calls s) Hs) (mpsc_finish_ok cb shared mpsc_shared_ok (calls s))
    [entry0; entry0] initial 0 s (mpsc_initial_ok (calls s) ltac:(done)))
    as (Γ & g & Hrun & Hc); [simpl; unfold weight; simpl; lia|lia|].
  destruct (conf_mrun _ _ _ Hc) as [G Hok]. by exists g, G, Γ.
Qed.

(** [g] is where a schedule takes the threads. *)
Definition runs_to (s : list (choice (call T))) (g : conf) : Prop :=
  ∃ g0, launch capacity strat = Some g0 ∧ exec start s g0 = inr g.

Lemma mpsc_runs_to_ok s g :
  2 * (calls s + 2) ≤ MAX_REFCOUNT → runs_to s g → ∃ G Γ, mrun_ok (calls s) G Γ g.
Proof using Hpos Hmax Hpow.
  intros Hs (g0 & Hg0 & Hrun). rewrite mpsc_launch_eq in Hg0. injection Hg0 as <-.
  destruct (mpsc_run_inv s Hs) as (g' & G & Γ & Hrun' & Hok).
  rewrite Hrun in Hrun'. injection Hrun' as <-. by exists G, Γ.
Qed.

(** ** One order of all sends *)

(** The value the call in progress offers. *)
Definition pending (th : mthread) : list T := default [] (offered <$> busy th).

(** [log], values with their senders, explains what the threads saw: it
    merges what the senders had accepted, each in its own order and perhaps
    the one in progress included, and the receiver got a prefix of it. *)
Record explains (log : list (tid * T)) (g : conf) : Prop := {
  ex_senders x : x ∈ log → x.1 ≠ rx ∧ (x.1 < length (pool g))%nat;
  ex_accepted i th : i ≠ rx → pool g !! i = Some th →
    accepted (trace th) `prefix_of` (filter (λ x, x.1 = i) log).*2 ∧
    (filter (λ x, x.1 = i) log).*2 `prefix_of` accepted (trace th) ++ pending th;
  ex_received th : pool g !! rx = Some th → received (trace th) `prefix_of` log.*2;
}.

Definition log_of (G : glob T) : list (tid * T) := (λ tk, (tby tk, tval tk)) <$> tickets G.

Lemma log_values G : (log_of G).*2 = tval <$> tickets G.
Proof using Type. unfold log_of. by rewrite <-list_fmap_compose. Qed.

Lemma log_own G i : (filter (λ x, x.1 = i) (log_of G)).*2 = tval <$> filter (λ tk, tby tk = i) (tickets G).
Proof using Type.
  unfold log_of. induction (tickets G) as [|tk l IH]; [done|]. csimpl. rewrite !filter_cons. cbn [fst].
  destruct (decide (tby tk = i)); csimpl; by f_equal.
Qed.

(** The parts of the invariant that speak of one thread. *)
Lemma mrun_sender limit G Γ g i th :
  mrun_ok limit G Γ g → i ≠ rx → pool g !! i = Some th →
  ∃ e, thread_at e th ∧ common_ok shared G (cmem g) i e ∧ sender_ok shared G i e ∧
    accepted (trace th) `prefix_of` vals (eg e) ∧
    vals (eg e) `prefix_of` accepted (trace th) ++ pending th ∧
    (existsb saw_disconnect (trace th) = true → gknow (eg e) = true).
Proof using Type.
  intros Hok Hi Hth. destruct (mr_threads _ _ _ _ Hok _ _ Hth) as (e & He & Ha). exists e.
  destruct (mi_local _ _ _ _ _ (mr_inv _ _ _ _ Hok) _ _ He) as [Hc Hr Hl].
  rewrite decide_False in Hr by done. unfold log_ok in Hl. rewrite decide_False in Hl by done.
  rewrite (ta_trace _ _ Ha), (ta_cur _ _ Ha) in Hl. unfold pending. split_and!; try done.
  - destruct (busy th); [apply Hl|by destruct Hl as [-> _]].
  - destruct (busy th); simpl; [apply Hl|]. destruct Hl as [-> _]. by rewrite app_nil_r.
  - apply Hl.
Qed.

Lemma mrun_receiver limit G Γ g th :
  mrun_ok limit G Γ g → pool g !! rx = Some th →
  ∃ e, thread_at e th ∧ common_ok shared G (cmem g) rx e ∧ receiver_ok shared G (cmem g) e ∧
    received (trace th) `prefix_of` vals (eg e) ∧
    (busy th = None → vals (eg e) = received (trace th)) ∧
    (existsb saw_disconnect (trace th) = true → gdone (eg e) = true).
Proof using Type.
  intros Hok Hth. destruct (mr_threads _ _ _ _ Hok _ _ Hth) as (e & He & Ha). exists e.
  destruct (mi_local _ _ _ _ _ (mr_inv _ _ _ _ Hok) _ _ He) as [Hc Hr Hl].
  rewrite decide_True in Hr by done. unfold log_ok in Hl. rewrite decide_True in Hl by done.
  rewrite (ta_trace _ _ Ha), (ta_cur _ _ Ha) in Hl. split_and!; try done.
  - destruct (busy th); [apply Hl|by destruct Hl as [-> _]].
  - intros Hb. rewrite Hb in Hl. apply Hl.
  - apply Hl.
Qed.

Lemma log_explains limit G Γ g : mrun_ok limit G Γ g → explains (log_of G) g.
Proof using Type.
  intros Hok. split.
  - intros x [q Hq]%list_elem_of_lookup. unfold log_of in Hq. rewrite list_lookup_fmap in Hq.
    destruct (tickets G !! q) as [tk|] eqn:Htk; simplify_eq/=.
    destruct (go_by _ _ _ _ (mi_glob _ _ _ _ _ (mr_inv _ _ _ _ Hok)) _ _ Htk).
    by rewrite <-(mr_len _ _ _ _ Hok).
  - intros i th Hi Hth. destruct (mrun_sender _ _ _ _ _ _ Hok Hi Hth) as (e & _ & _ & Hs & H1 & H2 & _).
    rewrite log_own, <-(ls_vals _ _ _ _ Hs). done.
  - intros th Hth. destruct (mrun_receiver _ _ _ _ _ Hok Hth) as (e & _ & _ & Hr & H1 & _).
    rewrite log_values. etrans; [exact H1|]. rewrite (lr_vals _ _ _ _ Hr). apply prefix_take.
Qed.

(** How many values the senders had accepted. *)
Definition share (i : tid) (th : mthread) : nat :=
  if decide (i = rx) then 0%nat else length (accepted (trace th)).
Definition total_accepted (p : list mthread) : nat := list_sum (imap share p).

Lemma sum_shares (f : nat → mthread → nat) (p : list mthread) (l : list (tid * T)) k :
  (∀ i th, p !! i = Some th → (f (k + i) th ≤ length (filter (λ x, x.1 = (k + i)%nat) l))%nat) →
  (list_sum (imap (λ i, f (k + i)%nat) p) ≤ length (filter (λ x, (k ≤ x.1)%nat) l))%nat.
Proof using Type.
  revert k. induction p as [|th p IH]; intros k Hf; [simpl; lia|]. cbn [imap list_sum foldr].
  assert (list_sum (imap ((λ i, f (k + i)%nat) ∘ S) p) ≤ length (filter (λ x, (S k ≤ x.1)%nat) l))%nat as H1.
  { specialize (IH (S k)). rewrite (imap_ext _ (λ i, f (S k + i)%nat)).
    - apply IH. intros i th' Hi. replace (S k + i)%nat with (k + S i)%nat by lia. by apply (Hf (S i)).
    - intros i th' _. simpl. f_equal. lia. }
  pose proof (Hf 0%nat th eq_refl) as H0. rewrite Nat.add_0_r in *.
  assert (length (filter (λ x, x.1 = k) l) + length (filter (λ x, (S k ≤ x.1)%nat) l)
    = length (filter (λ x, (k ≤ x.1)%nat) l))%nat as Hsplit.
  { clear. induction l as [|[j v] l IH]; [done|]. rewrite !filter_cons. cbn [fst].
    repeat case_decide; simpl; lia. }
  fold (list_sum (imap ((λ i, f (k + i)%nat) ∘ S) p)). lia.
Qed.

(** ** What every run guarantees *)

(** C11. Memory safety of the MPSC ring under every interleaving and every
    weak-memory outcome: whatever calls any number of threads make, cloning
    senders as they like, as long as the calls stay below half the [Arc]'s
    limit no step races, reads an unwritten slot, overwrites a value or touches
    freed memory, and no thread panics. *)
Theorem mpsc_concurrent_safe s :
  2 * (calls s + 2) ≤ MAX_REFCOUNT →
  ∃ g, runs_to s g ∧ Forall (λ th, stat th ≠ Panicking) (pool g).
Proof using Hpos Hmax Hpow.
  intros Hs. destruct (mpsc_run_inv s Hs) as (g & G & Γ & Hrun & Hok).
  exists g. split; [exists initial; by rewrite mpsc_launch_eq|].
  apply Forall_lookup. intros i th Hi. destruct (mr_threads _ _ _ _ Hok _ _ Hi) as (e & _ & Ha). apply Ha.
Qed.

(** C12. Linearizability of the transfer: one order of all sends merges what
    every sender had accepted, each sender's values in its own order, and what
    the receiver got is a prefix of it. *)
Theorem mpsc_concurrent_fifo s g :
  2 * (calls s + 2) ≤ MAX_REFCOUNT → runs_to s g → ∃ log, explains log g.
Proof using Hpos Hmax Hpow.
  intros Hs Hrun. destruct (mpsc_runs_to_ok _ _ Hs Hrun) as (G & Γ & Hok).
  exists (log_of G). by eapply log_explains.
Qed.

(** C13. Bounded occupancy: when the receiver is between calls, at most [cap]
    values of all senders together are outstanding. *)
Theorem mpsc_concurrent_bounded s g tR :
  2 * (calls s + 2) ≤ MAX_REFCOUNT → runs_to s g → pool g !! rx = Some tR → busy tR = None →
  Z.of_nat (total_accepted (pool g)) ≤ Z.of_nat (length (received (trace tR))) + capacity.
Proof using Hpos Hmax Hpow.
  intros Hs Hrun HR Hb. destruct (mpsc_runs_to_ok _ _ Hs Hrun) as (G & Γ & Hok).
  pose proof (log_explains _ _ _ _ Hok) as Hex.
  destruct (mrun_receiver _ _ _ _ _ Hok HR) as (e & _ & _ & Hr & _ & Hv & _).
  pose proof (mi_glob _ _ _ _ _ (mr_inv _ _ _ _ Hok)) as HG. pose proof (go_room _ _ _ _ HG).
  pose proof (go_pub _ _ _ _ HG). pose proof (lr_len _ _ _ _ Hr) as Hlen. rewrite (Hv Hb) in Hlen.
  assert (total_accepted (pool g) ≤ length (filter (λ x, (0 ≤ x.1)%nat) (log_of G)))%nat as Hsum.
  { apply (sum_shares share (pool g) (log_of G) 0).
    intros i th Hi. simpl. unfold share. case_decide as Hrx; [lia|].
    rewrite <-(length_fmap snd). apply prefix_length, (ex_accepted _ _ Hex _ _ Hrx Hi). }
  pose proof (length_filter (λ x, (0 ≤ x.1)%nat) (log_of G)) as Hf. unfold log_of in Hf at 2. rewrite length_fmap in Hf.
  unfold ntk, capn in *. simpl in *. lia.
Qed.

(** C14. A disconnect report is final and loses nothing: once the receiver has
    been told that all senders are gone, no thread has a usable sender and the
    receiver has got every value ever accepted; once a sender has been told
    that the receiver is gone, the receiver is no longer usable. *)
Theorem mpsc_concurrent_disconnect s g tR :
  2 * (calls s + 2) ≤ MAX_REFCOUNT → runs_to s g → pool g !! rx = Some tR →
  (existsb saw_disconnect (trace tR) = true → busy tR = None →
     (∀ i th h, i ≠ rx → pool g !! i = Some th → stat th ≠ Ready h) ∧
     ∃ log, explains log g ∧ received (trace tR) = log.*2) ∧
  (∀ i th, i ≠ rx → pool g !! i = Some th → existsb saw_disconnect (trace th) = true →
     ∀ h, stat tR ≠ Ready h).
Proof using Hpos Hmax Hpow.
  intros Hs Hrun HR. destruct (mpsc_runs_to_ok _ _ Hs Hrun) as (G & Γ & Hok).
  destruct (mrun_receiver _ _ _ _ _ Hok HR) as (e & Ha & Hc & Hr & _ & Hv & Hdone). split.
  - intros Hsaw Hb. destruct (lr_done _ _ _ _ Hr (Hdone Hsaw)) as [Hlive Hall]. split.
    + intros i th h Hi Hth Hst. destruct (mrun_sender _ _ _ _ _ _ Hok Hi Hth) as (e' & Ha' & Hc' & _).
      assert (i ∈ live G) as Hin by (apply (lc_live _ _ _ _ _ Hc'); split; [done|by eapply ta_ready]).
      rewrite Hlive in Hin. set_solver +Hin.
    + exists (log_of G). split; [by eapply log_explains|].
      rewrite log_values, <-(Hv Hb), (lr_vals _ _ _ _ Hr). apply take_ge.
      rewrite length_fmap, Hall. done.
  - intros i th Hi Hth Hsaw h Hst. destruct (mrun_sender _ _ _ _ _ _ Hok Hi Hth) as (e' & _ & _ & Hs' & _ & _ & Hk).
    pose proof (ls_know _ _ _ _ Hs' (Hk Hsaw)) as Hcl. pose proof (ta_ready _ _ Ha _ Hst) as Ho.
    apply (lr_open _ _ _ _ Hr) in Ho. congruence.
Qed.

(** C15. Nothing leaks and nothing is dropped twice: when every handle is
    gone, one order of all accepted values is what was received followed by
    what was dropped with the ring. *)
Theorem mpsc_concurrent_no_leak s g tR :
  2 * (calls s + 2) ≤ MAX_REFCOUNT → runs_to s g → pool g !! rx = Some tR →
  Forall (λ th, stat th = Exited) (pool g) →
  ∃ log, explains log g ∧ received (trace tR) ++ mdropped (cmem g) = log.*2 ∧
    ∀ i th, i ≠ rx → pool g !! i = Some th → accepted (trace th) = (filter (λ x, x.1 = i) log).*2.
Proof using Hpos Hmax Hpow.
  intros Hs Hrun HR Hex. rewrite Forall_lookup in Hex.
  destruct (mpsc_runs_to_ok _ _ Hs Hrun) as (G & Γ & Hok).
  destruct (mrun_receiver _ _ _ _ _ Hok HR) as (e & _ & _ & Hr & _ & Hv & _).
  pose proof (mr_inv _ _ _ _ Hok) as HI. pose proof (mi_glob _ _ _ _ _ HI) as HG.
  assert (∀ th : mthread, stat th = Exited → busy th = None) as Hidle by (intros th Hst; unfold busy; by rewrite Hst).
  assert (∀ i e', Γ !! i = Some e' → gphase (eg e') = Gone) as Hgone.
  { intros i e' Hi. destruct (lookup_lt_is_Some_2 (pool g) i) as [th Hth].
    { rewrite <-(mr_len _ _ _ _ Hok). by eapply lookup_lt_Some. }
    destruct (mr_threads _ _ _ _ Hok _ _ Hth) as (e2 & He2 & Ha). rewrite Hi in He2. injection He2 as <-.
    apply (ta_exited _ _ Ha). eauto. }
  assert (∀ i, (i < length Γ)%nat → (i ∉ holding G) ∧ freer G ≠ Some i) as Hout.
  { intros i [e' He']%lookup_lt_is_Some_2. pose proof (lo_common _ _ _ _ _ (mi_local _ _ _ _ _ HI _ _ He')) as Hc.
    pose proof (Hgone _ _ He') as Hg. rewrite (lc_hold _ _ _ _ _ Hc), <-(lc_freer _ _ _ _ _ Hc), Hg. split; [by intros []|done]. }
  assert (freed G = true) as Hfd.
  { destruct (go_end _ _ _ _ HG) as [|Hf]; [|done|].
    - apply set_eq. intros i. split; [|set_solver +]. intros Hi. by destruct (Hout i (go_holding _ _ _ _ HG _ Hi)).
    - destruct (freer G) as [i|] eqn:Hfr; [|done]. by destruct (Hout i (go_freer_at _ _ _ _ HG _ Hfr)). }
  destruct (go_freed _ _ _ _ HG Hfd) as (_ & _ & Hall).
  exists (log_of G). split_and!; [by eapply log_explains| |].
  - rewrite <-(Hv (Hidle _ (Hex _ _ HR))), (lr_vals _ _ _ _ Hr), (go_dropped _ _ _ _ HG), Hall, log_values.
    rewrite (take_ge (drop _ _)) by (rewrite length_drop; unfold ntk; lia). by rewrite fmap_drop, take_drop.
  - intros i th Hi Hth. destruct (mrun_sender _ _ _ _ _ _ Hok Hi Hth) as (e' & _ & _ & Hs' & H1 & H2 & _).
    unfold pending in H2. rewrite (Hidle _ (Hex _ _ Hth)) in H2. simpl in H2. rewrite app_nil_r in H2.
    rewrite log_own, <-(ls_vals _ _ _ _ Hs'). apply prefix_length_eq; [done|]. by apply prefix_length.
Qed.
End initial.
End runs.

(** ** Concrete runs *)

(** A ring of two slots under [Park]; 7 panics the callback of [drain].
    Thread 0 clones its sender for thread 2. *)
Definition demo_cb (v : Z) : bool := negb (v =? 7).
Definition demo_calls : list (list (tid * call Z)) :=
  [[(0%nat, CClone)];
   [(0%nat, CTrySend 4 1); (2%nat, CTrySend 4 10); (1%nat, CTryRecv)];
   [(2%nat, CTrySend 4 7); (1%nat, CDrain 5 5)];
   [(0%nat, CTrySend 4 2); (2%nat, CTrySend 4 11); (1%nat, CRecv 5)];
   [(0%nat, CSend 5 4 3); (2%nat, CTrySend 4 12)]; [(2%nat, CTrySend 4 13); (1%nat, CRecv 5)]].
(** The senders go, and what is left is received. *)
Definition demo_gone : list (list (tid * call Z)) :=
  demo_calls ++ [[(0%nat, CDropSender); (1%nat, CRecv 5)]; [(2%nat, CDropSender)]; [(1%nat, CDrain 9 9)]; [(1%nat, CTryRecv)]].
(** All go, with values left in the ring. *)
Definition demo_left : list (list (tid * call Z)) :=
  demo_calls ++ [[(0%nat, CDropSender); (1%nat, CDropReceiver); (2%nat, CDropSender)]].

Definition demo (css : list (list (tid * call Z))) : list (choice (call Z)) :=
  match launch 2 Park with Some g0 => rounds (start demo_cb) css g0 | None => [] end.

Abbreviation demo_thread := (thread Z handle (call Z) (event Z)).
(** Evaluate an observation of a run. *)
Definition look {A} (css : list (list (tid * call Z))) (f : list demo_thread → mem Z → A) : option A :=
  match launch 2 Park with
  | Some g0 =>
      match exec (start demo_cb) (demo css) g0 with
      | inr g => Some (f (pool g) (cmem g))
      | _ => None
      end
  | None => None
  end.

Lemma look_pool {A} css (f : list demo_thread → mem Z → A) x :
  look css f = Some x → ∃ g, runs_to demo_cb 2 Park (demo css) g ∧ f (pool g) (cmem g) = x.
Proof.
  unfold look. destruct (launch 2 Park) as [g0|] eqn:Hg0; [|done].
  destruct (exec _ _ g0) as [|g] eqn:Hrun; [done|]. intros [= <-]. exists g. split; [by exists g0|done].
Qed.

(** What the threads had accepted and received. *)
Definition seen_by (p : list demo_thread) : list (list Z * list Z) :=
  (λ th, (accepted (trace th), received (trace th))) <$> p.

Lemma mpsc_concurrent_safe_witness :
  2 * (calls (demo demo_left) + 2) ≤ MAX_REFCOUNT ∧
  ∃ g, runs_to demo_cb 2 Park (demo demo_left) g ∧ Forall (λ th, stat th ≠ Panicking) (pool g).
Proof.
  split; [by vm_compute|]. apply (mpsc_concurrent_safe demo_cb 2 Park); by vm_compute.
Defined.

Lemma mpsc_concurrent_fifo_witness : ∃ g,
  runs_to demo_cb 2 Park (demo demo_calls) g ∧
  seen_by (pool g) = [([1; 2; 3], []); ([], [1; 10; 2; 11]); ([10; 11], [])] ∧
  ∃ log, explains log g.
Proof.
  destruct (look_pool demo_calls (λ p _, seen_by p)
    [([1; 2; 3], []); ([], [1; 10; 2; 11]); ([10; 11], [])]) as (g & Hrun & Heq); [by vm_compute|].
  exists g. split; [exact Hrun|]. split; [exact Heq|].
  apply (mpsc_concurrent_fifo demo_cb 2 Park) with (s := demo demo_calls); [by vm_compute..|exact Hrun].
Defined.

Lemma mpsc_concurrent_bounded_witness : ∃ g tR,
  runs_to demo_cb 2 Park (demo demo_calls) g ∧ pool g !! rx = Some tR ∧
  (at_rest tR, length (received (trace tR))) = (true, 4%nat) ∧
  Z.of_nat (total_accepted (pool g)) ≤ Z.of_nat (length (received (trace tR))) + 2.
Proof.
  destruct (look_pool demo_calls (λ p _, (λ th, (at_rest th, length (received (trace th)))) <$> (p !! rx))
    (Some (true, 4%nat))) as (g & Hrun & (tR & HR & Heq)%fmap_Some); [by vm_compute|].
  exists g, tR. split; [exact Hrun|]. split; [exact HR|]. split; [exact (eq_sym Heq)|].
  apply (mpsc_concurrent_bounded demo_cb 2 Park) with (s := demo demo_calls);
    [by vm_compute..|exact Hrun|exact HR|]. apply at_rest_busy. congruence.
Defined.

Lemma mpsc_concurrent_disconnect_witness : ∃ g tR,
  runs_to demo_cb 2 Park (demo demo_gone) g ∧ pool g !! rx = Some tR ∧
  (existsb saw_disconnect (trace tR), at_rest tR, received (trace tR)) = (true, true, [1; 10; 2; 11; 3]) ∧
  (∀ i th h, i ≠ rx → pool g !! i = Some th → stat th ≠ Ready h) ∧
  ∃ log, explains log g ∧ received (trace tR) = log.*2.
Proof.
  destruct (look_pool demo_gone
    (λ p _, (λ th, (existsb saw_disconnect (trace th), at_rest th, received (trace th))) <$> (p !! rx))
    (Some (true, true, [1; 10; 2; 11; 3]))) as (g & Hrun & (tR & HR & Heq)%fmap_Some); [by vm_compute|].
  exists g, tR. split; [exact Hrun|]. split; [exact HR|]. split; [exact (eq_sym Heq)|].
  apply (mpsc_concurrent_disconnect demo_cb 2 Park) with (s := demo demo_gone);
    [by vm_compute..|exact Hrun|exact HR|congruence|apply at_rest_busy; congruence].
Defined.

Lemma mpsc_concurrent_no_leak_witness : ∃ g tR log,
  runs_to demo_cb 2 Park (demo demo_left) g ∧ pool g !! rx = Some tR ∧
  (seen_by (pool g), mdropped (cmem g)) = ([([1; 2; 3], []); ([], [1; 10; 2; 11]); ([10; 11], [])], [3]) ∧
  explains log g ∧ received (trace tR) ++ mdropped (cmem g) = log.*2.
Proof.
  destruct (look_pool demo_left (λ p m, (seen_by p, mdropped m, forallb exited p, bool_decide (is_Some (p !! rx))))
    ([([1; 2; 3], []); ([], [1; 10; 2; 11]); ([10; 11], [])], [3], true, true)) as (g & Hrun & [= Hs Hd Hex HR]); [by vm_compute|].
  apply bool_decide_eq_true in HR as [tR HR].
  destruct (mpsc_concurrent_no_leak demo_cb 2 Park) with (s := demo demo_left) (g := g) (tR := tR)
    as (log & Hlog & Heq & _); [by vm_compute..|exact Hrun|exact HR| |].
  - apply Forall_forall. intros th Hth. apply exited_stat. rewrite forallb_forall in Hex. by apply Hex, list_elem_of_In.
  - exists g, tR, log. rewrite Hs, Hd. rewrite Hd in Heq. by split_and!.
Defined.
