(* ===== verification/MpscWatch.v ===== *)
(** Following the park protocols of the MPSC ring. Under [WaitStrategy::Park]
    its operations run two of them: the receiver waits on its [Parker] and the
    senders wake it; the senders wait in the [WaiterList] and the receiver
    wakes them. [Stages] is what a development about one of them says of the
    threads, [Protocol] what it promises about the actions of the operations;
    from the promises alone every call of every client follows the protocol.
    [MpscRxWait] and [MpscTxWait] keep the promises, once for each side. *)
From S2P Require Import Prelude Usize Atomic Errors Wait Notify Ring Queue Mpsc Seq Memory Machine Logic Parking Track.
From S2P Require Import MpscInv MpscProt MpscDrop MpscCalls MpscConc MpscOps MpscClients.
From S2P Require MpscSeq.
Local Open Scope Z_scope.

(** ** Changes no park protocol depends on *)

Section quiet.
Context `{tgt : Target} {T : Type} (sh : Shared).
Implicit Types m : mem T.

(** The histories are the same but for the [Arc]'s counter, or the block is
    gone; nobody was registered, nobody lost a token. *)
Record quiet m m' : Prop := {
  qu_hist : (∀ l, l ≠ strong sh → hist m' !! l = hist m !! l) ∨
    (∀ f, hist m' !! Loc (sh_ring sh) f = None);
  qu_slots : mslots m' = mslots m;
  qu_queues : mqueues m' = mqueues m;
  qu_tokens j : is_Some (mtokens m !! j) → is_Some (mtokens m' !! j);
  qu_sc : vle (scview m) (scview m');
}.

Lemma quiet_refl m : quiet m m.
Proof using Type. split; try done. by left. Qed.

Lemma quiet_undisturbed m m' : undisturbed m m' → quiet m m'.
Proof using Type.
  intros [H1 H2 H3 H4 H5]. split; [|done|done| |done].
  - left. intros l _. by rewrite H1.
  - intros j. by rewrite H4.
Qed.

Lemma quiet_strong t x m : quiet m (add_msg (strong sh) t x m).
Proof using Type.
  split; try done. left. intros l Hl. by rewrite hist_add_other by done.
Qed.

Lemma quiet_free m : quiet m (mfree (sh_ring sh) m).
Proof using Type.
  split; try done. right. intros f. apply free_gone.
Qed.

Lemma quiet_token j X m : quiet m (set_mtokens (λ Y, <[j := X Y]> Y) m).
Proof using Type.
  split; try done; [by left|]. intros j' Hj. simpl. destruct (decide (j = j')) as [->|Hne].
  - rewrite lookup_insert_eq. by eexists.
  - by rewrite lookup_insert_ne.
Qed.

(** One location of the ring: its history is the same, or gone. *)
Lemma quiet_kept m m' f : quiet m m' → Loc (sh_ring sh) f ≠ strong sh → kept m m' (Loc (sh_ring sh) f).
Proof using Type.
  intros [[Hh|Hh] _ _ _ _] Hne h; [by rewrite Hh|by rewrite Hh].
Qed.

(** The newest value stored to the head is [n]. *)
Definition head_at (n : Z) m : Prop :=
  ∀ h, hist m !! head sh = Some h →
    (∀ t x, h !! t = Some x → mval x ≤ n) ∧ ∃ t x, h !! t = Some x ∧ mval x = n.

Lemma head_at_kept n m m' : kept m m' (head sh) → head_at n m → head_at n m'.
Proof using Type. intros Hk Hn h Hh. by apply Hn, Hk. Qed.
End quiet.

(** What the logic knows of the memory. *)
Definition known `{tgt : Target} {T} (sh : Shared) (limit : Z) (m : mem T) : Prop :=
  ∃ Γ, MInvs sh limit Γ m.

Section known.
Context `{tgt : Target} {T : Type} (sh : Shared) (limit : Z).
Hypothesis Hok : MpscSeq.shared_ok sh.
Hypothesis Hlim : 2 * (limit + 2) ≤ MAX_REFCOUNT.
Implicit Types m : mem T.

Lemma known_mem m l h :
  known sh limit m → hist m !! Loc (sh_ring sh) l = Some h →
  ∃ Γ G, MInv sh limit G Γ m ∧ mem_ok sh G m.
Proof using Type.
  intros (Γ & (G & HI) & _) Hh. exists Γ, G. split; [done|]. pose proof (mi_glob _ _ _ _ _ HI) as HG.
  apply (go_mem _ _ _ _ HG). destruct (freed G) eqn:Hf; [|done].
  by rewrite (go_gone _ _ _ _ HG Hf) in Hh.
Qed.

Lemma known_claim m t x h :
  known sh limit m → hist m !! claim sh = Some h → h !! t = Some x →
  mval x = Z.of_nat t ∧ is_usize (Z.of_nat t).
Proof using Type.
  intros HK Hh Hx. destruct (known_mem _ _ _ HK Hh) as (Γ & G & HI & HM).
  destruct (mo_claim _ _ _ HM) as (h' & Hh' & Hd & Hv). assert (h' = h) as -> by (unfold claim in *; congruence).
  split; [by apply Hv|]. assert (t ≤ ntk G)%nat by (apply Hd; by eexists).
  pose proof (go_max _ _ _ _ (mi_glob _ _ _ _ _ HI)). unfold is_usize, usize_max in *. lia.
Qed.

Lemma known_count m t x h :
  known sh limit m → hist m !! senders sh = Some h → h !! t = Some x → h !! S t = None →
  0 ≤ mval x ≤ 2 * (limit + 2) ∧ 2 * (limit + 2) < usize_max.
Proof using Hok Hlim.
  intros HK Hh Hx Hn. destruct (known_mem _ _ _ HK Hh) as (Γ & G & HI & HM).
  destruct (mo_senders _ _ _ HM) as (h' & Hh' & n & y & Hd & Hy & Hv & _).
  assert (h' = h) as -> by (unfold senders in *; congruence).
  pose proof (chain_last _ _ _ _ Hd Hx Hn) as ->. assert (y = x) as -> by congruence.
  destruct (counts_small sh Hok _ _ _ _ HI) as [Hs _]. pose proof (limit_small limit Hlim). lia.
Qed.
End known.

(** ** The interface *)

(** The stages of the threads in one of the two protocols: at rest (the
    receiver having published [n] as its head); a sender between the claim of
    [q] and its publication, or still to wake the receiver; the receiver still
    to wake the senders; the receiver closed for good. *)
Class Stages (T W : Type) := {
  watch : list (ent W (call T) (event T)) → mem T → Prop;
  dozing : tid → list (call T * event T) → call T → W → Prop;
  calm : Z → W;
  held : nat → W;
  owing : W;
  told : Z → W;
  shut : Z → W;
}.

Section protocol.
Context `{tgt : Target} {T : Type} (sh : Shared) (limit : Z).

Definition heeds {W} `{!Stages T W} (i : tid) tr c {A} (p : prog T A) (w : W) Q : Prop :=
  follows (known sh limit) watch dozing i tr c p w Q.

Class Protocol (W : Type) `{!Stages T W} : Prop := {
  pr_quiet Δ m i w V tr c V' m' :
    watch Δ m → Δ !! i = Some (Ent w V tr c) → vle (cur V) (cur V') → quiet sh m m' →
    watch (<[i := Ent w V' tr c]> Δ) m';
  pr_label Δ m i w V tr c tr' c' :
    watch Δ m → Δ !! i = Some (Ent w V tr c) → watch (<[i := Ent w V tr' c']> Δ) m;
  pr_calm Δ m n V tr c n' :
    watch Δ m → Δ !! rx = Some (Ent (calm n) V tr c) → head_at sh n' m →
    watch (<[rx := Ent (calm n') V tr c]> Δ) m;
  pr_fork Δ m V : watch Δ m → watch (Δ ++ [Ent (calm 0) V [] None]) m ∧ (rx < length Δ)%nat;
  (** Senders. *)
  pr_claim i tr c seq next Q :
    i ≠ rx → usize_add seq 1 = Some next →
    (∀ q, seq = Z.of_nat q → is_usize seq → Q (inl seq) (held q)) → (∀ z, Q (inr z) (calm 0)) →
    heeds i tr c (compare_exchange_weak (claim sh) seq next Relaxed Relaxed) (calm 0) Q;
  pr_publish i tr c q Q :
    i ≠ rx → Q tt owing →
    heeds i tr c (store (slot_round sh (sl sh q)) (round_of sh (Z.of_nat q)) Release) (held q) Q;
  pr_wake_rx i tr c Q :
    i ≠ rx → Q tt (calm 0) →
    heeds i tr c (_ ← fence SeqCst; wake (consumer_parker sh)) owing Q;
  pr_send_wait i tr c self ladder :
    drops c = false → i ≠ rx → s_shared self = sh → heeds i tr c (send_wait self ladder) (calm 0) (λ _ w, w = calm 0);
  pr_leave i tr c Q :
    i ≠ rx → (∀ n, Q n (if n =? 1 then owing else calm 0)) →
    heeds i tr c (fetch_sub (senders sh) 1 AcqRel) (calm 0) Q;
  pr_join i tr c Q :
    i ≠ rx → (∀ n, Q n (calm 0)) → heeds i tr c (fetch_add (senders sh) 1 Relaxed) (calm 0) Q;
  (** The receiver. *)
  pr_head tr c n z Q :
    (∀ n', Q tt (told n')) → heeds rx tr c (store (head sh) z Release) (calm n) Q;
  pr_wake_tx tr c n w Q :
    w = told n ∨ w = calm n → Q tt (calm n) →
    heeds rx tr c (_ ← fence SeqCst; wake_all (prod_waiters sh)) w Q;
  pr_recv_wait tr c self ladder :
    drops c = false → r_shared self = sh → r_head self = Z.of_nat (length (received tr)) →
    heeds rx tr c (recv_wait self ladder) (calm (r_head self)) (λ _ w, w = calm (r_head self));
  pr_close tr c n {A} (k : prog T A) Q :
    heeds rx tr c k (shut n) Q →
    heeds rx tr c (_ ← store_bool (rx_dropped sh) true Release;
                   _ ← fence SeqCst; _ ← wake_all (prod_waiters sh); k) (calm n) Q;
}.
End protocol.

(** ** The operations *)

Section operations.
Context `{tgt : Target} {T : Type} (cb : T → bool) (sh : Shared) (limit : Z).
Hypothesis Hok : MpscSeq.shared_ok sh.
Hypothesis Hpark : strategy sh = Park.
Context {W : Type} `{!Stages T W} (HP : Protocol sh limit W).
Implicit Types (w : W) (m : mem T).

Section actions.
Context (i : tid) (tr : list (call T * event T)) (c : call T).
Abbreviation heeds := (heeds sh limit i tr c).

Lemma heeds_quiet {A} (p : prog T A) w Q :
  (∀ a, p ≠ Ret a) → parking p = false →
  (∀ m V t b p' V' m', Memory.step i p V m t b = Next (p', V', m') →
     vle (cur V) (cur V') ∧ quiet sh m m' ∧ heeds p' w Q) →
  heeds p w Q.
Proof using HP.
  intros Hnr Hpk Hstep. apply follows_step; [done|by rewrite Hpk|].
  intros Δ m V _ HW Hi t b p' V' m' Heq. destruct (Hstep _ _ _ _ _ _ _ Heq) as (HV & Hm & Hf).
  exists w. split; [|done]. by eapply (pr_quiet sh limit).
Qed.

Lemma heeds_passive {A} (p : prog T A) w (Q : A → W → Prop) :
  passive p → (∀ a, Q a w) → heeds p w Q.
Proof using HP.
  intros (Hnr & Hpk & Hp) HQ. apply heeds_quiet; [done..|]. intros m V t b p' V' m' Heq.
  destruct (Hp _ _ _ _ _ _ _ _ Heq) as (HV & Hu & a & ->).
  split_and!; [done|by apply quiet_undisturbed|by apply follows_ret].
Qed.

Lemma heeds_index len z w (Q : nat → W → Prop) : (∀ n, Q n w) → heeds (index len z) w Q.
Proof using Type. apply follows_index. Qed.

Lemma heeds_spins n w (Q : unit → W → Prop) : Q tt w → heeds (repeat_prog n spin_loop) w Q.
Proof using HP.
  intros HQ. induction n as [|n IH]; [by apply follows_ret|].
  cbn [repeat_prog]. apply follows_bind, heeds_passive; auto with rings.
Qed.

(** The [Arc]'s counter. *)
Lemma heeds_rmw f o w (Q : Z → W → Prop) : (∀ n, Q n w) → heeds (Rmw (strong sh) f o Ret) w Q.
Proof using HP.
  intros HQ. apply heeds_quiet; [done..|]. intros m V t b p' V' m'. simpl.
  destruct (hist m !! strong sh) as [h|]; [|done]. destruct (h !! t) as [x|]; [|done].
  destruct (h !! S t); [done|]. case_match; [|done]. intros [= <- <- <-]. split_and!.
  - etrans; [apply read_view_grows|apply vle_set].
  - apply quiet_strong.
  - by apply follows_ret.
Qed.

Lemma heeds_Arc_clone w (Q : unit → W → Prop) : Q tt w → heeds (Arc_clone (strong sh)) w Q.
Proof using HP.
  intros HQ. apply follows_bind, heeds_rmw. intros n. case_match; [apply follows_panicked|by apply follows_ret].
Qed.

Lemma heeds_dealloc w (Q : unit → W → Prop) : Q tt w → heeds (dealloc (sh_ring sh)) w Q.
Proof using HP.
  intros HQ. apply heeds_quiet; [done..|]. intros m V t b p' V' m'. simpl. intros [= <- <- <-].
  split_and!; [done|apply quiet_free|by apply follows_ret].
Qed.

(** ** Dropping a handle *)

Lemma heeds_drop_prefix fuel z w (Q : unit → W → Prop) : Q tt w → heeds (drop_prefix fuel sh z) w Q.
Proof using HP.
  revert z. induction fuel as [|fuel IH]; intros z HQ; [apply follows_fuel|].
  cbn [drop_prefix]. apply follows_bind, heeds_index. intros j.
  apply follows_bind, heeds_passive; [auto with rings|]. intros r. case_match; [by apply follows_ret|].
  apply follows_bind, heeds_passive; [auto with rings|]. intros _.
  apply follows_bind, follows_arith. intros z' _. by apply IH.
Qed.

Lemma heeds_Arc_drop w (Q : unit → W → Prop) : Q tt w → heeds (Arc_drop sh) w Q.
Proof using HP.
  intros HQ. apply follows_bind, heeds_rmw. intros k. case_match; [|by apply follows_ret].
  apply follows_bind, heeds_passive; [auto with rings|]. intros _. apply follows_bind. unfold Shared_drop.
  apply follows_bind, heeds_passive; [auto with rings|]. intros h.
  by apply heeds_drop_prefix, heeds_dealloc.
Qed.
End actions.

(** ** The sender *)

Section sender.
Context (i : tid) (tr : list (call T * event T)) (c : call T) (Hi : i ≠ rx).
Abbreviation heeds := (heeds sh limit i tr c).

Definition claim_left (x : Sender * option Z) w : Prop :=
  s_shared x.1 = sh ∧
  match x.2 with
  | None => w = calm 0
  | Some s => ∃ q, s = Z.of_nat q ∧ is_usize s ∧ w = held q
  end.

Lemma heeds_claim_loop fuel self seq backoff :
  s_shared self = sh → heeds (claim_loop fuel self seq backoff) (calm 0) claim_left.
Proof using HP Hi.
  revert self seq backoff. induction fuel as [|fuel IH]; intros self seq backoff Hsh; [apply follows_fuel|].
  assert (Htry : ∀ self, s_shared self = sh →
    heeds (next ← arith (usize_add seq 1);
           r ← compare_exchange_weak (claim sh) seq next Relaxed Relaxed;
           match r with
           | inl _ => mret (self, Some seq)
           | inr cur =>
               _ ← repeat_prog (Z.to_nat backoff) spin_loop;
               doubled ← arith (u32_mul backoff 2);
               claim_loop fuel self cur (Z.min doubled CLAIM_BACKOFF_MAX)
           end) (calm 0) claim_left).
  { intros self' Hs. apply follows_bind, follows_arith. intros next Hnext.
    apply follows_bind, (pr_claim sh limit); [done|done| |].
    - intros q -> Hu. apply follows_ret. split; [done|]. by exists q.
    - intros z. apply follows_bind, heeds_spins. apply follows_bind, follows_arith. intros d _. by apply IH. }
  cbn [claim_loop]. rewrite Hsh. apply follows_bind. case_match.
  - apply follows_bind, heeds_passive; [auto with rings|]. intros h. apply follows_ret.
    case_match; [by apply follows_ret|by apply Htry].
  - by apply follows_ret, Htry.
Qed.

Lemma heeds_try_send fuel self v :
  s_shared self = sh →
  heeds (try_send fuel self v) (calm 0) (λ x w, s_shared x.1 = sh ∧ w = calm 0).
Proof using HP Hi Hok Hpark.
  intros Hsh. unfold try_send. rewrite Hsh.
  apply follows_bind, heeds_passive; [auto with rings|]. intros gone.
  destruct gone; [by apply follows_ret|].
  apply follows_bind, heeds_passive; [auto with rings|]. intros seq.
  apply follows_bind. eapply follows_mono; [by apply heeds_claim_loop|].
  intros [self' [s|]] w (Hsh' & Hw); simpl in Hsh', Hw; [|by apply follows_ret].
  destruct Hw as (q & -> & Hu & ->).
  rewrite (index_ticket sh Hok) by (unfold is_usize, usize_max in *; lia). apply follows_bind, follows_ret.
  apply follows_bind, heeds_passive; [auto with rings|]. intros _.
  apply follows_bind, (pr_publish sh limit); [done|].
  apply follows_bind. rewrite bool_decide_true by done.
  apply (pr_wake_rx sh limit); [done|]. by apply follows_ret.
Qed.

Lemma heeds_send_loop fuel cas_fuel self v ladder :
  drops c = false → s_shared self = sh →
  heeds (send_loop fuel cas_fuel self v ladder) (calm 0) (λ _ w, w = calm 0).
Proof using HP Hi Hok Hpark.
  intros Hd. revert self v ladder. induction fuel as [|fuel IH]; intros self v ladder Hsh; [apply follows_fuel|].
  cbn [send_loop]. apply follows_bind. eapply follows_mono; [by apply heeds_try_send|].
  intros [self' r] w [Hsh' ->]. simpl in Hsh'. destruct r as [|[w|w]]; [by apply follows_ret| |by apply follows_ret].
  apply follows_bind. eapply follows_mono; [by apply (pr_send_wait sh limit)|].
  intros ladder' w' ->. by apply IH.
Qed.

Lemma heeds_Sender_clone self :
  s_shared self = sh → heeds (Sender_clone self) (calm 0) (λ _ w, w = calm 0).
Proof using HP Hi.
  intros Hsh. unfold Sender_clone. rewrite Hsh. apply follows_bind, (pr_join sh limit); [done|]. intros _.
  apply follows_bind, heeds_Arc_clone. by apply follows_ret.
Qed.

Lemma heeds_Sender_drop self :
  s_shared self = sh → heeds (Sender_drop self) (calm 0) (λ _ w, w = calm 0).
Proof using HP Hi.
  intros Hsh. unfold Sender_drop. rewrite Hsh. apply follows_bind, (pr_leave sh limit); [done|]. intros n.
  apply follows_bind. case_match; [apply (pr_wake_rx sh limit); [done|]|apply follows_ret]; by apply heeds_Arc_drop.
Qed.
End sender.

(** ** The receiver *)

Section receiver.
Context (tr : list (call T * event T)) (c : call T).
Abbreviation heeds := (heeds sh limit rx tr c).

Definition resting w : Prop := ∃ n, w = calm n.

Lemma heeds_slot_published self q w (Q : bool → W → Prop) :
  r_shared self = sh → (∀ b, Q b w) → heeds (slot_published self q) w Q.
Proof using HP.
  intros Hsh HQ. unfold slot_published. rewrite Hsh. apply follows_bind, heeds_index. intros j.
  apply follows_bind, heeds_passive; [auto with rings|]. intros r. by apply follows_ret.
Qed.

Definition recv_left (self : Receiver) n (x : Receiver * result T TryRecvError) w : Prop :=
  r_shared x.1 = sh ∧ resting w ∧
  match x.2 with Err Empty => r_head x.1 = r_head self ∧ w = calm n | _ => True end.

Lemma heeds_try_recv self n :
  r_shared self = sh → heeds (try_recv self) (calm n) (recv_left self n).
Proof using HP Hpark.
  intros Hsh. unfold try_recv. rewrite Hsh. apply follows_bind, heeds_slot_published; [done|]. intros p.
  apply follows_bind. apply (follows_mono _ _ _ _ _ _ (λ _ w, w = calm n)).
  { destruct p; cbn [negb]; [by apply follows_ret|].
    apply follows_bind, heeds_passive; [auto with rings|]. intros k. case_match; [|by apply follows_ret].
    apply follows_bind, heeds_slot_published; [done|]. intros p. by destruct p; apply follows_ret. }
  intros [e|] w ->.
  { apply follows_ret. split; [done|]. split; [by exists n|]. by destruct e. }
  apply follows_bind, heeds_index. intros j. apply follows_bind, heeds_passive; [auto with rings|]. intros v.
  apply follows_bind, follows_arith. intros z _. cbn [r_head].
  apply follows_bind, (pr_head sh limit). intros n'.
  apply follows_bind. unfold wake_producers. cbn [r_shared]. rewrite bool_decide_true by done.
  apply (pr_wake_tx sh limit _ _ n'); [by left|]. apply follows_ret. split; [done|]. split; [by exists n'|done].
Qed.

Lemma heeds_recv_loop fuel self ladder :
  drops c = false → r_shared self = sh → r_head self = Z.of_nat (length (received tr)) →
  heeds (recv_loop fuel self ladder) (calm (r_head self)) (λ _ w, resting w).
Proof using HP Hpark.
  intros Hd. revert self ladder. induction fuel as [|fuel IH]; intros self ladder Hsh Hh; [apply follows_fuel|].
  cbn [recv_loop]. apply follows_bind. eapply follows_mono; [by apply heeds_try_recv|].
  intros [self' r] w (Hsh' & Hw & Hr). cbn [fst snd] in *. destruct r as [|[]].
  - by apply follows_ret.
  - destruct Hr as [Hh' ->]. rewrite <-Hh'. apply follows_bind.
    eapply follows_mono; [apply (pr_recv_wait sh limit); congruence|].
    intros ladder' w ->. apply IH; congruence.
  - by apply follows_ret.
Qed.

(** Draining leaves the receiver at rest, unless it unwound, or the count it
    returned is not that of what the callback saw. *)
Definition unfinished (seen : list T) (e : exit) : Prop :=
  match e with Unwound => True | Returned n => n ≤ 0 ∧ seen ≠ [] end.

Definition drain_left (self : Receiver) n (env : list T) (x : Receiver * list T * exit) w : Prop :=
  w = calm n ∧ r_shared x.1.1 = sh ∧
  ∃ l, x.1.2 = env ++ l ∧ (l = [] → r_head x.1.1 = r_head self ∨ x.2 = Unwound).

Lemma heeds_drain_loop fuel max self env count n :
  r_shared self = sh →
  heeds (drain_loop fuel max self (collect cb) env count) (calm n) (drain_left self n env).
Proof using HP.
  revert self env count. induction fuel as [|fuel IH]; intros self env count Hsh; [apply follows_fuel|].
  assert (Hsame : ∀ e, drain_left self n env (self, env, e) (calm n)).
  { intros e. split_and!; [done..|]. exists []. rewrite app_nil_r. split; [done|]. by left. }
  cbn [drain_loop]. rewrite Hsh. case_match; [by apply follows_ret|].
  apply follows_bind, heeds_index. intros j. apply follows_bind, heeds_passive; [auto with rings|]. intros r.
  case_match; [by apply follows_ret|].
  apply follows_bind, heeds_passive; [auto with rings|]. intros v.
  assert (Hend : ∀ self' env' l, r_shared self' = sh → env' = env ++ l →
    drain_left self n env (self', env', Unwound) (calm n)).
  { intros self' env' l Hs ->. split_and!; [done..|]. exists l. split; [done|]. by right. }
  case_match; [|apply follows_ret, (Hend self env []); [done|by rewrite app_nil_r]].
  case_match; [|apply follows_ret, (Hend _ env []); [done|by rewrite app_nil_r]].
  unfold collect at 1. case_match; [|by apply follows_ret, (Hend _ _ [v])].
  eapply follows_mono; [by apply IH|]. intros [[self2 env2] e] w (-> & Hsh2 & l & Hl & _). cbn [fst snd] in *.
  split_and!; [done..|]. exists (v :: l). rewrite Hl, <-app_assoc. by split.
Qed.

Lemma heeds_drain fuel max self n :
  r_shared self = sh →
  heeds (drain fuel self max (collect cb) []) (calm n)
    (λ '(self', seen, e) w, resting w ∨ unfinished seen e).
Proof using HP Hpark.
  intros Hsh. unfold drain. apply follows_bind. eapply follows_mono; [by apply heeds_drain_loop|].
  intros [[self' seen] e] w (-> & Hsh' & l & Hl & He). cbn [fst snd app] in *. subst seen.
  apply follows_bind.
  apply (follows_mono _ _ _ _ _ _ (λ _ w, ∃ n', (w = told n' ∨ w = calm n') ∧
    (w = calm n' ∨ l ≠ [] ∨ e = Unwound))).
  { unfold publish_guard_drop. rewrite Hsh'. destruct (Z.eqb_spec (r_head self') (r_head self)) as [Heq|Hne]; cbn [negb].
    - apply follows_ret. exists n. auto.
    - apply (pr_head sh limit). intros n'. exists n'. split; [by left|]. right.
      destruct l; [|by left]. right. destruct (He eq_refl); congruence. }
  intros _ w (n' & Hw & Hl). destruct e as [count|].
  2: { apply follows_ret. by right. }
  apply follows_bind. destruct (Z.ltb_spec 0 count).
  - unfold wake_producers. rewrite Hsh', bool_decide_true by done.
    apply (pr_wake_tx sh limit _ _ n'); [done|]. apply follows_ret. left. by exists n'.
  - apply follows_ret, follows_ret. destruct Hl as [->|[Hl|?]]; [left; by exists n'| |done]. by right.
Qed.

Lemma heeds_Receiver_drop self n :
  r_shared self = sh → heeds (Receiver_drop self) (calm n) (λ _ w, w = shut n).
Proof using HP.
  intros Hsh. unfold Receiver_drop. rewrite Hsh. by apply (pr_close sh limit), heeds_Arc_drop.
Qed.
End receiver.

(** ** Every call *)

Definition gone_at (i : tid) w : Prop := if decide (i = rx) then ∃ n, w = shut n else w = calm 0.
Definition ready_at (i : tid) (_ : handle) w : Prop := if decide (i = rx) then resting w else w = calm 0.
Definition left_at (i : tid) (_ : list (call T * event T)) (_ : call T)
    (r : reply handle (event T)) w : Prop :=
  let '(keep, new, o) := r in
  match keep with
  | None => gone_at i w
  | Some h => ready_at i h w ∨ i = rx ∧ match o with EvDrain seen e => unfinished seen e | _ => False end
  end.

Lemma left_sender i tr c h new o w : i ≠ rx → w = calm 0 → left_at i tr c (Some h, new, o) w.
Proof using Type. intros Hi Hw. left. unfold ready_at. by rewrite decide_False. Qed.

Lemma left_receiver tr c h new o w : resting w → left_at rx tr c (Some h, new, o) w.
Proof using Type. intros Hw. left. done. Qed.

Lemma heeds_start_sender i tr c self :
  i ≠ rx → s_shared self = sh →
  heeds sh limit i tr c (start cb c (HSender self)) (calm 0) (left_at i tr c).
Proof using HP Hok Hpark.
  intros Hi Hsh. destruct c as [fuel v|fuel cas_fuel v| | | |fuel|fuel max|]; cbn [start].
  all: try (by apply follows_ret, left_sender).
  - apply follows_bind. eapply follows_mono; [by apply heeds_try_send|].
    intros [self' r] w [_ ->]. by apply follows_ret, left_sender.
  - apply follows_bind. eapply follows_mono; [by apply heeds_send_loop|].
    intros [self' r] w ->. by apply follows_ret, left_sender.
  - apply follows_bind. eapply follows_mono; [by apply heeds_Sender_clone|].
    intros new w ->. by apply follows_ret, left_sender.
  - apply follows_bind. eapply follows_mono; [by apply heeds_Sender_drop|].
    intros _ w ->. apply follows_ret. simpl. unfold gone_at. by rewrite decide_False.
Qed.

Lemma heeds_start_receiver tr c self :
  r_shared self = sh → r_head self = Z.of_nat (length (received tr)) →
  heeds sh limit rx tr c (start cb c (HReceiver self)) (calm (r_head self)) (left_at rx tr c).
Proof using HP Hpark.
  intros Hsh Hh. destruct c as [fuel v|fuel cas_fuel v| | | |fuel|fuel max|]; cbn [start].
  all: try (apply follows_ret, left_receiver; by eexists).
  - apply follows_bind. eapply follows_mono; [by apply heeds_try_recv|].
    intros [self' r] w (_ & Hw & _). by apply follows_ret, left_receiver.
  - apply follows_bind. eapply follows_mono; [by apply heeds_recv_loop|].
    intros [self' r] w Hw. by apply follows_ret, left_receiver.
  - apply follows_bind. eapply follows_mono; [by apply heeds_drain|].
    intros [[self' seen] e] w [Hw|Hu]; apply follows_ret; [by apply left_receiver|by right].
  - apply follows_bind. eapply follows_mono; [by apply heeds_Receiver_drop|].
    intros _ w ->. apply follows_ret. simpl. by eexists.
Qed.

(** ** Starting and finishing calls *)

(** Between its calls, the receiver's head is where its log says. *)
Lemma receiver_head G Γ m self g V tr :
  MInv sh limit G Γ m → Γ !! rx = Some (Ent g V tr None) → receives sh self g → gpub g = length (vals g) →
  head_at sh (Z.of_nat (length (received tr))) m ∧ r_head self = Z.of_nat (length (received tr)).
Proof using Type.
  intros HI Hi Hr Hp. destruct (mi_local _ _ _ _ _ HI _ _ Hi) as [Hc Hl Hlog]. rewrite decide_True in Hl by done.
  unfold log_ok in Hlog. rewrite decide_True in Hlog by done. simpl in Hlog. destruct Hlog as [Hv _].
  assert (freed G = false) as Hf by (apply (lc_freed _ _ _ _ _ Hc); simpl; by rewrite (rc_open _ _ _ Hr)).
  rewrite <-Hv, (rc_head _ _ _ Hr). split; [|done]. intros h Hh.
  destruct (mo_head _ _ _ (go_mem _ _ _ _ (mi_glob _ _ _ _ _ HI) Hf)) as (h' & Hh' & Hle & n & x & Hn & Hx & _).
  assert (h' = h) as -> by congruence. pose proof (lr_pub _ _ _ _ Hl) as Hpub. simpl in Hpub. split.
  - intros t y Hy. destruct (Hle t y Hy) as (k & -> & Hk & _). lia.
  - exists n, x. split; [done|]. rewrite Hx. congruence.
Qed.

Lemma mpsc_track_start Γ Δ m i g w V tr h c :
  MInvs sh limit Γ m → Γ !! i = Some (Ent g V tr None) → ready_ok sh i h V g tr →
  watch Δ m → Δ !! i = Some (Ent w V tr None) → ready_at i h w →
  ∃ w', watch (<[i := Ent w' V tr (Some c)]> Δ) m ∧
    track (known sh limit) watch dozing i tr c (left_at i tr c) (start cb c h) V w'.
Proof using HP Hok Hpark.
  intros ((G & HI) & _) Hi Hr HW HD Hw. destruct h as [self|self]; simpl in Hr.
  - destruct Hr as [Hne Hs]. unfold ready_at in Hw. rewrite decide_False in Hw by done. subst w.
    exists (calm 0). split; [by eapply (pr_label sh limit)|]. apply heeds_start_sender; [done|apply Hs].
  - destruct Hr as (-> & Hs & Hp). destruct Hw as [n ->].
    destruct (receiver_head _ _ _ _ _ _ _ HI Hi Hs Hp) as [Hat Hh].
    exists (calm (r_head self)). split; [|apply heeds_start_receiver; [apply Hs|done]].
    rewrite Hh. pose proof (pr_calm sh limit _ _ _ _ _ _ _ HW HD Hat) as HW2.
    rewrite <-(list_insert_insert_eq Δ rx _ (Ent (calm (Z.of_nat (length (received tr)))) V tr None)).
    eapply (pr_label sh limit); [exact HW2|]. by rewrite list_lookup_insert_eq by (by eapply lookup_lt_Some).
Qed.

Hypothesis Hcalm : ∀ v, cb v = true.

(** A calm callback lets every drain finish. *)
Lemma drain_finished seen e : ended cb 0 seen e → ¬ unfinished seen e.
Proof using Hcalm.
  destruct e as [n|]; simpl.
  - intros -> [Hn Hne]. destruct seen; [done|]. simpl in Hn. lia.
  - intros (v & _ & Hv) _. by rewrite Hcalm in Hv.
Qed.

Lemma mpsc_track_leave Δ m i g w V tr c keep new o :
  watch Δ m → Δ !! i = Some (Ent w V tr (Some c)) →
  post cb sh i tr c (keep, new, o) V g → left_at i tr c (keep, new, o) w →
  ∃ w' ws,
    watch (<[i := Ent w' V (tr ++ [(c, o)]) None]> Δ ++ ((λ w, Ent w V [] None) <$> ws)) m ∧
    (∀ h, keep = Some h → ready_at i h w') ∧ (keep = None → gone_at i w') ∧
    length ws = length new ∧
    (∀ j h w, new !! j = Some h → ws !! j = Some w → ready_at (length Δ + j) h w).
Proof using HP Hcalm.
  intros HW Hi (_ & Hdone & Hnew) Hleft. destruct (pr_fork sh limit _ _ V HW) as [_ Hrx].
  assert (Hk : ∀ h, keep = Some h → ready_at i h w).
  { intros h ->. destruct Hleft as [Hr|[_ Hu]]; [done|]. destruct o; try done. by apply drain_finished in Hdone. }
  assert (HW' : watch (<[i := Ent w V (tr ++ [(c, o)]) None]> Δ) m) by (by eapply (pr_label sh limit)).
  destruct new as [|h [|]]; [| |done].
  - exists w, []. rewrite app_nil_r. split_and!; try done. by intros ->.
  - exists w, [calm 0]. split_and!; try done.
    + by apply (pr_fork sh limit).
    + by intros ->.
    + intros j h' w' [-> _]%list_lookup_singleton_Some [_ <-]%list_lookup_singleton_Some.
      unfold ready_at, rx in *. rewrite decide_False by lia. done.
Qed.
End operations.
