(* ===== verification/MpscRxWait.v ===== *)
(** The receiver's wakeups of the MPSC ring: the stages of the park protocol
    between the receiver, which waits on its parker, and any number of senders,
    which wake it, and the invariant that ties them to the flag, the
    registration slot, the receiver's token and the global view of the
    sequentially consistent fences.

    The receiver registers, raises its flag, passes a fence and looks at the
    round of its slot and at the number of senders. A sender publishes a round,
    or is the last to leave; passes a fence; and looks at the flag. Whichever
    fence is second sees the other thread's store. *)
From S2P Require Import Prelude Usize Atomic Errors Wait Notify Ring Queue Mpsc Seq Memory Machine Logic Track.
From S2P Require Import MpscInv MpscProt MpscCalls MpscConc MpscOps MpscClients MpscWatch.
Local Open Scope Z_scope.

(** The receiver: registered; flag raised by the store at [p]; past the fence,
    then having loaded a round ([r]: slot, timestamp, value) and the number of
    senders ([d]: timestamp, value). A sender: between the claim of [q] and its
    publication; published, or the last to leave, but not yet fenced; fenced;
    flag read as raised; flag lowered; about to unpark the thread it found in
    the slot. *)
Inductive duty :=
  | Calm
  | Enlisted
  | Flagged (p : nat)
  | Alert (p : nat) (r : option (nat * nat * Z)) (d : option (nat * Z))
  | Holding (q : nat)
  | Owing
  | Checking
  | Claiming
  | Lowered
  | Calling (j : tid).

#[global] Instance duty_eq_dec : EqDecision duty.
Proof. solve_decision. Defined.

(** A thread's stage, and, of the receiver, the head it last published. *)
Record rxw := Rxw { rduty : duty; rpub : Z }.

Section watch.
Context `{tgt : Target} {T : Type} (sh : Shared).
Abbreviation entry := (ent rxw (call T) (event T)).
Implicit Types (Δ : list entry) (e k : entry) (m : mem T) (q : nat).

Definition pk : loc := Loc (sh_ring sh) (Parked Consumer).
Definition ps : loc := Loc (sh_ring sh) (ParkerSlot Consumer).
Abbreviation rd := (slot_round sh).
Abbreviation count := (senders sh).
Definition slot_tid m : option tid := mslots m !! ps ≫= fst.
Definition slot_view m : view := default ∅ (snd <$> mslots m !! ps).
Abbreviation dt e := (rduty (eg e)).
Abbreviation vi e := (cur (ev e)).

(** Some sender's entry satisfies [P]. *)
Definition some_tx (P : entry → Prop) Δ : Prop := ∃ j k, j ≠ rx ∧ Δ !! j = Some k ∧ P k.

(** Somebody will wake the receiver, or did. *)
Definition alarmed Δ m : Prop :=
  is_Some (mtokens m !! rx) ∨ some_tx (λ k, dt k = Calling rx) Δ ∨
  slot_tid m = Some rx ∧ some_tx (λ k, dt k = Claiming ∨ dt k = Lowered) Δ.

(** The receiver can be found, and its flag is up for whoever is past store [p]. *)
Definition armed (p : nat) m : Prop :=
  slot_tid m = Some rx ∧ latest m pk p ∧
  ∀ h x, hist m !! pk = Some h → h !! p = Some x → mval x = 1.

(** Some sender is still to look at the flag raised at [p]. *)
Definition owes (p : nat) Δ : Prop :=
  some_tx (λ k, dt k = Owing ∨ dt k = Checking ∧ (p ≤ vw (vi k) pk)%nat) Δ.

(** All stores of zero to [l] are at or before [t]. *)
Definition zeros_by m (l : loc) (t : nat) : Prop :=
  ∀ h t' x, hist m !! l = Some h → h !! t' = Some x → mval x = 0 → (t' ≤ t)%nat.

(** What the receiver was going to look at is not older than all there is. *)
Definition rounds_seen e (r : option (nat * nat * Z)) m : Prop :=
  match r with
  | None => ∀ j, latest m (rd j) (vw (vi e) (rd j))
  | Some (j, tc, _) => latest m (rd j) tc
  end.
Definition end_seen e (d : option (nat * Z)) m : Prop :=
  zeros_by m count (match d with None => vw (vi e) count | Some (td, _) => td end).

(** What it saw is still there. *)
Definition noted (r : option (nat * nat * Z)) (d : option (nat * Z)) m : Prop :=
  (∀ j tc v, r = Some (j, tc, v) → loaded m (rd j) tc (Some v)) ∧
  (∀ td v, d = Some (td, v) → loaded m count td (Some v)).

Definition wait_ok Δ e m : Prop :=
  match dt e with
  | Enlisted => alarmed Δ m ∨ slot_tid m = Some rx ∧ latest m pk (vw (vi e) pk)
  | Flagged p => (p ≤ vw (vi e) pk)%nat ∧ (alarmed Δ m ∨ armed p m)
  | Alert p r d =>
      (p ≤ vw (scview m) pk)%nat ∧ noted r d m ∧
      (alarmed Δ m ∨ armed p m ∧ (rounds_seen e r m ∧ end_seen e d m ∨ owes p Δ))
  | _ => True
  end.

(** The round of [q] was published. *)
Definition sent q m : Prop :=
  ∃ h t x, hist m !! rd (sl sh q) = Some h ∧ h !! t = Some x ∧ mval x = round_of sh (Z.of_nat q).

(** Stores to the flag are known to the receiver, to the next one who locks
    the slot, or to the sender about to do so. *)
Definition flag_ok Δ m : Prop := ∀ e t, Δ !! rx = Some e → stored m pk t →
  (t ≤ vw (vi e) pk)%nat ∨ (t ≤ vw (slot_view m) pk)%nat ∨
  some_tx (λ k, dt k = Lowered ∧ (t ≤ vw (vi k) pk)%nat) Δ.

(** Every publication, and the last sender's leave, is past a fence, or its
    author still owes one. *)
Definition round_news Δ m : Prop := ∀ j t, stored m (rd j) t →
  (t ≤ vw (scview m) (rd j))%nat ∨ some_tx (λ k, dt k = Owing ∧ (t ≤ vw (vi k) (rd j))%nat) Δ.
Definition end_news Δ m : Prop := ∀ h t x, hist m !! count = Some h → h !! t = Some x → mval x = 0 →
  (t ≤ vw (scview m) count)%nat ∨ some_tx (λ k, dt k = Owing ∧ (t ≤ vw (vi k) count)%nat) Δ.

(** Every claim was published, or its sender is about to. *)
Definition claims_ok Δ m : Prop := ∀ q, stored m (claim sh) (S q) →
  sent q m ∨ some_tx (λ k, dt k = Holding q) Δ.

Record Watch Δ m : Prop := {
  wa_rx : ∃ e, Δ !! rx = Some e ∧ wait_ok Δ e m ∧ head_at sh (rpub (eg e)) m;
  wa_flag : flag_ok Δ m;
  wa_round : round_news Δ m;
  wa_end : end_news Δ m;
  wa_claims : claims_ok Δ m;
}.

(** ** What does not matter *)

(** The memory lost nothing the protocol speaks of. *)
Record milder m m' : Prop := {
  ml_flag : kept m m' pk;
  ml_round j : kept m m' (rd j);
  ml_count : kept m m' count;
  ml_head : kept m m' (head sh);
  ml_claim : kept m m' (claim sh);
  ml_sent q : stored m' (claim sh) (S q) → sent q m → sent q m';
  ml_slot : mslots m' !! ps = mslots m !! ps;
  ml_token : is_Some (mtokens m !! rx) → is_Some (mtokens m' !! rx);
  ml_sc : vle (scview m) (scview m');
}.

(** Replacing the entry of thread [i]. *)
Lemma some_tx_upd (P Q : entry → Prop) Δ i e e' :
  some_tx P Δ → Δ !! i = Some e → (∀ k, P k → Q k) → (i ≠ rx → P e → Q e') →
  some_tx Q (<[i := e']> Δ).
Proof using Type.
  intros (j & k & Hj & Hk & HP) Hi HPQ He. destruct (decide (i = j)) as [->|Hne].
  - simplify_eq. exists j, e'. split; [done|]. rewrite list_lookup_insert_eq by (by eapply lookup_lt_Some). auto.
  - exists j, k. split; [done|]. rewrite list_lookup_insert_ne by done. auto.
Qed.

Lemma some_tx_mono (P Q : entry → Prop) Δ : some_tx P Δ → (∀ k, P k → Q k) → some_tx Q Δ.
Proof using Type. intros (j & k & ? & ? & ?) HPQ. exists j, k. auto. Qed.

Lemma some_tx_self (P : entry → Prop) Δ i e' : i ≠ rx → is_Some (Δ !! i) → P e' → some_tx P (<[i := e']> Δ).
Proof using Type.
  intros Hi [e He] HP. exists i, e'. rewrite list_lookup_insert_eq by (by eapply lookup_lt_Some). done.
Qed.

Lemma some_tx_app (P : entry → Prop) Δ Δ' : some_tx P Δ → some_tx P (Δ ++ Δ').
Proof using Type. intros (j & k & ? & ? & ?). exists j, k. rewrite lookup_app_l by (by eapply lookup_lt_Some). done. Qed.

Lemma armed_kept p m m' : kept m m' pk → mslots m' !! ps = mslots m !! ps → armed p m → armed p m'.
Proof using Type.
  intros Hk Hs (H1 & H2 & H3). split_and!.
  - unfold slot_tid. by rewrite Hs.
  - by eapply latest_sub.
  - intros h x Hh. by apply H3, Hk.
Qed.

Lemma zeros_sub m m' l t : kept m m' l → zeros_by m l t → zeros_by m' l t.
Proof using Type. intros Hk Hz h t' x Hh. by apply Hz, Hk. Qed.

Lemma noted_sub r d m m' :
  (∀ j, kept m m' (rd j)) → kept m m' count → noted r d m → noted r d m'.
Proof using Type.
  intros Hr Hd [H1 H2]. split; [intros j tc v Heq|intros td v Heq]; (eapply loaded_sub; [|eauto]); auto.
Qed.

Section frame.
Context (Δ : list entry) (i : tid) (e e' : entry) (m m' : mem T).
Hypothesis Hi : Δ !! i = Some e.
Hypothesis Hv : vle (vi e) (vi e').

Lemma rx_entry e2 : <[i := e']> Δ !! rx = Some e2 → (i = rx ∧ e2 = e') ∨ (i ≠ rx ∧ Δ !! rx = Some e2).
Proof using Hi Hv.
  intros [(-> & -> & _)|[? ?]]%list_lookup_insert_Some; [by left|by right].
Qed.

Lemma flag_frame :
  flag_ok Δ m → kept m m' pk → mslots m' !! ps = mslots m !! ps →
  (i ≠ rx → dt e = Lowered → dt e' = Lowered) → flag_ok (<[i := e']> Δ) m'.
Proof using Hi Hv.
  intros HF Hk Hs Hl e2 t He2 Ht. apply (stored_sub m) in Ht; [|done]. unfold slot_view. rewrite Hs.
  assert (∃ e1, Δ !! rx = Some e1 ∧ vle (vi e1) (vi e2)) as (e1 & He1 & Hle).
  { destruct (rx_entry _ He2) as [[Heq ->]|[? ?]]; [exists e; by rewrite <-Heq|by exists e2]. }
  destruct (HF e1 t He1 Ht) as [?|[?|Hw]]; [left; specialize (Hle pk); lia|by right; left|right; right].
  eapply some_tx_upd; [exact Hw|exact Hi|done|]. intros Hne [H1 H2]. split; [auto|]. specialize (Hv pk). lia.
Qed.

(** What is news stays news while its author owes. *)
Lemma owing_frame (t : nat) (l : loc) :
  some_tx (λ k, dt k = Owing ∧ (t ≤ vw (vi k) l)%nat) Δ → (i ≠ rx → dt e = Owing → dt e' = Owing) →
  some_tx (λ k, dt k = Owing ∧ (t ≤ vw (vi k) l)%nat) (<[i := e']> Δ).
Proof using Hi Hv.
  intros Hw Ho. eapply some_tx_upd; [exact Hw|exact Hi|done|]. intros Hne [H1 H2].
  split; [auto|]. specialize (Hv l). lia.
Qed.

Lemma round_frame :
  round_news Δ m → (∀ j, kept m m' (rd j)) → vle (scview m) (scview m') →
  (i ≠ rx → dt e = Owing → dt e' = Owing) → round_news (<[i := e']> Δ) m'.
Proof using Hi Hv.
  intros HN Hk Hs Ho j t Ht. apply (stored_sub m) in Ht; [|done]. specialize (Hs (rd j)).
  destruct (HN j t Ht) as [?|Hw]; [left; lia|right]. by apply owing_frame.
Qed.

Lemma end_frame :
  end_news Δ m → kept m m' count → vle (scview m) (scview m') →
  (i ≠ rx → dt e = Owing → dt e' = Owing) → end_news (<[i := e']> Δ) m'.
Proof using Hi Hv.
  intros HN Hk Hs Ho h t x Hh Hx H0. specialize (Hs count).
  destruct (HN h t x (Hk _ Hh) Hx H0) as [?|Hw]; [left; lia|right]. by apply owing_frame.
Qed.

Lemma claims_frame :
  claims_ok Δ m → kept m m' (claim sh) → (∀ q, stored m' (claim sh) (S q) → sent q m → sent q m') →
  (i ≠ rx → ∀ q, dt e = Holding q → dt e' = Holding q) → claims_ok (<[i := e']> Δ) m'.
Proof using Hi Hv.
  intros HC Hk Hs Hh q Hq. pose proof (stored_sub m _ _ _ Hk Hq) as Hq'.
  destruct (HC q Hq') as [?|Hw]; [left; auto|right].
  eapply some_tx_upd; [exact Hw|exact Hi|done|]. auto.
Qed.

(** The receiver's wait goes on. *)
Lemma wait_frame e1 e2 :
  wait_ok Δ e1 m → dt e2 = dt e1 → vle (vi e1) (vi e2) →
  kept m m' pk → (∀ j, kept m m' (rd j)) → kept m m' count →
  mslots m' !! ps = mslots m !! ps → vle (scview m) (scview m') →
  (alarmed Δ m → alarmed (<[i := e']> Δ) m') →
  (∀ p, (p ≤ vw (scview m) pk)%nat → armed p m → owes p Δ →
     alarmed (<[i := e']> Δ) m' ∨ owes p (<[i := e']> Δ)) →
  wait_ok (<[i := e']> Δ) e2 m'.
Proof using Hi Hv.
  intros Hw Hd Hle Hkf Hkr Hkc Hs Hsc Ha Ho. unfold wait_ok in *. rewrite Hd.
  destruct (dt e1) as [| |p|p r d| | | | | |]; try done.
  - destruct Hw as [?|[H1 H2]]; [by left; apply Ha|right]. split.
    + unfold slot_tid in *. by rewrite Hs.
    + apply (latest_sub m); [done|]. intros t Ht. specialize (H2 t Ht). specialize (Hle pk). lia.
  - destruct Hw as [H1 H2]. split; [specialize (Hle pk); lia|].
    destruct H2; [by left; apply Ha|right; by eapply armed_kept].
  - destruct Hw as (H1 & H2 & H3). split_and!; [specialize (Hsc pk); lia|by eapply noted_sub|].
    destruct H3 as [?|[Har [[Hr He]|Hw]]]; [by left; apply Ha| |].
    + right. split; [by eapply armed_kept|left]. split.
      * destruct r as [[[j tc] v]|]; simpl in *; [by eapply latest_sub|]. intros j. apply (latest_sub m); [done|].
        intros t Ht. specialize (Hr j t Ht). specialize (Hle (rd j)). lia.
      * unfold end_seen in *. apply (zeros_sub m); [done|]. intros h t x Hh Hx H0.
        specialize (He h t x Hh Hx H0). specialize (Hle count). destruct d as [[td v]|]; lia.
    + destruct (Ho p H1 Har Hw) as [?|?]; [by left|right]. split; [by eapply armed_kept|by right].
Qed.
End frame.

Lemma alarmed_frame Δ m i e e' m' :
  alarmed Δ m → Δ !! i = Some e →
  mslots m' !! ps = mslots m !! ps → (is_Some (mtokens m !! rx) → is_Some (mtokens m' !! rx)) →
  (i ≠ rx → dt e = Calling rx → dt e' = Calling rx ∨ is_Some (mtokens m' !! rx)) →
  (i ≠ rx → dt e = Claiming ∨ dt e = Lowered → dt e' = Claiming ∨ dt e' = Lowered) →
  alarmed (<[i := e']> Δ) m'.
Proof using Type.
  intros Ha Hi Hs Ht Hc Hl. unfold alarmed, slot_tid in *. rewrite Hs.
  destruct Ha as [?|[Hw|[Hsl Hw]]]; [by left; auto| |].
  - destruct (decide (is_Some (mtokens m' !! rx))) as [?|Hn]; [by left|right; left].
    eapply some_tx_upd; [exact Hw|exact Hi|done|]. intros Hne He. by destruct (Hc Hne He).
  - right; right. split; [done|]. eapply some_tx_upd; [exact Hw|exact Hi|done|]. auto.
Qed.

Lemma owes_frame Δ i e e' p :
  owes p Δ → Δ !! i = Some e → vle (vi e) (vi e') → (i ≠ rx → dt e' = dt e) → owes p (<[i := e']> Δ).
Proof using Type.
  intros Ho Hi Hv He. eapply some_tx_upd; [exact Ho|exact Hi|done|]. intros Hne.
  rewrite (He Hne). intros [?|[? ?]]; [by left|right]. split; [done|]. specialize (Hv pk). lia.
Qed.

(** A move that touches none of the protocol's locations. *)
Lemma Watch_frame Δ m i e e' m' :
  Watch Δ m → Δ !! i = Some e → vle (vi e) (vi e') → milder m m' →
  (i = rx → dt e' = dt e ∧ rpub (eg e') = rpub (eg e)) →
  (i ≠ rx → dt e' = dt e ∨ dt e ≠ Lowered ∧ dt e ≠ Owing ∧ ∀ q, dt e ≠ Holding q) →
  (alarmed Δ m → alarmed (<[i := e']> Δ) m') →
  (∀ p, (p ≤ vw (scview m) pk)%nat → armed p m → owes p Δ →
     alarmed (<[i := e']> Δ) m' ∨ owes p (<[i := e']> Δ)) →
  Watch (<[i := e']> Δ) m'.
Proof using Type.
  intros [(e0 & He0 & HW & HH) HF HR HE HC] Hi Hv [] Hrx Htx Ha Ho. split.
  - destruct (decide (i = rx)) as [->|Hne].
    + simplify_eq. destruct (Hrx eq_refl) as [Hd Hp]. exists e'.
      rewrite list_lookup_insert_eq by (by eapply lookup_lt_Some). split_and!; [done| |].
      * by eapply wait_frame.
      * rewrite Hp. by eapply head_at_kept.
    + exists e0. rewrite list_lookup_insert_ne by done. split_and!; [done| |by eapply head_at_kept].
      by eapply wait_frame.
  - eapply flag_frame; [done..|]. intros Hne. destruct (Htx Hne) as [->|(?&?&?)]; congruence || done.
  - eapply round_frame; [done..|]. intros Hne. destruct (Htx Hne) as [->|(?&?&?)]; congruence || done.
  - eapply end_frame; [done..|]. intros Hne. destruct (Htx Hne) as [->|(?&?&?)]; congruence || done.
  - eapply claims_frame; [done..|]. intros Hne q. destruct (Htx Hne) as [->|(?&?&Hq)]; [done|]. intros Hd. by destruct (Hq q).
Qed.

(** A thread observes more and the memory gets milder. *)
Lemma rx_watch_milder Δ m m' i w V tr c V' :
  Watch Δ m → Δ !! i = Some (Ent w V tr c) → vle (cur V) (cur V') → milder m m' →
  Watch (<[i := Ent w V' tr c]> Δ) m'.
Proof using Type.
  intros HW Hi HV Hm. eapply Watch_frame; [exact HW|exact Hi|exact HV|exact Hm|done|by left| |].
  - intros Ha. eapply alarmed_frame; [exact Ha|exact Hi|apply Hm|apply Hm|by left|done].
  - intros p _ _ Ho. right. by eapply owes_frame.
Qed.

Lemma Watch_label Δ m i w V tr c tr' c' :
  Watch Δ m → Δ !! i = Some (Ent w V tr c) → Watch (<[i := Ent w V tr' c']> Δ) m.
Proof using Type.
  intros HW Hi. eapply Watch_frame; [exact HW|exact Hi|done|by split|done|by left| |].
  - intros Ha. eapply alarmed_frame; [exact Ha|exact Hi|done|done|by left|done].
  - intros p _ _ Ho. right. by eapply owes_frame.
Qed.

Lemma Watch_app Δ m V :
  Watch Δ m → Watch (Δ ++ [Ent (Rxw Calm 0) V [] None]) m.
Proof using Type.
  set (Δ' := [_]). intros [(e0 & He0 & HW & HH) HF HR HE HC].
  assert (∀ P, some_tx P Δ → some_tx P (Δ ++ Δ')) as Happ by (intros; by apply some_tx_app).
  assert (alarmed Δ m → alarmed (Δ ++ Δ') m) as Ha by (unfold alarmed; intuition).
  assert (∀ p, owes p Δ → owes p (Δ ++ Δ')) as Ho by (intros p; apply Happ).
  assert ((Δ ++ Δ') !! rx = Some e0) as He0' by (rewrite lookup_app_l; [done|by eapply lookup_lt_Some]).
  split.
  - exists e0. split_and!; [done| |done]. unfold wait_ok in *. destruct (dt e0); try done.
    + destruct HW; auto.
    + destruct HW as [? []]; auto.
    + destruct HW as (? & ? & [?|[? [?|?]]]); split_and!; auto 6.
  - intros e t He Ht. assert (e = e0) as -> by congruence. destruct (HF e0 t He0 Ht) as [?|[?|?]]; auto.
  - intros j t Ht. destruct (HR j t Ht); auto.
  - intros h t x Hh Hx H0. destruct (HE h t x Hh Hx H0); auto.
  - intros q Hq. destruct (HC q Hq); auto.
Qed.

(** ** Which changes are mild *)

(** The locations of the protocol. *)
Definition watched (l : loc) : Prop := l = pk ∨ (∃ j, l = rd j) ∨ l = count ∨ l = head sh ∨ l = claim sh.

Lemma milder_hist m m' :
  (∀ l, watched l → hist m' !! l = hist m !! l) ∨ (∀ l, watched l → hist m' !! l = None) →
  mslots m' !! ps = mslots m !! ps → (is_Some (mtokens m !! rx) → is_Some (mtokens m' !! rx)) →
  vle (scview m) (scview m') → milder m m'.
Proof using Type.
  intros Hh Hs Ht Hv.
  assert (∀ l, watched l → kept m m' l) as Hk by (intros l Hl h; destruct Hh as [Hh|Hh]; by rewrite Hh by done).
  assert (∀ j, watched (rd j)) as Hrd by (intros j; right; left; by exists j).
  split; try done; try (apply Hk; unfold watched; tauto).
  - intros j. by apply Hk.
  - intros q (h & Hc & _) Hq. destruct Hh as [Hh|Hh]; [|rewrite Hh in Hc; [done|unfold watched; tauto]].
    unfold sent. by rewrite Hh.
Qed.

Lemma milder_quiet m m' : quiet sh m m' → milder m m'.
Proof using Type.
  intros [Hh Hs _ Ht Hv]. apply milder_hist; [|by rewrite Hs|apply Ht|done].
  destruct Hh as [Hh|Hh]; [left|right].
  - intros l Hl. apply Hh. by destruct Hl as [-> |[[j ->]|[-> |[-> | ->]]]].
  - intros l Hl. destruct Hl as [-> |[[j ->]|[-> |[-> | ->]]]]; apply Hh.
Qed.

Lemma rx_milder_refl m : milder m m.
Proof using Type. apply milder_quiet, quiet_refl. Qed.

(** Stores elsewhere. *)
Lemma rx_milder_store l t x m : ¬ watched l → milder m (add_msg l t x m).
Proof using Type.
  intros Hl. apply milder_hist; try done. left. intros l' Hl'. apply hist_add_other. by intros ->.
Qed.

(** The other side's queue, and the tokens of others. *)
Lemma milder_queue f m : milder m (set_mqueues f m).
Proof using Type. apply milder_hist; try done. by left. Qed.

Lemma rx_milder_token i m : i ≠ rx → milder m (set_mtokens (delete i) m).
Proof using Type.
  intros Hi. apply milder_hist; try done; [by left|]. simpl. by rewrite lookup_delete_ne.
Qed.

(** ** The receiver's moves *)

Lemma some_tx_rx P Δ e' : some_tx P (<[rx := e']> Δ) ↔ some_tx P Δ.
Proof using Type.
  split; intros (j & k & Hj & Hk & HP); exists j, k.
  - by rewrite list_lookup_insert_ne in Hk by done.
  - by rewrite list_lookup_insert_ne by done.
Qed.

Lemma alarmed_rx Δ e' m : alarmed (<[rx := e']> Δ) m ↔ alarmed Δ m.
Proof using Type. unfold alarmed. by rewrite !some_tx_rx. Qed.

Lemma owes_rx p Δ e' : owes p (<[rx := e']> Δ) ↔ owes p Δ.
Proof using Type. apply some_tx_rx. Qed.

(** Whether some sender is in stage [σ]. *)
Lemma some_tx_dec Δ σ : some_tx (λ k, dt k = σ) Δ ∨ ∀ P, some_tx (λ k, dt k = σ ∧ P k) Δ → False.
Proof using Type.
  destruct (decide (Exists (λ p, p.1 ≠ rx ∧ dt p.2 = σ) (imap pair Δ))) as [He|He].
  - left. apply Exists_exists in He as ([j k] & (i & k' & [= -> ->] & Hk)%elem_of_lookup_imap & Hj & Hd). by exists i, k'.
  - right. intros P (j & k & Hj & Hk & Hd & _). apply He, Exists_exists. exists (j, k). split; [|done].
    apply elem_of_lookup_imap. by exists j, k.
Qed.

Lemma rx_move Δ m e e' m' :
  Watch Δ m → Δ !! rx = Some e → vle (vi e) (vi e') →
  (∀ j, kept m m' (rd j)) → kept m m' count → kept m m' (claim sh) →
  (∀ q, stored m' (claim sh) (S q) → sent q m → sent q m') → vle (scview m) (scview m') →
  flag_ok (<[rx := e']> Δ) m' → wait_ok Δ e' m' → head_at sh (rpub (eg e')) m' →
  Watch (<[rx := e']> Δ) m'.
Proof using Type.
  intros [_ HF HR HE HC] Hi Hv Hkr Hkc Hkl Hs Hsc HF' HW' HH'. split; [|done|..].
  - exists e'. rewrite list_lookup_insert_eq by (by eapply lookup_lt_Some). split_and!; [done| |done].
    unfold wait_ok in *. destruct (dt e'); try done; by rewrite ?alarmed_rx, ?owes_rx.
  - by eapply round_frame.
  - by eapply end_frame.
  - by eapply claims_frame.
Qed.

(** What the receiver's entry says before a move. *)
Lemma Watch_rx Δ m e :
  Watch Δ m → Δ !! rx = Some e →
  wait_ok Δ e m ∧ head_at sh (rpub (eg e)) m ∧ ∀ t, stored m pk t →
    (t ≤ vw (vi e) pk)%nat ∨ (t ≤ vw (slot_view m) pk)%nat ∨ some_tx (λ k, dt k = Lowered ∧ (t ≤ vw (vi k) pk)%nat) Δ.
Proof using Type.
  intros [(e0 & He0 & HW & HH) HF _ _ _] Hi. simplify_eq. split_and!; [done..|]. intros t. by apply HF.
Qed.

(** The flag known as before. *)
Lemma flag_rx Δ m e' :
  (∃ e, Δ !! rx = Some e) →
  (∀ t, stored m pk t → (t ≤ vw (vi e') pk)%nat ∨ (t ≤ vw (slot_view m) pk)%nat ∨
     some_tx (λ k, dt k = Lowered ∧ (t ≤ vw (vi k) pk)%nat) Δ) →
  flag_ok (<[rx := e']> Δ) m.
Proof using Type.
  intros [e He] HF e2 t He2 Ht. rewrite list_lookup_insert_eq in He2 by (by eapply lookup_lt_Some).
  simplify_eq. rewrite some_tx_rx. auto.
Qed.

(** A move that leaves the flag alone. *)
Lemma rx_move_on Δ m e e' m' :
  Watch Δ m → Δ !! rx = Some e → vle (vi e) (vi e') → kept m m' pk → mslots m' !! ps = mslots m !! ps →
  (∀ j, kept m m' (rd j)) → kept m m' count → kept m m' (claim sh) →
  (∀ q, stored m' (claim sh) (S q) → sent q m → sent q m') → vle (scview m) (scview m') →
  wait_ok Δ e' m' → head_at sh (rpub (eg e')) m' → Watch (<[rx := e']> Δ) m'.
Proof using Type.
  intros HW Hi Hv Hk Hs. intros. eapply rx_move; try done. eapply flag_frame; [exact Hi|exact Hv|apply HW|done..].
Qed.

(** A store of its own to the flag. *)
Lemma rx_move_flag Δ m w w' V tr c t x :
  Watch Δ m → Δ !! rx = Some (Ent w V tr c) → rpub w' = rpub w →
  let e' := Ent w' (write_view pk t V) tr c in
  wait_ok Δ e' (add_msg pk t x m) → Watch (<[rx := e']> Δ) (add_msg pk t x m).
Proof using Type.
  intros HW Hi Hp e' HWt. destruct (Watch_rx _ _ _ HW Hi) as (_ & HH & HF).
  assert (HV : vle (cur V) (cur (write_view pk t V))) by apply vle_set.
  eapply rx_move; [exact HW|exact Hi|exact HV|..|exact HWt|].
  - intros j. by apply kept_add.
  - by apply kept_add.
  - by apply kept_add.
  - intros q _ (h' & t' & y & Hh' & Hx). exists h', t', y. by rewrite hist_add_other.
  - done.
  - apply flag_rx; [eauto|]. intros t' Ht'. specialize (HV pk).
    destruct (stored_add _ _ _ _ _ _ Ht') as [[_ ->]|Hs]; [left; simpl; rewrite vw_set_same; lia|].
    destruct (HF t' Hs) as [?|?]; [left; simpl in *; lia|by right].
  - simpl. rewrite Hp. by eapply head_at_kept; [apply kept_add|].
Qed.

Definition rto (σ : duty) (w : rxw) : rxw := Rxw σ (rpub w).

Ltac view_at Hv l := let H := fresh in pose proof (Hv l) as H; simpl in H.

(** Registering. *)
Lemma rx_enlist Δ m w V tr c :
  Watch Δ m → Δ !! rx = Some (Ent w V tr c) →
  let V' := learn (slot_view m) V in
  Watch (<[rx := Ent (rto Enlisted w) V' tr c]> Δ) (set_mslots <[ps := (Some rx, cur V')]> m).
Proof using Type.
  intros HW Hi V'. destruct (Watch_rx _ _ _ HW Hi) as (_ & HH & HF).
  assert (HV : vle (cur V) (cur V')) by apply vle_join_l.
  assert (Hsl : vle (slot_view m) (cur V')) by apply vle_join_r. clearbody V'.
  assert (Hflag : ∀ t, stored m pk t → (t ≤ vw (cur V') pk)%nat ∨ some_tx (λ k, dt k = Lowered ∧ (t ≤ vw (vi k) pk)%nat) Δ).
  { intros t Ht. view_at HV pk. view_at Hsl pk. destruct (HF t Ht) as [?|[?|?]]; [left; simpl in *; lia|left; lia|by right]. }
  eapply rx_move; [exact HW|exact Hi|exact HV|done..| | |exact HH].
  - apply flag_rx; [eauto|]. intros t Ht. destruct (Hflag t Ht); auto.
  - unfold wait_ok, alarmed, slot_tid. simpl. rewrite lookup_insert_eq. simpl.
    destruct (some_tx_dec Δ Lowered) as [Hl|Hl].
    + left. right; right. split; [done|]. eapply some_tx_mono; [exact Hl|auto].
    + right. split; [done|]. intros t Ht. destruct (Hflag t Ht) as [?|Hs]; [done|by destruct (Hl _ Hs)].
Qed.

(** Raising the flag. *)
Lemma rx_raise Δ m w V tr c t h b :
  Watch Δ m → Δ !! rx = Some (Ent w V tr c) → rduty w = Enlisted →
  hist m !! pk = Some h → h !! t = None → (vw (cur V) pk < t)%nat →
  Watch (<[rx := Ent (rto (Flagged t) w) (write_view pk t V) tr c]> Δ) (add_msg pk t (Msg 1 b) m).
Proof using Type.
  intros HW Hi Hw Hh Ht Hlt. destruct (Watch_rx _ _ _ HW Hi) as (HWt & _ & _).
  eapply rx_move_flag; [exact HW|exact Hi|done|].
  unfold wait_ok in *. simpl in *. rewrite Hw in HWt. split; [rewrite vw_set_same; lia|].
  destruct HWt as [?|[Hs Hc]]; [by left|right]. split_and!; [done| |].
  - intros t' Ht'. destruct (stored_add _ _ _ _ _ _ Ht') as [[_ ->]|Hst]; [done|]. specialize (Hc t' Hst). lia.
  - intros h' x. simpl. rewrite lookup_insert_eq, Hh. simpl. intros [= <-].
    rewrite lookup_insert_eq. by intros [= <-].
Qed.

(** The fence after the flag: what the receiver can still miss, some sender
    will look at its flag for. *)
Lemma rx_fence Δ m w V tr c p :
  Watch Δ m → Δ !! rx = Some (Ent w V tr c) → rduty w = Flagged p →
  let '(V', G) := fence_view SeqCst V (scview m) in
  Watch (<[rx := Ent (rto (Alert p None None) w) V' tr c]> Δ) (set_scview G m).
Proof using Type.
  intros HW Hi Hw. unfold fence_view. set (G := vjoin _ (scview m)). set (V' := {| cur := G; acq := acq V; rel := G |}).
  destruct (Watch_rx _ _ _ HW Hi) as (HWt & HH & HF).
  assert (HV : vle (cur V) (cur V')) by (etrans; apply vle_join_l).
  assert (HG : vle (scview m) G) by apply vle_join_r.
  assert (HVG : cur V' = G) by done. clearbody V' G. subst G.
  eapply rx_move_on; [exact HW|exact Hi|exact HV|done..| |exact HH].
  unfold wait_ok in *. simpl in *. rewrite Hw in HWt. destruct HWt as [Hp Ha]. view_at HV pk.
  split_and!; [lia|by split|]. destruct Ha as [?|Ha]; [by left|right]. split; [done|].
  destruct (some_tx_dec Δ Owing) as [Ho|Ho]; [right; eapply some_tx_mono; [exact Ho|auto]|left].
  split; [intros j t Ht|intros h t x Hh Hx H0].
  - view_at HG (rd j). destruct (wa_round _ _ HW j t Ht) as [?|Hs]; [simpl; lia|by destruct (Ho _ Hs)].
  - view_at HG (senders sh). destruct (wa_end _ _ HW h t x Hh Hx H0) as [?|Hs]; [simpl; lia|by destruct (Ho _ Hs)].
Qed.

(** Loading a round, and the number of senders. *)
Lemma rx_look_round Δ m w V tr c p j t h x :
  Watch Δ m → Δ !! rx = Some (Ent w V tr c) → rduty w = Alert p None None →
  hist m !! rd j = Some h → h !! t = Some x → (vw (cur V) (rd j) ≤ t)%nat →
  Watch (<[rx := Ent (rto (Alert p (Some (j, t, mval x)) None) w) (read_view (rd j) t Acquire x V) tr c]> Δ) m.
Proof using Type.
  intros HW Hi Hw Hh Ht Hle. destruct (read_view_grows (rd j) t Acquire x V) as [HV _].
  set (V' := read_view _ _ _ _ _) in *. clearbody V'. destruct (Watch_rx _ _ _ HW Hi) as (HWt & HH & HF).
  eapply rx_move_on; [exact HW|exact Hi|exact HV|done..| |exact HH].
  { unfold wait_ok in *. simpl in *. rewrite Hw in HWt. destruct HWt as (H1 & H2 & H3). split_and!; [done| |].
    + split; [|done]. intros j' tc v [= <- <- <-] z h' [= <-] Hh'. assert (h' = h) as -> by congruence. eauto.
    + destruct H3 as [?|[Har [[Hr He]|Ho]]]; [by left|right; split; [done|]..]; [left|by right]. split.
      * intros t' Ht'. specialize (Hr j t' Ht'). simpl in *. lia.
      * intros h' t' y Hh' Hy H0. specialize (He h' t' y Hh' Hy H0). view_at HV (senders sh). simpl in *. lia. }
Qed.

Lemma rx_look_end Δ m w V tr c p r t h x :
  Watch Δ m → Δ !! rx = Some (Ent w V tr c) → rduty w = Alert p (Some r) None →
  hist m !! count = Some h → h !! t = Some x → (vw (cur V) count ≤ t)%nat →
  Watch (<[rx := Ent (rto (Alert p (Some r) (Some (t, mval x))) w) (read_view count t Acquire x V) tr c]> Δ) m.
Proof using Type.
  intros HW Hi Hw Hh Ht Hle. destruct (read_view_grows count t Acquire x V) as [HV _].
  set (V' := read_view _ _ _ _ _) in *. clearbody V'. destruct (Watch_rx _ _ _ HW Hi) as (HWt & HH & HF).
  eapply rx_move_on; [exact HW|exact Hi|exact HV|done..| |exact HH].
  { unfold wait_ok in *. simpl in *. rewrite Hw in HWt. destruct HWt as (H1 & [H2 _] & H3). split_and!; [done| |].
    + split; [done|]. intros td v [= <- <-] z h' [= <-] Hh'. assert (h' = h) as -> by congruence. eauto.
    + destruct H3 as [?|[Har [[Hr He]|Ho]]]; [by left|right; split; [done|]..]; [left|by right]. split; [done|].
      intros h' t' y Hh' Hy H0. specialize (He h' t' y Hh' Hy H0). simpl in *. lia. }
Qed.

(** Lowering its own flag: after a cancelled or finished wait. *)
Lemma rx_settle Δ m w V tr c t v b :
  Watch Δ m → Δ !! rx = Some (Ent w V tr c) →
  Watch (<[rx := Ent (rto Calm w) (write_view pk t V) tr c]> Δ) (add_msg pk t (Msg v b) m).
Proof using Type. intros HW Hi. by eapply rx_move_flag. Qed.

(** Waking up, with a token or without. *)
Lemma rx_wake_up Δ m w V tr c V' f :
  Watch Δ m → Δ !! rx = Some (Ent w V tr c) → vle (cur V) (cur V') →
  Watch (<[rx := Ent (rto Calm w) V' tr c]> Δ) (set_mtokens f m).
Proof using Type.
  intros HW Hi HV. destruct (Watch_rx _ _ _ HW Hi) as (_ & HH & HF).
  by eapply rx_move_on; [exact HW|exact Hi|exact HV|done..|exact HH].
Qed.

(** Publishing the head. *)
Lemma rx_head Δ m w V tr c t h x :
  Watch Δ m → Δ !! rx = Some (Ent w V tr c) → rduty w = Calm →
  hist m !! head sh = Some h → h !! t = None →
  Watch (<[rx := Ent (Rxw Calm (Z.max (rpub w) (mval x))) (write_view (head sh) t V) tr c]> Δ)
        (add_msg (head sh) t x m).
Proof using Type.
  intros HW Hi Hw Hh Ht. destruct (Watch_rx _ _ _ HW Hi) as (_ & HH & HF).
  assert (HV : vle (cur V) (cur (write_view (head sh) t V))) by apply vle_set.
  eapply rx_move_on; [exact HW|exact Hi|exact HV|by apply kept_add|done|..].
  - intros j. by apply kept_add.
  - by apply kept_add.
  - by apply kept_add.
  - intros q _ (h' & t' & y & Hh' & Hx). exists h', t', y. by rewrite hist_add_other.
  - done.
  - done.
  - intros h' Hh'. erewrite hist_add_same in Hh' by done. injection Hh' as <-. simpl.
    destruct (HH h Hh) as (Hle & t0 & y & Hy & Hmax). simpl in *. split.
    + intros t' z [[_ <-]|[_ Hz]]%lookup_insert_Some; [lia|]. specialize (Hle t' z Hz). lia.
    + destruct (Z.le_ge_cases (rpub w) (mval x)).
      * exists t, x. rewrite lookup_insert_eq. split; [done|lia].
      * exists t0, y. rewrite lookup_insert_ne by congruence. split; [done|lia].
Qed.

(** ** A sender's moves *)

Lemma tx_move Δ m i e e' m' :
  Watch Δ m → i ≠ rx → kept m m' (head sh) →
  (∀ e0, wait_ok Δ e0 m → wait_ok (<[i := e']> Δ) e0 m') →
  flag_ok (<[i := e']> Δ) m' → round_news (<[i := e']> Δ) m' → end_news (<[i := e']> Δ) m' →
  claims_ok (<[i := e']> Δ) m' → Δ !! i = Some e → Watch (<[i := e']> Δ) m'.
Proof using Type.
  intros [(e0 & He0 & HW & HH) _ _ _ _] Hne Hk Hw ? ? ? ? _. split; [|done..].
  exists e0. rewrite list_lookup_insert_ne by done. split_and!; [done|auto|by eapply head_at_kept].
Qed.

(** A sender whose stage concerns nobody. *)
Definition idle_tx (σ : duty) : Prop := σ = Calm ∨ ∃ q, σ = Holding q.

Lemma alarmed_idle Δ m i e e' m' :
  alarmed Δ m → Δ !! i = Some e → idle_tx (dt e) → mslots m' = mslots m → mtokens m' = mtokens m →
  alarmed (<[i := e']> Δ) m'.
Proof using Type.
  intros Ha Hi Hd Hs Ht. eapply alarmed_frame; [exact Ha|exact Hi|by rewrite Hs|by rewrite Ht|..];
    intros _ Hx; destruct Hd as [Hd|[q Hd]]; rewrite Hd in Hx; naive_solver.
Qed.

(** Something new the receiver may be waiting for: its author now owes it a
    look at the flag. *)
Lemma wait_news Δ m i e e' l t x h e0 :
  wait_ok Δ e0 m → Δ !! i = Some e → i ≠ rx → idle_tx (dt e) → dt e' = Owing →
  l ≠ pk → hist m !! l = Some h → h !! t = None →
  wait_ok (<[i := e']> Δ) e0 (add_msg l t x m).
Proof using Type.
  intros HW Hi Hne Hd Hd' Hl Hh Ht. unfold wait_ok in *.
  assert (Ha : alarmed Δ m → alarmed (<[i := e']> Δ) (add_msg l t x m)).
  { intros Ha. by eapply alarmed_idle. }
  assert (Har : ∀ p, armed p m → armed p (add_msg l t x m)).
  { intros p. apply armed_kept; [by apply kept_add|done]. }
  assert (Ho : ∀ p, owes p (<[i := e']> Δ)).
  { intros p. apply some_tx_self; [done|by eexists|by left]. }
  destruct (dt e0) as [| |p|p r d| | | | | |]; try done.
  - destruct HW as [?|[H1 H2]]; [by left; apply Ha|right]. split; [done|].
    eapply latest_sub; [by apply kept_add|done].
  - destruct HW as [H1 [?|?]]; (split; [done|]); [left; by apply Ha|right; by apply Har].
  - destruct HW as (H1 & [Hn1 Hn2] & H3). split_and!; [done| |].
    + split; intros; by eapply loaded_add; [..|eauto].
    + destruct H3 as [?|[? _]]; [left; by apply Ha|right]. split; [by apply Har|by right].
Qed.

Lemma sent_add q l t x m h : hist m !! l = Some h → h !! t = None → sent q m → sent q (add_msg l t x m).
Proof using Type.
  intros Hh Ht (h' & t' & y & Hh' & Hy & Hv). destruct (decide (l = rd (sl sh q))) as [->|Hne].
  - simplify_eq. exists (<[t := x]> h), t', y.
    erewrite hist_add_same by done. split_and!; [done| |done]. rewrite lookup_insert_ne; [done|congruence].
  - exists h', t', y. by rewrite hist_add_other.
Qed.

(** Winning a claim. *)
Lemma tx_claim Δ m i w V tr c t x V' h :
  Watch Δ m → i ≠ rx → Δ !! i = Some (Ent w V tr c) → rduty w = Calm → vle (cur V) (cur V') →
  hist m !! claim sh = Some h → h !! S t = None →
  Watch (<[i := Ent (rto (Holding t) w) V' tr c]> Δ) (add_msg (claim sh) (S t) x m).
Proof using Type.
  intros HW Hne Hi Hw HV Hh Ht.
  assert (Hk : ∀ l, l ≠ claim sh → kept m (add_msg (claim sh) (S t) x m) l) by (intros; by apply kept_add).
  eapply tx_move; [exact HW|done|by apply Hk|..|exact Hi].
  - intros e0 HW0. eapply wait_frame; try done; try (intros; by apply Hk).
    + intros Ha. eapply alarmed_idle; [exact Ha|exact Hi|by left|done..].
    + intros p _ _ Ho. right. eapply some_tx_upd; [exact Ho|exact Hi|done|]. simpl. rewrite Hw. naive_solver.
  - eapply flag_frame; [exact Hi|exact HV|apply HW|by apply Hk|done|]. simpl. congruence.
  - eapply round_frame; [exact Hi|exact HV|apply HW|intros; by apply Hk|done|]. simpl. congruence.
  - eapply end_frame; [exact Hi|exact HV|apply HW|by apply Hk|done|]. simpl. congruence.
  - intros q Hq. destruct (stored_add _ _ _ _ _ _ Hq) as [[_ [= ->]]|Hq'].
    + right. apply some_tx_self; [done|by eexists|done].
    + destruct (wa_claims _ _ HW q Hq') as [?|Ho]; [left; by eapply sent_add|right].
      eapply some_tx_upd; [exact Ho|exact Hi|done|]. simpl. congruence.
Qed.

(** Publishing the round of the claim. *)
Lemma tx_publish Δ m i w V tr c q t b h :
  Watch Δ m → i ≠ rx → Δ !! i = Some (Ent w V tr c) → rduty w = Holding q →
  hist m !! rd (sl sh q) = Some h → h !! t = None →
  Watch (<[i := Ent (rto Owing w) (write_view (rd (sl sh q)) t V) tr c]> Δ)
        (add_msg (rd (sl sh q)) t (Msg (round_of sh (Z.of_nat q)) b) m).
Proof using Type.
  intros HW Hne Hi Hw Hh Ht. set (l := rd (sl sh q)) in *. set (x := Msg _ b).
  assert (HV : vle (cur V) (cur (write_view l t V))) by apply vle_set.
  assert (Hk : ∀ l', l ≠ l' → kept m (add_msg l t x m) l') by (intros; by apply kept_add).
  eapply tx_move; [exact HW|done|by apply Hk|..|exact Hi].
  - intros e0 HW0. eapply wait_news; [exact HW0|exact Hi|done|right; by exists q|done..].
  - eapply flag_frame; [exact Hi|exact HV|apply HW|by apply Hk|done|]. simpl. congruence.
  - intros j t' Ht'. destruct (stored_add _ _ _ _ _ _ Ht') as [[-> ->]|Hs].
    + right. apply some_tx_self; [done|by eexists|]. split; [done|]. simpl. rewrite vw_set_same. lia.
    + destruct (wa_round _ _ HW j t' Hs) as [?|Ho]; [by left|right].
      eapply some_tx_upd; [exact Ho|exact Hi|done|]. simpl. rewrite Hw. naive_solver.
  - eapply end_frame; [exact Hi|exact HV|apply HW|by apply Hk|done|]. simpl. congruence.
  - intros q' Hq. apply stored_add_other in Hq; [|done].
    destruct (wa_claims _ _ HW q' Hq) as [?|Ho]; [left; by eapply sent_add|].
    destruct (decide (q' = q)) as [->|Hq'].
    + left. exists (<[t := x]> h), t, x. rewrite lookup_insert_eq. split_and!; [by apply hist_add_same|done..].
    + right. eapply some_tx_upd; [exact Ho|exact Hi|done|]. simpl. congruence.
Qed.

(** Counting oneself in or out, as the last or not. *)
Lemma tx_count Δ m i w V tr c t x V' h :
  Watch Δ m → i ≠ rx → Δ !! i = Some (Ent w V tr c) → rduty w = Calm → vle (cur V) (cur V') →
  hist m !! count = Some h → h !! t = None → (t ≤ vw (cur V') count)%nat →
  Watch (<[i := Ent (rto (if decide (mval x = 0) then Owing else Calm) w) V' tr c]> Δ) (add_msg count t x m).
Proof using Type.
  intros HW Hne Hi Hw HV Hh Ht Hle. set (e' := Ent (rto _ _) _ _ _).
  assert (Hk : ∀ l, l ≠ count → kept m (add_msg count t x m) l) by (intros; by apply kept_add).
  eapply tx_move; [exact HW|done|by apply Hk|..|exact Hi].
  - intros e0 HW0. destruct (decide (mval x = 0)) as [H0|H0].
    { eapply wait_news; [exact HW0|exact Hi|done|by left|done|done..]. }
    assert (Ha : alarmed Δ m → alarmed (<[i := e']> Δ) (add_msg count t x m)).
    { intros Ha. eapply alarmed_idle; [exact Ha|exact Hi|by left|done..]. }
    assert (Har : ∀ p, armed p m → armed p (add_msg count t x m)) by (intros p; apply armed_kept; [by apply kept_add|done]).
    assert (Ho : ∀ p, owes p Δ → owes p (<[i := e']> Δ)).
    { intros p Ho. eapply some_tx_upd; [exact Ho|exact Hi|done|]. simpl. rewrite Hw. naive_solver. }
    unfold wait_ok in *. destruct (dt e0) as [| |p|p r d| | | | | |]; try done.
    + destruct HW0 as [?|[H1 H2]]; [left; auto|right]. split; [done|]. eapply latest_sub; [by apply Hk|done].
    + destruct HW0 as [H1 [?|?]]; (split; [done|]); [left; auto|right; auto].
    + destruct HW0 as (H1 & [Hn1 Hn2] & H3). split_and!; [done| |].
      { split; intros; by eapply loaded_add; [..|eauto]. }
      destruct H3 as [?|[? [[Hr He]|?]]]; [left; auto|right; split; [auto|left]|right; auto]. split.
      * destruct r as [[[j tc] v]|]; simpl in *; [|intros j]; (eapply latest_sub; [by apply Hk|done]).
      * intros h' t' y Hh'. erewrite hist_add_same in Hh' by done. injection Hh' as <-.
        intros [[_ <-]|[_ Hy]]%lookup_insert_Some; [done|]. by apply (He h).
  - eapply flag_frame; [exact Hi|exact HV|apply HW|by apply Hk|done|]. simpl. congruence.
  - eapply round_frame; [exact Hi|exact HV|apply HW|intros; by apply Hk|done|]. simpl. congruence.
  - intros h' t' y Hh'. erewrite hist_add_same in Hh' by done. injection Hh' as <-.
    intros [[<- <-]|[_ Hy]]%lookup_insert_Some H0.
    + right. apply some_tx_self; [done|by eexists|]. simpl. by rewrite decide_True.
    + destruct (wa_end _ _ HW h t' y Hh Hy H0) as [?|Ho]; [by left|right].
      eapply some_tx_upd; [exact Ho|exact Hi|done|]. simpl. rewrite Hw. naive_solver.
  - eapply claims_frame; [exact Hi|exact HV|apply HW|by apply Hk| |simpl; congruence].
    intros q _. by eapply sent_add.
Qed.

(** The fence after the news: this sender now knows of every flag raised
    before a fence. *)
Lemma tx_fence Δ m i w V tr c :
  Watch Δ m → i ≠ rx → Δ !! i = Some (Ent w V tr c) → rduty w = Owing →
  let '(V', G) := fence_view SeqCst V (scview m) in
  Watch (<[i := Ent (rto Checking w) V' tr c]> Δ) (set_scview G m).
Proof using Type.
  intros HW Hne Hi Hw. unfold fence_view. set (G := vjoin _ (scview m)). set (V' := {| cur := G; acq := acq V; rel := G |}).
  assert (HV : vle (cur V) (cur V')) by (etrans; apply vle_join_l).
  assert (HG : vle (scview m) G) by apply vle_join_r.
  assert (HVG : cur V' = G) by done. clearbody V' G. subst G.
  assert (Hnews : ∀ (t : nat) l,
    some_tx (λ k, dt k = Owing ∧ (t ≤ vw (vi k) l)%nat) Δ → (t ≤ vw (cur V') l)%nat ∨
    some_tx (λ k, dt k = Owing ∧ (t ≤ vw (vi k) l)%nat) (<[i := Ent (rto Checking w) V' tr c]> Δ)).
  { intros t l (j & k & Hj & Hk & Hd & Ht). destruct (decide (i = j)) as [->|Hij].
    - left. rewrite Hi in Hk. injection Hk as <-. view_at HV l. simpl in *. lia.
    - right. exists j, k. by rewrite list_lookup_insert_ne. }
  eapply tx_move; [exact HW|done|done|..|exact Hi].
  - intros e0 HW0. eapply wait_frame; try done.
    + intros Ha. eapply alarmed_frame; [exact Ha|exact Hi|done|done|..]; simpl; rewrite ?Hw; naive_solver.
    + intros p Hp _ _. right. apply some_tx_self; [done|by eexists|]. right. split; [done|].
      view_at HG pk. simpl. lia.
  - eapply flag_frame; [exact Hi|exact HV|apply HW|done..|]. simpl. congruence.
  - intros j t Ht. view_at HG (rd j). destruct (wa_round _ _ HW j t Ht) as [?|Ho]; [left; simpl; lia|by apply Hnews].
  - intros h t x Hh Hx H0. view_at HG (senders sh).
    destruct (wa_end _ _ HW h t x Hh Hx H0) as [?|Ho]; [left; simpl; lia|by apply Hnews].
  - eapply claims_frame; [exact Hi|exact HV|apply HW|done|by intros|]. simpl. congruence.
Qed.

(** Reading the flag: raised, it will be answered; lowered, the receiver is
    not blocked on what this sender did. *)
Lemma tx_check Δ m i w V tr c V' :
  Watch Δ m → i ≠ rx → Δ !! i = Some (Ent w V tr c) → rduty w = Checking → vle (cur V) (cur V') →
  Watch (<[i := Ent (rto Claiming w) V' tr c]> Δ) m.
Proof using Type.
  intros HW Hne Hi Hw HV.
  eapply Watch_frame; [exact HW|exact Hi|exact HV|apply rx_milder_refl|done|..]; simpl; rewrite ?Hw.
  - intros _. right. naive_solver.
  - intros Ha. eapply alarmed_frame; [exact Ha|exact Hi|done|done|..]; simpl; rewrite ?Hw; naive_solver.
  - intros p _ (Hs & _) _. left. right; right. split; [done|].
    apply some_tx_self; [done|by eexists|by left].
Qed.

Lemma tx_pass Δ m i w V tr c t h x V' :
  Watch Δ m → i ≠ rx → Δ !! i = Some (Ent w V tr c) → rduty w = Checking → vle (cur V) (cur V') →
  hist m !! pk = Some h → h !! t = Some x → (vw (cur V) pk ≤ t)%nat → mval x = 0 →
  Watch (<[i := Ent (rto Calm w) V' tr c]> Δ) m.
Proof using Type.
  intros HW Hne Hi Hw HV Hh Ht Hle Hx.
  eapply Watch_frame; [exact HW|exact Hi|exact HV|apply rx_milder_refl|done|..]; simpl; rewrite ?Hw.
  - intros _. right. naive_solver.
  - intros Ha. eapply alarmed_frame; [exact Ha|exact Hi|done|done|..]; simpl; rewrite ?Hw; naive_solver.
  - intros p _ (_ & Hc & Hv) Ho. right. eapply some_tx_upd; [exact Ho|exact Hi|done|].
    intros _ [Hd|[_ Hp]]; simpl in *; [congruence|].
    assert (t ≤ p)%nat by (apply Hc; exists h; split; [done|by eexists]).
    assert (t = p) as -> by lia. specialize (Hv h x Hh Ht). lia.
Qed.

(** A sender that has the receiver's wakeup in its hands: every wait is
    alarmed if the slot says so. *)
Lemma wait_alarmed Δ Δ' m m' e0 :
  wait_ok Δ e0 m → vle (scview m) (scview m') → (∀ j, kept m m' (rd j)) → kept m m' count →
  (alarmed Δ m ∨ slot_tid m = Some rx → alarmed Δ' m') →
  (dt e0 = Enlisted → alarmed Δ' m') → wait_ok Δ' e0 m'.
Proof using Type.
  intros HW Hsc Hr Hc Ha He. unfold wait_ok in *. destruct (dt e0) as [| |p|p r d| | | | | |]; try done.
  - left. by apply He.
  - destruct HW as [H1 H2]. split; [done|]. left. apply Ha. destruct H2 as [?|(? & _)]; auto.
  - destruct HW as (H1 & H2 & H3). specialize (Hsc pk). split_and!; [lia|by eapply noted_sub|]. left. apply Ha.
    destruct H3 as [?|[(? & _) _]]; auto.
Qed.

Lemma enlisted_alarm Δ e0 m (P : Prop) :
  wait_ok Δ e0 m → dt e0 = Enlisted → (alarmed Δ m ∨ slot_tid m = Some rx → P) → P.
Proof using Type. intros HW Hd HP. unfold wait_ok in HW. rewrite Hd in HW. apply HP. naive_solver. Qed.

(** Lowering the receiver's flag. *)
Lemma tx_lower Δ m i w V tr c t x :
  Watch Δ m → i ≠ rx → Δ !! i = Some (Ent w V tr c) → rduty w = Claiming →
  Watch (<[i := Ent (rto Lowered w) (write_view pk t V) tr c]> Δ) (add_msg pk t x m).
Proof using Type.
  intros HW Hne Hi Hw. set (e' := Ent (rto Lowered w) _ _ _).
  assert (HV : vle (cur V) (cur (write_view pk t V))) by apply vle_set.
  assert (Hk : ∀ l, l ≠ pk → kept m (add_msg pk t x m) l) by (intros; by apply kept_add).
  assert (Ha : alarmed Δ m ∨ slot_tid m = Some rx → alarmed (<[i := e']> Δ) (add_msg pk t x m)).
  { intros [Ha|Hs].
    - eapply alarmed_frame; [exact Ha|exact Hi|done|done|..]; simpl; rewrite ?Hw; naive_solver.
    - right; right. split; [done|]. apply some_tx_self; [done|by eexists|by right]. }
  eapply tx_move; [exact HW|done|by apply Hk|..|exact Hi].
  - intros e0 HW0. eapply wait_alarmed; [exact HW0|done|intros; by apply Hk|by apply Hk|exact Ha|].
    intros Hd. eapply enlisted_alarm; [exact HW0|exact Hd|exact Ha].
  - intros e2 t' He2 Ht'. rewrite list_lookup_insert_ne in He2 by done.
    destruct (stored_add _ _ _ _ _ _ Ht') as [[_ ->]|Hs].
    + right; right. apply some_tx_self; [done|by eexists|]. split; [done|]. simpl. rewrite vw_set_same. lia.
    + destruct (wa_flag _ _ HW e2 t' He2 Hs) as [?|[?|Ho]]; [by left|by right; left|right; right].
      eapply some_tx_upd; [exact Ho|exact Hi|done|]. simpl. rewrite Hw. naive_solver.
  - eapply round_frame; [exact Hi|exact HV|apply HW|intros; by apply Hk|done|]. simpl. congruence.
  - eapply end_frame; [exact Hi|exact HV|apply HW|by apply Hk|done|]. simpl. congruence.
  - eapply claims_frame; [exact Hi|exact HV|apply HW|by apply Hk| |simpl; congruence].
    intros q _ (h' & t' & y & Hh' & Hy). exists h', t', y. by rewrite hist_add_other.
Qed.

(** Taking the waiter out of its slot. *)
Definition called (o : option tid) : duty := match o with Some j => Calling j | None => Calm end.

Lemma tx_take Δ m i w V tr c :
  Watch Δ m → i ≠ rx → Δ !! i = Some (Ent w V tr c) → rduty w = Lowered →
  let V' := learn (slot_view m) V in
  Watch (<[i := Ent (rto (called (slot_tid m)) w) V' tr c]> Δ) (set_mslots <[ps := (None, cur V')]> m).
Proof using Type.
  intros HW Hne Hi Hw V'. set (e' := Ent (rto _ w) _ _ _).
  assert (HV : vle (cur V) (cur V')) by apply vle_join_l.
  assert (Hsl : vle (slot_view m) (cur V')) by apply vle_join_r.
  assert (Ha : alarmed Δ m ∨ slot_tid m = Some rx → alarmed (<[i := e']> Δ) (set_mslots <[ps := (None, cur V')]> m)).
  { intros Ha. destruct (decide (slot_tid m = Some rx)) as [Hs|Hs].
    { right; left. apply some_tx_self; [done|by eexists|]. unfold e'. simpl. by rewrite Hs. }
    destruct Ha as [[?|[Ho|[? _]]]|?]; [by left| |done..]. right; left.
    eapply some_tx_upd; [exact Ho|exact Hi|done|]. simpl. congruence. }
  clearbody V'. eapply tx_move; [exact HW|done|done|..|exact Hi].
  - intros e0 HW0. eapply wait_alarmed; [exact HW0|done|done|done|exact Ha|].
    intros Hd. eapply enlisted_alarm; [exact HW0|exact Hd|exact Ha].
  - intros e2 t He2 Ht. rewrite list_lookup_insert_ne in He2 by done.
    unfold slot_view. simpl. rewrite lookup_insert_eq. simpl. view_at HV pk. view_at Hsl pk.
    destruct (wa_flag _ _ HW e2 t He2 Ht) as [?|[?|(j & k & Hj & Hk & Hd & Hle)]]; [by left|right; left; lia|right].
    destruct (decide (i = j)) as [->|Hij].
    + left. rewrite Hi in Hk. injection Hk as <-. simpl in *. lia.
    + right. exists j, k. by rewrite list_lookup_insert_ne.
  - eapply round_frame; [exact Hi|exact HV|apply HW|done|done|]. simpl. congruence.
  - eapply end_frame; [exact Hi|exact HV|apply HW|done|done|]. simpl. congruence.
  - eapply claims_frame; [exact Hi|exact HV|apply HW|done|by intros|simpl; congruence].
Qed.

(** Unparking it. *)
Lemma tx_call Δ m i w V tr c j X :
  Watch Δ m → i ≠ rx → Δ !! i = Some (Ent w V tr c) → rduty w = Calling j →
  Watch (<[i := Ent (rto Calm w) V tr c]> Δ) (set_mtokens (λ Y, <[j := X Y]> Y) m).
Proof using Type.
  intros HW Hne Hi Hw.
  eapply Watch_frame; [exact HW|exact Hi|done|apply milder_quiet, quiet_token|done|..]; simpl; rewrite ?Hw.
  - intros _. right. naive_solver.
  - intros Ha. eapply alarmed_frame; [exact Ha|exact Hi|done|apply (quiet_token sh)|..]; simpl; rewrite ?Hw; [|naive_solver].
    intros _ [= ->]. right. rewrite lookup_insert_eq. by eexists.
  - intros p _ _ Ho. right. eapply some_tx_upd; [exact Ho|exact Hi|done|]. simpl. rewrite Hw. naive_solver.
Qed.
End watch.
