(* ===== verification/MpscRxWake.v ===== *)
(** The operations of the MPSC ring keep the receiver's side of the park
    protocol: the promises of [MpscWatch.Protocol] for the stages of
    [MpscRxWait]. *)
From S2P Require Import Prelude Usize Atomic Errors Wait Notify Ring Queue Mpsc Seq Memory Machine Logic Track.
From S2P Require Import MpscInv MpscProt MpscCalls MpscConc MpscOps MpscClients MpscWatch MpscRxWait.
From S2P Require MpscSeq.
Local Open Scope Z_scope.

Section rules.
Context `{tgt : Target} {T : Type} (sh : Shared) (limit : Z).
Hypothesis Hok : MpscSeq.shared_ok sh.
Hypothesis Hpark : strategy sh = Park.
Hypothesis Hlim : 2 * (limit + 2) ≤ MAX_REFCOUNT.
Abbreviation entry := (ent rxw (call T) (event T)).
Implicit Types (Δ : list entry) (m : mem T) (w : rxw).

(** The receiver blocks only in [recv], having published no head beyond what
    it received, after it saw the slot at its head unpublished and some sender
    counted; senders block whenever they like. *)
Definition rx_dozing (i : tid) (tr : list (call T * event T)) (c : call T) w : Prop :=
  if decide (i = rx) then
    let k := length (received tr) in
    drops c = false ∧ rpub w = Z.of_nat k ∧ ∃ p tc v td z,
      rduty w = Alert p (Some (sl sh k, tc, v)) (Some (td, z)) ∧ v ≠ round_of sh (Z.of_nat k) ∧ z ≠ 0
  else w = Rxw Calm 0.

#[export] Instance rx_stages : Stages T rxw := {
  watch := Watch sh;
  dozing := rx_dozing;
  calm := Rxw Calm;
  held q := Rxw (Holding q) 0;
  owing := Rxw Owing 0;
  told := Rxw Calm;
  shut := Rxw Calm;
}.

Abbreviation heeds := (heeds sh limit).

(** ** Actions the protocol does not depend on *)

Lemma rx_mild {A} i tr c (p : prog T A) w Q :
  (∀ a, p ≠ Ret a) → (parking p = true → rx_dozing i tr c w) →
  (∀ m V t b p' V' m', Memory.step i p V m t b = Next (p', V', m') →
     vle (cur V) (cur V') ∧ milder sh m m' ∧ heeds i tr c p' w Q) →
  heeds i tr c p w Q.
Proof using Type.
  intros Hnr Hpk Hstep. apply follows_step; [done|done|].
  intros Δ m V _ HW Hi t b p' V' m' Heq. destruct (Hstep _ _ _ _ _ _ _ Heq) as (HV & Hm & Hf).
  exists w. split; [|done]. by eapply rx_watch_milder.
Qed.

Lemma rx_passive {A} i tr c (p : prog T A) w (Q : A → rxw → Prop) :
  passive p → (∀ a, Q a w) → heeds i tr c p w Q.
Proof using Type.
  intros (Hnr & Hpk & Hp) HQ. apply rx_mild; [done|by rewrite Hpk|]. intros m V t b p' V' m' Heq.
  destruct (Hp _ _ _ _ _ _ _ _ Heq) as (HV & Hu & a & ->).
  split_and!; [done|by apply milder_quiet, quiet_undisturbed|by apply follows_ret].
Qed.

(** Stores elsewhere. *)
Lemma rx_store i tr c l z o w (Q : unit → rxw → Prop) :
  ¬ watched sh l → Q tt w → heeds i tr c (store l z o) w Q.
Proof using Type.
  intros Hl HQ. apply rx_mild; [done..|]. intros m V t b p' V' m'. unfold store. simpl.
  destruct (hist m !! l) as [h|]; [|done]. destruct (h !! t); [done|]. case_match; [|done].
  intros [= <- <- <-]. split_and!; [apply vle_set|by apply rx_milder_store|by apply follows_ret].
Qed.

Lemma rx_unpark i tr c j w (Q : unit → rxw → Prop) : Q tt w → heeds i tr c (unpark j) w Q.
Proof using Type.
  intros HQ. apply rx_mild; [done..|]. intros m V t b p' V' m'. simpl. intros [= <- <- <-].
  split_and!; [done|apply milder_quiet, quiet_token|by apply follows_ret].
Qed.

Lemma waiting_unwatched : ¬ watched sh (Loc (sh_ring sh) Waiting).
Proof using Type. intros [|[[j Hj]|[|[|]]]]; done. Qed.
Lemma gone_unwatched : ¬ watched sh (rx_dropped sh).
Proof using Type. intros [|[[j Hj]|[|[|]]]]; done. Qed.
Hint Resolve waiting_unwatched gone_unwatched : core.

(** Waking the senders is none of this protocol's business, nor is queueing up. *)
Lemma rx_unpark_all i tr c ts w (Q : unit → rxw → Prop) : Q tt w → heeds i tr c (unpark_all ts) w Q.
Proof using Type.
  intros HQ. induction ts as [|t ts IH]; [by apply follows_ret|]. cbn [unpark_all]. by apply follows_bind, rx_unpark.
Qed.

Lemma rx_swap i tr c z o w (Q : bool → rxw → Prop) :
  (∀ b, Q b w) → heeds i tr c (swap_bool (Loc (sh_ring sh) Waiting) z o) w Q.
Proof using Type.
  intros HQ. apply rx_mild; [done..|]. intros m V t b p' V' m'. unfold swap_bool. simpl.
  destruct (hist m !! _) as [h|]; [|done]. destruct (h !! t) as [x|]; [|done].
  destruct (h !! S t); [done|]. case_match; [|done]. intros [= <- <- <-]. split_and!.
  - etrans; [apply read_view_grows|apply vle_set].
  - by apply rx_milder_store.
  - by apply follows_ret.
Qed.

Lemma rx_drain_queue i tr c l w (Q : list tid → rxw → Prop) :
  (∀ ts, Q ts w) → heeds i tr c (DrainWaiters l Ret) w Q.
Proof using Type.
  intros HQ. apply rx_mild; [done..|]. intros m V t b p' V' m'. simpl. intros [= <- <- <-]%in_block_Next.
  split_and!; [apply vle_join_l|apply milder_queue|by apply follows_ret].
Qed.

Lemma rx_push i tr c l w (Q : unit → rxw → Prop) : Q tt w → heeds i tr c (PushWaiter l (Ret tt)) w Q.
Proof using Type.
  intros HQ. apply rx_mild; [done..|]. intros m V t b p' V' m'. simpl. intros [= <- <- <-]%in_block_Next.
  split_and!; [apply vle_join_l|apply milder_queue|by apply follows_ret].
Qed.

Lemma rx_wake_all i tr c w (Q : unit → rxw → Prop) : Q tt w → heeds i tr c (wake_all (prod_waiters sh)) w Q.
Proof using Type.
  intros HQ. apply follows_bind, rx_swap. intros [|]; [|by apply follows_ret].
  apply follows_bind, rx_drain_queue. intros ts. by apply rx_unpark_all.
Qed.

(** A sender's sleep. *)
Lemma rx_tx_park i tr c (Q : unit → rxw → Prop) :
  i ≠ rx → Q tt (Rxw Calm 0) → heeds i tr c park (Rxw Calm 0) Q.
Proof using Type.
  intros Hi HQ. apply rx_mild; [done| |].
  { intros _. unfold rx_dozing. by rewrite decide_False. }
  intros m V t b p' V' m'. simpl. destruct (mtokens m !! i) as [X|].
  - intros [= <- <- <-]. split_and!; [apply vle_join_l|by apply rx_milder_token|by apply follows_ret].
  - destruct b; [|done]. intros [= <- <- <-]. split_and!; [done|apply rx_milder_refl|by apply follows_ret].
Qed.

(** A sender's wait. *)
Lemma rx_send_wait i tr c self ladder :
  i ≠ rx → s_shared self = sh → heeds i tr c (send_wait self ladder) (Rxw Calm 0) (λ _ w, w = Rxw Calm 0).
Proof using Hpark.
  intros Hi Hsh. unfold send_wait. rewrite Hsh, Hpark. apply follows_bind.
  apply follows_bind, rx_push, rx_store; [done|]. apply follows_bind, rx_passive; [auto with rings|]. intros _.
  apply follows_bind, rx_passive; [auto with rings|]. intros k.
  apply follows_bind, rx_passive; [auto with rings|]. intros h.
  apply follows_bind. apply (follows_mono _ _ _ _ _ _ (λ _ w, w = Rxw Calm 0)).
  { case_match; [by apply follows_ret|]. apply rx_passive; [auto with rings|done]. }
  intros retry w ->. apply follows_bind. destruct retry; [by apply follows_ret, follows_ret|].
  apply rx_tx_park; [done|]. by apply follows_ret.
Qed.

(** ** Senders *)

(** One action of a sender. *)
Lemma tx_step {A} i tr c (p : prog T A) w Q :
  (∀ a, p ≠ Ret a) → parking p = false →
  (∀ Δ m V, known sh limit m → Watch sh Δ m → Δ !! i = Some (Ent w V tr (Some c)) → ∀ t b p' V' m',
     Memory.step i p V m t b = Next (p', V', m') →
     ∃ w', Watch sh (<[i := Ent w' V' tr (Some c)]> Δ) m' ∧ heeds i tr c p' w' Q) →
  heeds i tr c p w Q.
Proof using Type. intros Hnr Hpk Hstep. apply follows_step; [done|by rewrite Hpk|]. exact Hstep. Qed.

Abbreviation vow σ := (Rxw σ 0).

Lemma tx_follow_claim i tr c seq next (Q : Z + Z → rxw → Prop) :
  i ≠ rx → usize_add seq 1 = Some next →
  (∀ q, seq = Z.of_nat q → is_usize seq → Q (inl seq) (vow (Holding q))) → (∀ z, Q (inr z) (vow Calm)) →
  heeds i tr c (compare_exchange_weak (claim sh) seq next Relaxed Relaxed) (vow Calm) Q.
Proof using Type.
  intros Hi Hnext HQ HR. apply tx_step; [done..|]. intros Δ m V HK HW HD t b p' V' m'.
  unfold compare_exchange_weak. simpl.
  destruct (hist m !! claim sh) as [h|] eqn:Hh; [|done]. destruct (h !! t) as [x|] eqn:Hx; [|done].
  case_match; [done|]. destruct (Z.eqb_spec (mval x) seq) as [Heq|Hne]; [destruct b|]; cbn [negb andb].
  2: { destruct (h !! S t) eqn:Ht; [done|]. intros [= <- <- <-].
    destruct (known_claim _ _ _ _ _ _ HK Hh Hx) as [Hv Hu]. eexists. split.
    - eapply (tx_claim sh Δ m i (vow Calm)); [exact HW|done|exact HD|done| |exact Hh|exact Ht].
      etrans; [apply read_view_grows|apply vle_set].
    - apply follows_ret. rewrite Heq. rewrite Heq in Hv. apply HQ; [done|by rewrite Hv]. }
  all: intros [= <- <- <-]; exists (vow Calm); split; [|apply follows_ret, HR].
  all: eapply rx_watch_milder; [exact HW|exact HD|apply read_view_grows|apply rx_milder_refl].
Qed.

Lemma tx_follow_publish i tr c q (Q : unit → rxw → Prop) :
  i ≠ rx → Q tt (vow Owing) →
  heeds i tr c (store (slot_round sh (sl sh q)) (round_of sh (Z.of_nat q)) Release) (vow (Holding q)) Q.
Proof using Type.
  intros Hi HQ. apply tx_step; [done..|]. intros Δ m V HK HW HD t b p' V' m'. unfold store. simpl.
  destruct (hist m !! _) as [h|] eqn:Hh; [|done]. destruct (h !! t) eqn:Ht; [done|].
  case_match; [|done]. intros [= <- <- <-].
  eexists. split; [by eapply (tx_publish sh Δ m i (vow (Holding q)))|by apply follows_ret].
Qed.

Lemma tx_follow_count i tr c f o (Q : Z → rxw → Prop) :
  i ≠ rx →
  (∀ n, 0 ≤ n ≤ 2 * (limit + 2) ∧ 2 * (limit + 2) < usize_max → Q n (vow (if decide (f n = 0) then Owing else Calm))) →
  heeds i tr c (Rmw (senders sh) f o Ret) (vow Calm) Q.
Proof using Hok Hlim.
  intros Hi HQ. apply tx_step; [done..|]. intros Δ m V HK HW HD t b p' V' m'. simpl.
  destruct (hist m !! _) as [h|] eqn:Hh; [|done]. destruct (h !! t) as [x|] eqn:Hx; [|done].
  destruct (h !! S t) eqn:Ht; [done|]. case_match; [|done]. intros [= <- <- <-].
  eexists. split; [eapply (tx_count sh Δ m i (vow Calm)); [exact HW|done|exact HD|done| |exact Hh|exact Ht|]|].
  - etrans; [apply read_view_grows|apply vle_set].
  - simpl. rewrite vw_set_same. lia.
  - apply follows_ret, HQ. by eapply (known_count sh limit Hok Hlim).
Qed.

Lemma tx_leave i tr c (Q : Z → rxw → Prop) :
  i ≠ rx → (∀ n, Q n (if n =? 1 then vow Owing else vow Calm)) →
  heeds i tr c (fetch_sub (senders sh) 1 AcqRel) (vow Calm) Q.
Proof using Hok Hlim.
  intros Hi HQ. apply tx_follow_count; [done|]. intros n Hn. specialize (HQ n).
  assert (wrap (n - 1) = 0 ↔ n = 1) as Hw.
  { split; [|by intros ->]. intros H0. unfold wrap in H0. apply Z.mod_divide in H0 as [k Hk]; [|pose proof usize_modulus_pos; lia].
    unfold usize_max in *. assert (k = 0) by nia. lia. }
  destruct (Z.eqb_spec n 1); case_decide; tauto || by rewrite ?decide_True, ?decide_False.
Qed.

Lemma tx_join i tr c (Q : Z → rxw → Prop) :
  i ≠ rx → (∀ n, Q n (vow Calm)) → heeds i tr c (fetch_add (senders sh) 1 Relaxed) (vow Calm) Q.
Proof using Hok Hlim.
  intros Hi HQ. apply tx_follow_count; [done|]. intros n Hn. rewrite decide_False; [done|].
  rewrite wrap_small; [lia|]. unfold is_usize, usize_max in *. lia.
Qed.

(** Waking the receiver. *)
Lemma tx_follow_fence i tr c (Q : unit → rxw → Prop) :
  i ≠ rx → Q tt (vow Checking) → heeds i tr c (fence SeqCst) (vow Owing) Q.
Proof using Type.
  intros Hi HQ. apply tx_step; [done..|]. intros Δ m V _ HW HD t b p' V' m'.
  pose proof (tx_fence sh Δ m i (vow Owing) V tr (Some c) HW Hi HD eq_refl) as HF. simpl in *.
  intros [= <- <- <-]. eexists. split; [exact HF|]. by apply follows_ret.
Qed.

Lemma tx_follow_check i tr c (Q : bool → rxw → Prop) :
  i ≠ rx → Q true (vow Claiming) → Q false (vow Calm) →
  heeds i tr c (load_bool (pk sh) Relaxed) (vow Checking) Q.
Proof using Type.
  intros Hi HT HF. apply tx_step; [done..|]. intros Δ m V _ HW HD t b p' V' m'. unfold load_bool. simpl.
  destruct (hist m !! _) as [h|] eqn:Hh; [|done]. destruct (h !! t) as [x|] eqn:Hx; [|done].
  destruct (Nat.leb_spec (vw (cur V) (pk sh)) t); [|done]. intros [= <- <- <-].
  destruct (read_view_grows (pk sh) t Relaxed x V) as [HV _].
  destruct (Z.eqb_spec (mval x) 0) as [H0|H0]; cbn [negb].
  - eexists. split; [by eapply (tx_pass sh Δ m i (vow Checking))|by apply follows_ret].
  - eexists. split; [by eapply (tx_check sh Δ m i (vow Checking))|by apply follows_ret].
Qed.

Lemma tx_follow_lower i tr c (Q : unit → rxw → Prop) :
  i ≠ rx → Q tt (vow Lowered) → heeds i tr c (store_bool (pk sh) false Relaxed) (vow Claiming) Q.
Proof using Type.
  intros Hi HQ. apply tx_step; [done..|]. intros Δ m V _ HW HD t b p' V' m'. unfold store_bool, store. simpl.
  destruct (hist m !! _) as [h|] eqn:Hh; [|done]. destruct (h !! t) eqn:Ht; [done|].
  case_match; [|done]. intros [= <- <- <-].
  eexists. split; [by eapply (tx_lower sh Δ m i (vow Claiming))|by apply follows_ret].
Qed.

Lemma tx_follow_take i tr c (Q : option tid → rxw → Prop) :
  i ≠ rx → (∀ o, Q o (vow (called o))) → heeds i tr c (TakeSlot (ps sh) Ret) (vow Lowered) Q.
Proof using Type.
  intros Hi HQ. apply tx_step; [done..|]. intros Δ m V _ HW HD t b p' V' m'. simpl. intros [= <- <- <-]%in_block_Next.
  eexists. split; [by eapply (tx_take sh Δ m i (vow Lowered))|]. apply follows_ret, HQ.
Qed.

Lemma tx_follow_call i tr c j (Q : unit → rxw → Prop) :
  i ≠ rx → Q tt (vow Calm) → heeds i tr c (unpark j) (vow (Calling j)) Q.
Proof using Type.
  intros Hi HQ. apply tx_step; [done..|]. intros Δ m V _ HW HD t b p' V' m'. simpl. intros [= <- <- <-].
  eexists. split; [by eapply (tx_call sh Δ m i (vow (Calling j)))|]. by apply follows_ret.
Qed.

Lemma tx_wake i tr c (Q : unit → rxw → Prop) :
  i ≠ rx → Q tt (vow Calm) → heeds i tr c (_ ← fence SeqCst; wake (consumer_parker sh)) (vow Owing) Q.
Proof using Type.
  intros Hi HQ. apply follows_bind, tx_follow_fence; [done|].
  apply follows_bind, tx_follow_check; [done| |by apply follows_ret].
  apply follows_bind, tx_follow_lower; [done|]. apply follows_bind, tx_follow_take; [done|].
  intros [j|]; [by apply tx_follow_call|by apply follows_ret].
Qed.

(** ** The receiver *)

Section receiver.
Context (tr : list (call T * event T)) (c : call T).
Abbreviation heeds := (MpscWatch.heeds sh limit rx tr c).

(** One action of the receiver, that does not block. *)
Lemma rx_step {A} (p : prog T A) w Q :
  (∀ a, p ≠ Ret a) → parking p = false →
  (∀ Δ m V, Watch sh Δ m → Δ !! rx = Some (Ent w V tr (Some c)) → ∀ t b p' V' m',
     Memory.step rx p V m t b = Next (p', V', m') →
     ∃ w', Watch sh (<[rx := Ent w' V' tr (Some c)]> Δ) m' ∧ heeds p' w' Q) →
  heeds p w Q.
Proof using Type.
  intros Hnr Hpk Hstep. apply follows_step; [done|by rewrite Hpk|]. intros Δ m V _ HW HD. by apply Hstep.
Qed.

Lemma rx_follow_head n z (Q : unit → rxw → Prop) :
  (∀ n', Q tt (Rxw Calm n')) → heeds (store (head sh) z Release) (Rxw Calm n) Q.
Proof using Type.
  intros HQ. apply rx_step; [done..|]. intros Δ m V HW HD t b p' V' m'. unfold store. simpl.
  destruct (hist m !! _) as [h|] eqn:Hh; [|done]. destruct (h !! t) eqn:Ht; [done|].
  case_match; [|done]. intros [= <- <- <-].
  eexists. split; [by eapply (rx_head sh Δ m (Rxw Calm n))|]. apply follows_ret, HQ.
Qed.

Lemma rx_follow_enlist σ n (Q : unit → rxw → Prop) :
  Q tt (Rxw Enlisted n) → heeds (SetSlot (ps sh) (Ret tt)) (Rxw σ n) Q.
Proof using Type.
  intros HQ. apply rx_step; [done..|]. intros Δ m V HW HD t b p' V' m'. simpl. intros [= <- <- <-]%in_block_Next.
  eexists. split; [by eapply (rx_enlist sh Δ m (Rxw σ n))|]. by apply follows_ret.
Qed.

Lemma rx_follow_raise n (Q : unit → rxw → Prop) :
  (∀ p, Q tt (Rxw (Flagged p) n)) → heeds (store_bool (pk sh) true Relaxed) (Rxw Enlisted n) Q.
Proof using Type.
  intros HQ. apply rx_step; [done..|]. intros Δ m V HW HD t b p' V' m'. unfold store_bool, store. simpl.
  destruct (hist m !! _) as [h|] eqn:Hh; [|done]. destruct (h !! t) eqn:Ht; [done|].
  destruct (Nat.ltb_spec (vw (cur V) (pk sh)) t); [|done]. intros [= <- <- <-].
  eexists. split; [by eapply (rx_raise sh Δ m (Rxw Enlisted n))|]. apply follows_ret, HQ.
Qed.

Lemma rx_follow_fence p n (Q : unit → rxw → Prop) :
  Q tt (Rxw (Alert p None None) n) → heeds (fence SeqCst) (Rxw (Flagged p) n) Q.
Proof using Type.
  intros HQ. apply rx_step; [done..|]. intros Δ m V HW HD t b p' V' m'.
  pose proof (rx_fence sh Δ m (Rxw (Flagged p) n) V tr (Some c) p HW HD eq_refl) as HF. simpl in *.
  intros [= <- <- <-]. eexists. split; [exact HF|]. by apply follows_ret.
Qed.

Lemma rx_follow_round p j n (Q : Z → rxw → Prop) :
  (∀ t v, Q v (Rxw (Alert p (Some (j, t, v)) None) n)) →
  heeds (load (slot_round sh j) Acquire) (Rxw (Alert p None None) n) Q.
Proof using Type.
  intros HQ. apply rx_step; [done..|]. intros Δ m V HW HD t b p' V' m'. unfold load. simpl.
  destruct (hist m !! _) as [h|] eqn:Hh; [|done]. destruct (h !! t) as [x|] eqn:Hx; [|done].
  destruct (Nat.leb_spec (vw (cur V) (slot_round sh j)) t); [|done]. intros [= <- <- <-].
  eexists. split; [by eapply (rx_look_round sh Δ m (Rxw (Alert p None None) n))|]. apply follows_ret, HQ.
Qed.

Lemma rx_follow_end p r n (Q : Z → rxw → Prop) :
  (∀ t v, Q v (Rxw (Alert p (Some r) (Some (t, v))) n)) →
  heeds (load (senders sh) Acquire) (Rxw (Alert p (Some r) None) n) Q.
Proof using Type.
  intros HQ. apply rx_step; [done..|]. intros Δ m V HW HD t b p' V' m'. unfold load. simpl.
  destruct (hist m !! _) as [h|] eqn:Hh; [|done]. destruct (h !! t) as [x|] eqn:Hx; [|done].
  destruct (Nat.leb_spec (vw (cur V) (senders sh)) t); [|done]. intros [= <- <- <-].
  eexists. split; [by eapply (rx_look_end sh Δ m (Rxw (Alert p (Some r) None) n))|]. apply follows_ret, HQ.
Qed.

Lemma rx_follow_settle σ n (Q : unit → rxw → Prop) :
  Q tt (Rxw Calm n) → heeds (store_bool (pk sh) false Relaxed) (Rxw σ n) Q.
Proof using Type.
  intros HQ. apply rx_step; [done..|]. intros Δ m V HW HD t b p' V' m'. unfold store_bool, store. simpl.
  destruct (hist m !! _) as [h|] eqn:Hh; [|done]. destruct (h !! t) eqn:Ht; [done|].
  case_match; [|done]. intros [= <- <- <-].
  eexists. split; [by eapply (rx_settle sh Δ m (Rxw σ n))|]. by apply follows_ret.
Qed.

Lemma rx_follow_park w (Q : unit → rxw → Prop) :
  rx_dozing rx tr c w → Q tt (Rxw Calm (rpub w)) → heeds park w Q.
Proof using Type.
  intros Hd HQ. apply follows_step; [done|done|].
  intros Δ m V _ HW HD t b p' V' m'. simpl. destruct (mtokens m !! rx) as [X|].
  - intros [= <- <- <-]. exists (rto Calm w). split; [|by apply follows_ret].
    eapply rx_wake_up; [exact HW|exact HD|apply vle_join_l].
  - destruct b; [|done]. intros [= <- <- <-]. exists (rto Calm w). split; [|by apply follows_ret].
    assert (m = set_mtokens (λ X, X) m) as Hm by by destruct m. rewrite Hm.
    by eapply rx_wake_up.
Qed.

(** The slot of the head: masking needs no bound on the head. *)
Lemma index_head q : index (T := T) (slots_len sh) (Z.land (Z.of_nat q) (mask sh)) = mret (sl sh q).
Proof using Hok.
  pose proof (MpscSeq.sok_ring _ Hok) as Hr. pose proof (cap_pos Hr) as Hc.
  destruct Hr as [(k & Hk & Hcap) Hm Hl]. unfold index, sl, slot_of.
  rewrite Hm, Hl, Hcap, land_mask by lia. rewrite Hcap in Hc. pose proof (Z.mod_pos_bound (Z.of_nat q) _ Hc).
  replace ((0 <=? Z.of_nat q mod 2 ^ k) && (Z.of_nat q mod 2 ^ k <? 2 ^ k)) with true by lia. done.
Qed.

Lemma rx_spins k self n (Q : bool → rxw → Prop) :
  (∀ b, Q b (Rxw Calm n)) → heeds (park_spins k self) (Rxw Calm n) Q.
Proof using Type.
  intros HQ. induction k as [|k IH]; [by apply follows_ret|]. cbn [park_spins].
  apply follows_bind, follows_bind, follows_index. intros j.
  apply follows_bind, rx_passive; [auto with rings|]. intros r. apply follows_ret.
  case_match; [by apply follows_ret|]. apply follows_bind, rx_passive; [auto with rings|]. intros _. apply IH.
Qed.

Lemma rx_wait self ladder :
  drops c = false → r_shared self = sh → r_head self = Z.of_nat (length (received tr)) →
  heeds (recv_wait self ladder) (Rxw Calm (r_head self)) (λ _ w, w = Rxw Calm (r_head self)).
Proof using Hok Hpark.
  intros Hd Hsh Hh. unfold recv_wait. rewrite Hsh, Hpark. set (n := r_head self) in *.
  apply follows_bind, rx_spins. intros [|]; [by apply follows_ret|].
  apply follows_bind, follows_bind, rx_follow_enlist, rx_follow_raise. intros p.
  apply follows_bind, rx_follow_fence. apply follows_bind.
  unfold slot_published. rewrite Hsh. fold n. rewrite Hh, index_head. apply follows_bind, follows_ret.
  apply follows_bind, rx_follow_round. intros tc v. apply follows_ret.
  assert (Hcancel : ∀ σ, heeds (_ ← cancel (consumer_parker sh); mret ladder) (Rxw σ (Z.of_nat (length (received tr))))
    (λ _ w, w = Rxw Calm (Z.of_nat (length (received tr))))).
  { intros σ. by apply follows_bind, rx_follow_settle, follows_ret. }
  apply follows_bind. destruct (Z.eqb_spec v (round_of sh (Z.of_nat (length (received tr))))) as [Hv|Hv].
  { apply follows_ret, Hcancel. }
  apply follows_bind, rx_follow_end. intros td z. apply follows_ret.
  destruct (Z.eqb_spec z 0) as [Hz|Hz]; [apply Hcancel|].
  apply follows_bind, follows_bind, rx_follow_park.
  - unfold rx_dozing. rewrite decide_True by done. split_and!; [done..|]. by exists p, tc, v, td, z.
  - by apply rx_follow_settle, follows_ret.
Qed.

Lemma rx_close n {A} (k : prog T A) Q :
  heeds k (Rxw Calm n) Q →
  heeds (_ ← store_bool (rx_dropped sh) true Release;
         _ ← fence SeqCst; _ ← wake_all (prod_waiters sh); k) (Rxw Calm n) Q.
Proof using Type.
  intros Hk. apply follows_bind, rx_store; [done|].
  apply follows_bind, rx_passive; [auto with rings|]. intros _.
  by apply follows_bind, rx_wake_all.
Qed.
End receiver.

(** Between calls the head recorded is corrected to what the logic knows. *)
Lemma Watch_calm Δ m n V tr c n' :
  Watch sh Δ m → Δ !! rx = Some (Ent (Rxw Calm n) V tr c) → head_at sh n' m →
  Watch sh (<[rx := Ent (Rxw Calm n') V tr c]> Δ) m.
Proof using Type.
  intros HW HD Hn. pose proof (Watch_rx _ _ _ _ HW HD) as (_ & _ & HF).
  eapply rx_move; [exact HW|exact HD|done..| |done|exact Hn]. apply flag_rx; [by eexists|exact HF].
Qed.

#[export] Instance rx_protocol : Protocol sh limit rxw.
Proof using Hok Hpark Hlim.
  split.
  - intros Δ m i w V tr c V' m' HW HD HV Hq. eapply rx_watch_milder; [exact HW|exact HD|exact HV|by apply milder_quiet].
  - intros. by eapply Watch_label.
  - intros. by eapply Watch_calm.
  - intros Δ m V HW. split; [by apply Watch_app|]. destruct (wa_rx _ _ _ HW) as (e & He & _). by eapply lookup_lt_Some.
  - intros. by eapply tx_follow_claim.
  - intros. by apply tx_follow_publish.
  - intros. by apply tx_wake.
  - intros. by apply rx_send_wait.
  - intros. by apply tx_leave.
  - intros. by apply tx_join.
  - intros. by apply rx_follow_head.
  - intros tr c n w Q [-> | ->] HQ;
      (apply follows_bind, rx_passive; [auto with rings|]; intros _; by apply rx_wake_all).
  - intros. by apply rx_wait.
  - intros. by apply rx_close.
Qed.
End rules.
