(* ===== verification/MpscTxWait.v ===== *)
(** The senders' wakeups of the MPSC ring: the stages of the park protocol
    between any number of senders, which wait in the [WaiterList], and the
    receiver, which wakes them all, and the invariant that ties them to the
    list's flag, its queue, the park tokens and the global view of the
    sequentially consistent fences.

    A sender joins the queue, raises the flag, passes a fence and looks at the
    head and at [rx_dropped]. The receiver publishes either; passes a fence;
    and swaps the flag for false. A flag found raised makes it empty the queue
    and unpark everybody in it. A sender that gives up, or wakes, leaves flag
    and queue as they are. *)
From S2P Require Import Prelude Usize Atomic Errors Wait Notify Ring Queue Mpsc Seq Memory Machine Logic Track.
From S2P Require Import MpscInv MpscProt MpscCalls MpscConc MpscOps MpscClients MpscWatch.
Local Open Scope Z_scope.

(** A sender: at ease; in the queue; the flag raised by its store at [a]; past
    the fence, then having loaded the claim ([c]), the head ([h]: timestamp,
    value) and [rx_dropped] ([d]). The receiver: having stored something the
    senders wait for, but not yet fenced; fenced; the flag found raised and
    lowered; about to unpark [ts]. *)
Inductive pace :=
  | Easy
  | Queued
  | Raised (a : nat)
  | Vigilant (a : nat) (c : option Z) (h d : option (nat * Z))
  | Indebted
  | Inspecting
  | Swapped
  | Rousing (ts : list tid).

#[global] Instance pace_eq_dec : EqDecision pace.
Proof. solve_decision. Defined.

(** A thread's stage, and, of the receiver, whether it closed the ring. *)
Record txw := Txw { tpace : pace; tclosed : bool }.

Section lookout.
Context `{tgt : Target} {T : Type} (sh : Shared).
Abbreviation entry := (ent txw (call T) (event T)).
Implicit Types (Δ : list entry) (e er : entry) (m : mem T) (j : tid).

Definition wf : loc := Loc (sh_ring sh) Waiting.
Definition wq : loc := Loc (sh_ring sh) WaiterQueue.
Definition queue m : list tid := default [] (fst <$> mqueues m !! wq).
Definition queue_view m : view := default ∅ (snd <$> mqueues m !! wq).
Abbreviation pc e := (tpace (eg e)).
Abbreviation vi e := (cur (ev e)).

(** The receiver will wake thread [j], or did. *)
Definition roused er j m : Prop :=
  is_Some (mtokens m !! j) ∨
  match pc er with Swapped => j ∈ queue m | Rousing ts => j ∈ ts | _ => False end.

(** Thread [j] can be found, and whoever swaps the flag after the store at
    [a] finds it raised. *)
Definition listed (a : nat) j m : Prop :=
  j ∈ queue m ∧ ∀ h, hist m !! wf = Some h →
    is_Some (h !! a) ∧ ∀ t x, h !! t = Some x → mval x = 0 → (t < a)%nat.

(** Every store of false after [b] took the place right behind another. *)
Definition chained (b : nat) m : Prop :=
  ∀ h t x, hist m !! wf = Some h → h !! t = Some x → mval x = 0 →
    (t ≤ b)%nat ∨ ∃ t' y, t = S t' ∧ h !! t' = Some y ∧ mval y = 0.

(** The receiver is still to swap the flag raised at [a]. *)
Definition pending (a : nat) er : Prop :=
  pc er = Indebted ∨ pc er = Inspecting ∧ (a ≤ vw (vi er) wf)%nat.

(** What thread [e] loaded from [l], or is about to, is the newest there is. *)
Definition newest e (l : loc) (r : option (nat * Z)) m : Prop :=
  latest m l (match r with None => vw (vi e) l | Some (t, _) => t end).

(** What it loaded is still there. *)
Definition recalled (c : option Z) (h d : option (nat * Z)) m : Prop :=
  (∀ v, c = Some v → ∃ t, loaded m (claim sh) t (Some v)) ∧
  (∀ t v, h = Some (t, v) → loaded m (head sh) t (Some v)) ∧
  (∀ t v, d = Some (t, v) → loaded m (rx_dropped sh) t (Some v)).

Definition tx_ok er j e m : Prop :=
  match pc e with
  | Queued => roused er j m ∨ j ∈ queue m ∧ chained (vw (vi e) wf) m
  | Raised a => (a ≤ vw (vi e) wf)%nat ∧ (roused er j m ∨ listed a j m)
  | Vigilant a c h d =>
      (a ≤ vw (scview m) wf)%nat ∧ recalled c h d m ∧
      (roused er j m ∨ listed a j m ∧
        (newest e (head sh) h m ∧ newest e (rx_dropped sh) d m ∨ pending a er))
  | _ => True
  end.

(** What the receiver stored is past a fence, or it still owes one. *)
Definition news_ok er m : Prop := ∀ l t, l = head sh ∨ l = rx_dropped sh → stored m l t →
  (t ≤ vw (vi er) l)%nat ∧ ((t ≤ vw (scview m) l)%nat ∨ pc er = Indebted).

(** The stores of false that found the flag raised are known to the next one
    who locks the queue, or to the receiver about to do so. *)
Definition zeros_ok er m : Prop :=
  chained (match pc er with
           | Swapped => Nat.max (vw (queue_view m) wf) (vw (vi er) wf)
           | _ => vw (queue_view m) wf
           end) m.

(** [rx_dropped] is only ever set, by a receiver that closes. *)
Definition shut_ok er m : Prop := ∀ h, hist m !! rx_dropped sh = Some h →
  (∀ t x, h !! t = Some x → t ≠ 0%nat → mval x ≠ 0) ∧
  (tclosed (eg er) = true → ∃ t, t ≠ 0%nat ∧ is_Some (h !! t)).

Record Lookout Δ m : Prop := {
  lk_rx : ∃ er, Δ !! rx = Some er ∧ news_ok er m ∧ zeros_ok er m ∧ shut_ok er m ∧
    ∀ j e, j ≠ rx → Δ !! j = Some e → tx_ok er j e m;
}.

(** ** What does not matter *)

(** The memory lost nothing the protocol speaks of, tokens apart. *)
Record gentler m m' : Prop := {
  gt_flag : kept m m' wf;
  gt_head : kept m m' (head sh);
  gt_gone : kept m m' (rx_dropped sh);
  gt_claim t v : loaded m (claim sh) t v → loaded m' (claim sh) t v;
  gt_queue : mqueues m' !! wq = mqueues m !! wq;
  gt_sc : vle (scview m) (scview m');
}.

Lemma chained_mono b b' m : chained b m → (b ≤ b')%nat → chained b' m.
Proof using Type. intros Hc Hb h t x Hh Ht Hx. destruct (Hc h t x Hh Ht Hx); [left; lia|by right]. Qed.

Lemma chained_kept b m m' : kept m m' wf → chained b m → chained b m'.
Proof using Type. intros Hk Hc h t x Hh. by apply Hc, Hk. Qed.

Lemma listed_kept a j m m' :
  kept m m' wf → mqueues m' !! wq = mqueues m !! wq → listed a j m → listed a j m'.
Proof using Type.
  intros Hk Hq [H1 H2]. split; [by unfold queue in *; rewrite Hq|]. intros h Hh. by apply H2, Hk.
Qed.

Lemma roused_frame er er' j m m' :
  roused er j m → pc er' = pc er → mqueues m' !! wq = mqueues m !! wq →
  (is_Some (mtokens m !! j) → is_Some (mtokens m' !! j)) → roused er' j m'.
Proof using Type.
  unfold roused, queue. intros Hr -> -> Ht. destruct Hr; auto.
Qed.

Lemma newest_kept e e' l r m m' : kept m m' l → vle (vi e) (vi e') → newest e l r m → newest e' l r m'.
Proof using Type.
  intros Hk Hv Hn. apply (latest_sub m); [done|]. destruct r as [[t v]|]; [done|].
  intros t Ht. specialize (Hn t Ht). specialize (Hv l). simpl in *. lia.
Qed.

Lemma recalled_sub c h d m m' : gentler m m' → recalled c h d m → recalled c h d m'.
Proof using Type.
  intros [] (H1 & H2 & H3). split_and!.
  - intros v Hv. destruct (H1 v Hv) as [t Ht]. eauto.
  - intros t v Heq. eapply loaded_sub; eauto.
  - intros t v Heq. eapply loaded_sub; eauto.
Qed.

(** A sender's wait goes on. *)
Lemma tx_frame er er' j e e' m m' :
  tx_ok er j e m → pc er' = pc er → vle (vi er) (vi er') → pc e' = pc e → vle (vi e) (vi e') →
  gentler m m' → (is_Some (mtokens m !! j) → is_Some (mtokens m' !! j)) → tx_ok er' j e' m'.
Proof using Type.
  intros HT Hr Hvr He Hv Hg Ht. pose proof Hg as [].
  assert (roused er j m → roused er' j m') as Hrs by (intros; by eapply roused_frame).
  unfold tx_ok in *. rewrite He. destruct (pc e) as [| |a|a c h d| | | |]; try done.
  - destruct HT as [?|[H1 H2]]; [left; auto|right]. split; [by unfold queue in *; rewrite gt_queue0|].
    eapply chained_mono; [by eapply chained_kept|]. apply Hv.
  - destruct HT as [H1 H2]. split; [specialize (Hv wf); lia|]. destruct H2; [left; auto|right; by eapply listed_kept].
  - destruct HT as (H1 & H2 & H3). split_and!; [specialize (gt_sc0 wf); lia|by eapply recalled_sub|].
    destruct H3 as [?|[Hl [[Hh Hd]|Hp]]]; [left; auto|right; split; [by eapply listed_kept|]..].
    + left. split; (eapply newest_kept; [| |eassumption]; done).
    + right. unfold pending in *. rewrite Hr. specialize (Hvr wf). destruct Hp as [?|[? ?]]; [by left|right]. split; [done|lia].
Qed.

(** What somebody else's move has to keep for a sender's wait to go on. *)
Lemma tx_change er er' j e m m' :
  tx_ok er j e m → vle (scview m) (scview m') → (∀ c h d, recalled c h d m → recalled c h d m') →
  (roused er j m → roused er' j m') → (j ∈ queue m → j ∈ queue m') →
  (∀ b, chained b m → chained b m') → (∀ a, listed a j m → listed a j m') →
  (∀ a h d, (a ≤ vw (scview m) wf)%nat → listed a j m →
     newest e (head sh) h m ∧ newest e (rx_dropped sh) d m ∨ pending a er →
     newest e (head sh) h m' ∧ newest e (rx_dropped sh) d m' ∨ pending a er') →
  tx_ok er' j e m'.
Proof using Type.
  intros HT Hsc Hrec Hr Hq Hc Hl Hp. unfold tx_ok in *. destruct (pc e) as [| |a|a c h d| | | |]; try done.
  - destruct HT as [?|[? ?]]; [left; auto|right; auto].
  - destruct HT as [H1 [?|?]]; (split; [done|]); [left; auto|right; auto].
  - destruct HT as (H1 & H2 & H3). split_and!; [specialize (Hsc wf); lia|auto|].
    destruct H3 as [?|[? ?]]; [left; auto|right; split; eauto].
Qed.

Lemma news_frame er er' m m' :
  news_ok er m → pc er' = pc er → vle (vi er) (vi er') → gentler m m' → news_ok er' m'.
Proof using Type.
  intros HN Hp Hv [] l t Hl Ht. rewrite Hp. specialize (Hv l). specialize (gt_sc0 l).
  assert (stored m l t) as Hs by (eapply stored_sub; [|exact Ht]; by destruct Hl as [-> | ->]).
  destruct (HN l t Hl Hs) as [H1 H2]. split; [lia|]. destruct H2; [left; lia|by right].
Qed.

Lemma zeros_frame er er' m m' :
  zeros_ok er m → pc er' = pc er → vle (vi er) (vi er') → gentler m m' → zeros_ok er' m'.
Proof using Type.
  intros HZ Hp Hv []. specialize (Hv wf). unfold zeros_ok, queue_view in *. rewrite Hp, gt_queue0.
  eapply chained_mono; [by eapply chained_kept|]. destruct (pc er); lia.
Qed.

Lemma shut_frame er er' m m' :
  shut_ok er m → tclosed (eg er') = tclosed (eg er) → kept m m' (rx_dropped sh) → shut_ok er' m'.
Proof using Type. intros HS Hc Hk h Hh. rewrite Hc. by apply HS, Hk. Qed.

(** A move that touches none of the protocol's locations. *)
Lemma Lookout_frame Δ m i e e' m' :
  Lookout Δ m → Δ !! i = Some e → eg e' = eg e → vle (vi e) (vi e') → gentler m m' →
  (∀ j, j ≠ rx → is_Some (mtokens m !! j) → is_Some (mtokens m' !! j)) →
  Lookout (<[i := e']> Δ) m'.
Proof using Type.
  intros [(er & Her & HN & HZ & HS & HT)] Hi He Hv Hg Ht. pose proof (lookup_lt_Some _ _ _ Hi) as Hlt. split.
  destruct (decide (i = rx)) as [->|Hne].
  - rewrite Hi in Her. injection Her as <-. exists e'. rewrite list_lookup_insert_eq by done.
    split_and!; [done|eapply news_frame; [exact HN|by rewrite He|done..]|eapply zeros_frame; [exact HZ|by rewrite He|done..]| |].
    { eapply shut_frame; [exact HS|by rewrite He|apply Hg]. }
    intros j ej Hj Hej. rewrite list_lookup_insert_ne in Hej by done.
    eapply tx_frame; [by apply HT|by rewrite He|done|done|done|done|auto].
  - exists er. rewrite list_lookup_insert_ne by done.
    split_and!; [done|by eapply news_frame|by eapply zeros_frame|eapply shut_frame; [exact HS|done|apply Hg]|].
    intros j ej Hj [(-> & <- & _)|[? Hej]]%list_lookup_insert_Some.
    + eapply tx_frame; [by eapply HT|done|done|by rewrite He|done|done|auto].
    + eapply tx_frame; [by apply HT|done|done|done|done|done|auto].
Qed.

Lemma Lookout_app Δ m V : Lookout Δ m → Lookout (Δ ++ [Ent (Txw Easy false) V [] None]) m.
Proof using Type.
  intros [(er & Her & HN & HZ & HS & HT)]. split. exists er.
  rewrite lookup_app_l by (by eapply lookup_lt_Some). split_and!; [done..|].
  intros j e Hj [He|[_ He]]%lookup_app_Some; [by apply HT|].
  apply list_lookup_singleton_Some in He as [_ <-]. done.
Qed.

(** ** Which changes are gentle *)

(** The locations of the protocol, the claim apart. *)
Definition guarded (l : loc) : Prop := l = wf ∨ l = head sh ∨ l = rx_dropped sh.

Lemma gentler_hist m m' :
  (∀ l, guarded l → kept m m' l) → (∀ t v, loaded m (claim sh) t v → loaded m' (claim sh) t v) →
  mqueues m' = mqueues m → vle (scview m) (scview m') → gentler m m'.
Proof using Type. intros Hk Hc Hq Hs. split; [apply Hk; unfold guarded; tauto..|done|by rewrite Hq|done]. Qed.

Lemma gentler_quiet m m' : quiet sh m m' → gentler m m'.
Proof using Type.
  intros Hq. pose proof Hq as [Hh _ Hqu _ Hsc]. apply gentler_hist; [|intros t v; apply loaded_sub|done..].
  - intros l [-> |[-> | ->]]; by apply (quiet_kept sh).
  - by apply (quiet_kept sh).
Qed.

Lemma gentler_refl m : gentler m m.
Proof using Type. apply gentler_quiet, quiet_refl. Qed.

(** Stores elsewhere, the claim included. *)
Lemma gentler_store l t x m h :
  ¬ guarded l → hist m !! l = Some h → h !! t = None → gentler m (add_msg l t x m).
Proof using Type.
  intros Hl Hh Ht. apply gentler_hist; try done.
  - intros l' Hl'. apply kept_add. by intros ->.
  - intros t' v. by eapply loaded_add.
Qed.

(** Parkers, and tokens. *)
Lemma gentler_slots f m : gentler m (set_mslots f m).
Proof using Type. by apply gentler_hist. Qed.
Lemma gentler_tokens f m : gentler m (set_mtokens f m).
Proof using Type. by apply gentler_hist. Qed.

(** ** A sender's moves *)

Ltac view_at Hv l := let H := fresh in pose proof (Hv l) as H; simpl in H.

Lemma sender_move Δ m i e e' m' :
  Lookout Δ m → i ≠ rx → Δ !! i = Some e →
  (∀ er, news_ok er m → zeros_ok er m → shut_ok er m → tx_ok er i e m →
     news_ok er m' ∧ zeros_ok er m' ∧ shut_ok er m' ∧ tx_ok er i e' m' ∧
     ∀ j ej, j ≠ i → tx_ok er j ej m → tx_ok er j ej m') →
  Lookout (<[i := e']> Δ) m'.
Proof using Type.
  intros [(er & Her & HN & HZ & HS & HT)] Hne Hi Hmove.
  destruct (Hmove er HN HZ HS (HT i e Hne Hi)) as (HN' & HZ' & HS' & Hown & Hothers).
  split. exists er. rewrite list_lookup_insert_ne by done. split_and!; [done..|].
  intros j ej Hj [(-> & <- & _)|[? Hej]]%list_lookup_insert_Some; [done|auto].
Qed.

(** A move of its own: nothing happens to the memory but to its token. *)
Lemma sender_alone Δ m i e e' m' :
  Lookout Δ m → i ≠ rx → Δ !! i = Some e → gentler m m' →
  (∀ j, j ≠ i → is_Some (mtokens m !! j) → is_Some (mtokens m' !! j)) →
  (∀ er, news_ok er m → tx_ok er i e m → tx_ok er i e' m') → Lookout (<[i := e']> Δ) m'.
Proof using Type.
  intros HL Hne Hi Hg Ht Hown. eapply sender_move; [exact HL|done|exact Hi|].
  intros er HN HZ HS HT. split_and!; [by eapply news_frame|by eapply zeros_frame| |by apply Hown|].
  - eapply shut_frame; [exact HS|done|apply Hg].
  - intros j ej Hj HTj. eapply tx_frame; [exact HTj|done..|auto].
Qed.

Definition tto (σ : pace) (w : txw) : txw := Txw σ (tclosed w).

(** Joining the queue. *)
Lemma wl_push Δ m i w V tr c :
  Lookout Δ m → i ≠ rx → Δ !! i = Some (Ent w V tr c) →
  let V' := learn (queue_view m) V in
  Lookout (<[i := Ent (tto Queued w) V' tr c]> Δ) (set_mqueues <[wq := (queue m ++ [i], cur V')]> m).
Proof using Type.
  intros HL Hne Hi V'. set (m' := set_mqueues _ m).
  assert (Hqv : vle (queue_view m) (cur V')) by apply vle_join_r.
  assert (Hq : queue m' = queue m ++ [i]) by (unfold queue, m'; simpl; by rewrite lookup_insert_eq).
  assert (Hqv' : queue_view m' = cur V') by (unfold queue_view, m'; simpl; by rewrite lookup_insert_eq).
  assert (Hin : ∀ j, j ∈ queue m → j ∈ queue m') by (intros j; rewrite Hq; set_solver +). clearbody V'.
  assert (Hr : ∀ er j, roused er j m → roused er j m').
  { intros er j [?|Hr]; [by left|right]. destruct (pc er); auto. }
  eapply sender_move; [exact HL|done|exact Hi|]. intros er HN HZ HS _. split_and!; [done| |done|..].
  - unfold zeros_ok in *. rewrite Hqv'. view_at Hqv wf.
    apply (chained_mono _ _ m' (chained_kept _ m m' ltac:(done) HZ)). destruct (pc er); lia.
  - unfold tx_ok. simpl. destruct (decide (pc er = Swapped)) as [Hs|Hs].
    + left. right. rewrite Hs, Hq. set_solver +.
    + right. split; [rewrite Hq; set_solver +|]. view_at Hqv wf. unfold zeros_ok in HZ.
      apply (chained_mono _ _ m' (chained_kept _ m m' ltac:(done) HZ)). destruct (pc er); try done.
  - intros j ej Hj HT. eapply tx_change; try done; [apply Hr|apply Hin|]. intros a [H1 H2]. split; auto.
Qed.

(** Raising the flag: all stores of false are behind this one. *)
Lemma chained_before b a m h :
  chained b m → hist m !! wf = Some h → h !! a = None → (b < a)%nat →
  ∀ t x, h !! t = Some x → mval x = 0 → (t < a)%nat.
Proof using Type.
  intros Hc Hh Ha Hb. induction t as [|t IH]; intros x Ht Hx; [lia|].
  destruct (Hc h _ x Hh Ht Hx) as [?|(t' & y & [= <-] & Hy & H0)]; [lia|].
  specialize (IH y Hy H0). destruct (decide (S t = a)) as [Heq|]; [subst a; congruence|lia].
Qed.

(** A store to the flag takes a free place. *)
Lemma chained_add b m h a x :
  hist m !! wf = Some h → h !! a = None →
  (mval x = 0 → (a ≤ b)%nat ∨ ∃ t' y, a = S t' ∧ h !! t' = Some y ∧ mval y = 0) →
  chained b m → chained b (add_msg wf a x m).
Proof using Type.
  intros Hh Ha Hx Hc h' t y Hh'. erewrite hist_add_same in Hh' by done. injection Hh' as <-.
  assert (∀ t' y', h !! t' = Some y' → <[a := x]> h !! t' = Some y') as Hin.
  { intros t' y' Hy'. rewrite lookup_insert_ne; [done|congruence]. }
  intros [[<- <-]|[_ Hy]]%lookup_insert_Some H0.
  - destruct (Hx H0) as [?|(t' & z & ? & ? & ?)]; [by left|right]. exists t', z. auto.
  - destruct (Hc h t y Hh Hy H0) as [?|(t' & z & ? & ? & ?)]; [by left|right]. exists t', z. auto.
Qed.

Lemma listed_add a' j m h a x :
  hist m !! wf = Some h → h !! a = None → (mval x = 0 → (a < a')%nat) →
  listed a' j m → listed a' j (add_msg wf a x m).
Proof using Type.
  intros Hh Ha Hx [H1 H2]. split; [done|]. destruct (H2 h Hh) as [Hin Hz].
  intros h' Hh'. erewrite hist_add_same in Hh' by done. injection Hh' as <-. split.
  - destruct (decide (a = a')) as [->|]; [rewrite lookup_insert_eq; by eexists|by rewrite lookup_insert_ne].
  - intros t y [[<- <-]|[_ Hy]]%lookup_insert_Some H0; eauto.
Qed.

Lemma recalled_flag c h d m t x : recalled c h d m → recalled c h d (add_msg wf t x m).
Proof using Type.
  intros (H1 & H2 & H3). split_and!.
  - intros v Hv. destruct (H1 v Hv) as [t' Ht]. exists t'. eapply loaded_sub; [by apply kept_add|done].
  - intros t' v Heq. eapply loaded_sub; [by apply kept_add|eauto].
  - intros t' v Heq. eapply loaded_sub; [by apply kept_add|eauto].
Qed.

Lemma wl_raise Δ m i w V tr c t h b :
  Lookout Δ m → i ≠ rx → Δ !! i = Some (Ent w V tr c) → tpace w = Queued →
  hist m !! wf = Some h → h !! t = None → (vw (cur V) wf < t)%nat →
  Lookout (<[i := Ent (tto (Raised t) w) (write_view wf t V) tr c]> Δ) (add_msg wf t (Msg 1 b) m).
Proof using Type.
  intros HL Hne Hi Hw Hh Ht Hlt. set (x := Msg 1 b). set (m' := add_msg wf t x m).
  assert (Hl : ∀ l, wf ≠ l → kept m m' l) by (intros; by apply kept_add).
  eapply sender_move; [exact HL|done|exact Hi|]. intros er HN HZ HS HT. split_and!.
  - intros l t' Hl' Ht'. apply HN; [done|]. eapply stored_sub; [apply Hl|exact Ht']. by destruct Hl' as [-> | ->].
  - apply (chained_add _ m h); done.
  - eapply shut_frame; [exact HS|done|by apply Hl].
  - unfold tx_ok in *. simpl in HT |- *. rewrite Hw in HT. split; [rewrite vw_set_same; lia|].
    destruct HT as [Hr|[H1 H2]]; [left; eapply roused_frame; [exact Hr|done..]|right].
    split; [done|]. unfold m'. intros h' Hh'. erewrite hist_add_same in Hh' by done. injection Hh' as <-.
    rewrite lookup_insert_eq. split; [by eexists|].
    intros t' y [[_ <-]|[_ Hy]]%lookup_insert_Some H0; [done|]. by eapply chained_before.
  - intros j ej Hj HTj. eapply tx_change; try done.
    + intros. by apply recalled_flag.
    + intros. by apply (chained_add _ m h).
    + intros a. by apply (listed_add a j m h).
    + intros a hd gd _ _ [[? ?]|?]; [left|by right].
      split; (eapply newest_kept; [by apply Hl| |eassumption]; done).
Qed.

(** The fence after the flag: what this sender can still miss, the receiver
    will swap the flag for. *)
Lemma wl_fence Δ m i w V tr c a :
  Lookout Δ m → i ≠ rx → Δ !! i = Some (Ent w V tr c) → tpace w = Raised a →
  let '(V', G) := fence_view SeqCst V (scview m) in
  Lookout (<[i := Ent (tto (Vigilant a None None None) w) V' tr c]> Δ) (set_scview G m).
Proof using Type.
  intros HL Hne Hi Hw. unfold fence_view. set (G := vjoin _ (scview m)). set (V' := {| cur := G; acq := acq V; rel := G |}).
  assert (HV : vle (cur V) (cur V')) by (etrans; apply vle_join_l).
  assert (HG : vle (scview m) G) by apply vle_join_r.
  assert (HVG : cur V' = G) by done. clearbody V' G. subst G.
  eapply sender_alone; [exact HL|done|exact Hi|by apply gentler_hist|done|].
  intros er HN HT. unfold tx_ok in *. simpl in *. rewrite Hw in HT. destruct HT as [Ha HT]. view_at HV wf.
  split_and!; [lia|by split_and!|]. destruct HT as [?|?]; [by left|right]. split; [done|].
  destruct (decide (pc er = Indebted)) as [Hp|Hp]; [right; by left|left].
  split; intros t Ht.
  - view_at HG (head sh). destruct (HN (head sh) t (or_introl eq_refl) Ht) as [_ [?|?]]; [simpl; lia|done].
  - view_at HG (rx_dropped sh). destruct (HN (rx_dropped sh) t (or_intror eq_refl) Ht) as [_ [?|?]]; [simpl; lia|done].
Qed.

(** Loading the claim, the head and [rx_dropped]. *)
Lemma wl_look_claim Δ m i w V tr c a t h x o :
  Lookout Δ m → i ≠ rx → Δ !! i = Some (Ent w V tr c) → tpace w = Vigilant a None None None →
  hist m !! claim sh = Some h → h !! t = Some x →
  Lookout (<[i := Ent (tto (Vigilant a (Some (mval x)) None None) w) (read_view (claim sh) t o x V) tr c]> Δ) m.
Proof using Type.
  intros HL Hne Hi Hw Hh Ht. destruct (read_view_grows (claim sh) t o x V) as [HV _].
  set (V' := read_view _ _ _ _ _) in *. clearbody V'.
  eapply sender_alone; [exact HL|done|exact Hi|apply gentler_refl|done|].
  intros er HN HT. unfold tx_ok in *. simpl in *. rewrite Hw in HT. destruct HT as (H1 & (_ & H2 & H3) & H4).
  split_and!; [done| |].
  - split_and!; [|done..]. intros v [= <-]. exists t. intros z h' [= <-] Hh'. assert (h' = h) as -> by congruence. eauto.
  - destruct H4 as [?|[? [[? ?]|?]]]; [by left|right; split; [done|]..]; [left|by right].
    split; (eapply newest_kept; [| |eassumption]; done).
Qed.

Lemma wl_look_head Δ m i w V tr c a vc t h x o :
  Lookout Δ m → i ≠ rx → Δ !! i = Some (Ent w V tr c) → tpace w = Vigilant a vc None None →
  hist m !! head sh = Some h → h !! t = Some x → (vw (cur V) (head sh) ≤ t)%nat →
  Lookout (<[i := Ent (tto (Vigilant a vc (Some (t, mval x)) None) w) (read_view (head sh) t o x V) tr c]> Δ) m.
Proof using Type.
  intros HL Hne Hi Hw Hh Ht Hle. destruct (read_view_grows (head sh) t o x V) as [HV _].
  set (V' := read_view _ _ _ _ _) in *. clearbody V'.
  eapply sender_alone; [exact HL|done|exact Hi|apply gentler_refl|done|].
  intros er HN HT. unfold tx_ok in *. simpl in *. rewrite Hw in HT. destruct HT as (H1 & (H2 & _ & H3) & H4).
  split_and!; [done| |].
  - split_and!; [done| |done]. intros t' v [= <- <-] z h' [= <-] Hh'. assert (h' = h) as -> by congruence. eauto.
  - destruct H4 as [?|[? [[Hn ?]|?]]]; [by left|right; split; [done|]..]; [left|by right].
    split; [|(eapply newest_kept; [| |eassumption]; done)]. intros t' Ht'. specialize (Hn t' Ht'). simpl in *. lia.
Qed.

Lemma wl_look_gone Δ m i w V tr c a vc hd t h x o :
  Lookout Δ m → i ≠ rx → Δ !! i = Some (Ent w V tr c) → tpace w = Vigilant a vc (Some hd) None →
  hist m !! rx_dropped sh = Some h → h !! t = Some x → (vw (cur V) (rx_dropped sh) ≤ t)%nat →
  Lookout (<[i := Ent (tto (Vigilant a vc (Some hd) (Some (t, mval x))) w) (read_view (rx_dropped sh) t o x V) tr c]> Δ) m.
Proof using Type.
  intros HL Hne Hi Hw Hh Ht Hle. destruct (read_view_grows (rx_dropped sh) t o x V) as [HV _].
  set (V' := read_view _ _ _ _ _) in *. clearbody V'.
  eapply sender_alone; [exact HL|done|exact Hi|apply gentler_refl|done|].
  intros er HN HT. unfold tx_ok in *. simpl in *. rewrite Hw in HT. destruct HT as (H1 & (H2 & H3 & _) & H4).
  split_and!; [done| |].
  - split_and!; [done|done|]. intros t' v [= <- <-] z h' [= <-] Hh'. assert (h' = h) as -> by congruence. eauto.
  - destruct H4 as [?|[? [[? Hn]|?]]]; [by left|right; split; [done|]..]; [left|by right].
    split; [(eapply newest_kept; [| |eassumption]; done)|]. intros t' Ht'. specialize (Hn t' Ht'). simpl in *. lia.
Qed.

(** Giving up, or waking up: with a token or without. *)
Lemma wl_settle Δ m i w V tr c V' m' :
  Lookout Δ m → i ≠ rx → Δ !! i = Some (Ent w V tr c) → gentler m m' →
  (∀ j, j ≠ i → is_Some (mtokens m !! j) → is_Some (mtokens m' !! j)) →
  Lookout (<[i := Ent (tto Easy w) V' tr c]> Δ) m'.
Proof using Type. intros HL Hne Hi Hg Ht. by eapply sender_alone. Qed.

(** ** The receiver's moves *)

Lemma receiver_move Δ m e e' m' :
  Lookout Δ m → Δ !! rx = Some e →
  (news_ok e m → zeros_ok e m → shut_ok e m →
     news_ok e' m' ∧ zeros_ok e' m' ∧ shut_ok e' m' ∧
     ∀ j ej, j ≠ rx → tx_ok e j ej m → tx_ok e' j ej m') →
  Lookout (<[rx := e']> Δ) m'.
Proof using Type.
  intros [(er & Her & HN & HZ & HS & HT)] Hi Hmove. rewrite Hi in Her. injection Her as <-.
  destruct (Hmove HN HZ HS) as (HN' & HZ' & HS' & Hothers). split. exists e'.
  rewrite list_lookup_insert_eq by (by eapply lookup_lt_Some). split_and!; [done..|].
  intros j ej Hj Hej. rewrite list_lookup_insert_ne in Hej by done. auto.
Qed.

(** Whoever is in the queue gets woken. *)
Lemma tx_rouse er er' j e m m' :
  tx_ok er j e m → vle (scview m) (scview m') → (∀ c h d, recalled c h d m → recalled c h d m') →
  (roused er j m ∨ j ∈ queue m → roused er' j m') → tx_ok er' j e m'.
Proof using Type.
  intros HT Hsc Hrec Hr. unfold tx_ok, listed in *. destruct (pc e) as [| |a|a c h d| | | |]; try done.
  - left. apply Hr. tauto.
  - split; [apply HT|]. left. apply Hr. tauto.
  - destruct HT as (H1 & H2 & H3). split_and!; [specialize (Hsc wf); lia|auto|]. left. apply Hr. tauto.
Qed.

Lemma roused_easy er er' j m : pc er = Easy ∨ pc er = Indebted ∨ pc er = Inspecting → roused er j m → roused er' j m.
Proof using Type. intros Hp [?|Hr]; [by left|]. by destruct Hp as [Hp|[Hp|Hp]]; rewrite Hp in Hr. Qed.

(** Storing what the senders wait for: the head, or that the ring is closed. *)
Lemma recalled_add c h d l t x m h0 :
  hist m !! l = Some h0 → h0 !! t = None → recalled c h d m → recalled c h d (add_msg l t x m).
Proof using Type.
  intros Hh Ht (H1 & H2 & H3). split_and!.
  - intros v Hv. destruct (H1 v Hv) as [t' Ht']. exists t'. by eapply loaded_add.
  - intros t' v Heq. eapply loaded_add; eauto.
  - intros t' v Heq. eapply loaded_add; eauto.
Qed.

Lemma wl_store Δ m w V tr c l t x h closed :
  Lookout Δ m → Δ !! rx = Some (Ent w V tr c) → tpace w = Easy →
  l = head sh ∧ closed = tclosed w ∨ l = rx_dropped sh ∧ mval x ≠ 0 ∧ closed = true ∧ (0 < t)%nat →
  hist m !! l = Some h → h !! t = None →
  Lookout (<[rx := Ent (Txw Indebted closed) (write_view l t V) tr c]> Δ) (add_msg l t x m).
Proof using Type.
  intros HL Hi Hw Hl Hh Ht.
  assert (Hk : ∀ l', l ≠ l' → kept m (add_msg l t x m) l') by (intros; by apply kept_add).
  assert (Hwf : l ≠ wf) by (by destruct Hl as [[-> _]|[-> _]]).
  eapply receiver_move; [exact HL|exact Hi|]. intros HN HZ HS. split_and!.
  - intros l' t' Hl' Ht'. split; [|by right]. simpl. destruct (stored_add _ _ _ _ _ _ Ht') as [[-> ->]|Hs].
    + rewrite vw_set_same. lia.
    + destruct (HN l' t' Hl' Hs) as [Hle _]. pose proof (vle_set l t (cur V) l'). simpl in *. lia.
  - unfold zeros_ok in *. simpl in *. rewrite Hw in HZ. eapply chained_kept; [by apply Hk|done].
  - intros h' Hh'. destruct Hl as [[-> ->]|(-> & Hx & -> & Hpos)].
    + apply HS. by apply Hk.
    + erewrite hist_add_same in Hh' by done. injection Hh' as <-. split.
      * intros t' y [[_ <-]|[_ Hy]]%lookup_insert_Some; [done|]. by eapply HS.
      * intros _. exists t. rewrite lookup_insert_eq. split; [lia|by eexists].
  - intros j ej Hj HT. eapply tx_change; [exact HT|done|..].
    + intros c' h' d'. by eapply recalled_add.
    + apply (roused_easy _ _ _ m). by left.
    + done.
    + intros b. by apply chained_kept, Hk.
    + intros a. apply listed_kept; [by apply Hk|done].
    + intros a h' d' _ _ _. right. by left.
Qed.

(** The fence after it: the receiver now knows of every flag raised before a
    fence. *)
Lemma wl_check Δ m w V tr c :
  Lookout Δ m → Δ !! rx = Some (Ent w V tr c) → tpace w = Indebted ∨ tpace w = Easy →
  let '(V', G) := fence_view SeqCst V (scview m) in
  Lookout (<[rx := Ent (tto Inspecting w) V' tr c]> Δ) (set_scview G m).
Proof using Type.
  intros HL Hi Hw. unfold fence_view. set (G := vjoin _ (scview m)). set (V' := {| cur := G; acq := acq V; rel := G |}).
  assert (HV : vle (cur V) (cur V')) by (etrans; apply vle_join_l).
  assert (HG : vle (scview m) G) by apply vle_join_r.
  assert (HVG : cur V' = G) by done. clearbody V' G. subst G.
  eapply receiver_move; [exact HL|exact Hi|]. intros HN HZ HS. split_and!; [| |done|].
  - intros l t Hl Ht. destruct (HN l t Hl Ht) as [Hle _]. specialize (HV l). simpl in *. split; [|left]; lia.
  - unfold zeros_ok in *. simpl in *. by destruct Hw as [Hw|Hw]; rewrite Hw in HZ.
  - intros j ej Hj HT. eapply tx_change; [exact HT|exact HG|done| |done|done|done|].
    + apply (roused_easy _ _ _ m). simpl. tauto.
    + intros a h d Ha _ [?|Hp]; [by left|right]. right. split; [done|]. view_at HG wf. simpl. lia.
Qed.

(** Swapping the flag. *)
Lemma wl_swap Δ m w V tr c t x b h V' :
  Lookout Δ m → Δ !! rx = Some (Ent w V tr c) → tpace w = Inspecting →
  hist m !! wf = Some h → h !! t = Some x → h !! S t = None → (vw (cur V) wf ≤ t)%nat →
  vle (cur V) (cur V') → (S t ≤ vw (cur V') wf)%nat →
  Lookout (<[rx := Ent (tto (if mval x =? 0 then Easy else Swapped) w) V' tr c]> Δ) (add_msg wf (S t) (Msg 0 b) m).
Proof using Type.
  intros HL Hi Hw Hh Hx Ht Hle HV Hle'.
  assert (Hk : ∀ l, wf ≠ l → kept m (add_msg wf (S t) (Msg 0 b) m) l) by (intros; by apply kept_add).
  eapply receiver_move; [exact HL|exact Hi|]. intros HN HZ HS.
  assert (Hz : mval x = 0 → ∀ b', chained b' m → chained b' (add_msg wf (S t) (Msg 0 b) m)).
  { intros H0 b' Hc. apply (chained_add _ m h); [done|done| |done]. intros _. right. by exists t, x. }
  split_and!.
  - intros l t' Hl Ht'. assert (stored m l t') as Hs.
    { eapply stored_sub; [apply Hk|exact Ht']. by destruct Hl as [-> | ->]. }
    destruct (HN l t' Hl Hs) as [H1 [H2|H2]]; [|simpl in H2; congruence]. specialize (HV l). simpl in *.
    split; [lia|by left].
  - unfold zeros_ok in *. simpl in *. rewrite Hw in HZ. destruct (Z.eqb_spec (mval x) 0) as [H0|H0]; [by apply Hz|].
    eapply (chained_add _ m h); [done|done|intros _; left; lia|]. eapply chained_mono; [exact HZ|].
    unfold queue_view. simpl. lia.
  - eapply shut_frame; [exact HS|done|by apply Hk].
  - intros j ej Hj HT. destruct (Z.eqb_spec (mval x) 0) as [H0|H0].
    + assert (Hbefore : ∀ a, listed a j m → (S t < a)%nat).
      { intros a [_ Hl]. destruct (Hl h Hh) as [[y Hy] Hz']. specialize (Hz' t x Hx H0).
        destruct (decide (S t = a)) as [<-|]; [congruence|lia]. }
      eapply tx_change; [exact HT|done|..].
      * intros c' h' d'. apply recalled_flag.
      * apply (roused_easy _ _ _ m). simpl. tauto.
      * done.
      * by apply Hz.
      * intros a Hl. eapply listed_add; [done|done|intros _; by apply Hbefore|done].
      * intros a h' d' _ Hl [[? ?]|[Hp|[_ Hp]]].
        -- left. split; (eapply newest_kept; [by apply Hk| |eassumption]; done).
        -- simpl in Hp. congruence.
        -- specialize (Hbefore a Hl). simpl in *. lia.
    + eapply tx_rouse; [exact HT|done|intros c' h' d'; apply recalled_flag|].
      intros [[?|Hr]|?]; [by left|simpl in Hr; by rewrite Hw in Hr|by right].
Qed.

(** Emptying the queue. *)
Definition rousing (ts : list tid) : pace := match ts with [] => Easy | _ => Rousing ts end.

Lemma rousing_roused ts b V tr c j m :
  j ∈ ts ∨ is_Some (mtokens m !! j) → roused (Ent (Txw (rousing ts) b) V tr c) j m.
Proof using Type. intros [Hj|?]; [right|by left]. destruct ts; [by apply elem_of_nil in Hj|done]. Qed.

Lemma wl_drain Δ m w V tr c :
  Lookout Δ m → Δ !! rx = Some (Ent w V tr c) → tpace w = Swapped →
  let V' := learn (queue_view m) V in
  Lookout (<[rx := Ent (tto (rousing (queue m)) w) V' tr c]> Δ) (set_mqueues <[wq := ([], cur V')]> m).
Proof using Type.
  intros HL Hi Hw V'. set (m' := set_mqueues _ m).
  assert (HV : vle (cur V) (cur V')) by apply vle_join_l.
  assert (Hqv : vle (queue_view m) (cur V')) by apply vle_join_r.
  assert (Hqv' : queue_view m' = cur V') by (unfold queue_view, m'; simpl; by rewrite lookup_insert_eq).
  clearbody V'. eapply receiver_move; [exact HL|exact Hi|]. intros HN HZ HS. split_and!; [| |done|].
  - intros l t Hl Ht. destruct (HN l t Hl Ht) as [H1 [H2|H2]]; [|simpl in H2; congruence]. specialize (HV l).
    simpl in *. split; [lia|by left].
  - unfold zeros_ok in *. simpl in *. rewrite Hw in HZ. rewrite Hqv'. view_at HV wf. view_at Hqv wf.
    apply (chained_mono (vw (cur V') wf)); [|by destruct (queue m)].
    eapply (chained_mono _ _ m'); [exact HZ|]. lia.
  - intros j ej Hj HT. eapply tx_rouse; [exact HT|done|done|]. intros Hr. unfold roused in Hr. simpl in Hr. rewrite Hw in Hr.
    apply rousing_roused. change (mtokens m') with (mtokens m). tauto.
Qed.

(** Unparking one of them. *)
Lemma wl_rouse Δ m w V tr c t ts X :
  Lookout Δ m → Δ !! rx = Some (Ent w V tr c) → tpace w = Rousing (t :: ts) →
  Lookout (<[rx := Ent (tto (rousing ts) w) V tr c]> Δ) (set_mtokens (λ Y, <[t := X Y]> Y) m).
Proof using Type.
  intros HL Hi Hw. eapply receiver_move; [exact HL|exact Hi|]. intros HN HZ HS. split_and!; [| |done|].
  - intros l t' Hl Ht'. destruct (HN l t' Hl Ht') as [H1 [H2|H2]]; [|simpl in H2; congruence]. split; [done|by left].
  - unfold zeros_ok in *. simpl in *. rewrite Hw in HZ. by destruct ts.
  - intros j ej Hj HT. eapply tx_change; [exact HT|done|done| |done|done|done|].
    + unfold roused at 1. simpl. rewrite Hw. intros Hr. apply rousing_roused. simpl.
      destruct (decide (t = j)) as [->|Hne]; [right; rewrite lookup_insert_eq; by eexists|].
      rewrite lookup_insert_ne by done. set_solver.
    + intros a h d _ _ [?|[Hp|[Hp _]]]; [by left|simpl in Hp; congruence..].
Qed.
End lookout.
