(* ===== verification/MpscTxWake.v ===== *)
(** The operations of the MPSC ring keep the senders' side of the park
    protocol: the promises of [MpscWatch.Protocol] for the stages of
    [MpscTxWait]. *)
From S2P Require Import Prelude Usize Atomic Errors Wait Notify Ring Queue Mpsc Seq Memory Machine Logic Track.
From S2P Require Import MpscInv MpscProt MpscCalls MpscConc MpscOps MpscClients MpscWatch MpscTxWait.
From S2P Require MpscSeq.
Local Open Scope Z_scope.

Section rules.
Context `{tgt : Target} {T : Type} (sh : Shared) (limit : Z).
Hypothesis Hpark : strategy sh = Park.
Abbreviation entry := (ent txw (call T) (event T)).
Implicit Types (Δ : list entry) (m : mem T) (w : txw).

(** A sender blocks only after it saw the head a capacity or more behind a
    claim it saw, and [rx_dropped] down; the receiver whenever it likes, having
    woken the senders. *)
Definition tx_dozing (i : tid) (tr : list (call T * event T)) (c : call T) w : Prop :=
  if decide (i = rx) then w = Txw Easy false
  else drops c = false ∧ ∃ a vc th vh td, w = Txw (Vigilant a (Some vc) (Some (th, vh)) (Some (td, 0))) false ∧
    saturating_add vh (cap sh) ≤ vc.

#[export] Instance wl_stages : Stages T txw := {
  watch := Lookout sh;
  dozing := tx_dozing;
  calm _ := Txw Easy false;
  held _ := Txw Easy false;
  owing := Txw Easy false;
  told _ := Txw Indebted false;
  shut _ := Txw Easy true;
}.

Abbreviation heeds := (heeds sh limit).
Abbreviation easy := (Txw Easy false).

(** ** Actions the protocol does not depend on *)

Lemma parker_unguarded : ¬ guarded sh (Loc (sh_ring sh) (Parked Consumer)).
Proof using Type. by intros [|[|]]. Qed.
Lemma claim_unguarded : ¬ guarded sh (claim sh).
Proof using Type. by intros [|[|]]. Qed.
Lemma round_unguarded j : ¬ guarded sh (slot_round sh j).
Proof using Type. by intros [|[|]]. Qed.
Lemma senders_unguarded : ¬ guarded sh (senders sh).
Proof using Type. by intros [|[|]]. Qed.
Hint Resolve parker_unguarded claim_unguarded round_unguarded senders_unguarded : core.

Section any.
Context (i : tid) (tr : list (call T * event T)) (c : call T).

Lemma wl_mild {A} (p : prog T A) w Q :
  (∀ a, p ≠ Ret a) → (parking p = true → tx_dozing i tr c w) →
  (∀ m V t b p' V' m', Memory.step i p V m t b = Next (p', V', m') →
     vle (cur V) (cur V') ∧ gentler sh m m' ∧
     (∀ j, j ≠ rx → is_Some (mtokens m !! j) → is_Some (mtokens m' !! j)) ∧ heeds i tr c p' w Q) →
  heeds i tr c p w Q.
Proof using Type.
  intros Hnr Hpk Hstep. apply follows_step; [done|done|].
  intros Δ m V _ HW Hi t b p' V' m' Heq. destruct (Hstep _ _ _ _ _ _ _ Heq) as (HV & Hm & Ht & Hf).
  exists w. split; [|done]. by eapply Lookout_frame.
Qed.

Lemma wl_passive {A} (p : prog T A) w (Q : A → txw → Prop) :
  passive p → (∀ a, Q a w) → heeds i tr c p w Q.
Proof using Type.
  intros (Hnr & Hpk & Hp) HQ. apply wl_mild; [done|by rewrite Hpk|]. intros m V t b p' V' m' Heq.
  destruct (Hp _ _ _ _ _ _ _ _ Heq) as (HV & Hu & a & ->).
  split_and!; [done|by apply gentler_quiet, quiet_undisturbed| |by apply follows_ret].
  intros j _. by rewrite (ud_tokens _ _ Hu).
Qed.

Lemma wl_plain_store l z o w (Q : unit → txw → Prop) :
  ¬ guarded sh l → Q tt w → heeds i tr c (store l z o) w Q.
Proof using Type.
  intros Hl HQ. apply wl_mild; [done..|]. intros m V t b p' V' m'. unfold store. simpl.
  destruct (hist m !! l) as [h|] eqn:Hh; [|done]. destruct (h !! t) eqn:Ht; [done|]. case_match; [|done].
  intros [= <- <- <-]. split_and!; [apply vle_set|by eapply gentler_store|done|by apply follows_ret].
Qed.

Lemma wl_rmw l f o w (Q : Z → txw → Prop) :
  ¬ guarded sh l → (∀ z, Q z w) → heeds i tr c (Rmw l f o Ret) w Q.
Proof using Type.
  intros Hl HQ. apply wl_mild; [done..|]. intros m V t b p' V' m'. simpl.
  destruct (hist m !! l) as [h|] eqn:Hh; [|done]. destruct (h !! t) as [x|] eqn:Hx; [|done].
  destruct (h !! S t) eqn:Ht; [done|]. case_match; [|done]. intros [= <- <- <-]. split_and!; [|by eapply gentler_store|done|].
  - etrans; [apply read_view_grows|apply vle_set].
  - by apply follows_ret.
Qed.

Lemma wl_claim seq next w (Q : Z + Z → txw → Prop) :
  (∀ q, seq = Z.of_nat q → is_usize seq → Q (inl seq) w) → (∀ z, Q (inr z) w) →
  heeds i tr c (compare_exchange_weak (claim sh) seq next Relaxed Relaxed) w Q.
Proof using Type.
  intros HQ HR. apply follows_step; [done..|]. intros Δ m V HK HW Hi t b p' V' m'.
  unfold compare_exchange_weak. simpl.
  destruct (hist m !! claim sh) as [h|] eqn:Hh; [|done]. destruct (h !! t) as [x|] eqn:Hx; [|done].
  case_match; [done|]. destruct (Z.eqb_spec (mval x) seq) as [Heq|Hne]; [destruct b|]; cbn [negb andb].
  2: { destruct (h !! S t) eqn:Ht; [done|]. intros [= <- <- <-].
    destruct (known_claim _ _ _ _ _ _ HK Hh Hx) as [Hv Hu]. exists w. split.
    - eapply Lookout_frame; [exact HW|exact Hi|done| |by eapply gentler_store|done].
      etrans; [apply read_view_grows|apply vle_set].
    - apply follows_ret. rewrite Heq. rewrite Heq in Hv. apply (HQ t); [done|by rewrite Hv]. }
  all: intros [= <- <- <-]; exists w; split; [|apply follows_ret, HR].
  all: eapply Lookout_frame; [exact HW|exact Hi|done|apply read_view_grows|apply gentler_refl|done].
Qed.

Lemma wl_unpark j w (Q : unit → txw → Prop) : Q tt w → heeds i tr c (unpark j) w Q.
Proof using Type.
  intros HQ. apply wl_mild; [done..|]. intros m V t b p' V' m'. simpl. intros [= <- <- <-].
  split_and!; [done|apply gentler_tokens|intros k _; apply (quiet_token sh)|by apply follows_ret].
Qed.

Lemma wl_slot l w (Q : unit → txw → Prop) : Q tt w → heeds i tr c (SetSlot l (Ret tt)) w Q.
Proof using Type.
  intros HQ. apply wl_mild; [done..|]. intros m V t b p' V' m'. simpl. intros [= <- <- <-]%in_block_Next.
  split_and!; [apply vle_join_l|apply gentler_slots|done|by apply follows_ret].
Qed.

Lemma wl_take l w (Q : option tid → txw → Prop) : (∀ o, Q o w) → heeds i tr c (TakeSlot l Ret) w Q.
Proof using Type.
  intros HQ. apply wl_mild; [done..|]. intros m V t b p' V' m'. simpl. intros [= <- <- <-]%in_block_Next.
  split_and!; [apply vle_join_l|apply gentler_slots|done|by apply follows_ret].
Qed.

(** Waking the receiver is none of this protocol's business. *)
Lemma wl_wake_rx w (Q : unit → txw → Prop) :
  Q tt w → heeds i tr c (_ ← fence SeqCst; wake (consumer_parker sh)) w Q.
Proof using Type.
  intros HQ. apply follows_bind, wl_passive; [auto with rings|]. intros _.
  apply follows_bind, wl_passive; [auto with rings|]. intros [|]; [|by apply follows_ret].
  apply follows_bind, wl_plain_store; [done|]. apply follows_bind, wl_take.
  intros [j|]; [by apply wl_unpark|by apply follows_ret].
Qed.
End any.

(** The receiver's own wait. *)
Lemma wl_rx_park tr c (Q : unit → txw → Prop) : Q tt easy → heeds rx tr c park easy Q.
Proof using Type.
  intros HQ. apply wl_mild; [done|by intros _|]. intros m V t b p' V' m'. simpl.
  destruct (mtokens m !! rx) as [X|].
  - intros [= <- <- <-]. split_and!; [apply vle_join_l|apply gentler_tokens| |by apply follows_ret].
    intros j Hj. simpl. by rewrite lookup_delete_ne.
  - destruct b; [|done]. intros [= <- <- <-]. split_and!; [done|apply gentler_refl|done|by apply follows_ret].
Qed.

Lemma wl_published i tr c self z w (Q : bool → txw → Prop) :
  (∀ b, Q b w) → heeds i tr c (slot_published self z) w Q.
Proof using Type.
  intros HQ. apply follows_bind, follows_index. intros j.
  apply follows_bind, wl_passive; [auto with rings|]. intros r. by apply follows_ret.
Qed.

Lemma wl_spins i tr c k self w (Q : bool → txw → Prop) :
  (∀ b, Q b w) → heeds i tr c (park_spins k self) w Q.
Proof using Type.
  intros HQ. induction k as [|k IH]; [by apply follows_ret|]. cbn [park_spins].
  apply follows_bind, wl_published. intros [|]; [by apply follows_ret|].
  apply follows_bind, wl_passive; [auto with rings|]. intros _. apply IH.
Qed.

Lemma wl_recv_wait tr c self ladder :
  r_shared self = sh → heeds rx tr c (recv_wait self ladder) easy (λ _ w, w = easy).
Proof using Hpark.
  intros Hsh. unfold recv_wait. rewrite Hsh, Hpark. apply follows_bind, wl_spins.
  intros [|]; [by apply follows_ret|].
  apply follows_bind, follows_bind, wl_slot, wl_plain_store; [done|].
  apply follows_bind, wl_passive; [auto with rings|]. intros _. apply follows_bind, wl_published. intros p.
  apply follows_bind. apply (follows_mono _ _ _ _ _ _ (λ _ w, w = easy)).
  { destruct p; [by apply follows_ret|]. apply follows_bind, wl_passive; [auto with rings|]. intros n. by apply follows_ret. }
  intros retry w ->. apply follows_bind. destruct retry.
  - apply wl_plain_store; [done|]. by apply follows_ret.
  - apply follows_bind, wl_rx_park, wl_plain_store; [done|]. by apply follows_ret.
Qed.

(** ** Senders *)

Section sender.
Context (i : tid) (tr : list (call T * event T)) (c : call T) (Hi : i ≠ rx).
Abbreviation heeds := (MpscWatch.heeds sh limit i tr c).

(** One action of a sender that does not block. *)
Lemma wl_step {A} (p : prog T A) w Q :
  (∀ a, p ≠ Ret a) → parking p = false →
  (∀ Δ m V, Lookout sh Δ m → Δ !! i = Some (Ent w V tr (Some c)) → ∀ t b p' V' m',
     Memory.step i p V m t b = Next (p', V', m') →
     ∃ w', Lookout sh (<[i := Ent w' V' tr (Some c)]> Δ) m' ∧ heeds p' w' Q) →
  heeds p w Q.
Proof using Type.
  intros Hnr Hpk Hstep. apply follows_step; [done|by rewrite Hpk|]. intros Δ m V _ HW HD. by apply Hstep.
Qed.

Lemma wl_follow_push w (Q : unit → txw → Prop) :
  Q tt (tto Queued w) → heeds (PushWaiter (wq sh) (Ret tt)) w Q.
Proof using Hi.
  intros HQ. apply wl_step; [done..|]. intros Δ m V HW HD t b p' V' m'. simpl. intros [= <- <- <-]%in_block_Next.
  eexists. split; [by eapply (wl_push sh Δ m i w)|]. by apply follows_ret.
Qed.

Lemma wl_follow_raise (Q : unit → txw → Prop) :
  (∀ a, Q tt (Txw (Raised a) false)) → heeds (store_bool (wf sh) true Relaxed) (Txw Queued false) Q.
Proof using Hi.
  intros HQ. apply wl_step; [done..|]. intros Δ m V HW HD t b p' V' m'. unfold store_bool, store. simpl.
  destruct (hist m !! _) as [h|] eqn:Hh; [|done]. destruct (h !! t) eqn:Ht; [done|].
  destruct (Nat.ltb_spec (vw (cur V) (wf sh)) t); [|done]. intros [= <- <- <-].
  eexists. split; [by eapply (wl_raise sh Δ m i (Txw Queued false))|]. apply follows_ret, HQ.
Qed.

Lemma wl_follow_fence a (Q : unit → txw → Prop) :
  Q tt (Txw (Vigilant a None None None) false) → heeds (fence SeqCst) (Txw (Raised a) false) Q.
Proof using Hi.
  intros HQ. apply wl_step; [done..|]. intros Δ m V HW HD t b p' V' m'.
  pose proof (wl_fence sh Δ m i (Txw (Raised a) false) V tr (Some c) a HW Hi HD eq_refl) as HF. simpl in *.
  intros [= <- <- <-]. eexists. split; [exact HF|]. by apply follows_ret.
Qed.

Lemma wl_follow_claim a (Q : Z → txw → Prop) :
  (∀ v, Q v (Txw (Vigilant a (Some v) None None) false)) →
  heeds (load (claim sh) Relaxed) (Txw (Vigilant a None None None) false) Q.
Proof using Hi.
  intros HQ. apply wl_step; [done..|]. intros Δ m V HW HD t b p' V' m'. unfold load. simpl.
  destruct (hist m !! _) as [h|] eqn:Hh; [|done]. destruct (h !! t) as [x|] eqn:Hx; [|done].
  case_match; [|done]. intros [= <- <- <-].
  eexists. split; [by eapply (wl_look_claim sh Δ m i (Txw (Vigilant a None None None) false))|]. apply follows_ret, HQ.
Qed.

(** A sender that finds room is at ease again. *)
Lemma wl_follow_head a vc (Q : Z → txw → Prop) :
  (∀ v, vc < saturating_add v (cap sh) → Q v easy) →
  (∀ t v, saturating_add v (cap sh) ≤ vc → Q v (Txw (Vigilant a (Some vc) (Some (t, v)) None) false)) →
  heeds (load (head sh) Acquire) (Txw (Vigilant a (Some vc) None None) false) Q.
Proof using Hi.
  intros HR HQ. apply wl_step; [done..|]. intros Δ m V HW HD t b p' V' m'. unfold load. simpl.
  destruct (hist m !! _) as [h|] eqn:Hh; [|done]. destruct (h !! t) as [x|] eqn:Hx; [|done].
  destruct (Nat.leb_spec (vw (cur V) (head sh)) t); [|done]. intros [= <- <- <-].
  destruct (Z.lt_ge_cases vc (saturating_add (mval x) (cap sh))) as [Hlt|Hge].
  - eexists. split; [by eapply (wl_settle sh Δ m i (Txw _ false)); [..|apply gentler_refl|]|]. by apply follows_ret, HR.
  - eexists. split; [by eapply (wl_look_head sh Δ m i (Txw (Vigilant a (Some vc) None None) false))|]. by apply follows_ret, HQ.
Qed.

(** One that finds the ring closed, too. *)
Lemma wl_follow_gone a vc h (Q : bool → txw → Prop) :
  Q true easy → (∀ t, Q false (Txw (Vigilant a vc (Some h) (Some (t, 0))) false)) →
  heeds (load_bool (rx_dropped sh) Acquire) (Txw (Vigilant a vc (Some h) None) false) Q.
Proof using Hi.
  intros HR HQ. apply wl_step; [done..|]. intros Δ m V HW HD t b p' V' m'. unfold load_bool. simpl.
  destruct (hist m !! _) as [h0|] eqn:Hh; [|done]. destruct (h0 !! t) as [x|] eqn:Hx; [|done].
  destruct (Nat.leb_spec (vw (cur V) (rx_dropped sh)) t); [|done]. intros [= <- <- <-].
  destruct (Z.eqb_spec (mval x) 0) as [H0|H0]; cbn [negb].
  - eexists. split; [by eapply (wl_look_gone sh Δ m i (Txw (Vigilant a vc (Some h) None) false))|].
    apply follows_ret. rewrite H0. apply HQ.
  - eexists. split; [by eapply (wl_settle sh Δ m i (Txw _ false)); [..|apply gentler_refl|]|]. by apply follows_ret.
Qed.

Lemma wl_follow_park w (Q : unit → txw → Prop) :
  tclosed w = false → tx_dozing i tr c w → Q tt easy → heeds park w Q.
Proof using Hi.
  intros Hc Hd HQ. apply follows_step; [done|done|].
  intros Δ m V _ HW HD t b p' V' m'. simpl. destruct (mtokens m !! i) as [X|].
  - intros [= <- <- <-]. exists (tto Easy w). split; [|unfold tto; rewrite Hc; by apply follows_ret].
    eapply wl_settle; [exact HW|done|exact HD|apply gentler_tokens|].
    intros j Hj. simpl. by rewrite lookup_delete_ne.
  - destruct b; [|done]. intros [= <- <- <-]. exists (tto Easy w). split; [|unfold tto; rewrite Hc; by apply follows_ret].
    eapply wl_settle; [exact HW|done|exact HD|apply gentler_refl|done].
Qed.

Lemma wl_send_wait self ladder :
  drops c = false → s_shared self = sh → heeds (send_wait self ladder) easy (λ _ w, w = easy).
Proof using Hi Hpark.
  intros Hd Hsh. unfold send_wait. rewrite Hsh, Hpark.
  apply follows_bind, follows_bind, wl_follow_push, wl_follow_raise. intros a.
  apply follows_bind, wl_follow_fence, follows_bind, wl_follow_claim. intros vc.
  apply follows_bind, wl_follow_head; [intros vh Hv|intros th vh Hv]; apply follows_bind.
  { rewrite (proj2 (Z.ltb_lt _ _)) by done. by apply follows_ret, follows_bind, follows_ret, follows_ret. }
  rewrite (proj2 (Z.ltb_ge _ _)) by done. apply wl_follow_gone; [by apply follows_bind, follows_ret, follows_ret|].
  intros td. apply follows_bind, wl_follow_park; [done| |by apply follows_ret].
  unfold tx_dozing. rewrite decide_False by done. split; [done|]. by exists a, vc, th, vh, td.
Qed.
End sender.

(** ** The receiver *)

Section receiver.
Context (tr : list (call T * event T)) (c : call T).
Abbreviation heeds := (MpscWatch.heeds sh limit rx tr c).

Lemma wl_rx_step {A} (p : prog T A) w Q :
  (∀ a, p ≠ Ret a) → parking p = false →
  (∀ Δ m V, Lookout sh Δ m → Δ !! rx = Some (Ent w V tr (Some c)) → ∀ t b p' V' m',
     Memory.step rx p V m t b = Next (p', V', m') →
     ∃ w', Lookout sh (<[rx := Ent w' V' tr (Some c)]> Δ) m' ∧ heeds p' w' Q) →
  heeds p w Q.
Proof using Type.
  intros Hnr Hpk Hstep. apply follows_step; [done|by rewrite Hpk|]. intros Δ m V _ HW HD. by apply Hstep.
Qed.

Lemma wl_follow_publish z (Q : unit → txw → Prop) :
  Q tt (Txw Indebted false) → heeds (store (head sh) z Release) easy Q.
Proof using Type.
  intros HQ. apply wl_rx_step; [done..|]. intros Δ m V HW HD t b p' V' m'. unfold store. simpl.
  destruct (hist m !! _) as [h|] eqn:Hh; [|done]. destruct (h !! t) eqn:Ht; [done|].
  case_match; [|done]. intros [= <- <- <-].
  eexists. split; [eapply (wl_store sh Δ m easy); [done|done|done|by left|done|done]|]. by apply follows_ret.
Qed.

Lemma wl_follow_close (Q : unit → txw → Prop) :
  Q tt (Txw Indebted true) → heeds (store_bool (rx_dropped sh) true Release) easy Q.
Proof using Type.
  intros HQ. apply wl_rx_step; [done..|]. intros Δ m V HW HD t b p' V' m'. unfold store_bool, store. simpl.
  destruct (hist m !! _) as [h|] eqn:Hh; [|done]. destruct (h !! t) eqn:Ht; [done|].
  destruct (Nat.ltb_spec (vw (cur V) (rx_dropped sh)) t); [|done]. intros [= <- <- <-].
  eexists. split; [eapply (wl_store sh Δ m easy); [done|done|done| |done|done]|by apply follows_ret].
  right. split_and!; [done..|lia].
Qed.

Lemma wl_follow_check σ b (Q : unit → txw → Prop) :
  σ = Indebted ∨ σ = Easy → Q tt (Txw Inspecting b) → heeds (fence SeqCst) (Txw σ b) Q.
Proof using Type.
  intros Hs HQ. apply wl_rx_step; [done..|]. intros Δ m V HW HD t b' p' V' m'.
  pose proof (wl_check sh Δ m (Txw σ b) V tr (Some c) HW HD Hs) as HF. simpl in *.
  intros [= <- <- <-]. eexists. split; [exact HF|]. by apply follows_ret.
Qed.

Lemma wl_follow_swap b (Q : bool → txw → Prop) :
  Q true (Txw Swapped b) → Q false (Txw Easy b) →
  heeds (swap_bool (wf sh) false Relaxed) (Txw Inspecting b) Q.
Proof using Type.
  intros HT HF. apply wl_rx_step; [done..|]. intros Δ m V HW HD t b' p' V' m'. unfold swap_bool. simpl.
  destruct (hist m !! _) as [h|] eqn:Hh; [|done]. destruct (h !! t) as [x|] eqn:Hx; [|done].
  destruct (h !! S t) eqn:Ht; [done|]. destruct (Nat.leb_spec (vw (cur V) (wf sh)) t); [|done]. intros [= <- <- <-].
  eexists. split; [eapply (wl_swap sh Δ m (Txw Inspecting b)); [exact HW|exact HD|done|exact Hh|exact Hx|exact Ht|done|..]|].
  - etrans; [apply read_view_grows|apply vle_set].
  - simpl. rewrite vw_set_same. lia.
  - apply follows_ret. unfold tto. simpl. by destruct (mval x =? 0).
Qed.

Lemma wl_follow_drain b (Q : list tid → txw → Prop) :
  (∀ ts, Q ts (Txw (rousing ts) b)) → heeds (DrainWaiters (wq sh) Ret) (Txw Swapped b) Q.
Proof using Type.
  intros HQ. apply wl_rx_step; [done..|]. intros Δ m V HW HD t b' p' V' m'. simpl. intros [= <- <- <-]%in_block_Next.
  eexists. split; [by eapply (wl_drain sh Δ m (Txw Swapped b))|]. apply follows_ret, HQ.
Qed.

Lemma wl_unpark_all ts b (Q : unit → txw → Prop) :
  Q tt (Txw Easy b) → heeds (unpark_all ts) (Txw (rousing ts) b) Q.
Proof using Type.
  intros HQ. induction ts as [|j ts IH]; [by apply follows_ret|]. cbn [unpark_all]. apply follows_bind.
  apply wl_rx_step; [done..|]. intros Δ m V HW HD t b' p' V' m'. simpl. intros [= <- <- <-].
  eexists. split; [by eapply (wl_rouse sh Δ m (Txw (Rousing (j :: ts)) b))|]. by apply follows_ret.
Qed.

Lemma wl_wake_all σ b (Q : unit → txw → Prop) :
  σ = Indebted ∨ σ = Easy → Q tt (Txw Easy b) →
  heeds (_ ← fence SeqCst; wake_all (prod_waiters sh)) (Txw σ b) Q.
Proof using Type.
  intros Hs HQ. apply follows_bind, wl_follow_check; [done|].
  apply follows_bind, wl_follow_swap; [|by apply follows_ret].
  apply follows_bind, wl_follow_drain. intros ts. by apply wl_unpark_all.
Qed.

Lemma wl_close {A} (k : prog T A) Q :
  heeds k (Txw Easy true) Q →
  heeds (_ ← store_bool (rx_dropped sh) true Release;
         _ ← fence SeqCst; _ ← wake_all (prod_waiters sh); k) easy Q.
Proof using Type.
  intros Hk. apply follows_bind, wl_follow_close, follows_bind, wl_follow_check; [by left|].
  apply follows_bind, follows_bind, wl_follow_swap; [|by apply follows_ret].
  apply follows_bind, wl_follow_drain. intros ts. by apply wl_unpark_all.
Qed.
End receiver.

#[export] Instance wl_protocol : Protocol sh limit txw.
Proof using Hpark.
  split.
  - intros Δ m i w V tr c V' m' HW HD HV Hq.
    eapply Lookout_frame; [exact HW|exact HD|done|exact HV|by apply gentler_quiet|intros j _; apply Hq].
  - intros Δ m i w V tr c tr' c' HW HD.
    eapply Lookout_frame; [exact HW|exact HD|done|done|apply gentler_refl|done].
  - intros Δ m n V tr c n' HW HD _. simpl in *. by rewrite list_insert_id.
  - intros Δ m V HW. split; [by apply Lookout_app|].
    destruct (lk_rx _ _ _ HW) as (e & He & _). by eapply lookup_lt_Some.
  - intros i tr c seq next Q Hi _ HQ HR. by apply wl_claim.
  - intros i tr c q Q Hi HQ. by apply wl_plain_store.
  - intros i tr c Q Hi HQ. by apply wl_wake_rx.
  - intros. by apply wl_send_wait.
  - intros i tr c Q Hi HQ. apply wl_rmw; [done|]. intros n. by specialize (HQ n); destruct (n =? 1).
  - intros i tr c Q Hi HQ. by apply wl_rmw.
  - intros tr c n z Q HQ. by apply wl_follow_publish, (HQ 0).
  - intros tr c n w Q [-> | ->] HQ; (apply wl_wake_all; [|done]); auto.
  - intros tr c self ladder _ Hsh _. by apply wl_recv_wait.
  - intros. by apply wl_close.
Qed.
End rules.
