(* ===== verification/MpscPark.v ===== *)
(** No wakeup of the MPSC ring is lost: under [WaitStrategy::Park] the receiver
    sleeps only while there is nothing to receive, senders sleep only while the
    ring is full, and neither after the other side is gone. The two protocols
    of [MpscRxWake] and [MpscTxWake] run along the same schedule. *)
From S2P Require Import Prelude Usize Atomic Errors Wait Notify Ring Queue Mpsc Seq Memory Machine Logic Parking Track.
From S2P Require Import MpscInv MpscProt MpscDrop MpscCalls MpscConc MpscOps MpscClients MpscRuns MpscWatch MpscRxWait MpscRxWake MpscTxWait MpscTxWake.
From S2P Require MpscSeq.
Local Open Scope Z_scope.

(** ** One ticket per call *)

Section counting.
Context `{tgt : Target} {T : Type} (sh : Shared).
Abbreviation entry := (ent (ghost T) (call T) (event T)).
Implicit Types (Γ : list entry) (l : list (ticket T)).

Lemma filter_every (P : ticket T → Prop) `{!∀ tk, Decision (P tk)} l : Forall P l → filter P l = l.
Proof using Type. induction 1 as [|tk l Htk _ IH]; [done|]. by rewrite filter_cons_True, IH. Qed.

Lemma filter_none (P : ticket T → Prop) `{!∀ tk, Decision (P tk)} l : Forall (λ tk, ¬ P tk) l → filter P l = [].
Proof using Type. induction 1 as [|tk l Htk _ IH]; [done|]. by rewrite filter_cons_False. Qed.

Lemma shares_le l Γ k :
  (∀ i e, Γ !! i = Some e → Z.of_nat (length (filter (λ tk, tby tk = (k + i)%nat) l)) ≤ weight e) →
  Z.of_nat (length (filter (λ tk, k ≤ tby tk < k + length Γ)%nat l)) ≤ calls_in Γ.
Proof using Type.
  revert k. induction Γ as [|e Γ IH]; intros k Hw.
  - rewrite filter_none; [simpl; lia|]. apply Forall_forall. intros tk _ Hk. simpl in Hk. lia.
  - pose proof (Hw 0%nat e eq_refl) as H0. rewrite Nat.add_0_r in H0.
    assert (Z.of_nat (length (filter (λ tk, S k ≤ tby tk < S k + length Γ)%nat l)) ≤ calls_in Γ) as H1.
    { apply IH. intros i e' Hi. replace (S k + i)%nat with (k + S i)%nat by lia. by apply Hw. }
    assert (length (filter (λ tk, k ≤ tby tk < k + length (e :: Γ))%nat l) =
      length (filter (λ tk, tby tk = k) l) + length (filter (λ tk, S k ≤ tby tk < S k + length Γ)%nat l))%nat as ->.
    { clear. induction l as [|tk l IH]; [done|]. rewrite !filter_cons. simpl in IH.
      repeat case_decide; simpl in *; lia. }
    change (calls_in (e :: Γ)) with (weight e + calls_in Γ). lia.
Qed.

Lemma accepted_calls (tr : list (call T * event T)) : (length (accepted tr) ≤ length tr)%nat.
Proof using Type.
  unfold accepted. induction tr as [|[c o] tr IH]; [done|]. csimpl. rewrite length_app.
  assert (length (accepted_by (c, o)) ≤ 1)%nat; [|lia].
  unfold accepted_by. simpl. destruct o as [[|]|[|]| | | | | |], c; simpl; lia.
Qed.

Lemma tickets_le limit G Γ m : MInv sh limit G Γ m → Z.of_nat (ntk G) ≤ limit.
Proof using Type.
  intros HI. etrans; [|apply (mi_calls _ _ _ _ _ HI)]. pose proof (mi_glob _ _ _ _ _ HI) as HG.
  etrans; [|apply (shares_le (tickets G) Γ 0)].
  - unfold ntk. rewrite filter_every; [done|]. apply Forall_lookup. intros q tk Hq. destruct (go_by _ _ _ _ HG q tk Hq). lia.
  - intros i e Hi. simpl. destruct (mi_local _ _ _ _ _ HI _ _ Hi) as [_ Hr Hl].
    destruct (decide (i = rx)) as [->|Hne].
    + rewrite filter_none; [simpl; apply weight_nonneg|]. apply Forall_lookup.
      intros q tk Hq Hb. by destruct (go_by _ _ _ _ HG q tk Hq).
    + unfold log_ok in Hl. rewrite decide_False in Hl by done.
      rewrite <-(length_fmap tval), <-(ls_vals _ _ _ _ Hr). pose proof (accepted_calls (etr e)).
      destruct Hl as [Hl _]. unfold weight. destruct (ecur e) as [c|].
      * destruct Hl as [_ Hl%prefix_length]. rewrite length_app in Hl.
        assert (length (offered c) ≤ 1)%nat by (destruct c; simpl; lia). lia.
      * rewrite Hl. lia.
Qed.
End counting.

Section park.
Context `{tgt : Target} {T : Type} (cb : T → bool) (capacity : Z).
Hypothesis Hpos : 0 < capacity.
Hypothesis Hmax : capacity ≤ usize_max.
Hypothesis Hpow : is_power_of_two capacity = true.
Hypothesis Hcalm : ∀ v, cb v = true.

Abbreviation sh := (shared capacity Park).
Abbreviation Hok := (mpsc_shared_ok capacity Park Hpos Hmax Hpow).
Abbreviation conf := (config T handle (call T) (event T)).
Abbreviation mthread := (thread T handle (call T) (event T)).
Abbreviation mem1 := (mem1 (T := T) capacity Park).
Implicit Types (m : mem T) (g : conf) (th : mthread) (G : glob T).

(** ** The start of a run *)

Lemma alloc_hist_zero r init (H : gmap loc (gmap nat msg)) :
  (∀ l h t, H !! l = Some h → is_Some (h !! t) → t = 0%nat) →
  ∀ l h t, alloc_hist r init H !! l = Some h → is_Some (h !! t) → t = 0%nat.
Proof using Type.
  intros HH. induction init as [|[f v] init IH]; [done|]. intros l h t. simpl.
  intros [[_ <-]|[_ Hl]]%lookup_insert_Some; [|by eapply IH]. by intros [x [-> _]%one_store].
Qed.

Lemma stored_zero l t : l ≠ counts capacity Park → stored mem1 l t → t = 0%nat.
Proof using Type.
  intros Hl Hs. unfold MpscRuns.mem1 in Hs. apply stored_add_other in Hs; [|done].
  destruct Hs as (h & Hh & Ht). refine (alloc_hist_zero _ _ ∅ _ l h t Hh Ht). by intros.
Qed.

Section stage.
Context {W : Type} `{!Stages T W}.

Definition stage0 : ent W (call T) (event T) := Ent (calm 0) (view1 capacity Park) [] None.
Abbreviation stages limit := (stages_ok (known sh limit) watch dozing (ready_at (T := T)) (gone_at (T := T)) (left_at (T := T))).

Lemma mpsc_initial_stages limit : watch [stage0; stage0] mem1 → stages limit [stage0; stage0] (initial capacity Park).
Proof using Type.
  intros HW. split; [done|done|].
  intros [|[|]] th e; simpl; [| |done]; intros [= <-] [= <-]; (split; [done|]); (split; [done|]); (split; [done|]).
  - unfold ready_at. by rewrite decide_False.
  - by exists 0.
Qed.

(** At the end of a run a protocol of the park strategy holds, too. *)
Lemma run_protocol s g :
  Protocol sh (calls s) W → 2 * (calls s + 2) ≤ MAX_REFCOUNT → watch [stage0; stage0] mem1 →
  runs_to cb capacity Park s g →
  ∃ G Γ Δ, mrun_ok capacity Park (calls s) G Γ g ∧ stages (calls s) Δ g.
Proof using Hpos Hmax Hpow Hcalm.
  intros HP Hs HW (g0 & Hg0 & Hrun). rewrite (mpsc_launch_eq capacity Park Hpos Hmax Hpow) in Hg0. injection Hg0 as <-.
  assert (0 ≤ calls s) by (unfold calls; lia).
  destruct (track_adequacy (start cb) (MInvs sh (calls s)) (ready_ok sh) gone_ok (post cb sh)
    (known sh (calls s)) watch dozing ready_at gone_at left_at (calls s)
    (mpsc_start_ok cb sh Hok (calls s) Hs) (mpsc_finish_ok cb sh Hok (calls s)) (λ Γ m HI, ex_intro _ Γ HI)
    (mpsc_track_start cb sh (calls s) Hok eq_refl HP) (mpsc_track_leave cb sh (calls s) HP Hcalm)
    [entry0 capacity Park; entry0 capacity Park] [stage0; stage0] (initial capacity Park) 0 s)
    as (Γ & Δ & g' & Hrun' & Hc & Hst);
    [by apply mpsc_initial_ok|by apply mpsc_initial_stages|simpl; unfold weight; simpl; lia|lia|].
  rewrite Hrun in Hrun'. injection Hrun' as <-.
  destruct (conf_mrun _ _ _ _ _ _ Hc) as [G HG]. by exists G, Γ, Δ.
Qed.

(** Blocked with no token, or between calls. *)
Definition settled (i : tid) th m : Prop := asleep i th m = true ∨ busy th = None.

(** The stage of such a thread. *)
Lemma settled_stage limit Δ g i th :
  stages limit Δ g → pool g !! i = Some th → stat th ≠ Panicking → settled i th (cmem g) →
  ∃ w V cur, Δ !! i = Some (Ent w V (trace th) cur) ∧
    ((∃ c, busy th = Some c ∧ dozing i (trace th) c w ∧ mtokens (cmem g) !! i = None) ∨
     (∃ h, stat th = Ready h ∧ ready_at i h w) ∨ stat th = Exited ∧ gone_at i w).
Proof using Type.
  intros Hst Hi Hp Hs. destruct (stages_entry _ _ _ _ _ _ _ _ _ _ Hst Hi) as (w & cur & HD & _ & _ & Hstage).
  exists w, (tvw th), cur. split; [done|]. unfold settled, asleep, busy in *.
  destruct (stat th) as [h|c p| | |] eqn:Hth; simpl in Hstage; try naive_solver.
  left. destruct Hs as [Hs|]; [|done]. exists c. split; [done|].
  destruct (blocked_stage _ _ _ _ _ _ _ _ _ _ c p Hst Hi Hth) as (w' & HD' & Hd); [by destruct p|].
  rewrite HD in HD'. injection HD' as <- _. split; [done|]. destruct p; try done. by apply bool_decide_eq_true in Hs.
Qed.
End stage.

(** ** Both protocols at the start *)

Lemma head_zero : head_at sh 0 mem1.
Proof using Type.
  intros h Hh. rewrite (mpsc_hist1 capacity Park Head 0) in Hh by (done || by rewrite initial_skip).
  injection Hh as <-. split; [by intros t x [_ ->]%one_store|].
  exists 0%nat, (Msg 0 ∅). by rewrite lookup_singleton_eq.
Qed.

Abbreviation start_rx := (Ent (Rxw Calm 0) (view1 capacity Park) [] None).
Abbreviation start_tx := (Ent (Txw Easy false) (view1 capacity Park) [] None).

Lemma initial_watch_rx : MpscRxWait.Watch sh [start_rx; start_rx] mem1.
Proof using Type.
  split.
  - exists start_rx. split_and!; [done|done|apply head_zero].
  - intros e t He ->%stored_zero; [|done]. left. lia.
  - intros j t ->%stored_zero; [|done]. left. lia.
  - intros h t x Hh Ht _. assert (t = 0%nat) as ->; [|left; lia].
    apply (stored_zero (senders sh)); [done|]. exists h. split; [done|by eexists].
  - by intros q Hq%stored_zero.
Qed.

Lemma initial_watch_tx : Lookout sh [start_tx; start_tx] mem1.
Proof using Type.
  split. exists start_tx. split_and!; [done|..].
  - intros l t Hl ->%stored_zero; [split; [|left]; lia|]. by destruct Hl as [-> | ->].
  - intros h t x Hh Ht _. left. assert (t = 0%nat) as ->; [|lia].
    apply (stored_zero (wf sh)); [done|]. exists h. split; [done|by eexists].
  - intros h Hh. split; [|done]. intros t x Ht Hne. destruct Hne.
    apply (stored_zero (rx_dropped sh)); [done|]. exists h. split; [done|by eexists].
  - by intros [|[|]] e Hj; simpl; [intros [= <-]..|].
Qed.

(** ** What the logic adds *)

(** The head recorded by the receiver's protocol is the one published. *)
Lemma head_npub G m n : mem_ok sh G m → head_at sh n m → n = Z.of_nat (npub G).
Proof using Type.
  intros HM Hn. destruct (mo_head _ _ _ HM) as (h & Hh & Hv & t & x & Ht & Hx & _).
  destruct (Hn h Hh) as [Hle (t' & x' & Ht' & Hx')].
  destruct (Hv t' x' Ht') as (k & Hk & Hkn & _). specialize (Hle t x Ht). lia.
Qed.

(** A thread in the middle of a call that does not drop its handle. *)
Lemma block_open limit G Γ g i th c :
  mrun_ok capacity Park limit G Γ g → pool g !! i = Some th → busy th = Some c → drops c = false →
  mem_ok sh G (cmem g).
Proof using Type.
  intros Hrun Hi Hb Hd. destruct (mr_threads _ _ _ _ _ _ Hrun _ _ Hi) as (e & He & Ha).
  pose proof (mr_inv _ _ _ _ _ _ Hrun) as HI. destruct (mi_local _ _ _ _ _ HI _ _ He) as [Hc _ _].
  apply (go_mem _ _ _ _ (mi_glob _ _ _ _ _ HI)). apply (lc_freed _ _ _ _ _ Hc).
  by rewrite (ta_open _ _ Ha c Hb Hd).
Qed.

(** Rounds of claimed tickets are not the initial one. *)
Lemma round_claimed q : 2 * (Z.of_nat q + 2) ≤ MAX_REFCOUNT → round_of sh (Z.of_nat q) ≠ -1.
Proof using Hpos Hmax Hpow.
  intros Hq. rewrite (MpscSeq.round_of_div sh Hok) by lia. pose proof usize_modulus_le.
  pose proof (Z.mul_div_le usize_modulus 2 ltac:(lia)). unfold MAX_REFCOUNT in *.
  pose proof (Z.div_pos (Z.of_nat q) capacity ltac:(lia) Hpos).
  pose proof (Z.div_le_upper_bound (Z.of_nat q) capacity (Z.of_nat q) Hpos ltac:(nia)).
  rewrite as_i64_small; simpl; lia.
Qed.

(** Slot [sl q] was seen in its newest round, which is not that of [q], the
    next ticket to receive: then [q] is not claimed, if what is claimed is
    published. *)
Lemma nothing_claimed limit G Γ m tc v :
  MInv sh limit G Γ m → mem_ok sh G m → 2 * (limit + 2) ≤ MAX_REFCOUNT →
  (∀ q, stored m (claim sh) (S q) → sent sh q m) →
  latest m (slot_round sh (sl sh (npub G))) tc → loaded m (slot_round sh (sl sh (npub G))) tc (Some v) →
  v ≠ round_of sh (Z.of_nat (npub G)) → ntk G = npub G.
Proof using Hpos Hmax Hpow.
  intros HI HM Hlim Hsent Hlate Hload Hv. set (q := npub G) in *. pose proof (mi_glob _ _ _ _ _ HI) as HG.
  pose proof (go_pub _ _ _ _ HG). pose proof (go_left _ _ _ _ HG). pose proof (go_max _ _ _ _ HG).
  pose proof (go_room _ _ _ _ HG). pose proof (tickets_le _ _ _ _ _ HI) as Hle.
  destruct (decide (ntk G = q)) as [|Hne]; [done|exfalso].
  assert (q < ntk G)%nat as Hlt by (unfold q in *; lia).
  destruct (mo_claim _ _ _ HM) as (hc & Hhc & Hdc & _).
  destruct (Hsent q) as (h & t & x & Hh & Ht & Hx). { exists hc. split; [done|]. apply Hdc. lia. }
  destruct (mo_round _ _ _ HM (sl sh q) (sl_lt sh Hok q)) as (h' & Hh' & _ & Hval & _).
  rewrite Hh in Hh'. injection Hh' as <-.
  destruct (Hload v h eq_refl Hh) as (y & Hy & Hyv).
  assert (t ≤ tc)%nat as Htc by (apply Hlate; exists h; split; [done|by eexists]).
  destruct (Hval t x Ht) as [[_ Hx']|(q1 & tk1 & Hs1 & Hq1 & Hst1 & Hx1 & _)].
  { rewrite Hx in Hx'. by destruct (round_claimed q ltac:(lia)). }
  assert (q1 = q) as ->.
  { pose proof (lookup_lt_Some _ _ _ Hq1). unfold ntk in *. apply (round_same sh Hok); [lia|lia|done|congruence]. }
  pose proof (go_first _ _ _ _ HG _ _ _ Hq1 Hst1) as Hpos1.
  destruct (Hval tc y Hy) as [[-> _]|(q2 & tk2 & Hs2 & Hq2 & Hst2 & Hy2 & _)]; [lia|].
  assert (q2 ≠ q) as Hq by congruence.
  pose proof (lookup_lt_Some _ _ _ Hq2) as Hlt2. unfold ntk in *.
  destruct (decide (q2 < q)%nat) as [Hlow|Hhigh].
  - pose proof (go_order _ _ _ _ HG _ _ _ _ _ _ Hlow Hs2 Hq2 Hq1 Hst2 Hst1). lia.
  - pose proof (sl_far sh Hok q q2 (eq_sym Hs2) ltac:(lia)). unfold q in *. lia.
Qed.

(** Some sender is still counted. *)
Lemma somebody_left limit G Γ g td z :
  mrun_ok capacity Park limit G Γ g → mem_ok sh G (cmem g) →
  zeros_by (cmem g) (senders sh) td → loaded (cmem g) (senders sh) td (Some z) → z ≠ 0 →
  ∃ i th, i ≠ rx ∧ pool g !! i = Some th ∧ stat th ≠ Exited.
Proof using Type.
  intros Hrun HM Hzero Hload Hz. pose proof (mr_inv _ _ _ _ _ _ Hrun) as HI. pose proof (mi_glob _ _ _ _ _ HI) as HG.
  destruct (mo_senders _ _ _ HM) as (h & Hh & n & x & Hd & Hx & Hv & _).
  destruct (set_choose_or_empty (live G)) as [[i Hi]|Hnil].
  - assert (i < length Γ)%nat as Hlt by (apply (go_holding _ _ _ _ HG), (go_live _ _ _ _ HG), Hi).
    destruct (lookup_lt_is_Some_2 (pool g) i) as [th Hth]; [by rewrite <-(mr_len _ _ _ _ _ _ Hrun)|].
    destruct (mr_threads _ _ _ _ _ _ Hrun _ _ Hth) as (e & He & Ha).
    destruct (mi_local _ _ _ _ _ HI _ _ He) as [Hc _ _]. apply (lc_live _ _ _ _ _ Hc) in Hi as [Hne Hph].
    exists i, th. split_and!; [done..|]. intros Hex. apply (ta_exited _ _ Ha) in Hex. congruence.
  - apply leibniz_equiv in Hnil. pose proof (go_cloning _ _ _ _ HG) as Hcl. rewrite Hnil in *.
    assert (cloning G = ∅) as Hcn by set_solver +Hcl. rewrite Hcn, size_empty in Hv. simpl in Hv.
    destruct (Hload z h eq_refl Hh) as (y & Hy & <-). assert (n ≤ td)%nat by (by eapply Hzero).
    assert (td ≤ n)%nat by (apply Hd; by eexists). assert (td = n) as -> by lia.
    assert (y = x) as -> by congruence. lia.
Qed.

(** ** The receiver sleeps *)

Ltac not_calm := let H := fresh in let Hc := fresh in
  intros ? H Hc; simpl in H; rewrite Hc in H; clear - H; intuition discriminate.

Abbreviation stages_of S limit := (stages_ok (known sh limit) (watch (T := T) (Stages := S)) (dozing (T := T) (Stages := S))
  (ready_at (T := T) (Stages0 := S)) (gone_at (T := T) (Stages0 := S)) (left_at (T := T) (Stages0 := S))).
Abbreviation rx_run limit := (stages_of (rx_stages sh) limit).
Abbreviation tx_run limit := (stages_of (wl_stages sh) limit).

(** A settled sender has nothing to do with the receiver's sleep. *)
Lemma sender_calm limit Δ g i th :
  rx_run limit Δ g → pool g !! i = Some th → i ≠ rx → stat th ≠ Panicking → settled i th (cmem g) →
  ∃ e, Δ !! i = Some e ∧ rduty (eg e) = Calm.
Proof using Type.
  intros Hst Hi Hne Hp Hs. destruct (settled_stage _ _ _ _ _ Hst Hi Hp Hs) as (w & V & cur & HD & Hw).
  eexists. split; [exact HD|]. simpl. destruct Hw as [(c & _ & Hd & _)|[(h & _ & Hr)|[_ Hg]]].
  - simpl in Hd. unfold rx_dozing in Hd. rewrite decide_False in Hd by done. by subst w.
  - unfold ready_at in Hr. rewrite decide_False in Hr by done. by subst w.
  - unfold gone_at in Hg. rewrite decide_False in Hg by done. by subst w.
Qed.

Lemma receiver_sleeps limit G Γ Δ g tR :
  mrun_ok capacity Park limit G Γ g → rx_run limit Δ g → 2 * (limit + 2) ≤ MAX_REFCOUNT →
  pool g !! rx = Some tR → asleep rx tR (cmem g) = true →
  npub G = length (received (trace tR)) ∧
  ((∀ i th, i ≠ rx → pool g !! i = Some th → settled i th (cmem g)) →
    ntk G = npub G ∧ ∃ i th, i ≠ rx ∧ pool g !! i = Some th ∧ stat th ≠ Exited).
Proof using Hpos Hmax Hpow.
  intros Hrun Hst Hlim HR Hsl.
  assert (Hfine : ∀ i th, pool g !! i = Some th → stat th ≠ Panicking).
  { intros i th Hi. destruct (mr_threads _ _ _ _ _ _ Hrun _ _ Hi) as (e & _ & Ha). apply Ha. }
  destruct (settled_stage _ _ _ _ _ Hst HR (Hfine _ _ HR) (or_introl Hsl)) as (w & V & cur & HD & Hw).
  destruct Hw as [(c & Hb & Hd & Htok)|[(h & Hh & _)|[Hh _]]];
    [|by unfold asleep in Hsl; rewrite Hh in Hsl..].
  simpl in Hd. unfold rx_dozing in Hd. rewrite decide_True in Hd by done.
  destruct Hd as (Hd & Hpub & p & tc & v & td & z & Hdu & Hv & Hz).
  pose proof (block_open _ _ _ _ _ _ _ Hrun HR Hb Hd) as HM.
  pose proof (so_inv _ _ _ _ _ _ _ _ Hst) as HW. simpl in HW.
  destruct (Watch_rx _ _ _ _ HW HD) as (HWt & Hhead & _). simpl in Hhead. rewrite Hpub in Hhead.
  apply (head_npub _ _ _ HM) in Hhead. assert (npub G = length (received (trace tR))) as Hn by lia.
  split; [done|]. intros Hset.
  assert (Hcalm' : ∀ (P : ent rxw (call T) (event T) → Prop), (∀ e, P e → rduty (eg e) ≠ Calm) → ¬ some_tx P Δ).
  { intros P HP (j & e & Hj & He & Hpe). destruct (lookup_lt_is_Some_2 (pool g) j) as [th Hth].
    { rewrite <-(so_len _ _ _ _ _ _ _ _ Hst). by eapply lookup_lt_Some. }
    destruct (sender_calm _ _ _ _ _ Hst Hth Hj (Hfine _ _ Hth) (Hset _ _ Hj Hth)) as (e' & He' & Hc).
    rewrite He in He'. injection He' as <-. by apply (HP e). }
  unfold wait_ok in HWt. simpl in HWt. rewrite Hdu in HWt. destruct HWt as (_ & [Hn1 Hn2] & [Ha|[_ [[Hr He]|Ho]]]).
  - exfalso. destruct Ha as [[X HX]|[Ha|[_ Ha]]]; [congruence|..];
      (eapply Hcalm'; [|exact Ha]); not_calm.
  - rewrite <-Hn in *. split.
    + eapply nothing_claimed; [apply Hrun|exact HM|exact Hlim| |exact Hr|by eapply Hn1|exact Hv].
      intros q Hq. destruct (wa_claims _ _ _ HW q Hq) as [|Ha]; [done|].
      exfalso. eapply Hcalm'; [|exact Ha]. not_calm.
    + eapply somebody_left; [exact Hrun|exact HM|exact He|by eapply Hn2|exact Hz].
  - exfalso. eapply Hcalm'; [|exact Ho]. not_calm.
Qed.

(** ** A sender sleeps *)

(** A settled receiver has woken whoever it was to wake. *)
Lemma receiver_easy limit Δ g th :
  tx_run limit Δ g → pool g !! rx = Some th → stat th ≠ Panicking → settled rx th (cmem g) →
  ∃ er, Δ !! rx = Some er ∧ tpace (eg er) = Easy ∧ (stat th = Exited → tclosed (eg er) = true).
Proof using Type.
  intros Hst Hi Hp Hs. destruct (settled_stage _ _ _ _ _ Hst Hi Hp Hs) as (w & V & cur & HD & Hw).
  eexists. split; [exact HD|]. simpl. destruct Hw as [(c & Hb & Hd & _)|[(h & Hh & Hr)|[Hx Hg]]].
  - simpl in Hd. unfold tx_dozing in Hd. rewrite decide_True in Hd by done. subst w. split; [done|].
    intros Hx. unfold busy in Hb. by rewrite Hx in Hb.
  - unfold ready_at in Hr. rewrite decide_True in Hr by done. destruct Hr as [n ->]. split; [done|]. congruence.
  - unfold gone_at in Hg. rewrite decide_True in Hg by done. by destruct Hg as [n ->].
Qed.

Lemma sender_sleeps limit G Γ Δ g i th tR :
  mrun_ok capacity Park limit G Γ g → tx_run limit Δ g → 2 * (limit + 2) ≤ MAX_REFCOUNT →
  i ≠ rx → pool g !! i = Some th → asleep i th (cmem g) = true →
  pool g !! rx = Some tR → settled rx tR (cmem g) →
  Z.of_nat (ntk G) = Z.of_nat (npub G) + capacity ∧ stat tR ≠ Exited.
Proof using Hpos Hmax Hpow.
  intros Hrun Hst Hlim Hne Hi Hsl HR Hset.
  assert (Hfine : ∀ i th, pool g !! i = Some th → stat th ≠ Panicking).
  { intros j th' Hj. destruct (mr_threads _ _ _ _ _ _ Hrun _ _ Hj) as (e & _ & Ha). apply Ha. }
  destruct (settled_stage _ _ _ _ _ Hst Hi (Hfine _ _ Hi) (or_introl Hsl)) as (w & V & cur & HD & Hw).
  destruct Hw as [(c & Hb & Hd & Htok)|[(h & Hh & _)|[Hh _]]];
    [|by unfold asleep in Hsl; rewrite Hh in Hsl..].
  simpl in Hd. unfold tx_dozing in Hd. rewrite decide_False in Hd by done.
  destruct Hd as (Hd & a & vc & th0 & vh & td & -> & Hfull).
  pose proof (block_open _ _ _ _ _ _ _ Hrun Hi Hb Hd) as HM.
  destruct (receiver_easy _ _ _ _ Hst HR (Hfine _ _ HR) Hset) as (er & Her & Heasy & Hclosed).
  pose proof (so_inv _ _ _ _ _ _ _ _ Hst) as HW. simpl in HW.
  destruct (lk_rx _ _ _ HW) as (er' & Her' & _ & _ & HS & HT). rewrite Her in Her'. injection Her' as <-.
  specialize (HT i _ Hne HD). unfold tx_ok in HT. simpl in HT. destruct HT as (_ & (Hc & Hhd & Hgd) & HT).
  assert (newest (Ent (Txw Easy false) V (trace th) cur) (head sh) (Some (th0, vh)) (cmem g) ∧
    newest (Ent (Txw Easy false) V (trace th) cur) (rx_dropped sh) (Some (td, 0)) (cmem g)) as [Hlh Hld].
  { destruct HT as [[[X HX]|Hr]|[_ [HT|[Hp|[Hp _]]]]]; [congruence|by rewrite Heasy in Hr|exact HT|congruence..]. }
  unfold newest in Hlh, Hld. pose proof (mr_inv _ _ _ _ _ _ Hrun) as HI. pose proof (mi_glob _ _ _ _ _ HI) as HG.
  split.
  - destruct (mo_head _ _ _ HM) as (h & Hh & _ & n & x & Hx & Hv & Hn).
    destruct (Hhd _ _ eq_refl vh h eq_refl Hh) as (y & Hy & Hyv).
    assert (n ≤ th0)%nat by (apply Hlh; exists h; split; [done|by eexists]).
    assert (th0 ≤ n)%nat by (apply Hn; by eexists). assert (th0 = n) as -> by lia.
    assert (vh = Z.of_nat (npub G)) as -> by congruence.
    destruct (mo_claim _ _ _ HM) as (hc & Hhc & Hdc & Hvc).
    destruct (Hc vc eq_refl) as [t Ht]. destruct (Ht vc hc eq_refl Hhc) as (z & Hz & Hzv).
    rewrite (Hvc _ _ Hz) in Hzv. assert (t ≤ ntk G)%nat by (apply Hdc; by eexists).
    pose proof (go_room _ _ _ _ HG) as Hroom. pose proof (tickets_le _ _ _ _ _ HI).
    pose proof (limit_small limit Hlim). unfold saturating_add, capn in *. simpl in *. lia.
  - intros Hx. destruct (mo_gone _ _ _ HM) as (h & Hh & _). destruct (HS h Hh) as [Hnz Hex].
    destruct (Hex (Hclosed Hx)) as (t & Ht0 & Ht).
    assert (t ≤ td)%nat by (apply Hld; exists h; split; [done|done]).
    destruct (Hgd _ _ eq_refl 0 h eq_refl Hh) as (y & Hy & Hy0). apply (Hnz td y Hy); [lia|done].
Qed.

(** What the receiver published is what it was given, when it is settled. *)
Lemma settled_npub limit G Γ Δ g tR :
  mrun_ok capacity Park limit G Γ g → rx_run limit Δ g → 2 * (limit + 2) ≤ MAX_REFCOUNT →
  pool g !! rx = Some tR → settled rx tR (cmem g) → stat tR ≠ Exited →
  npub G = length (received (trace tR)).
Proof using Hpos Hmax Hpow.
  intros Hrun Hst Hlim HR [Hsl|Hb] Hx; [by eapply receiver_sleeps|].
  destruct (mr_threads _ _ _ _ _ _ Hrun _ _ HR) as (e & He & Ha).
  destruct (mrun_receiver _ _ _ _ _ _ _ Hrun HR) as (e' & Ha' & _ & Hr & _ & Hv & _).
  destruct (mi_local _ _ _ _ _ (mr_inv _ _ _ _ _ _ Hrun) _ _ He) as [_ Hr2 Hl].
  unfold log_ok in Hl. rewrite (ta_cur _ _ Ha), (ta_trace _ _ Ha), Hb in Hl. destruct Hl as [Hl _].
  assert (∃ h, stat tR = Ready h) as [h Hh].
  { pose proof (ta_fine _ _ Ha). unfold busy in Hb. destruct (stat tR); try done. by eexists. }
  rewrite <-Hl, <-(mr_told _ _ _ _ _ _ Hrun _ _ _ He HR Hh). symmetry. apply (lr_pub _ _ _ _ Hr2).
Qed.

(** ** The theorem *)

(** C9. No wakeup of the MPSC ring is lost. Under [WaitStrategy::Park],
    wherever a schedule of the receiver and any number of senders leads (stale
    reads, spurious unparks and failures included), as long as no callback
    panics, there is one order of all sends such that: the receiver sleeps in
    [recv] while every sender sleeps or is between calls only if everything
    sent was received and some sender is alive; a sender sleeps in [send] while
    the receiver sleeps or is between calls only if the ring is full and the
    receiver is alive; and when all are settled they do not both sleep. *)
Theorem mpsc_no_lost_wakeup s g tR :
  2 * (calls s + 2) ≤ MAX_REFCOUNT → runs_to cb capacity Park s g → pool g !! rx = Some tR →
  ∃ log, explains log g ∧
    (asleep rx tR (cmem g) = true →
     (∀ i th, i ≠ rx → pool g !! i = Some th → settled i th (cmem g)) →
     received (trace tR) = log.*2 ∧ ∃ i th, i ≠ rx ∧ pool g !! i = Some th ∧ stat th ≠ Exited) ∧
    (∀ i th, i ≠ rx → pool g !! i = Some th → asleep i th (cmem g) = true → settled rx tR (cmem g) →
     Z.of_nat (length log) = Z.of_nat (length (received (trace tR))) + capacity ∧ stat tR ≠ Exited) ∧
    ((∀ i th, pool g !! i = Some th → settled i th (cmem g)) →
     ∀ i th, i ≠ rx → pool g !! i = Some th → ¬ (asleep i th (cmem g) = true ∧ asleep rx tR (cmem g) = true)).
Proof using Hpos Hmax Hpow Hcalm.
  intros Hs Hrun HR.
  destruct (run_protocol (Stages0 := wl_stages sh) s g (wl_protocol sh (calls s) eq_refl) Hs initial_watch_tx Hrun)
    as (_ & _ & Δ2 & _ & Htx).
  destruct (run_protocol (Stages0 := rx_stages sh) s g (rx_protocol sh (calls s) Hok eq_refl Hs) Hs initial_watch_rx Hrun)
    as (G & Γ & Δ1 & Hm & Hrx).
  pose proof (log_explains _ _ _ _ _ _ Hm) as Hlog. exists (log_of G). split; [done|].
  assert (length (log_of G) = ntk G) as Hlen by (unfold log_of; by rewrite length_fmap).
  assert (Hrecv : asleep rx tR (cmem g) = true →
    (∀ i th, i ≠ rx → pool g !! i = Some th → settled i th (cmem g)) →
    received (trace tR) = (log_of G).*2 ∧ ∃ i th, i ≠ rx ∧ pool g !! i = Some th ∧ stat th ≠ Exited).
  { intros Hsl Hset. destruct (receiver_sleeps _ _ _ _ _ _ Hm Hrx Hs HR Hsl) as [Hn Hrest].
    destruct (Hrest Hset) as [Ht He]. split; [|done]. apply prefix_length_eq; [by apply (ex_received _ _ Hlog)|].
    rewrite length_fmap. lia. }
  assert (Hsend : ∀ i th, i ≠ rx → pool g !! i = Some th → asleep i th (cmem g) = true → settled rx tR (cmem g) →
    Z.of_nat (length (log_of G)) = Z.of_nat (length (received (trace tR))) + capacity ∧ stat tR ≠ Exited).
  { intros i th Hne Hi Hsl Hset.
    destruct (sender_sleeps _ _ _ _ _ _ _ _ Hm Htx Hs Hne Hi Hsl HR Hset) as [Hfull Hx]. split; [|done].
    rewrite Hlen, Hfull. by rewrite (settled_npub _ _ _ _ _ _ Hm Hrx Hs HR Hset Hx). }
  split_and!; [done|done|]. intros Hall i th Hne Hi [Hsi Hsr].
  destruct Hrecv as [Heq _]; [done|by auto|]. destruct (Hsend i th) as [Hfull _]; [done..|by left|].
  apply (f_equal length) in Heq. rewrite length_fmap in Heq. lia.
Qed.
End park.

(** ** Concrete runs *)

Definition mpsc_calm_cb (_ : Z) : bool := true.
Definition mpsc_calm_run (css : list (list (tid * call Z))) : list (choice (call Z)) :=
  match launch 2 Park with Some g0 => rounds (start mpsc_calm_cb) css g0 | None => [] end.

(** Thread 0 clones its sender for thread 2. Then the receiver goes to sleep on
    the ring it has emptied; or both senders go to sleep on the full one. *)
Definition mpsc_sleepy_receiver : list (list (tid * call Z)) :=
  [[(0%nat, CClone)]; [(0%nat, CTrySend 4 1); (2%nat, CTrySend 4 10)];
   [(1%nat, CRecv 5)]; [(1%nat, CRecv 5)]; [(1%nat, CRecv 5)]].
Definition mpsc_sleepy_senders : list (list (tid * call Z)) :=
  [[(0%nat, CClone)]; [(0%nat, CTrySend 4 1)]; [(0%nat, CTrySend 4 2)];
   [(0%nat, CSend 5 4 3)]; [(2%nat, CSend 5 4 10)]].

Definition all_settled (p : list demo_thread) (m : mem Z) : bool :=
  forallb (λ x, asleep x.1 x.2 m || at_rest x.2) (imap pair p).

Lemma all_settled_spec p m i th : all_settled p m = true → p !! i = Some th → settled i th m.
Proof.
  unfold all_settled. rewrite forallb_forall. intros Ha Hi.
  assert (asleep i th m || at_rest th = true) as Hx.
  { apply (Ha (i, th)), list_elem_of_In, elem_of_lookup_imap. by exists i, th. }
  apply orb_true_iff in Hx as [?|?]; [by left|right; by apply at_rest_busy].
Qed.

(** Evaluate an observation of a run. *)
Definition mpsc_calm_look {A} (css : list (list (tid * call Z))) (f : list demo_thread → mem Z → A) : option A :=
  match launch 2 Park with
  | Some g0 =>
      match exec (start mpsc_calm_cb) (mpsc_calm_run css) g0 with inr g => Some (f (pool g) (cmem g)) | _ => None end
  | None => None
  end.

Lemma mpsc_calm_pool {A} css (f : list demo_thread → mem Z → A) x :
  mpsc_calm_look css f = Some x →
  ∃ g, runs_to mpsc_calm_cb 2 Park (mpsc_calm_run css) g ∧ f (pool g) (cmem g) = x.
Proof.
  unfold mpsc_calm_look. destruct (launch 2 Park) as [g0|] eqn:Hg0; [|done].
  destruct (exec _ _ g0) as [|g] eqn:Hrun; [done|]. intros [= <-]. exists g. split; [by exists g0|done].
Qed.

(** Who sleeps, and whether all others are at rest or asleep. *)
Definition sleepers (p : list demo_thread) (m : mem Z) : list bool * bool :=
  (imap (λ i th, asleep i th m) p, all_settled p m).

Lemma mpsc_no_lost_wakeup_witness :
  (∃ g tR log, runs_to mpsc_calm_cb 2 Park (mpsc_calm_run mpsc_sleepy_receiver) g ∧
     pool g !! rx = Some tR ∧ sleepers (pool g) (cmem g) = ([false; true; false], true) ∧
     explains log g ∧ received (trace tR) = log.*2 ∧
     ∃ i th, i ≠ rx ∧ pool g !! i = Some th ∧ stat th ≠ Exited) ∧
  (∃ g tR log, runs_to mpsc_calm_cb 2 Park (mpsc_calm_run mpsc_sleepy_senders) g ∧
     pool g !! rx = Some tR ∧ sleepers (pool g) (cmem g) = ([true; false; true], true) ∧
     explains log g ∧ Z.of_nat (length log) = Z.of_nat (length (received (trace tR))) + 2 ∧
     stat tR ≠ Exited).
Proof.
  split.
  - destruct (mpsc_calm_pool mpsc_sleepy_receiver
      (λ p m, (sleepers p m, (λ th, asleep rx th m) <$> (p !! rx))) (([false; true; false], true), Some true))
      as (g & Hrun & [= H1 H2 (tR & HR & Hsl)%fmap_Some]); [by vm_compute|].
    destruct (mpsc_no_lost_wakeup mpsc_calm_cb 2) with (s := mpsc_calm_run mpsc_sleepy_receiver) (g := g) (tR := tR)
      as (log & Hlog & Hrecv & _); [by vm_compute..|exact Hrun|exact HR|].
    exists g, tR, log. split; [exact Hrun|]. split; [exact HR|].
    split; [unfold sleepers; congruence|]. split; [exact Hlog|].
    apply Hrecv; [congruence|]. intros i th _. by apply all_settled_spec.
  - destruct (mpsc_calm_pool mpsc_sleepy_senders
      (λ p m, (sleepers p m, (λ th, asleep 0 th m) <$> (p !! 0%nat), bool_decide (is_Some (p !! rx))))
      (([true; false; true], true), Some true, true))
      as (g & Hrun & [= H1 H2 (t0 & H0 & Hsl)%fmap_Some HR]); [by vm_compute|].
    apply bool_decide_eq_true in HR as [tR HR].
    destruct (mpsc_no_lost_wakeup mpsc_calm_cb 2) with (s := mpsc_calm_run mpsc_sleepy_senders) (g := g) (tR := tR)
      as (log & Hlog & _ & Hsend & _); [by vm_compute..|exact Hrun|exact HR|].
    exists g, tR, log. split; [exact Hrun|]. split; [exact HR|].
    split; [unfold sleepers; congruence|]. split; [exact Hlog|].
    apply (Hsend 0%nat t0); [done|exact H0|congruence|]. by eapply all_settled_spec.
Defined.
