(* ===== verification/Typing.v ===== *)
(** A type system for programs over the shared memory: which values the
    atomics may hold, which kind of location each access may touch, which
    memory orderings the standard library accepts for it, and what may panic. A
    well-typed program keeps the memory well typed under every interleaving and
    every weak-memory outcome. *)
From S2P Require Import Prelude Usize Atomic Seq Memory Machine.
Local Open Scope Z_scope.

Definition is_bit (v : Z) : Prop := v = 0 ∨ v = 1.
Definition is_i64 (v : Z) : Prop := - 2 ^ 63 ≤ v < 2 ^ 63.

(** What excuses a panic: at least an overflow in a build that checks for it. *)
Class Panics `{Target} := {
  may_panic : Prop;
  may_overflow : overflow_checks = true → may_panic;
}.
Definition excused `{Target} (P : Prop) : Panics :=
  {| may_panic := overflow_checks = true ∨ P; may_overflow Ho := or_introl Ho |}.

Section types.
Context `{tgt : Target} {T : Type}.

(** The Rust type of each atomic field; the other fields are no atomics. *)
Definition field_ok (f : field) (v : Z) : Prop :=
  match f with
  | Tail | Head | Claim | Senders | StrongCount => is_usize v
  | Disconnected | RxDropped | Waiting | Parked _ => is_bit v
  | Round _ => is_i64 v
  | Buf _ | ParkerSlot _ | WaiterQueue => False
  end.

Definition is_cell (f : field) : bool := match f with Buf _ => true | _ => false end.
Definition is_slot (f : field) : bool := match f with ParkerSlot _ => true | _ => false end.
Definition is_queue (f : field) : bool := match f with WaiterQueue => true | _ => false end.

(** The orderings that loads, stores and fences do not panic on. *)
Definition load_ordering (o : ordering) : bool :=
  match o with Release | AcqRel => false | _ => true end.
Definition store_ordering (o : ordering) : bool :=
  match o with Acquire | AcqRel => false | _ => true end.
Definition fence_ordering (o : ordering) : bool := negb (bool_decide (o = Relaxed)).

Definition hint_ok (h : hint) : Prop :=
  match h with ParkTimeout d => 0 ≤ d < 2 ^ 64 * 1000000000 | _ => True end.

(** [p] accesses the memory by its types as long as it reads typed values, panics
    with an excuse only, and then returns a result in [Q]. *)
Fixpoint well_typed `{!Panics} {A} (Q : A → Prop) (p : prog T A) : Prop :=
  match p with
  | Ret a => Q a
  | Panicked => may_panic
  | OutOfFuel => True
  | New n init k => Forall (λ x, field_ok x.1 x.2) init ∧ ∀ r, well_typed Q (k r)
  | Load l o k => load_ordering o = true ∧ ∀ v, field_ok (fld l) v → well_typed Q (k v)
  | Store l v o k => store_ordering o = true ∧ field_ok (fld l) v ∧ well_typed Q k
  | Rmw l f o k => ∀ v, field_ok (fld l) v → field_ok (fld l) (f v) ∧ well_typed Q (k v)
  | CasWeak l e n so fo k =>
      load_ordering fo = true ∧ field_ok (fld l) n ∧
      ∀ v, field_ok (fld l) v → well_typed Q (k (inl v)) ∧ well_typed Q (k (inr v))
  | Fence o k => fence_ordering o = true ∧ well_typed Q k
  | WriteCell l _ k => is_cell (fld l) = true ∧ well_typed Q k
  | ReadCell l k => is_cell (fld l) = true ∧ ∀ v, well_typed Q (k v)
  | DropCell l k => is_cell (fld l) = true ∧ well_typed Q k
  | Dealloc _ k => well_typed Q k
  | SetSlot l k => is_slot (fld l) = true ∧ well_typed Q k
  | TakeSlot l k => is_slot (fld l) = true ∧ ∀ t, well_typed Q (k t)
  | PushWaiter l k => is_queue (fld l) = true ∧ well_typed Q k
  | DrainWaiters l k => is_queue (fld l) = true ∧ ∀ ts, well_typed Q (k ts)
  | ParkThread k | Unpark _ k => well_typed Q k
  | Hint h k => hint_ok h ∧ well_typed Q k
  end.

Lemma wt_mono `{!Panics} {A} (P Q : A → Prop) (p : prog T A) :
  well_typed P p → (∀ a, P a → Q a) → well_typed Q p.
Proof.
  intros Hp HPQ. induction p; simpl in *; naive_solver.
Qed.

Lemma wt_bind `{!Panics} {A B} (P : A → Prop) (Q : B → Prop) (p : prog T A) (f : A → prog T B) :
  well_typed P p → (∀ a, P a → well_typed Q (f a)) → well_typed Q (p ≫= f).
Proof.
  intros Hp Hf. unfold mbind, prog_bind. induction p; simpl in *; naive_solver.
Qed.

(** The memory holds typed values, at locations of the right kind. *)
Record typed_mem (m : mem T) : Prop := {
  tm_hist l h t x : hist m !! l = Some h → h !! t = Some x → field_ok (fld l) (mval x);
  tm_cells l : is_Some (mcells m !! l) → is_cell (fld l) = true;
  tm_slots l : is_Some (mslots m !! l) → is_slot (fld l) = true;
  tm_queues l : is_Some (mqueues m !! l) → is_queue (fld l) = true;
}.

Lemma empty_typed : typed_mem empty_mem.
Proof. split; intros *; simpl; rewrite lookup_empty; [done|by intros []..]. Qed.

(** ** Every kind of update *)

Lemma typed_add_msg l t x m :
  typed_mem m → field_ok (fld l) (mval x) → typed_mem (add_msg l t x m).
Proof.
  intros [] Hx. split; try done. intros l' h t' x'. simpl.
  destruct (decide (l = l')) as [<-|]; [|rewrite lookup_insert_ne by done; eauto].
  rewrite lookup_insert_eq. intros [= <-] Ht.
  destruct (decide (t = t')) as [<-|]; [by rewrite lookup_insert_eq in Ht; simplify_eq|].
  rewrite lookup_insert_ne in Ht by done.
  destruct (hist m !! l) as [h|] eqn:Hh; simpl in Ht; [eauto|by rewrite lookup_empty in Ht].
Qed.

Lemma typed_malloc n init m :
  typed_mem m → Forall (λ x, field_ok x.1 x.2) init → typed_mem (malloc n init m).
Proof.
  intros Hm Hinit. destruct Hm as [Hh Hc Hs Hq]. split; simpl; try done.
  - induction Hinit as [|[f v] init Hv _ IH]; intros l h t x; simpl; [by eauto|].
    destruct (decide (Loc (nextring m) f = l)) as [<-|];
      [|rewrite lookup_insert_ne by done; eauto].
    rewrite lookup_insert_eq. by intros [= <-] [<- <-]%lookup_singleton_Some.
  - induction n as [|n IH]; intros l; simpl; [by eauto|].
    destruct (decide (Loc (nextring m) (Buf n) = l)) as [<-|]; [done|].
    rewrite lookup_insert_ne by done. eauto.
Qed.

Lemma typed_free r m : typed_mem m → typed_mem (mfree r m).
Proof.
  intros []. split; simpl; try done.
  - intros l h t x [? _]%map_lookup_filter_Some. eauto.
  - intros l [y [? _]%map_lookup_filter_Some]. eauto.
Qed.

Lemma typed_set_cell l x m :
  typed_mem m → is_cell (fld l) = true → typed_mem (set_mcells <[l := x]> m).
Proof.
  intros [] Hl. split; simpl; try done. intros l' [->|[_ ?]]%lookup_insert_is_Some; eauto.
Qed.

Lemma typed_set_slot l x m :
  typed_mem m → is_slot (fld l) = true → typed_mem (set_mslots <[l := x]> m).
Proof.
  intros [] Hl. split; simpl; try done. intros l' [->|[_ ?]]%lookup_insert_is_Some; eauto.
Qed.

Lemma typed_set_queue l x m :
  typed_mem m → is_queue (fld l) = true → typed_mem (set_mqueues <[l := x]> m).
Proof.
  intros [] Hl. split; simpl; try done. intros l' [->|[_ ?]]%lookup_insert_is_Some; eauto.
Qed.

Lemma typed_irrelevant m m' :
  typed_mem m → hist m' = hist m → mcells m' = mcells m → mslots m' = mslots m →
  mqueues m' = mqueues m → typed_mem m'.
Proof. intros [] Hh Hc Hs Hq. split; rewrite ?Hh, ?Hc, ?Hs, ?Hq; done. Qed.

(** ** Soundness *)

(** A step of a well-typed program in a well-typed memory. *)
Lemma step_typed `{!Panics} {A} (Q : A → Prop) i p V m t b p' V' m' :
  typed_mem m → well_typed Q p → step i p V m t b = Next (p', V', m') →
  typed_mem m' ∧ well_typed Q p'.
Proof.
  intros Hm Hp Hstep. destruct p; simpl in *; unfold access, in_block in *; try done;
    repeat (case_match; try done); simplify_eq.
  - destruct Hp. split; auto using typed_malloc.
  - destruct Hp as [_ Hk]. split; [done|]. eapply Hk, tm_hist; eauto.
  - destruct Hp as (_ & Hv & Hk). split; [by apply typed_add_msg|done].
  - edestruct Hp as [Hv Hk]; [by eapply tm_hist|]. split; [by apply typed_add_msg|done].
  - destruct Hp as (_ & Hn & Hk). split; [by apply typed_add_msg|].
    eapply Hk, tm_hist; eauto.
  - destruct Hp as (_ & _ & Hk). split; [done|]. eapply Hk, tm_hist; eauto.
  - destruct Hp. split; [by eapply typed_irrelevant|done].
  - destruct Hp. split; [by apply typed_set_cell|done].
  - destruct Hp. split; [by apply typed_set_cell|done].
  - destruct Hp. split; [|done].
    eapply typed_irrelevant; [by eapply typed_set_cell|done..].
  - split; [by apply typed_free|done].
  - destruct Hp. split; [by apply typed_set_slot|done].
  - destruct Hp. split; [by apply typed_set_slot|done].
  - destruct Hp. split; [by apply typed_set_queue|done].
  - destruct Hp. split; [by apply typed_set_queue|done].
  - split; [by eapply typed_irrelevant|done].
  - done.
  - split; [by eapply typed_irrelevant|done].
  - destruct Hp. done.
Qed.

Lemma lone_run_typed `{!Panics} {A} (Q : A → Prop) fuel i : ∀ (p : prog T A) V m a V' m',
  typed_mem m → well_typed Q p → lone_run fuel i p V m = Some (a, V', m') →
  typed_mem m' ∧ Q a.
Proof.
  induction fuel as [|fuel IH]; intros p V m a V' m' Hm Hp Hrun.
  - destruct p; simplify_eq/=; done.
  - assert (∀ t, match step i p V m t false with
                 | Next (p, V, m) => lone_run fuel i p V m = Some (a, V', m') →
                     typed_mem m' ∧ Q a
                 | _ => True end) as Hnext.
    { intros t. destruct (step i p V m t false) as [[[p1 V1] m1]| |] eqn:Hs; try done.
      destruct (step_typed Q _ _ _ _ _ _ _ _ _ Hm Hp Hs) as [Hm1 Hp1]. by apply IH. }
    specialize (Hnext (lone_pick p m)).
    destruct p; try (by simplify_eq/=); cbn [lone_run] in Hrun;
      destruct (step _ _ _ _ _ _) as [[[p1 V1] m1]| |]; try done; by apply Hnext.
Qed.

(** ** Configurations *)

Context {H C O : Type} (start : C → H → prog T (reply H O)) (handle_ok : H → Prop).
(** What excuses a panic of a call. *)
Context (excuse : C → Panics).
(** What a call must leave: well-typed handles. *)
Definition reply_ok (r : reply H O) : Prop :=
  (∀ h, r.1.1 = Some h → handle_ok h) ∧ Forall handle_ok r.1.2.
Definition call_ok (c : C) : prog T (reply H O) → Prop :=
  @well_typed (excuse c) (reply H O) reply_ok.
Hypothesis start_typed : ∀ c h, handle_ok h → call_ok c (start c h).

Definition typed_thread (th : thread T H C O) : Prop :=
  match stat th with
  | Ready h => handle_ok h
  | Running c p => call_ok c p
  | Panicking => ∃ c, @may_panic _ (excuse c)
  | Exited | Stalled _ => True
  end.

Definition typed_config (g : config T H C O) : Prop :=
  typed_mem (cmem g) ∧ Forall typed_thread (pool g).

Lemma act_typed a g g' : typed_config g → act start a g = Next g' → typed_config g'.
Proof using start_typed.
  intros [Hm Hth] Hact. destruct a as [i c|i t b]; simpl in Hact;
    destruct (pool g !! i) as [th|] eqn:Hi; try done;
    destruct (stat th) as [h|c' p| | |] eqn:Hst; try done;
    assert (typed_thread th) as Hty by (by eapply (Forall_lookup_1 _ _ _ _ Hth));
    unfold typed_thread in Hty; rewrite Hst in Hty.
  - injection Hact as <-. split; [done|]. apply Forall_insert; [done|]. by apply start_typed.
  - unfold call_ok in Hty.
    destruct p as [[[keep new] o]| | | | | | | | | | | | | | | | | | |];
      try (match type of Hact with context [step i ?q ?V ?m t b] =>
             destruct (step i q V m t b) as [[[p1 V1] m1]| |] eqn:Hs; try done;
             destruct (step_typed reply_ok _ _ _ _ _ _ _ _ _ Hm Hty Hs);
             injection Hact as <-; split; [done|by apply Forall_insert]
           end).
    + injection Hact as <-. destruct Hty as [Hkeep Hnew]. split; [done|].
      apply Forall_app; split.
      * apply Forall_insert; [done|]. unfold typed_thread. simpl.
        destruct keep as [h|]; [by apply Hkeep|done].
      * apply Forall_fmap. by eapply Forall_impl.
    + injection Hact as <-. split; [done|]. apply Forall_insert; [done|]. by exists c'.
    + injection Hact as <-. split; [done|by apply Forall_insert].
Qed.

Lemma exec_typed s : ∀ g g', typed_config g → exec start s g = inr g' → typed_config g'.
Proof using start_typed.
  induction s as [|a s IH]; intros g g' Hg Hrun; simpl in Hrun; [by simplify_eq|].
  destruct (act start a g) as [g1| |] eqn:Ha; [|by eauto|done].
  eapply IH; [|done]. by eapply act_typed.
Qed.

(** What a typed configuration says of each of its threads: no call is about
    to panic, and none has, without an excuse; handles are in range. *)
Lemma typed_lookup g th : typed_config g → th ∈ pool g → typed_thread th.
Proof using Type.
  intros [_ Hth] [i Hi]%list_elem_of_lookup. exact (Forall_lookup_1 _ _ _ _ Hth Hi).
Qed.
Lemma typed_about_to_panic g th c :
  typed_config g → th ∈ pool g → stat th = Running c Panicked → @may_panic _ (excuse c).
Proof using Type.
  intros Hg Hin Hs. pose proof (typed_lookup g th Hg Hin) as Ht.
  unfold typed_thread in Ht. by rewrite Hs in Ht.
Qed.
Lemma typed_panicking g th :
  typed_config g → th ∈ pool g → stat th = Panicking → ∃ c, @may_panic _ (excuse c).
Proof using Type.
  intros Hg Hin Hs. pose proof (typed_lookup g th Hg Hin) as Ht.
  unfold typed_thread in Ht. by rewrite Hs in Ht.
Qed.
Lemma typed_ready g th h :
  typed_config g → th ∈ pool g → stat th = Ready h → handle_ok h.
Proof using Type.
  intros Hg Hin Hs. pose proof (typed_lookup g th Hg Hin) as Ht.
  unfold typed_thread in Ht. by rewrite Hs in Ht.
Qed.
End types.
