(* ===== verification/TypedOps.v ===== *)
(** Every operation of the crate is well typed: the primitives, the waiting
    layer, the two rings and the sharded channel. *)
From S2P Require Import Prelude Usize Atomic Errors Wait Notify Seq Memory Machine Typing.
From S2P Require Spsc Mpsc Sharded.
Local Open Scope Z_scope.

(** The typing rules that [wt] applies. *)
Create HintDb typing.

Section primitives.
Context `{tgt : Target, pan : !Panics} {T : Type}.

Lemma wt_true {A} (Q : A → Prop) (p : prog T A) : well_typed Q p → well_typed (λ _, True) p.
Proof. intros Hp. by eapply wt_mono. Qed.

Lemma wt_ret {A} (Q : A → Prop) a : Q a → well_typed Q (mret a : prog T A).
Proof. done. Qed.

Lemma wt_new n init :
  Forall (λ x, field_ok x.1 x.2) init → well_typed (λ _, True) (New n init Ret : prog T nat).
Proof. by split. Qed.

(** The constructors validate their arguments with assertions. *)
Lemma wt_assert_cap cap :
  may_panic → well_typed (λ _, 0 < cap) (assert_cap cap : prog T unit).
Proof. intros. unfold assert_cap. case_match; simpl; [lia|done]. Qed.

Lemma wt_load l o :
  load_ordering o = true → well_typed (field_ok (fld l)) (load l o : prog T Z).
Proof. intros Ho. by split. Qed.

Lemma wt_load_bool l o :
  load_ordering o = true → well_typed (λ _, True) (load_bool l o : prog T bool).
Proof. intros Ho. by split. Qed.

Lemma wt_store l v o :
  store_ordering o = true → field_ok (fld l) v →
  well_typed (λ _, True) (store l v o : prog T unit).
Proof. intros. simpl. by split_and!. Qed.

Lemma bit_b2z b : is_bit (Z.b2z b).
Proof. destruct b; [by right|by left]. Qed.

Lemma wrap_usize x : is_usize (wrap x).
Proof. apply Z.mod_pos_bound, usize_modulus_pos. Qed.

Lemma zero_usize : is_usize 0.
Proof. pose proof usize_modulus_pos. unfold is_usize. lia. Qed.
Lemma one_usize : is_usize 1.
Proof. pose proof usize_modulus_ge. unfold is_usize. lia. Qed.

(** The constructors' mask is below the capacity. *)
Lemma wrapped_mask m cap : 0 < cap → m = wrap (cap - 1) → 0 ≤ m < cap.
Proof.
  intros Hcap ->. pose proof (wrap_usize (cap - 1)) as [? _]. split; [done|].
  pose proof (Z.mod_le (cap - 1) usize_modulus ltac:(lia) usize_modulus_pos).
  unfold wrap. lia.
Qed.

Lemma checked_usize x y : checked x = Some y → is_usize y.
Proof.
  unfold checked. destruct (_ && _); [done|]. intros [= <-]. apply wrap_usize.
Qed.

Lemma as_i64_range x : is_i64 (as_i64 x).
Proof.
  unfold as_i64, is_i64. pose proof (Z.mod_pos_bound x (2 ^ 64) ltac:(lia)). case_bool; lia.
Qed.

Lemma wt_checked x : well_typed (λ y, y = wrap x) (arith (checked x) : prog T Z).
Proof.
  destruct (checked x) eqn:Hx; [by apply checked_Some|]. apply checked_None in Hx as [Ho _].
  by apply may_overflow.
Qed.
Lemma wt_arith x : well_typed is_usize (arith (checked x) : prog T Z).
Proof. eapply wt_mono; [apply wt_checked|]. intros ? ->. apply wrap_usize. Qed.

Lemma wt_u32_mul a b : well_typed (λ _, True) (arith (u32_mul a b) : prog T Z).
Proof.
  unfold u32_mul. destruct overflow_checks eqn:Ho; [|done]. simpl.
  case_match; [by apply may_overflow|done].
Qed.

(** A bounds check in bounds, and the masked one of the rings. *)
Lemma wt_index n i : 0 ≤ i < n → well_typed (λ j, j = Z.to_nat i) (index n i : prog T nat).
Proof. intros Hi. unfold index. by replace ((0 <=? i) && (i <? n)) with true by lia. Qed.

Lemma land_in_range x m : 0 ≤ x → 0 ≤ m → 0 ≤ Z.land x m ≤ m.
Proof.
  intros Hx Hm. apply Z.ldiff_le; [done|]. apply Z.bits_inj'. intros n _.
  rewrite Z.ldiff_spec, Z.land_spec, Z.bits_0. by destruct (Z.testbit x n), (Z.testbit m n).
Qed.

Lemma wt_masked n x m :
  0 ≤ m < n → 0 ≤ x → well_typed (λ _, True) (index n (Z.land x m) : prog T nat).
Proof. intros. eapply wt_true, wt_index. pose proof (land_in_range x m). lia. Qed.
Lemma usize_nonneg x : is_usize x → 0 ≤ x.
Proof. by intros []. Qed.

Lemma wt_write_cell l v :
  is_cell (fld l) = true → well_typed (λ _, True) (write_cell l v : prog T unit).
Proof. by split. Qed.
Lemma wt_read_cell l :
  is_cell (fld l) = true → well_typed (λ _, True) (read_cell l : prog T T).
Proof. by split. Qed.
Lemma wt_drop_cell l :
  is_cell (fld l) = true → well_typed (λ _, True) (drop_cell l : prog T unit).
Proof. by split. Qed.
Lemma wt_fence o :
  fence_ordering o = true → well_typed (λ _, True) (fence o : prog T unit).
Proof. by split. Qed.
Lemma wt_spin : well_typed (λ _, True) (spin_loop : prog T unit).
Proof. done. Qed.

Lemma wt_cas l e n so fo :
  load_ordering fo = true → field_ok (fld l) n →
  well_typed (λ r, match r with inl v | inr v => field_ok (fld l) v end)
    (compare_exchange_weak l e n so fo : prog T (Z + Z)).
Proof. intros. simpl. by split_and!. Qed.

(** The counters that wrap around. *)
Lemma wt_fetch (l : loc) (g : Z → Z) o :
  (∀ v, field_ok (fld l) v = is_usize v) →
  well_typed is_usize (Rmw l (λ v, wrap (g v)) o Ret : prog T Z).
Proof. intros Hl v. rewrite !Hl. intros Hv. split; [apply wrap_usize|done]. Qed.

Lemma wt_Arc_clone r :
  may_panic → well_typed (λ _, True) (Arc_clone (Loc r StrongCount) : prog T unit).
Proof.
  intros. eapply wt_bind; [by apply wt_fetch|]. intros n _. by case_match.
Qed.

Lemma wt_repeat n (p : prog T unit) :
  well_typed (λ _, True) p → well_typed (λ _, True) (repeat_prog n p).
Proof. intros Hp. induction n as [|n IH]; [done|]. eapply wt_bind; [exact Hp|done]. Qed.

(** [src/notify.rs] *)

Lemma wt_wake r s : well_typed (λ _, True) (wake (parker_of r s) : prog T unit).
Proof.
  split; [done|]. intros v _. simpl. destruct (negb (v =? 0)); [|done].
  split_and!; [done|by left|by split; [|intros []]].
Qed.

Lemma wt_prepare_park r s : well_typed (λ _, True) (prepare_park (parker_of r s) : prog T unit).
Proof. simpl. split_and!; try done. by right. Qed.
Lemma wt_cancel r s : well_typed (λ _, True) (cancel (parker_of r s) : prog T unit).
Proof. simpl. split_and!; try done. by left. Qed.
Lemma wt_park r s : well_typed (λ _, True) (Parker_park (parker_of r s) : prog T unit).
Proof. simpl. split_and!; try done. by left. Qed.

Lemma wt_unpark_all ts : well_typed (λ _, True) (unpark_all ts : prog T unit).
Proof. by induction ts. Qed.
Lemma wt_wake_all r : well_typed (λ _, True) (wake_all (waiter_list_of r) : prog T unit).
Proof.
  intros v _. split; [by left|]. simpl. destruct (negb (v =? 0)); [|done].
  split; [done|]. apply wt_unpark_all.
Qed.
Lemma wt_prepare_wait r : well_typed (λ _, True) (prepare_wait (waiter_list_of r) : prog T unit).
Proof. simpl. split_and!; try done. by right. Qed.

(** [src/wait.rs]: the ladder's fields keep to their widths, so no interval is
    ever negative or beyond a [Duration]. *)
Definition idle_ok (l : Idle) : Prop :=
  0 ≤ Wait.step l ≤ u32_max ∧ 0 ≤ park_for l ≤ PARK_MAX.

Lemma idle_ok_start s : idle_ok (for_strategy s).
Proof. unfold idle_ok, u32_max. by vm_compute. Qed.

Lemma wt_idle l : idle_ok l → well_typed idle_ok (idle l : prog T Idle).
Proof.
  intros [Hs Hp]. apply (wt_bind idle_ok).
  - case_bool; [by split|]. destruct (yield_only l || _); [by split|].
    split. { unfold hint_ok, PARK_MAX, from_millis in *. lia. }
    simpl. unfold duration_mul. case_bool.
    + unfold idle_ok. simpl. lia.
    + unfold duration_max, PARK_MAX, from_millis in *. lia.
  - intros l' [Hs' Hp']. unfold idle_ok, u32_saturating_add, u32_max in *. simpl. lia.
Qed.
End primitives.

#[export] Hint Resolve wt_load wt_load_bool wt_store wt_arith wt_masked usize_nonneg wt_write_cell
  wt_read_cell wt_drop_cell wt_fence wt_spin wt_Arc_clone wt_wake wt_prepare_park wt_cancel
  wt_park wt_wake_all wt_prepare_wait wt_idle wt_ret bit_b2z as_i64_range wrap_usize
  idle_ok_start : typing.
#[export] Hint Extern 1 (well_typed _ (arith (usize_add _ _))) => apply wt_arith : typing.
#[export] Hint Extern 1 (well_typed _ (arith (usize_sub _ _))) => apply wt_arith : typing.
#[export] Hint Extern 1 (field_ok _ (Z.b2z _)) => apply bit_b2z : typing.
#[export] Hint Extern 1 (field_ok _ (Mpsc.round_of _ _)) => apply as_i64_range : typing.
#[export] Hint Extern 1 (_ = true) => reflexivity : typing.

(** One access after the other; [lia], [done] or a hint closes what the types
    demand of it. *)
Ltac typing := first [done | solve [eauto 6 with typing]].
Ltac wt :=
  repeat first
    [ progress intros
    | progress cbv beta zeta
    | match goal with
      | x : _ * _ |- _ => destruct x
      | H : _ ∧ _ |- _ => destruct H
      | H : usize_add _ _ = Some _ |- _ => apply checked_usize in H
      | |- _ ∧ _ => split
      | |- well_typed _ (Ret _) => apply wt_ret
      | |- well_typed _ (match ?x with _ => _ end ≫= _) => fail 1
      | |- well_typed _ (match ?x with _ => _ end) => destruct x eqn:?
      | |- well_typed _ (_ ≫= _) => eapply wt_bind; [solve [eauto 6 with typing]|]
      end
    | typing ].

(** ** [src/spsc.rs] *)

Module SpscTyping.
Import Spsc.
Section spsc.
Context `{tgt : Target, pan : !Panics} {T : Type}.

(** The mask selects slots of the buffer. *)
Definition shared_ty (sh : Shared) : Prop := 0 ≤ mask sh < buf_len sh.
Definition sender_ty (sh : Shared) (s : Sender) : Prop :=
  shared_ty sh ∧ s_shared s = sh ∧ is_usize (s_tail s) ∧ is_usize (cached_head s).
Definition receiver_ty (sh : Shared) (r : Receiver) : Prop :=
  shared_ty sh ∧ r_shared r = sh ∧ is_usize (r_head r) ∧ is_usize (cached_tail r).

Lemma wt_wake_if_park sh s :
  well_typed (λ _, True) (wake_if_park sh (parker_of (sh_ring sh) s) : prog T unit).
Proof. unfold wake_if_park. wt. Qed.

Lemma wt_channel cap strat :
  may_panic →
  well_typed (λ x, ∃ sh, sender_ty sh x.1 ∧ receiver_ty sh x.2)
    (channel cap strat : prog T (Sender * Receiver)).
Proof.
  intros Hp. pose proof zero_usize. pose proof one_usize. unfold channel.
  eapply wt_bind; [by apply wt_assert_cap|]. intros [] Hcap.
  eapply wt_bind; [apply wt_checked|]. intros m Hm.
  eapply wt_bind; [apply wt_new|].
  { repeat apply Forall_cons_2; by (done || left || apply Forall_nil_2). }
  intros r _. eapply wt_bind; [by apply wt_Arc_clone|]. intros _ _.
  pose proof (wrapped_mask _ _ Hcap Hm).
  eexists. split; (split; [|by split_and!]); done.
Qed.

Local Hint Resolve wt_wake_if_park zero_usize : typing.
Local Hint Extern 2 (sender_ty _ _) =>
  (split_and!; cbn in *; (done || apply zero_usize)) : typing.
Local Hint Extern 2 (receiver_ty _ _) => (split_and!; cbn in *; done) : typing.

Lemma wt_try_send sh s v :
  sender_ty sh s → well_typed (λ x, sender_ty sh x.1)
    (try_send s v : prog T (Sender * result unit (TrySendError T))).
Proof.
  intros (Hsh & <- & Ht & Hh). unfold try_send. wt.
  apply (wt_bind (λ x, sender_ty (s_shared s) x.1)); [wt|].
  intros [self full] (_ & Hs & ? & ?). cbn [fst snd] in *. wt.
Qed.

Lemma wt_send_wait sh s l :
  sender_ty sh s → idle_ok l → well_typed idle_ok (send_wait s l : prog T Idle).
Proof.
  intros (Hsh & <- & Ht & Hh) Hl. unfold send_wait. wt.
  apply (wt_bind (λ _, True)); [wt|]. intros retry _.
  apply (wt_bind (λ _, True)); wt.
Qed.

Lemma wt_send_loop fuel : ∀ sh s v l,
  sender_ty sh s → idle_ok l → well_typed (λ x, sender_ty sh x.1)
    (send_loop fuel s v l : prog T (Sender * result unit (SendError T))).
Proof.
  induction fuel as [|fuel IH]; intros sh s v l Hs Hl; [done|]. cbn [send_loop].
  eapply wt_bind; [by apply wt_try_send|]. intros [self r] Hself. cbn in Hself.
  destruct r as [|[]]; [done| |done].
  eapply wt_bind; [by eapply wt_send_wait|]. intros l' Hl'. by apply IH.
Qed.

Lemma wt_try_recv sh r :
  receiver_ty sh r → well_typed (λ x, receiver_ty sh x.1)
    (try_recv r : prog T (Receiver * result T TryRecvError)).
Proof.
  intros (Hsh & <- & Hh & Ht). unfold try_recv. cbv zeta.
  apply (wt_bind (λ x, receiver_ty (r_shared r) x.1)); [wt|].
  intros [self early] (_ & Hs & ? & ?). cbn [fst snd] in *. wt.
Qed.

Lemma wt_recv_wait sh r l :
  receiver_ty sh r → idle_ok l → well_typed idle_ok (recv_wait r l : prog T Idle).
Proof.
  intros (Hsh & <- & Ht & Hh) Hl. unfold recv_wait. wt.
  apply (wt_bind (λ _, True)); [wt|]. intros retry _.
  apply (wt_bind (λ _, True)); wt.
Qed.

Lemma wt_recv_loop fuel : ∀ sh r l,
  receiver_ty sh r → idle_ok l → well_typed (λ x, receiver_ty sh x.1)
    (recv_loop fuel r l : prog T (Receiver * result T RecvError)).
Proof.
  induction fuel as [|fuel IH]; intros sh r l Hr Hl; [done|]. cbn [recv_loop].
  eapply wt_bind; [by apply wt_try_recv|]. intros [self x] Hself. cbn in Hself.
  destruct x as [|[]]; [done| |done].
  eapply wt_bind; [by eapply wt_recv_wait|]. intros l' Hl'. by apply IH.
Qed.

Lemma wt_drain_loop {S} (f : S → T → S * bool) max fuel : ∀ sh r env count,
  receiver_ty sh r → well_typed (λ x, receiver_ty sh x.1.1)
    (drain_loop fuel max r f env count).
Proof.
  induction fuel as [|fuel IH]; intros sh r env count Hr; [done|]. cbn [drain_loop].
  case_match; [done|]. destruct Hr as (Hsh & <- & ? & ?).
  apply (wt_bind (receiver_ty (r_shared r))); [wt|].
  intros self (_ & Hs & ? & ?). wt.
Qed.

Lemma wt_guard sh r start :
  receiver_ty sh r → well_typed (λ _, True) (publish_guard_drop r start : prog T unit).
Proof. intros (Hsh & <- & ? & ?). unfold publish_guard_drop. wt. Qed.

Lemma wt_drain {S} sh (f : S → T → S * bool) r max env fuel :
  receiver_ty sh r → well_typed (λ x, receiver_ty sh x.1.1) (drain fuel r max f env).
Proof.
  intros Hr. unfold drain. eapply wt_bind; [by apply wt_drain_loop|].
  intros [[self env'] e] Hself. cbn [fst snd] in *.
  eapply wt_bind; [by eapply wt_guard|]. intros _ _. destruct e; [|done].
  apply (wt_bind (λ _, True)); wt.
Qed.

Lemma wt_drop_range sh n : ∀ seq,
  shared_ty sh → 0 ≤ seq → well_typed (λ _, True) (drop_range n sh seq : prog T unit).
Proof.
  induction n as [|n IH]; intros seq Hsh Hseq; [done|]. cbn [drop_range]. wt.
  apply IH; [done|lia].
Qed.

Lemma wt_Arc_drop sh :
  shared_ty sh → well_typed (λ _, True) (Arc_drop sh : prog T unit).
Proof.
  intros Hsh. unfold Arc_drop. eapply wt_bind; [by apply wt_fetch|]. intros n _.
  destruct (n =? 1); [|done]. eapply wt_bind; [by apply wt_fence|]. intros _ _.
  apply (wt_bind (λ _, True)); [|done]. unfold Shared_drop. wt.
  apply wt_drop_range; [done|by apply usize_nonneg].
Qed.

Lemma wt_handle_drop sh :
  shared_ty sh → well_typed (λ _, True) (_ ← close sh; Arc_drop sh : prog T unit).
Proof.
  intros Hsh. apply (wt_bind (λ _, True)); [unfold close, store_bool; wt|].
  intros. by apply wt_Arc_drop.
Qed.
End spsc.
End SpscTyping.

(** ** [src/mpsc.rs] *)

Module MpscTyping.
Import Mpsc.
Section mpsc.
Context `{tgt : Target, pan : !Panics} {T : Type}.

Definition shared_ty (sh : Shared) : Prop := 0 ≤ mask sh < slots_len sh.
Definition sender_ty (sh : Shared) (s : Sender) : Prop :=
  shared_ty sh ∧ s_shared s = sh ∧ is_usize (cached_head s).
Definition receiver_ty (sh : Shared) (r : Receiver) : Prop :=
  shared_ty sh ∧ r_shared r = sh ∧ is_usize (r_head r).

Lemma initial_rounds_ty n :
  Forall (λ x : field * Z, field_ok x.1 x.2) (initial_rounds n).
Proof.
  apply Forall_fmap, Forall_true. intros i. simpl. unfold is_i64. lia.
Qed.

Local Hint Resolve zero_usize : typing.
Local Hint Extern 2 (sender_ty _ _) =>
  (split_and!; cbn in *; (done || apply zero_usize)) : typing.
Local Hint Extern 2 (receiver_ty _ _) => (split_and!; cbn in *; done) : typing.

Lemma wt_mpsc_channel cap strat :
  may_panic →
  well_typed (λ x, ∃ sh, sender_ty sh x.1 ∧ receiver_ty sh x.2)
    (channel cap strat : prog T (Sender * Receiver)).
Proof.
  intros Hp. pose proof zero_usize. pose proof one_usize. unfold channel.
  eapply wt_bind; [by apply wt_assert_cap|]. intros [] Hcap.
  eapply wt_bind; [apply wt_checked|]. intros m Hm.
  apply (wt_bind (λ _, True)); [by case_match|]. intros _ _.
  eapply wt_bind; [apply wt_new|].
  { apply Forall_app; split; [repeat apply Forall_cons_2; by (done || left || apply Forall_nil_2)|].
    apply Forall_app; split; [apply initial_rounds_ty|].
    repeat apply Forall_cons_2; by (done || left || apply Forall_nil_2). }
  intros r _. eapply wt_bind; [by apply wt_Arc_clone|]. intros _ _.
  pose proof (wrapped_mask _ _ Hcap Hm).
  eexists. split; (split; [|by split_and!]); done.
Qed.

Lemma wt_claim_loop fuel : ∀ sh s seq b,
  sender_ty sh s → is_usize seq →
  well_typed (λ x, sender_ty sh x.1 ∧ ∀ n, x.2 = Some n → is_usize n)
    (claim_loop fuel s seq b : prog T (Sender * option Z)).
Proof.
  induction fuel as [|fuel IH]; intros sh s seq b (Hsh & <- & Hh) Hseq; [done|]. cbn [claim_loop].
  apply (wt_bind (λ x, sender_ty (s_shared s) x.1)); [wt|].
  intros [self full] Hs. cbn [fst snd] in *. destruct full; [done|].
  eapply wt_bind; [apply wt_arith|]. intros next Hnext.
  eapply wt_bind; [by apply wt_cas|]. intros [cur|cur] Hcur.
  { split; [done|]. by intros ? [= <-]. }
  eapply wt_bind; [by apply wt_repeat|]. intros _ _.
  apply (wt_bind (λ _, True)); [apply wt_u32_mul|]. intros d _.
  by apply IH.
Qed.

Lemma wt_wake_consumer sh :
  well_typed (λ _, True)
    (if bool_decide (strategy sh = Park) then _ ← fence SeqCst; wake (consumer_parker sh)
     else mret tt : prog T unit).
Proof. wt. Qed.

Lemma wt_mpsc_try_send sh s v fuel :
  sender_ty sh s → well_typed (λ x, sender_ty sh x.1)
    (try_send fuel s v : prog T (Sender * result unit (TrySendError T))).
Proof.
  intros Hs. unfold try_send. destruct (Hs) as (Hsh & <- & _). wt.
  eapply wt_bind; [by apply wt_claim_loop|]. intros [self [seq'|]] [Hself Hseq]; [|done].
  cbn [fst snd] in *. specialize (Hseq _ eq_refl). wt. eapply wt_bind; [apply wt_wake_consumer|]. wt.
Qed.

Lemma wt_mpsc_send_wait sh s l :
  sender_ty sh s → idle_ok l → well_typed idle_ok (send_wait s l : prog T Idle).
Proof.
  intros (Hsh & <- & Hh) Hl. unfold send_wait. wt.
  apply (wt_bind (λ _, True)); [wt|]. intros retry _.
  apply (wt_bind (λ _, True)); wt.
Qed.

Lemma wt_mpsc_send_loop cas fuel : ∀ sh s v l,
  sender_ty sh s → idle_ok l → well_typed (λ x, sender_ty sh x.1)
    (send_loop fuel cas s v l : prog T (Sender * result unit (SendError T))).
Proof.
  induction fuel as [|fuel IH]; intros sh s v l Hs Hl; [done|]. cbn [send_loop].
  eapply wt_bind; [by apply wt_mpsc_try_send|]. intros [self r] Hself. cbn in Hself.
  destruct r as [|[]]; [done| |done].
  eapply wt_bind; [by eapply wt_mpsc_send_wait|]. intros l' Hl'. by apply IH.
Qed.

Lemma wt_clone sh s :
  may_panic → sender_ty sh s → well_typed (sender_ty sh) (Sender_clone s : prog T Sender).
Proof.
  intros Hp (Hsh & <- & Hh). unfold Sender_clone. eapply wt_bind; [by apply wt_fetch|].
  intros _ _. eapply wt_bind; [by apply wt_Arc_clone|]. wt.
Qed.

Lemma wt_slot_published r seq :
  shared_ty (r_shared r) → is_usize seq →
  well_typed (λ _, True) (slot_published r seq : prog T bool).
Proof. intros Hsh Hseq. unfold slot_published. wt. Qed.

Lemma wt_wake_producers r : well_typed (λ _, True) (wake_producers r : prog T unit).
Proof. unfold wake_producers. wt. Qed.
Local Hint Resolve wt_slot_published wt_wake_producers : typing.

Lemma wt_mpsc_try_recv sh r :
  receiver_ty sh r → well_typed (λ x, receiver_ty sh x.1)
    (try_recv r : prog T (Receiver * result T TryRecvError)).
Proof.
  intros (Hsh & <- & Hh). unfold try_recv. wt.
  apply (wt_bind (λ _, True)); [wt|]. intros early _. wt.
Qed.

Lemma wt_park_spins n r :
  shared_ty (r_shared r) → is_usize (r_head r) →
  well_typed (λ _, True) (park_spins n r : prog T bool).
Proof. intros Hsh Hh. induction n as [|n IH]; [done|]. cbn [park_spins]. wt. Qed.
Local Hint Resolve wt_park_spins : typing.

Lemma wt_mpsc_recv_wait sh r l :
  receiver_ty sh r → idle_ok l → well_typed idle_ok (recv_wait r l : prog T Idle).
Proof.
  intros (Hsh & <- & Hh) Hl. unfold recv_wait. wt.
  apply (wt_bind (λ _, True)); [wt|]. intros retry _.
  apply (wt_bind (λ _, True)); wt.
Qed.

Lemma wt_mpsc_recv_loop fuel : ∀ sh r l,
  receiver_ty sh r → idle_ok l → well_typed (λ x, receiver_ty sh x.1)
    (recv_loop fuel r l : prog T (Receiver * result T RecvError)).
Proof.
  induction fuel as [|fuel IH]; intros sh r l Hr Hl; [done|]. cbn [recv_loop].
  eapply wt_bind; [by apply wt_mpsc_try_recv|]. intros [self x] Hself. cbn in Hself.
  destruct x as [|[]]; [done| |done].
  eapply wt_bind; [by eapply wt_mpsc_recv_wait|]. intros l' Hl'. by apply IH.
Qed.

Lemma wt_mpsc_drain_loop {S} (f : S → T → S * bool) max fuel : ∀ sh r env count,
  receiver_ty sh r → well_typed (λ x, receiver_ty sh x.1.1)
    (drain_loop fuel max r f env count).
Proof.
  induction fuel as [|fuel IH]; intros sh r env count (Hsh & <- & Hh); [done|]. cbn [drain_loop].
  wt.
Qed.

Lemma wt_mpsc_guard sh r start :
  receiver_ty sh r → well_typed (λ _, True) (publish_guard_drop r start : prog T unit).
Proof. intros (Hsh & <- & ?). unfold publish_guard_drop. wt. Qed.

Lemma wt_mpsc_drain {S} sh (f : S → T → S * bool) r max env fuel :
  receiver_ty sh r → well_typed (λ x, receiver_ty sh x.1.1) (drain fuel r max f env).
Proof.
  intros Hr. unfold drain. eapply wt_bind; [by apply wt_mpsc_drain_loop|].
  intros [[self env'] e] Hself. cbn [fst snd] in *.
  eapply wt_bind; [by eapply wt_mpsc_guard|]. intros _ _. destruct e; [|done].
  apply (wt_bind (λ _, True)); wt.
Qed.

Lemma wt_drop_prefix sh fuel : ∀ seq,
  shared_ty sh → is_usize seq → well_typed (λ _, True) (drop_prefix fuel sh seq : prog T unit).
Proof.
  induction fuel as [|fuel IH]; intros seq Hsh Hseq; [done|]. cbn [drop_prefix]. wt.
Qed.
Local Hint Resolve wt_drop_prefix : typing.

Lemma wt_mpsc_Arc_drop sh :
  shared_ty sh → well_typed (λ _, True) (Arc_drop sh : prog T unit).
Proof.
  intros Hsh. unfold Arc_drop. eapply wt_bind; [by apply wt_fetch|]. intros n _.
  destruct (n =? 1); [|done]. eapply wt_bind; [by apply wt_fence|]. intros _ _.
  apply (wt_bind (λ _, True)); [|done]. unfold Shared_drop. wt.
Qed.
Local Hint Resolve wt_mpsc_Arc_drop : typing.

Lemma wt_Sender_drop s :
  shared_ty (s_shared s) → well_typed (λ _, True) (Sender_drop s : prog T unit).
Proof.
  intros Hsh.
  unfold Sender_drop. eapply wt_bind; [by apply wt_fetch|]. intros n _.
  apply (wt_bind (λ _, True)); wt.
Qed.

Lemma wt_Receiver_drop r :
  shared_ty (r_shared r) → well_typed (λ _, True) (Receiver_drop r : prog T unit).
Proof. intros Hsh. unfold Receiver_drop, store_bool. wt. Qed.
End mpsc.
End MpscTyping.

(** ** [src/sharded.rs] *)

Module ShardedTyping.
Import Sharded.
Section sharded.
Context `{tgt : Target, pan : !Panics} {T : Type}.

Definition shard_ty (x : Spsc.Receiver) : Prop := ∃ sh, SpscTyping.receiver_ty sh x.
Definition sender_ty (s : Sender) : Prop := ∃ sh, SpscTyping.sender_ty sh (inner s).
(** The cursor is an index of the shards, the visit budget is never overdrawn, and
    the strategy is one that the consumer can wait with. *)
Definition receiver_ty (r : Receiver) : Prop :=
  Forall shard_ty (shards r) ∧ 0 ≤ cursor r < shards_len r ∧
  0 ≤ budget r ≤ VISIT_BUDGET ∧ strategy r ≠ Park.

Lemma wt_make_shards n cap strat :
  may_panic →
  well_typed (λ x, Forall sender_ty x.1 ∧ Forall shard_ty x.2 ∧ length x.2 = n)
    (make_shards n cap strat : prog T (list Sender * list Spsc.Receiver)).
Proof.
  intros Hp. induction n as [|n IH]; [by split_and!|]. cbn [make_shards].
  eapply wt_bind; [by apply SpscTyping.wt_channel|]. intros [tx rx] (sh & Htx & Hrx).
  eapply wt_bind; [exact IH|]. intros [txs rxs] (Htxs & Hrxs & Hlen).
  split_and!; [apply Forall_cons_2; [by exists sh|done]..|by rewrite <-Hlen].
Qed.

Lemma wt_sharded_channel n total strat :
  may_panic →
  well_typed (λ x, Forall sender_ty x.1 ∧ receiver_ty x.2)
    (channel n total strat : prog T (list Sender * Receiver)).
Proof.
  intros Hp. unfold channel. destruct (0 <? n) eqn:Hn; [|done]. simpl.
  destruct (is_multiple_of _ _); [|done]. simpl. destruct (_ && _); [|done]. simpl.
  case_bool_decide as Hstrat; [done|].
  eapply wt_bind; [by apply wt_make_shards|]. intros [txs rxs] (Htx & Hrx & Hlen).
  split; [done|]. cbn [fst snd] in *. split_and!; cbn; try done; [|lia..].
  unfold shards_len. cbn. lia.
Qed.

Lemma wt_sharded_try_send s v :
  sender_ty s → well_typed (λ x, sender_ty x.1)
    (try_send s v : prog T (Sender * result unit (TrySendError T))).
Proof.
  intros [sh Hs]. eapply wt_bind; [by apply SpscTyping.wt_try_send|].
  intros [tx r] Htx. by exists sh.
Qed.

Lemma wt_sharded_send fuel s v :
  sender_ty s → well_typed (λ x, sender_ty x.1)
    (send fuel s v : prog T (Sender * result unit (SendError T))).
Proof.
  intros [sh Hs]. eapply wt_bind; [apply SpscTyping.wt_send_loop; [done|apply idle_ok_start]|].
  intros [tx r] Htx. by exists sh.
Qed.

Lemma wt_advance r :
  receiver_ty r →
  well_typed (λ r', receiver_ty r' ∧ budget r' < VISIT_BUDGET) (advance r : prog T Receiver).
Proof.
  intros (Hs & Hc & _ & Hstrat). eapply wt_bind; [apply wt_checked|]. intros next ->.
  pose proof (Z.mod_le (cursor r + 1) usize_modulus ltac:(lia) usize_modulus_pos).
  pose proof (wrap_usize (cursor r + 1)) as [? _]. unfold wrap in *.
  split; [|done]. split_and!; try done; unfold shards_len in *; cbn; case_bool; lia.
Qed.

Lemma wt_shard_at_cursor r :
  receiver_ty r → well_typed (λ x, shard_ty x.2)
    (shard_at_cursor r : prog T (nat * Spsc.Receiver)).
Proof.
  intros (Hs & Hc & _). eapply wt_bind; [by apply wt_index|]. intros i ->.
  destruct (lookup_lt_is_Some_2 (shards r) (Z.to_nat (cursor r))) as [rx Hrx].
  { unfold shards_len in Hc. lia. }
  rewrite Hrx. exact (Forall_lookup_1 _ _ _ _ Hs Hrx).
Qed.

Lemma set_shard_ty r i rx : receiver_ty r → shard_ty rx → receiver_ty (set_shard r i rx).
Proof.
  intros (Hs & Hc & ? & ?) Hrx. split_and!; try done; try by apply Forall_insert.
  all: unfold shards_len in *; cbn; rewrite ?length_insert; lia.
Qed.

Lemma wt_sweep n : ∀ r d,
  receiver_ty r → budget r < VISIT_BUDGET →
  well_typed (λ x, receiver_ty x.1) (sweep n r d : prog T (Receiver * (T + Z))).
Proof.
  induction n as [|n IH]; intros r d Hr Hb; [done|]. cbn [sweep].
  eapply wt_bind; [by apply wt_shard_at_cursor|]. intros [i rx] [sh Hrx].
  eapply wt_bind; [by apply SpscTyping.wt_try_recv|]. intros [rx' x] Hrx'.
  assert (receiver_ty (set_shard r i rx')) as Hr' by (apply set_shard_ty; [done|by exists sh]).
  destruct x as [v|e].
  - eapply wt_bind; [apply wt_checked|]. intros b ->.
    destruct Hr' as (? & [? ?] & Hb' & ?). cbn in Hb'. pose proof usize_modulus_ge.
    unfold VISIT_BUDGET in *. rewrite wrap_small by (unfold is_usize; cbn; lia).
    split_and!; try done; unfold VISIT_BUDGET; cbn; lia.
  - apply (wt_bind (λ _, True)); [destruct e; [done|eapply wt_true, wt_arith]|]. intros d' _.
    eapply wt_bind; [by apply wt_advance|]. intros self [Hself ?]. by apply IH.
Qed.

Lemma wt_sharded_try_recv r :
  receiver_ty r → well_typed (λ x, receiver_ty x.1)
    (try_recv r : prog T (Receiver * result T TryRecvError)).
Proof.
  intros Hr. unfold try_recv.
  apply (wt_bind (λ r', receiver_ty r' ∧ budget r' < VISIT_BUDGET)).
  { case_bool; [by apply wt_advance|]. split; [done|lia]. }
  intros self [Hself ?].
  eapply wt_bind; [by apply wt_sweep|]. intros [self' [v|d]] Hs'; [done|].
  by case_match.
Qed.

Lemma wt_drain_sweep {S} (f : S → T → S * bool) max fuel n : ∀ r env count,
  receiver_ty r → well_typed (λ x, receiver_ty x.1.1) (drain_sweep fuel n r max f env count).
Proof.
  induction n as [|n IH]; intros r env count Hr; [done|]. cbn [drain_sweep].
  case_match; [done|]. eapply wt_bind; [apply wt_arith|]. intros want _.
  eapply wt_bind; [by apply wt_shard_at_cursor|]. intros [i rx] [sh Hrx].
  eapply wt_bind; [by apply SpscTyping.wt_drain|]. intros [[rx' env'] e] Hrx'.
  assert (receiver_ty (set_shard r i rx')) as Hr' by (apply set_shard_ty; [done|by exists sh]).
  destruct e as [took|]; [|done].
  eapply wt_bind; [apply wt_arith|]. intros count' _. case_match; [done|].
  eapply wt_bind; [by apply wt_advance|]. intros self [Hself _]. by apply IH.
Qed.

Lemma wt_sharded_recv_loop fuel : ∀ r l,
  receiver_ty r → idle_ok l → well_typed (λ x, receiver_ty x.1)
    (recv_loop fuel r l : prog T (Receiver * result T RecvError)).
Proof.
  induction fuel as [|fuel IH]; intros r l Hr Hl; [done|]. cbn [recv_loop].
  eapply wt_bind; [by apply wt_sharded_try_recv|]. intros [self x] Hself. cbn in Hself.
  destruct x as [|[]]; [done| |done].
  apply (wt_bind idle_ok); [|intros l' Hl'; by apply IH].
  destruct (strategy self) eqn:Hstrat; [by apply (wt_bind (λ _, True))|by apply wt_idle..|].
  by destruct Hself as (_ & _ & _ & []).
Qed.

Lemma wt_drop_shards rxs :
  Forall shard_ty rxs → well_typed (λ _, True) (drop_shards rxs : prog T unit).
Proof.
  induction 1 as [|rx rxs [sh (Hsh & <- & _)] _ IH]; [done|]. cbn [drop_shards].
  apply (wt_bind (λ _, True)); [by apply SpscTyping.wt_handle_drop|done].
Qed.
End sharded.
End ShardedTyping.
