(* ===== verification/TypeSafety.v ===== *)
(** No call panics: clients of the three channels, on any number of threads the
    channel allows, keep the memory well typed and their handles in range under
    every schedule, so that no index is out of bounds, no [unreachable!()] is
    reached and no interval overflows, however often the counters wrapped. *)
From S2P Require Import Prelude Usize Atomic Errors Wait Notify Ring Queue Seq Memory Machine Typing TypedOps.
From S2P Require Spsc Mpsc Sharded SpscInv SpscRuns MpscInv MpscClients MpscRuns.
Local Open Scope Z_scope.

(** ** Clients of the sharded channel *)

(** Like the clients of the rings: every thread owns one handle, a sender's or
    the receiver's, and makes any calls on it. *)
Module ShardedClients.
Import Sharded.

Inductive handle := HSender (self : Sender) | HReceiver (self : Receiver).

Section clients.
Context `{tgt : Target} {T : Type} (cb : T → bool).
Abbreviation call := (SpscInv.call T).
Abbreviation event := (SpscInv.event T).

Definition start (c : call) (h : handle) : prog T (reply handle event) :=
  match c, h with
  | SpscInv.CTrySend v, HSender self =>
      '(self, r) ← try_send self v; mret (Some (HSender self), [], SpscInv.EvTrySend r)
  | SpscInv.CSend fuel v, HSender self =>
      '(self, r) ← send fuel self v; mret (Some (HSender self), [], SpscInv.EvSend r)
  | SpscInv.CDropSender, HSender self =>
      _ ← Sender_drop self; mret (None, [], SpscInv.EvDropped)
  | SpscInv.CTryRecv, HReceiver self =>
      '(self, r) ← try_recv self; mret (Some (HReceiver self), [], SpscInv.EvTryRecv r)
  | SpscInv.CRecv fuel, HReceiver self =>
      '(self, r) ← recv fuel self; mret (Some (HReceiver self), [], SpscInv.EvRecv r)
  | SpscInv.CDrain fuel max, HReceiver self =>
      '(self, seen, e) ← drain fuel self max (collect cb) [];
      mret (Some (HReceiver self), [], SpscInv.EvDrain seen e)
  | SpscInv.CDropReceiver, HReceiver self =>
      _ ← Receiver_drop self; mret (None, [], SpscInv.EvDropped)
  | _, h => mret (Some h, [], SpscInv.EvNoHandle)
  end.

(** The main thread creates the channel, two steps a shard, and hands the ends
    out: one thread per sender, then the receiver's. *)
Definition launch (n total : Z) (strat : WaitStrategy) : option (config T handle call event) :=
  '(txs, rx, V, m) ← lone_run (2 * Z.to_nat n) 0 (channel n total strat) fresh_view empty_mem;
  Some (Config m (((λ tx, Thread V (Ready (HSender tx)) []) <$> txs) ++
                  [Thread V (Ready (HReceiver rx)) []])).

Definition runs_to (n total : Z) (strat : WaitStrategy) (s : list (choice call))
    (g : config T handle call event) : Prop :=
  ∃ g0, launch n total strat = Some g0 ∧ exec start s g0 = inr g.

Definition handle_ok (h : handle) : Prop :=
  match h with
  | HSender s => ShardedTyping.sender_ty s
  | HReceiver r => ShardedTyping.receiver_ty r
  end.

Definition excuse (_ : call) : Panics := excused False.

Lemma sharded_start_typed c h : handle_ok h → call_ok handle_ok excuse c (start c h).
Proof.
  unfold call_ok.
  assert (∀ h o, handle_ok h → reply_ok handle_ok (Some h, [], o : event)) as Hkeep.
  { intros h' o Hh. split; [|done]. by intros ? [= <-]. }
  assert (∀ o, reply_ok handle_ok (None, [], o : event)) as Hgone by done.
  intros Hh. destruct h as [s|r]; destruct c; simpl in Hh |-; cbn [start];
    try (by apply wt_ret, Hkeep).
  - eapply wt_bind; [by apply ShardedTyping.wt_sharded_try_send|]. intros [] Hs. by apply Hkeep.
  - eapply wt_bind; [by apply ShardedTyping.wt_sharded_send|]. intros [] Hs. by apply Hkeep.
  - destruct Hh as (sh & Hsh & <- & _). apply (wt_bind (λ _, True)); [by apply SpscTyping.wt_handle_drop|].
    intros _ _. apply Hgone.
  - eapply wt_bind; [by apply ShardedTyping.wt_sharded_try_recv|]. intros [] Hs. by apply Hkeep.
  - eapply wt_bind; [apply ShardedTyping.wt_sharded_recv_loop; [done|apply idle_ok_start]|].
    intros [] Hs. by apply Hkeep.
  - eapply wt_bind; [by apply ShardedTyping.wt_drain_sweep|]. intros [[]] Hs. by apply Hkeep.
  - apply (wt_bind (λ _, True)); [apply ShardedTyping.wt_drop_shards, Hh|]. intros _ _. apply Hgone.
Qed.

Lemma sharded_runs_typed n total strat s g :
  runs_to n total strat s g → typed_config handle_ok excuse g.
Proof.
  intros (g0 & Hg0 & Hrun). eapply exec_typed; [apply sharded_start_typed| |exact Hrun].
  unfold launch in Hg0. destruct (lone_run _ _ _ _ _) as [[[[txs rx] V] m]|] eqn:Hl; [|done].
  injection Hg0 as <-.
  pose proof (lone_run_typed _ _ _ _ _ _ _ _ _ empty_typed (ShardedTyping.wt_sharded_channel (pan := excused True) n total strat (or_intror I)) Hl)
    as [Hm [Htx Hrx]].
  split; [done|]. simpl. apply Forall_app; split; [by apply Forall_fmap|by apply Forall_singleton].
Qed.
End clients.
End ShardedClients.

(** ** Clients of the two rings *)

Module SpscTypes.
Import Spsc SpscInv SpscRuns.
Section clients.
Context `{tgt : Target} {T : Type} (cb : T → bool).

Definition handle_ok (h : handle) : Prop :=
  match h with
  | HSender s => ∃ sh, SpscTyping.sender_ty sh s
  | HReceiver r => ∃ sh, SpscTyping.receiver_ty sh r
  end.

Definition excuse (_ : call T) : Panics := excused False.

Lemma spsc_start_typed (c : call T) h :
  handle_ok h → call_ok handle_ok excuse c (start cb c h).
Proof.
  unfold call_ok.
  assert (∀ h o, handle_ok h → reply_ok handle_ok (Some h, [], o : event T)) as Hkeep.
  { intros h' o Hh. split; [|done]. by intros ? [= <-]. }
  assert (∀ o, reply_ok handle_ok (None, [], o : event T)) as Hgone by done.
  intros Hh. destruct h as [s|r]; destruct c; simpl in Hh |-; cbn [start];
    try (by apply wt_ret, Hkeep); destruct Hh as [sh Hh].
  - eapply wt_bind; [by apply SpscTyping.wt_try_send|]. intros [] Hs. apply Hkeep. by exists sh.
  - eapply wt_bind; [apply SpscTyping.wt_send_loop; [done|apply idle_ok_start]|].
    intros [] Hs. apply Hkeep. by exists sh.
  - destruct Hh as (Hsh & <- & _). apply (wt_bind (λ _, True)); [by apply SpscTyping.wt_handle_drop|].
    intros _ _. apply Hgone.
  - eapply wt_bind; [by apply SpscTyping.wt_try_recv|]. intros [] Hs. apply Hkeep. by exists sh.
  - eapply wt_bind; [apply SpscTyping.wt_recv_loop; [done|apply idle_ok_start]|].
    intros [] Hs. apply Hkeep. by exists sh.
  - eapply wt_bind; [by apply SpscTyping.wt_drain|]. intros [[]] Hs. apply Hkeep. by exists sh.
  - destruct Hh as (Hsh & <- & _). apply (wt_bind (λ _, True)); [by apply SpscTyping.wt_handle_drop|].
    intros _ _. apply Hgone.
Qed.

Lemma spsc_runs_typed cap strat s g :
  runs_to cb cap strat s g → typed_config handle_ok excuse g.
Proof.
  intros (g0 & Hg0 & Hrun). eapply exec_typed; [apply spsc_start_typed| |exact Hrun].
  unfold launch in Hg0. destruct (lone_run _ _ _ _ _) as [[[[tx rx] V] m]|] eqn:Hl; [|done].
  injection Hg0 as <-.
  pose proof (lone_run_typed _ _ _ _ _ _ _ _ _ empty_typed (SpscTyping.wt_channel (pan := excused True) cap strat (or_intror I)) Hl)
    as [Hm (sh & Htx & Hrx)].
  split; [done|]. repeat apply Forall_cons_2; [by exists sh..|apply Forall_nil_2].
Qed.
End clients.
End SpscTypes.

Module MpscTypes.
Import Mpsc MpscInv MpscClients MpscRuns.
Section clients.
Context `{tgt : Target} {T : Type} (cb : T → bool).

Definition handle_ok (h : handle) : Prop :=
  match h with
  | HSender s => ∃ sh, MpscTyping.sender_ty sh s
  | HReceiver r => ∃ sh, MpscTyping.receiver_ty sh r
  end.

Definition excuse (c : call T) : Panics := excused (c = CClone).

Lemma mpsc_start_typed (c : call T) h :
  handle_ok h → call_ok handle_ok excuse c (start cb c h).
Proof.
  unfold call_ok.
  assert (∀ h o, handle_ok h → reply_ok handle_ok (Some h, [], o : event T)) as Hkeep.
  { intros h' o Hh. split; [|done]. by intros ? [= <-]. }
  assert (∀ o, reply_ok handle_ok (None, [], o : event T)) as Hgone by done.
  intros Hh. destruct h as [s|r]; destruct c; simpl in Hh |-; cbn [start];
    try (by apply wt_ret, Hkeep); destruct Hh as [sh Hh].
  - eapply wt_bind; [by apply MpscTyping.wt_mpsc_try_send|]. intros [] Hs. apply Hkeep. by exists sh.
  - eapply wt_bind; [apply MpscTyping.wt_mpsc_send_loop; [done|apply idle_ok_start]|].
    intros [] Hs. apply Hkeep. by exists sh.
  - eapply wt_bind; [apply MpscTyping.wt_clone; [by right|done]|]. intros new Hnew. split.
    + intros ? [= <-]. by exists sh.
    + apply Forall_singleton. by exists sh.
  - destruct Hh as (Hsh & <- & _). apply (wt_bind (λ _, True)); [by apply MpscTyping.wt_Sender_drop|].
    intros _ _. apply Hgone.
  - eapply wt_bind; [by apply MpscTyping.wt_mpsc_try_recv|]. intros [] Hs. apply Hkeep. by exists sh.
  - eapply wt_bind; [apply MpscTyping.wt_mpsc_recv_loop; [done|apply idle_ok_start]|].
    intros [] Hs. apply Hkeep. by exists sh.
  - eapply wt_bind; [by apply MpscTyping.wt_mpsc_drain|]. intros [[]] Hs. apply Hkeep. by exists sh.
  - destruct Hh as (Hsh & <- & _). apply (wt_bind (λ _, True)); [by apply MpscTyping.wt_Receiver_drop|].
    intros _ _. apply Hgone.
Qed.

Lemma mpsc_runs_typed cap strat s g :
  runs_to cb cap strat s g → typed_config handle_ok excuse g.
Proof.
  intros (g0 & Hg0 & Hrun). eapply exec_typed; [apply mpsc_start_typed| |exact Hrun].
  unfold launch in Hg0. destruct (lone_run _ _ _ _ _) as [[[[tx rx] V] m]|] eqn:Hl; [|done].
  injection Hg0 as <-.
  pose proof (lone_run_typed _ _ _ _ _ _ _ _ _ empty_typed (MpscTyping.wt_mpsc_channel (pan := excused True) cap strat (or_intror I)) Hl)
    as [Hm (sh & Htx & Hrx)].
  split; [done|]. repeat apply Forall_cons_2; [by exists sh..|apply Forall_nil_2].
Qed.
End clients.
End MpscTypes.

(** C16. No call panics. Whatever calls the threads of an SPSC, an MPSC or a
    sharded channel make, and however they are scheduled - with no bound on the
    number of calls, so past the wrap-around of every counter - no thread ever
    panics in a build without overflow checks: every masked index is inside the
    buffer, the sharded cursor is an index of the shards, the visit budget never
    exceeds [VISIT_BUDGET], the park interval never overflows a [Duration], no
    ordering is one that the standard library rejects, and [unreachable!()] is not
    reached. Two panics remain possible: an overflow in a build that checks for
    it, and a [Sender::clone] of the MPSC channel that makes more than
    [isize::MAX] references. (A panic of a drain callback is an outcome of [drain],
    not a panic of the call.) *)
Theorem calls_never_panic `{Target} {T} (cb : T → bool) strat :
  (∀ cap s g th, SpscRuns.runs_to cb cap strat s g → th ∈ pool g →
     stat th = Panicking → overflow_checks = true) ∧
  (∀ cap s g th c, MpscRuns.runs_to cb cap strat s g → th ∈ pool g →
     stat th = Running c Panicked → overflow_checks = true ∨ c = MpscInv.CClone) ∧
  (∀ n total s g th, ShardedClients.runs_to cb n total strat s g → th ∈ pool g →
     (stat th = Panicking → overflow_checks = true) ∧
     ∀ r, stat th = Ready (ShardedClients.HReceiver r) →
       0 ≤ Sharded.cursor r < Sharded.shards_len r ∧
       0 ≤ Sharded.budget r ≤ Sharded.VISIT_BUDGET).
Proof.
  split_and!; intros *.
  - intros Hg%SpscTypes.spsc_runs_typed Hin Hs.
    by destruct (typed_panicking _ _ g th Hg Hin Hs) as [_ []].
  - intros Hg%MpscTypes.mpsc_runs_typed Hin Hs.
    exact (typed_about_to_panic _ _ g th c Hg Hin Hs).
  - intros Hg%ShardedClients.sharded_runs_typed Hin. split.
    + intros Hs. by destruct (typed_panicking _ _ g th Hg Hin Hs) as [_ []].
    + intros r Hs. by destruct (typed_ready _ _ g th _ Hg Hin Hs) as (_ & ? & ? & _).
Qed.

(** Two shards of two slots: both producers fill theirs while the consumer
    drains, then everyone leaves. *)
Definition sharded_rounds : list (list (tid * SpscInv.call Z)) :=
  [[(0%nat, SpscInv.CTrySend 1); (1%nat, SpscInv.CTrySend 2); (2%nat, SpscInv.CTryRecv)];
   [(0%nat, SpscInv.CSend 3 3); (1%nat, SpscInv.CTrySend 4); (2%nat, SpscInv.CDrain 5 9)];
   [(0%nat, SpscInv.CDropSender); (1%nat, SpscInv.CDropSender); (2%nat, SpscInv.CRecv 9)];
   [(2%nat, SpscInv.CDropReceiver)]].
Definition sharded_schedule : list (choice (SpscInv.call Z)) :=
  match ShardedClients.launch 2 4 Backoff with
  | Some g0 => rounds (ShardedClients.start (λ _, true)) sharded_rounds g0
  | None => []
  end.
Definition sharded_seen : option (list (list Z * list Z)) :=
  match ShardedClients.launch 2 4 Backoff with
  | Some g0 =>
      match exec (ShardedClients.start (λ _, true)) sharded_schedule g0 with
      | inr g => Some ((λ th, (SpscInv.accepted (trace th), SpscInv.received (trace th))) <$> pool g)
      | inl _ => None
      end
  | None => None
  end.

Lemma calls_never_panic_witness :
  sharded_seen = Some [([1; 3], []); ([2; 4], []); ([], [2; 1; 3; 4])] ∧
  (∃ g, ShardedClients.runs_to (λ _, true) 2 4 Backoff sharded_schedule g ∧
        ∀ th, th ∈ pool g → stat th ≠ Panicking) ∧
  (∃ g, SpscRuns.runs_to SpscRuns.demo_cb 2 Park (SpscRuns.demo SpscRuns.demo_left) g ∧
        ∀ th, th ∈ pool g → stat th ≠ Panicking) ∧
  ∃ g, MpscRuns.runs_to MpscRuns.demo_cb 2 Park (MpscRuns.demo MpscRuns.demo_left) g ∧
       ∀ th c, th ∈ pool g → stat th = Running c Panicked → c = MpscInv.CClone.
Proof.
  split; [vm_compute; reflexivity|]. split_and!.
  - assert (∃ g, ShardedClients.runs_to (λ _, true) 2 4 Backoff sharded_schedule g) as [g Hg].
    { unfold ShardedClients.runs_to. destruct (ShardedClients.launch 2 4 Backoff) as [g0|] eqn:Hl;
        [|by vm_compute in Hl].
      destruct (exec (ShardedClients.start (λ _, true)) sharded_schedule g0) as [|g] eqn:He; [|by exists g, g0].
      assert (sharded_seen = None) as Hn by (unfold sharded_seen; by rewrite Hl, He).
      by vm_compute in Hn. }
    exists g. split; [exact Hg|]. intros th Hin Hs.
    destruct (calls_never_panic (λ _ : Z, true) Backoff) as (_ & _ & Hno).
    destruct (Hno _ _ _ _ _ Hg Hin) as [Hp _]. by apply Hp in Hs.
  - destruct (SpscRuns.look_run SpscRuns.demo_left (λ _ _ _, tt) tt) as (g & tP & tC & Hrun & _);
      [by vm_compute|].
    exists g. split; [exact Hrun|]. intros th Hin Hs.
    destruct (calls_never_panic SpscRuns.demo_cb Park) as [Hno _].
    by apply (Hno _ _ _ _ Hrun Hin) in Hs.
  - destruct (MpscRuns.look_pool MpscRuns.demo_left (λ _ _, tt) tt) as (g & Hrun & _);
      [by vm_compute|].
    exists g. split; [exact Hrun|]. intros th c Hin Hs.
    destruct (calls_never_panic MpscRuns.demo_cb Park) as (_ & Hno & _).
    by destruct (Hno _ _ _ _ _ Hrun Hin Hs).
Defined.
