(* ===== verification/Tests.v ===== *)
(** The crate's own unit tests ([mod tests] of each module) as programs: the
    sequential interpreter runs them, so they say on concrete runs that the
    definitions behave as the code's authors expect of the code. Handles that
    go out of scope are dropped in reverse order of declaration, and a test
    that ends must leave no block behind. The tests of [src/wait.rs] that
    measure wall-clock time are left out. *)
From S2P Require Import Prelude Usize Atomic Errors Wait Notify Seq.
From S2P Require Spsc Mpsc Sharded.
Local Open Scope Z_scope.

(** ** The test language *)

Section language.
Context {T : Type}.

Definition assert (b : bool) : prog T unit := if b then mret tt else Panicked.
Definition assert_eq `{EqDecision A} (x y : A) : prog T unit := assert (bool_decide (x = y)).
Definition unwrap {A E} (r : result A E) : prog T A :=
  match r with Ok a => mret a | Err _ => Panicked end.

(** The count of a [drain] whose callback did not panic. *)
Definition drained (e : exit) : prog T Z :=
  match e with Returned n => mret n | Unwound => Panicked end.

(** [|v| got.push(v)] and [|_| {}]. *)
Definition push (got : list T) (v : T) : list T * bool := (got ++ [v], true).
Definition ignore (got : list T) (_ : T) : list T * bool := (got, true).

(** [for i in a..b { body }], the state threaded through. *)
Fixpoint for_each {S} (js : list Z) (body : Z → S → prog T S) (s : S) : prog T S :=
  match js with
  | [] => mret s
  | i :: js => s ← body i s; for_each js body s
  end.

(** A run that ends, with every block freed. *)
Definition passes_from (spurious_cas : list bool) (p : prog T unit) : bool :=
  match run 0 p (MkSeqst ∅ ∅ ∅ ∅ ∅ 0 [] [] spurious_cas) with
  | Done _ st => bool_decide (map_to_list (atoms st) = []) && bool_decide (size (cells st) = 0%nat)
  | _ => false
  end.
Definition passes (p : prog T unit) : bool := passes_from [] p.

(** [#[should_panic]]. *)
Definition panics (p : prog T unit) : bool :=
  match run 0 p empty_state with DidPanic _ => true | _ => false end.
End language.

Definition usize_MAX `{Target} : Z := usize_max.

(** Iterations enough for every loop of the tests. *)
Definition enough : nat := 16.

(** ** [src/spsc.rs] *)

Module SpscTests.
Import Spsc.
Section tests.
Context `{Target}.

Definition rejects_non_power_of_two_capacity : prog Z unit :=
  '(tx, rx) ← channel 100 BusySpin; _ ← Sender_drop tx; Receiver_drop rx.

Definition full_and_empty_are_reported : prog Z unit :=
  '(tx, rx) ← channel 2 BusySpin;
  '(rx, r) ← try_recv rx; _ ← assert_eq r (Err Empty);
  '(tx, r) ← try_send tx 1; _ ← unwrap r;
  '(tx, r) ← try_send tx 2; _ ← unwrap r;
  '(tx, r) ← try_send tx 3; _ ← assert_eq r (Err (Full 3));
  '(rx, r) ← try_recv rx; _ ← assert_eq r (Ok 1);
  '(tx, r) ← try_send tx 3; _ ← unwrap r;
  '(rx, r) ← try_recv rx; _ ← assert_eq r (Ok 2);
  '(rx, r) ← try_recv rx; _ ← assert_eq r (Ok 3);
  '(rx, r) ← try_recv rx; _ ← assert_eq r (Err Empty);
  _ ← Receiver_drop rx; Sender_drop tx.

Definition disconnect_semantics_try_paths : prog string unit :=
  '(tx, rx) ← channel 4 BusySpin;
  '(tx, r) ← try_send tx "a"%string; _ ← unwrap r;
  _ ← Sender_drop tx;
  '(rx, r) ← try_recv rx; _ ← assert_eq r (Ok "a"%string);
  '(rx, r) ← try_recv rx; _ ← assert_eq r (Err RecvDisconnected);
  '(tx2, rx2) ← channel 4 BusySpin;
  _ ← Receiver_drop rx2;
  '(tx2, r) ← try_send tx2 "b"%string; _ ← assert_eq r (Err (SendDisconnected "b"%string));
  _ ← Sender_drop tx2; Receiver_drop rx.

Definition drain_consumes_batch : prog Z unit :=
  '(tx, rx) ← channel 8 BusySpin;
  tx ← for_each (seqZ 0 5) (λ i tx, '(tx, r) ← try_send tx i; _ ← unwrap r; mret tx) tx;
  '(rx, got, e) ← drain enough rx 3 push [];
  n ← drained e; _ ← assert_eq n 3;
  '(rx, got, e) ← drain enough rx usize_MAX push got;
  n ← drained e; _ ← assert_eq n 2;
  _ ← assert_eq got [0; 1; 2; 3; 4];
  '(rx, _, e) ← drain enough rx usize_MAX ignore [];
  n ← drained e; _ ← assert_eq n 0;
  _ ← Receiver_drop rx; Sender_drop tx.

Definition zero_sized_payloads_work : prog unit unit :=
  '(tx, rx) ← channel 2 BusySpin;
  '(tx, r) ← try_send tx tt; _ ← unwrap r;
  '(rx, r) ← try_recv rx; _ ← assert_eq r (Ok tt);
  _ ← Receiver_drop rx; Sender_drop tx.

Definition suite : list bool :=
  [panics rejects_non_power_of_two_capacity; passes full_and_empty_are_reported;
   passes disconnect_semantics_try_paths; passes drain_consumes_batch;
   passes zero_sized_payloads_work].
End tests.
End SpscTests.

(** ** [src/mpsc.rs] *)

Module MpscTests.
Import Mpsc.
Section tests.
Context `{Target}.
Abbreviation send_to tx v := (try_send enough tx v).

Definition rejects_non_power_of_two_capacity : prog Z unit :=
  '(tx, rx) ← channel 100 BusySpin; _ ← Sender_drop tx; Receiver_drop rx.

Definition try_send_reports_full_without_claiming : prog Z unit :=
  '(tx, rx) ← channel 2 BusySpin;
  '(tx, r) ← send_to tx 1; _ ← unwrap r;
  '(tx, r) ← send_to tx 2; _ ← unwrap r;
  '(tx, r) ← send_to tx 3; _ ← assert_eq r (Err (Full 3));
  '(tx, r) ← send_to tx 4; _ ← assert_eq r (Err (Full 4));
  '(rx, r) ← try_recv rx; _ ← assert_eq r (Ok 1);
  '(tx, r) ← send_to tx 5; _ ← unwrap r;
  '(tx, r) ← send_to tx 6; _ ← assert_eq r (Err (Full 6));
  '(rx, r) ← try_recv rx; _ ← assert_eq r (Ok 2);
  '(rx, r) ← try_recv rx; _ ← assert_eq r (Ok 5);
  '(rx, r) ← try_recv rx; _ ← assert_eq r (Err Empty);
  _ ← Receiver_drop rx; Sender_drop tx.

Definition disconnect_semantics_try_paths : prog string unit :=
  '(tx, rx) ← channel 4 BusySpin;
  tx2 ← Sender_clone tx;
  '(tx, r) ← send_to tx "a"%string; _ ← unwrap r;
  _ ← Sender_drop tx;
  '(rx, r) ← try_recv rx; _ ← assert_eq r (Ok "a"%string);
  '(rx, r) ← try_recv rx; _ ← assert_eq r (Err Empty);
  _ ← Sender_drop tx2;
  '(rx, r) ← try_recv rx; _ ← assert_eq r (Err RecvDisconnected);
  '(tx3, rx3) ← channel 4 BusySpin;
  _ ← Receiver_drop rx3;
  '(tx3, r) ← send_to tx3 "b"%string; _ ← assert_eq r (Err (SendDisconnected "b"%string));
  _ ← Sender_drop tx3; Receiver_drop rx.

(** One round of [survives_many_ring_wraps]. *)
Definition wrap_round (round : Z) (s : Sender * Receiver * Z) : prog Z (Sender * Receiver * Z) :=
  let '(tx, rx, expected) := s in
  tx ← for_each (seqZ 0 4) (λ i tx, '(tx, r) ← send_to tx (round * 4 + i); _ ← unwrap r; mret tx) tx;
  '(tx, r) ← send_to tx 9999; _ ← assert_eq r (Err (Full 9999));
  if round mod 2 =? 0 then
    '(rx, expected) ← for_each (seqZ 0 4)
      (λ _ '(rx, expected), '(rx, r) ← try_recv rx; _ ← assert_eq r (Ok expected);
                            mret (rx, expected + 1)) (rx, expected);
    mret (tx, rx, expected)
  else
    '(rx, got, e) ← drain enough rx usize_MAX push [];
    n ← drained e; _ ← assert_eq n 4;
    _ ← assert_eq got (seqZ expected 4);
    mret (tx, rx, expected + 4).

Definition survives_many_ring_wraps : prog Z unit :=
  '(tx, rx) ← channel 4 BusySpin;
  '(tx, rx, expected) ← for_each (seqZ 0 50) wrap_round (tx, rx, 0);
  _ ← assert_eq expected 200;
  '(rx, r) ← try_recv rx; _ ← assert_eq r (Err Empty);
  _ ← Receiver_drop rx; Sender_drop tx.

Definition drain_consumes_contiguous_prefix : prog Z unit :=
  '(tx, rx) ← channel 8 BusySpin;
  tx ← for_each (seqZ 0 5) (λ i tx, '(tx, r) ← send_to tx i; _ ← unwrap r; mret tx) tx;
  '(rx, got, e) ← drain enough rx usize_MAX push [];
  n ← drained e; _ ← assert_eq n 5;
  _ ← assert_eq got [0; 1; 2; 3; 4];
  _ ← Receiver_drop rx; Sender_drop tx.

Definition suite (spurious_cas : list bool) : list bool :=
  [panics rejects_non_power_of_two_capacity;
   passes_from spurious_cas try_send_reports_full_without_claiming;
   passes_from spurious_cas disconnect_semantics_try_paths;
   passes_from spurious_cas survives_many_ring_wraps;
   passes_from spurious_cas drain_consumes_contiguous_prefix].
End tests.
End MpscTests.

(** ** [src/sharded.rs] *)

Module ShardedTests.
Import Sharded.
Section tests.
Context `{Target}.

(** [senders[i].try_send(v)], with the bounds check; the result unwrapped;
    [drop(senders)]. *)
Definition try_send_at {T} (i : nat) (senders : list Sender) (v : T) :
    prog T (list Sender * result unit (TrySendError T)) :=
  match senders !! i with
  | None => Panicked
  | Some tx => '(tx, r) ← try_send tx v; mret (<[i := tx]> senders, r)
  end.
Definition send_at {T} (i : nat) (senders : list Sender) (v : T) : prog T (list Sender) :=
  '(senders, r) ← try_send_at i senders v; _ ← unwrap r; mret senders.
Fixpoint drop_senders {T} (senders : list Sender) : prog T unit :=
  match senders with
  | [] => mret tt
  | tx :: senders => _ ← Sender_drop tx; drop_senders senders
  end.

(** [let _ = channel(..)]. *)
Definition discard {T} (ends : list Sender * Receiver) : prog T unit :=
  _ ← drop_senders ends.1; Receiver_drop ends.2.

Definition rejects_uneven_split : prog Z unit :=
  ends ← channel 3 1024 BusySpin; discard ends.
Definition rejects_non_power_of_two_per_shard : prog Z unit :=
  ends ← channel 4 100 BusySpin; discard ends.
Definition rejects_park_strategy : prog Z unit :=
  ends ← channel 2 1024 Park; discard ends.

Fixpoint accepts_every_self_waking_strategy (strategies : list WaitStrategy) : prog Z unit :=
  match strategies with
  | [] => mret tt
  | strategy :: strategies =>
      '(senders, rx) ← channel 2 8 strategy;
      senders ← send_at 0 senders 1;
      '(rx, r) ← try_recv rx; _ ← assert_eq r (Ok 1);
      _ ← Receiver_drop rx; _ ← drop_senders senders;
      accepts_every_self_waking_strategy strategies
  end.

Definition drain_sweeps_shards_and_respects_max : prog Z unit :=
  '(senders, rx) ← channel 2 8 BusySpin;
  senders ← for_each [1; 2; 3] (λ v senders, send_at 0 senders v) senders;
  senders ← for_each [10; 20] (λ v senders, send_at 1 senders v) senders;
  '(rx, got, e) ← drain enough rx 2 push [];
  n ← drained e; _ ← assert_eq n 2; _ ← assert_eq got [1; 2];
  '(rx, got, e) ← drain enough rx usize_MAX push [];
  n ← drained e; _ ← assert_eq n 3; _ ← assert_eq got [3; 10; 20];
  '(rx, _, e) ← drain enough rx usize_MAX ignore [];
  n ← drained e; _ ← assert_eq n 0;
  _ ← Receiver_drop rx; drop_senders senders.

Definition drain_returns_zero_after_disconnect_pair_with_try_recv : prog Z unit :=
  '(senders, rx) ← channel 2 8 BusySpin;
  senders ← send_at 0 senders 7;
  _ ← drop_senders senders;
  '(rx, got, e) ← drain enough rx usize_MAX push [];
  n ← drained e; _ ← assert_eq n 1; _ ← assert_eq got [7];
  '(rx, _, e) ← drain enough rx usize_MAX ignore [];
  n ← drained e; _ ← assert_eq n 0;
  '(rx, r) ← try_recv rx; _ ← assert_eq r (Err RecvDisconnected);
  Receiver_drop rx.

Definition full_is_per_shard_not_total : prog Z unit :=
  '(senders, rx) ← channel 2 1024 BusySpin;
  _ ← assert_eq (length senders) 2%nat;
  senders ← for_each (seqZ 0 512) (λ i senders, send_at 0 senders i) senders;
  '(senders, r) ← try_send_at 0 senders 512; _ ← assert_eq r (Err (Full 512));
  senders ← send_at 1 senders 0;
  _ ← Receiver_drop rx; drop_senders senders.

(** [while let Ok(v) = rx.try_recv() { got.push(v) }]. *)
Fixpoint recv_all (fuel : nat) (rx : Receiver) (got : list Z) : prog Z (Receiver * list Z) :=
  match fuel with
  | O => OutOfFuel
  | S fuel =>
      '(rx, r) ← try_recv rx;
      match r with
      | Ok v => recv_all fuel rx (got ++ [v])
      | Err _ => mret (rx, got)
      end
  end.

Definition sticky_cursor_drains_a_shard_before_advancing : prog Z unit :=
  '(senders, rx) ← channel 2 8 BusySpin;
  senders ← send_at 0 senders 1; senders ← send_at 0 senders 2; senders ← send_at 0 senders 3;
  senders ← send_at 1 senders 10; senders ← send_at 1 senders 20;
  '(rx, got) ← recv_all enough rx [];
  _ ← assert_eq got [1; 2; 3; 10; 20];
  _ ← Receiver_drop rx; drop_senders senders.

Definition visit_budget_advances_cursor_after_32_items : prog Z unit :=
  '(senders, rx) ← channel 2 128 BusySpin;
  senders ← for_each (seqZ 0 40) (λ i senders, send_at 0 senders i) senders;
  senders ← send_at 1 senders 999;
  '(rx, got) ← for_each (seqZ 0 34)
    (λ _ '(rx, got), '(rx, r) ← try_recv rx; v ← unwrap r; mret (rx, got ++ [v])) (rx, []);
  _ ← assert_eq (firstn 32 got) (seqZ 0 32);
  _ ← assert_eq (got !! 32%nat) (Some 999);
  _ ← assert_eq (got !! 33%nat) (Some 32);
  _ ← Receiver_drop rx; drop_senders senders.

(** [senders.pop().unwrap()]. *)
Definition pop {T} (senders : list Sender) : prog T (list Sender * Sender) :=
  match rev senders with
  | [] => Panicked
  | tx :: rest => mret (rev rest, tx)
  end.

Definition disconnect_requires_every_shard : prog Z unit :=
  '(senders, rx) ← channel 2 8 BusySpin;
  senders ← send_at 1 senders 7;
  '(senders, s1) ← pop senders;
  '(senders, s0) ← pop senders;
  _ ← Sender_drop s0;
  '(rx, r) ← try_recv rx; _ ← assert_eq r (Ok 7);
  '(rx, r) ← try_recv rx; _ ← assert_eq r (Err Empty);
  _ ← Sender_drop s1;
  '(rx, r) ← try_recv rx; _ ← assert_eq r (Err RecvDisconnected);
  _ ← Receiver_drop rx; drop_senders senders.

Definition drains_remaining_items_after_all_senders_drop : prog Z unit :=
  '(senders, rx) ← channel 2 8 BusySpin;
  senders ← send_at 0 senders 1;
  senders ← send_at 1 senders 2;
  _ ← drop_senders senders;
  '(rx, r) ← try_recv rx; _ ← assert_eq r (Ok 1);
  '(rx, r) ← try_recv rx; _ ← assert_eq r (Ok 2);
  '(rx, r) ← try_recv rx; _ ← assert_eq r (Err RecvDisconnected);
  Receiver_drop rx.

Definition single_shard_degenerates_cleanly : prog Z unit :=
  '(senders, rx) ← channel 1 4 BusySpin;
  senders ← send_at 0 senders 1;
  senders ← send_at 0 senders 2;
  '(rx, r) ← try_recv rx; _ ← assert_eq r (Ok 1);
  '(rx, r) ← try_recv rx; _ ← assert_eq r (Ok 2);
  '(rx, r) ← try_recv rx; _ ← assert_eq r (Err Empty);
  _ ← Receiver_drop rx; drop_senders senders.

Definition zero_sized_payloads_work : prog unit unit :=
  '(senders, rx) ← channel 2 8 BusySpin;
  senders ← send_at 0 senders tt;
  '(rx, r) ← try_recv rx; _ ← assert_eq r (Ok tt);
  _ ← Receiver_drop rx; drop_senders senders.

Definition suite : list bool :=
  [panics rejects_uneven_split; panics rejects_non_power_of_two_per_shard;
   panics rejects_park_strategy;
   passes (accepts_every_self_waking_strategy [BusySpin; Backoff; BackoffYield]);
   passes drain_sweeps_shards_and_respects_max;
   passes drain_returns_zero_after_disconnect_pair_with_try_recv;
   passes full_is_per_shard_not_total;
   passes sticky_cursor_drains_a_shard_before_advancing;
   passes visit_budget_advances_cursor_after_32_items;
   passes disconnect_requires_every_shard;
   passes drains_remaining_items_after_all_senders_drop;
   passes single_shard_degenerates_cleanly; passes zero_sized_payloads_work].
End tests.
End ShardedTests.

(** ** [src/wait.rs] *)

Module WaitTests.

Definition park_min_is_at_or_above_the_os_timer_floor : prog unit unit :=
  _ ← assert (from_micros 64 <=? PARK_MIN); assert (PARK_MIN <? PARK_MAX).

Definition yielding_ladder_never_escalates_to_parks : prog unit unit :=
  '(yielding, parking) ← for_each (seqZ 0 (SPINS + YIELDS + 5))
    (λ _ '(yielding, parking), yielding ← idle yielding; parking ← idle parking;
                               mret (yielding, parking))
    (for_strategy BackoffYield, for_strategy Backoff);
  _ ← assert (PARK_MIN <? park_for parking);
  assert_eq (park_for yielding) PARK_MIN.

Definition suite : list bool :=
  [passes park_min_is_at_or_above_the_os_timer_floor;
   passes yielding_ladder_never_escalates_to_parks].
End WaitTests.

(** ** They pass *)

Definition all_pass (results : list bool) : Prop := results = replicate (length results) true.

(** 64-bit release and debug builds, 32-bit release builds. *)
Definition platforms : list Target := [x86_64_release; x86_64_debug; arm32_release].

(** The suites pass in 64-bit release and debug builds and in 32-bit release
    ones: the expected panics happen (their messages are not modelled), every
    other test ends with all its assertions true and every block freed, and the
    tests of the MPSC ring do whatever compare-exchanges among the first three
    fail spuriously. Of [src/wait.rs], the two tests that measure time are left
    out. A regression check of the definitions on fixed inputs, no property. *)
Theorem unit_tests_pass :
  Forall (λ t,
    all_pass (@SpscTests.suite t) ∧ all_pass (@ShardedTests.suite t) ∧ all_pass WaitTests.suite ∧
    ∀ b1 b2 b3, all_pass (@MpscTests.suite t [b1; b2; b3])) platforms.
Proof.
  repeat apply Forall_cons_2; [..|apply Forall_nil_2].
  all: split_and!; [..|intros [] [] []]; vm_compute; reflexivity.
Qed.
